(* ===== verification/_CoqProject ===== *)
-Q . S2P
Prelude.v
GoInt.v
Sha256.v
Sha1.v
Externals.v
Instances.v
Record.v
Riblt.v
Snagg.v
SnaggTree.v
SnaggRead.v
SnaggBuild.v
SnaggFind.v
Utf8.v
LtepServices.v
Ltepwire.v
LtepSync.v
Token.v
DhtSchema.v
GoFloat.v
Files.v
Bloom.v
Sources.v
Hex.v
Reputation.v
Trust.v
Admission.v
SpamResistance.v
Misbehavior.v
RecordCache.v
SyncSession.v
Protocol.v
SwarmQuery.v
SyncDispatch.v
Handler.v
Manifest.v
Crawler.v
Backend.v
Aggregate.v
Lookup.v
Indexer.v
Companion.v
Subscriber.v
Signing.v
Queue.v
Tracker.v
Chunker.v
Fetch.v
HtmlText.v
Documents.v
Subtitle.v
Zim.v
ReadSeekerAt.v
Dispatch.v
Pipeline.v
Session.v
