(* ===== verification/Prelude.v ===== *)
(** * SwartzNet: a verification development

    SwartzNet is a BitTorrent client with distributed full-text search.  A node
    publishes signed keyword records and DHT items about the torrents it holds,
    answers the queries of connected peers over the BEP-10 extension
    [sn_search], reconciles its record store with theirs, and weighs what it
    learns by the reputation of whoever said it.  This library models the wire
    and disk contracts of the system and the services that decide what is
    accepted, sent and remembered.  Definitions follow the Go sources under
    [src/]; a definition keeps the name of the function or type it translates.

    ** The parts

    Shared ground.
    - [Prelude]: the error monad, [iter_until] (loops with fuel), folds over
      lists, the generic lemmas and the hint databases.
    - [GoInt], [GoFloat], [Utf8], [Hex], [Sha256], [Sha1]: what the code uses of
      the Go language and its standard library, executable.
    - [Files]: create-temp, write, rename, as the persistent stores do it; which
      system calls fail is an argument.
    - [Externals]: the classes for code outside the repository ([SigScheme] for
      ed25519, [Bencode] for the bencode library), each with its laws in a
      separate class; [Instances] meets the laws with concrete functions.

    Contracts ([src/contracts]), pure functions on bytes.
    - [Record] (record/): identity and signature preimages, proof of work, mining.
    - [Riblt] (riblt/): rateless set reconciliation.
    - [Snagg] (snagg/snagg.go, pages.go), [SnaggTree], [SnaggBuild],
      [SnaggRead], [SnaggFind] (build.go, read.go): the page format, then the
      B-tree, its builder, its reader over a hostile source, and the two composed.
    - [LtepServices], [Ltepwire], [LtepSync] (ltepwire/): the services mask and
      the nine messages of [sn_search].
    - [Token] (token/), [DhtSchema] (dhtschema/): keywords and BEP-44 items.

    Trust ([src/internal/reputation], [trust], [admission], engine/reputation.go).
    - [Bloom], [Sources], [Reputation], [Trust], [Admission]: one state record
      each, one function per method; [Admission] reads the reputation through a
      class that [Reputation] implements.
    - [SpamResistance]: the engine's path from a user's verdict on a hit to the
      filter, the table, the tracker and the trust list.

    Peer search ([src/internal/swarmsearch]).
    - [Misbehavior] (misbehavior.go, ratelimit.go): points, bans, token buckets.
    - [RecordCache] (records.go), [SyncSession] (sync_session.go): the store and
      the state machine of one reconciliation.
    - [Protocol] (protocol.go, ports.go): the state of the engine and the monad
      its handlers are written in; [SwarmQuery] (query.go), [SyncDispatch]
      (sync_dispatch.go, sync_start.go) and [Handler] (handler.go) are the
      outbound queries, the session registry with its pumps, and the dispatch of
      every inbound frame.

    Keyword index ([src/internal/dhtindex]).
    - [Manifest] (manifest.go): the publisher's record of what it announced, kept
      within the size of a DHT item and written to disk.
    - [Crawler] (crawler.go, sample.go): the bounded walk over DHT nodes.
    - [Backend] (backend.go, legacy_keyword.go, memory.go, composite.go,
      publisher.go): the backend interface, a class with its laws, the legacy and
      the composite implementations, and the publisher's loop over it.
    - [Aggregate] (aggregate.go, aggregate_torrent.go): the same interface over a
      signed tree that is built, seeded and announced; it composes [Record],
      [SnaggBuild], [SnaggFind] and [DhtSchema].
    - [Lookup] (lookup.go): the indexers a node knows and the query over them; it
      composes [Token], [Reputation], [Bloom] and [Sources].

    ** How operations are modelled

    A Go method is a function from the state it locks to the new state and its
    results; a method that reads the clock takes the time as an argument, read
    where the code reads it.  An operation that holds one lock for its whole
    body is one step.  Where the code releases a lock between two decisions the
    operation is split at that point and the theorems allow any operation in
    between ([Admission], [SwarmQuery], [SyncDispatch]'s pump).  The handlers of
    [sn_search] run to completion one after the other, except the pump, whose
    rounds interleave with them.  Handlers return the events they would perform
    (frames handed to the transport, replies, calls of the sinks) in order.
    A Go map whose iteration order the code exposes is an argument, or a result
    that the theorems state up to permutation.  A nil pointer or closure is
    [None].  Integers have their Go width, with the wrap-around written out
    where the code can reach it.

    ** What the theorems show

    - Codecs: decoders undo encoders, and what a decoder accepts is within the
      caps, whatever the bytes ([pages_roundtrip],
      [results_and_announcements], [sync_frames], [item_contracts]).
    - Records and trees: mining gives the least nonce and verifies; what a
      reader returns from a hostile tree is authentic and it always ends; a
      built tree returns exactly the matching records.
    - Reconciliation: a decoder never reports a false difference, and reports
      the whole one when it converges; a session over it delivers the missing
      records, within its budgets ([session_reconciles], [session_budgets]).
    - Stores refine simple specifications: a list in LRU or FIFO order, a map of
      trusted keys ([source_tracker_lru], [record_cache_fifo], [trust_store]).
    - Gates: invariants and justifications of admission, the life of a ban, the
      rate of a bucket, what an inbound frame can and cannot do.
    - Keyword index: a manifest stays publishable and survives the disk; a crawl
      ends and keeps to its caps; what is published is found and what is
      retracted stays gone; an aggregate answers as the list of its records does;
      a lookup is the reference merge of its answers ([manifest_publishable],
      [crawl_complete], [published_is_found], [retracted_stays_gone],
      [aggregate_answers], [lookup_answers]).

    ** Fuel

    Every loop that is not structural runs under fuel that a theorem shows to be
    enough: the peeling of the [Riblt] decoder (at most one step per element
    there is), the mining loop (the nonce space), the levels of the tree (each
    is shorter than the one below), the descent of [Find] (page visits are
    bounded by the pages), the pump (its symbol budget).

    ** Assumptions

    The laws of [Externals] and the parameters of each file: an ed25519
    signature that was made verifies; a bencode encoding decodes to what was
    encoded; SHA-256 without collisions where a theorem says so.  The DHT, the
    torrent client and the indexer are ports: arguments that return what the
    environment answers.  Each theorem
    that has a hypothesis comes with a witness that meets it.

    ** Not modelled

    - bencode/ is a thin wrapper of the library that [Externals] describes.
    - The engine around the torrent library (sessions, queue, tracker,
      snapshots, file selection): its state is that of third-party objects.
    - The indexer and its extractors: bleve queries and document formats read by
      third-party parsers.
    - Companion, configuration, identity, signing, search fan-out: small
      compositions, planned after the keyword index.
    - The daemon, the HTTP interface, the GUI, the commands and the scripts:
      wiring and presentation.

    ** Plan

    In order: the companion (builder, publisher, subscriber), the chunker and the
    indexer's pipeline, the engine's queue and file tracker, torrent signing,
    identity and configuration. *)

From Stdlib Require Export ZArith NArith Lia.
From Stdlib Require Export Strings.Byte.
From stdpp Require Export gmap list vector numbers strings sorting.
From stdpp Require Import finite.

#[export] Set Default Goal Selector "!".

(** ** The error monad

    A Go function returning [(T, error)] is a function into [result E T]:
    [Err e] is the early return of a non-nil error. *)
Inductive result (E A : Type) : Type :=
  | Ok (a : A)
  | Err (e : E).
Arguments Ok {E A} a.
Arguments Err {E A} e.

#[export] Instance result_ret E : MRet (result E) := λ A a, Ok a.
#[export] Instance result_bind E : MBind (result E) := λ A B f r,
  match r with Ok a => f a | Err e => Err e end.
#[export] Instance result_fmap E : FMap (result E) := λ A B f r,
  match r with Ok a => Ok (f a) | Err e => Err e end.

Definition is_ok {E A} (r : result E A) : bool :=
  match r with Ok _ => true | Err _ => false end.

(** [check b ! e; k]: the Go idiom [if !b { return e }; k]. *)
Declare Scope sn_scope.
Delimit Scope sn_scope with sn.
Notation "'check' b ! e ; k" := (if b then k else Err e)
  (at level 10, b at level 100, e at level 100, k at level 200,
   format "'[v' 'check'  b  !  e ; '/' k ']'") : sn_scope.
Open Scope sn_scope.

Lemma bind_ok {E A B} (f : A → result E B) (a : A) : (Ok a : result E A) ≫= f = f a.
Proof. done. Qed.

Lemma bind_ok_inv {E A B} (r : result E A) (f : A → result E B) b :
  r ≫= f = Ok b → ∃ a, r = Ok a ∧ f a = Ok b.
Proof. destruct r as [a|e]; [by exists a | done]. Qed.

Lemma Ok_inj {E A} (a b : A) : (Ok a : result E A) = Ok b → a = b.
Proof. congruence. Qed.

Lemma check_ok_inv {E A} (c : bool) (e : E) (k : result E A) b :
  (check c ! e; k) = Ok b → c = true ∧ k = Ok b.
Proof. by destruct c. Qed.

(** Mapping a fallible function over a slice, stopping at the first error. *)
Fixpoint map_result {E A B} (f : A → result E B) (l : list A) : result E (list B) :=
  match l with
  | [] => Ok []
  | x :: l => y ← f x; ys ← map_result f l; Ok (y :: ys)
  end.

Lemma map_result_length {E A B} (f : A → result E B) l k :
  map_result f l = Ok k → length k = length l.
Proof.
  revert k. induction l as [|x l IH]; intros k Hk; simpl in Hk; [by injection Hk as <- |].
  destruct (f x) as [y|]; [|done]. destruct (map_result f l) as [ys|]; [|done].
  injection Hk as <-. simpl. by rewrite (IH ys).
Qed.

Lemma map_result_lookup {E A B} (f : A → result E B) l ys :
  length l = length ys → (∀ k x y, l !! k = Some x → ys !! k = Some y → f x = Ok y) →
  map_result f l = Ok ys.
Proof.
  revert ys. induction l as [|x l IH]; intros [|y ys] Hlen H; try done. simpl.
  rewrite (H 0 x y eq_refl eq_refl). simpl. rewrite (IH ys); [done | by injection Hlen |].
  intros k a b Ha Hb. by apply (H (S k)).
Qed.

Lemma map_result_app {E A B} (f : A → result E B) l k :
  map_result f (l ++ k) = xs ← map_result f l; ys ← map_result f k; Ok (xs ++ ys).
Proof.
  induction l as [|x l IH]; simpl; [by destruct (map_result f k) |].
  destruct (f x) as [y|]; [|done]. simpl. rewrite IH.
  destruct (map_result f l); [|done]. simpl. by destruct (map_result f k).
Qed.

(** A loop over a slice that threads a state and may return early. *)
Fixpoint fold_result {E A S} (f : S → A → result E S) (s : S) (l : list A) : result E S :=
  match l with
  | [] => Ok s
  | x :: l => s ← f s x; fold_result f s l
  end.

Lemma fold_result_inv {E A S} (f : S → A → result E S) (I : list A → S → Prop) s l s' :
  I [] s → (∀ k x a b, I k a → f a x = Ok b → I (k ++ [x]) b) →
  fold_result f s l = Ok s' → I l s'.
Proof.
  intros H0 Hstep. rewrite <-(app_nil_l l) at 2. revert H0. generalize (@nil A) as k. revert s.
  induction l as [|x l IH]; intros s k Hk Hf; simpl in Hf.
  - rewrite app_nil_r. by injection Hf as <-.
  - destruct (f s x) as [a|] eqn:E1; [|done]. rewrite (cons_middle x k l), app_assoc.
    eapply IH; [|exact Hf]. by eapply Hstep.
Qed.

Lemma fold_result_total {E A S} (f : S → A → result E S) (P : A → Prop) (I : list A → S → Prop)
    s l :
  Forall P l → I [] s → (∀ k x a, P x → I k a → ∃ b, f a x = Ok b ∧ I (k ++ [x]) b) →
  ∃ s', fold_result f s l = Ok s' ∧ I l s'.
Proof.
  intros HP H0 Hstep.
  assert (Hgen : ∀ k s, I k s → ∃ s', fold_result f s l = Ok s' ∧ I (k ++ l) s');
    [clear s H0 | by apply (Hgen [])].
  induction HP as [|x l Hx HP IH]; intros k s Hk; simpl.
  - rewrite app_nil_r. by exists s.
  - destruct (Hstep k x s Hx Hk) as (b & -> & Hb). simpl.
    rewrite (cons_middle x k l), app_assoc. by apply IH.
Qed.

Lemma fold_result_app {E A S} (f : S → A → result E S) s l k :
  fold_result f s (l ++ k) = s' ← fold_result f s l; fold_result f s' k.
Proof.
  revert s. induction l as [|x l IH]; intros s; simpl; [done |].
  destruct (f s x); [apply IH | done].
Qed.

Lemma fold_result_concat {E A S} (f : S → A → result E S) s ls :
  fold_result (fold_result f) s ls = fold_result f s (concat ls).
Proof.
  revert s. induction ls as [|l ls IH]; intros s; simpl; [done |].
  rewrite fold_result_app. destruct (fold_result f s l); [apply IH | done].
Qed.

Lemma fold_result_ext {E A S} (f g : S → A → result E S) s l :
  (∀ s x, x ∈ l → f s x = g s x) → fold_result f s l = fold_result g s l.
Proof.
  revert s. induction l as [|x l IH]; intros s H; simpl; [done |].
  rewrite (H s x) by (by left). destruct (g s x); [|done]. simpl.
  apply IH. intros. apply H. by right.
Qed.

(** ** Bytes *)
Abbreviation byte := Init.Byte.byte.
Abbreviation bytes := (list byte).

Definition b2z (b : byte) : Z := Z.of_N (Byte.to_N b).
Definition z2b (z : Z) : byte := default x00 (Byte.of_N (Z.to_N (z mod 256))).

Lemma b2z_range b : (0 ≤ b2z b < 256)%Z.
Proof. unfold b2z. pose proof (Byte.to_N_bounded b). lia. Qed.

Lemma z2b_b2z b : z2b (b2z b) = b.
Proof.
  unfold z2b. rewrite Z.mod_small by apply b2z_range.
  unfold b2z. by rewrite N2Z.id, Byte.of_to_N.
Qed.

Lemma z2b_mod z : z2b (z mod 256) = z2b z.
Proof. unfold z2b. by rewrite Zmod_mod. Qed.

Lemma b2z_z2b z : b2z (z2b z) = (z mod 256)%Z.
Proof.
  unfold z2b, b2z. pose proof (Z.mod_pos_bound z 256 eq_refl) as Hz.
  destruct (Byte.of_N (Z.to_N (z mod 256))) as [b|] eqn:Hb; simpl.
  - apply Byte.to_of_N in Hb. rewrite Hb. lia.
  - apply Byte.of_N_None_iff in Hb. lia.
Qed.

Lemma b2z_z2b_small z : (0 ≤ z < 256)%Z → b2z (z2b z) = z.
Proof. intros. by rewrite b2z_z2b, Z.mod_small. Qed.

#[export] Instance b2z_inj : Inj (=) (=) b2z.
Proof. intros a b Hab. by rewrite <-(z2b_b2z a), Hab, z2b_b2z. Qed.

#[export] Instance byte_eq_dec : EqDecision byte := Byte.byte_eq_dec.
#[export] Instance byte_countable : Countable byte := inj_countable' b2z z2b z2b_b2z.

#[export] Program Instance byte_finite : Finite byte := {| enum := z2b <$> seqZ 0 256 |}.
Next Obligation. apply (bool_decide_unpack _). by vm_compute. Qed.
Next Obligation.
  intros b. apply list_elem_of_fmap. exists (b2z b).
  rewrite z2b_b2z, elem_of_seqZ. pose proof (b2z_range b). split; [done | lia].
Qed.

(** Exclusive or, the only bitwise operation the code performs on bytes. *)
Definition bxor (a b : byte) : byte := z2b (Z.lxor (b2z a) (b2z b)).

Lemma lxor_bound n a b :
  (0 ≤ n → 0 ≤ a < 2 ^ n → 0 ≤ b < 2 ^ n → 0 ≤ Z.lxor a b < 2 ^ n)%Z.
Proof.
  intros Hn Ha Hb. split; [apply Z.lxor_nonneg; lia |].
  destruct (decide (Z.lxor a b = 0)%Z) as [->|Hne]; [lia |].
  apply Z.log2_lt_pow2; [pose proof (Z.lxor_nonneg a b); lia |].
  assert (0 < n)%Z by (destruct (decide (n = 0)%Z); subst; [ | lia]; simpl in *;
    assert (a = 0)%Z as -> by lia; assert (b = 0)%Z as -> by lia; done).
  eapply Z.le_lt_trans; [apply Z.log2_lxor; lia |].
  apply Z.max_lub_lt.
  - destruct (decide (a = 0)%Z) as [->|]; [simpl; lia | apply Z.log2_lt_pow2; lia].
  - destruct (decide (b = 0)%Z) as [->|]; [simpl; lia | apply Z.log2_lt_pow2; lia].
Qed.

Lemma b2z_bxor a b : b2z (bxor a b) = Z.lxor (b2z a) (b2z b).
Proof.
  unfold bxor. apply b2z_z2b_small.
  apply (lxor_bound 8); [lia | apply b2z_range..].
Qed.

#[export] Instance bxor_comm : Comm (=) bxor.
Proof. intros a b. apply (inj b2z). by rewrite !b2z_bxor, Z.lxor_comm. Qed.
#[export] Instance bxor_assoc : Assoc (=) bxor.
Proof. intros a b c. apply (inj b2z). by rewrite !b2z_bxor, Z.lxor_assoc. Qed.
#[export] Instance bxor_left_id : LeftId (=) x00 bxor.
Proof. intros a. apply (inj b2z). by rewrite b2z_bxor. Qed.
Lemma bxor_nilpotent a : bxor a a = x00.
Proof. apply (inj b2z). by rewrite b2z_bxor, Z.lxor_nilpotent. Qed.

(** ** Fixed-width arrays

    A Go array [[n]byte] is a [vec byte n]; [copy(a[:], s)] into a zero array
    is [copy_arr n s], which truncates and zero-pads the way [copy] does. *)
Abbreviation array n := (vec byte n).

Fixpoint copy_arr (n : nat) (s : bytes) : array n :=
  match n with
  | O => [#]
  | S n => match s with
           | [] => x00 ::: copy_arr n []
           | b :: s => b ::: copy_arr n s
           end
  end.

Definition zero_arr (n : nat) : array n := vreplicate n x00.

(** The whole-array slice [a[:]]. *)
Definition sl {n} (a : array n) : bytes := vec_to_list a.

Lemma length_sl {n} (a : array n) : length (sl a) = n.
Proof. apply length_vec_to_list. Qed.

Lemma sl_inj {n} (a b : array n) : sl a = sl b → a = b.
Proof. apply vec_to_list_inj2. Qed.

Lemma copy_arr_sl {n} (a : array n) : copy_arr n (sl a) = a.
Proof. unfold sl. induction a as [|b n a IH]; simpl; [done | by rewrite IH]. Qed.

Lemma sl_copy_arr n s : length s = n → sl (copy_arr n s) = s.
Proof.
  revert s. induction n as [|n IH]; intros [|b s] Hs; simplify_eq/=; [done |].
  unfold sl in *. simpl. f_equal. by apply IH.
Qed.

(** Arrays are countable through their bytes (an instance that computes, unlike
    the one for vectors). *)
#[export] Instance array_countable n : Countable (array n) :=
  inj_countable' (@sl n) (copy_arr n) copy_arr_sl.

#[global] Arguments copy_arr : simpl never.
#[global] Arguments sl : simpl never.

Definition axor {n} (a b : array n) : array n := vzip_with bxor a b.

Lemma axor_lookup {n} (a b : array n) i : axor a b !!! i = bxor (a !!! i) (b !!! i).
Proof. apply vlookup_zip_with. Qed.

#[export] Instance axor_comm n : Comm (=) (@axor n).
Proof. intros a b. apply vec_eq. intros i. rewrite !axor_lookup. apply (comm bxor). Qed.
#[export] Instance axor_assoc n : Assoc (=) (@axor n).
Proof. intros a b c. apply vec_eq. intros i. rewrite !axor_lookup. apply (assoc bxor). Qed.
#[export] Instance axor_left_id n : LeftId (=) (zero_arr n) (@axor n).
Proof.
  intros a. apply vec_eq. intros i. rewrite axor_lookup. unfold zero_arr.
  rewrite vlookup_replicate. apply (left_id x00 bxor).
Qed.
Lemma axor_nilpotent {n} (a : array n) : axor a a = zero_arr n.
Proof.
  apply vec_eq. intros i. rewrite axor_lookup, bxor_nilpotent. unfold zero_arr.
  by rewrite vlookup_replicate.
Qed.

Lemma axor_0_l {n} (a : array n) : axor (zero_arr n) a = a.
Proof. apply (left_id (zero_arr n) axor). Qed.
Lemma axor_0_r {n} (a : array n) : axor a (zero_arr n) = a.
Proof. rewrite (comm axor). apply axor_0_l. Qed.
Lemma axor_cancel_r {n} (a b : array n) : axor (axor a b) b = a.
Proof. by rewrite <-(assoc axor), axor_nilpotent, axor_0_r. Qed.
#[global] Arguments axor : simpl never.
#[global] Arguments zero_arr : simpl never.

(** Byte-string literals from ASCII text. *)
Definition str (s : string) : bytes := String.list_byte_of_string s.

(** ** Lists *)
Lemma Forall_all {A} (P : A → Prop) (l : list A) : (∀ x, P x) → Forall P l.
Proof. intros H. by apply Forall_true. Qed.

Lemma take_app_exact {A} (l k : list A) n : n = length l → take n (l ++ k) = l.
Proof. intros ->. apply take_app_length. Qed.

Lemma drop_app_exact {A} (l k : list A) n : n = length l → drop n (l ++ k) = k.
Proof. intros ->. apply drop_app_length. Qed.

Lemma filter_all {A} (P : A → Prop) `{∀ x, Decision (P x)} (l : list A) :
  Forall P l → filter P l = l.
Proof. induction 1 as [|x l Hx Hl IH]; [done |]. by rewrite filter_cons_True, IH. Qed.

Lemma filter_none {A} (P : A → Prop) `{∀ x, Decision (P x)} (l : list A) :
  Forall (λ x, ¬ P x) l → filter P l = [].
Proof. induction 1 as [|x l Hx Hl IH]; [done |]. by rewrite filter_cons_False, IH. Qed.

Lemma NoDup_fmap_eq {A B} (f : A → B) (l : list A) x y :
  NoDup (f <$> l) → x ∈ l → y ∈ l → f x = f y → x = y.
Proof.
  intros Hn. induction l as [|z l IH]; [by intros ?%not_elem_of_nil |].
  rewrite fmap_cons in Hn. apply NoDup_cons in Hn as [Hz Hn]. rewrite !elem_of_cons.
  intros [->|Hx] [->|Hy] Hf; try done; [| | by apply IH].
  - destruct Hz. rewrite Hf. by apply list_elem_of_fmap_2.
  - destruct Hz. rewrite <-Hf. by apply list_elem_of_fmap_2.
Qed.

Lemma foldl_concat {A B} (f : B → A → B) s ls : foldl (foldl f) s ls = foldl f s (concat ls).
Proof.
  revert s. induction ls as [|l ls IH]; intros s; simpl; [done |]. by rewrite foldl_app, IH.
Qed.

Lemma list_elem_of_concat {A} (x : A) (ls : list (list A)) :
  x ∈ concat ls ↔ ∃ l, l ∈ ls ∧ x ∈ l.
Proof.
  rewrite list_elem_of_In, in_concat. setoid_rewrite list_elem_of_In. naive_solver.
Qed.

Lemma concat_fmap_filter {A} (P : A → Prop) `{∀ x, Decision (P x)} (ls : list (list A)) :
  filter P (concat ls) = concat (filter P <$> ls).
Proof. induction ls as [|l ls IH]; [done |]. simpl. by rewrite filter_app, IH. Qed.

Lemma List_filter_perm {A} (f : A → bool) l k :
  l ≡ₚ k → List.filter f l ≡ₚ List.filter f k.
Proof.
  induction 1 as [|x l k _ IH|x y l|l k m _ IH1 _ IH2]; simpl.
  - done.
  - case_match; [by constructor | done].
  - repeat case_match; try done. constructor.
  - by rewrite IH1.
Qed.

(** *** Stable sorting

    [sort.SliceStable]: the one result that keeps equal elements in order. *)
Fixpoint sort_insert {A} (less : A → A → bool) (x : A) (l : list A) : list A :=
  match l with
  | [] => [x]
  | y :: l => if less y x then y :: sort_insert less x l else x :: y :: l
  end.
Definition stable_sort {A} (less : A → A → bool) (l : list A) : list A :=
  foldr (sort_insert less) [] l.

Lemma sort_insert_perm {A} less (x : A) l : sort_insert less x l ≡ₚ x :: l.
Proof.
  induction l as [|y l IH]; simpl; [done |]. destruct (less y x); [|done]. rewrite IH. constructor.
Qed.

Lemma stable_sort_perm {A} less (l : list A) : stable_sort less l ≡ₚ l.
Proof. induction l as [|x l IH]; simpl; [done |]. by rewrite sort_insert_perm, IH. Qed.

(** No element comes after one it is less than. *)
Lemma stable_sort_sorted {A} (less : A → A → bool) (l : list A) :
  (∀ x y, less x y = true → less y x = false) →
  (∀ x y z, less y x = false → less z y = false → less z x = false) →
  StronglySorted (λ x y, less y x = false) (stable_sort less l).
Proof.
  intros Hasym Htrans. induction l as [|x l IH]; simpl; [constructor |].
  induction IH as [|y k Hk IHk Hy]; simpl; [repeat constructor |].
  destruct (less y x) eqn:E.
  - constructor; [done |]. rewrite sort_insert_perm. constructor; [by apply Hasym | done].
  - constructor; [by constructor |]. constructor; [done |].
    eapply Forall_impl; [exact Hy |]. intros z Hz. by apply (Htrans x y z).
Qed.

(** *** First uses

    A loop that appends a key to a list the first time it meets it. *)
Definition add_new {K} `{EqDecision K} (o : list K) (k : K) : list K :=
  if bool_decide (k ∈ o) then o else o ++ [k].
Definition distinct {K} `{EqDecision K} (l : list K) : list K := foldl add_new [] l.

Lemma distinct_spec {K} `{EqDecision K} (l : list K) :
  NoDup (distinct l) ∧ ∀ k, k ∈ distinct l ↔ k ∈ l.
Proof.
  unfold distinct.
  assert (Hg : ∀ l o : list K, NoDup o → NoDup (foldl add_new o l) ∧
    ∀ k, k ∈ foldl add_new o l ↔ k ∈ o ∨ k ∈ l).
  { clear l. induction l as [|x l IH]; intros o Ho; simpl.
    { split; [done |]. intros k. rewrite elem_of_nil. tauto. }
    destruct (IH (add_new o x)) as [Hn He].
    { unfold add_new. case_bool_decide; [done |]. apply NoDup_app. split; [done |].
      split; [|apply NoDup_singleton]. intros y Hy ->%list_elem_of_singleton. done. }
    split; [done |]. intros k. rewrite He, elem_of_cons. unfold add_new.
    case_bool_decide as Hx; [|rewrite elem_of_app, list_elem_of_singleton; tauto].
    split; [tauto |]. intros [?|[->|?]]; tauto. }
  destruct (Hg l [] (NoDup_nil_2)) as [Hn He]. split; [done |]. intros k. rewrite He, elem_of_nil. tauto.
Qed.

(** The first element of each key. *)
Section firsts.
Context {A K : Type} `{EqDecision K} (key : A → K).

Definition add_first (l : list A) (x : A) : list A :=
  if bool_decide (key x ∈ key <$> l) then l else l ++ [x].
Definition firsts (l : list A) : list A := foldl add_first [] l.

Lemma firsts_keys l : key <$> firsts l = distinct (key <$> l).
Proof.
  induction l as [|c l IH] using rev_ind; [done |].
  unfold firsts, distinct in *. rewrite foldl_app, fmap_app, foldl_app. simpl.
  rewrite <-IH. unfold add_first, add_new. case_bool_decide; [done |]. by rewrite fmap_app.
Qed.

Lemma firsts_incl l c : c ∈ firsts l → c ∈ l.
Proof.
  induction l as [|x l IH] using rev_ind; [done |]. unfold firsts. rewrite foldl_app. simpl.
  fold (firsts l). unfold add_first. rewrite elem_of_app.
  case_bool_decide; [by left; apply IH |]. rewrite elem_of_app. intros [?|?]; [left; by apply IH | by right].
Qed.

Lemma firsts_NoDup l : NoDup (key <$> firsts l).
Proof. rewrite firsts_keys. apply distinct_spec. Qed.
End firsts.

(** *** Grouping

    A loop that keeps one accumulator per key, made when the key is first met,
    and the keys in the order of their first use. *)
Section group.
Context {A K B : Type} `{Countable K} (key : A → K) (init : A → B) (upd : A → B → B).

Definition group_step (s : gmap K B * list K) (x : A) : gmap K B * list K :=
  match s.1 !! key x with
  | Some b => (<[key x := upd x b]> s.1, s.2)
  | None => (<[key x := upd x (init x)]> s.1, s.2 ++ [key x])
  end.
Definition group (l : list A) : gmap K B * list K := foldl group_step (∅, []) l.

(** The accumulator of one key. *)
Definition group_of (l : list A) : option B :=
  match l with [] => None | x :: _ => Some (foldl (λ b x, upd x b) (init x) l) end.

Lemma group_of_snoc l x :
  group_of (l ++ [x]) = Some (upd x (match group_of l with Some b => b | None => init x end)).
Proof. destruct l as [|y l]; [done |]. simpl. by rewrite foldl_app. Qed.

Lemma group_spec l :
  (group l).2 = distinct (key <$> l) ∧
  ∀ k, (group l).1 !! k = group_of (filter (λ x, key x = k) l).
Proof.
  induction l as [|x l IH] using rev_ind; [split; [done | intros k; apply lookup_empty] |].
  destruct IH as [Ho Hm]. unfold group in *. rewrite foldl_app, fmap_app.
  set (s := foldl group_step (∅, []) l) in *. simpl. unfold distinct. rewrite foldl_app.
  fold (distinct (key <$> l)). simpl. rewrite <-Ho. unfold group_step, add_new.
  assert (Hin : key x ∈ s.2 ↔ is_Some (s.1 !! key x)).
  { rewrite Ho, (proj2 (distinct_spec _)), Hm, list_elem_of_fmap. split.
    - intros (y & Hy & Hin). assert (Hf : y ∈ filter (λ z, key z = key x) l)
        by (by apply list_elem_of_filter).
      destruct (filter _ l); [by apply not_elem_of_nil in Hf | by eexists].
    - intros [b Hb]. destruct (filter (λ z, key z = key x) l) as [|y k] eqn:E; [done |].
      assert (Hy : y ∈ filter (λ z, key z = key x) l) by (rewrite E; by left).
      apply list_elem_of_filter in Hy as [? ?]. by exists y. }
  assert (Hlook : ∀ k, group_of (filter (λ z, key z = k) (l ++ [x]))
    = if decide (key x = k)
      then Some (upd x (match s.1 !! k with Some b => b | None => init x end)) else s.1 !! k).
  { intros k. rewrite filter_app, Hm. destruct (decide (key x = k)) as [He|Hne].
    - rewrite filter_cons_True, filter_nil by done. apply group_of_snoc.
    - rewrite filter_cons_False, filter_nil, app_nil_r by done. done. }
  destruct (s.1 !! key x) as [b|] eqn:E; simpl.
  - rewrite bool_decide_true by (apply Hin; by eexists). split; [done |]. intros k.
    rewrite Hlook, lookup_insert. destruct (decide (key x = k)) as [<-|]; [by rewrite E | done].
  - rewrite bool_decide_false by (rewrite Hin; by intros []). split; [done |]. intros k.
    rewrite Hlook, lookup_insert. destruct (decide (key x = k)) as [<-|]; [by rewrite E | done].
Qed.
End group.

(** ** Loops

    [iter_until p f s] iterates [f] from [s] until it answers [None] (the loop
    exits), giving up after [p] rounds.  The fuel is a binary number and the
    recursion is lazy in it, so a bound such as [2^256] costs nothing: a run
    takes as many steps as the loop does. *)
Fixpoint iter_until {A} (p : positive) (f : A → option A) (s : A) : A * bool :=
  match p with
  | xH => match f s with Some s' => (s', false) | None => (s, true) end
  | xO p =>
      match iter_until p f s with
      | (s', true) => (s', true)
      | (s', false) => iter_until p f s'
      end
  | xI p =>
      match iter_until p f s with
      | (s', true) => (s', true)
      | (s', false) =>
          match iter_until p f s' with
          | (s'', true) => (s'', true)
          | (s'', false) =>
              match f s'' with Some s3 => (s3, false) | None => (s'', true) end
          end
      end
  end.

(** The same loop with unary fuel, the form induction likes. *)
Fixpoint iter_nat {A} (n : nat) (f : A → option A) (s : A) : A * bool :=
  match n with
  | O => (s, false)
  | S n => match f s with Some s' => iter_nat n f s' | None => (s, true) end
  end.

Lemma iter_nat_add {A} (f : A → option A) n m s :
  iter_nat (n + m) f s =
    match iter_nat n f s with (s', true) => (s', true) | (s', false) => iter_nat m f s' end.
Proof.
  revert s. induction n as [|n IH]; intros s; [done |].
  simpl. destruct (f s) as [s'|]; [apply IH | done].
Qed.

Lemma iter_until_nat {A} (f : A → option A) p s :
  iter_until p f s = iter_nat (Pos.to_nat p) f s.
Proof.
  revert s. induction p as [p IH|p IH|]; intros s.
  - rewrite Pos2Nat.inj_xI. simpl iter_until.
    replace (S (2 * Pos.to_nat p)) with (Pos.to_nat p + (Pos.to_nat p + 1)) by lia.
    rewrite !iter_nat_add, IH. destruct (iter_nat _ f s) as [s' []]; [done |].
    rewrite iter_nat_add, IH. destruct (iter_nat _ f s') as [s'' []]; [done |].
    simpl. by destruct (f s'').
  - rewrite Pos2Nat.inj_xO. simpl iter_until.
    replace (2 * Pos.to_nat p) with (Pos.to_nat p + Pos.to_nat p) by lia.
    rewrite iter_nat_add, IH. destruct (iter_nat _ f s) as [s' []]; [done |]. apply IH.
  - simpl. by destruct (f s).
Qed.

(** Loop invariants hold at the exit, where the body answers [None]. *)
Lemma iter_nat_inv {A} (f : A → option A) (I : A → Prop) n s :
  I s → (∀ x y, I x → f x = Some y → I y) → I (iter_nat n f s).1.
Proof.
  intros Hs Hf. revert s Hs. induction n as [|n IH]; intros s Hs; [done |].
  simpl. destruct (f s) as [s'|] eqn:E; [|done]. apply IH. eauto.
Qed.

Lemma iter_nat_exit {A} (f : A → option A) n s :
  (iter_nat n f s).2 = true → f (iter_nat n f s).1 = None.
Proof.
  revert s. induction n as [|n IH]; intros s; [done |].
  simpl. destruct (f s) as [s'|] eqn:E; [apply IH | done].
Qed.

(** A loop whose body strictly decreases a natural-number measure exits. *)
Lemma iter_nat_terminates {A} (f : A → option A) (I : A → Prop) (m : A → nat) n s :
  I s → (∀ x y, I x → f x = Some y → I y ∧ m y < m x) →
  m s < n → (iter_nat n f s).2 = true.
Proof.
  intros Hs Hf. revert s Hs. induction n as [|n IH]; intros s Hs Hn; [lia |].
  simpl. destruct (f s) as [s'|] eqn:E; [|done].
  destruct (Hf s s' Hs E). apply IH; [done | lia].
Qed.

Lemma iter_until_inv {A} (f : A → option A) (I : A → Prop) p s :
  I s → (∀ x y, I x → f x = Some y → I y) → I (iter_until p f s).1.
Proof. rewrite iter_until_nat. apply iter_nat_inv. Qed.

Lemma iter_until_exit {A} (f : A → option A) p s :
  (iter_until p f s).2 = true → f (iter_until p f s).1 = None.
Proof. rewrite iter_until_nat. apply iter_nat_exit. Qed.

Lemma iter_until_terminates {A} (f : A → option A) (I : A → Prop) (m : A → nat) p s :
  I s → (∀ x y, I x → f x = Some y → I y ∧ m y < m x) →
  m s < Pos.to_nat p → (iter_until p f s).2 = true.
Proof. rewrite iter_until_nat. apply iter_nat_terminates. Qed.

(** ** Automation *)

(** Split every monadic success hypothesis into its steps. *)
Ltac ok_inv :=
  repeat match goal with
  | H : Ok _ = Ok _ |- _ => injection H as H; try subst
  | H : Err _ = Ok _ |- _ => discriminate H
  | H : _ ≫= _ = Ok _ |- _ =>
      apply bind_ok_inv in H; let a := fresh "a" in let E := fresh "E" in
      destruct H as (a & E & H)
  | H : (check _ ! _; _) = Ok _ |- _ =>
      apply check_ok_inv in H; let E := fresh "C" in destruct H as [E H]
  | H : context [match ?x with Some _ => _ | None => Err _ end] |- _ =>
      let E := fresh "E" in destruct x eqn:E; [|discriminate H]
  end.

Ltac b2p :=
  repeat match goal with
  | H : bool_decide _ = true |- _ => apply bool_decide_eq_true in H
  | H : bool_decide _ = false |- _ => apply bool_decide_eq_false in H
  | H : _ && _ = true |- _ => apply andb_true_iff in H; destruct H
  | H : _ || _ = false |- _ => apply orb_false_iff in H; destruct H
  | H : negb _ = true |- _ => apply negb_true_iff in H
  | H : negb _ = false |- _ => apply negb_false_iff in H
  | H : (_ =? _)%Z = true |- _ => apply Z.eqb_eq in H
  | H : (_ =? _)%Z = false |- _ => apply Z.eqb_neq in H
  | H : (_ <? _)%Z = true |- _ => apply Z.ltb_lt in H
  | H : (_ <? _)%Z = false |- _ => apply Z.ltb_ge in H
  | H : (_ <=? _)%Z = true |- _ => apply Z.leb_le in H
  | H : (_ <=? _)%Z = false |- _ => apply Z.leb_gt in H
  | H : (_ =? _)%nat = true |- _ => apply Nat.eqb_eq in H
  | H : (_ =? _)%nat = false |- _ => apply Nat.eqb_neq in H
  | H : (_ <? _)%nat = true |- _ => apply Nat.ltb_lt in H
  | H : (_ <? _)%nat = false |- _ => apply Nat.ltb_ge in H
  | H : (_ <=? _)%nat = true |- _ => apply Nat.leb_le in H
  | H : (_ <=? _)%nat = false |- _ => apply Nat.leb_gt in H
  end.

Create HintDb sn discriminated.
#[export] Hint Resolve b2z_range length_sl sl_copy_arr : sn.
Create Rewrite HintDb sn.
#[export] Hint Rewrite @copy_arr_sl @length_sl z2b_b2z b2z_z2b : sn.
