(* ===== verification/GoInt.v ===== *)
(** * Go integers and byte codecs

    The fixed-width integers of the Go language, the little-endian and varint
    codecs of [encoding/binary], [bytes.Compare], [strings.HasPrefix] and the
    FNV-1a hash of [hash/fnv].  A [uintN] or [intN] is a [Z] kept in range by
    the wrap-around functions below; [int] is 64 bits wide. *)

From S2P Require Import Prelude.
Open Scope Z_scope.

(** ** Wrap-around *)
Definition u8 (z : Z) : Z := z mod 2 ^ 8.
Definition u16 (z : Z) : Z := z mod 2 ^ 16.
Definition u32 (z : Z) : Z := z mod 2 ^ 32.
Definition u64 (z : Z) : Z := z mod 2 ^ 64.
Definition i32 (z : Z) : Z := (z + 2 ^ 31) mod 2 ^ 32 - 2 ^ 31.
Definition i64 (z : Z) : Z := (z + 2 ^ 63) mod 2 ^ 64 - 2 ^ 63.

Definition is_u16 (z : Z) : Prop := 0 ≤ z < 2 ^ 16.
Definition is_u32 (z : Z) : Prop := 0 ≤ z < 2 ^ 32.
Definition is_u64 (z : Z) : Prop := 0 ≤ z < 2 ^ 64.
Definition is_i64 (z : Z) : Prop := - 2 ^ 63 ≤ z < 2 ^ 63.

(** [len(s)]. *)
Definition len {A} (l : list A) : Z := Z.of_nat (length l).

Lemma len_nonneg {A} (l : list A) : 0 ≤ len l.
Proof. unfold len. lia. Qed.
Lemma len_app {A} (l k : list A) : len (l ++ k) = len l + len k.
Proof. unfold len. rewrite length_app. lia. Qed.
Lemma len_cons {A} (x : A) l : len (x :: l) = 1 + len l.
Proof. unfold len. simpl length. lia. Qed.
Lemma len_nil {A} : len (@nil A) = 0.
Proof. done. Qed.
Lemma len_sl {n} (a : array n) : len (sl a) = Z.of_nat n.
Proof. unfold len. by rewrite length_sl. Qed.

Lemma u64_small z : is_u64 z → u64 z = z.
Proof. intros. by apply Z.mod_small. Qed.
Lemma u64_range z : is_u64 (u64 z).
Proof. by apply Z.mod_pos_bound. Qed.
Lemma u32_small z : is_u32 z → u32 z = z.
Proof. intros. by apply Z.mod_small. Qed.
Lemma u16_small z : is_u16 z → u16 z = z.
Proof. intros. by apply Z.mod_small. Qed.
Lemma u16_range z : is_u16 (u16 z).
Proof. by apply Z.mod_pos_bound. Qed.
Lemma u32_range z : is_u32 (u32 z).
Proof. by apply Z.mod_pos_bound. Qed.
Lemma i64_small z : is_i64 z → i64 z = z.
Proof. unfold is_i64, i64. intros. rewrite Z.mod_small; lia. Qed.
Lemma i64_range z : is_i64 (i64 z).
Proof.
  unfold is_i64, i64. pose proof (Z.mod_pos_bound (z + 2 ^ 63) (2 ^ 64) eq_refl). lia.
Qed.

(** Signed and unsigned views of one 64-bit word. *)
Lemma i64_u64 z : is_i64 z → i64 (u64 z) = z.
Proof.
  unfold is_i64, i64, u64. intros.
  rewrite Zplus_mod_idemp_l, Z.mod_small; lia.
Qed.

Lemma u64_i64 z : is_u64 z → u64 (i64 z) = z.
Proof.
  unfold is_u64, i64, u64. intros.
  destruct (Z.ltb_spec z (2 ^ 63)).
  - rewrite (Z.mod_small (z + 2 ^ 63)) by lia. rewrite Z.mod_small; lia.
  - replace (z + 2 ^ 63) with (z - 2 ^ 63 + 1 * 2 ^ 64) by lia.
    rewrite Z_mod_plus_full, (Z.mod_small (z - 2 ^ 63)) by lia.
    replace (z - 2 ^ 63 - 2 ^ 63) with (z + (-1) * 2 ^ 64) by lia.
    rewrite Z_mod_plus_full, Z.mod_small; lia.
Qed.

(** Wrapping is a ring congruence, so it commutes with addition. *)
Lemma i32_add_l a b : i32 (i32 a + b) = i32 (a + b).
Proof.
  unfold i32. f_equal.
  replace ((a + 2 ^ 31) mod 2 ^ 32 - 2 ^ 31 + b + 2 ^ 31)
    with ((a + 2 ^ 31) mod 2 ^ 32 + b) by lia.
  rewrite Zplus_mod_idemp_l. f_equal. lia.
Qed.
Lemma i32_add_r a b : i32 (a + i32 b) = i32 (a + b).
Proof. by rewrite Z.add_comm, i32_add_l, Z.add_comm. Qed.
Lemma i32_sub_r a b : i32 (a - i32 b) = i32 (a - b).
Proof.
  unfold i32. f_equal.
  replace (a - ((b + 2 ^ 31) mod 2 ^ 32 - 2 ^ 31) + 2 ^ 31)
    with ((a + 2 * 2 ^ 31) - (b + 2 ^ 31) mod 2 ^ 32) by lia.
  rewrite Zminus_mod_idemp_r. f_equal. lia.
Qed.
Lemma i32_sub_l a b : i32 (i32 a - b) = i32 (a - b).
Proof. rewrite <-!Z.add_opp_r. apply i32_add_l. Qed.
Lemma i32_small z : - 2 ^ 31 ≤ z < 2 ^ 31 → i32 z = z.
Proof. unfold i32. intros. rewrite Z.mod_small; lia. Qed.

(** ** Little-endian words (binary.LittleEndian) *)
Fixpoint put_le (n : nat) (z : Z) : bytes :=
  match n with
  | O => []
  | S n => z2b z :: put_le n (Z.shiftr z 8)
  end.

Fixpoint get_le (s : bytes) : Z :=
  match s with
  | [] => 0
  | b :: s => b2z b + 256 * get_le s
  end.

Lemma length_put_le n z : length (put_le n z) = n.
Proof. revert z. induction n as [|n IH]; intros z; simpl; [done | by rewrite IH]. Qed.
Lemma len_put_le n z : len (put_le n z) = Z.of_nat n.
Proof. unfold len. by rewrite length_put_le. Qed.

Lemma get_le_range s : 0 ≤ get_le s < 256 ^ len s.
Proof.
  induction s as [|b s IH]; [by simpl|].
  rewrite len_cons, Z.pow_add_r by (try apply len_nonneg; lia). simpl get_le.
  pose proof (b2z_range b). nia.
Qed.

Lemma get_le_app s t : get_le (s ++ t) = get_le s + 256 ^ len s * get_le t.
Proof.
  induction s as [|x s IH]; [by simpl; destruct (get_le t) |].
  simpl app. simpl get_le. rewrite IH, len_cons, Z.pow_add_r by (try apply len_nonneg; lia).
  lia.
Qed.

Lemma get_le_1 b : get_le [b] = b2z b.
Proof. simpl. lia. Qed.

Lemma get_put_le n z : get_le (put_le n z) = z mod 256 ^ Z.of_nat n.
Proof.
  revert z. induction n as [|n IH]; intros z.
  { simpl. by rewrite Z.mod_1_r. }
  simpl put_le. simpl get_le. rewrite IH, b2z_z2b, Z.shiftr_div_pow2 by lia.
  rewrite Nat2Z.inj_succ, Z.pow_succ_r by lia.
  by rewrite Z.rem_mul_r by lia.
Qed.

Lemma get_put_le_small n z : 0 ≤ z < 256 ^ Z.of_nat n → get_le (put_le n z) = z.
Proof. intros. by rewrite get_put_le, Z.mod_small. Qed.

Lemma put_get_le s : put_le (length s) (get_le s) = s.
Proof.
  induction s as [|b s IH]; [done |]. simpl. f_equal.
  - rewrite <-z2b_mod, (Z.mul_comm 256), Z_mod_plus_full, z2b_mod. apply z2b_b2z.
  - rewrite Z.shiftr_div_pow2 by lia.
    rewrite (Z.mul_comm 256), Z.div_add, Z.div_small by (apply b2z_range || lia).
    by rewrite Z.add_0_l.
Qed.

(** ** Varints (binary.PutUvarint, binary.Uvarint) *)
Definition MaxVarintLen64 : nat := 10.

Fixpoint put_uvarint_go (fuel : nat) (x : Z) : bytes :=
  match fuel with
  | O => []
  | S fuel =>
      if 128 <=? x then z2b (Z.lor x 128) :: put_uvarint_go fuel (Z.shiftr x 7)
      else [z2b x]
  end.
(** The buffer the code passes has [MaxVarintLen64] bytes. *)
Definition put_uvarint (x : Z) : bytes := put_uvarint_go MaxVarintLen64 x.

(** [uvarint_go i x s buf]: the loop of [binary.Uvarint] at index [i] with the
    accumulator [x] and the shift [s]; answers [(value, bytes read)], where a
    non-positive count is the error. *)
Fixpoint uvarint_go (i : nat) (x s : Z) (buf : bytes) : Z * Z :=
  match buf with
  | [] => (0, 0)
  | b :: buf =>
      if (i =? MaxVarintLen64)%nat then (0, - (Z.of_nat i + 1))
      else if b2z b <? 128 then
        if (i =? MaxVarintLen64 - 1)%nat && (1 <? b2z b) then (0, - (Z.of_nat i + 1))
        else (Z.lor x (Z.shiftl (b2z b) s), Z.of_nat i + 1)
      else uvarint_go (S i) (Z.lor x (u64 (Z.shiftl (Z.land (b2z b) 127) s))) (s + 7) buf
  end.
Definition uvarint (buf : bytes) : Z * Z := uvarint_go 0 0 0 buf.

Lemma lor_disjoint_add x y s :
  0 ≤ s → 0 ≤ x < 2 ^ s → 0 ≤ y → Z.lor x (Z.shiftl y s) = x + y * 2 ^ s.
Proof.
  intros Hs Hx Hy. rewrite <-Z.shiftl_mul_pow2 by lia.
  symmetry. rewrite Z.add_nocarry_lxor, Z.lxor_lor; [done | |];
    apply Z.bits_inj'; intros n Hn; rewrite Z.land_spec, Z.bits_0, Z.shiftl_spec by lia;
    destruct (Z.ltb_spec n s).
  1, 3: rewrite (Z.testbit_neg_r y) by lia; apply andb_false_r.
  all: replace x with (x mod 2 ^ s) by (by apply Z.mod_small);
    by rewrite Z.mod_pow2_bits_high by lia.
Qed.

Lemma land_127 b : Z.land b 127 = b mod 128.
Proof. change 127 with (Z.ones 7). by rewrite Z.land_ones. Qed.

Lemma lor_128_table :
  forallb (λ y, Z.lor y 128 =? y mod 128 + 128) (seqZ 0 256) = true.
Proof. by vm_compute. Qed.

Lemma lor_128_byte x : b2z (z2b (Z.lor x 128)) = x mod 128 + 128.
Proof.
  rewrite b2z_z2b. change 256 with (2 ^ 8).
  rewrite <-Z.land_ones, Z.land_lor_distr_l by lia.
  change (Z.land 128 (Z.ones 8)) with 128. rewrite Z.land_ones by lia.
  pose proof (Z.mod_pos_bound x (2 ^ 8) eq_refl).
  pose proof (proj1 (forallb_forall _ _) lor_128_table (x mod 2 ^ 8)) as Ht.
  rewrite Z.eqb_eq in Ht. rewrite Ht.
  - f_equal. change (2 ^ 8) with (128 * 2). rewrite Z.rem_mul_r by lia.
    by rewrite (Z.mul_comm 128), Z_mod_plus_full, Zmod_mod.
  - apply list_elem_of_In, elem_of_seqZ. lia.
Qed.

(** Reading back a varint written in front of any bytes. *)
Lemma uvarint_go_put fuel i x s acc rest :
  (i + fuel = MaxVarintLen64)%nat → s = 7 * Z.of_nat i →
  0 ≤ acc < 2 ^ s → 0 ≤ x → x * 2 ^ s < 2 ^ 64 → (0 < fuel)%nat →
  uvarint_go i acc s (put_uvarint_go fuel x ++ rest) =
    (acc + x * 2 ^ s, Z.of_nat i + len (put_uvarint_go fuel x)).
Proof.
  unfold MaxVarintLen64.
  revert i x s acc. induction fuel as [|fuel IH]; intros i x s acc Hi Hs Hacc Hx Hb Hf; [lia |].
  simpl put_uvarint_go. destruct (Z.leb_spec 128 x) as [Hbig|Hsmall].
  - assert (Hi9 : (i < 9)%nat).
    { destruct (decide (i < 9)%nat); [done |].
      assert (2 ^ 63 ≤ 2 ^ s) by (apply Z.pow_le_mono_r; lia). nia. }
    simpl app. simpl uvarint_go. unfold MaxVarintLen64.
    destruct (Nat.eqb_spec i 10) as [|_]; [lia |].
    rewrite lor_128_byte. pose proof (Z.mod_pos_bound x 128 eq_refl).
    destruct (Z.ltb_spec (x mod 128 + 128) 128) as [|_]; [lia |].
    rewrite land_127. rewrite <-(Z.mul_1_l 128) at 2. rewrite Z_mod_plus_full.
    rewrite Zmod_mod. pose proof (Z.div_mod x 128 ltac:(lia)).
    assert (0 < 2 ^ s) by (apply Z.pow_pos_nonneg; lia).
    rewrite u64_small by (unfold is_u64; rewrite Z.shiftl_mul_pow2 by lia; nia).
    rewrite lor_disjoint_add by lia. rewrite Z.shiftr_div_pow2 by lia.
    change (2 ^ 7) with 128.
    rewrite IH; [| lia..| | apply Z.div_pos; lia | | lia].
    + rewrite len_cons, Z.pow_add_r by lia. f_equal; [|lia].
      change (2 ^ 7) with 128. nia.
    + rewrite Z.pow_add_r by lia. change (2 ^ 7) with 128. nia.
    + rewrite Z.pow_add_r by lia. change (2 ^ 7) with 128. nia.
  - simpl app. simpl uvarint_go. unfold MaxVarintLen64.
    destruct (Nat.eqb_spec i 10) as [|_]; [lia |].
    rewrite b2z_z2b_small by lia. destruct (Z.ltb_spec x 128) as [_|]; [|lia].
    destruct (Nat.eqb_spec i 9) as [Hi9|_]; simpl.
    + destruct (Z.ltb_spec 1 x) as [Hx1|_]; simpl.
      * replace s with 63 in * by lia. lia.
      * rewrite lor_disjoint_add by lia. unfold len. simpl. f_equal; lia.
    + rewrite lor_disjoint_add by lia. unfold len. simpl. f_equal; lia.
Qed.

Lemma uvarint_put x rest :
  is_u64 x → uvarint (put_uvarint x ++ rest) = (x, len (put_uvarint x)).
Proof.
  unfold is_u64. intros. unfold uvarint, put_uvarint.
  rewrite uvarint_go_put; [f_equal; lia | done | done | lia..| unfold MaxVarintLen64; lia].
Qed.

Lemma len_put_uvarint_go fuel x : (0 < fuel)%nat → 1 ≤ len (put_uvarint_go fuel x).
Proof.
  destruct fuel as [|fuel]; [lia |]. intros _. simpl. case_match; rewrite len_cons;
  pose proof (len_nonneg (put_uvarint_go fuel (Z.shiftr x 7))); [lia | rewrite len_nil; lia].
Qed.

Lemma len_put_uvarint x : 1 ≤ len (put_uvarint x).
Proof. apply len_put_uvarint_go. unfold MaxVarintLen64. lia. Qed.

Lemma put_uvarint_go_S fuel x :
  put_uvarint_go (S fuel) x =
    if 128 <=? x then z2b (Z.lor x 128) :: put_uvarint_go fuel (Z.shiftr x 7) else [z2b x].
Proof. done. Qed.

Lemma put_uvarint_go_fuel f g x :
  0 ≤ x < 128 ^ Z.of_nat f → (f ≤ g)%nat → (0 < f)%nat →
  put_uvarint_go f x = put_uvarint_go g x.
Proof.
  revert g x. induction f as [|f IH]; intros [|g] x Hx Hfg Hf; try lia.
  rewrite !put_uvarint_go_S. destruct (Z.leb_spec 128 x) as [H|]; [|done].
  f_equal. destruct (decide (f = 0%nat)) as [->|]; [simpl in Hx; lia |].
  rewrite Z.shiftr_div_pow2 by lia. change (2 ^ 7) with 128.
  apply IH; [|lia..]. rewrite Nat2Z.inj_succ, Z.pow_succ_r in Hx by lia.
  split; [apply Z.div_pos; lia | apply Z.div_lt_upper_bound; lia].
Qed.

Lemma put_uvarint_big x :
  is_u64 x → 128 ≤ x → put_uvarint x = z2b (Z.lor x 128) :: put_uvarint (Z.shiftr x 7).
Proof.
  unfold is_u64. intros Hx Hb. unfold put_uvarint, MaxVarintLen64.
  rewrite put_uvarint_go_S. destruct (Z.leb_spec 128 x); [|lia]. f_equal.
  apply put_uvarint_go_fuel; [|lia..].
  rewrite Z.shiftr_div_pow2 by lia.
  split; [apply Z.div_pos; lia | apply Z.div_lt_upper_bound; simpl; lia].
Qed.

Lemma len_put_uvarint_1 x : 0 ≤ x < 128 → len (put_uvarint x) = 1.
Proof.
  intros. unfold put_uvarint, MaxVarintLen64. rewrite put_uvarint_go_S.
  by destruct (Z.leb_spec 128 x); [lia |].
Qed.

Lemma len_put_uvarint_2 x : 0 ≤ x < 16384 → len (put_uvarint x) ≤ 2.
Proof.
  intros. unfold put_uvarint, MaxVarintLen64. rewrite put_uvarint_go_S.
  destruct (Z.leb_spec 128 x); [|rewrite len_cons, len_nil; lia].
  rewrite len_cons, put_uvarint_go_S, Z.shiftr_div_pow2 by lia. change (2 ^ 7) with 128.
  pose proof (Z.div_lt_upper_bound x 128 128).
  destruct (Z.leb_spec 128 (x / 128)); [lia | rewrite len_cons, len_nil; lia].
Qed.

(** ** bytes.Compare and strings.HasPrefix *)
Fixpoint bytes_compare (a b : bytes) : comparison :=
  match a, b with
  | [], [] => Eq
  | [], _ :: _ => Lt
  | _ :: _, [] => Gt
  | x :: a, y :: b =>
      match b2z x ?= b2z y with Eq => bytes_compare a b | c => c end
  end.

Definition bytes_le (a b : bytes) : Prop := bytes_compare a b ≠ Gt.
Definition bytes_lt (a b : bytes) : Prop := bytes_compare a b = Lt.

#[export] Instance bytes_le_dec a b : Decision (bytes_le a b).
Proof. unfold bytes_le. apply _. Defined.
#[export] Instance bytes_lt_dec a b : Decision (bytes_lt a b).
Proof. unfold bytes_lt. apply _. Defined.

Lemma bytes_compare_refl a : bytes_compare a a = Eq.
Proof. induction a as [|x a IH]; [done |]. simpl. by rewrite Z.compare_refl. Qed.

Lemma bytes_compare_eq a b : bytes_compare a b = Eq → a = b.
Proof.
  revert b. induction a as [|x a IH]; intros [|y b] H; simpl in *; try done.
  destruct (Z.compare_spec (b2z x) (b2z y)) as [Hxy| |]; try done.
  f_equal; [by apply (inj b2z) | by apply IH].
Qed.

Lemma bytes_compare_antisym a b : bytes_compare b a = CompOpp (bytes_compare a b).
Proof.
  revert b. induction a as [|x a IH]; intros [|y b]; simpl; try done.
  rewrite (Z.compare_antisym (b2z x)). destruct (b2z x ?= b2z y); simpl; auto.
Qed.

Lemma bytes_le_lt_eq a b : bytes_le a b ↔ bytes_lt a b ∨ a = b.
Proof.
  unfold bytes_le, bytes_lt. split.
  - destruct (bytes_compare a b) eqn:E; [|by left|done]. right. by apply bytes_compare_eq.
  - intros [->| ->]; [done |]. by rewrite bytes_compare_refl.
Qed.

Lemma bytes_lt_trans a b c : bytes_lt a b → bytes_lt b c → bytes_lt a c.
Proof.
  unfold bytes_lt. revert b c. induction a as [|x a IH]; intros [|y b] [|z c] H1 H2;
    simpl in *; try done.
  destruct (Z.compare_spec (b2z x) (b2z y)) as [Hxy|Hxy|]; [| |done];
    destruct (Z.compare_spec (b2z y) (b2z z)) as [Hyz|Hyz|]; try done.
  - rewrite Hxy, Hyz, Z.compare_refl. by eapply IH.
  - rewrite Hxy. by rewrite (proj2 (Z.compare_lt_iff _ _) Hyz).
  - rewrite <-Hyz. by rewrite (proj2 (Z.compare_lt_iff _ _) Hxy).
  - by rewrite (proj2 (Z.compare_lt_iff (b2z x) (b2z z))) by lia.
Qed.

#[export] Instance bytes_le_trans : Transitive bytes_le.
Proof.
  intros a b c. rewrite !bytes_le_lt_eq. intros [H1| ->] [H2| ->]; auto.
  left. by eapply bytes_lt_trans.
Qed.
#[export] Instance bytes_le_refl : Reflexive bytes_le.
Proof. intros a. apply bytes_le_lt_eq. by right. Qed.
#[export] Instance bytes_le_total : Total bytes_le.
Proof.
  intros a b. unfold bytes_le. rewrite (bytes_compare_antisym a b).
  destruct (bytes_compare a b); simpl; auto.
Qed.
Lemma bytes_lt_le_trans a b c : bytes_lt a b → bytes_le b c → bytes_lt a c.
Proof. rewrite bytes_le_lt_eq. intros H1 [H2| ->]; [by eapply bytes_lt_trans | done]. Qed.
Lemma bytes_le_lt_trans a b c : bytes_le a b → bytes_lt b c → bytes_lt a c.
Proof. rewrite bytes_le_lt_eq. intros [H1| ->] H2; [by eapply bytes_lt_trans | done]. Qed.
Lemma bytes_lt_irrefl a : ¬ bytes_lt a a.
Proof. unfold bytes_lt. by rewrite bytes_compare_refl. Qed.
Lemma bytes_nlt_le a b : ¬ bytes_lt a b ↔ bytes_le b a.
Proof.
  unfold bytes_lt, bytes_le. rewrite (bytes_compare_antisym a b).
  destruct (bytes_compare a b); simpl; split; done.
Qed.

Lemma bytes_compare_app q a b : bytes_compare (q ++ a) (q ++ b) = bytes_compare a b.
Proof. induction q as [|x q IH]; simpl; [done |]. by rewrite Z.compare_refl. Qed.

Lemma bytes_le_app a b : bytes_le a (a ++ b).
Proof.
  unfold bytes_le. induction a as [|x a IH]; simpl; [by destruct b |].
  by rewrite Z.compare_refl.
Qed.
Lemma bytes_lt_app a x b : bytes_lt a (a ++ x :: b).
Proof.
  unfold bytes_lt. induction a as [|y a IH]; simpl; [done |].
  by rewrite Z.compare_refl.
Qed.

Definition has_prefix (s p : bytes) : bool := bool_decide (p `prefix_of` s).

Lemma has_prefix_spec s p : has_prefix s p = true ↔ ∃ k, s = p ++ k.
Proof. unfold has_prefix. by rewrite bool_decide_eq_true. Qed.

(** ** FNV-1a, 64 bits (hash/fnv) *)
Definition fnv_offset : Z := 0xCBF29CE484222325.
Definition fnv_prime : Z := 0x100000001B3.
Definition fnv1a_step (h : Z) (b : byte) : Z := u64 (Z.lxor h (b2z b) * fnv_prime).
Definition fnv1a (s : bytes) : Z := foldl fnv1a_step fnv_offset s.

Lemma fnv1a_range s : is_u64 (fnv1a s).
Proof.
  unfold fnv1a. assert (is_u64 fnv_offset) as H by (unfold is_u64, fnv_offset; lia).
  revert H. generalize fnv_offset as h. induction s as [|b s IH]; intros h Hh; [done |].
  simpl. apply IH. apply u64_range.
Qed.

Example fnv1a_a : fnv1a (str "a") = 0xaf63dc4c8601ec8c.
Proof. by vm_compute. Qed.

#[global] Arguments put_le : simpl never.
#[global] Arguments get_le : simpl never.
#[global] Arguments put_uvarint : simpl never.
#[global] Arguments uvarint : simpl never.
#[global] Arguments fnv1a : simpl never.

(** ** Times

    A [time.Time] is the number of nanoseconds since the zero time, so [0] is
    [IsZero]; a [time.Duration] is an int64 of nanoseconds, and the difference of
    two times saturates. *)
Definition Second : Z := 10 ^ 9.
Definition Minute : Z := 60 * Second.
Definition Hour : Z := 60 * Minute.
Definition time_sub (t u : Z) : Z := Z.max (- 2 ^ 63) (Z.min (2 ^ 63 - 1) (t - u)).
