(* ===== verification/Sha256.v ===== *)
(** * SHA-256

    The hash of [crypto/sha256], written out (FIPS 180-4) so that every
    definition that hashes stays executable. *)

From S2P Require Import Prelude GoInt.
Open Scope Z_scope.

Module Sha256.

(** The round constants are the first 32 fractional bits of the cube roots of
    the first 64 primes, the initial state those of the square roots of the
    first 8; they are computed here. *)
Definition is_prime (p : Z) : bool :=
  forallb (λ d, negb (p mod d =? 0)) (seqZ 2 (Z.sqrt p - 1)).
Definition primes (n : nat) : list Z := take n (List.filter is_prime (seqZ 2 320)).

Fixpoint cbrt_bits (bits : nat) (r n : Z) : Z :=
  match bits with
  | O => r
  | S b =>
      let r' := r + 2 ^ Z.of_nat b in
      cbrt_bits b (if r' * r' * r' <=? n then r' else r) n
  end.

Definition K : list Z :=
  Eval vm_compute in (λ p, cbrt_bits 40 0 (p * 2 ^ 96) mod 2 ^ 32) <$> primes 64.

Definition H0 : list Z :=
  Eval vm_compute in (λ p, Z.sqrt (p * 2 ^ 64) mod 2 ^ 32) <$> primes 8.

Definition rotr (n x : Z) : Z := Z.lor (Z.shiftr x n) (u32 (Z.shiftl x (32 - n))).
Definition add32 (a b : Z) : Z := u32 (a + b).

Definition Ch (x y z : Z) : Z := Z.lxor (Z.land x y) (Z.land (Z.lxor x (2 ^ 32 - 1)) z).
Definition Maj (x y z : Z) : Z := Z.lxor (Z.lxor (Z.land x y) (Z.land x z)) (Z.land y z).
Definition S0 (x : Z) : Z := Z.lxor (Z.lxor (rotr 2 x) (rotr 13 x)) (rotr 22 x).
Definition S1 (x : Z) : Z := Z.lxor (Z.lxor (rotr 6 x) (rotr 11 x)) (rotr 25 x).
Definition s0 (x : Z) : Z := Z.lxor (Z.lxor (rotr 7 x) (rotr 18 x)) (Z.shiftr x 3).
Definition s1 (x : Z) : Z := Z.lxor (Z.lxor (rotr 17 x) (rotr 19 x)) (Z.shiftr x 10).

(** Big-endian words. *)
Definition put_be (n : nat) (z : Z) : bytes := reverse (put_le n z).
Definition get_be (s : bytes) : Z := get_le (reverse s).

Definition pad (m : bytes) : bytes :=
  let z := (Z.to_nat ((55 - len m) mod 64)) in
  m ++ [z2b 128] ++ replicate z x00 ++ put_be 8 (8 * len m).

Fixpoint chunks (fuel n : nat) (s : bytes) : list bytes :=
  match fuel, s with
  | S fuel, _ :: _ => take n s :: chunks fuel n (drop n s)
  | _, _ => []
  end.

(** The message schedule, newest word first. *)
Fixpoint schedule (n : nat) (w : list Z) : list Z :=
  match n with
  | O => w
  | S n =>
      let at_ i := default 0 (w !! i) in
      schedule n (add32 (add32 (s1 (at_ 1%nat)) (at_ 6%nat))
                        (add32 (s0 (at_ 14%nat)) (at_ 15%nat)) :: w)
  end.

Definition round (v : list Z) (kw : Z * Z) : list Z :=
  match v with
  | [a; b; c; d; e; f; g; h] =>
      let t1 := add32 (add32 (add32 h (S1 e)) (add32 (Ch e f g) kw.1)) kw.2 in
      let t2 := add32 (S0 a) (Maj a b c) in
      [add32 t1 t2; a; b; c; add32 d t1; e; f; g]
  | _ => v
  end.

Definition block (h : list Z) (blk : bytes) : list Z :=
  let w := reverse (schedule 48 (reverse (get_be <$> chunks 16 4 blk))) in
  zip_with add32 h (foldl round h (zip K w)).

Definition digest (m : bytes) : bytes :=
  let p := pad m in
  mjoin (put_be 4 <$> foldl block H0 (chunks (length p) 64 p)).

End Sha256.

(** [sha256.Sum256(m)]. *)
Definition sha256 (m : bytes) : array 32 := copy_arr 32 (Sha256.digest m).

(** The FIPS 180-4 test vector for [abc]. *)
Example sha256_abc :
  get_le (reverse (sl (sha256 (str "abc")))) =
  0xba7816bf8f01cfea414140de5dae2223b00361a396177a9cb410ff61f20015ad.
Proof. by vm_compute. Qed.
