(* ===== verification/Sha1.v ===== *)
(** * SHA-1

    The hash of [crypto/sha1], written out (FIPS 180-4): the in-memory DHT
    computes its targets with it. *)

From S2P Require Import Prelude GoInt Sha256.
Open Scope Z_scope.

Module Sha1.
Import Sha256.

Definition H0 : list Z := [0x67452301; 0xEFCDAB89; 0x98BADCFE; 0x10325476; 0xC3D2E1F0].

Definition rotl (n x : Z) : Z := Z.lor (u32 (Z.shiftl x n)) (Z.shiftr x (32 - n)).
Definition Parity (x y z : Z) : Z := Z.lxor (Z.lxor x y) z.

(** Function and constant of round [t]. *)
Definition f (t x y z : Z) : Z :=
  if t <? 20 then Ch x y z else if t <? 40 then Parity x y z
  else if t <? 60 then Maj x y z else Parity x y z.
Definition k (t : Z) : Z :=
  if t <? 20 then 0x5A827999 else if t <? 40 then 0x6ED9EBA1
  else if t <? 60 then 0x8F1BBCDC else 0xCA62C1D6.

(** The message schedule, newest word first. *)
Fixpoint schedule (n : nat) (w : list Z) : list Z :=
  match n with
  | O => w
  | S n =>
      let at_ i := default 0 (w !! i) in
      schedule n (rotl 1 (Z.lxor (Z.lxor (at_ 2%nat) (at_ 7%nat)) (Z.lxor (at_ 13%nat) (at_ 15%nat))) :: w)
  end.

Definition round (v : list Z) (tw : Z * Z) : list Z :=
  match v with
  | [a; b; c; d; e] =>
      let t := tw.1 in
      [add32 (add32 (rotl 5 a) (f t b c d)) (add32 e (add32 (k t) tw.2)); a; rotl 30 b; c; d]
  | _ => v
  end.

Definition block (h : list Z) (blk : bytes) : list Z :=
  let w := reverse (schedule 64 (reverse (get_be <$> chunks 16 4 blk))) in
  zip_with add32 h (foldl round h (zip (seqZ 0 80) w)).

Definition digest (m : bytes) : bytes :=
  let p := pad m in
  mjoin (put_be 4 <$> foldl block H0 (chunks (length p) 64 p)).

End Sha1.

(** [sha1.Sum(m)]. *)
Definition sha1 (m : bytes) : array 20 := copy_arr 20 (Sha1.digest m).

(** The FIPS 180-4 test vectors for [abc] and a message of two blocks. *)
Example sha1_abc :
  get_le (reverse (sl (sha1 (str "abc")))) = 0xa9993e364706816aba3e25717850c26c9cd0d89d.
Proof. by vm_compute. Qed.
Example sha1_two_blocks :
  get_le (reverse (sl (sha1 (str "abcdbcdecdefdefgefghfghighijhijkijkljklmklmnlmnomnopnopq"))))
  = 0x84983e441c3bd26ebaae4aa1f95129e5e54670f1.
Proof. by vm_compute. Qed.
