(* ===== verification/Externals.v ===== *)
(** * Code outside the repository

    What the program takes from elsewhere, as type classes: the ed25519
    signature scheme and the third-party bencode library
    [github.com/anacrolix/torrent/bencode].  The operations are parameters of
    every definition that uses them; the laws the code relies on are separate
    classes, which a theorem assumes only when it needs them. *)

From S2P Require Import Prelude GoInt.
Open Scope Z_scope.

(** ** crypto/ed25519

    [ed25519_keypair priv pub] says that [priv] is a private key and [pub] its
    public half, as [ed25519.GenerateKey] returns them. *)
Class Ed25519 := {
  ed25519_sign : bytes → bytes → array 64;
  ed25519_verify : array 32 → bytes → array 64 → bool;
  ed25519_keypair : bytes → array 32 → Prop
}.

(** A signature verifies under the public half of the key that made it. *)
Class Ed25519Laws `{Ed25519} : Prop :=
  ed25519_verify_sign : ∀ priv pub m,
    ed25519_keypair priv pub → ed25519_verify pub m (ed25519_sign priv m) = true.

(** ** bencode

    [marshal] is [bencode.Marshal] on the wire struct [W].  [unmarshal n] is a
    [bencode.Decoder] with [MaxStrLen = n] decoding into a zero [W]; [None] is
    its error.  [wire_ok w] says that the Go struct the value [w] stands for
    exists: its integers fit their Go types, and a slice that is written even
    when empty is not [nil] (the decoder makes an empty slice of an empty
    list). *)
Class Wire (W : Type) := wire_ok : W → Prop.

Class Bencode (W : Type) := {
  marshal : W → option bytes;
  unmarshal : Z → bytes → option W
}.

(** Documented behaviour: structs of integers, strings and slices always
    marshal, to a dictionary (at least the bytes [d] and [e]), and decoding what was marshalled gives the value back as long as
    no string is longer than [MaxStrLen] (no string is longer than the whole
    payload). *)
Class BencodeLaws (W : Type) `{Wire W, Bencode W} : Prop := {
  marshal_total : ∀ w, wire_ok w → is_Some (marshal w);
  marshal_nonempty : ∀ w b, marshal w = Some b → b ≠ [];
  unmarshal_marshal : ∀ w b n,
    wire_ok w → marshal w = Some b → len b ≤ n → unmarshal n b = Some w
}.

Lemma marshal_roundtrip `{BencodeLaws W} (w : W) b :
  wire_ok w → marshal w = Some b → unmarshal (len b) b = Some w.
Proof. intros. by apply unmarshal_marshal. Qed.

(** Decoding into a struct that has only some of the keys skips the others:
    [proj] keeps the fields of [H]. *)
Class BencodeSub {W H} `{Wire W, Bencode W, Bencode H} (proj : W → H) : Prop :=
  unmarshal_sub w b n :
    wire_ok w → marshal w = Some b → len b ≤ n → unmarshal (W := H) n b = Some (proj w).
