(* ===== verification/Instances.v ===== *)
(** * Concrete parameters

    Instances of the classes of [Externals]: a signature scheme and a codec
    that satisfy the laws.  They show that the hypotheses the theorems make on
    code outside the repository can be met, and the closed examples of the
    other files run on them. *)

From S2P Require Import Prelude GoInt Externals.
Open Scope Z_scope.

(** ** A signature scheme

    The private key is the public key, and a signature is the first 64 bytes of
    the key's last byte followed by the message. *)
Module ToySig.
Definition sign (priv m : bytes) : array 64 := copy_arr 64 (drop 31 priv ++ m).

#[export] Instance toy_ed25519 : Ed25519 := {|
  ed25519_sign := sign;
  ed25519_verify pub m s := bool_decide (s = sign (sl pub) m);
  ed25519_keypair priv pub := priv = sl pub
|}.

#[export] Instance toy_ed25519_laws : Ed25519Laws.
Proof. intros priv pub m Hk. simpl in *. subst. by apply bool_decide_eq_true. Qed.
End ToySig.

(** ** A codec

    A struct is the list of its fields, each a byte string ended by [xff]; the
    bytes [xff] and [xfe] of a field are escaped. *)
Module ToyCodec.

Definition escape (b : byte) : bytes :=
  match b with xff => [xfe; x01] | xfe => [xfe; x00] | _ => [b] end.
Definition enc_field (s : bytes) : bytes := (s ≫= escape) ++ [xff].
Definition enc (fs : list bytes) : bytes := fs ≫= enc_field.

(** [dec acc b]: the fields of [b], whose first one starts with [acc]
    (reversed). *)
Fixpoint dec (acc b : bytes) : option (list bytes) :=
  match b with
  | [] => match acc with [] => Some [] | _ => None end
  | xff :: b => cons (reverse acc) <$> dec [] b
  | xfe :: x01 :: b => dec (xff :: acc) b
  | xfe :: x00 :: b => dec (xfe :: acc) b
  | xfe :: _ => None
  | x :: b => dec (x :: acc) b
  end.

Lemma dec_escape x acc b : dec acc (escape x ++ b) = dec (x :: acc) b.
Proof. by destruct x. Qed.

Lemma dec_field s acc b :
  dec acc (enc_field s ++ b) = cons (reverse acc ++ s) <$> dec [] b.
Proof.
  unfold enc_field. revert acc. induction s as [|x s IH]; intros acc.
  - simpl. by rewrite app_nil_r.
  - cbn [mbind list_bind]. rewrite <-!app_assoc, dec_escape.
    rewrite (app_assoc _ [xff]). fold (enc_field s). rewrite IH, reverse_cons, <-app_assoc. done.
Qed.

Lemma dec_enc fs : dec [] (enc fs) = Some fs.
Proof.
  induction fs as [|s fs IH]; [done |]. unfold enc in *. cbn [mbind list_bind].
  by rewrite dec_field, IH.
Qed.

Section codec.
Context {W : Type} `{Wire W} (to_fields : W → list bytes) (of_fields : list bytes → option W).

Definition bencode : Bencode W := {|
  marshal w := Some (enc (to_fields w));
  unmarshal n b := if len b <=? n then dec [] b ≫= of_fields else None
|}.

Lemma laws :
  (∀ w, to_fields w ≠ []) → (∀ w, wire_ok w → of_fields (to_fields w) = Some w) →
  @BencodeLaws W _ bencode.
Proof.
  intros Hne Hof. split; simpl; [done | |].
  { intros w b [= <-]. destruct (to_fields w) as [|s fs] eqn:E; [by destruct (Hne w) |].
    unfold enc, enc_field. simpl. by destruct (s ≫= escape). }
  intros w b n Hw [= <-] Hn.
  destruct (Z.leb_spec (len (enc (to_fields w))) n); [|lia].
  rewrite dec_enc. simpl. by apply Hof.
Qed.
End codec.

(** Integers as fields. *)
Definition put_int (z : Z) : bytes := put_le 8 (u64 z).
Definition get_u (b : bytes) : Z := get_le b.
Definition get_i (b : bytes) : Z := i64 (get_le b).

Lemma get_put_u z : is_u64 z → get_u (put_int z) = z.
Proof.
  intros. unfold get_u, put_int. rewrite u64_small by done. by apply get_put_le_small.
Qed.
Lemma get_put_i z : is_i64 z → get_i (put_int z) = z.
Proof.
  intros. unfold get_i, put_int. rewrite get_put_le_small by (apply (u64_range z)).
  by apply i64_u64.
Qed.

(** ** A codec for any countable type

    A struct is written as the bytes of its code, little-endian, next to those of
    a header that can be read on its own. *)
Definition enc_pos (p : positive) : bytes :=
  put_le (S (Z.to_nat (Z.log2 (Zpos p) / 8))) (Zpos p).
Definition dec_pos (b : bytes) : option positive :=
  match get_le b with Zpos p => Some p | _ => None end.

Lemma dec_enc_pos p : dec_pos (enc_pos p) = Some p.
Proof.
  unfold dec_pos, enc_pos. rewrite get_put_le_small; [done |]. split; [done |].
  rewrite Nat2Z.inj_succ, Z2Nat.id by (apply Z.div_pos; [apply Z.log2_nonneg | done]).
  replace 256 with (2 ^ 8) by done. rewrite <-Z.pow_mul_r; [|done |].
  - eapply Z.lt_le_trans; [apply Z.log2_spec; done |]. apply Z.pow_le_mono_r; [done |].
    pose proof (Z.div_mod (Z.log2 (Z.pos p)) 8). pose proof (Z.mod_pos_bound (Z.log2 (Z.pos p)) 8).
    lia.
  - pose proof (Z.div_pos (Z.log2 (Zpos p)) 8 (Z.log2_nonneg _) eq_refl). lia.
Qed.

Section countable.
Context {W H : Type} `{Wire W, Countable W, Countable H} (header : W → H).

Definition pos_bencode : Bencode W := {|
  marshal w := Some (enc_pos (encode (header w, w)));
  unmarshal n b := if len b <=? n then p ← dec_pos b; snd <$> decode (A := H * W) p else None
|}.

Definition header_bencode : Bencode H := {|
  marshal h := Some (enc_pos (encode h));
  unmarshal n b := if len b <=? n then p ← dec_pos b; prod_decode_fst p ≫= decode else None
|}.

Lemma pos_laws : @BencodeLaws W _ pos_bencode.
Proof.
  split; simpl; [done | |].
  { by intros w b [= <-]. }
  intros w b n _ [= <-] Hn.
  destruct (Z.leb_spec (len (enc_pos (encode (header w, w)))) n); [|lia].
  rewrite dec_enc_pos. cbn [mbind option_bind]. by rewrite decode_encode.
Qed.

Lemma header_sub : @BencodeSub W H _ pos_bencode header_bencode header.
Proof.
  intros w b n _ Hm Hn. simpl in Hm. injection Hm as <-. simpl in *.
  destruct (Z.leb_spec (len (enc_pos (encode (header w, w)))) n) as [|Hgt]; [|unfold len in *; lia].
  rewrite dec_enc_pos. cbn [mbind option_bind].
  change (encode (header w, w)) with (prod_encode (encode (header w)) (encode w)).
  rewrite prod_decode_encode_fst. cbn [mbind option_bind]. by rewrite decode_encode.
Qed.
End countable.

End ToyCodec.
