(* ===== verification/Record.v ===== *)
(** * Signed keyword records (contracts/record)

    The record of the Aggregate index, the identity and signature preimages,
    the hashcash proof of work and the mining loop. *)

From S2P Require Import Prelude GoInt Sha256 Externals Instances.
Open Scope Z_scope.

Module Record.

Definition MaxKeywordBytes : Z := 64.
Definition maxPoWBits : Z := 40.

(** [Record]: an [int64] and a [uint64] are [Z]s, see [wf]. *)
Record Record := mk {
  Pk : array 32;
  Kw : bytes;
  Ih : array 20;
  T : Z;
  Pow : Z;
  Sig : array 64
}.

#[export] Instance record_eq_dec : EqDecision Record.
Proof. solve_decision. Defined.

Definition set_Pow (r : Record) (n : Z) : Record :=
  mk (Pk r) (Kw r) (Ih r) (T r) n (Sig r).
Definition set_Sig (r : Record) (s : array 64) : Record :=
  mk (Pk r) (Kw r) (Ih r) (T r) (Pow r) s.

(** The integers of a Go value fit their types. *)
Definition wf (r : Record) : Prop := is_i64 (T r) ∧ is_u64 (Pow r).

Inductive error := ErrKeyword | ErrPoWTarget | ErrBadSig | ErrInsufficientPoW.

(** pk || kw || ih || LE64(T) *)
Definition idPreimage (r : Record) : bytes :=
  sl (Pk r) ++ Kw r ++ sl (Ih r) ++ put_le 8 (u64 (T r)).

Definition ElementID (r : Record) : array 32 := sha256 (idPreimage r).

Definition SigMessage (r : Record) : bytes := idPreimage r ++ put_uvarint (Pow r).

(** [bits.LeadingZeros8]. *)
Definition leading_zeros8 (b : byte) : Z :=
  if b2z b =? 0 then 8 else 7 - Z.log2 (b2z b).

Fixpoint leadingZeroBits_go (n : Z) (h : bytes) : Z :=
  match h with
  | [] => n
  | b :: h => if b2z b =? 0 then leadingZeroBits_go (n + 8) h
              else n + leading_zeros8 b
  end.
Definition leadingZeroBits (h : array 32) : Z := leadingZeroBits_go 0 (sl h).

Definition VerifyPoW (r : Record) (minBits : Z) : result error unit :=
  if minBits <=? 0 then Ok ()
  else if leadingZeroBits (sha256 (SigMessage r)) <? minBits
       then Err ErrInsufficientPoW
       else Ok ().

(** [MinePoW]: the loop runs over the nonces 0, 1, ... of a [uint64].  When no
    nonce reaches the target the Go loop wraps around and never returns; the
    model answers [None] for that, after the whole nonce space. *)
Definition pow_hit (r : Record) (bits n : Z) : bool :=
  bits <=? leadingZeroBits (sha256 (SigMessage (set_Pow r n))).

Definition mine_step (r : Record) (bits : Z) (n : Z) : option Z :=
  if pow_hit r bits n then None else Some (n + 1).

Definition MinePoW (r : Record) (bits : Z) : option (result error Record) :=
  if bits <=? 0 then Some (Ok (set_Pow r 0))
  else if maxPoWBits <? bits then Some (Err ErrPoWTarget)
  else match iter_until (2 ^ 64)%positive (mine_step r bits) 0 with
       | (n, true) => Some (Ok (set_Pow r n))
       | (_, false) => None
       end.

Section signing.
Context `{Ed25519}.

Definition Verify (r : Record) : result error unit :=
  if negb (ed25519_verify (Pk r) (SigMessage r) (Sig r)) then Err ErrBadSig else Ok ().

Definition SignAndMine (priv : bytes) (pub : array 32) (kw : bytes) (ih : array 20)
    (t bits : Z) : option (result error Record) :=
  if (len kw <? 1) || (MaxKeywordBytes <? len kw) then Some (Err ErrKeyword)
  else match MinePoW (mk pub kw ih t 0 (zero_arr 64)) bits with
       | None => None
       | Some (Err e) => Some (Err e)
       | Some (Ok r) => Some (Ok (set_Sig r (ed25519_sign priv (SigMessage r))))
       end.
End signing.

(** ** The preimages *)

Lemma len_idPreimage r : len (idPreimage r) = 60 + len (Kw r).
Proof. unfold idPreimage. rewrite !len_app, !len_sl, len_put_le. lia. Qed.

Lemma app_sl_inj {n} (a b : array n) s t : sl a ++ s = sl b ++ t → a = b ∧ s = t.
Proof.
  intros H. apply app_inj_1 in H as [Ha Hs]; [|by rewrite !length_sl].
  split; [by apply sl_inj | done].
Qed.

Lemma put_le_u64_inj a b : is_i64 a → is_i64 b → put_le 8 (u64 a) = put_le 8 (u64 b) → a = b.
Proof.
  intros Ha Hb Hab. apply (f_equal get_le) in Hab. rewrite !get_put_le in Hab.
  change (256 ^ Z.of_nat 8) with (2 ^ 64) in Hab. unfold u64 in Hab.
  rewrite !Zmod_mod in Hab. rewrite <-(i64_u64 a Ha), <-(i64_u64 b Hb).
  unfold u64. by rewrite Hab.
Qed.

Lemma idPreimage_inj r1 r2 :
  wf r1 → wf r2 → idPreimage r1 = idPreimage r2 →
  Pk r1 = Pk r2 ∧ Kw r1 = Kw r2 ∧ Ih r1 = Ih r2 ∧ T r1 = T r2.
Proof.
  intros [Ht1 _] [Ht2 _] Heq.
  pose proof (f_equal len Heq) as Hlen. rewrite !len_idPreimage in Hlen.
  unfold idPreimage in Heq. apply app_sl_inj in Heq as [? Heq].
  apply app_inj_1 in Heq as [? Heq]; [|unfold len in Hlen; lia].
  apply app_sl_inj in Heq as [? Heq]. by apply put_le_u64_inj in Heq.
Qed.

Lemma put_uvarint_inj x y : is_u64 x → is_u64 y → put_uvarint x = put_uvarint y → x = y.
Proof.
  intros Hx Hy E. pose proof (uvarint_put x [] Hx) as H1.
  pose proof (uvarint_put y [] Hy) as H2. rewrite E in H1. congruence.
Qed.

(** ** Mining *)

Lemma mine_iter r bits n s :
  s.2 = true → iter_nat n (mine_step r bits) 0 = s → 
  (pow_hit r bits s.1 = true ∧ (∀ m, 0 ≤ m < s.1 → pow_hit r bits m = false) ∧ 0 ≤ s.1).
Proof.
  intros Hs Hi.
  pose proof (iter_nat_exit (mine_step r bits) n 0) as Hex.
  pose proof (iter_nat_inv (mine_step r bits)
    (λ k, 0 ≤ k ∧ ∀ m, 0 ≤ m < k → pow_hit r bits m = false) n 0) as Hinv.
  rewrite Hi in Hex, Hinv. unfold mine_step in *.
  destruct Hinv as [H0 Hlt].
  - split; [lia | intros; lia].
  - intros x y [Hx Hm] E. destruct (pow_hit r bits x) eqn:Ex; [done |]. simplify_eq.
    split; [lia |]. intros m ?. destruct (decide (m = x)) as [->|]; [done | apply Hm; lia].
  - specialize (Hex Hs). by destruct (pow_hit r bits s.1).
Qed.

Lemma mine_iter_bound r bits n k :
  0 ≤ k → let s := iter_nat n (mine_step r bits) k in k ≤ s.1 ≤ k + Z.of_nat n ∧
    (s.2 = true → s.1 < k + Z.of_nat n) ∧
    (s.2 = false → ∀ m, k ≤ m < k + Z.of_nat n → pow_hit r bits m = false).
Proof.
  revert k. induction n as [|n IH]; intros k Hk.
  { simpl. split; [lia |]. split; [done |]. intros; lia. }
  simpl iter_nat. unfold mine_step at 1. destruct (pow_hit r bits k) eqn:E.
  - simpl. split; [lia |]. split; [lia | done].
  - destruct (IH (k + 1)) as (H1 & H2 & H3); [lia |]. cbv zeta in *.
    split; [lia |]. split; [intros Ht; specialize (H2 Ht); lia |].
    intros Hf m Hm. destruct (decide (m = k)) as [->|]; [done | apply H3; [done | lia]].
Qed.

(** [leadingZeroBits] counts the zero bits in front of the first set bit: the
    big-endian value of the hash is below [2 ^ (256 - n)] and no less than half
    of it. *)
Definition be_value (h : bytes) : Z := get_le (reverse h).

Lemma be_value_cons b h : be_value (b :: h) = b2z b * 256 ^ len h + be_value h.
Proof.
  unfold be_value. rewrite reverse_cons.
  rewrite get_le_app, get_le_1. unfold len. rewrite length_reverse. lia.
Qed.

Lemma be_value_range h : 0 ≤ be_value h < 256 ^ len h.
Proof.
  unfold be_value. pose proof (get_le_range (reverse h)) as Hr.
  unfold len in *. by rewrite length_reverse in Hr.
Qed.

Lemma leadingZeroBits_go_shift n h :
  leadingZeroBits_go n h = n + leadingZeroBits_go 0 h.
Proof.
  revert n. induction h as [|b h IH]; intros n; simpl; [lia |].
  case_match; [rewrite (IH (n + 8)), (IH (0 + 8)); lia | lia].
Qed.

Lemma leadingZeroBits_go_spec h :
  let n := leadingZeroBits_go 0 h in
  0 ≤ n ≤ 8 * len h ∧ be_value h < 2 ^ (8 * len h - n) ∧
  (n < 8 * len h → 2 ^ (8 * len h - n - 1) ≤ be_value h).
Proof.
  induction h as [|b h IH]; cbv zeta in *.
  { repeat split; try done; unfold len; simpl; lia. }
  destruct IH as (Hn & Hlt & Hge). pose proof (be_value_range h) as Hr.
  pose proof (len_nonneg h) as Hl. rewrite len_cons, be_value_cons.
  simpl leadingZeroBits_go. pose proof (b2z_range b) as Hb.
  assert (H256 : 256 ^ len h = 2 ^ (8 * len h)) by (rewrite Z.pow_mul_r; [done|lia..]).
  destruct (Z.eqb_spec (b2z b) 0) as [Hb0|Hb0].
  - rewrite leadingZeroBits_go_shift, Hb0. simpl Z.mul.
    replace (8 * (1 + len h) - (0 + 8 + leadingZeroBits_go 0 h))
      with (8 * len h - leadingZeroBits_go 0 h) by lia.
    split; [lia |]. split; [lia |]. intros. etrans; [apply Hge; lia | lia].
  - unfold leading_zeros8. destruct (Z.eqb_spec (b2z b) 0) as [|_]; [done |].
    destruct (Z.log2_spec (b2z b)) as [Hlo Hhi]; [lia |].
    pose proof (Z.log2_nonneg (b2z b)) as Hlg.
    assert (Z.log2 (b2z b) < 8) by (apply Z.log2_lt_pow2; lia).
    rewrite H256 in *.
    replace (8 * (1 + len h) - (0 + (7 - Z.log2 (b2z b))))
      with (Z.succ (Z.log2 (b2z b)) + 8 * len h) by lia.
    replace (Z.succ (Z.log2 (b2z b)) + 8 * len h - 1) with (Z.log2 (b2z b) + 8 * len h) by lia.
    rewrite !Z.pow_add_r by lia. split; [lia |]. split; [nia |]. intros; nia.
Qed.

Lemma MinePoW_spec r bits :
  0 < bits → bits ≤ maxPoWBits →
  match MinePoW r bits with
  | Some (Ok r') => ∃ n, r' = set_Pow r n ∧ is_u64 n ∧
      bits ≤ leadingZeroBits (sha256 (SigMessage r')) ∧
      ∀ m, 0 ≤ m < n → leadingZeroBits (sha256 (SigMessage (set_Pow r m))) < bits
  | Some (Err _) => False
  | None => ∀ n, is_u64 n → leadingZeroBits (sha256 (SigMessage (set_Pow r n))) < bits
  end.
Proof.
  intros Hlo Hhi.
  unfold MinePoW. destruct (Z.leb_spec bits 0); [lia |].
  destruct (Z.ltb_spec maxPoWBits bits); [lia |].
  rewrite iter_until_nat.
  pose proof (mine_iter_bound r bits (Pos.to_nat (2 ^ 64)) 0 ltac:(lia)) as Hb.
  pose proof (λ s, mine_iter r bits (Pos.to_nat (2 ^ 64)) s) as Hm.
  rewrite positive_nat_Z in Hb. change (Z.pos (2 ^ 64)) with (2 ^ 64) in Hb.
  destruct (iter_nat _ _ _) as [n []]; simpl in Hb; destruct Hb as (Hr & Ht & Hf).
  - destruct (Hm (n, true) eq_refl eq_refl) as (Hhit & Hmiss & Hn). exists n.
    specialize (Ht eq_refl). split; [done |]. split; [unfold is_u64; simpl in *; lia |].
    split; [by apply Z.leb_le in Hhit |].
    intros m Hmn. specialize (Hmiss m Hmn). by apply Z.leb_gt in Hmiss.
  - intros k Hk. specialize (Hf eq_refl k ltac:(unfold is_u64 in Hk; lia)).
    by apply Z.leb_gt in Hf.
Qed.

(** ** Rebinding a signed message

    The signed bytes are a plain concatenation in which both the keyword and
    the varint nonce have variable length.  [shift_record] moves the field
    boundaries one byte to the right. *)
Definition shift_record (r : Record) : Record :=
  let tb := put_le 8 (u64 (T r)) in
  let v0 := z2b (Z.lor (Pow r) 128) in
  mk (Pk r)
     (Kw r ++ take 1 (sl (Ih r)))
     (copy_arr 20 (drop 1 (sl (Ih r)) ++ take 1 tb))
     (i64 (get_le (drop 1 tb ++ [v0])))
     (Z.shiftr (Pow r) 7)
     (Sig r).

Lemma shift_record_wf r : wf r → 128 ≤ Pow r → wf (shift_record r).
Proof.
  intros [_ Hp] Hb. split; [apply i64_range |]. simpl. unfold is_u64 in *.
  rewrite Z.shiftr_div_pow2 by lia.
  split; [apply Z.div_pos; lia | apply Z.div_lt_upper_bound; lia].
Qed.

Lemma shift_record_message r :
  wf r → 128 ≤ Pow r → SigMessage (shift_record r) = SigMessage r.
Proof.
  intros [_ Hp] Hb. unfold SigMessage, idPreimage, shift_record. cbn [Pk Kw Ih T Pow].
  rewrite (put_uvarint_big (Pow r)) by done.
  set (tb := put_le 8 (u64 (T r))). set (v0 := z2b (Z.lor (Pow r) 128)).
  assert (Htb : length tb = 8%nat) by apply length_put_le.
  pose proof (length_sl (Ih r)) as Hih.
  rewrite sl_copy_arr by (rewrite length_app, length_drop, length_take; lia).
  assert (Hget : is_u64 (get_le (drop 1 tb ++ [v0]))).
  { pose proof (get_le_range (drop 1 tb ++ [v0])) as Hg. unfold is_u64, len in *.
    rewrite length_app, length_drop, Htb in Hg.
    by change (256 ^ Z.of_nat (8 - 1 + length [v0])) with (2 ^ 64) in Hg. }
  rewrite u64_i64 by done.
  assert (Hpg : put_le 8 (get_le (drop 1 tb ++ [v0])) = drop 1 tb ++ [v0]).
  { rewrite <-(put_get_le (drop 1 tb ++ [v0])) at 2. f_equal. }
  rewrite Hpg, <-!app_assoc. do 2 f_equal.
  rewrite (app_assoc (take 1 (sl (Ih r)))), take_drop. f_equal.
Qed.


(** ** Properties *)

(** The nonce that is stored is the least that reaches the target. *)
Definition least_nonce (r : Record) (bits : Z) : Prop :=
  bits ≤ leadingZeroBits (sha256 (SigMessage r)) ∧
  ∀ m, 0 ≤ m < Pow r → leadingZeroBits (sha256 (SigMessage (set_Pow r m))) < bits.

(** [C1] What [SignAndMine] returns is a record for exactly the requested
    fields whose signature verifies and whose proof of work meets the
    requested difficulty, with the least nonce that does (zero when none is
    asked for); the only errors are the keyword bound and the difficulty cap, on
    exactly those inputs; mining runs for ever only for a target of 1 to 40 bits
    that no nonce at all reaches. *)
Theorem SignAndMine_verifies `{Ed25519Laws} priv pub kw ih t bits
    (Hkey : ed25519_keypair priv pub) :
  match SignAndMine priv pub kw ih t bits with
  | Some (Ok r) =>
      1 ≤ len kw ≤ MaxKeywordBytes ∧ Pk r = pub ∧ Kw r = kw ∧ Ih r = ih ∧ T r = t ∧
      is_u64 (Pow r) ∧ Verify r = Ok () ∧ VerifyPoW r bits = Ok () ∧
      (if decide (bits ≤ 0) then Pow r = 0 else least_nonce r bits)
  | Some (Err ErrKeyword) => ¬ (1 ≤ len kw ≤ MaxKeywordBytes)
  | Some (Err ErrPoWTarget) => maxPoWBits < bits
  | Some (Err _) => False
  | None => 0 < bits ≤ maxPoWBits ∧ ∀ n, is_u64 n →
      leadingZeroBits (sha256 (SigMessage (set_Pow (mk pub kw ih t 0 (zero_arr 64)) n))) < bits
  end.
Proof.
  unfold SignAndMine. destruct ((len kw <? 1) || (MaxKeywordBytes <? len kw)) eqn:Hk.
  { intros ?. apply orb_true_iff in Hk as [Hk|Hk]; b2p; lia. }
  b2p. set (r0 := mk pub kw ih t 0 (zero_arr 64)).
  assert (Hsig : ∀ n, ed25519_verify pub (SigMessage (set_Pow r0 n))
    (ed25519_sign priv (SigMessage (set_Pow r0 n))) = true)
    by (intros; by apply ed25519_verify_sign).
  destruct (decide (bits ≤ 0)) as [Hz|Hz].
  - unfold MinePoW. destruct (Z.leb_spec bits 0); [|lia]. simpl.
    repeat split; try done; try lia; unfold Verify, VerifyPoW; simpl.
    + change (SigMessage _) with (SigMessage (set_Pow r0 0)). by rewrite (Hsig 0).
    + by destruct (Z.leb_spec bits 0); [|lia].
  - destruct (decide (bits ≤ maxPoWBits)) as [Hc|Hc].
    + pose proof (MinePoW_spec r0 bits ltac:(lia) Hc) as Hm.
      destruct (MinePoW r0 bits) as [[r|e]|]; [|done|split; [lia | exact Hm]].
      destruct Hm as (n & -> & Hn & Hhit & Hleast).
      repeat split; try done; try lia; try apply Hn; unfold Verify, VerifyPoW; simpl.
      * change (SigMessage (set_Sig _ _)) with (SigMessage (set_Pow r0 n)).
        by rewrite (Hsig n).
      * destruct (Z.leb_spec bits 0); [lia |].
        change (SigMessage (set_Sig _ _)) with (SigMessage (set_Pow r0 n)).
        by destruct (Z.ltb_spec (leadingZeroBits (sha256 (SigMessage (set_Pow r0 n)))) bits); [lia |].
    + unfold MinePoW. destruct (Z.leb_spec bits 0); [lia |].
      destruct (Z.ltb_spec maxPoWBits bits); lia.
Qed.

Lemma rebind_at `{Ed25519} r bits :
  wf r → 128 ≤ Pow r → len (Kw r) < MaxKeywordBytes →
  let r' := shift_record r in
  wf r' ∧ Pk r' = Pk r ∧ Sig r' = Sig r ∧
    1 ≤ len (Kw r') ≤ MaxKeywordBytes ∧ Kw r' ≠ Kw r ∧ Pow r' ≠ Pow r ∧
    idPreimage r' ≠ idPreimage r ∧
    SigMessage r' = SigMessage r ∧
    Verify r' = Verify r ∧ VerifyPoW r' bits = VerifyPoW r bits.
Proof.
  intros Hwf Hpow Hkw r'. pose proof (shift_record_message r Hwf Hpow) as Hmsg.
  pose proof (shift_record_wf r Hwf Hpow) as Hwf'.
  assert (Hlen : len (Kw (shift_record r)) = len (Kw r) + 1).
  { simpl. rewrite len_app. unfold len at 2. rewrite length_take, length_sl. lia. }
  pose proof (len_nonneg (Kw r)). unfold r'.
  repeat split; try done; try apply Hwf'; try (simpl in *; lia).
  - intros E. rewrite E in Hlen. lia.
  - simpl. rewrite Z.shiftr_div_pow2 by lia. change (2 ^ 7) with 128.
    pose proof (Z.div_lt (Pow r) 128). lia.
  - intros E. apply (f_equal len) in E. rewrite !len_idPreimage, Hlen in E. lia.
  - unfold Verify. rewrite Hmsg. done.
  - unfold VerifyPoW. by rewrite Hmsg.
Qed.

Lemma SigMessage_inj r1 r2 :
  wf r1 → wf r2 → len (Kw r1) = len (Kw r2) → SigMessage r1 = SigMessage r2 →
  Pk r1 = Pk r2 ∧ Kw r1 = Kw r2 ∧ Ih r1 = Ih r2 ∧ T r1 = T r2 ∧ Pow r1 = Pow r2.
Proof.
  intros Hwf1 Hwf2 Hlen Hm. unfold SigMessage in Hm.
  apply app_inj_1 in Hm as [Hid Hp].
  - apply idPreimage_inj in Hid as (? & ? & ? & ?); try done.
    apply put_uvarint_inj in Hp; [done | apply Hwf1 | apply Hwf2].
  - pose proof (len_idPreimage r1). pose proof (len_idPreimage r2). unfold len in *. lia.
Qed.

(** [C2] What a signature pins down.  Not the record: for every well-formed
    record with a nonce of at least 128 and a keyword shorter than the cap there
    is another well-formed record of the same publisher, with another keyword
    and another nonce and hence another [ElementID] preimage, that has the very
    same signed message: whatever verifies for the one (signature and proof of
    work) verifies for the other.  The keyword length is all that is missing:
    well-formed records whose keywords have equally many bytes and whose signed
    messages agree agree in every signed field, and records with equal
    [ElementID] preimages agree in every field of the preimage whatever their
    keyword lengths. *)
Theorem SigMessage_rebind `{Ed25519} r bits (Hwf : wf r) :
  (128 ≤ Pow r → len (Kw r) < MaxKeywordBytes →
   ∃ r', wf r' ∧ Pk r' = Pk r ∧ Sig r' = Sig r ∧
    1 ≤ len (Kw r') ≤ MaxKeywordBytes ∧ Kw r' ≠ Kw r ∧ Pow r' ≠ Pow r ∧
    idPreimage r' ≠ idPreimage r ∧
    SigMessage r' = SigMessage r ∧
    Verify r' = Verify r ∧ VerifyPoW r' bits = VerifyPoW r bits) ∧
  ∀ r2, wf r2 →
    (len (Kw r) = len (Kw r2) → SigMessage r = SigMessage r2 →
       Pk r = Pk r2 ∧ Kw r = Kw r2 ∧ Ih r = Ih r2 ∧ T r = T r2 ∧ Pow r = Pow r2) ∧
    (idPreimage r = idPreimage r2 →
       Pk r = Pk r2 ∧ Kw r = Kw r2 ∧ Ih r = Ih r2 ∧ T r = T r2).
Proof.
  split; [intros; exists (shift_record r); by apply rebind_at |].
  intros r2 Hwf2. split; [by apply SigMessage_inj | by apply idPreimage_inj].
Qed.

(** ** Concrete instances *)

Definition toy_record (pow : Z) : Record :=
  mk (copy_arr 32 (str "publisher")) (str "ubuntu") (copy_arr 20 (str "infohash"))
    1700000000 pow (zero_arr 64).

(** The nonce 9 is the first with four leading zero bits. *)
Lemma toy_mined : MinePoW (toy_record 0) 4 = Some (Ok (toy_record 9)).
Proof. by vm_compute. Qed.

Section toy.
Import ToySig.

Lemma toy_signed :
  is_ok <$> SignAndMine (sl (Pk (toy_record 0))) (Pk (toy_record 0)) (str "ubuntu")
    (Ih (toy_record 0)) 1700000000 3 = Some true.
Proof. by vm_compute. Qed.

Lemma SignAndMine_verifies_witness :
  ∃ r, SignAndMine (sl (Pk (toy_record 0))) (Pk (toy_record 0)) (str "ubuntu")
    (Ih (toy_record 0)) 1700000000 3 = Some (Ok r) ∧
    Verify r = Ok () ∧ VerifyPoW r 3 = Ok ().
Proof.
  pose proof toy_signed as Hok.
  pose proof (SignAndMine_verifies (sl (Pk (toy_record 0))) (Pk (toy_record 0)) (str "ubuntu")
    (Ih (toy_record 0)) 1700000000 3 eq_refl) as H.
  destruct (SignAndMine _ _ _ _ _ _) as [[r|e]|]; [|discriminate Hok..].
  exists r. split; [reflexivity |]. destruct H as (_ & _ & _ & _ & _ & _ & Hv & Hp & _). by split.
Defined.

Lemma SigMessage_rebind_witness :
  (∃ r', Kw r' ≠ str "ubuntu" ∧ SigMessage r' = SigMessage (toy_record 300)) ∧
  SigMessage (toy_record 300) ≠ SigMessage (toy_record 8).
Proof.
  destruct (SigMessage_rebind (toy_record 300) 20) as [Hr Hi]; [split; by vm_compute |]. split.
  - destruct Hr as (r' & H); [by vm_compute | by vm_compute |].
    exists r'. destruct H as (_ & _ & _ & _ & Hk & _ & _ & Hm & _). split; [exact Hk | exact Hm].
  - intros Hm. destruct (Hi (toy_record 8)) as [H _]; [split; by vm_compute |].
    destruct (H eq_refl Hm) as (_ & _ & _ & _ & Hp). discriminate Hp.
Defined.
End toy.

End Record.
