(* ===== verification/Riblt.v ===== *)
(** * Rateless set reconciliation (contracts/riblt)

    Coded symbols, the encoder's stream, and the decoder with its peeling
    loop.  The loop is [iter_until] with fuel [2 ^ 256 + 1], one more than the
    number of elements there are: [peel_terminates] shows it always exits. *)

From S2P Require Import Prelude GoInt.
From stdpp Require Import finite.
Open Scope Z_scope.

Module Riblt.

Definition RIBLTElement : Type := array 32.

Record Symbol := mkSymbol {
  Count : Z;
  KeyXOR : Z;
  DataXOR : array 32
}.

#[export] Instance symbol_eq_dec : EqDecision Symbol.
Proof. solve_decision. Defined.

Definition zeroSymbol : Symbol := mkSymbol 0 0 (zero_arr 32).

(** FNV-1a over the whole element. *)
Definition key_step (h : Z) (b : byte) : Z := u64 (Z.lxor h (b2z b) * 0x100000001B3).
Definition Key (e : RIBLTElement) : Z := foldl key_step 0xCBF29CE484222325 (sl e).

(** The SplitMix64 finalizer of [key + symbolIdx * golden], modulo the power of
    two of the index's level. *)
Definition contributes (key symbolIdx : Z) : bool :=
  let z := u64 (key + u64 (symbolIdx * 0x9E3779B97F4A7C15)) in
  let z := u64 (Z.lxor z (Z.shiftr z 30) * 0xBF58476D1CE4E5B9) in
  let z := u64 (Z.lxor z (Z.shiftr z 27) * 0x94D049BB133111EB) in
  let z := Z.lxor z (Z.shiftr z 31) in
  let level := 1 + symbolIdx mod 12 in
  z mod Z.shiftl 1 level =? 0.

Definition Contributes (key symbolIdx : Z) : bool := contributes key symbolIdx.

Definition xorInto (dst : array 32) (e : RIBLTElement) : array 32 := axor dst e.

(** ** Encoder *)
Record Encoder := mkEncoder { elems : list RIBLTElement; nextIdx : Z }.

Definition newEncoder : Encoder := mkEncoder [] 0.
Definition AddElement (e : Encoder) (el : RIBLTElement) : Encoder :=
  mkEncoder (elems e ++ [el]) (nextIdx e).
Definition Len (e : Encoder) : Z := len (elems e).
Definition NextSymbolIndex (e : Encoder) : Z := nextIdx e.

Definition next_step (idx : Z) (s : Symbol) (el : RIBLTElement) : Symbol :=
  if contributes (Key el) idx then
    mkSymbol (i32 (Count s + 1)) (Z.lxor (KeyXOR s) (Key el)) (xorInto (DataXOR s) el)
  else s.

Definition NextSymbol (e : Encoder) : Symbol * Encoder :=
  (foldl (next_step (nextIdx e)) zeroSymbol (elems e),
   mkEncoder (elems e) (u64 (nextIdx e + 1))).

(** The first [n] symbols of the stream. *)
Fixpoint stream (n : nat) (e : Encoder) : list Symbol :=
  match n with
  | O => []
  | S n => let '(s, e) := NextSymbol e in s :: stream n e
  end.

(** ** Decoder *)
Record Decoder := mkDecoder {
  local : list RIBLTElement;
  diffSymbols : list Symbol;
  decoded : gmap (array 32) Z;
  syntheticAdded : list RIBLTElement;
  syntheticRemoved : list RIBLTElement
}.

Definition NewDecoder : Decoder := mkDecoder [] [] ∅ [] [].
Definition AddLocalElement (d : Decoder) (el : RIBLTElement) : Decoder :=
  mkDecoder (local d ++ [el]) (diffSymbols d) (decoded d)
    (syntheticAdded d) (syntheticRemoved d).
Definition SymbolsIn (d : Decoder) : Z := len (diffSymbols d).

(** [add(el, sign)] of [effectiveLocalSymbol]. *)
Definition local_add (idx sign : Z) (s : Symbol) (el : RIBLTElement) : Symbol :=
  if contributes (Key el) idx then
    mkSymbol (i32 (Count s + sign)) (Z.lxor (KeyXOR s) (Key el)) (axor (DataXOR s) el)
  else s.

Definition effectiveLocalSymbol (d : Decoder) (idx : Z) : Symbol :=
  let s := foldl (local_add idx 1) zeroSymbol (local d) in
  let s := foldl (local_add idx 1) s (syntheticAdded d) in
  foldl (local_add idx (-1)) s (syntheticRemoved d).

(** The scan for the first symbol that looks pure and is not decoded yet. *)
Definition candidate (dec : gmap (array 32) Z) (s : Symbol) : bool :=
  if (Count s =? 1) || (Count s =? -1) then
    (Key (DataXOR s) =? KeyXOR s) && bool_decide (dec !! DataXOR s = None)
  else false.

Fixpoint first_pure (dec : gmap (array 32) Z) (l : list Symbol) : option Symbol :=
  match l with
  | [] => None
  | s :: l => if candidate dec s then Some s else first_pure dec l
  end.

(** Subtracting a decoded element out of symbol number [k]. *)
Definition subtract (e : RIBLTElement) (direction : Z) (k : nat) (s : Symbol) : Symbol :=
  if contributes (Key e) (Z.of_nat k) then
    mkSymbol (i32 (Count s - direction)) (Z.lxor (KeyXOR s) (Key e)) (axor (DataXOR s) e)
  else s.

(** One round of the loop of [peel]; [None] is the exit ([!changed]). *)
Definition peel_step (d : Decoder) : option Decoder :=
  match first_pure (decoded d) (diffSymbols d) with
  | None => None
  | Some s =>
      let e := DataXOR s in
      let direction := Count s in
      Some (mkDecoder (local d)
        (imap (subtract e direction) (diffSymbols d))
        (<[e := direction]> (decoded d))
        (if 0 <? direction then syntheticAdded d ++ [e] else syntheticAdded d)
        (if 0 <? direction then syntheticRemoved d else syntheticRemoved d ++ [e]))
  end.

Definition peel_fuel : positive := (2 ^ 256 + 1)%positive.
Definition peel (d : Decoder) : Decoder := (iter_until peel_fuel peel_step d).1.

Definition symbol_diff (s ls : Symbol) : Symbol :=
  mkSymbol (i32 (Count s - Count ls)) (Z.lxor (KeyXOR s) (KeyXOR ls))
    (axor (DataXOR s) (DataXOR ls)).

Definition AddRemoteSymbol (d : Decoder) (s : Symbol) : Decoder :=
  let idx := len (diffSymbols d) in
  let ls := effectiveLocalSymbol d idx in
  peel (mkDecoder (local d) (diffSymbols d ++ [symbol_diff s ls]) (decoded d)
          (syntheticAdded d) (syntheticRemoved d)).

Definition Converged (d : Decoder) : bool :=
  forallb (λ s, negb (negb (Count s =? 0) || negb (KeyXOR s =? 0)
                      || negb (bool_decide (DataXOR s = zero_arr 32)))) (diffSymbols d).

(** The order in which Go walks the map is unspecified: this is one of them. *)
Definition Added (d : Decoder) : list RIBLTElement :=
  (filter (λ p, 0 < p.2) (map_to_list (decoded d))).*1.
Definition Removed (d : Decoder) : list RIBLTElement :=
  (filter (λ p, p.2 < 0) (map_to_list (decoded d))).*1.

(** A decoder over a local set, fed a list of symbols. *)
Definition seeded (l : list RIBLTElement) : Decoder := foldl AddLocalElement NewDecoder l.
Definition run (l : list RIBLTElement) (rs : list Symbol) : Decoder :=
  foldl AddRemoteSymbol (seeded l) rs.
Definition encoder (l : list RIBLTElement) : Encoder := foldl AddElement newEncoder l.

(** ** Signed sums of elements

    A list of signed elements stands for a difference of sets; [coded k D] is
    the symbol number [k] of that difference, the specification the encoder,
    the local recomputation and the residuals are all measured against. *)
Abbreviation signed := (list (array 32 * Z)).

Definition at_index (k : Z) (p : array 32 * Z) : bool := contributes (Key p.1) k.

Definition csum (k : Z) (D : signed) : Z :=
  foldr (λ p acc, if at_index k p then p.2 + acc else acc) 0 D.
Definition kxor (k : Z) (D : signed) : Z :=
  foldr (λ p acc, if at_index k p then Z.lxor (Key p.1) acc else acc) 0 D.
Definition dxor (k : Z) (D : signed) : array 32 :=
  foldr (λ p acc, if at_index k p then axor p.1 acc else acc) (zero_arr 32) D.
Definition coded (k : Z) (D : signed) : Symbol :=
  mkSymbol (i32 (csum k D)) (kxor k D) (dxor k D).

Definition plus (l : list (array 32)) : signed := (λ e, (e, 1)) <$> l.
Definition minus (l : list (array 32)) : signed := (λ e, (e, -1)) <$> l.
Definition neg (D : signed) : signed := (λ p, (p.1, - p.2)) <$> D.

Lemma csum_app k D E : csum k (D ++ E) = csum k D + csum k E.
Proof. unfold csum. induction D as [|p D IH]; simpl; [done |]. case_match; lia. Qed.
Lemma kxor_app k D E : kxor k (D ++ E) = Z.lxor (kxor k D) (kxor k E).
Proof.
  unfold kxor. induction D as [|p D IH]; simpl; [done |].
  case_match; [by rewrite IH, Z.lxor_assoc | done].
Qed.
Lemma dxor_app k D E : dxor k (D ++ E) = axor (dxor k D) (dxor k E).
Proof.
  unfold dxor. induction D as [|p D IH]; simpl; [by rewrite axor_0_l |].
  case_match; [by rewrite IH, (assoc axor) | done].
Qed.

Lemma csum_cons k p D :
  csum k (p :: D) = if at_index k p then p.2 + csum k D else csum k D.
Proof. done. Qed.
Lemma kxor_cons k p D :
  kxor k (p :: D) = if at_index k p then Z.lxor (Key p.1) (kxor k D) else kxor k D.
Proof. done. Qed.
Lemma dxor_cons k p D :
  dxor k (p :: D) = if at_index k p then axor p.1 (dxor k D) else dxor k D.
Proof. done. Qed.

Lemma sums_neg k D :
  csum k (neg D) = - csum k D ∧ kxor k (neg D) = kxor k D ∧ dxor k (neg D) = dxor k D.
Proof.
  induction D as [|[e s] D (IH1 & IH2 & IH3)]; [done |].
  change (neg ((e, s) :: D)) with ((e, - s) :: neg D).
  rewrite !csum_cons, !kxor_cons, !dxor_cons, IH1, IH2, IH3.
  change (at_index k (e, - s)) with (at_index k (e, s)). simpl fst. simpl snd.
  case_match; repeat split; lia.
Qed.
Lemma csum_neg k D : csum k (neg D) = - csum k D.
Proof. apply sums_neg. Qed.
Lemma kxor_neg k D : kxor k (neg D) = kxor k D.
Proof. apply sums_neg. Qed.
Lemma dxor_neg k D : dxor k (neg D) = dxor k D.
Proof. apply sums_neg. Qed.

#[export] Instance coded_perm k : Proper ((≡ₚ) ==> (=)) (coded k).
Proof.
  intros D E HDE. unfold coded.
  assert (csum k D = csum k E ∧ kxor k D = kxor k E ∧ dxor k D = dxor k E) as (-> & -> & ->);
    [|done].
  induction HDE as [|p D E _ IH|p q D|D E F _ IH1 _ IH2]; [done| | |].
  - unfold csum, kxor, dxor in *. simpl. destruct IH as (-> & -> & ->). done.
  - unfold csum, kxor, dxor. simpl. destruct (at_index k p), (at_index k q); try done.
    split; [lia |]. split; [by rewrite <-!Z.lxor_assoc, (Z.lxor_comm (Key q.1)) |].
    by rewrite !(assoc axor), (comm axor q.1).
  - destruct IH1 as (-> & -> & ->). done.
Qed.

Lemma coded_nil k : coded k [] = zeroSymbol.
Proof. done. Qed.

(** [symbol_diff] subtracts signed sums. *)
Lemma symbol_diff_coded k D E : symbol_diff (coded k D) (coded k E) = coded k (D ++ neg E).
Proof.
  unfold symbol_diff, coded. simpl.
  rewrite csum_app, csum_neg, kxor_app, kxor_neg, dxor_app, dxor_neg. f_equal.
  by rewrite i32_sub_l, i32_sub_r, Z.add_opp_r.
Qed.

(** A difference and its opposite cancel. *)
Lemma symbol_diff_self s : symbol_diff s s = zeroSymbol.
Proof.
  unfold symbol_diff. by rewrite Z.sub_diag, Z.lxor_nilpotent, axor_nilpotent.
Qed.

Lemma coded_cancel k D E : coded k (D ++ E ++ neg E) = coded k D.
Proof.
  unfold coded. rewrite !csum_app, csum_neg, !kxor_app, kxor_neg, !dxor_app, dxor_neg.
  f_equal.
  - f_equal. lia.
  - by rewrite Z.lxor_nilpotent, Z.lxor_0_r.
  - by rewrite axor_nilpotent, axor_0_r.
Qed.

Lemma coded_snoc k D p :
  coded k (D ++ [p]) =
    if at_index k p then
      mkSymbol (i32 (csum k D + p.2)) (Z.lxor (kxor k D) (Key p.1)) (axor (dxor k D) p.1)
    else coded k D.
Proof.
  unfold coded. rewrite csum_app, kxor_app, dxor_app, csum_cons, kxor_cons, dxor_cons.
  change (csum k []) with 0. change (kxor k []) with 0. change (dxor k []) with (zero_arr 32).
  case_match; by rewrite ?Z.add_0_r, ?Z.lxor_0_r, ?axor_0_r.
Qed.

(** The folds of the code compute signed sums. *)
Lemma local_add_coded k sign D e :
  local_add k sign (coded k D) e = coded k (D ++ [(e, sign)]).
Proof.
  rewrite coded_snoc. unfold local_add. change (at_index k (e, sign)) with (contributes (Key e) k).
  case_match; [|done]. simpl. by rewrite i32_add_l.
Qed.

Lemma fold_local_add k sign D l :
  foldl (local_add k sign) (coded k D) l = coded k (D ++ ((λ e, (e, sign)) <$> l)).
Proof.
  revert D. induction l as [|e l IH]; intros D; simpl; [by rewrite app_nil_r |].
  by rewrite local_add_coded, IH, <-app_assoc.
Qed.

Lemma effectiveLocalSymbol_coded d k :
  effectiveLocalSymbol d k =
    coded k (plus (local d) ++ plus (syntheticAdded d) ++ minus (syntheticRemoved d)).
Proof.
  unfold effectiveLocalSymbol. rewrite <-(coded_nil k), !fold_local_add.
  by rewrite app_nil_l, <-app_assoc.
Qed.

Lemma next_step_local k : next_step k = local_add k 1.
Proof. done. Qed.

Lemma NextSymbol_coded e : (NextSymbol e).1 = coded (nextIdx e) (plus (elems e)).
Proof.
  unfold NextSymbol. simpl. by rewrite next_step_local, <-(coded_nil (nextIdx e)),
    fold_local_add.
Qed.

Lemma subtract_coded k e s D :
  subtract e s k (coded (Z.of_nat k) (D ++ [(e, s)])) = coded (Z.of_nat k) D.
Proof.
  rewrite coded_snoc. unfold subtract.
  change (at_index (Z.of_nat k) (e, s)) with (contributes (Key e) (Z.of_nat k)).
  destruct (contributes (Key e) (Z.of_nat k)); [|done]. unfold coded. simpl.
  rewrite i32_sub_l, Z.lxor_assoc, Z.lxor_nilpotent, Z.lxor_0_r, axor_cancel_r.
  do 2 f_equal. lia.
Qed.

Lemma seeded_local l : seeded l = mkDecoder l [] ∅ [] [].
Proof.
  assert (Hgen : ∀ k, foldl AddLocalElement (mkDecoder k [] ∅ [] []) l
                      = mkDecoder (k ++ l) [] ∅ [] []); [|apply Hgen].
  induction l as [|e l IH]; intros k; simpl; [by rewrite app_nil_r |].
  unfold AddLocalElement at 2. simpl. by rewrite IH, <-app_assoc.
Qed.

Lemma encoder_elems l : encoder l = mkEncoder l 0.
Proof.
  assert (Hgen : ∀ k, foldl AddElement (mkEncoder k 0) l = mkEncoder (k ++ l) 0); [|apply Hgen].
  induction l as [|e l IH]; intros k; simpl; [by rewrite app_nil_r |].
  unfold AddElement at 2. simpl. by rewrite IH, <-app_assoc.
Qed.

(** The [n]-th symbol of the stream, while the index does not wrap. *)
Lemma stream_coded n e :
  0 ≤ nextIdx e → nextIdx e + Z.of_nat n < 2 ^ 64 →
  stream n e = (λ i, coded (nextIdx e + Z.of_nat i) (plus (elems e))) <$> seq 0 n.
Proof.
  revert e. induction n as [|n IH]; intros e H0 Hn; [done |].
  change (stream (S n) e) with ((NextSymbol e).1 :: stream n (NextSymbol e).2).
  rewrite NextSymbol_coded.
  rewrite IH; cbn [NextSymbol snd nextIdx elems].
  - rewrite u64_small by (unfold is_u64; lia). cbn [seq]. rewrite fmap_cons, Z.add_0_r.
    f_equal. rewrite <-fmap_S_seq, <-list_fmap_compose.
    apply list_fmap_ext. intros i x _. simpl. f_equal. lia.
  - rewrite u64_small by (unfold is_u64; lia). lia.
  - rewrite u64_small by (unfold is_u64; lia). lia.
Qed.

Lemma stream_encoder n l :
  Z.of_nat n < 2 ^ 64 →
  stream n (encoder l) = (λ i, coded (Z.of_nat i) (plus l)) <$> seq 0 n.
Proof.
  intros Hn. rewrite encoder_elems, stream_coded by (simpl; lia). done.
Qed.

(** ** The peeling loop *)

Lemma first_pure_spec dec l :
  match first_pure dec l with
  | Some s => ∃ j, l !! j = Some s ∧ candidate dec s = true
  | None => ∀ j s, l !! j = Some s → candidate dec s = false
  end.
Proof.
  induction l as [|s l IH]; simpl; [done |].
  destruct (candidate dec s) eqn:E; [by exists O |].
  destruct (first_pure dec l) as [s'|].
  - destruct IH as (j & Hj & Hc). by exists (S j).
  - intros [|j] s' Hs; simplify_eq/=; [done | by eapply IH].
Qed.

Lemma candidate_spec dec s :
  candidate dec s = true ↔
    (Count s = 1 ∨ Count s = -1) ∧ Key (DataXOR s) = KeyXOR s ∧ dec !! DataXOR s = None.
Proof.
  change (candidate dec s) with (((Count s =? 1) || (Count s =? -1)) &&
    ((Key (DataXOR s) =? KeyXOR s) && bool_decide (dec !! DataXOR s = None))).
  rewrite !andb_true_iff, orb_true_iff, !Z.eqb_eq, bool_decide_eq_true. tauto.
Qed.

(** Every round decodes an element that was not decoded before. *)
Lemma peel_step_decodes d d' :
  peel_step d = Some d' → size (decoded d') = S (size (decoded d)).
Proof.
  unfold peel_step. intros H. pose proof (first_pure_spec (decoded d) (diffSymbols d)) as Hf.
  destruct (first_pure _ _) as [s|]; simplify_eq/=. destruct Hf as (j & _ & Hc).
  apply candidate_spec in Hc as (_ & _ & Hn). by rewrite map_size_insert_None.
Qed.

Lemma size_decoded (m : gmap (array 32) Z) : Z.of_nat (size m) ≤ 256 ^ 32.
Proof.
  rewrite <-size_dom.
  assert (Hc : (size (dom m) ≤ card (array 32))%nat).
  { apply submseteq_length, NoDup_submseteq; [apply NoDup_elements |].
    intros x _. apply elem_of_enum. }
  rewrite vec_card in Hc. apply Nat2Z.inj_le in Hc. rewrite Nat2Z.inj_pow in Hc.
  done.
Qed.

Lemma peel_exits d : (iter_until peel_fuel peel_step d).2 = true.
Proof.
  assert (Hp : Z.pos peel_fuel = 256 ^ 32 + 1) by done.
  remember peel_fuel as p eqn:Heqp. clear Heqp.
  apply (iter_until_terminates _ (λ _, True) (λ d, Pos.to_nat p - size (decoded d) - 1)%nat).
  - done.
  - intros x y _ Hxy. split; [done |]. apply peel_step_decodes in Hxy.
    pose proof (size_decoded (decoded y)). lia.
  - pose proof (size_decoded (decoded d)). lia.
Qed.

Lemma peel_exit d : peel_step (peel d) = None.
Proof. unfold peel. apply iter_until_exit, peel_exits. Qed.

Lemma peel_exhausted d j s :
  diffSymbols (peel d) !! j = Some s → candidate (decoded (peel d)) s = false.
Proof.
  pose proof (peel_exit d) as Hex. revert Hex. generalize (peel d) as d'. intros d' Hex.
  unfold peel_step in Hex.
  pose proof (first_pure_spec (decoded d') (diffSymbols d')) as Hf.
  destruct (first_pure _ _) as [s'|]; [done |]. apply Hf.
Qed.

(** ** The decoder's invariant *)

Definition dec_list (d : Decoder) : signed :=
  plus (syntheticAdded d) ++ minus (syntheticRemoved d).

(** After the symbols [rs], each residual is the received symbol less the
    local set and less everything decoded so far. *)
Record inv (l : list (array 32)) (rs : list Symbol) (d : Decoder) : Prop := {
  inv_local : local d = l;
  inv_diff : diffSymbols d =
    imap (λ k s, symbol_diff s (coded (Z.of_nat k) (plus l ++ dec_list d))) rs;
  inv_nodup : NoDup (dec_list d).*1;
  inv_decoded : ∀ e z, decoded d !! e = Some z ↔ (e, z) ∈ dec_list d
}.

Lemma subtract_diff k e z s X :
  subtract e z k (symbol_diff s (coded (Z.of_nat k) X)) =
    symbol_diff s (coded (Z.of_nat k) (X ++ [(e, z)])).
Proof.
  rewrite coded_snoc. unfold subtract, symbol_diff.
  change (at_index (Z.of_nat k) (e, z)) with (contributes (Key e) (Z.of_nat k)).
  destruct (contributes (Key e) (Z.of_nat k)); [|done]. simpl.
  rewrite i32_sub_l, !i32_sub_r, Z.lxor_assoc, <-(assoc axor). f_equal.
  replace (Count s - i32 (csum (Z.of_nat k) X) - z)
    with ((Count s - z) - i32 (csum (Z.of_nat k) X)) by lia.
  rewrite i32_sub_r. f_equal. lia.
Qed.

(** What one round does, in terms of the signed list. *)
Lemma peel_step_inv d d' :
  peel_step d = Some d' →
  ∃ j s, diffSymbols d !! j = Some s ∧ candidate (decoded d) s = true ∧
    local d' = local d ∧ dec_list d' ≡ₚ dec_list d ++ [(DataXOR s, Count s)] ∧
    diffSymbols d' = imap (subtract (DataXOR s) (Count s)) (diffSymbols d) ∧
    decoded d' = <[DataXOR s := Count s]> (decoded d).
Proof.
  unfold peel_step. intros H. pose proof (first_pure_spec (decoded d) (diffSymbols d)) as Hf.
  destruct (first_pure _ _) as [s|]; simplify_eq/=. destruct Hf as (j & Hj & Hc).
  exists j, s. repeat split; try done.
  apply candidate_spec in Hc as ([Hc|Hc] & _); rewrite Hc; unfold dec_list, plus, minus; simpl.
  - rewrite fmap_app. simpl. rewrite <-app_assoc, <-app_assoc. f_equiv. apply Permutation_app_comm.
  - by rewrite fmap_app, app_assoc.
Qed.

Lemma imap_subtract e z (f : nat → Symbol → Symbol) rs :
  imap (subtract e z) (imap f rs) = imap (λ k s, subtract e z k (f k s)) rs.
Proof.
  apply list_eq. intros i. rewrite !list_lookup_imap. by destruct (rs !! i).
Qed.

Lemma inv_step l rs d d' : inv l rs d → peel_step d = Some d' → inv l rs d'.
Proof.
  intros [Hl Hd Hn Hi] H.
  apply peel_step_inv in H as (j & s & Hj & Hc & Hl' & Hp & Hd' & Hm).
  apply candidate_spec in Hc as (_ & _ & Hfresh).
  assert (Hnotin : DataXOR s ∉ (dec_list d).*1).
  { intros Hin. apply list_elem_of_fmap in Hin as ([e z] & He & Hin).
    apply Hi in Hin. simpl in He. rewrite He, Hin in Hfresh. done. }
  split.
  - by rewrite Hl'.
  - rewrite Hd', Hd, imap_subtract. apply imap_ext. intros k r _.
    by rewrite subtract_diff, Hp, app_assoc.
  - rewrite Hp, fmap_app. apply NoDup_app. split; [done |]. split; [|apply NoDup_singleton].
    intros x Hx Hs. apply list_elem_of_singleton in Hs as ->. done.
  - intros e z. rewrite Hm, Hp, elem_of_app, list_elem_of_singleton, lookup_insert_Some.
    rewrite Hi. split; [intros [[<- <-]|[_ Hin]]; auto |].
    intros [Hin|Heq]; [right | left; by injection Heq as -> ->].
    split; [|done]. intros <-. by apply Hnotin, (list_elem_of_fmap_2 fst _ (DataXOR s, z)).
Qed.

Lemma inv_peel l rs d : inv l rs d → inv l rs (peel d).
Proof. intros. unfold peel. apply iter_until_inv; [done |]. intros; by eapply inv_step. Qed.

Lemma run_snoc l rs s : run l (rs ++ [s]) = AddRemoteSymbol (run l rs) s.
Proof. unfold run. by rewrite foldl_app. Qed.

Lemma run_exhausted l rs j s :
  diffSymbols (run l rs) !! j = Some s → candidate (decoded (run l rs)) s = false.
Proof.
  destruct rs as [|s0 rs _] using rev_ind.
  - unfold run. simpl. by rewrite seeded_local.
  - rewrite run_snoc. unfold AddRemoteSymbol. apply peel_exhausted.
Qed.

(** The state in which the peeling of symbol number [length rs] starts. *)
Definition received (d : Decoder) (s : Symbol) : Decoder :=
  mkDecoder (local d) (diffSymbols d ++ [symbol_diff s (effectiveLocalSymbol d (len (diffSymbols d)))])
    (decoded d) (syntheticAdded d) (syntheticRemoved d).

Lemma inv_received l rs d s : inv l rs d → inv l (rs ++ [s]) (received d s).
Proof.
  intros [Hl Hd Hn Hi]. split; [done | | done | done]. unfold received. simpl.
  rewrite effectiveLocalSymbol_coded, Hl, imap_app. rewrite Hd at 1. f_equal.
  unfold len. rewrite Hd, length_imap. simpl. by rewrite Nat.add_0_r.
Qed.

Lemma inv_run l rs : inv l rs (run l rs).
Proof.
  induction rs as [|s rs IH] using rev_ind.
  - unfold run. simpl. rewrite seeded_local. split; simpl; try done.
    + constructor.
    + intros e z. rewrite lookup_empty. split; [done |]. by intros ?%elem_of_nil.
  - rewrite run_snoc. by apply inv_peel, inv_received.
Qed.

(** ** Two honest sides *)

Section reconcile.
Variables S L : list (array 32).
Hypothesis HS : NoDup S.
Hypothesis HL : NoDup L.

(** What the sender has and the receiver lacks counts once, what the receiver
    has and the sender lacks counts minus once. *)
Definition signed_diff : signed :=
  plus (filter (λ e, e ∉ L) S) ++ minus (filter (λ e, e ∉ S) L).

Lemma elem_of_signed_diff e z :
  (e, z) ∈ signed_diff ↔ (z = 1 ∧ e ∈ S ∧ e ∉ L) ∨ (z = -1 ∧ e ∈ L ∧ e ∉ S).
Proof.
  unfold signed_diff, plus, minus. rewrite elem_of_app, !list_elem_of_fmap.
  setoid_rewrite list_elem_of_filter. split.
  - intros [(x & [= -> ->] & ? & ?)|(x & [= -> ->] & ? & ?)]; auto.
  - intros [(-> & ? & ?)|(-> & ? & ?)]; [left | right]; exists e; auto.
Qed.

Lemma neg_plus l : neg (plus l) = minus l.
Proof. unfold neg, plus, minus. by rewrite <-list_fmap_compose. Qed.

Lemma residual_coded k D X :
  signed_diff ≡ₚ D ++ X →
  symbol_diff (coded k (plus S)) (coded k (plus L ++ X)) = coded k D.
Proof.
  intros HD. rewrite symbol_diff_coded.
  rewrite <-(coded_cancel k D X), <-(coded_cancel k (D ++ X ++ neg X) (plus (filter (.∈ L) S))).
  apply coded_perm. rewrite (app_assoc D), <-HD, neg_plus.
  assert (HI : filter (.∈ L) S ≡ₚ filter (.∈ S) L).
  { apply NoDup_Permutation; [by apply NoDup_filter.. |].
    intros x. rewrite !list_elem_of_filter. tauto. }
  assert (HSp : plus S ≡ₚ plus (filter (.∈ L) S) ++ plus (filter (λ e, e ∉ L) S)).
  { unfold plus. by rewrite <-fmap_app, filter_app_complement. }
  assert (HLp : minus L ≡ₚ minus (filter (.∈ L) S) ++ minus (filter (λ e, e ∉ S) L)).
  { unfold minus. by rewrite HI, <-fmap_app, filter_app_complement. }
  assert (Hneg : neg (plus L ++ X) = minus L ++ neg X).
  { unfold neg at 1. rewrite fmap_app. fold (neg (plus L)). by rewrite neg_plus. }
  rewrite Hneg, HSp, HLp. unfold signed_diff. rewrite <-!app_assoc. solve_Permutation.
Qed.

(** The hash assumption, for this difference and this many symbols only: a sum
    of some of the differing elements that looks pure is a single element. *)
Definition looks_pure (s : Symbol) : Prop :=
  (Count s = 1 ∨ Count s = -1) ∧ Key (DataXOR s) = KeyXOR s.

Definition no_false_pure (n : nat) : Prop :=
  ∀ k D, (k < n)%nat → D ⊆+ signed_diff → looks_pure (coded (Z.of_nat k) D) →
    List.filter (at_index (Z.of_nat k)) D =
      [(DataXOR (coded (Z.of_nat k) D), Count (coded (Z.of_nat k) D))].

(** No non-empty part of the difference vanishes from all [n] symbols. *)
Definition no_false_zero (n : nat) : Prop :=
  ∀ D, D ⊆+ signed_diff → (∀ k, (k < n)%nat → coded (Z.of_nat k) D = zeroSymbol) → D = [].

Definition sent (n : nat) : list Symbol := (λ i, coded (Z.of_nat i) (plus S)) <$> seq 0 n.

Lemma sent_S n : sent (Datatypes.S n) = sent n ++ [coded (Z.of_nat n) (plus S)].
Proof. unfold sent. by rewrite seq_S, fmap_app. Qed.

Lemma length_sent n : length (sent n) = n.
Proof. unfold sent. by rewrite length_fmap, length_seq. Qed.

Lemma sent_residual n d D k :
  inv L (sent n) d → signed_diff ≡ₚ D ++ dec_list d → (k < n)%nat →
  diffSymbols d !! k = Some (coded (Z.of_nat k) D).
Proof.
  intros [_ Hd _ _] HD Hk. rewrite Hd, list_lookup_imap. unfold sent.
  rewrite list_lookup_fmap, lookup_seq_lt by done. simpl. f_equal. by apply residual_coded.
Qed.

Lemma candidate_pure dec s : candidate dec s = true → looks_pure s.
Proof. rewrite candidate_spec. unfold looks_pure. tauto. Qed.

(** One round moves one element of the remainder to the decoded ones. *)
Lemma peel_sound n m d d' D :
  (m ≤ n)%nat → no_false_pure n → inv L (sent m) d → signed_diff ≡ₚ D ++ dec_list d →
  peel_step d = Some d' → ∃ D', signed_diff ≡ₚ D' ++ dec_list d'.
Proof.
  intros Hmn Hpure Hinv HD H.
  apply peel_step_inv in H as (j & s & Hj & Hc & _ & Hp & _).
  assert (Hjm : (j < m)%nat).
  { apply lookup_lt_Some in Hj. rewrite (inv_diff _ _ _ Hinv), length_imap, length_sent in Hj.
    done. }
  rewrite (sent_residual m d D j Hinv HD Hjm) in Hj. injection Hj as <-.
  apply candidate_pure in Hc. apply (Hpure j D) in Hc; [| lia | ].
  - assert (Hin : (DataXOR (coded (Z.of_nat j) D), Count (coded (Z.of_nat j) D)) ∈ D).
    { apply list_elem_of_In. eapply proj1, filter_In. rewrite Hc. by left. }
    apply elem_of_Permutation in Hin as [D' HD']. exists D'.
    rewrite Hp, HD. rewrite HD' at 1. solve_Permutation.
  - rewrite HD. apply submseteq_inserts_r. done.
Qed.

Lemma run_remainder n m :
  (m ≤ n)%nat → no_false_pure n → ∃ D, signed_diff ≡ₚ D ++ dec_list (run L (sent m)).
Proof.
  intros Hmn Hpure. induction m as [|m IH].
  - exists signed_diff. unfold run. simpl. rewrite seeded_local. unfold dec_list. simpl.
    by rewrite app_nil_r.
  - destruct IH as [D HD]; [lia |]. rewrite sent_S, run_snoc.
    unfold AddRemoteSymbol. fold (received (run L (sent m)) (coded (Z.of_nat m) (plus S))).
    set (d0 := received _ _).
    assert (H0 : inv L (sent (Datatypes.S m)) d0 ∧ ∃ D, signed_diff ≡ₚ D ++ dec_list d0).
    { split; [rewrite sent_S; apply inv_received, inv_run | by exists D]. }
    apply (iter_until_inv peel_step (λ d, inv L (sent (Datatypes.S m)) d ∧
      ∃ D, signed_diff ≡ₚ D ++ dec_list d) peel_fuel) in H0 as [_ HD']; [exact HD' |].
    intros x y [Hx [Dx HDx]] Hxy. split; [by eapply inv_step |].
    by eapply (peel_sound n (Datatypes.S m)).
Qed.

Lemma signed_diff_keys_NoDup : NoDup signed_diff.*1.
Proof.
  unfold signed_diff, plus, minus. rewrite fmap_app, <-!list_fmap_compose. unfold compose. simpl.
  rewrite !list_fmap_id. apply NoDup_app. split; [by apply NoDup_filter |].
  split; [|by apply NoDup_filter]. intros x. rewrite !list_elem_of_filter. tauto.
Qed.

(** What is still undecoded. *)
Definition undecoded (d : Decoder) : signed :=
  filter (λ p, decoded d !! p.1 = None) signed_diff.

Lemma undecoded_remainder rs d D :
  inv L rs d → signed_diff ≡ₚ D ++ dec_list d → undecoded d ≡ₚ D.
Proof.
  intros [_ _ _ Hi] HD. unfold undecoded. rewrite HD, filter_app.
  pose proof signed_diff_keys_NoDup as Hn. rewrite HD, fmap_app in Hn.
  apply NoDup_app in Hn as (_ & Hdis & _).
  rewrite filter_all, filter_none, app_nil_r; [done | |]; apply Forall_forall.
  - intros [e z] Hin Hnone. apply Hi in Hin. simpl in Hnone. by rewrite Hin in Hnone.
  - intros [e z] Hin. simpl. apply eq_None_not_Some. intros [z' Hz]. apply Hi in Hz.
    apply (Hdis e); [by apply (list_elem_of_fmap_2 fst _ (e, z))
                    | by apply (list_elem_of_fmap_2 fst _ (e, z'))].
Qed.

(** The state after [n] honest symbols. *)
Lemma sent_state n :
  no_false_pure n → let d := run L (sent n) in
  inv L (sent n) d ∧ signed_diff ≡ₚ undecoded d ++ dec_list d ∧
  ∀ k, (k < n)%nat → diffSymbols d !! k = Some (coded (Z.of_nat k) (undecoded d)).
Proof.
  intros Hpure d. destruct (run_remainder n n ltac:(lia) Hpure) as [D HD].
  pose proof (inv_run L (sent n)) as Hinv. fold d in HD, Hinv.
  assert (HD' : signed_diff ≡ₚ undecoded d ++ dec_list d)
    by (by rewrite (undecoded_remainder (sent n) d D Hinv HD)).
  split; [done |]. split; [done |]. intros k Hk. by apply (sent_residual n).
Qed.

End reconcile.

Lemma stream_sent n l : Z.of_nat n < 2 ^ 64 → stream n (encoder l) = sent l n.
Proof. apply stream_encoder. Qed.

Lemma elem_of_dec_list d e z :
  (e, z) ∈ dec_list d ↔ (z = 1 ∧ e ∈ syntheticAdded d) ∨ (z = -1 ∧ e ∈ syntheticRemoved d).
Proof.
  unfold dec_list, plus, minus. rewrite elem_of_app, !list_elem_of_fmap. split.
  - intros [(x & [= -> ->] & ?)|(x & [= -> ->] & ?)]; auto.
  - intros [(-> & ?)|(-> & ?)]; [left | right]; exists e; auto.
Qed.

Lemma NoDup_dec_list d :
  NoDup (dec_list d).*1 ↔ NoDup (syntheticAdded d ++ syntheticRemoved d).
Proof.
  unfold dec_list, plus, minus. rewrite fmap_app, <-!list_fmap_compose. unfold compose. simpl.
  by rewrite !list_fmap_id.
Qed.

(** [Added] and [Removed] report the synthetic lists, each element once. *)
Lemma NoDup_reported (P : array 32 * Z → Prop) `{∀ x, Decision (P x)} (m : gmap (array 32) Z) :
  NoDup (filter P (map_to_list m)).*1.
Proof.
  apply (sublist_NoDup _ (map_to_list m).*1); [apply NoDup_fst_map_to_list |].
  apply fmap_sublist, sublist_filter.
Qed.

Lemma Added_synthetic l rs d : inv l rs d → Added d ≡ₚ syntheticAdded d.
Proof.
  intros [_ _ Hn Hi]. apply NoDup_dec_list, NoDup_app in Hn as (Hn & _).
  apply NoDup_Permutation; [apply NoDup_reported | done |].
  intros e. unfold Added. rewrite list_elem_of_fmap. split.
  - intros ([e' z] & -> & Hin). apply list_elem_of_filter in Hin as [Hz Hin].
    apply elem_of_map_to_list, Hi, elem_of_dec_list in Hin. simpl in *.
    by destruct Hin as [[-> ?]|[-> ?]].
  - intros Hin. exists (e, 1). split; [done |]. apply list_elem_of_filter. split; [done |].
    apply elem_of_map_to_list, Hi, elem_of_dec_list. auto.
Qed.

Lemma Removed_synthetic l rs d : inv l rs d → Removed d ≡ₚ syntheticRemoved d.
Proof.
  intros [_ _ Hn Hi]. apply NoDup_dec_list, NoDup_app in Hn as (_ & _ & Hn).
  apply NoDup_Permutation; [apply NoDup_reported | done |].
  intros e. unfold Removed. rewrite list_elem_of_fmap. split.
  - intros ([e' z] & -> & Hin). apply list_elem_of_filter in Hin as [Hz Hin].
    apply elem_of_map_to_list, Hi, elem_of_dec_list in Hin. simpl in *.
    by destruct Hin as [[-> ?]|[-> ?]].
  - intros Hin. exists (e, -1). split; [done |]. apply list_elem_of_filter. split; [done |].
    apply elem_of_map_to_list, Hi, elem_of_dec_list. auto.
Qed.

Lemma Converged_spec d :
  Converged d = true ↔ ∀ k s, diffSymbols d !! k = Some s → s = zeroSymbol.
Proof.
  unfold Converged. rewrite forallb_forall. split.
  - intros H k s Hs. apply list_elem_of_lookup_2, list_elem_of_In, H in Hs.
    rewrite negb_true_iff, !orb_false_iff, !negb_false_iff, !Z.eqb_eq, bool_decide_eq_true in Hs.
    destruct s as [c x y], Hs as [[Hc Hx] Hy]. simpl in *. by subst.
  - intros H s Hs. apply list_elem_of_In, list_elem_of_lookup in Hs as [k Hk].
    by rewrite (H k s Hk), bool_decide_eq_true_2.
Qed.

(** ** Properties *)

Lemma stream_order_independent n e1 e2 :
  elems e1 ≡ₚ elems e2 → nextIdx e1 = nextIdx e2 →
  stream n e1 = stream n e2 ∧
  NextSymbolIndex (NextSymbol e1).2 = u64 (NextSymbolIndex e1 + 1) ∧ Len e1 = Len e2.
Proof.
  intros Helems Hidx. split; [|split; [done | unfold Len, len; by rewrite Helems]].
  revert e1 e2 Helems Hidx. induction n as [|n IH]; intros e1 e2 He Hi; [done |].
  change (stream (Datatypes.S n) e1) with ((NextSymbol e1).1 :: stream n (NextSymbol e1).2).
  change (stream (Datatypes.S n) e2) with ((NextSymbol e2).1 :: stream n (NextSymbol e2).2).
  f_equal.
  - rewrite !NextSymbol_coded, Hi. apply coded_perm. unfold plus. by rewrite He.
  - apply IH; [done | simpl; by rewrite Hi].
Qed.

Lemma sent_diff_elem S L n e z :
  NoDup S → NoDup L → no_false_pure S L n →
  (e, z) ∈ dec_list (run L (sent S n)) → (e, z) ∈ signed_diff S L.
Proof.
  intros HS HL Hp Hin. destruct (sent_state S L HS HL n Hp) as (_ & HD & _).
  rewrite HD, elem_of_app. by right.
Qed.

(** Reconciliation reports only true differences: two honest sides with
    duplicate-free sets, after any number of symbols, and as long as no
    combination of differing elements imitates a pure symbol, [Added] holds
    only elements the sender has and the receiver lacks and [Removed] only
    elements the receiver has and the sender lacks. *)
Lemma reconcile_sound S L n
    (HS : NoDup S) (HL : NoDup L) (Hn : Z.of_nat n < 2 ^ 64) (Hpure : no_false_pure S L n) :
  let d := run L (stream n (encoder S)) in
  (∀ e, e ∈ Added d → e ∈ S ∧ e ∉ L) ∧ (∀ e, e ∈ Removed d → e ∈ L ∧ e ∉ S).
Proof.
  rewrite stream_sent by done. intros d. pose proof (inv_run L (sent S n)) as Hinv.
  fold d in Hinv. split; intros e He.
  - rewrite (Added_synthetic _ _ _ Hinv) in He.
    assert (Hd : (e, 1) ∈ dec_list d) by (apply elem_of_dec_list; auto).
    apply sent_diff_elem, elem_of_signed_diff in Hd as [(_ & ?)|(? & _)]; done.
  - rewrite (Removed_synthetic _ _ _ Hinv) in He.
    assert (Hd : (e, -1) ∈ dec_list d) by (apply elem_of_dec_list; auto).
    apply sent_diff_elem, elem_of_signed_diff in Hd as [(? & _)|(_ & ?)]; done.
Qed.

Lemma coded_single k p :
  at_index k p = true → p.2 = 1 ∨ p.2 = -1 → coded k [p] = mkSymbol p.2 (Key p.1) p.1.
Proof.
  intros Hk Hp. change [p] with ([] ++ [p]). rewrite coded_snoc, Hk.
  f_equal; [|by apply axor_0_l]. change (csum k []) with 0. by destruct Hp as [-> | ->].
Qed.

(** Elements that take no part in a symbol do not matter to it. *)
Lemma coded_filter k D : coded k (List.filter (at_index k) D) = coded k D.
Proof.
  assert (csum k (List.filter (at_index k) D) = csum k D ∧
    kxor k (List.filter (at_index k) D) = kxor k D ∧
    dxor k (List.filter (at_index k) D) = dxor k D) as (H1 & H2 & H3);
    [|unfold coded; by rewrite H1, H2, H3].
  induction D as [|p D (IH1 & IH2 & IH3)]; [done |]. simpl List.filter.
  destruct (at_index k p) eqn:E;
    by rewrite ?csum_cons, ?kxor_cons, ?dxor_cons, ?E, IH1, IH2, IH3.
Qed.

(** The decoder goes as far as peeling can: in the same setting, what is
    left undecoded is a stopping set of the symbols received, no index of the
    stream has exactly one undecoded differing element in it. *)
Lemma reconcile_stopping_set S L n k
    (HS : NoDup S) (HL : NoDup L) (Hn : Z.of_nat n < 2 ^ 64) (Hpure : no_false_pure S L n)
    (Hk : (k < n)%nat) :
  length (List.filter (at_index (Z.of_nat k))
            (undecoded S L (run L (stream n (encoder S))))) ≠ 1%nat.
Proof.
  rewrite stream_sent by done. destruct (sent_state S L HS HL n Hpure) as (Hinv & HD & Hd).
  destruct n as [|n]; [lia |]. specialize (Hd k Hk). intros H1.
  destruct (List.filter _ _) as [|[e z] [|]] eqn:Hf; try done.
  assert (Hin : (e, z) ∈ List.filter (at_index (Z.of_nat k)) (undecoded S L (run L (sent S (Datatypes.S n)))))
    by (rewrite Hf; by apply list_elem_of_singleton).
  apply list_elem_of_In, filter_In in Hin as [Hin Hat].
  apply list_elem_of_In, list_elem_of_filter in Hin as [Hund Hin]. simpl in Hund.
  assert (Hz : z = 1 ∨ z = -1) by (apply elem_of_signed_diff in Hin; tauto).
  rewrite <-coded_filter, Hf, coded_single in Hd by done. simpl in Hd.
  pose proof (run_exhausted L (sent S (Datatypes.S n)) k _ Hd) as Hc.
  assert (Hc' : candidate (decoded (run L (sent S (Datatypes.S n)))) (mkSymbol z (Key e) e) = true)
    by (apply candidate_spec; simpl; auto).
  by rewrite Hc in Hc'.
Qed.

(** Whatever symbols a peer sends, decoding ends and accounts for everything.
    [peel] leaves its loop (within [2 ^ 256] rounds) after a chain of rounds, and
    only in a state where no residual looks pure and undecoded.  After any
    symbols, honest or not, each residual is exactly the symbol received at its
    index less the local symbol recomputed with what is decoded now; what is
    reported as added and removed are the two synthetic lists, without
    repetitions and disjoint.  Against the stream of an honest encoder, where no
    combination of differing elements passes for a pure symbol, peeling goes as
    far as it can: what is left undecoded is a stopping set, no index received has
    exactly one undecoded differing element in it. *)
Lemma decoder_residuals :
  (∀ d,
     (iter_until peel_fuel peel_step d).2 = true ∧
     rtc (λ a b, peel_step a = Some b) d (peel d) ∧
     ∀ j s, diffSymbols (peel d) !! j = Some s →
       ¬ ((Count s = 1 ∨ Count s = -1) ∧ Key (DataXOR s) = KeyXOR s ∧
          decoded (peel d) !! DataXOR s = None)) ∧
  (∀ l rs, let d := run l rs in
     SymbolsIn d = len rs ∧
     (∀ k s, rs !! k = Some s →
        diffSymbols d !! k = Some (symbol_diff s (effectiveLocalSymbol d (Z.of_nat k)))) ∧
     Added d ≡ₚ syntheticAdded d ∧ Removed d ≡ₚ syntheticRemoved d ∧
     NoDup (Added d ++ Removed d)) ∧
  (∀ S L n k, NoDup S → NoDup L → Z.of_nat n < 2 ^ 64 → no_false_pure S L n → (k < n)%nat →
     length (List.filter (at_index (Z.of_nat k))
               (undecoded S L (run L (stream n (encoder S))))) ≠ 1%nat).
Proof.
  split; [|split; [|apply reconcile_stopping_set]].
  { intros d.
    split; [apply peel_exits |]. split.
    - unfold peel. apply (iter_until_inv _ (rtc (λ a b, peel_step a = Some b) d)).
      + apply rtc_refl.
      + intros x y Hx Hxy. by eapply rtc_r.
    - intros j s Hs Hc. apply candidate_spec in Hc. by rewrite (peel_exhausted d j s Hs) in Hc. }
  intros l rs.
  intros d. pose proof (inv_run l rs) as Hinv. fold d in Hinv.
  pose proof (Added_synthetic l rs d Hinv) as HA.
  pose proof (Removed_synthetic l rs d Hinv) as HR.
  split; [unfold SymbolsIn, len; by rewrite (inv_diff _ _ _ Hinv), length_imap |].
  split; [|split; [done | split; [done |]]].
  - intros k s Hs. rewrite (inv_diff _ _ _ Hinv), list_lookup_imap, Hs. simpl.
    by rewrite effectiveLocalSymbol_coded, (inv_local _ _ _ Hinv).
  - rewrite HA, HR. apply NoDup_dec_list, (inv_nodup _ _ _ Hinv).
Qed.

Lemma converged_exact S L n :
  NoDup S → NoDup L → Z.of_nat n < 2 ^ 64 → no_false_pure S L n → no_false_zero S L n →
  let d := run L (stream n (encoder S)) in
  Converged d = true →
  (∀ e, e ∈ Added d ↔ e ∈ S ∧ e ∉ L) ∧ (∀ e, e ∈ Removed d ↔ e ∈ L ∧ e ∉ S).
Proof.
  intros HS HL Hn Hpure Hzero. rewrite stream_sent by done. intros d.
  destruct (sent_state S L HS HL n Hpure) as (Hinv & HD & Hd). fold d in Hinv, HD, Hd.
  pose proof (Added_synthetic _ _ _ Hinv) as HA. pose proof (Removed_synthetic _ _ _ Hinv) as HR.
  rewrite Converged_spec. intros Hz. assert (Hu : undecoded S L d = []).
  { apply Hzero; [rewrite HD; by apply submseteq_inserts_r |]. intros k Hk. by apply (Hz k), Hd. }
  rewrite Hu, app_nil_l in HD.
  assert (Hiff : ∀ e z, (e, z) ∈ dec_list d ↔ (e, z) ∈ signed_diff S L) by (intros; by rewrite HD).
  split; intros e; rewrite ?HA, ?HR.
  - specialize (Hiff e 1). rewrite elem_of_dec_list, elem_of_signed_diff in Hiff.
    split; intros; [destruct Hiff as [[(_ & ?)|(? & _)] _] | destruct Hiff as [_ [(_ & ?)|(? & _)]]]; auto; done.
  - specialize (Hiff e (-1)). rewrite elem_of_dec_list, elem_of_signed_diff in Hiff.
    split; intros; [destruct Hiff as [[(? & _)|(_ & ?)] _] | destruct Hiff as [_ [(? & _)|(_ & ?)]]]; auto; done.
Qed.

(** [Converged] means done: in the same setting, and as long as no part of
    the difference cancels out of every symbol received, [Converged] answers
    true exactly when [Added] and [Removed] are the whole difference. *)
Lemma converged_complete S L n
    (HS : NoDup S) (HL : NoDup L) (Hn : Z.of_nat n < 2 ^ 64) (Hpure : no_false_pure S L n)
    (Hzero : no_false_zero S L n) :
  let d := run L (stream n (encoder S)) in
  Converged d = true ↔
    (∀ e, e ∈ Added d ↔ e ∈ S ∧ e ∉ L) ∧ (∀ e, e ∈ Removed d ↔ e ∈ L ∧ e ∉ S).
Proof.
  rewrite stream_sent by done. intros d.
  destruct (sent_state S L HS HL n Hpure) as (Hinv & HD & Hd). fold d in Hinv, HD, Hd.
  pose proof (Added_synthetic _ _ _ Hinv) as HA. pose proof (Removed_synthetic _ _ _ Hinv) as HR.
  assert (Hlen : length (diffSymbols d) = n)
    by (by rewrite (inv_diff _ _ _ Hinv), length_imap, length_sent).
  split.
  - intros Hc. pose proof (converged_exact S L n HS HL Hn Hpure Hzero) as Hx.
    rewrite stream_sent in Hx by done. by apply Hx.
  - rewrite Converged_spec. intros [HAd HRe] k s Hs. assert (Hu : undecoded S L d = []).
    { destruct (undecoded S L d) as [|[e z] u] eqn:Hu; [done | exfalso].
      assert (Hin : (e, z) ∈ undecoded S L d) by (rewrite Hu; by left).
      apply list_elem_of_filter in Hin as [Hnone Hin]. simpl in Hnone.
      assert (Hdec : (e, z) ∈ dec_list d).
      { apply elem_of_dec_list. apply elem_of_signed_diff in Hin as [(-> & ?)|(-> & ?)].
        - left. split; [done |]. rewrite <-HA. by apply HAd.
        - right. split; [done |]. rewrite <-HR. by apply HRe. }
      apply (inv_decoded _ _ _ Hinv) in Hdec. by rewrite Hnone in Hdec. }
    assert (Hk : (k < n)%nat) by (rewrite <-Hlen; by eapply lookup_lt_Some).
    rewrite (Hd k Hk), Hu in Hs. by injection Hs as <-.
Qed.

(** [C3] Reconciliation is correct: two honest sides with duplicate-free sets,
    after any number of symbols, and as long as no combination of differing
    elements imitates a pure symbol.  [Added] holds only elements the sender has
    and the receiver lacks and [Removed] only elements the receiver has and the
    sender lacks; and as long as no part of the difference cancels out of every
    symbol received, [Converged] answers true exactly when they are the whole
    difference. *)
Theorem reconcile_correct S L n
    (HS : NoDup S) (HL : NoDup L) (Hn : Z.of_nat n < 2 ^ 64) (Hpure : no_false_pure S L n) :
  let d := run L (stream n (encoder S)) in
  (∀ e, e ∈ Added d → e ∈ S ∧ e ∉ L) ∧ (∀ e, e ∈ Removed d → e ∈ L ∧ e ∉ S) ∧
  (no_false_zero S L n →
     Converged d = true ↔
       (∀ e, e ∈ Added d ↔ e ∈ S ∧ e ∉ L) ∧ (∀ e, e ∈ Removed d ↔ e ∈ L ∧ e ∉ S)).
Proof.
  intros d. destruct (reconcile_sound S L n HS HL Hn Hpure) as [HA HR]. split; [exact HA |].
  split; [exact HR |]. intros Hz. by apply converged_complete.
Qed.


Lemma same_set_converges S L n :
  NoDup S → S ≡ₚ L → Z.of_nat n < 2 ^ 64 →
  let d := run L (stream n (encoder S)) in
  Converged d = true ∧ Added d = [] ∧ Removed d = [].
Proof.
  intros HS Hperm Hn. rewrite stream_sent by done. intros d.
  assert (HL : NoDup L) by (by rewrite <-Hperm).
  assert (Hnil : signed_diff S L = []).
  { unfold signed_diff. rewrite !filter_none; [done | |]; apply Forall_forall; intros x Hx Hnx;
      apply Hnx; by rewrite Hperm in *. }
  assert (Hpure : no_false_pure S L n).
  { intros k D _ HD Hp. rewrite Hnil in HD. apply submseteq_nil_r in HD as ->.
    destruct Hp as [[Hp|Hp] _]; discriminate Hp. }
  destruct (sent_state S L HS HL n Hpure) as (Hinv & HD & Hd). fold d in Hinv, HD, Hd.
  pose proof (Added_synthetic _ _ _ Hinv) as HA. pose proof (Removed_synthetic _ _ _ Hinv) as HR.
  rewrite Hnil in HD. apply Permutation_nil, app_eq_nil in HD as [Hu Hdec].
  unfold dec_list, plus, minus in Hdec. apply app_eq_nil in Hdec as [H1 H2].
  apply fmap_nil_inv in H1, H2. rewrite H1 in HA. rewrite H2 in HR.
  split; [|by split; apply Permutation_nil].
  apply Converged_spec. intros k s Hs.
  assert (Hk : (k < n)%nat).
  { apply lookup_lt_Some in Hs. by rewrite (inv_diff _ _ _ Hinv), length_imap, length_sent in Hs. }
  rewrite (Hd k Hk), Hu in Hs. by injection Hs as <-.
Qed.

(** Only the sets matter.  Two encoders fed the same elements in any order,
    from the same stream position, emit the same symbols for ever, and the
    position counts the symbols emitted.  Two sides that hold the same set, in
    whatever orders, converge at once with no assumption on the hash: every
    number of symbols leaves a converged decoder that reports nothing. *)
Lemma order_independent (S L : list RIBLTElement) (n : nat)
    (HS : NoDup S) (Hperm : S ≡ₚ L) (Hn : Z.of_nat n < 2 ^ 64) :
  (∀ e1 e2, elems e1 ≡ₚ elems e2 → nextIdx e1 = nextIdx e2 →
     stream n e1 = stream n e2 ∧
     NextSymbolIndex (NextSymbol e1).2 = u64 (NextSymbolIndex e1 + 1) ∧ Len e1 = Len e2) ∧
  (let d := run L (stream n (encoder S)) in
   Converged d = true ∧ Added d = [] ∧ Removed d = []).
Proof.
  split; [intros; by apply stream_order_independent | by apply same_set_converges].
Qed.

(** ** Concrete instances *)

(** The two hash assumptions are decidable: they quantify over the parts of one
    finite difference. *)
Fixpoint sublists {A} (l : list A) : list (list A) :=
  match l with
  | [] => [[]]
  | x :: l => let r := sublists l in r ++ (cons x <$> r)
  end.

Lemma sublists_complete {A} (k l : list A) : k `sublist_of` l → k ∈ sublists l.
Proof.
  induction 1 as [|x k l H IH|x k l H IH]; simpl.
  - by apply list_elem_of_singleton.
  - apply elem_of_app. right. by apply list_elem_of_fmap_2.
  - apply elem_of_app. by left.
Qed.

Definition looks_pureb (s : Symbol) : bool :=
  if (Count s =? 1) || (Count s =? -1) then Key (DataXOR s) =? KeyXOR s else false.

Definition no_false_pureb (S L : list (array 32)) (n : nat) : bool :=
  forallb (λ k, forallb (λ D,
    let s := coded (Z.of_nat k) D in
    if looks_pureb s then
      bool_decide (List.filter (at_index (Z.of_nat k)) D = [(DataXOR s, Count s)])
    else true)
    (sublists (signed_diff S L))) (seq 0 n).

Definition no_false_zerob (S L : list (array 32)) (n : nat) : bool :=
  forallb (λ D, bool_decide (D = []) ||
    existsb (λ k, negb (bool_decide (coded (Z.of_nat k) D = zeroSymbol))) (seq 0 n))
    (sublists (signed_diff S L)).

Lemma no_false_pureb_sound S L n : no_false_pureb S L n = true → no_false_pure S L n.
Proof.
  intros H k D Hk HD Hp. apply submseteq_sublist_r in HD as (E & HDE & HE).
  unfold no_false_pureb in H. rewrite forallb_forall in H.
  specialize (H k). rewrite in_seq, forallb_forall in H. specialize (H ltac:(lia) E).
  rewrite <-list_elem_of_In in H. specialize (H (sublists_complete _ _ HE)). cbv zeta in H.
  pose proof (coded_perm (Z.of_nat k) _ _ HDE) as Hc. rewrite <-Hc in H.
  destruct (looks_pureb (coded (Z.of_nat k) D)) eqn:Hl.
  2: { exfalso. unfold looks_pureb in Hl. destruct Hp as [Hp1 Hp2].
    rewrite (proj2 (Z.eqb_eq _ _) Hp2) in Hl.
    rewrite (proj2 (orb_true_iff _ _)) in Hl; [done |]. by rewrite !Z.eqb_eq. }
  - apply bool_decide_eq_true in H. apply Permutation_singleton_r. rewrite <-H.
    by apply List_filter_perm.
Qed.

Lemma no_false_zerob_sound S L n : no_false_zerob S L n = true → no_false_zero S L n.
Proof.
  intros H D HD Hz. apply submseteq_sublist_r in HD as (E & HDE & HE).
  unfold no_false_zerob in H. rewrite forallb_forall in H. specialize (H E).
  rewrite <-list_elem_of_In in H. specialize (H (sublists_complete _ _ HE)).
  apply orb_true_iff in H as [H|H].
  - apply bool_decide_eq_true in H. subst. by apply Permutation_nil_r.
  - apply existsb_exists in H as (k & Hk & Hc). apply in_seq in Hk.
    apply negb_true_iff, bool_decide_eq_false in Hc. rewrite <-HDE in Hc.
    destruct Hc. apply Hz. lia.
Qed.

Definition el (s : string) : array 32 := copy_arr 32 (str s).
Definition alice : list (array 32) := [el "one"; el "two"].
Definition bob : list (array 32) := [el "two"; el "four"].


Lemma alice_bob_pure : no_false_pure alice bob 3.
Proof. apply no_false_pureb_sound. by vm_compute. Qed.
Lemma alice_bob_zero : no_false_zero alice bob 3.
Proof. apply no_false_zerob_sound. by vm_compute. Qed.
Lemma alice_NoDup : NoDup alice.
Proof. apply (bool_decide_unpack _). by vm_compute. Qed.
Lemma bob_NoDup : NoDup bob.
Proof. apply (bool_decide_unpack _). by vm_compute. Qed.

Lemma example_converged : Converged (run bob (stream 3 (encoder alice))) = true.
Proof. vm_compute. reflexivity. Qed.
Lemma example_added : Added (run bob (stream 3 (encoder alice))) = [el "one"].
Proof. vm_compute. reflexivity. Qed.
Lemma example_removed : Removed (run bob (stream 3 (encoder alice))) = [el "four"].
Proof. vm_compute. reflexivity. Qed.

Lemma reconcile_correct_witness :
  (el "one" ∈ Added (run bob (stream 3 (encoder alice))) ∧ el "one" ∈ alice ∧ el "one" ∉ bob) ∧
  (el "four" ∈ Removed (run bob (stream 3 (encoder alice))) ↔ el "four" ∈ bob ∧ el "four" ∉ alice).
Proof.
  destruct (reconcile_correct alice bob 3 alice_NoDup bob_NoDup eq_refl alice_bob_pure) as (HA & _ & Hc).
  split.
  - assert (Hin : el "one" ∈ Added (run bob (stream 3 (encoder alice)))).
    { rewrite example_added. by apply list_elem_of_singleton. }
    split; [exact Hin | exact (HA _ Hin)].
  - apply (Hc alice_bob_zero). exact example_converged.
Defined.

Lemma decoder_residuals_witness :
  length (List.filter (at_index 2) (undecoded alice bob (run bob (stream 3 (encoder alice))))) ≠ 1%nat.
Proof.
  apply (proj2 (proj2 decoder_residuals) alice bob 3%nat 2%nat alice_NoDup bob_NoDup eq_refl alice_bob_pure). lia.
Defined.

End Riblt.
