(* ===== verification/Snagg.v ===== *)
(** * The SNAGG page format (contracts/snagg/snagg.go, pages.go)

    Page headers, bencoded records, leaf and interior pages and the signed
    trailer, each with its encoder and its decoder, and the theorems that the
    decoders undo the encoders. *)

From S2P Require Import Prelude GoInt Sha256 Externals Instances Record.
Open Scope Z_scope.

Module Snagg.
Import Record.Record.

Definition BTreeMagic : bytes := str "SNAGG" ++ [x00].
Definition BTreeVersion : Z := 1.
Definition PageKindRoot : Z := 0.
Definition PageKindInterior : Z := 1.
Definition PageKindLeaf : Z := 2.
Definition PageKindTrailer : Z := 255.
Definition PageHeaderSize : Z := 16.
Definition MaxKeywordBytes : Z := 64.
Definition MaxRecordBytes : Z := 256.
Definition TrailerPayloadSize : Z := 162.
Definition TrailerVersion : Z := 1.
Definition MinPieceSize : Z := 16384.
Definition MaxPieceSize : Z := 4 * 1024 * 1024.

(** One constructor per error the package returns. *)
Inductive error :=
  | ErrPageOverflow
  | ErrShortPage | ErrBadMagic | ErrBadVersion
  | ErrKwEmpty | ErrKwTooLong | ErrMarshal | ErrRecordTooLong
  | ErrUnmarshal | ErrPkWidth | ErrIhWidth | ErrSigWidth
  | ErrTrailerSig | ErrPageTooSmall | ErrTrailerVersion
  | ErrKind | ErrTrailerLength | ErrPayloadExceedsPage
  | ErrNoRecords | ErrTooManyRecords | ErrPayloadUint16
  | ErrPayloadShort | ErrVarint | ErrShortRecord
  | ErrNoChildren | ErrTooManyChildren | ErrShortChild
  (** build.go *)
  | ErrPieceSize | ErrRecordTooLargeForPage | ErrSeparatorTooLarge
  (** read.go *)
  | ErrPieceRange | ErrTooFewPages | ErrNumPages | ErrRootPiece
  | ErrChildIndex | ErrCycle | ErrTooManyLeaves | ErrLeafTwice
  | ErrRecordCount | ErrFingerprint | ErrSource
  (** Not a Go error: the fuel of a recursion of the model ran out.  The
      theorems show it never does. *)
  | ErrFuel.

#[export] Instance error_eq_dec : EqDecision error.
Proof. solve_decision. Defined.

(** ** Headers *)
Record pageHeader := mkHeader { kind : Z; level : Z; payload : Z }.

(** The 16 header bytes of a zeroed page. *)
Definition encodeHeader (h : pageHeader) : bytes :=
  BTreeMagic ++ [z2b BTreeVersion; z2b (kind h); z2b (level h); x00] ++
  put_le 2 (payload h) ++ replicate 4 x00.

Definition at_ (p : bytes) (i : nat) : byte := default x00 (p !! i).
Definition slice (i j : nat) (p : bytes) : bytes := take (j - i) (drop i p).

Definition decodeHeader (page : bytes) : result error pageHeader :=
  check (PageHeaderSize <=? len page) ! ErrShortPage;
  check (bool_decide (slice 0 6 page = BTreeMagic)) ! ErrBadMagic;
  check (b2z (at_ page 6) =? BTreeVersion) ! ErrBadVersion;
  Ok (mkHeader (b2z (at_ page 7)) (b2z (at_ page 8)) (get_le (slice 10 12 page))).

(** A page of [pageSize] bytes, zero but for its header and payload. *)
Definition make_page (h : pageHeader) (p : bytes) (pageSize : Z) : bytes :=
  let b := encodeHeader h ++ p in b ++ replicate (Z.to_nat pageSize - length b) x00.

(** ** Records on the wire *)
Record recordWire := mkWire {
  wIH : bytes; wKw : bytes; wPk : bytes; wPow : Z; wSig : bytes; wT : Z
}.
#[export] Instance recordWire_ok : Wire recordWire := λ w, is_u64 (wPow w) ∧ is_i64 (wT w).
Definition to_wire (r : Record) : recordWire :=
  mkWire (sl (Ih r)) (Kw r) (sl (Pk r)) (Pow r) (sl (Sig r)) (T r).

Section bencode.
Context `{Bencode recordWire}.

Definition EncodeRecord (r : Record) : result error bytes :=
  check (negb (len (Kw r) =? 0)) ! ErrKwEmpty;
  check (len (Kw r) <=? MaxKeywordBytes) ! ErrKwTooLong;
  match marshal (to_wire r) with
  | None => Err ErrMarshal
  | Some out =>
      check (len out <=? MaxRecordBytes) ! ErrRecordTooLong;
      Ok out
  end.

(** The default [MaxStrLen] of the bencode library, when the code sets none. *)
Definition default_MaxStrLen : Z := 2 ^ 27.

Definition DecodeRecord (b : bytes) : result error Record :=
  match unmarshal (if 0 <? len b then len b else default_MaxStrLen) b with
  | None => Err ErrUnmarshal
  | Some w =>
      check (len (wPk w) =? 32) ! ErrPkWidth;
      check (len (wIH w) =? 20) ! ErrIhWidth;
      check (len (wSig w) =? 64) ! ErrSigWidth;
      check (len (wKw w) <=? MaxKeywordBytes) ! ErrKwTooLong;
      Ok (mk (copy_arr 32 (wPk w)) (wKw w) (copy_arr 20 (wIH w)) (wT w) (wPow w)
             (copy_arr 64 (wSig w)))
  end.

(** ** Leaf pages *)

(** One record of a leaf payload: its length as a varint, then its bytes. *)
Definition framed (enc : bytes) : bytes := put_uvarint (len enc) ++ enc.

Definition EncodeLeaf (lvl : Z) (records : list Record) (pageSize : Z) : result error bytes :=
  check (negb (len records =? 0)) ! ErrNoRecords;
  check (len records <=? 65535) ! ErrTooManyRecords;
  encs ← map_result EncodeRecord records;
  let p := put_le 2 (len records) ++ concat (framed <$> encs) in
  check (len p <=? 65535) ! ErrPayloadUint16;
  check (PageHeaderSize + len p <=? pageSize) ! ErrPageOverflow;
  Ok (make_page (mkHeader PageKindLeaf (u8 lvl) (len p)) p pageSize).

Fixpoint decode_records (n : nat) (p : bytes) : result error (list Record) :=
  match n with
  | O => Ok []
  | S n =>
      let '(rl, adv) := uvarint p in
      check (0 <? adv) ! ErrVarint;
      let p := drop (Z.to_nat adv) p in
      check (rl <=? len p) ! ErrShortRecord;
      rec ← DecodeRecord (take (Z.to_nat rl) p);
      out ← decode_records n (drop (Z.to_nat rl) p);
      Ok (rec :: out)
  end.

Definition DecodeLeaf (page : bytes) : result error (list Record) :=
  h ← decodeHeader page;
  check (kind h =? PageKindLeaf) ! ErrKind;
  check (PageHeaderSize + payload h <=? len page) ! ErrPayloadExceedsPage;
  let p := slice 16 (16 + Z.to_nat (payload h)) page in
  check (2 <=? len p) ! ErrPayloadShort;
  decode_records (Z.to_nat (get_le (take 2 p))) (drop 2 p).

End bencode.

(** The bound on the speculative allocation. *)
Definition capHint (n remaining : Z) : Z := if remaining <? n then remaining else n.

(** ** Interior pages *)
Record InteriorChild := mkChild { Separator : bytes; ChildIndex : Z }.

Definition encode_child (i : nat) (c : InteriorChild) : bytes :=
  let sep := if (i =? 0)%nat then [] else Separator c in
  put_uvarint (len sep) ++ sep ++ put_le 4 (ChildIndex c).

Definition EncodeInterior (knd lvl : Z) (children : list InteriorChild) (pageSize : Z)
    : result error bytes :=
  check ((knd =? PageKindInterior) || (knd =? PageKindRoot)) ! ErrKind;
  check (negb (len children =? 0)) ! ErrNoChildren;
  check (len children <=? 65535) ! ErrTooManyChildren;
  let p := put_le 2 (len children) ++ concat (imap encode_child children) in
  check (len p <=? 65535) ! ErrPayloadUint16;
  check (PageHeaderSize + len p <=? pageSize) ! ErrPageOverflow;
  Ok (make_page (mkHeader knd (u8 lvl) (len p)) p pageSize).

Fixpoint decode_children (n : nat) (p : bytes) : result error (list InteriorChild) :=
  match n with
  | O => Ok []
  | S n =>
      let '(sl, adv) := uvarint p in
      check (0 <? adv) ! ErrVarint;
      let p := drop (Z.to_nat adv) p in
      check ((sl <=? len p) && (4 <=? u64 (len p - sl))) ! ErrShortChild;
      let sep := take (Z.to_nat sl) p in
      let p := drop (Z.to_nat sl) p in
      out ← decode_children n (drop 4 p);
      Ok (mkChild sep (get_le (take 4 p)) :: out)
  end.

Definition DecodeInterior (page : bytes) : result error (list InteriorChild) :=
  h ← decodeHeader page;
  check ((kind h =? PageKindInterior) || (kind h =? PageKindRoot)) ! ErrKind;
  check (PageHeaderSize + payload h <=? len page) ! ErrPayloadExceedsPage;
  let p := slice 16 (16 + Z.to_nat (payload h)) page in
  check (2 <=? len p) ! ErrPayloadShort;
  decode_children (Z.to_nat (get_le (take 2 p))) (drop 2 p).

(** ** Keys *)
Definition RecordKey (r : Record) : bytes := Kw r ++ [x00] ++ sl (Ih r).
Definition compareRecords (a b : Record) : comparison :=
  bytes_compare (RecordKey a) (RecordKey b).

(** ** The trailer *)
Record Trailer := mkTrailer {
  Version : Z;
  PubKey : array 32;
  Seq : Z;
  CreatedTs : Z;
  RootPieceIndex : Z;
  NumPages : Z;
  NumRecords : Z;
  MinPoWBits : Z;
  Fingerprint : array 32;
  PublisherSig : array 64
}.

Definition encodeTrailerFields (t : Trailer) : bytes :=
  [z2b (Version t)] ++ sl (PubKey t) ++ put_le 8 (Seq t) ++ put_le 8 (CreatedTs t) ++
  put_le 4 (RootPieceIndex t) ++ put_le 4 (NumPages t) ++ put_le 8 (NumRecords t) ++
  [z2b (MinPoWBits t)] ++ sl (Fingerprint t).

Definition TrailerSigMessage (t : Trailer) : bytes := encodeTrailerFields t.

Section signing.
Context `{Ed25519}.

Definition SignTrailer (t : Trailer) (priv : bytes) : Trailer :=
  mkTrailer (Version t) (PubKey t) (Seq t) (CreatedTs t) (RootPieceIndex t) (NumPages t)
    (NumRecords t) (MinPoWBits t) (Fingerprint t) (ed25519_sign priv (TrailerSigMessage t)).

Definition VerifyTrailerSig (t : Trailer) : result error unit :=
  check (ed25519_verify (PubKey t) (TrailerSigMessage t) (PublisherSig t)) ! ErrTrailerSig;
  Ok ().
End signing.

Definition EncodeTrailer (t : Trailer) (pageSize : Z) : result error bytes :=
  check (PageHeaderSize + TrailerPayloadSize <=? pageSize) ! ErrPageTooSmall;
  check (Version t =? TrailerVersion) ! ErrTrailerVersion;
  Ok (make_page (mkHeader PageKindTrailer 0 TrailerPayloadSize)
        (encodeTrailerFields t ++ sl (PublisherSig t)) pageSize).

Definition DecodeTrailer (page : bytes) : result error Trailer :=
  h ← decodeHeader page;
  check (kind h =? PageKindTrailer) ! ErrKind;
  check (payload h =? TrailerPayloadSize) ! ErrTrailerLength;
  check (PageHeaderSize + TrailerPayloadSize <=? len page) ! ErrPayloadExceedsPage;
  let p := slice 16 178 page in
  check (b2z (at_ p 0) =? TrailerVersion) ! ErrTrailerVersion;
  Ok (mkTrailer (b2z (at_ p 0)) (copy_arr 32 (slice 1 33 p)) (get_le (slice 33 41 p))
        (get_le (slice 41 49 p)) (get_le (slice 49 53 p)) (get_le (slice 53 57 p))
        (get_le (slice 57 65 p)) (b2z (at_ p 65)) (copy_arr 32 (slice 66 98 p))
        (copy_arr 64 (slice 98 162 p))).

(** ** The fingerprint of a record stream *)
Definition fingerprintSorted `{Bencode recordWire} (sorted : list Record)
    : result error (array 32) :=
  encs ← map_result EncodeRecord sorted; Ok (sha256 (concat encs)).

(** ** Reading back a page *)

Lemma length_encodeHeader h : length (encodeHeader h) = 16%nat.
Proof.
  unfold encodeHeader. rewrite !length_app, length_put_le, length_replicate. done.
Qed.

Lemma len_make_page h p ps : PageHeaderSize + len p ≤ ps → len (make_page h p ps) = ps.
Proof.
  unfold make_page, PageHeaderSize, len. intros Hp.
  rewrite !length_app, length_replicate, length_encodeHeader. lia.
Qed.

Definition header_ok (h : pageHeader) : Prop :=
  0 ≤ kind h < 256 ∧ 0 ≤ level h < 256 ∧ is_u16 (payload h).

Lemma decodeHeader_app h rest : header_ok h → decodeHeader (encodeHeader h ++ rest) = Ok h.
Proof.
  intros (Hk & Hl & Hp). unfold decodeHeader, PageHeaderSize.
  rewrite len_app. unfold len at 1. rewrite length_encodeHeader.
  pose proof (len_nonneg rest). destruct (Z.leb_spec 16 (Z.of_nat 16 + len rest)); [|lia].
  assert (Hs : slice 10 12 (encodeHeader h ++ rest) = put_le 2 (payload h)).
  { done. }
  rewrite Hs, get_put_le_small by (unfold is_u16 in Hp; simpl; lia).
  rewrite bool_decide_eq_true_2 by done.
  change (at_ (encodeHeader h ++ rest) 6) with (z2b 1).
  change (at_ (encodeHeader h ++ rest) 7) with (z2b (kind h)).
  change (at_ (encodeHeader h ++ rest) 8) with (z2b (level h)).
  rewrite !b2z_z2b_small by lia. by destruct h.
Qed.

Lemma make_page_app h p ps :
  make_page h p ps = encodeHeader h ++ p ++ replicate (Z.to_nat ps - (16 + length p)) x00.
Proof.
  unfold make_page. rewrite <-app_assoc, length_app, length_encodeHeader. done.
Qed.

Lemma decodeHeader_make_page h p ps :
  header_ok h → decodeHeader (make_page h p ps) = Ok h.
Proof. intros. rewrite make_page_app. by apply decodeHeader_app. Qed.

Lemma slice_make_page h p ps n :
  n = len p → slice 16 (16 + Z.to_nat n) (make_page h p ps) = p.
Proof.
  intros ->. unfold slice. rewrite make_page_app.
  rewrite drop_app_exact by (by rewrite length_encodeHeader).
  apply take_app_exact. unfold len. lia.
Qed.

(** ** Records *)

Lemma EncodeRecord_inv `{Bencode recordWire} r b :
  EncodeRecord r = Ok b →
  1 ≤ len (Kw r) ≤ MaxKeywordBytes ∧ marshal (to_wire r) = Some b ∧ len b ≤ MaxRecordBytes.
Proof.
  unfold EncodeRecord. intros E. ok_inv. b2p. pose proof (len_nonneg (Kw r)).
  repeat split; try lia; done.
Qed.

Section codec.
Context {B : Bencode recordWire} {BL : BencodeLaws recordWire}.

Lemma DecodeRecord_EncodeRecord r b :
  wf r → EncodeRecord r = Ok b → DecodeRecord b = Ok r.
Proof.
  intros [Ht Hp] E. apply EncodeRecord_inv in E as (Hk & Hm & Hlen).
  unfold DecodeRecord.
  rewrite (unmarshal_marshal (to_wire r) b); [| by split | done |].
  - cbn [wPk wIH wSig wKw wPow wT to_wire]. rewrite !len_sl. simpl.
    destruct (Z.leb_spec (len (Kw r)) MaxKeywordBytes); [|lia].
    rewrite !copy_arr_sl. by destruct r.
  - case_match; [lia |]. b2p. pose proof (len_nonneg b). unfold default_MaxStrLen. lia.
Qed.

Lemma framed_app enc k : framed enc ++ k = put_uvarint (len enc) ++ enc ++ k.
Proof. unfold framed. by rewrite <-app_assoc. Qed.

Lemma decode_records_framed rs encs rest :
  Forall wf rs → map_result EncodeRecord rs = Ok encs →
  decode_records (length rs) (concat (framed <$> encs) ++ rest) = Ok rs.
Proof.
  intros Hwf. revert encs. induction Hwf as [|r rs Hr Hrs IH]; intros encs Henc; [done |].
  simpl in Henc. ok_inv. simpl length. cbn [fmap list_fmap concat decode_records].
  rename a into enc, a0 into encs. pose proof (EncodeRecord_inv _ _ E) as (_ & _ & Hlen).
  pose proof (len_nonneg enc) as H0. unfold MaxRecordBytes in Hlen.
  rewrite <-app_assoc, framed_app, uvarint_put by (unfold is_u64; lia).
  pose proof (len_put_uvarint (len enc)). destruct (Z.ltb_spec 0 (len (put_uvarint (len enc)))); [|lia].
  rewrite drop_app_exact by (unfold len; lia).
  rewrite len_app. pose proof (len_nonneg (concat (framed <$> encs) ++ rest)).
  destruct (Z.leb_spec (len enc) (len enc + len (concat (framed <$> encs) ++ rest))); [|lia].
  rewrite take_app_exact, drop_app_exact by (unfold len; lia).
  rewrite (DecodeRecord_EncodeRecord r enc) by done. rewrite bind_ok.
  rewrite (IH encs) by done. done.
Qed.
End codec.

Lemma len_pos {A} (l : list A) : l ≠ [] → 1 ≤ len l.
Proof. destruct l; [done |]. intros _. rewrite len_cons. pose proof (len_nonneg l). lia. Qed.

(** The outcomes of [EncodeLeaf], on records that encode. *)
Lemma EncodeLeaf_inv `{Bencode recordWire} lvl rs ps page :
  EncodeLeaf lvl rs ps = Ok page →
  ∃ encs, map_result EncodeRecord rs = Ok encs ∧ rs ≠ [] ∧ len rs ≤ 65535 ∧
    let p := put_le 2 (len rs) ++ concat (framed <$> encs) in
    len p ≤ 65535 ∧ PageHeaderSize + len p ≤ ps ∧
    page = make_page (mkHeader PageKindLeaf (u8 lvl) (len p)) p ps.
Proof.
  unfold EncodeLeaf. intros E. ok_inv. b2p. exists a. split; [done |].
  split; [by intros -> |]. split; [done |]. cbv zeta. repeat split; done.
Qed.

Lemma EncodeLeaf_decode {B : Bencode recordWire} {BL : BencodeLaws recordWire} lvl rs ps page
    (Hwf : Forall wf rs) (Henc : EncodeLeaf lvl rs ps = Ok page) :
  len page = ps ∧ DecodeLeaf page = Ok rs ∧ kind <$> decodeHeader page = Ok PageKindLeaf.
Proof.
  apply EncodeLeaf_inv in Henc as (encs & Hencs & Hne & Hn & Hlen & Hps & ->).
  set (p := put_le 2 (len rs) ++ concat (framed <$> encs)) in *.
  assert (Hok : header_ok (mkHeader PageKindLeaf (u8 lvl) (len p))).
  { split; [done |]. split; [by apply Z.mod_pos_bound |]. simpl. unfold is_u16.
    pose proof (len_nonneg p). lia. }
  split; [by apply len_make_page |]. rewrite decodeHeader_make_page by done.
  split; [|done]. unfold DecodeLeaf. rewrite decodeHeader_make_page by done. rewrite bind_ok.
  cbn [kind payload]. rewrite Z.eqb_refl, len_make_page by done.
  destruct (Z.leb_spec (PageHeaderSize + len p) ps); [|lia].
  rewrite slice_make_page by done.
  assert (Hp2 : 2 ≤ len p) by (unfold p; rewrite len_app, len_put_le;
    pose proof (len_nonneg (concat (framed <$> encs))); lia).
  destruct (Z.leb_spec 2 (len p)); [|lia].
  unfold p. rewrite take_app_exact, drop_app_exact by (by rewrite length_put_le).
  rewrite get_put_le_small by (pose proof (len_nonneg rs); simpl; lia).
  rewrite <-(app_nil_r (concat _)). unfold len. rewrite Nat2Z.id.
  by apply decode_records_framed.
Qed.

(** ** Interior pages *)

(** What reading back gives: the first separator is forced empty. *)
Definition first_unbounded (cs : list InteriorChild) : list InteriorChild :=
  match cs with [] => [] | c :: cs => mkChild [] (ChildIndex c) :: cs end.

Definition enc_child (c : InteriorChild) : bytes :=
  put_uvarint (len (Separator c)) ++ Separator c ++ put_le 4 (ChildIndex c).

Lemma concat_encode_child cs :
  concat (imap encode_child cs) = concat (enc_child <$> first_unbounded cs).
Proof.
  destruct cs as [|c cs]; [done |]. cbn [imap first_unbounded fmap list_fmap concat]. f_equal.
  f_equal. unfold compose. rewrite <-(imap_const enc_child). by apply imap_ext.
Qed.

Lemma enc_child_app c k :
  enc_child c ++ k = put_uvarint (len (Separator c)) ++ Separator c ++ put_le 4 (ChildIndex c) ++ k.
Proof. unfold enc_child. by rewrite <-!app_assoc. Qed.

Lemma decode_children_enc cs rest :
  Forall (λ c, is_u32 (ChildIndex c)) cs →
  len (concat (enc_child <$> cs) ++ rest) < 2 ^ 64 →
  decode_children (length cs) (concat (enc_child <$> cs) ++ rest) = Ok cs.
Proof.
  intros Hok. induction Hok as [|c cs Hc Hcs IH]; intros Hlen; [done |].
  cbn [fmap list_fmap concat length decode_children] in *.
  rewrite <-app_assoc in *. set (tl := concat (enc_child <$> cs) ++ rest) in *.
  rewrite enc_child_app in *. rewrite !len_app, len_put_le in Hlen.
  pose proof (len_nonneg (Separator c)). pose proof (len_put_uvarint (len (Separator c))).
  pose proof (len_nonneg tl).
  rewrite uvarint_put by (unfold is_u64; lia).
  destruct (Z.ltb_spec 0 (len (put_uvarint (len (Separator c))))); [|lia].
  rewrite drop_app_exact by (unfold len; lia). rewrite !len_app, len_put_le.
  rewrite u64_small by (unfold is_u64; lia).
  destruct (Z.leb_spec (len (Separator c)) (len (Separator c) + (Z.of_nat 4 + len tl))); [|lia].
  destruct (Z.leb_spec 4 (len (Separator c) + (Z.of_nat 4 + len tl) - len (Separator c))); [|lia].
  cbn [andb]. rewrite take_app_exact, drop_app_exact by (unfold len; lia).
  rewrite take_app_exact, drop_app_exact by (by rewrite length_put_le).
  rewrite get_put_le_small by exact Hc. rewrite IH by lia. rewrite bind_ok. by destruct c.
Qed.

Lemma EncodeInterior_inv knd lvl cs ps page :
  EncodeInterior knd lvl cs ps = Ok page →
  (knd = PageKindInterior ∨ knd = PageKindRoot) ∧ cs ≠ [] ∧ len cs ≤ 65535 ∧
    let p := put_le 2 (len cs) ++ concat (enc_child <$> first_unbounded cs) in
    len p ≤ 65535 ∧ PageHeaderSize + len p ≤ ps ∧
    page = make_page (mkHeader knd (u8 lvl) (len p)) p ps.
Proof.
  unfold EncodeInterior. rewrite concat_encode_child. intros E. ok_inv. b2p.
  split; [apply orb_true_iff in C; rewrite !Z.eqb_eq in C; exact C |].
  split; [by intros -> |]. split; [done |]. cbv zeta. repeat split; done.
Qed.

Lemma EncodeInterior_decode knd lvl cs ps page
    (Hidx : Forall (λ c, is_u32 (ChildIndex c)) cs)
    (Henc : EncodeInterior knd lvl cs ps = Ok page) :
  len page = ps ∧ DecodeInterior page = Ok (first_unbounded cs) ∧
  kind <$> decodeHeader page = Ok knd.
Proof.
  apply EncodeInterior_inv in Henc as (Hk & Hne & Hn & Hlen & Hps & ->).
  set (p := put_le 2 (len cs) ++ concat (enc_child <$> first_unbounded cs)) in *.
  assert (Hok : header_ok (mkHeader knd (u8 lvl) (len p))).
  { split; [by destruct Hk as [-> | ->] |]. split; [by apply Z.mod_pos_bound |].
    simpl. unfold is_u16. pose proof (len_nonneg p). lia. }
  split; [by apply len_make_page |]. rewrite decodeHeader_make_page by done.
  split; [|done]. unfold DecodeInterior. rewrite decodeHeader_make_page by done. rewrite bind_ok.
  cbn [kind payload].
  assert ((knd =? PageKindInterior) || (knd =? PageKindRoot) = true) as ->
    by (by destruct Hk as [-> | ->]).
  rewrite len_make_page by done.
  destruct (Z.leb_spec (PageHeaderSize + len p) ps); [|lia].
  rewrite slice_make_page by done.
  assert (Hp2 : 2 ≤ len p) by (unfold p; rewrite len_app, len_put_le;
    pose proof (len_nonneg (concat (enc_child <$> first_unbounded cs))); lia).
  destruct (Z.leb_spec 2 (len p)); [|lia].
  unfold p. rewrite take_app_exact, drop_app_exact by (by rewrite length_put_le).
  rewrite get_put_le_small by (pose proof (len_nonneg cs); simpl; lia).
  assert (Hl : Z.to_nat (len cs) = length (first_unbounded cs)).
  { unfold len. rewrite Nat2Z.id. by destruct cs. }
  rewrite Hl, <-(app_nil_r (concat _)). apply decode_children_enc.
  - destruct cs as [|c cs]; [done |]. apply Forall_cons in Hidx as [? ?]. by constructor.
  - rewrite app_nil_r. unfold p in Hlen. rewrite len_app in Hlen.
    pose proof (len_nonneg (put_le 2 (len cs))). lia.
Qed.

Lemma EncodeInterior_kind knd lvl cs ps page :
  EncodeInterior knd lvl cs ps = Ok page → kind <$> decodeHeader page = Ok knd.
Proof.
  intros He. apply EncodeInterior_inv in He as (Hk & _ & _ & Hlen & _ & ->).
  rewrite decodeHeader_make_page; [done |]. split; [by destruct Hk as [-> | ->] |].
  split; [by apply Z.mod_pos_bound |]. cbn [payload]. unfold is_u16. cbv zeta in Hlen.
  pose proof (len_nonneg (put_le 2 (len cs) ++ concat (enc_child <$> first_unbounded cs))). lia.
Qed.

(** ** Trailers *)

Definition trailer_ok (t : Trailer) : Prop :=
  Version t = TrailerVersion ∧ is_u64 (Seq t) ∧ is_u64 (CreatedTs t) ∧
  is_u32 (RootPieceIndex t) ∧ is_u32 (NumPages t) ∧ is_u64 (NumRecords t) ∧
  0 ≤ MinPoWBits t < 256.

Lemma length_encodeTrailerFields t : length (encodeTrailerFields t) = 98%nat.
Proof.
  unfold encodeTrailerFields. by rewrite !length_app, !length_put_le, !length_sl.
Qed.

(** Cutting a field out of a concatenation. *)
Lemma slice_app_r i j (a b : bytes) :
  (length a ≤ i)%nat → slice i j (a ++ b) = slice (i - length a) (j - length a) b.
Proof.
  intros Hi. unfold slice. rewrite drop_app_ge by done. f_equal. lia.
Qed.

Lemma slice_app_l i j (a b : bytes) : i = 0%nat → j = length a → slice i j (a ++ b) = a.
Proof. intros -> ->. unfold slice. rewrite Nat.sub_0_r. by apply take_app_exact. Qed.

Lemma at_app_r i (a b : bytes) : (length a ≤ i)%nat → at_ (a ++ b) i = at_ b (i - length a).
Proof. intros Hi. unfold at_. by rewrite lookup_app_r. Qed.

(** Skip the fields in front of the one that is read, then read it. *)
Ltac field :=
  repeat first
    [ rewrite slice_app_r by (rewrite ?length_sl, ?length_put_le; simpl; lia)
    | rewrite at_app_r by (rewrite ?length_sl, ?length_put_le; simpl; lia) ];
  rewrite ?slice_app_l by (rewrite ?length_sl, ?length_put_le; simpl; lia).

Section trailer_fields.
Variable t : Trailer.
Let p := encodeTrailerFields t ++ sl (PublisherSig t).

Lemma trailer_fields :
  at_ p 0 = z2b (Version t) ∧ slice 1 33 p = sl (PubKey t) ∧
  slice 33 41 p = put_le 8 (Seq t) ∧ slice 41 49 p = put_le 8 (CreatedTs t) ∧
  slice 49 53 p = put_le 4 (RootPieceIndex t) ∧ slice 53 57 p = put_le 4 (NumPages t) ∧
  slice 57 65 p = put_le 8 (NumRecords t) ∧ at_ p 65 = z2b (MinPoWBits t) ∧
  slice 66 98 p = sl (Fingerprint t) ∧ slice 98 162 p = sl (PublisherSig t).
Proof.
  unfold p, encodeTrailerFields. rewrite <-!app_assoc. rewrite <-(app_nil_r (sl (PublisherSig t))).
  repeat split; field; rewrite ?app_nil_r, ?length_sl, ?length_put_le; done.
Qed.
End trailer_fields.

Lemma EncodeTrailer_decode t ps (Hok : trailer_ok t) :
  match EncodeTrailer t ps with
  | Ok page => 178 ≤ ps ∧ len page = ps ∧ DecodeTrailer page = Ok t
  | Err e => ps < 178 ∧ e = ErrPageTooSmall
  end.
Proof.
  destruct Hok as (Hv & Hseq & Hts & Hroot & Hnp & Hnr & Hpow).
  unfold EncodeTrailer, PageHeaderSize, TrailerPayloadSize.
  destruct (Z.leb_spec (16 + 162) ps) as [Hps|]; [|split; [lia | done]].
  rewrite Hv, Z.eqb_refl. set (p := encodeTrailerFields t ++ sl (PublisherSig t)).
  assert (Hlen : len p = 162).
  { unfold p, len. by rewrite length_app, length_encodeTrailerFields, length_sl. }
  assert (Hpage : len (make_page (mkHeader PageKindTrailer 0 162) p ps) = ps)
    by (apply len_make_page; unfold PageHeaderSize; lia).
  split; [lia |]. split; [done |]. unfold DecodeTrailer.
  rewrite decodeHeader_make_page by (split; [done | split; done]). rewrite bind_ok.
  cbn [kind payload]. rewrite Hpage, !Z.eqb_refl. unfold PageHeaderSize, TrailerPayloadSize.
  destruct (Z.leb_spec (16 + 162) ps); [|lia].
  change 178%nat with (16 + Z.to_nat 162)%nat. rewrite (slice_make_page _ p) by done.
  destruct (trailer_fields t) as (H1 & H2 & H3 & H4 & H5 & H6 & H7 & H8 & H9 & H10).
  unfold p. rewrite H1, H2, H3, H4, H5, H6, H7, H8, H9, H10.
  rewrite Hv, !b2z_z2b_small by (unfold TrailerVersion; lia).
  rewrite Z.eqb_refl, !copy_arr_sl, !get_put_le_small by (assumption || (simpl; lia)).
  rewrite <-Hv. by destruct t.
Qed.

(** Pages read back.  What [EncodeLeaf] writes is exactly one page wide,
    carries a leaf header, and decodes to the records it was given, in their
    order.  What [EncodeInterior] writes is one page wide, keeps its kind, and
    decodes to the children it was given, but for the first separator, which
    reads back empty (no lower bound).  Every trailer of the current version whose
    integers fit their fields encodes on a page of at least 178 bytes, and the
    page decodes to the same trailer; a smaller page is an error. *)
Lemma pages_roundtrip {B : Bencode recordWire} {BL : BencodeLaws recordWire} (ps : Z) :
  (∀ lvl rs page, Forall wf rs → EncodeLeaf lvl rs ps = Ok page →
     len page = ps ∧ DecodeLeaf page = Ok rs ∧ kind <$> decodeHeader page = Ok PageKindLeaf) ∧
  (∀ knd lvl cs page, Forall (λ c, is_u32 (ChildIndex c)) cs →
     EncodeInterior knd lvl cs ps = Ok page →
     len page = ps ∧ DecodeInterior page = Ok (first_unbounded cs) ∧
     kind <$> decodeHeader page = Ok knd) ∧
  (∀ t, trailer_ok t →
     match EncodeTrailer t ps with
     | Ok page => 178 ≤ ps ∧ len page = ps ∧ DecodeTrailer page = Ok t
     | Err e => ps < 178 ∧ e = ErrPageTooSmall
     end).
Proof.
  split_and!.
  - intros. by eapply EncodeLeaf_decode.
  - intros. by eapply EncodeInterior_decode.
  - intros. by apply EncodeTrailer_decode.
Qed.

(** ** Concrete instances *)
Import ToyCodec.

Definition wire_fields (w : recordWire) : list bytes :=
  [wIH w; wKw w; wPk w; put_int (wPow w); wSig w; put_int (wT w)].
Definition wire_of_fields (fs : list bytes) : option recordWire :=
  match fs with
  | [a; b; c; d; e; f] => Some (mkWire a b c (get_u d) e (get_i f))
  | _ => None
  end.

#[export] Instance toy_bencode : Bencode recordWire := bencode wire_fields wire_of_fields.
#[export] Instance toy_bencode_laws : BencodeLaws recordWire.
Proof.
  apply laws; [by intros [] |]. intros [a b c d e f] [Hd Hf]. simpl in *.
  by rewrite get_put_u, get_put_i.
Qed.

Definition toy_leaf : bytes :=
  match EncodeLeaf 0 [toy_record 9; toy_record 200] 600 with Ok p => p | Err _ => [] end.

Lemma toy_records_wf : Forall wf [toy_record 9; toy_record 200].
Proof. repeat constructor; by vm_compute. Qed.

Definition toy_children : list InteriorChild :=
  [mkChild (str "ignored") 1; mkChild (str "ubuntu") 2].
Definition toy_interior : bytes :=
  match EncodeInterior PageKindRoot 1 toy_children 600 with Ok p => p | Err _ => [] end.

Definition toy_trailer : Trailer :=
  mkTrailer 1 (copy_arr 32 (str "publisher")) 7 1700000000 0 3 2 20 (zero_arr 32) (zero_arr 64).

Lemma toy_children_ok : Forall (λ c, is_u32 (ChildIndex c)) toy_children.
Proof. repeat constructor; by vm_compute. Qed.

Lemma pages_roundtrip_witness :
  DecodeLeaf toy_leaf = Ok [toy_record 9; toy_record 200] ∧
  DecodeInterior toy_interior = Ok [mkChild [] 1; mkChild (str "ubuntu") 2] ∧
  match EncodeTrailer toy_trailer 600 with
  | Ok page => DecodeTrailer page = Ok toy_trailer
  | Err _ => False
  end.
Proof.
  destruct (pages_roundtrip 600) as (Hl & Hi & Ht). split_and!.
  - apply (Hl 0 [toy_record 9; toy_record 200] toy_leaf toy_records_wf). vm_compute. reflexivity.
  - apply (Hi PageKindRoot 1 toy_children toy_interior toy_children_ok). vm_compute. reflexivity.
  - specialize (Ht toy_trailer ltac:(repeat split; by vm_compute)).
    destruct (EncodeTrailer toy_trailer 600) as [page|e]; [apply Ht |].
    destruct Ht as [Ht _]. discriminate Ht.
Defined.

End Snagg.
