(* ===== verification/SnaggTree.v ===== *)
(** * The SNAGG B-tree: builder and reader (contracts/snagg/build.go, read.go)

    [BuildBTree] packs records into pages bottom-up, assigns the pages to
    pieces top-down and signs a trailer; [OpenBTree], [Find] and
    [VerifyFingerprint] read a tree from any page source.  A build-time node is
    a pointer in the code, and its piece number is written after its parent
    was made: a node carries its identity [addr] (level, position), and the
    piece numbers are a store from identities. *)

From S2P Require Import Prelude GoInt Sha256 Externals Instances Record Snagg.
Open Scope Z_scope.

Module SnaggTree.
Import Record.Record.
Import Snagg.

(** ** Building *)

Record BuildInput := mkInput {
  inRecords : list Record;
  inPubKey : array 32;
  inPrivKey : option bytes;
  inSeq : Z;
  inCreatedTs : Z;
  inMinPoWBits : Z;
  inPieceSize : Z
}.

Record BuiltTree := mkBuilt {
  outBytes : bytes;
  outNumPages : Z;
  outNumRecords : Z;
  outPieceSize : Z;
  outFingerprint : array 32
}.

#[warnings="-register-all"]
Inductive node := Node (addr : nat * nat) (records : list Record) (children : list node)
                       (minKey : bytes).
Definition addr (n : node) : nat * nat := let '(Node a _ _ _) := n in a.
Definition records (n : node) : list Record := let '(Node _ r _ _) := n in r.
Definition children (n : node) : list node := let '(Node _ _ c _) := n in c.
Definition minKey (n : node) : bytes := let '(Node _ _ _ k) := n in k.

Definition isLeaf (n : node) : bool := match children n with [] => true | _ => false end.

(** [mkLeaf] and [mkInterior] index the first element; the callers pass
    non-empty slices. *)
Definition mkLeaf (i : nat) (rs : list Record) : node :=
  Node (O, i) rs [] (match rs with r :: _ => RecordKey r | [] => [] end).
Definition mkInterior (lvl i : nat) (cs : list node) : node :=
  Node (lvl, i) [] cs (match cs with c :: _ => minKey c | [] => [] end).

Definition interiorChildrenOfSlice (cs : list node) : list InteriorChild :=
  (λ c, mkChild (minKey c) 0) <$> cs.

(** The shape [packLeaves] and [packInteriorLevel] share: extend the current
    group while its page still encodes, close it on a page overflow. *)
Section pack.
Context {A : Type} (encode : list A → result error bytes) (close : nat → list A → node)
  (too_large : error).

Definition pack_step (st : list node * list A) (x : A) : result error (list node * list A) :=
  let '(out, cur) := st in
  let cand := cur ++ [x] in
  match encode cand with
  | Ok _ => Ok (out, cand)
  | Err e =>
      if negb (bool_decide (e = ErrPageOverflow)) then Err e
      else match cur with
           | [] => Err too_large
           | _ :: _ =>
               let out := out ++ [close (length out) cur] in
               match encode [x] with
               | Ok _ => Ok (out, [x])
               | Err _ => Err too_large
               end
           end
  end.

Definition pack (l : list A) : result error (list node) :=
  '(out, cur) ← fold_result pack_step ([], []) l;
  Ok (match cur with [] => out | _ => out ++ [close (length out) cur] end).
End pack.

(** The piece numbers, by node. *)
Abbreviation pieces := (gmap (nat * nat) Z).

Section build.
Context `{Bencode recordWire} `{Ed25519}.

Definition packLeaves (sorted : list Record) (pieceSize : Z) : result error (list node) :=
  pack (λ rs, EncodeLeaf 0 rs pieceSize) mkLeaf ErrRecordTooLargeForPage sorted.

Definition packInteriorLevel (lvl : nat) (cs : list node) (pieceSize : Z)
    : result error (list node) :=
  check (negb (len cs =? 0)) ! ErrNoChildren;
  pack (λ cs, EncodeInterior PageKindInterior 1 (interiorChildrenOfSlice cs) pieceSize)
    (mkInterior lvl) ErrSeparatorTooLarge cs.

(** The loop [for len(cur) > 1]; [levels] holds the levels so far, leaves
    first, and [cur] is its last one. *)
Fixpoint build_levels (fuel lvl : nat) (cur : list node) (levels : list (list node))
    (pieceSize : Z) : result error (list (list node)) :=
  if len cur <=? 1 then Ok levels
  else match fuel with
       | O => Err ErrFuel
       | S fuel =>
           parents ← packInteriorLevel lvl cur pieceSize;
           build_levels fuel (S lvl) parents (levels ++ [parents]) pieceSize
       end.

Definition all_levels (leaves : list node) (pieceSize : Z) : result error (list (list node)) :=
  levels ← build_levels (length leaves) 1 leaves [leaves] pieceSize;
  if len levels =? 1 then
    root ← packInteriorLevel 1 leaves pieceSize;
    Ok (levels ++ [root])
  else Ok levels.

(** Top-down piece numbers: the root gets 0, the leaves come last. *)
Definition assign_node (st : pieces * Z) (nd : node) : pieces * Z :=
  (<[addr nd := st.2]> st.1, u32 (st.2 + 1)).
Definition assign_pieces (levels : list (list node)) : pieces * Z :=
  foldl (foldl assign_node) (∅, 0) (reverse levels).

Definition piece (m : pieces) (nd : node) : Z := default 0 (m !! addr nd).

Definition interiorChildrenOf (m : pieces) (nd : node) : list InteriorChild :=
  (λ c, mkChild (minKey c) (piece m c)) <$> children nd.

Definition encode_node (m : pieces) (top : nat) (l : nat) (nd : node) (pieceSize : Z)
    : result error bytes :=
  if isLeaf nd then EncodeLeaf (Z.of_nat l) (records nd) pieceSize
  else EncodeInterior (if (l =? top)%nat then PageKindRoot else PageKindInterior)
         (Z.of_nat l) (interiorChildrenOf m nd) pieceSize.

Definition emit_node (m : pieces) (top l : nat) (pieceSize : Z) (pages : list bytes) (nd : node)
    : result error (list bytes) :=
  page ← encode_node m top l nd pieceSize;
  Ok (<[Z.to_nat (piece m nd) := page]> pages).

Definition emit_pages (m : pieces) (levels : list (list node)) (pieceSize : Z)
    (pages : list bytes) : result error (list bytes) :=
  fold_result
    (λ pages '(l, nodes),
       fold_result (emit_node m (length levels - 1) l pieceSize) pages nodes)
    pages (reverse (imap pair levels)).

Definition record_le (a b : Record) : Prop := bytes_le (RecordKey a) (RecordKey b).
#[export] Instance record_le_dec a b : Decision (record_le a b).
Proof. unfold record_le. apply _. Defined.

(** [sort.SliceStable] by [RecordKey]: merge sort is stable, and the stable
    sort is unique. *)
Definition sort_records (rs : list Record) : list Record := merge_sort record_le rs.

(** The keyword guard of the first loop. *)
Definition keyword_guard (r : Record) : result error unit :=
  check (negb (len (Kw r) =? 0)) ! ErrKwEmpty;
  check (len (Kw r) <=? MaxKeywordBytes) ! ErrKwTooLong;
  Ok ().

Definition make_trailer (inp : BuildInput) (now numDataPages nrecords : Z) (fp : array 32)
    : Trailer :=
  let tr := mkTrailer TrailerVersion (inPubKey inp) (inSeq inp)
    (u64 (if inCreatedTs inp =? 0 then now else inCreatedTs inp)) 0
    (u32 (numDataPages + 1)) nrecords (inMinPoWBits inp) fp (zero_arr 64) in
  match inPrivKey inp with Some priv => SignTrailer tr priv | None => tr end.

(** [now] is the clock reading the code takes when [CreatedTs] is zero. *)
Definition BuildBTree (now : Z) (inp : BuildInput) : result error BuiltTree :=
  let ps := inPieceSize inp in
  check (negb ((ps <? MinPieceSize) || (MaxPieceSize <? ps))) ! ErrPieceSize;
  check (negb (len (inRecords inp) =? 0)) ! ErrNoRecords;
  _ ← map_result keyword_guard (inRecords inp);
  let sorted := sort_records (inRecords inp) in
  leaves ← packLeaves sorted ps;
  levels ← all_levels leaves ps;
  let '(m, numDataPages) := assign_pieces levels in
  fp ← fingerprintSorted sorted;
  pages ← emit_pages m levels ps (replicate (Z.to_nat numDataPages) []);
  let tr := make_trailer inp now numDataPages (len sorted) fp in
  trailerPage ← EncodeTrailer tr ps;
  Ok (mkBuilt (concat pages ++ trailerPage) (numDataPages + 1) (len sorted) ps fp).

End build.

(** ** Reading *)

(** [PageSource]: a source answers the same page whenever it is asked. *)
Record PageSource := mkSource {
  Piece : Z → result error bytes;
  NumPieces : Z
}.

Definition BytesNumPieces (data : bytes) (pieceSize : Z) : Z :=
  if pieceSize <=? 0 then 0 else len data / pieceSize.

Definition BytesPiece (data : bytes) (pieceSize : Z) (index : Z) : result error bytes :=
  let n := BytesNumPieces data pieceSize in
  check (negb ((index <? 0) || (n <=? index))) ! ErrPieceRange;
  let off := index * pieceSize in
  Ok (slice (Z.to_nat off) (Z.to_nat (off + pieceSize)) data).

Definition BytesPageSource (data : bytes) (pieceSize : Z) : PageSource :=
  mkSource (BytesPiece data pieceSize) (BytesNumPieces data pieceSize).

Record Tree := mkTree { src : PageSource; trailer : Trailer }.

(** [nextPrefix]: increment the last byte that is not 0xFF and cut behind it;
    the empty slice stands for Go's nil. *)
Fixpoint nextPrefix_go (rev : bytes) : bytes :=
  match rev with
  | [] => []
  | b :: rev => if b2z b <? 255 then reverse (z2b (b2z b + 1) :: rev) else nextPrefix_go rev
  end.
Definition nextPrefix (p : bytes) : bytes := nextPrefix_go (reverse p).

Definition is_nil (b : bytes) : bool := match b with [] => true | _ => false end.

(** The bounds are nil exactly when they are empty: [append([]byte(nil), ...)]
    of an empty separator is nil. *)
Definition rangeOverlapsPrefix (lower upper pLo pHi : bytes) : bool :=
  if negb (is_nil upper) && bool_decide (bytes_le upper pLo) then false
  else if negb (is_nil pHi) && negb (is_nil lower) && bool_decide (bytes_le pHi lower) then false
  else true.

Section read.
Context `{Bencode recordWire} `{Ed25519}.

Definition OpenBTree (s : PageSource) : result error Tree :=
  let n := NumPieces s in
  check (3 <=? n) ! ErrTooFewPages;
  last ← Piece s (n - 1);
  tr ← DecodeTrailer last;
  _ ← VerifyTrailerSig tr;
  check (NumPages tr =? n) ! ErrNumPages;
  check (RootPieceIndex tr =? 0) ! ErrRootPiece;
  Ok (mkTree s tr).

(** The walk's shared state: the visited set and the leaves found. *)
Definition walk_state : Type := gset Z * list Z.

Section walk.
Context (s : PageSource) (pLo pHi : bytes).

Section children.
Variable walk : Z → walk_state → result error walk_state.

Fixpoint walk_children (prevIdx : Z) (cs : list InteriorChild) (st : walk_state)
    : result error walk_state :=
  match cs with
  | [] => Ok st
  | c :: cs =>
      let ci := ChildIndex c in
      check (negb ((ci <=? prevIdx) || (NumPieces s - 1 <=? ci))) ! ErrChildIndex;
      let upper := match cs with [] => [] | c' :: _ => Separator c' end in
      st ← (if rangeOverlapsPrefix (Separator c) upper pLo pHi then walk ci st else Ok st);
      walk_children ci cs st
  end.
End children.

Fixpoint walkToLeaves (fuel : nat) (pieceIdx : Z) (st : walk_state) : result error walk_state :=
  match fuel with
  | O => Err ErrFuel
  | S fuel =>
      let '(visited, out) := st in
      check (negb (bool_decide (pieceIdx ∈ visited))) ! ErrCycle;
      let visited := {[pieceIdx]} ∪ visited in
      page ← Piece s pieceIdx;
      h ← decodeHeader page;
      if kind h =? PageKindLeaf then Ok (visited, out ++ [pieceIdx])
      else if (kind h =? PageKindRoot) || (kind h =? PageKindInterior) then
        cs ← DecodeInterior page;
        walk_children (walkToLeaves fuel) pieceIdx cs (visited, out)
      else Err ErrKind
  end.
End walk.

(** The filter of the record loop of [Find]. *)
Definition accepts (minBits : Z) (prefix : bytes) (r : Record) : bool :=
  has_prefix (Kw r) prefix && is_ok (Verify r) &&
  negb ((0 <? minBits) && negb (is_ok (VerifyPoW r minBits))).

Definition find_leaf (t : Tree) (prefix : bytes) (out : list Record) (li : Z)
    : result error (list Record) :=
  page ← Piece (src t) li;
  recs ← DecodeLeaf page;
  Ok (out ++ List.filter (accepts (MinPoWBits (trailer t)) prefix) recs).

Definition check_seen (seen : gset Z) (li : Z) : result error (gset Z) :=
  check (negb (bool_decide (li ∈ seen))) ! ErrLeafTwice; Ok ({[li]} ∪ seen).

(** The walk descends by strictly increasing piece indices below [NumPieces],
    so [NumPieces + 1] rounds of fuel suffice, see [Find_terminates]. *)
Definition Find (t : Tree) (prefix : bytes) : result error (list Record) :=
  let pHi := nextPrefix prefix in
  root ← Piece (src t) 0;
  rh ← decodeHeader root;
  check (kind rh =? PageKindRoot) ! ErrKind;
  '(_, leaves) ← walkToLeaves (src t) prefix pHi (S (Z.to_nat (NumPieces (src t)))) 0 (∅, []);
  check (negb (NumPieces (src t) <=? len leaves)) ! ErrTooManyLeaves;
  _ ← fold_result check_seen ∅ leaves;
  fold_result (find_leaf t prefix) [] leaves.

(** The record loop of [VerifyFingerprint]: the bytes hashed and the count. *)
Definition fp_record (claimed : Z) (st : bytes * Z) (r : Record) : result error (bytes * Z) :=
  let '(h, count) := st in
  check (negb (claimed <=? count)) ! ErrRecordCount;
  enc ← EncodeRecord r;
  Ok (h ++ enc, u64 (count + 1)).

Definition fp_page (t : Tree) (st : bytes * Z) (i : Z) : result error (bytes * Z) :=
  page ← Piece (src t) i;
  hdr ← decodeHeader page;
  if negb (kind hdr =? PageKindLeaf) then Ok st
  else
    recs ← DecodeLeaf page;
    fold_result (fp_record (NumRecords (trailer t))) st recs.

Definition VerifyFingerprint (t : Tree) : result error unit :=
  '(h, count) ← fold_result (fp_page t) ([], 0) (seqZ 0 (NumPieces (src t) - 1));
  check (count =? NumRecords (trailer t)) ! ErrRecordCount;
  check (bool_decide (sha256 h = Fingerprint (trailer t))) ! ErrFingerprint;
  Ok ().

End read.

End SnaggTree.
