(* ===== verification/SnaggRead.v ===== *)
(** * Reading a SNAGG tree from any source (contracts/snagg/read.go)

    What [Find] and [VerifyFingerprint] promise about a source that may be
    hostile: the query ends, what it returns is authentic, and a tree whose
    fingerprint verifies has exactly the committed record stream. *)

From S2P Require Import Prelude GoInt Sha256 Externals Instances Record Snagg SnaggTree.
Open Scope Z_scope.

Module SnaggRead.
Import Record.Record Snagg SnaggTree.

Section walk.
Context (s : PageSource) (pLo pHi : bytes).
Local Abbreviation N := (NumPieces s).

(** A successful walk extends the state by pieces of [[lo, hi)], each leaf
    once and each leaf visited. *)
Record extends (lo hi : Z) (st st' : walk_state) : Prop := {
  ext_visited : st.1 ⊆ st'.1;
  ext_range : ∀ k, k ∈ st'.1 → k ∈ st.1 ∨ lo ≤ k < hi;
  ext_leaves : ∃ new, st'.2 = st.2 ++ new ∧ NoDup new ∧
    ∀ k, k ∈ new → k ∈ st'.1 ∧ k ∉ st.1
}.

Lemma extends_refl lo hi st : extends lo hi st st.
Proof.
  split; [done | by left |]. exists []. rewrite app_nil_r. split; [done |].
  split; [constructor |]. by intros k ?%elem_of_nil.
Qed.

Lemma extends_trans lo lo' lo'' hi a b c :
  lo'' ≤ lo → lo'' ≤ lo' → extends lo hi a b → extends lo' hi b c → extends lo'' hi a c.
Proof.
  intros H1 H2 [V1 R1 (n1 & L1 & D1 & E1)] [V2 R2 (n2 & L2 & D2 & E2)]. split.
  - by etrans.
  - intros k Hk. destruct (R2 k Hk) as [Hk'|?]; [|right; lia].
    destruct (R1 k Hk'); [by left | right; lia].
  - exists (n1 ++ n2). split; [by rewrite L2, L1, app_assoc |]. split.
    + apply NoDup_app. split; [done |]. split; [|done].
      intros k Hk1 Hk2. by apply (E2 k Hk2), E1.
    + intros k [Hk|Hk]%elem_of_app; [apply E1 in Hk as [? ?]; split; [by apply V2 | done] |].
      apply E2 in Hk as [? Hk]. split; [done |]. intros ?. by apply Hk, V1.
Qed.

Lemma walk_children_extends walk prev cs st st' :
  (∀ ci a b, prev < ci < N - 1 → walk ci a = Ok b → extends ci (N - 1) a b) →
  walk_children s pLo pHi walk prev cs st = Ok st' → extends (prev + 1) (N - 1) st st'.
Proof.
  revert prev st. induction cs as [|c cs IH]; intros prev st Hw H; cbn [walk_children] in H.
  { injection H as <-. apply extends_refl. }
  ok_inv. b2p.
  assert (Hc : extends (ChildIndex c) (N - 1) st a).
  { case_match; [apply Hw; [lia | done] |]. injection E as <-. apply extends_refl. }
  eapply extends_trans; [| | exact Hc |].
  - lia.
  - instantiate (1 := ChildIndex c + 1). lia.
  - apply IH; [|done]. intros ci x y Hci. apply Hw. lia.
Qed.

Lemma walk_extends fuel idx st st' :
  walkToLeaves s pLo pHi fuel idx st = Ok st' →
  extends idx (Z.max (idx + 1) (N - 1)) st st' ∧ (idx ∉ st.1) ∧ (idx ∈ st'.1).
Proof.
  revert idx st st'. induction fuel as [|fuel IH]; intros idx [v o] st' H; [done |].
  cbn [walkToLeaves] in H. ok_inv. b2p. simpl.
  assert (Hv : ∀ k, k ∈ {[idx]} ∪ v ↔ k = idx ∨ k ∈ v)
    by (intros k; by rewrite elem_of_union, elem_of_singleton).
  destruct (kind a0 =? PageKindLeaf).
  - injection H as <-. split; [|split; [done | apply Hv; by left]]. split; simpl.
    + apply union_subseteq_r.
    + intros k [->|?]%Hv; [right; lia | by left].
    + exists [idx]. split; [done |]. split; [apply NoDup_singleton |].
      intros k ->%list_elem_of_singleton. split; [apply Hv; by left | done].
  - destruct ((kind a0 =? PageKindRoot) || (kind a0 =? PageKindInterior)); [|done].
    ok_inv. apply walk_children_extends in H.
    2: { intros ci x y Hci Hx. apply IH in Hx as [Hx _].
         by rewrite Z.max_r in Hx by lia. }
    destruct H as [V R (new & L & D & E2)]. simpl in *.
    split; [|split; [done | apply V, Hv; by left]]. split; simpl.
    + etrans; [apply union_subseteq_r | exact V].
    + intros k Hk. destruct (R k Hk) as [[->|?]%Hv|?]; [right; lia | by left | right; lia].
    + exists new. split; [done |]. split; [done |]. intros k Hk. apply E2 in Hk as [? Hk].
      split; [done |]. intros ?. apply Hk, Hv. by right.
Qed.

(** The walk never runs out of fuel. *)
Lemma walk_children_fuel walk prev cs st :
  (∀ ci a, prev < ci < N - 1 → walk ci a ≠ Err ErrFuel) →
  walk_children s pLo pHi walk prev cs st ≠ Err ErrFuel.
Proof.
  revert prev st. induction cs as [|c cs IH]; intros prev st Hw; [done |].
  cbn [walk_children].
  destruct (negb ((ChildIndex c <=? prev) || (N - 1 <=? ChildIndex c))) eqn:E; [|done].
  b2p. case_match.
  - pose proof (Hw (ChildIndex c) st ltac:(lia)).
    destruct (walk (ChildIndex c) st) as [st1|e]; [|by simpl; congruence].
    rewrite bind_ok. apply IH. intros; apply Hw; lia.
  - rewrite bind_ok. apply IH. intros; apply Hw; lia.
Qed.

Lemma decodeHeader_fuel page : decodeHeader page ≠ Err ErrFuel.
Proof. unfold decodeHeader. repeat case_match; done. Qed.

Lemma decode_children_fuel n p : decode_children n p ≠ Err ErrFuel.
Proof.
  revert p. induction n as [|n IH]; intros p; [done |]. cbn [decode_children].
  destruct (uvarint p) as [x adv]. repeat case_match; try done.
  match goal with |- context [decode_children n ?q] => specialize (IH q);
    destruct (decode_children n q) end; [done | simpl; congruence].
Qed.

Lemma DecodeInterior_fuel page : DecodeInterior page ≠ Err ErrFuel.
Proof.
  unfold DecodeInterior. pose proof (decodeHeader_fuel page).
  destruct (decodeHeader page) as [h|]; [|simpl; congruence]. rewrite bind_ok.
  repeat case_match; try done. apply decode_children_fuel.
Qed.

Lemma walk_fuel fuel idx st :
  (∀ k, Piece s k ≠ Err ErrFuel) → 0 ≤ idx → N - idx < Z.of_nat fuel → 0 < Z.of_nat fuel →
  walkToLeaves s pLo pHi fuel idx st ≠ Err ErrFuel.
Proof.
  intros Hp. revert idx st. induction fuel as [|fuel IH]; intros idx [v o] H0 Hf Hpos; [lia |].
  cbn [walkToLeaves]. case_match; [|done].
  pose proof (Hp idx). destruct (Piece s idx) as [page|]; [|simpl; congruence].
  rewrite bind_ok. pose proof (decodeHeader_fuel page).
  destruct (decodeHeader page) as [h|]; [|simpl; congruence]. rewrite bind_ok.
  case_match; [done |]. case_match; [|done].
  pose proof (DecodeInterior_fuel page).
  destruct (DecodeInterior page) as [cs|]; [|simpl; congruence]. rewrite bind_ok.
  apply walk_children_fuel. intros ci a Hci. apply IH; lia.
Qed.
End walk.

(** From the root: the root itself is not a leaf. *)
Lemma walk_root s pLo pHi fuel v leaves page h :
  Piece s 0 = Ok page → decodeHeader page = Ok h → kind h = PageKindRoot →
  walkToLeaves s pLo pHi fuel 0 (∅, []) = Ok (v, leaves) →
  NoDup leaves ∧ ∀ k, k ∈ leaves → 0 < k < NumPieces s - 1.
Proof.
  intros Hp Hh Hk. destruct fuel as [|fuel]; [done |].
  cbn [walkToLeaves]. rewrite bool_decide_eq_false_2 by set_solver. simpl negb.
  rewrite Hp, bind_ok, Hh, bind_ok, Hk. simpl. intros H. ok_inv.
  apply walk_children_extends in H.
  2: { intros ci x y Hci Hx. apply walk_extends in Hx as [Hx _].
       by rewrite Z.max_r in Hx by lia. }
  destruct H as [V R (new & L & D & E2)]. simpl in *. subst new. split; [done |].
  intros k Hk'. apply E2 in Hk' as [Hin Hnot]. destruct (R k Hin); [done | lia].
Qed.

Section reader.
Context {B : Bencode recordWire} {Ed : Ed25519}.

(** The records of the leaf page at piece [k], none when it is not one. *)
Definition leaf_at (t : Tree) (k : Z) : list Record :=
  match page ← Piece (src t) k; DecodeLeaf page with Ok rs => rs | Err _ => [] end.

Lemma find_leaf_ok t prefix out li out' :
  find_leaf t prefix out li = Ok out' →
  out' = out ++ List.filter (accepts (MinPoWBits (trailer t)) prefix) (leaf_at t li).
Proof.
  unfold find_leaf, leaf_at. intros E. destruct (Piece (src t) li) as [page|]; [|done].
  rewrite bind_ok in *. destruct (DecodeLeaf page) as [recs|]; [|done].
  rewrite bind_ok in E. by injection E as <-.
Qed.

Lemma find_leaves_ok t prefix leaves out out' :
  fold_result (find_leaf t prefix) out leaves = Ok out' →
  out' = out ++ List.filter (accepts (MinPoWBits (trailer t)) prefix)
                  (concat (leaf_at t <$> leaves)).
Proof.
  revert out. induction leaves as [|li leaves IH]; intros out E; cbn [fold_result] in E.
  - injection E as <-. simpl. by rewrite app_nil_r.
  - apply bind_ok_inv in E as (a & Ea & E). apply find_leaf_ok in Ea as ->.
    apply IH in E as ->. cbn [fmap list_fmap concat].
    by rewrite <-app_assoc, List.filter_app.
Qed.

Lemma accepts_spec minBits prefix r :
  accepts minBits prefix r = true ↔
    (prefix `prefix_of` Kw r) ∧ Verify r = Ok () ∧
    (0 < minBits → VerifyPoW r minBits = Ok ()).
Proof.
  unfold accepts, has_prefix.
  rewrite !andb_true_iff, bool_decide_eq_true, negb_true_iff, andb_false_iff.
  assert (∀ x : result Record.error unit, is_ok x = true ↔ x = Ok ()) as Hok.
  { intros [[]|e]; simpl; split; done. }
  rewrite Hok, negb_false_iff, Hok, Z.ltb_ge. split.
  - intros ((? & ?) & [?|?]); split_and?; auto. lia.
  - intros (? & ? & Hpow). split_and?; auto.
    destruct (decide (0 < minBits)); [right; auto | left; lia].
Qed.

(** What [Find] returns is authentic, whatever the source: the result is
    the concatenation, over some leaf pieces strictly between the root and the
    trailer and each read once, of the page's records that have the queried
    prefix, verify, and meet the trailer's proof of work when it asks for one. *)
Lemma Find_sound t prefix out (Hfind : Find t prefix = Ok out) :
  (∃ leaves, NoDup leaves ∧ Forall (λ k, 0 < k < NumPieces (src t) - 1) leaves ∧
     out = List.filter (accepts (MinPoWBits (trailer t)) prefix) (concat (leaf_at t <$> leaves))) ∧
  ∀ r, r ∈ out →
    (prefix `prefix_of` Kw r) ∧ Verify r = Ok () ∧
    (0 < MinPoWBits (trailer t) → VerifyPoW r (MinPoWBits (trailer t)) = Ok ()).
Proof.
  unfold Find in Hfind. ok_inv. rename a into root, a0 into h.
  destruct a1 as [v leaves]. ok_inv. b2p.
  apply find_leaves_ok in Hfind as ->. rewrite app_nil_l. split.
  - exists leaves. apply (walk_root (src t) _ _ _ _ _ root h) in E1 as [HD HR]; [|done..].
    split; [exact HD |]. split; [by rewrite Forall_forall | done].
  - intros r Hr. apply list_elem_of_In in Hr. apply filter_In in Hr as [_ Hr]. by apply accepts_spec.
Qed.

Lemma check_seen_fuel seen leaves : fold_result check_seen seen leaves ≠ Err ErrFuel.
Proof.
  revert seen. induction leaves as [|li leaves IH]; intros seen; [done |].
  cbn [fold_result]. assert (Hc : check_seen seen li ≠ Err ErrFuel)
    by (unfold check_seen; by case_match).
  destruct (check_seen seen li); [rewrite bind_ok; apply IH | simpl; congruence].
Qed.

Lemma DecodeRecord_fuel b : DecodeRecord b ≠ Err ErrFuel.
Proof. unfold DecodeRecord. repeat case_match; done. Qed.

Lemma decode_records_fuel n p : decode_records n p ≠ Err ErrFuel.
Proof.
  revert p. induction n as [|n IH]; intros p; [done |]. cbn [decode_records].
  destruct (uvarint p) as [x adv]. case_match; [|done]. case_match; [|done].
  match goal with |- context [DecodeRecord ?q] => pose proof (DecodeRecord_fuel q);
    destruct (DecodeRecord q) end; [rewrite bind_ok | simpl; congruence].
  match goal with |- context [decode_records n ?q] => specialize (IH q);
    destruct (decode_records n q) end; [done | simpl; congruence].
Qed.

Lemma DecodeLeaf_fuel page : DecodeLeaf page ≠ Err ErrFuel.
Proof.
  unfold DecodeLeaf. pose proof (decodeHeader_fuel page).
  destruct (decodeHeader page) as [h|]; [|simpl; congruence]. rewrite bind_ok.
  repeat case_match; try done. apply decode_records_fuel.
Qed.

Lemma find_leaves_fuel t prefix out leaves :
  (∀ k, Piece (src t) k ≠ Err ErrFuel) →
  fold_result (find_leaf t prefix) out leaves ≠ Err ErrFuel.
Proof.
  intros Hp. revert out. induction leaves as [|li leaves IH]; intros out; [done |].
  cbn [fold_result]. assert (Hl : find_leaf t prefix out li ≠ Err ErrFuel).
  { unfold find_leaf. pose proof (Hp li).
    destruct (Piece (src t) li) as [page|]; [rewrite bind_ok | simpl; congruence].
    pose proof (DecodeLeaf_fuel page).
    destruct (DecodeLeaf page) as [recs|]; [done | simpl; congruence]. }
  destruct (find_leaf t prefix out li); [rewrite bind_ok; apply IH | simpl; congruence].
Qed.

(** Every query ends, whatever the source: cycles, fan-in and pointers out
    of order are errors, never an endless walk.  The recursion never exhausts
    its fuel of [NumPieces + 1] nested pages, and a walk that succeeds has
    visited no piece but those below the trailer, each once. *)
Lemma Find_terminates t prefix (Hsrc : ∀ k, Piece (src t) k ≠ Err ErrFuel) :
  Find t prefix ≠ Err ErrFuel ∧
  ∀ v leaves,
    walkToLeaves (src t) prefix (nextPrefix prefix) (S (Z.to_nat (NumPieces (src t)))) 0 (∅, [])
      = Ok (v, leaves) →
    NoDup leaves ∧ (∀ k, k ∈ leaves → k ∈ v) ∧
    ∀ k, k ∈ v → 0 ≤ k < Z.max 1 (NumPieces (src t) - 1).
Proof.
  split.
  - unfold Find. pose proof (Hsrc 0).
    destruct (Piece (src t) 0) as [root|]; [rewrite bind_ok | simpl; congruence].
    pose proof (decodeHeader_fuel root).
    destruct (decodeHeader root) as [h|]; [rewrite bind_ok | simpl; congruence].
    case_match; [|done].
    match goal with |- context [walkToLeaves ?s ?a ?b ?f ?i ?st] =>
      pose proof (walk_fuel s a b f i st Hsrc ltac:(lia) ltac:(lia) ltac:(lia));
      destruct (walkToLeaves s a b f i st) as [[v leaves]|] end;
      [rewrite bind_ok | simpl; congruence].
    case_match; [|done]. pose proof (check_seen_fuel ∅ leaves).
    destruct (fold_result check_seen ∅ leaves); [rewrite bind_ok | simpl; congruence].
    by apply find_leaves_fuel.
  - intros v leaves Hw. apply walk_extends in Hw as ([V R (new & L & D & E2)] & _ & _).
    simpl in *. subst new. split; [done |]. split; [by intros k Hk; apply E2 |].
    intros k Hk. destruct (R k Hk) as [?|?]; [done | lia].
Qed.

(** ** The fingerprint pass *)

(** The record stream a tree stores: the leaf pages in piece order. *)
Definition page_records (t : Tree) (i : Z) : result error (list Record) :=
  page ← Piece (src t) i;
  hdr ← decodeHeader page;
  if kind hdr =? PageKindLeaf then DecodeLeaf page else Ok [].
Definition stored_records (t : Tree) : result error (list Record) :=
  rss ← map_result (page_records t) (seqZ 0 (NumPieces (src t) - 1)); Ok (concat rss).

Lemma fp_records_ok claimed rs h count h' count' :
  is_u64 claimed → 0 ≤ count ≤ claimed →
  fold_result (fp_record claimed) (h, count) rs = Ok (h', count') →
  ∃ encs, map_result EncodeRecord rs = Ok encs ∧ h' = h ++ concat encs ∧
    count' = count + len rs ∧ count' ≤ claimed.
Proof.
  intros Hc. revert h count. induction rs as [|r rs IH]; intros h count Hcount E.
  - injection E as <- <-. exists []. simpl. rewrite app_nil_r, len_nil. split_and!; try done; lia.
  - cbn [fold_result] in E. apply bind_ok_inv in E as ([h1 c1] & E1 & E).
    unfold fp_record in E1. ok_inv. b2p.
    rewrite u64_small in E by (unfold is_u64 in *; lia).
    apply IH in E as (encs & He & -> & -> & Hle); [|lia]. exists (a :: encs).
    simpl. rewrite E0, He. simpl. rewrite <-app_assoc, len_cons. split_and!; try done; lia.
Qed.

Lemma fp_records_complete claimed rs encs h count :
  is_u64 claimed → 0 ≤ count → count + len rs ≤ claimed → map_result EncodeRecord rs = Ok encs →
  fold_result (fp_record claimed) (h, count) rs = Ok (h ++ concat encs, count + len rs).
Proof.
  intros Hc. revert h count encs. induction rs as [|r rs IH]; intros h count encs H0 Hle He.
  - injection He as <-. simpl. by rewrite app_nil_r, len_nil, Z.add_0_r.
  - simpl in He. ok_inv. rewrite len_cons in Hle. pose proof (len_nonneg rs).
    cbn [fold_result].
    assert (Hr : fp_record claimed (h, count) r = Ok (h ++ a, count + 1)).
    { unfold fp_record. destruct (Z.leb_spec claimed count); [lia |]. simpl negb. cbv iota.
      rewrite E, bind_ok. by rewrite u64_small by (unfold is_u64 in *; lia). }
    rewrite Hr, bind_ok.
    erewrite IH by (try lia; done). simpl. rewrite <-app_assoc, len_cons. do 2 f_equal. lia.
Qed.

Lemma fp_pages_ok t ks h count h' count' :
  is_u64 (NumRecords (trailer t)) → 0 ≤ count ≤ NumRecords (trailer t) →
  fold_result (fp_page t) (h, count) ks = Ok (h', count') →
  ∃ rss encs, map_result (page_records t) ks = Ok rss ∧
    map_result EncodeRecord (concat rss) = Ok encs ∧ h' = h ++ concat encs ∧
    count' = count + len (concat rss) ∧ count' ≤ NumRecords (trailer t).
Proof.
  intros Hc. revert h count. induction ks as [|k ks IH]; intros h count Hcount E.
  - injection E as <- <-. exists [], []. simpl. rewrite app_nil_r, len_nil.
    split_and!; try done; lia.
  - cbn [fold_result] in E. apply bind_ok_inv in E as ([h1 c1] & E1 & E).
    assert (∃ rs encs, page_records t k = Ok rs ∧ map_result EncodeRecord rs = Ok encs ∧
      h1 = h ++ concat encs ∧ c1 = count + len rs ∧ c1 ≤ NumRecords (trailer t))
      as (rs & encs & Hrs & Hencs & -> & -> & Hle).
    { unfold fp_page in E1. unfold page_records.
      destruct (Piece (src t) k) as [page|]; [rewrite bind_ok in E1; rewrite bind_ok | done].
      destruct (decodeHeader page) as [hdr|]; [rewrite bind_ok in E1; rewrite bind_ok | done].
      destruct (kind hdr =? PageKindLeaf); simpl negb in E1; cbv iota in E1.
      - apply bind_ok_inv in E1 as (rs & Hrs & E1). rewrite Hrs.
        destruct (fp_records_ok _ _ _ _ _ _ Hc Hcount E1) as (encs & ? & ? & ? & ?).
        by exists rs, encs.
      - injection E1 as <- <-. exists [], []. simpl. rewrite app_nil_r, len_nil.
        split_and!; try done; lia. }
    pose proof (len_nonneg rs).
    apply IH in E as (rss & encs' & Hrss & Hencs' & -> & -> & Hle'); [|lia].
    exists (rs :: rss), (encs ++ encs'). simpl. rewrite Hrs, Hrss. simpl.
    rewrite map_result_app, Hencs, Hencs'. simpl. rewrite concat_app, app_assoc, len_app.
    split_and!; try done; lia.
Qed.

Lemma fp_pages_complete t ks rss encs h count :
  is_u64 (NumRecords (trailer t)) → 0 ≤ count →
  count + len (concat rss) ≤ NumRecords (trailer t) →
  map_result (page_records t) ks = Ok rss → map_result EncodeRecord (concat rss) = Ok encs →
  fold_result (fp_page t) (h, count) ks = Ok (h ++ concat encs, count + len (concat rss)).
Proof.
  intros Hc. revert h count rss encs. induction ks as [|k ks IH]; intros h count rss encs H0 Hle Hr He.
  - injection Hr as <-. injection He as <-. simpl. by rewrite app_nil_r, len_nil, Z.add_0_r.
  - simpl in Hr. apply bind_ok_inv in Hr as (rs & Hrs & Hr).
    apply bind_ok_inv in Hr as (rss' & Hrss & Hr). injection Hr as <-.
    simpl in Hle, He. rewrite len_app in Hle. rewrite map_result_app in He.
    apply bind_ok_inv in He as (e1 & He1 & He). apply bind_ok_inv in He as (e2 & He2 & He).
    injection He as <-. pose proof (len_nonneg rs). pose proof (len_nonneg (concat rss')).
    cbn [fold_result]. assert (Hpage : fp_page t (h, count) k = Ok (h ++ concat e1, count + len rs)).
    { unfold fp_page, page_records in *. destruct (Piece (src t) k) as [page|]; [|done].
      rewrite bind_ok in Hrs. rewrite bind_ok.
      destruct (decodeHeader page) as [hdr|]; [|done]. rewrite bind_ok in Hrs. rewrite bind_ok.
      destruct (kind hdr =? PageKindLeaf); simpl.
      - rewrite Hrs. apply fp_records_complete; done || lia.
      - injection Hrs as <-. injection He1 as <-. simpl. by rewrite app_nil_r, len_nil, Z.add_0_r. }
    rewrite Hpage, bind_ok. rewrite (IH _ _ rss' e2) by (done || lia).
    simpl. rewrite concat_app, app_assoc, len_app. do 2 f_equal. lia.
Qed.

Lemma VerifyFingerprint_stored t (Hn : is_u64 (NumRecords (trailer t))) :
  VerifyFingerprint t = Ok () ↔
  ∃ recs, stored_records t = Ok recs ∧ len recs = NumRecords (trailer t) ∧
    fingerprintSorted recs = Ok (Fingerprint (trailer t)).
Proof.
  unfold VerifyFingerprint, stored_records, fingerprintSorted. split.
  - intros E. apply bind_ok_inv in E as ([h count] & Ef & E). ok_inv. b2p.
    apply fp_pages_ok in Ef as (rss & encs & Hr & He & Hh & Hcount & _);
      [|done | unfold is_u64 in Hn; lia].
    exists (concat rss). rewrite Hr, He. simpl in *. split; [done |]. split; [lia |].
    by rewrite <-Hh, C0.
  - intros (recs & Hs & Hlen & Hf). apply bind_ok_inv in Hs as (rss & Hr & Hs).
    injection Hs as <-. apply bind_ok_inv in Hf as (encs & He & Hf).
    assert (Hf' : sha256 (concat encs) = Fingerprint (trailer t)) by (injection Hf; done).
    rewrite (fp_pages_complete t _ rss encs [] 0) by (done || lia).
    rewrite bind_ok. cbv beta iota. rewrite Z.add_0_l, Hlen, Z.eqb_refl. 
    rewrite app_nil_l, Hf'. by rewrite bool_decide_eq_true_2.
Qed.

(** The fingerprint pass checks completeness: [VerifyFingerprint] accepts
    exactly the trees whose leaf pages, read in piece order, hold as many
    records as the trailer claims, with the fingerprint the trailer signs. *)
Lemma VerifyFingerprint_spec t (Hn : is_u64 (NumRecords (trailer t))) :
  VerifyFingerprint t = Ok () ↔
  ∃ recs, stored_records t = Ok recs ∧ len recs = NumRecords (trailer t) ∧
    fingerprintSorted recs = Ok (Fingerprint (trailer t)).
Proof. by apply VerifyFingerprint_stored. Qed.

(** [C6] A tree is as good as its source, whatever the source serves.  Every query
    ends: cycles, fan-in and pointers out of order are errors, never an endless
    walk.  What a query returns is authentic: the concatenation, over some leaf
    pieces strictly between the root and the trailer and each read once, of the
    page's records that have the queried prefix, verify, and meet the trailer's
    proof of work when it asks for one.  The fingerprint pass checks completeness:
    it accepts exactly the trees whose leaf pages, read in piece order, hold as
    many records as the trailer claims, with the fingerprint the trailer signs. *)
Theorem hostile_source t prefix (Hsrc : ∀ k, Piece (src t) k ≠ Err ErrFuel) :
  Find t prefix ≠ Err ErrFuel ∧
  (∀ out, Find t prefix = Ok out →
     (∃ leaves, NoDup leaves ∧ Forall (λ k, 0 < k < NumPieces (src t) - 1) leaves ∧
        out = List.filter (accepts (MinPoWBits (trailer t)) prefix) (concat (leaf_at t <$> leaves))) ∧
     ∀ r, r ∈ out →
       (prefix `prefix_of` Kw r) ∧ Verify r = Ok () ∧
       (0 < MinPoWBits (trailer t) → VerifyPoW r (MinPoWBits (trailer t)) = Ok ())) ∧
  (is_u64 (NumRecords (trailer t)) →
     VerifyFingerprint t = Ok () ↔
     ∃ recs, stored_records t = Ok recs ∧ len recs = NumRecords (trailer t) ∧
       fingerprintSorted recs = Ok (Fingerprint (trailer t))).
Proof.
  split; [by apply Find_terminates |]. split; [intros out; apply Find_sound |].
  apply VerifyFingerprint_spec.
Qed.


End reader.

End SnaggRead.
