(* ===== verification/SnaggBuild.v ===== *)
(** * Building a SNAGG tree (contracts/snagg/build.go)

    The greedy packing, the shape of the levels, when the build succeeds, and
    the page layout of what it writes. *)

From S2P Require Import Prelude GoInt Sha256 Externals Instances Record Snagg SnaggTree.
Open Scope Z_scope.

Module SnaggBuild.
Import Record.Record Snagg SnaggTree.

(** ** Greedy packing *)
Section pack.
Context {A : Type} (encode : list A → result error bytes) (close : nat → list A → node)
  (too_large : error).

Lemma length_imap_snoc {B C} (f : nat → B → C) l x :
  imap f (l ++ [x]) = imap f l ++ [f (length l) x].
Proof. rewrite imap_app. simpl. by rewrite Nat.add_0_r. Qed.

(** The groups closed so far, with the group that is open. *)
Definition packed (k : list A) (st : list node * list A) : Prop :=
  ∃ gs, st.1 = imap close gs ∧ concat gs ++ st.2 = k ∧
    Forall (λ g, g ≠ [] ∧ is_ok (encode g) = true) gs ∧
    (st.2 ≠ [] → is_ok (encode st.2) = true).

Lemma packed_close k out cur :
  packed k (out, cur) → cur ≠ [] → packed k (out ++ [close (length out) cur], []).
Proof.
  intros (gs & Ho & Hk & HF & Hc) Hne. simpl in *. exists (gs ++ [cur]). simpl.
  rewrite length_imap_snoc, Ho, length_imap, concat_app. simpl. rewrite !app_nil_r.
  split; [done |]. split; [done |]. split; [|done].
  apply Forall_app. split; [done |]. constructor; [|done]. auto.
Qed.

Lemma packed_step k st x st' :
  packed k st → pack_step encode close too_large st x = Ok st' → packed (k ++ [x]) st'.
Proof.
  destruct st as [out cur]. intros Hp H. unfold pack_step in H.
  destruct (encode (cur ++ [x])) as [pg|e] eqn:E.
  - injection H as <-. destruct Hp as (gs & Ho & Hk & HF & Hc). exists gs. simpl in *.
    rewrite <-Hk, <-app_assoc. split_and!; try done. intros _. by rewrite E.
  - destruct (negb _); [done |]. destruct cur as [|y cur]; [done |].
    destruct (encode [x]) as [pg|] eqn:E1; [|done]. injection H as <-.
    apply packed_close in Hp; [|done].
    destruct Hp as (gs & Ho & Hk & HF & _). exists gs. simpl in *.
    rewrite app_nil_r in Hk. rewrite <-Hk. split_and!; try done. intros _. by rewrite E1.
Qed.

Lemma pack_spec l out :
  pack encode close too_large l = Ok out →
  ∃ gs, out = imap close gs ∧ concat gs = l ∧ Forall (λ g, g ≠ [] ∧ is_ok (encode g) = true) gs.
Proof.
  unfold pack. intros H. apply bind_ok_inv in H as ([o cur] & H & Ho).
  apply (fold_result_inv _ packed) in H; [| exists []; by split_and! | intros; by eapply packed_step].
  destruct cur as [|x cur].
  - injection Ho as <-. destruct H as (gs & ? & Hk & ? & _). exists gs. simpl in *.
    by rewrite app_nil_r in Hk.
  - apply packed_close in H; [|done]. injection Ho as <-.
    destruct H as (gs & ? & Hk & ? & _). exists gs. simpl in *. by rewrite app_nil_r in Hk.
Qed.

(** When single elements fit, and a group that outgrows its page says so with
    [ErrPageOverflow], the packing succeeds; when pairs fit, it halves. *)
Context (P : A → Prop).
Hypothesis single : ∀ x, P x → is_ok (encode [x]) = true.
Hypothesis extend : ∀ g x, g ≠ [] → Forall P g → P x → is_ok (encode g) = true →
  is_ok (encode (g ++ [x])) = true ∨ encode (g ++ [x]) = Err ErrPageOverflow.
Hypothesis pairs : ∀ x y, P x → P y → is_ok (encode [x; y]) = true.

Definition packing (k : list A) (st : list node * list A) : Prop :=
  Forall P st.2 ∧ (st.2 ≠ [] → is_ok (encode st.2) = true) ∧
  (2 * length st.1 + length st.2 ≤ length k)%nat ∧ (k ≠ [] → st.2 ≠ []).

Lemma packing_step k x st :
  P x → packing k st →
  ∃ st', pack_step encode close too_large st x = Ok st' ∧ packing (k ++ [x]) st'.
Proof.
  destruct st as [out cur]. intros Hx (HP & Hok & Hlen & Hne). simpl in *.
  unfold pack_step. destruct (encode (cur ++ [x])) as [pg|e] eqn:E.
  { eexists. split; [done |]. split; simpl; [by apply Forall_app; split; [|constructor] |].
    rewrite E. split; [done |]. rewrite !length_app. simpl. split; [lia |].
    intros _ ?. by destruct cur. }
  destruct cur as [|y cur]; [apply single in Hx; simpl in E; by rewrite E in Hx |].
  destruct (extend (y :: cur) x) as [Hc|Hc]; [done | done | done | by apply Hok |
    by rewrite E in Hc |].
  rewrite E in Hc. injection Hc as ->. rewrite bool_decide_eq_true_2 by done. simpl.
  pose proof (single x Hx) as Hs. destruct (encode [x]) as [pg|] eqn:E1; [|done].
  eexists. split; [done |]. destruct cur as [|z cur].
  - exfalso. apply Forall_cons in HP as [Hy _]. pose proof (pairs y x Hy Hx) as Hp.
    simpl in E. by rewrite E in Hp.
  - split; [by constructor |]. split; simpl; [by rewrite E1 |]. rewrite !length_app. simpl in *.
    split; [lia | done].
Qed.

Lemma pack_total l :
  Forall P l → ∃ out, pack encode close too_large l = Ok out ∧
    (2 * length out ≤ length l + 1)%nat ∧ (l ≠ [] → out ≠ []).
Proof.
  intros Hl. unfold pack.
  destruct (fold_result_total (pack_step encode close too_large) P packing ([], []) l) as
    ([out cur] & Hf & _ & _ & Hlen & Hne).
  - done.
  - by split_and!; [| | simpl; lia |].
  - intros. by apply packing_step.
  - rewrite Hf, bind_ok. simpl in *. eexists. split; [done |].
    destruct cur; simpl in *.
    + split; [lia |]. intros H. by apply Hne in H.
    + rewrite length_app. simpl. split; [lia |]. intros _ ?. by destruct out.
Qed.
End pack.

(** ** The shape of the levels *)
Section shape.
Context {B : Bencode recordWire} (ps : Z).

Definition leaf_fits (g : list Record) : bool := is_ok (EncodeLeaf 0 g ps).
Definition interior_fits (g : list node) : bool :=
  is_ok (EncodeInterior PageKindInterior 1 (interiorChildrenOfSlice g) ps).

(** Level [S l] groups the nodes of level [l] in order. *)
Definition level_over (l : nat) (cs ns : list node) : Prop :=
  ∃ gs, ns = imap (mkInterior (S l)) gs ∧ concat gs = cs ∧
    Forall (λ g, g ≠ [] ∧ interior_fits g = true) gs.

Record levels_ok (sorted : list Record) (levels : list (list node)) : Prop := {
  lv_leaves : ∃ gs, levels !! 0%nat = Some (imap mkLeaf gs) ∧ concat gs = sorted ∧
    Forall (λ g, g ≠ [] ∧ leaf_fits g = true) gs;
  lv_over : ∀ l cs ns, levels !! l = Some cs → levels !! S l = Some ns → level_over l cs ns
}.

Lemma packLeaves_spec sorted leaves :
  packLeaves sorted ps = Ok leaves → levels_ok sorted [leaves].
Proof.
  intros H. apply pack_spec in H as (gs & -> & Hc & HF). split.
  - by exists gs.
  - intros [|l] cs ns H1 H2; simplify_eq/=.
Qed.

Lemma packInteriorLevel_spec l cs ns :
  packInteriorLevel (S l) cs ps = Ok ns → level_over l cs ns ∧ cs ≠ [].
Proof.
  unfold packInteriorLevel. intros H. ok_inv. b2p.
  apply pack_spec in H as (gs & -> & Hc & HF). split; [by exists gs |]. by intros ->.
Qed.

Lemma levels_ok_snoc sorted levels cs ns :
  levels_ok sorted levels → last levels = Some cs →
  level_over (length levels - 1) cs ns → levels_ok sorted (levels ++ [ns]).
Proof.
  intros [(gs & H0 & ? & ?) Ho] Hl Hns. pose proof (last_Some_elem_of _ _ Hl) as Hne.
  assert (Hpos : (0 < length levels)%nat) by (destruct levels; [done | simpl; lia]).
  split.
  - exists gs. split; [|done]. by rewrite lookup_app_l.
  - intros l a b Ha Hb. destruct (decide (S l < length levels)%nat) as [Hlt|Hge].
    + rewrite lookup_app_l in Ha, Hb by lia. by eapply Ho.
    + pose proof (lookup_lt_Some _ _ _ Hb) as Hlen. rewrite length_app in Hlen. simpl in Hlen.
      assert (l = length levels - 1)%nat as -> by lia.
      rewrite lookup_app_l in Ha by lia. rewrite last_lookup in Hl.
      replace (pred (length levels)) with (length levels - 1)%nat in Hl by lia.
      replace (S (length levels - 1)) with (length levels) in Hb by lia.
      rewrite lookup_app_r, Nat.sub_diag in Hb by lia. simplify_eq/=. done.
Qed.

Lemma level_over_nonempty l cs ns : level_over l cs ns → cs ≠ [] → ns ≠ [].
Proof. intros (gs & -> & Hc & _) Hne Hn. destruct gs; [by simpl in Hc | done]. Qed.

Lemma build_levels_spec sorted fuel lvl cur levels levels' :
  levels_ok sorted levels → last levels = Some cur → cur ≠ [] → lvl = length levels →
  build_levels fuel lvl cur levels ps = Ok levels' →
  levels_ok sorted levels' ∧ (∃ nd, last levels' = Some [nd]) ∧
  ∃ more, levels' = levels ++ more ∧ (more = [] → length cur = 1%nat).
Proof.
  revert lvl cur levels. induction fuel as [|fuel IH]; intros lvl cur levels Hok Hl Hne Hlvl H;
    cbn [build_levels] in H; destruct (Z.leb_spec (len cur) 1) as [H1|H1].
  1, 3: injection H as <-; unfold len in H1;
    destruct cur as [|nd [|nd' cur]]; simpl in *; [done | | lia];
    split; [done |]; split; [by exists nd | exists []; by rewrite app_nil_r].
  - done.
  - apply bind_ok_inv in H as (parents & Hp & H). subst lvl.
    assert (Hpos : (0 < length levels)%nat) by (destruct levels; [done | simpl; lia]).
    replace (length levels) with (S (length levels - 1)) in Hp by lia.
    apply packInteriorLevel_spec in Hp as [Hover _].
    assert (Hpne : parents ≠ []) by (by eapply level_over_nonempty).
    apply IH in H as (Hok' & Hroot & more & -> & _).
    + split; [done |]. split; [done |]. exists (parents :: more).
      by rewrite <-app_assoc.
    + by eapply levels_ok_snoc.
    + by rewrite last_snoc.
    + done.
    + rewrite length_app. simpl. lia.
Qed.

Lemma level_over_singleton l nd ns : level_over l [nd] ns → ∃ nd', ns = [nd'].
Proof.
  intros (gs & -> & Hc & HF). destruct gs as [|g gs]; [done |].
  apply Forall_cons in HF as [[Hg _] HF]. destruct g as [|x g]; [done |].
  injection Hc as -> Hc. apply app_eq_nil in Hc as [-> Hc].
  destruct gs as [|g' gs]; [by eexists |].
  apply Forall_cons in HF as [[Hg' _] _]. simpl in Hc. by destruct g'.
Qed.

(** The levels of a tree: leaves first, at least one interior level, a single
    root last. *)
Lemma all_levels_spec sorted leaves levels :
  packLeaves sorted ps = Ok leaves → sorted ≠ [] → all_levels leaves ps = Ok levels →
  levels_ok sorted levels ∧ (∃ nd, last levels = Some [nd]) ∧ (2 ≤ length levels)%nat.
Proof.
  intros Hl Hne H. pose proof (packLeaves_spec _ _ Hl) as Hok.
  assert (Hlne : leaves ≠ []).
  { destruct Hok as [(gs & H0 & Hc & _) _]. injection H0 as ->. destruct gs; [by simpl in Hc | done]. }
  unfold all_levels in H. apply bind_ok_inv in H as (lv & Hb & H).
  apply (build_levels_spec sorted) in Hb as (Hok' & Hroot & more & -> & Hmore);
    [|done|done|done|done].
  destruct (Z.eqb_spec (len ([leaves] ++ more)) 1) as [H1|H1].
  - assert (more = []) as -> by (destruct more; [done | unfold len in H1; simpl in H1; lia]).
    specialize (Hmore eq_refl). apply bind_ok_inv in H as (root & Hr & H). injection H as <-.
    apply packInteriorLevel_spec in Hr as [Hover _].
    split; [by eapply (levels_ok_snoc sorted [leaves]) |].
    split; [|simpl; lia].
    destruct leaves as [|nd [|]]; [done | | done].
    apply level_over_singleton in Hover as [nd' ->]. by exists nd'.
  - injection H as <-. split; [done |]. split; [done |].
    destruct more; [done | simpl; lia].
Qed.

End shape.

(** ** Sizes: when a page fits *)

Lemma len_framed b : len b ≤ MaxRecordBytes → 1 ≤ len (framed b) ≤ 258.
Proof.
  intros Hb. unfold framed, MaxRecordBytes in *. rewrite len_app. pose proof (len_nonneg b).
  pose proof (len_put_uvarint (len b)). pose proof (len_put_uvarint_2 (len b)). lia.
Qed.

Section sizes.
Context {B : Bencode recordWire}.

Definition encodable (r : Record) : Prop := is_ok (EncodeRecord r) = true.

(** The bytes of a leaf payload behind the count. *)
Definition leaf_bytes (rs : list Record) : Z :=
  match map_result EncodeRecord rs with
  | Ok encs => len (concat (framed <$> encs))
  | Err _ => 0
  end.

Lemma encodable_encs rs :
  Forall encodable rs → ∃ encs, map_result EncodeRecord rs = Ok encs ∧
    len rs ≤ len (concat (framed <$> encs)) ≤ 258 * len rs.
Proof.
  induction 1 as [|r rs Hr Hrs (encs & He & Hlen)]; [by exists []; rewrite !len_nil |].
  unfold encodable in Hr. simpl. destruct (EncodeRecord r) as [b|] eqn:E; [|done].
  exists (b :: encs). rewrite He. split; [done |].
  apply EncodeRecord_inv in E as (_ & _ & Hb). apply len_framed in Hb.
  cbn [fmap list_fmap concat]. rewrite len_app, !len_cons. lia.
Qed.

Lemma leaf_bytes_range rs : Forall encodable rs → len rs ≤ leaf_bytes rs ≤ 258 * len rs.
Proof. intros H. unfold leaf_bytes. by destruct (encodable_encs rs H) as (encs & -> & ?). Qed.

Lemma leaf_bytes_snoc rs r :
  Forall encodable rs → encodable r → leaf_bytes (rs ++ [r]) ≤ leaf_bytes rs + 258.
Proof.
  intros Hrs Hr. unfold leaf_bytes. rewrite map_result_app.
  destruct (encodable_encs rs Hrs) as (encs & -> & _).
  destruct (encodable_encs [r]) as (e1 & -> & Hb); [by constructor |]. simpl.
  change (len [r]) with 1 in Hb.
  rewrite fmap_app, concat_app, len_app. lia.
Qed.

(** The three ways [EncodeLeaf] ends on records that encode. *)
Lemma EncodeLeaf_cases lvl rs ps :
  rs ≠ [] → Forall encodable rs →
  if 65535 <? 2 + leaf_bytes rs
  then is_ok (EncodeLeaf lvl rs ps) = false ∧ EncodeLeaf lvl rs ps ≠ Err ErrPageOverflow
  else if ps <? 18 + leaf_bytes rs then EncodeLeaf lvl rs ps = Err ErrPageOverflow
  else is_ok (EncodeLeaf lvl rs ps) = true.
Proof.
  intros Hne He. pose proof (leaf_bytes_range rs He) as Hr. unfold EncodeLeaf.
  pose proof (len_pos rs Hne). destruct (encodable_encs rs He) as (encs & Henc & _).
  assert (Hn : leaf_bytes rs = len (concat (framed <$> encs))) by (unfold leaf_bytes; by rewrite Henc).
  rewrite Henc, bind_ok, len_app, len_put_le, <-Hn. unfold PageHeaderSize.
  set (n := leaf_bytes rs) in *.
  destruct (Z.eqb_spec (len rs) 0); [lia |]. simpl negb.
  destruct (Z.ltb_spec 65535 (2 + n)).
  - destruct (Z.leb_spec (len rs) 65535); [|done].
    by destruct (Z.leb_spec (Z.of_nat 2 + n) 65535); [lia |].
  - destruct (Z.leb_spec (len rs) 65535); [|lia].
    destruct (Z.leb_spec (Z.of_nat 2 + n) 65535); [|lia].
    destruct (Z.ltb_spec ps (18 + n)), (Z.leb_spec (16 + (Z.of_nat 2 + n)) ps); done || lia.
Qed.

(** The largest page the packing can overflow gracefully: the next record must
    not push the payload past 16 bits before it pushes it past the page. *)
Definition SafePieceSize : Z := 65293.

Lemma leaf_extend ps g r :
  ps ≤ SafePieceSize → g ≠ [] → Forall encodable g → encodable r →
  is_ok (EncodeLeaf 0 g ps) = true →
  is_ok (EncodeLeaf 0 (g ++ [r]) ps) = true ∨ EncodeLeaf 0 (g ++ [r]) ps = Err ErrPageOverflow.
Proof.
  intros Hps Hne Hg Hr Hok. unfold SafePieceSize in Hps.
  pose proof (EncodeLeaf_cases 0 g ps Hne Hg) as H1.
  assert (Hg' : Forall encodable (g ++ [r])) by (apply Forall_app; split; [done | by constructor]).
  pose proof (EncodeLeaf_cases 0 (g ++ [r]) ps ltac:(by destruct g) Hg') as H2.
  pose proof (leaf_bytes_snoc g r Hg Hr) as Hs.
  destruct (Z.ltb_spec 65535 (2 + leaf_bytes g)); [destruct H1 as [H1 _]; congruence |].
  destruct (Z.ltb_spec ps (18 + leaf_bytes g)); [rewrite H1 in Hok; done |].
  destruct (Z.ltb_spec 65535 (2 + leaf_bytes (g ++ [r]))); [lia |].
  destruct (Z.ltb_spec ps (18 + leaf_bytes (g ++ [r]))); auto.
Qed.

Lemma leaf_small ps g :
  MinPieceSize ≤ ps → g ≠ [] → (length g ≤ 2)%nat → Forall encodable g →
  is_ok (EncodeLeaf 0 g ps) = true.
Proof.
  unfold MinPieceSize. intros Hps Hne Hlen Hg. pose proof (EncodeLeaf_cases 0 g ps Hne Hg) as H1.
  pose proof (leaf_bytes_range g Hg). unfold len in *.
  destruct (Z.ltb_spec 65535 (2 + leaf_bytes g)); [lia |].
  destruct (Z.ltb_spec ps (18 + leaf_bytes g)); [lia | done].
Qed.

Lemma packLeaves_total sorted ps :
  MinPieceSize ≤ ps ≤ SafePieceSize → Forall encodable sorted →
  ∃ leaves, packLeaves sorted ps = Ok leaves ∧ (sorted ≠ [] → leaves ≠ []).
Proof.
  intros [Hlo Hhi] He. unfold packLeaves.
  destruct (pack_total (λ rs, EncodeLeaf 0 rs ps) mkLeaf ErrRecordTooLargeForPage encodable)
    with (l := sorted) as (out & Ho & _ & Hne); [| | | done | by exists out].
  - intros r Hr. apply leaf_small; [done | done | simpl; lia | by constructor].
  - intros g r Hne Hg Hr. by apply leaf_extend.
  - intros x y Hx Hy. apply leaf_small; [done | done | simpl; lia |]. by repeat constructor.
Qed.

(** *** Interior pages *)
Definition short_key (nd : node) : Prop := len (minKey nd) ≤ 85.

Definition interior_bytes (cs : list InteriorChild) : Z :=
  len (concat (enc_child <$> first_unbounded cs)).

Lemma len_enc_child c : len (Separator c) ≤ 85 → 5 ≤ len (enc_child c) ≤ 90.
Proof.
  intros H. unfold enc_child. rewrite !len_app, len_put_le. pose proof (len_nonneg (Separator c)).
  rewrite len_put_uvarint_1 by lia. lia.
Qed.

Lemma len_enc_children cs :
  Forall (λ c, len (Separator c) ≤ 85) cs →
  5 * len cs ≤ len (concat (enc_child <$> cs)) ≤ 90 * len cs.
Proof.
  induction 1 as [|c cs Hc _ IH]; [done |]. apply len_enc_child in Hc.
  cbn [fmap list_fmap concat]. rewrite len_app, len_cons. lia.
Qed.

Lemma first_unbounded_short cs :
  Forall (λ c, len (Separator c) ≤ 85) cs → Forall (λ c, len (Separator c) ≤ 85) (first_unbounded cs).
Proof. destruct 1; [done |]. constructor; [simpl; by rewrite len_nil | done]. Qed.

Lemma interior_bytes_range cs :
  Forall (λ c, len (Separator c) ≤ 85) cs → 5 * len cs ≤ interior_bytes cs ≤ 90 * len cs.
Proof.
  intros H. apply first_unbounded_short, len_enc_children in H. unfold interior_bytes.
  assert (len (first_unbounded cs) = len cs) as E by (by destruct cs). by rewrite E in H.
Qed.

Lemma interior_bytes_snoc cs c :
  cs ≠ [] → len (Separator c) ≤ 85 → interior_bytes (cs ++ [c]) ≤ interior_bytes cs + 90.
Proof.
  intros Hne Hc. unfold interior_bytes.
  assert (first_unbounded (cs ++ [c]) = first_unbounded cs ++ [c]) as -> by (by destruct cs).
  rewrite fmap_app, concat_app, len_app. simpl. rewrite app_nil_r.
  apply len_enc_child in Hc. lia.
Qed.

Lemma EncodeInterior_cases knd lvl cs ps :
  (knd = PageKindInterior ∨ knd = PageKindRoot) → cs ≠ [] →
  Forall (λ c, len (Separator c) ≤ 85) cs → 2 + interior_bytes cs ≤ 65535 →
  if ps <? 18 + interior_bytes cs then EncodeInterior knd lvl cs ps = Err ErrPageOverflow
  else is_ok (EncodeInterior knd lvl cs ps) = true.
Proof.
  intros Hk Hne Hs Hle. pose proof (interior_bytes_range cs Hs) as Hr.
  pose proof (len_pos cs Hne). unfold EncodeInterior.
  assert ((knd =? PageKindInterior) || (knd =? PageKindRoot) = true) as ->
    by (by destruct Hk as [-> | ->]).
  rewrite concat_encode_child, len_app, len_put_le. unfold PageHeaderSize.
  fold (interior_bytes cs). set (n := interior_bytes cs) in *.
  destruct (Z.eqb_spec (len cs) 0); [lia |]. simpl negb.
  destruct (Z.leb_spec (len cs) 65535); [|lia].
  destruct (Z.leb_spec (Z.of_nat 2 + n) 65535); [|lia].
  destruct (Z.ltb_spec ps (18 + n)), (Z.leb_spec (16 + (Z.of_nat 2 + n)) ps); done || lia.
Qed.

Lemma slice_short cs :
  Forall short_key cs → Forall (λ c, len (Separator c) ≤ 85) (interiorChildrenOfSlice cs).
Proof. intros H. apply Forall_fmap. by eapply Forall_impl. Qed.

Lemma len_slice cs : len (interiorChildrenOfSlice cs) = len cs.
Proof. unfold len, interiorChildrenOfSlice. by rewrite length_fmap. Qed.

Lemma interior_small ps g :
  MinPieceSize ≤ ps → g ≠ [] → (length g ≤ 2)%nat → Forall short_key g →
  interior_fits ps g = true.
Proof.
  unfold MinPieceSize, interior_fits. intros Hps Hne Hlen Hg. apply slice_short in Hg as Hs.
  pose proof (interior_bytes_range _ Hs) as Hr. rewrite len_slice in Hr. unfold len in Hr.
  pose proof (EncodeInterior_cases PageKindInterior 1 (interiorChildrenOfSlice g) ps
    ltac:(by left) ltac:(by destruct g) Hs ltac:(lia)) as H1.
  destruct (Z.ltb_spec ps (18 + interior_bytes (interiorChildrenOfSlice g))); [lia | done].
Qed.

Lemma interior_fits_bytes ps g :
  g ≠ [] → interior_fits ps g = true →
  18 + interior_bytes (interiorChildrenOfSlice g) ≤ ps ∧
  2 + interior_bytes (interiorChildrenOfSlice g) ≤ 65535.
Proof.
  unfold interior_fits. intros Hne H.
  destruct (EncodeInterior _ _ _ _) as [page|] eqn:E; [|done].
  apply EncodeInterior_inv in E as (_ & _ & _ & H1 & H2 & _).
  rewrite len_app, len_put_le in H1, H2. unfold interior_bytes, PageHeaderSize in *. lia.
Qed.

Lemma interior_extend ps g x :
  ps ≤ SafePieceSize → g ≠ [] → Forall short_key g → short_key x →
  interior_fits ps g = true →
  interior_fits ps (g ++ [x]) = true ∨
  EncodeInterior PageKindInterior 1 (interiorChildrenOfSlice (g ++ [x])) ps = Err ErrPageOverflow.
Proof.
  intros Hps Hne Hg Hx Hok. apply interior_fits_bytes in Hok as [H1 H2]; [|done].
  assert (Hs : Forall (λ c, len (Separator c) ≤ 85) (interiorChildrenOfSlice (g ++ [x]))).
  { apply slice_short, Forall_app. split; [done | by constructor]. }
  assert (Hb : interior_bytes (interiorChildrenOfSlice (g ++ [x])) ≤
               interior_bytes (interiorChildrenOfSlice g) + 90).
  { unfold interiorChildrenOfSlice. rewrite fmap_app. apply interior_bytes_snoc; [by destruct g | done]. }
  unfold SafePieceSize in Hps.
  pose proof (EncodeInterior_cases PageKindInterior 1 (interiorChildrenOfSlice (g ++ [x])) ps
    ltac:(by left) ltac:(by destruct g) Hs ltac:(lia)) as H3.
  unfold interior_fits.
  destruct (Z.ltb_spec ps (18 + interior_bytes (interiorChildrenOfSlice (g ++ [x])))); auto.
Qed.

Lemma mkInterior_short ps lvl cs ns :
  (∃ gs, ns = imap (mkInterior lvl) gs ∧ concat gs = cs ∧
     Forall (λ g, g ≠ [] ∧ interior_fits ps g = true) gs) →
  Forall short_key cs → Forall short_key ns.
Proof.
  intros (gs & -> & <- & HF) Hs.
  apply Forall_lookup_2. intros i nd Hi. rewrite list_lookup_imap in Hi.
  destruct (gs !! i) as [g|] eqn:Hg; [|done]. injection Hi as <-.
  apply list_elem_of_lookup_2 in Hg. rewrite Forall_forall in HF.
  destruct (HF g Hg) as [Hgne _]. destruct g as [|c g]; [done |].
  rewrite Forall_forall in Hs. apply (Hs c). apply list_elem_of_concat. exists (c :: g).
  split; [done | by left].
Qed.

Lemma packInteriorLevel_total lvl cs ps :
  MinPieceSize ≤ ps ≤ SafePieceSize → cs ≠ [] → Forall short_key cs →
  ∃ ns, packInteriorLevel lvl cs ps = Ok ns ∧ (2 * length ns ≤ length cs + 1)%nat ∧
    ns ≠ [] ∧ Forall short_key ns.
Proof.
  intros [Hlo Hhi] Hne Hs. unfold packInteriorLevel.
  pose proof (len_pos cs Hne). destruct (Z.eqb_spec (len cs) 0); [lia |]. simpl negb. cbv iota.
  destruct (pack_total (λ cs, EncodeInterior PageKindInterior 1 (interiorChildrenOfSlice cs) ps)
    (mkInterior lvl) ErrSeparatorTooLarge short_key) with (l := cs) as (ns & Hns & Hlen & Hn);
    [| | | done |].
  - intros x Hx. apply interior_small; [done | done | simpl; lia | by constructor].
  - intros g x Hg HP Hx Hok. by apply interior_extend.
  - intros x y Hx Hy. apply interior_small; [done | done | simpl; lia | by repeat constructor].
  - exists ns. split; [done |]. split; [done |]. split; [by apply Hn |].
    apply pack_spec in Hns as (gs & -> & Hc & HF). eapply mkInterior_short; [|exact Hs].
    exists gs. split; [done |]. split; [exact Hc | exact HF].
Qed.

Lemma build_levels_total fuel lvl cur levels ps :
  MinPieceSize ≤ ps ≤ SafePieceSize → cur ≠ [] → Forall short_key cur →
  (length cur ≤ S fuel)%nat → is_ok (build_levels fuel lvl cur levels ps) = true.
Proof.
  intros Hps. revert lvl cur levels. induction fuel as [|fuel IH]; intros lvl cur levels Hne Hs Hf;
    cbn [build_levels]; destruct (Z.leb_spec (len cur) 1) as [H1|H1]; try done; unfold len in H1;
    [lia |].
  destruct (packInteriorLevel_total lvl cur ps Hps Hne Hs) as (ns & -> & Hlen & Hn & Hk).
  rewrite bind_ok. apply IH; [done | done | lia].
Qed.

Lemma RecordKey_len r : len (RecordKey r) = len (Kw r) + 21.
Proof. unfold RecordKey. rewrite !len_app, len_sl. unfold len at 2. simpl. lia. Qed.

Lemma mkLeaf_short i rs : rs ≠ [] → Forall encodable rs → short_key (mkLeaf i rs).
Proof.
  destruct rs as [|r rs]; [done |]. intros _ [Hr _]%Forall_cons.
  unfold encodable in Hr. destruct (EncodeRecord r) as [b|] eqn:E; [|done].
  apply EncodeRecord_inv in E as (Hk & _ & _). unfold short_key. simpl.
  rewrite RecordKey_len. unfold MaxKeywordBytes in Hk. lia.
Qed.

Lemma all_levels_total sorted ps :
  MinPieceSize ≤ ps ≤ SafePieceSize → sorted ≠ [] → Forall encodable sorted →
  ∃ leaves levels, packLeaves sorted ps = Ok leaves ∧ all_levels leaves ps = Ok levels.
Proof.
  intros Hps Hne He. destruct (packLeaves_total sorted ps Hps He) as (leaves & Hl & Hlne).
  exists leaves. specialize (Hlne Hne).
  assert (Hs : Forall short_key leaves).
  { apply packLeaves_spec in Hl as [(gs & H0 & Hc & HF) _]. injection H0 as ->. subst sorted.
    apply Forall_lookup_2. intros i nd Hi. rewrite list_lookup_imap in Hi.
    destruct (gs !! i) as [g|] eqn:Hg; [|done]. injection Hi as <-.
    apply list_elem_of_lookup_2 in Hg. rewrite Forall_forall in HF.
    apply mkLeaf_short; [by apply HF |]. rewrite Forall_forall in *. intros r Hr. apply He.
    apply list_elem_of_concat. by exists g. }
  unfold all_levels.
  pose proof (build_levels_total (length leaves) 1 leaves [leaves] ps Hps Hlne Hs ltac:(lia)) as Hb.
  destruct (build_levels _ _ _ _ _) as [levels|]; [|done]. rewrite bind_ok.
  destruct (len levels =? 1); [|by eexists].
  destruct (packInteriorLevel_total 1 leaves ps Hps Hlne Hs) as (ns & -> & _). by eexists.
Qed.

End sizes.

(** ** Piece numbers and emission *)

(** The pieces in order: the root level first, the leaves last. *)
Definition order (levels : list (list node)) : list node := concat (reverse levels).

Lemma addr_level {B : Bencode recordWire} ps sorted levels l ns i nd :
  levels_ok ps sorted levels → levels !! l = Some ns → ns !! i = Some nd → addr nd = (l, i).
Proof.
  intros [(gs & H0 & _) Ho] Hl Hi. destruct l as [|l].
  - rewrite H0 in Hl. injection Hl as <-. rewrite list_lookup_imap in Hi.
    destruct (gs !! i); [|done]. by injection Hi as <-.
  - destruct (levels !! l) as [cs|] eqn:Hc.
    + destruct (Ho l cs ns Hc Hl) as (gs' & -> & _). rewrite list_lookup_imap in Hi.
      destruct (gs' !! i); [|done]. by injection Hi as <-.
    + apply lookup_ge_None in Hc. apply lookup_lt_Some in Hl. lia.
Qed.

(** Identities that say where a node is are distinct. *)
Definition addressed (b : nat) (levels : list (list node)) : Prop :=
  ∀ l ns i nd, levels !! l = Some ns → ns !! i = Some nd → addr nd = ((b + l)%nat, i).

Lemma NoDup_addrs b levels : addressed b levels → NoDup (addr <$> concat levels).
Proof.
  revert b. induction levels as [|ns levels IH]; intros b Ha; [constructor |].
  cbn [concat]. rewrite fmap_app. apply NoDup_app. split; [|split].
  - apply NoDup_alt. intros i j a Hi Hj. rewrite list_lookup_fmap in Hi, Hj.
    destruct (ns !! i) as [x|] eqn:Hx; [|done]. destruct (ns !! j) as [y|] eqn:Hy; [|done].
    simpl in Hi, Hj. injection Hi as Hi. injection Hj as Hj.
    rewrite (Ha 0%nat ns i x eq_refl Hx) in Hi. rewrite (Ha 0%nat ns j y eq_refl Hy) in Hj.
    rewrite <-Hj in Hi. by injection Hi as ->.
  - intros a Hin Hin'. apply list_elem_of_fmap in Hin as (x & -> & Hx).
    apply list_elem_of_fmap in Hin' as (y & Hy & Hin').
    apply list_elem_of_lookup in Hx as [i Hx]. rewrite (Ha 0%nat ns i x eq_refl Hx) in Hy.
    apply list_elem_of_concat in Hin' as (ms & Hms & Hin').
    apply list_elem_of_lookup in Hms as [l Hl]. apply list_elem_of_lookup in Hin' as [j Hj].
    rewrite (Ha (S l) ms j y Hl Hj) in Hy. injection Hy. lia.
  - apply (IH (S b)). intros l ms i nd Hl Hi. rewrite (Ha (S l) ms i nd Hl Hi). f_equal. lia.
Qed.

Lemma order_perm levels : order levels ≡ₚ concat levels.
Proof.
  unfold order. induction levels as [|ns levels IH]; [done |].
  rewrite reverse_cons, concat_app. simpl. rewrite app_nil_r, IH. apply Permutation_app_comm.
Qed.

Lemma assign_order nds p m :
  0 ≤ p → p + len nds < 2 ^ 32 → NoDup (addr <$> nds) →
  let st := foldl assign_node (m, p) nds in
  st.2 = p + len nds ∧
  (∀ k nd, nds !! k = Some nd → st.1 !! addr nd = Some (p + Z.of_nat k)) ∧
  (∀ a, a ∉ addr <$> nds → st.1 !! a = m !! a).
Proof.
  revert p m. induction nds as [|nd nds IH]; intros p m Hp Hlt Hnd.
  { simpl. rewrite len_nil. split; [lia |]. split; [done | done]. }
  rewrite fmap_cons in Hnd. apply NoDup_cons in Hnd as [Hni Hnd]. rewrite len_cons in *.
  pose proof (len_nonneg nds). cbn [foldl]. unfold assign_node at 2 4 6. cbn [fst snd].
  rewrite u32_small by (unfold is_u32; lia).
  destruct (IH (p + 1) (<[addr nd:=p]> m)) as (H1 & H2 & H3); [lia | lia | done |].
  split; [lia |]. split.
  - intros [|k] x Hk; simplify_eq/=.
    + rewrite H3 by done. rewrite lookup_insert_eq. f_equal. lia.
    + rewrite (H2 k x Hk). f_equal. lia.
  - intros a Ha. rewrite fmap_cons, not_elem_of_cons in Ha. destruct Ha as [Hne Ha].
    rewrite H3 by done. by rewrite lookup_insert_ne.
Qed.

Section emission.
Context {B : Bencode recordWire} (m : pieces) (top : nat) (ps : Z).

Lemma emit_order nds pages pages' :
  (∀ k nd, nds !! k = Some nd → piece m nd = Z.of_nat k) → (length nds ≤ length pages)%nat →
  fold_result (λ pages nd, emit_node m top (addr nd).1 ps pages nd) pages nds = Ok pages' →
  length pages' = length pages ∧
  ∀ k nd, nds !! k = Some nd → ∃ page,
    encode_node m top (addr nd).1 nd ps = Ok page ∧ pages' !! k = Some page.
Proof.
  intros Hp Hlen Hf. revert Hp Hlen.
  apply (fold_result_inv (λ pages nd, emit_node m top (addr nd).1 ps pages nd) (λ nds p', (∀ k nd, nds !! k = Some nd → piece m nd = Z.of_nat k) →
    (length nds ≤ length pages)%nat → length p' = length pages ∧
    ∀ k nd, nds !! k = Some nd → ∃ page,
      encode_node m top (addr nd).1 nd ps = Ok page ∧ p' !! k = Some page) pages nds pages');
    [| | exact Hf].
  - done.
  - intros k x a b IH Hx Hp Hl. rewrite length_app in Hl. simpl in Hl.
    destruct IH as [IHl IHp]; [|lia|].
    { intros j nd Hj. apply Hp. rewrite lookup_app_l; [done |]. by eapply lookup_lt_Some. }
    unfold emit_node in Hx. apply bind_ok_inv in Hx as (page & Hpage & Hx). injection Hx as <-.
    assert (Hpx : piece m x = Z.of_nat (length k)).
    { apply Hp. by rewrite lookup_app_r, Nat.sub_diag by lia. }
    rewrite length_insert. split; [done |]. intros j nd Hj.
    rewrite Hpx, Nat2Z.id. destruct (decide (j = length k)) as [->|Hne].
    + rewrite lookup_app_r, Nat.sub_diag in Hj by lia. injection Hj as <-.
      exists page. split; [done |]. apply list_lookup_insert_eq. lia.
    + assert (j < length k)%nat by (apply lookup_lt_Some in Hj; rewrite length_app in Hj;
        simpl in Hj; lia).
      rewrite lookup_app_l in Hj by done. rewrite list_lookup_insert_ne by done. by apply IHp.
Qed.

Lemma emit_order_total nds pages :
  Forall (λ nd, is_ok (encode_node m top (addr nd).1 nd ps) = true) nds →
  is_ok (fold_result (λ pages nd, emit_node m top (addr nd).1 ps pages nd) pages nds) = true.
Proof.
  intros H. destruct (fold_result_total (λ pages nd, emit_node m top (addr nd).1 ps pages nd)
    (λ nd, is_ok (encode_node m top (addr nd).1 nd ps) = true) (λ _ _, True) pages nds H I)
    as (p' & -> & _); [|done].
  intros k x a Hx _. unfold emit_node. destruct (encode_node _ _ _ _ _) as [page|]; [|done].
  by eexists.
Qed.
End emission.

Lemma emit_pages_order {B : Bencode recordWire} m levels ps pages :
  addressed 0 levels →
  emit_pages m levels ps pages =
    fold_result (λ pages nd, emit_node m (length levels - 1) (addr nd).1 ps pages nd) pages
      (order levels).
Proof.
  intros Ha. unfold emit_pages, order. rewrite <-fold_result_concat.
  set (top := (length levels - 1)%nat).
  assert (Hgen : ∀ b ls pages, addressed b ls →
    fold_result (λ pages '(l, nodes), fold_result (emit_node m top l ps) pages nodes) pages
      (reverse (imap (λ l ns, ((b + l)%nat, ns)) ls)) =
    fold_result (fold_result (λ pages nd, emit_node m top (addr nd).1 ps pages nd)) pages (reverse ls));
    [|exact (Hgen 0%nat levels pages Ha)].
  clear. intros b ls pages. revert b pages. induction ls as [|ns ls IH]; intros b pages Ha; [done |].
  cbn [imap]. rewrite !reverse_cons, !fold_result_app.
  rewrite (imap_ext _ (λ l ns, ((S b + l)%nat, ns))) by (intros; simpl; f_equal; lia).
  rewrite IH.
  - destruct (fold_result _ _ _) as [p'|]; [|done]. rewrite !bind_ok. cbn [fold_result].
    rewrite Nat.add_0_r. erewrite (fold_result_ext (emit_node m top b ps)); [done |].
    intros q x Hx. apply list_elem_of_lookup in Hx as [i Hi].
    by rewrite (Ha 0%nat ns i x eq_refl Hi), Nat.add_0_r.
  - intros l ms i nd Hl Hi. rewrite (Ha (S l) ms i nd Hl Hi). f_equal. lia.
Qed.

(** ** How many pages *)
Section count.
Context {A : Type} (encode : list A → result error bytes) (close : nat → list A → node)
  (too_large : error) (P : A → Prop).
Hypothesis pairs : ∀ x y, P x → P y → is_ok (encode [x; y]) = true.

Lemma pack_halves l out :
  Forall P l → pack encode close too_large l = Ok out → (2 * length out ≤ length l + 1)%nat.
Proof.
  intros Hl H. unfold pack in H. apply bind_ok_inv in H as ([o cur] & H & Ho). revert Hl.
  assert (Hp : Forall P l → Forall P (o, cur).2 ∧
    (2 * length (o, cur).1 + length (o, cur).2 ≤ length l)%nat);
    [|intros Hl; destruct (Hp Hl) as [_ Hle]; simpl in Hle;
      destruct cur; injection Ho as <-; rewrite ?length_app; simpl in *; lia].
  apply (fold_result_inv (pack_step encode close too_large) (λ l st, Forall P l → Forall P st.2 ∧
    (2 * length st.1 + length st.2 ≤ length l)%nat) ([], []) l (o, cur)); [| | exact H].
  - simpl. done.
  - intros k x [o' cur'] st' IH Hs Hk. apply Forall_app in Hk as [Hk [Hx _]%Forall_cons].
    destruct (IH Hk) as [HP Hle]. simpl in *. unfold pack_step in Hs. rewrite length_app.
    destruct (encode (cur' ++ [x])) as [pg|e] eqn:E.
    + injection Hs as <-. simpl. rewrite length_app. simpl.
      split; [apply Forall_app; split; [done | by constructor] | lia].
    + destruct (negb _); [done |]. destruct cur' as [|y cur']; [done |].
      destruct (encode [x]); [|done]. injection Hs as <-. simpl. rewrite length_app. simpl.
      split; [by constructor |]. destruct cur'; [|simpl in *; lia].
      apply Forall_cons in HP as [Hy _]. pose proof (pairs y x Hy Hx) as Hp. simpl in E.
      by rewrite E in Hp.
Qed.
End count.

Section total_count.
Context {B : Bencode recordWire} (ps : Z).
Hypothesis Hps : MinPieceSize ≤ ps.

Lemma packInteriorLevel_halves lvl cs ns :
  Forall short_key cs → packInteriorLevel lvl cs ps = Ok ns →
  (2 * length ns ≤ length cs + 1)%nat ∧ Forall short_key ns.
Proof.
  unfold packInteriorLevel. intros Hs H. ok_inv. split.
  - eapply (pack_halves _ _ _ short_key); [|exact Hs | exact H].
    intros x y Hx Hy. apply interior_small; [done | done | simpl; lia | by repeat constructor].
  - apply pack_spec in H as (gs & -> & Hc & HF). eapply mkInterior_short; [|exact Hs].
    exists gs. split; [done |]. split; [exact Hc | exact HF].
Qed.

Lemma build_levels_prefix fuel lvl cur levels levels' :
  build_levels fuel lvl cur levels ps = Ok levels' → ∃ more, levels' = levels ++ more.
Proof.
  revert lvl cur levels. induction fuel as [|fuel IH]; intros lvl cur levels H;
    cbn [build_levels] in H; destruct (len cur <=? 1); try done.
  1, 2: injection H as <-; exists []; by rewrite app_nil_r.
  apply bind_ok_inv in H as (ns & _ & H). apply IH in H as [more ->].
  exists (ns :: more). by rewrite <-app_assoc.
Qed.

Lemma build_levels_count fuel lvl cur levels levels' :
  Forall short_key cur → build_levels fuel lvl cur levels ps = Ok levels' →
  (length (concat levels') ≤ length (concat levels) + 2 * length cur)%nat.
Proof.
  revert lvl cur levels. induction fuel as [|fuel IH]; intros lvl cur levels Hs H;
    cbn [build_levels] in H; destruct (Z.leb_spec (len cur) 1) as [H1|H1]; try done.
  1, 2: injection H as <-; lia.
  apply bind_ok_inv in H as (ns & Hns & H). apply packInteriorLevel_halves in Hns as [Hh Hs']; [|done].
  apply IH in H; [|done]. rewrite concat_app, length_app in H. simpl in H. rewrite app_nil_r in H.
  unfold len in H1. lia.
Qed.

Lemma packLeaves_short sorted leaves :
  packLeaves sorted ps = Ok leaves → Forall encodable sorted → Forall short_key leaves ∧
  (length leaves ≤ length sorted)%nat.
Proof.
  intros Hl He. apply packLeaves_spec in Hl as [(gs & H0 & Hc & HF) _]. injection H0 as ->.
  subst sorted. split.
  - apply Forall_lookup_2. intros i nd Hi. rewrite list_lookup_imap in Hi.
    destruct (gs !! i) as [g|] eqn:Hg; [|done]. injection Hi as <-.
    apply list_elem_of_lookup_2 in Hg. rewrite Forall_forall in HF.
    apply mkLeaf_short; [by apply HF |]. rewrite Forall_forall in *. intros r Hr. apply He.
    apply list_elem_of_concat. by exists g.
  - rewrite length_imap. clear He. induction HF as [|g gs [Hg _] _ IH]; simpl; [lia |].
    rewrite length_app. destruct g; [done | simpl; lia].
Qed.

Lemma all_levels_count sorted leaves levels :
  packLeaves sorted ps = Ok leaves → Forall encodable sorted → sorted ≠ [] →
  all_levels leaves ps = Ok levels → (length (concat levels) ≤ 3 * length sorted)%nat.
Proof.
  intros Hl He Hne H. destruct (packLeaves_short _ _ Hl He) as [Hs Hn].
  unfold all_levels in H. apply bind_ok_inv in H as (lv & Hb & H).
  pose proof (build_levels_count _ _ _ _ _ Hs Hb) as Hc.
  assert (length (concat [leaves]) = length leaves) as E by (simpl; by rewrite app_nil_r).
  rewrite E in Hc. destruct (len lv =? 1) eqn:E1; [|injection H as <-; lia].
  apply bind_ok_inv in H as (root & Hr & H). injection H as <-.
  apply packInteriorLevel_halves in Hr as [Hh _]; [|done].
  rewrite concat_app, length_app. simpl. rewrite app_nil_r.
  (* one level: the loop added nothing *)
  apply Z.eqb_eq in E1. destruct lv as [|ns [|]]; [done | | unfold len in E1; simpl in E1; lia].
  simpl in *. rewrite app_nil_r in *.
  pose proof (build_levels_prefix _ _ _ _ _ Hb) as [more Hm].
  injection Hm as -> _. destruct sorted; [done | simpl in *; lia].
Qed.
End total_count.

(** ** The layout of a built tree *)

Lemma EncodeLeaf_level {B : Bencode recordWire} l l' rs ps :
  is_ok (EncodeLeaf l rs ps) = is_ok (EncodeLeaf l' rs ps).
Proof.
  unfold EncodeLeaf. repeat case_match; try done.
  destruct (map_result EncodeRecord rs) as [encs|]; [|done]. rewrite !bind_ok.
  by repeat case_match.
Qed.

Lemma len_enc_child_sep c c' : Separator c = Separator c' → len (enc_child c) = len (enc_child c').
Proof. intros E. unfold enc_child. rewrite E, !len_app, !len_put_le. done. Qed.

Lemma interior_bytes_sep cs cs' :
  Separator <$> cs = Separator <$> cs' → interior_bytes cs = interior_bytes cs'.
Proof.
  intros E. unfold interior_bytes.
  assert (Separator <$> first_unbounded cs = Separator <$> first_unbounded cs') as E'.
  { destruct cs, cs'; simpl in *; try done. injection E as _ E. by f_equal. }
  revert E'. generalize (first_unbounded cs) as l, (first_unbounded cs') as l'. clear.
  induction l as [|c l IH]; intros [|c' l'] E; simpl in *; try done.
  injection E as Ec E. rewrite !len_app. f_equal; [by apply len_enc_child_sep | by apply IH].
Qed.

Lemma EncodeInterior_sep k k' l l' cs cs' ps :
  Separator <$> cs = Separator <$> cs' →
  (k = PageKindInterior ∨ k = PageKindRoot) → (k' = PageKindInterior ∨ k' = PageKindRoot) →
  is_ok (EncodeInterior k l cs ps) = is_ok (EncodeInterior k' l' cs' ps).
Proof.
  intros E Hk Hk'. unfold EncodeInterior. rewrite !concat_encode_child.
  assert (∀ k, k = PageKindInterior ∨ k = PageKindRoot →
    (k =? PageKindInterior) || (k =? PageKindRoot) = true) as Hkk by (by intros ? [-> | ->]).
  rewrite !Hkk by done. rewrite !len_app, !len_put_le.
  fold (interior_bytes cs) (interior_bytes cs'). rewrite (interior_bytes_sep cs cs' E).
  assert (len cs = len cs') as ->.
  { unfold len. rewrite <-(length_fmap Separator cs), E, length_fmap. done. }
  by repeat case_match.
Qed.

Section layout.
Context {B : Bencode recordWire} {Ed : Ed25519}.

Record layout (sorted : list Record) (ps : Z) (levels : list (list node)) (m : pieces)
    (pages : list bytes) : Prop := {
  lay_levels : levels_ok ps sorted levels;
  lay_root : ∃ nd, last levels = Some [nd];
  lay_height : (2 ≤ length levels)%nat;
  lay_piece : ∀ k nd, order levels !! k = Some nd → piece m nd = Z.of_nat k;
  lay_length : length pages = length (order levels);
  lay_small : len (order levels) + 1 < 2 ^ 32;
  lay_pages : ∀ k nd, order levels !! k = Some nd → ∃ page,
    encode_node m (length levels - 1) (addr nd).1 nd ps = Ok page ∧ pages !! k = Some page
}.

Lemma levels_addressed ps sorted levels : levels_ok ps sorted levels → addressed 0 levels.
Proof. intros Hok l ns i nd Hl Hi. by eapply addr_level. Qed.

(** The assignment of pieces follows [order]. *)
Lemma assign_pieces_spec ps sorted levels :
  levels_ok ps sorted levels → len (order levels) < 2 ^ 32 →
  (assign_pieces levels).2 = len (order levels) ∧
  ∀ k nd, order levels !! k = Some nd → piece (assign_pieces levels).1 nd = Z.of_nat k.
Proof.
  intros Hok Hlt. unfold assign_pieces. rewrite foldl_concat. fold (order levels).
  destruct (assign_order (order levels) 0 ∅) as (H1 & H2 & _); [lia | lia | |].
  - rewrite order_perm. by apply (NoDup_addrs 0), (levels_addressed ps sorted).
  - split; [rewrite H1; lia |]. intros k nd Hk. unfold piece. by rewrite (H2 k nd Hk).
Qed.

Lemma emit_layout ps sorted levels m pages pages' :
  levels_ok ps sorted levels → (∃ nd, last levels = Some [nd]) → (2 ≤ length levels)%nat →
  len (order levels) + 1 < 2 ^ 32 →
  (∀ k nd, order levels !! k = Some nd → piece m nd = Z.of_nat k) →
  length pages = length (order levels) →
  emit_pages m levels ps pages = Ok pages' → layout sorted ps levels m pages'.
Proof.
  intros Hok Hr H2 Hlt Hp Hlen He.
  rewrite emit_pages_order in He by (by apply (levels_addressed ps sorted)).
  apply emit_order in He as [Hl Hpages]; [|done | lia].
  split; try done. by rewrite Hl.
Qed.

(** Every node of the levels encodes, whatever the piece numbers. *)
Lemma encode_node_total ps sorted levels m top nd l ns i :
  levels_ok ps sorted levels → levels !! l = Some ns → ns !! i = Some nd →
  is_ok (encode_node m top l nd ps) = true.
Proof.
  intros [(gs & H0 & Hc & HF) Ho] Hl Hi. unfold encode_node. destruct l as [|l].
  - rewrite H0 in Hl. injection Hl as <-. rewrite list_lookup_imap in Hi.
    destruct (gs !! i) as [g|] eqn:Hg; [|done]. injection Hi as <-. simpl.
    apply list_elem_of_lookup_2 in Hg. rewrite Forall_forall in HF. apply (HF g Hg).
  - destruct (levels !! l) as [cs|] eqn:Hcs.
    2: { apply lookup_ge_None in Hcs. apply lookup_lt_Some in Hl. lia. }
    destruct (Ho l cs ns Hcs Hl) as (gs' & -> & _ & HF').
    rewrite list_lookup_imap in Hi. destruct (gs' !! i) as [g|] eqn:Hg; [|done].
    injection Hi as <-. apply list_elem_of_lookup_2 in Hg. rewrite Forall_forall in HF'.
    destruct (HF' g Hg) as [Hne Hfit].
    assert (isLeaf (mkInterior (S l) i g) = false) as -> by (by destruct g).
    rewrite <-Hfit. unfold interior_fits. apply EncodeInterior_sep.
    + unfold interiorChildrenOf, interiorChildrenOfSlice. simpl.
      by rewrite <-!list_fmap_compose.
    + case_match; auto.
    + by left.
Qed.

Lemma emit_total ps sorted levels m pages :
  levels_ok ps sorted levels → is_ok (emit_pages m levels ps pages) = true.
Proof.
  intros Hok. pose proof (levels_addressed _ _ _ Hok) as Ha.
  rewrite emit_pages_order by done. apply emit_order_total.
  rewrite order_perm. apply Forall_forall. intros nd Hnd.
  apply list_elem_of_concat in Hnd as (ns & Hns & Hnd).
  apply list_elem_of_lookup in Hns as [l Hl]. apply list_elem_of_lookup in Hnd as [i Hi].
  rewrite (Ha l ns i nd Hl Hi). by eapply encode_node_total.
Qed.

Lemma sort_records_perm rs : sort_records rs ≡ₚ rs.
Proof. apply merge_sort_Permutation. Qed.

Lemma encodable_map rs : Forall encodable rs ↔ is_ok (map_result EncodeRecord rs) = true.
Proof.
  split.
  - intros H. by destruct (encodable_encs rs H) as (encs & -> & _).
  - induction rs as [|r rs IH]; [done |]. simpl. unfold encodable.
    destruct (EncodeRecord r) as [b|] eqn:E; [|done]. rewrite bind_ok.
    destruct (map_result EncodeRecord rs); [|done]. intros _. constructor; [by rewrite E | by apply IH].
Qed.

(** What a successful build has done. *)
Lemma BuildBTree_inv now inp built :
  BuildBTree now inp = Ok built → len (inRecords inp) ≤ 2 ^ 30 →
  let sorted := sort_records (inRecords inp) in let ps := inPieceSize inp in
  MinPieceSize ≤ ps ≤ MaxPieceSize ∧ inRecords inp ≠ [] ∧ Forall encodable (inRecords inp) ∧
  ∃ levels m pages fp trailerPage,
    layout sorted ps levels m pages ∧ fingerprintSorted sorted = Ok fp ∧
    EncodeTrailer (make_trailer inp now (len pages) (len sorted) fp) ps = Ok trailerPage ∧
    built = mkBuilt (concat pages ++ trailerPage) (len pages + 1) (len sorted) ps fp.
Proof.
  intros H Hn sorted ps. unfold BuildBTree in H. fold sorted ps in H.
  ok_inv. b2p. rename a0 into leaves, a1 into levels.
  assert (Hne : inRecords inp ≠ []) by (by intros E'; rewrite E' in *).
  destruct (assign_pieces levels) as [m np] eqn:Ea. ok_inv.
  rename a0 into fp, a1 into pages, a2 into trailerPage.
  pose proof (sort_records_perm (inRecords inp)) as Hperm. fold sorted in Hperm.
  assert (Hsne : sorted ≠ []) by (intros E'; rewrite E' in Hperm; by apply Permutation_nil in Hperm).
  assert (He : Forall encodable sorted).
  { unfold fingerprintSorted in E2. ok_inv. apply encodable_map. by rewrite E5. }
  assert (Hslen : len sorted = len (inRecords inp)) by (unfold len; by rewrite Hperm).
  destruct (all_levels_spec ps sorted leaves levels E0 Hsne E1) as (Hok & Hroot & Hh).
  pose proof (all_levels_count ps ltac:(lia) sorted leaves levels E0 He Hsne E1) as Hcount.
  assert (Hord : length (order levels) = length (concat levels)) by (by rewrite order_perm).
  assert (Hlt : len (order levels) + 1 < 2 ^ 32) by (unfold len in *; lia).
  destruct (assign_pieces_spec ps sorted levels Hok ltac:(lia)) as [Hnp Hpiece].
  rewrite Ea in Hnp, Hpiece. simpl in Hnp, Hpiece. subst np.
  assert (Hrep : length (replicate (Z.to_nat (len (order levels))) (@nil byte)) =
    length (order levels)) by (rewrite length_replicate; unfold len; by rewrite Nat2Z.id).
  pose proof (emit_layout ps sorted levels m _ pages Hok Hroot Hh Hlt Hpiece Hrep E3) as Hlay.
  assert (Hlp : len pages = len (order levels)) by (unfold len; by rewrite (lay_length _ _ _ _ _ Hlay)).
  split; [lia |]. split; [done |]. split; [by rewrite <-Hperm |].
  exists levels, m, pages, fp, trailerPage. rewrite Hlp. done.
Qed.

End layout.

(** ** When a build succeeds *)

Section success.
Context {B : Bencode recordWire} {Ed : Ed25519}.

Lemma encode_node_len m top l nd ps page : encode_node m top l nd ps = Ok page → len page = ps.
Proof.
  unfold encode_node. destruct (isLeaf nd); intros H.
  - apply EncodeLeaf_inv in H as (encs & _ & _ & _ & _ & Hp & ->). by apply len_make_page.
  - apply EncodeInterior_inv in H as (_ & _ & _ & _ & Hp & ->). by apply len_make_page.
Qed.

Lemma EncodeTrailer_len t ps page : EncodeTrailer t ps = Ok page → len page = ps.
Proof.
  intros E. pose proof (f_equal is_ok E) as Hok. unfold EncodeTrailer in *.
  destruct (Z.leb_spec (PageHeaderSize + TrailerPayloadSize) ps) as [Hps|]; [|done].
  destruct (Version t =? TrailerVersion); [|done].
  assert (page = make_page (mkHeader PageKindTrailer 0 TrailerPayloadSize)
    (encodeTrailerFields t ++ sl (PublisherSig t)) ps) as -> by congruence.
  apply len_make_page.
  assert (len (encodeTrailerFields t ++ sl (PublisherSig t)) = TrailerPayloadSize) as ->; [|done].
  unfold len. by rewrite length_app, length_encodeTrailerFields, length_sl.
Qed.

Lemma layout_page_len sorted ps levels m pages :
  layout sorted ps levels m pages → Forall (λ p, len p = ps) pages.
Proof.
  intros Hlay. apply Forall_lookup_2. intros k p Hk.
  destruct (order levels !! k) as [nd|] eqn:Hnd.
  - destruct (lay_pages _ _ _ _ _ Hlay k nd Hnd) as (page & He & Hp).
    rewrite Hk in Hp. injection Hp as ->. by eapply encode_node_len.
  - apply lookup_ge_None in Hnd. apply lookup_lt_Some in Hk.
    rewrite (lay_length _ _ _ _ _ Hlay) in Hk. lia.
Qed.

Lemma len_concat_pages ps pages :
  Forall (λ p : bytes, len p = ps) pages → len (concat pages) = len pages * ps.
Proof.
  induction 1 as [|p pages Hp _ IH]; [done |]. cbn [concat]. rewrite len_app, len_cons. lia.
Qed.

Lemma keyword_guards rs :
  Forall encodable rs → ∃ us, map_result keyword_guard rs = Ok us.
Proof.
  induction 1 as [|r rs Hr _ (us & Hus)]; [by exists [] |].
  unfold encodable in Hr. destruct (EncodeRecord r) as [b|] eqn:E; [|done].
  apply EncodeRecord_inv in E as (Hk & _ & _).
  assert (Hg : keyword_guard r = Ok ()).
  { unfold keyword_guard. destruct (Z.eqb_spec (len (Kw r)) 0); [lia |].
    by destruct (Z.leb_spec (len (Kw r)) MaxKeywordBytes); [|lia]. }
  simpl. rewrite Hg, Hus. by eexists.
Qed.

Lemma make_trailer_version inp now np n fp : Version (make_trailer inp now np n fp) = TrailerVersion.
Proof. unfold make_trailer. by destruct (inPrivKey inp). Qed.

Lemma BuildBTree_ok now inp :
  MinPieceSize ≤ inPieceSize inp ≤ SafePieceSize →
  inRecords inp ≠ [] → Forall encodable (inRecords inp) → is_ok (BuildBTree now inp) = true.
Proof.
  intros Hps Hne He. unfold BuildBTree.
  assert (Hmax : inPieceSize inp ≤ MaxPieceSize)
    by (unfold SafePieceSize, MaxPieceSize in *; lia).
  destruct (Z.ltb_spec (inPieceSize inp) MinPieceSize); [lia |].
  destruct (Z.ltb_spec MaxPieceSize (inPieceSize inp)); [lia |]. cbn [orb negb].
  pose proof (len_pos _ Hne). destruct (Z.eqb_spec (len (inRecords inp)) 0); [lia |]. cbn [negb].
  destruct (keyword_guards _ He) as [us ->]. rewrite bind_ok.
  pose proof (sort_records_perm (inRecords inp)) as Hperm.
  set (sorted := sort_records (inRecords inp)) in *.
  assert (Hes : Forall encodable sorted) by (by rewrite Hperm).
  assert (Hsne : sorted ≠ []) by (intros E'; rewrite E' in Hperm; by apply Permutation_nil in Hperm).
  destruct (all_levels_total sorted (inPieceSize inp) Hps Hsne Hes) as (leaves & levels & Hl & Hlv).
  rewrite Hl, bind_ok, Hlv, bind_ok.
  destruct (assign_pieces levels) as [m np]. unfold fingerprintSorted.
  destruct (encodable_encs sorted Hes) as (encs & -> & _). rewrite !bind_ok.
  destruct (all_levels_spec _ _ _ _ Hl Hsne Hlv) as (Hok & _).
  pose proof (emit_total _ _ _ m (replicate (Z.to_nat np) []) Hok) as Hem.
  destruct (emit_pages _ _ _ _) as [pages|]; [|done]. rewrite bind_ok.
  unfold EncodeTrailer. rewrite make_trailer_version.
  destruct (Z.leb_spec (PageHeaderSize + TrailerPayloadSize) (inPieceSize inp)); [done |].
  unfold PageHeaderSize, TrailerPayloadSize, MinPieceSize in *. lia.
Qed.

Lemma pack_err {A} (encode : list A → result error bytes) close e l err :
  pack encode close e l = Err err → err = e ∨ ∃ g, encode g = Err err.
Proof.
  unfold pack. generalize (@nil node, @nil A) as st. induction l as [|x l IH]; intros [out cur] H.
  - simpl in H. by destruct cur.
  - cbn [fold_result] in H. destruct (pack_step encode close e (out, cur) x) as [st|e'] eqn:E;
      [rewrite bind_ok in H; by apply (IH st) |].
    simpl in H. injection H as ->. unfold pack_step in E.
    destruct (encode (cur ++ [x])) as [pg|e'] eqn:E1; [done |].
    destruct (negb _); [injection E as ->; right; by eexists |].
    destruct cur; [injection E as ->; by left |].
    destruct (encode [x]); [done |]. injection E as ->. by left.
Qed.

Lemma EncodeRecord_fuel r : EncodeRecord r ≠ Err ErrFuel.
Proof. unfold EncodeRecord. by repeat case_match. Qed.

Lemma EncodeLeaf_fuel l rs ps : EncodeLeaf l rs ps ≠ Err ErrFuel.
Proof.
  unfold EncodeLeaf. repeat case_match; try done.
  assert (Hm : map_result EncodeRecord rs ≠ Err ErrFuel).
  { clear. induction rs as [|r rs IH]; [done |]. simpl. pose proof (EncodeRecord_fuel r).
    destruct (EncodeRecord r); [rewrite bind_ok | simpl; congruence].
    destruct (map_result EncodeRecord rs); [done | simpl; congruence]. }
  destruct (map_result EncodeRecord rs); [rewrite bind_ok | simpl; congruence].
  by repeat case_match.
Qed.

Lemma packLeaves_encodable rs ps leaves : packLeaves rs ps = Ok leaves → Forall encodable rs.
Proof.
  intros H. apply pack_spec in H as (gs & _ & <- & HF).
  induction HF as [|g gs [_ Hg] _ IH]; simpl; [done |]. apply Forall_app. split; [|done].
  destruct (EncodeLeaf 0 g ps) as [p|] eqn:E; [|done].
  apply EncodeLeaf_inv in E as (encs & He & _). apply encodable_map. by rewrite He.
Qed.

Lemma BuildBTree_fuel now inp :
  MinPieceSize ≤ inPieceSize inp ≤ SafePieceSize → BuildBTree now inp ≠ Err ErrFuel.
Proof.
  intros Hps Hb. pose proof Hb as Hb0. unfold BuildBTree in Hb.
  destruct (negb _) eqn:?; [|done]. destruct (negb (len (inRecords inp) =? 0)) eqn:Hn; [|done].
  assert (Hg : map_result keyword_guard (inRecords inp) ≠ Err ErrFuel).
  { clear. induction (inRecords inp) as [|r rs IH]; [done |]. simpl.
    assert (Hr : keyword_guard r ≠ Err ErrFuel) by (unfold keyword_guard; by repeat case_match).
    destruct (keyword_guard r); [rewrite bind_ok | simpl; congruence].
    destruct (map_result _ rs); [done | simpl; congruence]. }
  destruct (map_result keyword_guard (inRecords inp)); [|simpl in Hb; congruence].
  rewrite bind_ok in Hb. pose proof (sort_records_perm (inRecords inp)) as Hperm.
  destruct (packLeaves (sort_records (inRecords inp)) (inPieceSize inp)) as [leaves|e] eqn:Hl.
  - apply packLeaves_encodable in Hl. rewrite Hperm in Hl.
    assert (Hne : inRecords inp ≠ []) by (by intros E; rewrite E in Hn).
    pose proof (BuildBTree_ok now inp Hps Hne Hl) as Hok. by rewrite Hb0 in Hok.
  - apply pack_err in Hl as [-> |[g Hg']]; simpl in Hb; [done |]. injection Hb as ->.
    by apply EncodeLeaf_fuel in Hg'.
Qed.

Lemma layout_three sorted ps levels m pages :
  layout sorted ps levels m pages → sorted ≠ [] → 2 ≤ len pages.
Proof.
  intros [[(gs & H0 & Hc & _) _] [nd Hr] Hh _ Hl _ _] Hne. unfold len.
  rewrite Hl, order_perm. apply last_Some in Hr as [front ->].
  rewrite length_app in Hh. simpl in Hh. destruct front as [|l0 front]; [simpl in Hh; lia |].
  injection H0 as ->. simpl. rewrite concat_app, !length_app, length_imap. simpl.
  destruct gs; [done | simpl; lia].
Qed.

Lemma BuildBTree_large_pages now inp :
  65551 ≤ inPieceSize inp → Forall encodable (inRecords inp) →
  65533 < leaf_bytes (sort_records (inRecords inp)) →
  is_ok (BuildBTree now inp) = false.
Proof.
  intros Hps He Hbig.
  destruct (BuildBTree now inp) as [built|] eqn:Hb; [exfalso | done].
  unfold BuildBTree in Hb. ok_inv. clear - E0 Hps He Hbig.
  pose proof (sort_records_perm (inRecords inp)) as Hperm. rewrite <-Hperm in He.
  set (sorted := sort_records (inRecords inp)) in *. unfold packLeaves, pack in E0.
  apply bind_ok_inv in E0 as ([out cur] & Hf & _).
  assert (Hst : (out, cur) = ([], sorted) ∧ (sorted ≠ [] → is_ok (EncodeLeaf 0 sorted (inPieceSize inp)) = true)).
  { revert He. apply (fold_result_inv (pack_step (λ rs, EncodeLeaf 0 rs (inPieceSize inp)) mkLeaf
      ErrRecordTooLargeForPage) (λ k st, Forall encodable k → st = ([], k) ∧
        (k ≠ [] → is_ok (EncodeLeaf 0 k (inPieceSize inp)) = true)) ([], []) sorted (out, cur));
      [done | | exact Hf].
    intros k x st st' IH Hs Hk. pose proof Hk as Hk'. apply Forall_app in Hk' as [Hk' _].
    destruct (IH Hk') as [-> _]. unfold pack_step in Hs.
    pose proof (EncodeLeaf_cases 0 (k ++ [x]) (inPieceSize inp) ltac:(by destruct k) Hk) as Hc.
    destruct (EncodeLeaf 0 (k ++ [x]) (inPieceSize inp)) as [pg|e] eqn:E;
      [injection Hs as <-; by split |].
    assert (Hno : e ≠ ErrPageOverflow).
    { destruct (Z.ltb_spec 65535 (2 + leaf_bytes (k ++ [x]))); [destruct Hc; congruence |].
      destruct (Z.ltb_spec (inPieceSize inp) (18 + leaf_bytes (k ++ [x]))); [lia | done]. }
    by rewrite bool_decide_eq_false_2 in Hs. }
  destruct Hst as [_ Hok]. assert (Hne : sorted ≠ []) by (intros E; rewrite E in Hbig; done).
  pose proof (EncodeLeaf_cases 0 sorted (inPieceSize inp) Hne He) as Hc.
  destruct (Z.ltb_spec 65535 (2 + leaf_bytes sorted)); [|lia].
  destruct Hc as [Hc _]. rewrite Hok in Hc; done.
Qed.

(** [C5] When building succeeds.  For every piece size from 16 KiB up to 65293
    bytes and up to [2 ^ 30] records, the build ends (no loop of it runs out of
    fuel) and succeeds exactly when there is a record and every record encodes;
    the file is one piece per page, trailer included.  With a piece size of 65551
    bytes or more, which the guard also admits, the 16-bit limit of a payload is
    met before the page is full, [EncodeLeaf] reports it with an error that is
    not [ErrPageOverflow], and the build fails as soon as the records do not fit
    one leaf. *)
Theorem BuildBTree_total (now : Z) (inp : BuildInput) :
  (MinPieceSize ≤ inPieceSize inp ≤ SafePieceSize → len (inRecords inp) ≤ 2 ^ 30 →
   (inRecords inp ≠ [] ∧ Forall encodable (inRecords inp) ↔
      is_ok (BuildBTree now inp) = true) ∧
   BuildBTree now inp ≠ Err ErrFuel ∧
   ∀ built, BuildBTree now inp = Ok built →
     outNumRecords built = len (inRecords inp) ∧ 3 ≤ outNumPages built ∧
     len (outBytes built) = outNumPages built * outPieceSize built) ∧
  (65551 ≤ inPieceSize inp → Forall encodable (inRecords inp) →
   65533 < leaf_bytes (sort_records (inRecords inp)) →
   is_ok (BuildBTree now inp) = false).
Proof.
  split; [intros Hps Hn | by apply BuildBTree_large_pages].
  split; [|split; [by apply BuildBTree_fuel |]].
  - split; [intros [? ?]; by apply BuildBTree_ok |].
    destruct (BuildBTree now inp) as [built|] eqn:Hb; [|done]. intros _.
    by apply BuildBTree_inv in Hb as (_ & ? & ? & _).
  - intros built Hb.
    apply BuildBTree_inv in Hb as (_ & Hne & _ & lv & m & pages & fp & tp & Hlay & _ & Htr & ->);
      [|done]. cbn [outNumRecords outNumPages outBytes outPieceSize].
    pose proof (sort_records_perm (inRecords inp)) as Hperm.
    split; [unfold len; by rewrite Hperm |]. split.
    + apply layout_three in Hlay; [lia |]. intros E. rewrite E in Hperm.
      by apply Permutation_nil in Hperm.
    + rewrite len_app, (len_concat_pages (inPieceSize inp)) by (by eapply layout_page_len).
      rewrite (EncodeTrailer_len _ _ _ Htr). lia.
Qed.

End success.

End SnaggBuild.
