(* ===== verification/SnaggFind.v ===== *)
(** * Reading back a built tree

    The composition of the builder and the reader: a tree that [BuildBTree]
    signed opens, its fingerprint verifies, and [Find] returns exactly the
    records of the input that match, in key order. *)

From S2P Require Import Prelude GoInt Sha256 Externals Instances Record Snagg SnaggTree.
From S2P Require Import SnaggRead SnaggBuild.
Open Scope Z_scope.

Module SnaggFind.
Import Record.Record Snagg SnaggTree SnaggRead SnaggBuild.

(** ** Prefix ranges *)

Lemma bytes_lt_snoc q x y a b : b2z x < b2z y → bytes_lt (q ++ x :: a) (q ++ y :: b).
Proof.
  intros Hxy. unfold bytes_lt. rewrite bytes_compare_app. simpl.
  by rewrite (proj2 (Z.compare_lt_iff _ _) Hxy).
Qed.

Lemma nextPrefix_go_spec rev k :
  nextPrefix_go rev ≠ [] → bytes_lt (reverse rev ++ k) (nextPrefix_go rev).
Proof.
  revert k. induction rev as [|b rev IH]; intros k Hne; [done |]. simpl in *.
  rewrite reverse_cons, <-app_assoc. destruct (Z.ltb_spec (b2z b) 255) as [Hb|].
  - rewrite reverse_cons. simpl. apply bytes_lt_snoc.
    pose proof (b2z_range b). rewrite b2z_z2b_small; lia.
  - by apply IH.
Qed.

Lemma nextPrefix_upper p k : nextPrefix p ≠ [] → bytes_lt (p ++ k) (nextPrefix p).
Proof.
  intros H. unfold nextPrefix in *. apply (nextPrefix_go_spec _ k) in H.
  by rewrite reverse_involutive in H.
Qed.

Definition matching (p : bytes) (rs : list Record) : list Record :=
  List.filter (λ r, has_prefix (Kw r) p) rs.

Lemma matching_app p a b : matching p (a ++ b) = matching p a ++ matching p b.
Proof. apply List.filter_app. Qed.

Lemma matching_nil p rs : (∀ r, r ∈ rs → has_prefix (Kw r) p = false) → matching p rs = [].
Proof.
  induction rs as [|r rs IH]; intros H; [done |]. unfold matching in *. simpl.
  rewrite H by (by left). apply IH. intros x Hx. apply H. by right.
Qed.

(** The key of a record with a prefix lies strictly between the bounds. *)
Lemma key_range p r :
  has_prefix (Kw r) p = true →
  bytes_lt p (RecordKey r) ∧ (nextPrefix p ≠ [] → bytes_lt (RecordKey r) (nextPrefix p)).
Proof.
  intros [k Hk]%has_prefix_spec. unfold RecordKey. rewrite Hk, <-!app_assoc. split.
  - destruct k as [|x k]; apply bytes_lt_app.
  - apply nextPrefix_upper.
Qed.

(** A subtree whose range misses the prefix holds no match. *)
Lemma skip_sound p lower upper rs :
  (lower ≠ [] → ∀ r, r ∈ rs → bytes_le lower (RecordKey r)) →
  (upper ≠ [] → ∀ r, r ∈ rs → bytes_le (RecordKey r) upper) →
  rangeOverlapsPrefix lower upper p (nextPrefix p) = false → matching p rs = [].
Proof.
  intros Hlo Hup H. apply matching_nil. intros r Hr.
  destruct (has_prefix (Kw r) p) eqn:Hp; [exfalso | done].
  apply key_range in Hp as [H1 H2]. unfold rangeOverlapsPrefix in H.
  destruct (negb (is_nil upper) && bool_decide (bytes_le upper p)) eqn:E.
  - b2p. assert (upper ≠ []) as Hne by (by intros ->). specialize (Hup Hne r Hr).
    apply (bytes_lt_irrefl p). eapply bytes_lt_le_trans; [exact H1 |]. by etrans.
  - destruct (negb (is_nil (nextPrefix p)) && negb (is_nil lower) &&
      bool_decide (bytes_le (nextPrefix p) lower)) eqn:E2; [|done]. b2p.
    assert (lower ≠ []) as Hne by (by intros ->).
    assert (nextPrefix p ≠ []) as Hn by (by intros Hn; rewrite Hn in *).
    specialize (Hlo Hne r Hr). specialize (H2 Hn).
    apply (bytes_lt_irrefl (RecordKey r)). eapply bytes_lt_le_trans; [exact H2 |]. by etrans.
Qed.

(** ** The nodes under a node *)

Fixpoint leaves_of (n : node) : list node :=
  match n with Node _ _ cs _ => match cs with [] => [n] | _ => concat (map leaves_of cs) end end.
Definition under (n : node) : list Record := concat (records <$> leaves_of n).
Fixpoint desc (n : node) : list (nat * nat) :=
  match n with Node a _ cs _ => a :: concat (map desc cs) end.

Lemma leaves_of_leaf i rs : leaves_of (mkLeaf i rs) = [mkLeaf i rs].
Proof. done. Qed.
Lemma leaves_of_interior l i g :
  g ≠ [] → leaves_of (mkInterior l i g) = concat (leaves_of <$> g).
Proof. by destruct g. Qed.
Lemma under_leaf i rs : under (mkLeaf i rs) = rs.
Proof. unfold under. simpl. by rewrite app_nil_r. Qed.
Lemma under_interior l i g : g ≠ [] → under (mkInterior l i g) = concat (under <$> g).
Proof.
  intros Hg. unfold under at 1. rewrite leaves_of_interior by done. clear.
  induction g as [|c g IH]; [done |]. cbn [fmap list_fmap concat].
  by rewrite fmap_app, concat_app, IH.
Qed.

Section levels.
Context {B : Bencode recordWire} (ps : Z) (sorted : list Record) (levels : list (list node)).
Hypothesis Hok : levels_ok ps sorted levels.

(** Nodes of level [S l] are interior nodes over consecutive nodes of level [l]. *)
Lemma level_cases l ns :
  levels !! l = Some ns →
  match l with
  | O => ∃ gs, ns = imap mkLeaf gs ∧ concat gs = sorted ∧ Forall (λ g, g ≠ []) gs
  | S l' => ∃ cs gs, levels !! l' = Some cs ∧ ns = imap (mkInterior l) gs ∧ concat gs = cs ∧
      Forall (λ g, g ≠ []) gs
  end.
Proof.
  destruct Hok as [(gs & H0 & Hc & HF) Ho]. destruct l as [|l]; intros Hl.
  - rewrite H0 in Hl. injection Hl as <-. exists gs. split; [done |]. split; [done |].
    eapply Forall_impl; [exact HF |]. by intros g [? _].
  - destruct (levels !! l) as [cs|] eqn:Hcs.
    2: { apply lookup_ge_None in Hcs. apply lookup_lt_Some in Hl. lia. }
    destruct (Ho l cs ns Hcs Hl) as (gs' & -> & Hc' & HF'). exists cs, gs'.
    split; [done |]. split; [done |]. split; [done |].
    eapply Forall_impl; [exact HF' |]. by intros g [? _].
Qed.

Lemma fmap_imap_concat {A C D} (f : C → list D) (g : nat → A → C) (h : A → list D) l :
  (∀ i x, x ∈ l → f (g i x) = h x) → concat (f <$> imap g l) = concat (h <$> l).
Proof.
  intros H. rewrite fmap_imap. f_equal. rewrite <-(imap_const h).
  apply imap_ext. intros i x Hx. apply H. by eapply list_elem_of_lookup_2.
Qed.

Lemma concat_concat_fmap {A C} (f : A → list C) (gs : list (list A)) :
  concat ((λ g, concat (f <$> g)) <$> gs) = concat (f <$> concat gs).
Proof.
  induction gs as [|g gs IH]; [done |]. cbn [fmap list_fmap concat].
  by rewrite fmap_app, concat_app, IH.
Qed.

Lemma level_under l ns : levels !! l = Some ns → concat (under <$> ns) = sorted.
Proof.
  revert ns. induction l as [|l IH]; intros ns Hl; pose proof (level_cases _ _ Hl) as Hc.
  - destruct Hc as (gs & -> & <- & HF).
    rewrite (fmap_imap_concat under mkLeaf id) by (intros; apply under_leaf).
    by rewrite list_fmap_id.
  - destruct Hc as (cs & gs & Hcs & -> & Hg & HF). rewrite Forall_forall in HF.
    rewrite (fmap_imap_concat under _ (λ g, concat (under <$> g)))
      by (intros i g Hin; by apply under_interior, HF).
    rewrite concat_concat_fmap, Hg. by apply IH.
Qed.

Lemma level_leaves l ns ls :
  levels !! l = Some ns → levels !! 0%nat = Some ls → concat (leaves_of <$> ns) = ls.
Proof.
  revert ns. induction l as [|l IH]; intros ns Hl H0; pose proof (level_cases _ _ Hl) as Hc.
  - rewrite Hl in H0. injection H0 as ->. destruct Hc as (gs & -> & _ & _).
    assert (Hleaf : ∀ nd, nd ∈ imap mkLeaf gs → leaves_of nd = [nd]).
    { intros nd Hin. apply list_elem_of_lookup in Hin as [i Hi].
      rewrite list_lookup_imap in Hi. destruct (gs !! i); [|done]. by injection Hi as <-. }
    revert Hleaf. clear. induction (imap mkLeaf gs) as [|nd l IH]; intros Hleaf; [done |].
    cbn [fmap list_fmap concat]. rewrite Hleaf by (by left). simpl. f_equal. apply IH.
    intros x Hx. apply Hleaf. by right.
  - destruct Hc as (cs & gs & Hcs & -> & Hg & HF). rewrite Forall_forall in HF.
    rewrite (fmap_imap_concat leaves_of _ (λ g, concat (leaves_of <$> g)))
      by (intros i g Hin; by apply leaves_of_interior, HF).
    rewrite concat_concat_fmap, Hg. by apply IH.
Qed.

Lemma level_desc l ns :
  levels !! l = Some ns → concat (desc <$> ns) ≡ₚ addr <$> concat (take (S l) levels).
Proof.
  revert ns. induction l as [|l IH]; intros ns Hl; pose proof (level_cases _ _ Hl) as Hc.
  - destruct levels as [|l0 rest]; [done |]. injection Hl as ->. simpl.
    rewrite app_nil_r. destruct Hc as (gs & -> & _ & _).
    assert (Hleaf : ∀ nd, nd ∈ imap mkLeaf gs → desc nd = [addr nd]).
    { intros nd Hin. apply list_elem_of_lookup in Hin as [i Hi].
      rewrite list_lookup_imap in Hi. destruct (gs !! i); [|done]. by injection Hi as <-. }
    revert Hleaf. clear. induction (imap mkLeaf gs) as [|nd l IH]; intros Hleaf; [done |].
    cbn [fmap list_fmap concat]. rewrite Hleaf by (by left). simpl. f_equiv. apply IH.
    intros x Hx. apply Hleaf. by right.
  - destruct Hc as (cs & gs & Hcs & Hns & Hg & HF).
    rewrite (take_S_r _ _ _ Hl), concat_app, fmap_app. simpl. rewrite app_nil_r.
    rewrite <-(IH cs Hcs), <-Hg, <-concat_concat_fmap. rewrite Hns. clear.
    enough (Hgen : ∀ b, concat (desc <$> imap (λ i, mkInterior (S l) (b + i)) gs) ≡ₚ
      concat ((λ g, concat (desc <$> g)) <$> gs) ++ (addr <$> imap (λ i, mkInterior (S l) (b + i)) gs))
      by apply (Hgen 0%nat).
    induction gs as [|g gs IH]; intros b; [done |].
    cbn [imap fmap list_fmap concat].
    rewrite (imap_ext _ (λ i, mkInterior (S l) (S b + i))) by (intros; simpl; f_equal; lia).
    rewrite IH. simpl. solve_Permutation.
Qed.

End levels.

(** ** Positions *)

(** Where level [l] starts in the piece order: behind the levels above it. *)
Definition offset (levels : list (list node)) (l : nat) : nat :=
  length (concat (drop (S l) levels)).

Lemma order_lookup levels l ns i nd :
  levels !! l = Some ns → ns !! i = Some nd → order levels !! (offset levels l + i)%nat = Some nd.
Proof.
  intros Hl Hi. unfold order, offset.
  assert (Hr : reverse levels = reverse (drop (S l) levels) ++ [ns] ++ reverse (take l levels)).
  { rewrite <-(take_drop_middle levels l ns Hl) at 1.
    by rewrite reverse_app, reverse_cons, <-app_assoc. }
  rewrite Hr, concat_app. cbn [app concat].
  assert (Hlen : length (concat (reverse (drop (S l) levels))) = length (concat (drop (S l) levels))).
  { pose proof (order_perm (drop (S l) levels)) as Hp. unfold order in Hp. by rewrite Hp. }
  rewrite lookup_app_r by lia. rewrite Hlen.
  replace (length (concat (drop (S l) levels)) + i - length (concat (drop (S l) levels)))%nat
    with i by lia.
  rewrite lookup_app_l; [done |]. by eapply lookup_lt_Some.
Qed.

Lemma offset_S levels l ns :
  levels !! S l = Some ns → offset levels l = (length ns + offset levels (S l))%nat.
Proof.
  intros Hl. unfold offset. rewrite (drop_S _ _ _ Hl). simpl. by rewrite length_app.
Qed.

(** The children of a node are consecutive in the level below. *)
Lemma concat_split {A} (gs : list (list A)) i g :
  gs !! i = Some g → g ∈ gs ∧ concat gs = concat (take i gs) ++ g ++ concat (drop (S i) gs).
Proof.
  intros Hi. split; [by eapply list_elem_of_lookup_2 |].
  assert (Hg : gs = take i gs ++ g :: drop (S i) gs) by (by rewrite take_drop_middle).
  rewrite Hg at 1. by rewrite concat_app.
Qed.

Lemma group_lookup {A} (gs : list (list A)) i g j x :
  gs !! i = Some g → g !! j = Some x →
  concat gs !! (length (concat (take i gs)) + j)%nat = Some x.
Proof.
  intros Hi Hj. destruct (concat_split gs i g Hi) as [_ ->].
  rewrite lookup_app_r by lia.
  replace (length (concat (take i gs)) + j - length (concat (take i gs)))%nat with j by lia.
  rewrite lookup_app_l; [done |]. by eapply lookup_lt_Some.
Qed.

(** ** The walk over a built tree *)
Section walk.
Context {B : Bencode recordWire} {BL : BencodeLaws recordWire}.
Context (ps : Z) (sorted : list Record) (levels : list (list node)) (m : pieces)
  (pages : list bytes) (s : PageSource) (p : bytes).
Hypothesis Hlay : layout sorted ps levels m pages.
Hypothesis Hwf : Forall wf sorted.
Hypothesis Hsorted : StronglySorted record_le sorted.
Hypothesis Hsrc : ∀ (k : nat) page, pages !! k = Some page → Piece s (Z.of_nat k) = Ok page.
Hypothesis HN : NumPieces s = len pages + 1.

Let Hok := lay_levels _ _ _ _ _ Hlay.

Definition pc (a : nat * nat) : Z := default 0 (m !! a).

Lemma node_piece l ns i nd :
  levels !! l = Some ns → ns !! i = Some nd →
  piece m nd = Z.of_nat (offset levels l + i) ∧ (offset levels l + i < length pages)%nat.
Proof.
  intros Hl Hi. pose proof (order_lookup _ _ _ _ _ Hl Hi) as Ho.
  split; [by apply (lay_piece _ _ _ _ _ Hlay) |].
  rewrite (lay_length _ _ _ _ _ Hlay). by eapply lookup_lt_Some.
Qed.

Lemma node_page l ns i nd :
  levels !! l = Some ns → ns !! i = Some nd →
  ∃ page, encode_node m (length levels - 1) l nd ps = Ok page ∧ Piece s (piece m nd) = Ok page.
Proof.
  intros Hl Hi. pose proof (order_lookup _ _ _ _ _ Hl Hi) as Ho.
  destruct (lay_pages _ _ _ _ _ Hlay _ _ Ho) as (page & He & Hp). exists page.
  rewrite (addr_level ps sorted levels l ns i nd Hok Hl Hi) in He.
  split; [done |]. destruct (node_piece l ns i nd Hl Hi) as [-> _]. by apply Hsrc.
Qed.

(** Nodes in different places have different pieces. *)
Lemma pc_inj a b : a ∈ addr <$> concat levels → b ∈ addr <$> concat levels → pc a = pc b → a = b.
Proof.
  rewrite <-order_perm. intros Ha Hb E.
  apply list_elem_of_fmap in Ha as (x & -> & Hx), Hb as (y & -> & Hy).
  apply list_elem_of_lookup in Hx as [i Hi], Hy as [j Hj].
  pose proof (lay_piece _ _ _ _ _ Hlay i x Hi) as H1.
  pose proof (lay_piece _ _ _ _ _ Hlay j y Hj) as H2.
  unfold piece in H1, H2. unfold pc in E. rewrite H1, H2 in E.
  apply Nat2Z.inj in E as ->. by simplify_eq.
Qed.

(** What a walk into [nd] does: it adds the leaves it selects below [nd], drops
    no match, and visits only pieces below [nd]. *)
Definition walks (nds : list node) (v : gset Z) (out : list Z) (res : result error walk_state)
    : Prop :=
  ∃ v' sel, res = Ok (v', out ++ (piece m <$> sel)) ∧
    sel `sublist_of` concat (leaves_of <$> nds) ∧
    matching p (concat (records <$> sel)) = matching p (concat (under <$> nds)) ∧
    ∀ k, k ∈ v' → k ∈ v ∨ ∃ a, a ∈ concat (desc <$> nds) ∧ k = pc a.

Definition child_of (first : bool) (c : node) : InteriorChild :=
  mkChild (if first then [] else minKey c) (piece m c).

(** A child's key is the least of its records, and no record of a node
    outgrows the key of a node behind it. *)
Definition keyed (c : node) : Prop :=
  ∃ r rs, under c = r :: rs ∧ minKey c = RecordKey r.

Lemma keyed_lower c r :
  keyed c → StronglySorted record_le (under c) → r ∈ under c → bytes_le (minKey c) (RecordKey r).
Proof.
  intros (r0 & rs & Hu & ->) Hs Hr. rewrite Hu in Hs, Hr.
  apply StronglySorted_inv in Hs as [_ HF].
  apply elem_of_cons in Hr as [-> |Hr]; [done |]. rewrite Forall_forall in HF. by apply HF.
Qed.

Lemma sorted_across (a b : list Record) x y :
  StronglySorted record_le (a ++ b) → x ∈ a → y ∈ b → record_le x y.
Proof.
  induction a as [|z a IH]; intros Hs Hx Hy; [by apply elem_of_nil in Hx |].
  apply StronglySorted_inv in Hs as [Hs HF]. apply elem_of_cons in Hx as [-> |Hx]; [|by apply IH].
  rewrite Forall_forall in HF. apply HF. apply elem_of_app. by right.
Qed.

Lemma walk_children_built fuel (first : bool) kids prev base v out :
  (∀ c, c ∈ kids → ∀ v out, (∀ a, a ∈ desc c → pc a ∉ v) →
     walks [c] v out (walkToLeaves s p (nextPrefix p) fuel (piece m c) (v, out))) →
  Forall keyed kids → StronglySorted record_le (concat (under <$> kids)) →
  (∀ j c, kids !! j = Some c → piece m c = base + Z.of_nat j) →
  prev < base → base + len kids ≤ NumPieces s - 1 →
  NoDup (concat (desc <$> kids)) →
  (∀ a b, a ∈ concat (desc <$> kids) → b ∈ concat (desc <$> kids) → pc a = pc b → a = b) →
  (∀ a, a ∈ concat (desc <$> kids) → pc a ∉ v) →
  walks kids v out
    (walk_children s p (nextPrefix p) (walkToLeaves s p (nextPrefix p) fuel) prev
       (match kids with [] => [] | c :: cs => child_of first c :: (child_of false <$> cs) end)
       (v, out)).
Proof.
  revert first prev base v out. induction kids as [|c kids IH];
    intros first prev base v out Hw Hk Hs Hpc Hprev Hle Hnd Hinj Hv.
  { exists v, []. simpl. rewrite app_nil_r. split; [done |]. split; [constructor |].
    split; [done |]. by left. }
  apply Forall_cons in Hk as [Hkc Hk]. rewrite len_cons in Hle. pose proof (len_nonneg kids).
  cbn [fmap list_fmap concat] in Hs, Hnd, Hinj, Hv.
  apply NoDup_app in Hnd as (_ & Hdis & Hnd).
  pose proof (Hpc 0%nat c eq_refl) as Hc0. rewrite Z.add_0_r in Hc0.
  cbn [walk_children]. set (upper := match child_of false <$> kids with
                                     | [] => [] | c' :: _ => Separator c' end).
  cbn [child_of ChildIndex Separator]. rewrite Hc0.
  destruct (Z.leb_spec base prev); [lia |].
  destruct (Z.leb_spec (NumPieces s - 1) base); [lia |]. cbn [orb negb].
  (* the child itself *)
  match goal with |- walks _ _ _ (?r ≫= _) => assert (Hstep : walks [c] v out r) end.
  { destruct (rangeOverlapsPrefix _ _ _ _) eqn:Er.
    - rewrite <-Hc0. apply Hw; [by left |]. intros a Ha. apply Hv, elem_of_app. by left.
    - exists v, []. simpl. rewrite !app_nil_r. split; [done |].
      split; [apply sublist_nil_l |]. split; [|by left]. symmetry.
      apply (skip_sound p _ upper (under c)) in Er; [exact Er | |].
      + intros Hne r Hr. destruct first; [done |]. apply keyed_lower; [done | | done].
        by apply StronglySorted_app_1_l in Hs.
      + intros Hne r Hr. unfold upper. destruct kids as [|c' kids']; [done |].
        apply Forall_cons in Hk as [(r0 & rs & Hu & Hmin) _]. simpl. rewrite Hmin.
        apply (sorted_across _ _ _ _ Hs Hr). cbn [fmap list_fmap concat].
        apply elem_of_app. left. rewrite Hu. by left. }
  destruct Hstep as (v1 & sel1 & -> & Hsub1 & Hm1 & Hv1). rewrite bind_ok.
  (* the ones behind it *)
  specialize (IH false base (base + 1) v1 (out ++ (piece m <$> sel1))).
  destruct IH as (v2 & sel2 & Heq & Hsub2 & Hm2 & Hv2).
  - intros x Hx. apply Hw. by right.
  - done.
  - by apply StronglySorted_app_1_r in Hs.
  - intros j x Hx. rewrite (Hpc (S j) x Hx). lia.
  - lia.
  - lia.
  - done.
  - intros a b Ha Hb. apply Hinj; apply elem_of_app; by right.
  - intros a Ha Hin. apply Hv1 in Hin as [Hin|(b & Hb & E)].
    + apply (Hv a); [apply elem_of_app; by right | done].
    + simpl in Hb. rewrite app_nil_r in Hb.
      apply Hinj in E; [subst b; by apply (Hdis a) | apply elem_of_app; by right |
        apply elem_of_app; by left].
  - exists v2, (sel1 ++ sel2). rewrite fmap_app, app_assoc. split.
    + destruct kids as [|c' kids']; exact Heq.
    + cbn [fmap list_fmap concat] in *. rewrite app_nil_r in Hsub1, Hm1.
      split; [by apply sublist_app |]. split.
      * rewrite fmap_app, concat_app, !matching_app. by rewrite Hm1, Hm2.
      * intros k Hin. apply Hv2 in Hin as [Hin|(a & Ha & ->)].
        -- apply Hv1 in Hin as [?|(a & Ha & ->)]; [by left |]. right. exists a.
           simpl in Ha. rewrite app_nil_r in Ha. split; [apply elem_of_app; by left | done].
        -- right. exists a. split; [apply elem_of_app; by right | done].
Qed.
(** Facts about one interior node of the built tree. *)
Lemma node_children l ns i nd :
  levels !! S l = Some ns → ns !! i = Some nd →
  ∃ cs g k0, levels !! l = Some cs ∧ nd = mkInterior (S l) i g ∧ g ≠ [] ∧
    (∀ j c, g !! j = Some c → cs !! (k0 + j)%nat = Some c) ∧
    (∃ a b, cs = a ++ g ++ b).
Proof.
  intros Hl Hi. destruct (level_cases ps sorted levels Hok (S l) ns Hl)
    as (cs & gs & Hcs & -> & Hg & HF).
  rewrite list_lookup_imap in Hi. destruct (gs !! i) as [g|] eqn:Hgi; [|done].
  injection Hi as <-. destruct (concat_split gs i g Hgi) as [Hin Hsplit].
  rewrite Forall_forall in HF. exists cs, g, (length (concat (take i gs))).
  split; [done |]. split; [done |]. split; [by apply HF |]. split.
  - intros j c Hj. rewrite <-Hg. by eapply group_lookup.
  - rewrite <-Hg, Hsplit. by eexists _, _.
Qed.

Lemma node_keyed l ns i nd : levels !! l = Some ns → ns !! i = Some nd → keyed nd.
Proof.
  revert ns i nd. induction l as [|l IH]; intros ns i nd Hl Hi.
  - destruct (level_cases ps sorted levels Hok 0 ns Hl) as (gs & -> & _ & HF).
    rewrite list_lookup_imap in Hi. destruct (gs !! i) as [g|] eqn:Hg; [|done].
    injection Hi as <-. rewrite Forall_forall in HF.
    apply list_elem_of_lookup_2 in Hg. apply HF in Hg.
    destruct g as [|r rs]; [done |]. exists r, rs. by rewrite under_leaf.
  - destruct (node_children l ns i nd Hl Hi) as (cs & g & k0 & Hcs & -> & Hne & Hch & _).
    destruct g as [|c g]; [done |].
    destruct (IH cs (k0 + 0)%nat c Hcs (Hch 0%nat c eq_refl)) as (r & rs & Hu & Hk).
    exists r, (rs ++ concat (under <$> g)). rewrite under_interior by done.
    cbn [fmap list_fmap concat]. by rewrite Hu.
Qed.

Lemma under_sorted l ns g a b :
  levels !! l = Some ns → ns = a ++ g ++ b → StronglySorted record_le (concat (under <$> g)).
Proof.
  intros Hl ->. pose proof (level_under ps sorted levels Hok l _ Hl) as Hu.
  rewrite !fmap_app, !concat_app in Hu. rewrite <-Hu in Hsorted.
  apply StronglySorted_app_1_r in Hsorted. by apply StronglySorted_app_1_l in Hsorted.
Qed.

Lemma desc_below l ns g a b :
  levels !! l = Some ns → ns = a ++ g ++ b →
  NoDup (concat (desc <$> g)) ∧ ∀ x, x ∈ concat (desc <$> g) → x ∈ addr <$> concat (take (S l) levels).
Proof.
  intros Hl ->. pose proof (level_desc ps sorted levels Hok l _ Hl) as Hd.
  assert (Hnd : NoDup (addr <$> concat (take (S l) levels))).
  { apply (NoDup_addrs 0). intros k ms i nd Hk Hi.
    apply lookup_take_Some in Hk as [Hk _].
    exact (addr_level ps sorted levels k ms i nd Hok Hk Hi). }
  rewrite <-Hd in Hnd. rewrite !fmap_app, !concat_app in *.
  apply NoDup_app in Hnd as (_ & _ & Hnd). apply NoDup_app in Hnd as (Hnd & _).
  split; [done |]. intros x Hx. rewrite <-Hd. rewrite !elem_of_app. tauto.
Qed.

Lemma desc_all l x : x ∈ addr <$> concat (take l levels) → x ∈ addr <$> concat levels.
Proof.
  rewrite <-(take_drop l levels) at 2. rewrite concat_app, fmap_app, elem_of_app. tauto.
Qed.

Lemma leaf_page i rs page :
  (∃ ns, levels !! 0%nat = Some ns ∧ ns !! i = Some (mkLeaf i rs)) →
  encode_node m (length levels - 1) 0 (mkLeaf i rs) ps = Ok page →
  DecodeLeaf page = Ok rs ∧ kind <$> decodeHeader page = Ok PageKindLeaf.
Proof.
  intros (ns & Hl & Hi) He. unfold encode_node in He. simpl in He.
  eapply EncodeLeaf_decode in He as (_ & H1 & H2); [done |].
  pose proof (level_under ps sorted levels Hok 0 ns Hl) as Hu.
  rewrite Forall_forall in *. intros r Hr. apply Hwf. rewrite <-Hu.
  apply list_elem_of_concat. exists rs. split; [|done].
  apply list_elem_of_fmap. exists (mkLeaf i rs). rewrite under_leaf.
  split; [done |]. by eapply list_elem_of_lookup_2.
Qed.

Lemma interior_page l i g ns page :
  levels !! S l = Some ns → ns !! i = Some (mkInterior (S l) i g) → g ≠ [] →
  (∀ c, c ∈ g → is_u32 (piece m c)) →
  encode_node m (length levels - 1) (S l) (mkInterior (S l) i g) ps = Ok page →
  DecodeInterior page = Ok (match g with [] => [] | c :: cs => child_of true c :: (child_of false <$> cs) end) ∧
  kind <$> decodeHeader page =
    Ok (if (S l =? length levels - 1)%nat then PageKindRoot else PageKindInterior).
Proof.
  intros Hl Hi Hne Hidx He. unfold encode_node in He.
  assert (isLeaf (mkInterior (S l) i g) = false) as E by (by destruct g). rewrite E in He.
  apply EncodeInterior_decode in He as (_ & H1 & H2).
  - split; [|done]. rewrite H1. unfold interiorChildrenOf. cbn [mkInterior children].
    destruct g as [|c g]; [done |]. done.
  - unfold interiorChildrenOf. simpl. apply Forall_fmap, Forall_forall. intros c Hc.
    by apply Hidx.
Qed.

Lemma header_kind page k :
  kind <$> decodeHeader page = Ok k → ∃ h, decodeHeader page = Ok h ∧ kind h = k.
Proof. destruct (decodeHeader page) as [h|]; intros H; [|done]. injection H as <-. by exists h. Qed.

Lemma walk_leaf i rs ns fuel v out :
  levels !! 0%nat = Some ns → ns !! i = Some (mkLeaf i rs) →
  (∀ a, a ∈ desc (mkLeaf i rs) → pc a ∉ v) →
  walks [mkLeaf i rs] v out
    (walkToLeaves s p (nextPrefix p) (S fuel) (piece m (mkLeaf i rs)) (v, out)).
Proof.
  intros Hl Hi Hv. destruct (node_page 0 ns i _ Hl Hi) as (page & He & Hp).
  destruct (leaf_page i rs page) as [_ Hh]; [by exists ns | done |].
  apply header_kind in Hh as (h & Hh & Hk).
  cbn [walkToLeaves]. assert (Hpc : piece m (mkLeaf i rs) = pc (0%nat, i)) by done.
  rewrite bool_decide_eq_false_2 by (rewrite Hpc; apply Hv; by left). cbn [negb].
  rewrite Hp, bind_ok, Hh, bind_ok, Hk. cbn.
  exists ({[piece m (mkLeaf i rs)]} ∪ v), [mkLeaf i rs]. split; [done |].
  simpl. rewrite !app_nil_r. split; [done |]. rewrite under_leaf. split; [done |].
  intros k [->%elem_of_singleton|?]%elem_of_union; [|by left]. right.
  exists (0%nat, i). split; [by left | done].
Qed.

Lemma walk_built l ns i nd fuel v out :
  levels !! l = Some ns → ns !! i = Some nd → (l < fuel)%nat →
  (∀ a, a ∈ desc nd → pc a ∉ v) →
  walks [nd] v out (walkToLeaves s p (nextPrefix p) fuel (piece m nd) (v, out)).
Proof.
  revert ns i nd fuel v out. induction l as [|l IH]; intros ns i nd fuel v out Hl Hi Hf Hv;
    (destruct fuel as [|fuel]; [lia |]).
  - destruct (level_cases ps sorted levels Hok 0 ns Hl) as (gs & Hns & _ & _).
    pose proof Hi as Hi'. rewrite Hns, list_lookup_imap in Hi'.
    destruct (gs !! i) as [g|]; [|done]. injection Hi' as <-. by eapply walk_leaf.
  - destruct (node_children l ns i nd Hl Hi) as (cs & g & k0 & Hcs & -> & Hne & Hch & a & b & Hab).
    set (nd := mkInterior (S l) i g) in *.
    destruct (node_page (S l) ns i nd Hl Hi) as (page & He & Hp).
    destruct (node_piece (S l) ns i nd Hl Hi) as [Hpi _].
    assert (Hchild : ∀ j c, g !! j = Some c →
      piece m c = Z.of_nat (offset levels l + k0) + Z.of_nat j ∧
      (offset levels l + k0 + j < length pages)%nat).
    { intros j c Hj. destruct (node_piece l cs _ c Hcs (Hch j c Hj)) as [H1 H2]. lia. }
    destruct (interior_page l i g ns page Hl Hi Hne) as [Hdec Hh]; [|done|].
    { intros c Hc. apply list_elem_of_lookup in Hc as [j Hj].
      destruct (Hchild j c Hj) as [-> Hlt]. pose proof (lay_small _ _ _ _ _ Hlay).
      rewrite (lay_length _ _ _ _ _ Hlay) in Hlt. unfold is_u32, len in *. lia. }
    apply header_kind in Hh as (h & Hh & Hk).
    assert (Hkinds : (kind h =? PageKindLeaf) = false ∧
      (kind h =? PageKindRoot) || (kind h =? PageKindInterior) = true)
      by (rewrite Hk; by case_match).
    destruct Hkinds as [Hk1 Hk2]. cbn [walkToLeaves].
    assert (Hpc : piece m nd = pc (S l, i)) by done.
    rewrite bool_decide_eq_false_2 by (rewrite Hpc; apply Hv; by left). cbn [negb].
    rewrite Hp, bind_ok, Hh, bind_ok, Hk1, Hk2, Hdec, bind_ok.
    assert (Hdesc : desc nd = (S l, i) :: concat (desc <$> g)) by done.
    destruct (desc_below l cs g a b Hcs Hab) as [Hnd Hsub].
    destruct (desc_below (S l) ns [nd] (take i ns) (drop (S i) ns) Hl
      ltac:(symmetry; by apply take_drop_middle)) as [Hnd' Hsub'].
    simpl in Hnd', Hsub'. rewrite app_nil_r in Hnd', Hsub'.
    apply NoDup_cons in Hnd' as [Hself _].
    assert (Hg0 : ∃ c0, g !! 0%nat = Some c0) by (destruct g as [|c0]; [done | by exists c0]).
    destruct Hg0 as [c0 Hg0].
    assert (Hlow : (offset levels (S l) + length ns ≤ offset levels l + k0)%nat)
      by (rewrite (offset_S levels l ns Hl); lia).
    pose proof (lookup_lt_Some _ _ _ Hi) as Hilt.
    assert (Hinj : ∀ x y, x ∈ (S l, i) :: concat (desc <$> g) → y ∈ (S l, i) :: concat (desc <$> g) →
      pc x = pc y → x = y).
    { intros x y Hx Hy. apply pc_inj; eapply desc_all, Hsub'; done. }
    destruct (walk_children_built fuel true g (piece m nd) (Z.of_nat (offset levels l + k0))
      ({[piece m nd]} ∪ v) out) as (v' & sel & Heq & Hsel & Hm & Hv').
    + intros c Hc w o Hw. apply list_elem_of_lookup in Hc as [j Hj].
      eapply IH; [done | by apply Hch | lia | done].
    + apply Forall_lookup_2. intros j c Hj. eapply node_keyed; [exact Hcs | by apply Hch].
    + by eapply under_sorted.
    + intros j c Hj. by destruct (Hchild j c Hj).
    + lia.
    + rewrite HN. destruct (lookup_lt_is_Some_2 g (length g - 1)) as [cl Hcl].
      { destruct g; [done | simpl; lia]. }
      destruct (Hchild _ _ Hcl). unfold len. destruct g; [done | simpl in *; lia].
    + done.
    + intros x y Hx Hy. apply Hinj; by right.
    + intros x Hx Hin. apply elem_of_union in Hin as [Hin%elem_of_singleton|Hin].
      * rewrite Hpc in Hin. apply Hinj in Hin; [|by right | by left]. by subst x.
      * apply (Hv x); [rewrite Hdesc; by right | done].
    + exists v', sel. split; [exact Heq |]. cbn [fmap list_fmap concat]. rewrite !app_nil_r.
      unfold nd. rewrite leaves_of_interior, under_interior by done.
      split; [done |]. split; [done |]. fold nd. rewrite Hdesc.
      intros k Hin. apply Hv' in Hin as [Hin|(x & Hx & ->)].
      * apply elem_of_union in Hin as [->%elem_of_singleton|?]; [right | by left].
        exists (S l, i). split; [by left | done].
      * right. exists x. split; [by right | done].
Qed.
End walk.

(** ** The file as a page source *)

Lemma take_drop_pages n (ls : list bytes) k x :
  Forall (λ l, length l = n) ls → ls !! k = Some x → take n (drop (k * n) (concat ls)) = x.
Proof.
  intros HF Hk. revert k Hk. induction HF as [|l ls Hl HF IH]; intros [|k] Hk; simplify_eq/=.
  - by apply take_app_exact.
  - rewrite drop_app_ge by lia.
    replace (length l + k * length l - length l)%nat with (k * length l)%nat by lia. by apply IH.
Qed.

Lemma source_pieces ps pages tp :
  0 < ps → Forall (λ p, len p = ps) (pages ++ [tp]) →
  let s := BytesPageSource (concat pages ++ tp) ps in
  NumPieces s = len pages + 1 ∧
  ∀ k page, (pages ++ [tp]) !! k = Some page → Piece s (Z.of_nat k) = Ok page.
Proof.
  intros Hps HF s.
  assert (Hcat : concat pages ++ tp = concat (pages ++ [tp]))
    by (rewrite concat_app; simpl; by rewrite app_nil_r).
  assert (Hn : BytesNumPieces (concat pages ++ tp) ps = len pages + 1).
  { unfold BytesNumPieces. destruct (Z.leb_spec ps 0); [lia |].
    rewrite Hcat, (len_concat_pages ps), len_app by done. by apply Z.div_mul; lia. }
  split; [done |]. intros k page Hk. simpl. unfold BytesPiece. rewrite Hn.
  pose proof (lookup_lt_Some _ _ _ Hk) as Hlt. rewrite length_app in Hlt. simpl in Hlt.
  destruct (Z.ltb_spec (Z.of_nat k) 0); [lia |].
  destruct (Z.leb_spec (len pages + 1) (Z.of_nat k)); [unfold len in *; lia |]. simpl.
  f_equal. unfold slice. rewrite Hcat.
  replace (Z.to_nat (Z.of_nat k * ps + ps) - Z.to_nat (Z.of_nat k * ps))%nat with (Z.to_nat ps) by nia.
  replace (Z.to_nat (Z.of_nat k * ps)) with (k * Z.to_nat ps)%nat by nia.
  apply take_drop_pages; [|done]. eapply Forall_impl; [exact HF |].
  intros l Hl. simpl in Hl. unfold len in Hl. lia.
Qed.

Section built.
Context {B : Bencode recordWire} {BL : BencodeLaws recordWire} {Ed : Ed25519}.
Context (ps : Z) (sorted : list Record) (levels : list (list node)) (m : pieces)
  (pages : list bytes) (s : PageSource).
Hypothesis Hlay : layout sorted ps levels m pages.
Hypothesis Hwf : Forall wf sorted.
Hypothesis Hsorted : StronglySorted record_le sorted.
Hypothesis Hne : sorted ≠ [].
Hypothesis Hsrc : ∀ (k : nat) page, pages !! k = Some page → Piece s (Z.of_nat k) = Ok page.
Hypothesis HN : NumPieces s = len pages + 1.

Let Hok := lay_levels _ _ _ _ _ Hlay.

Lemma levels_nonempty l ns : levels !! l = Some ns → ns ≠ [].
Proof.
  intros Hl ->. pose proof (level_under ps sorted levels Hok l [] Hl) as Hu. by simpl in Hu.
Qed.

Lemma length_levels : (length levels ≤ length pages)%nat.
Proof.
  rewrite (lay_length _ _ _ _ _ Hlay), order_perm.
  assert (HF : Forall (λ ns, ns ≠ []) levels)
    by (apply Forall_lookup_2; apply levels_nonempty).
  clear -HF. induction HF as [|ns ls Hn _ IH]; simpl; [lia |]. rewrite length_app.
  destruct ns; [done | simpl; lia].
Qed.

Lemma root_level :
  ∃ nd, levels !! (length levels - 1)%nat = Some [nd] ∧ piece m nd = 0.
Proof.
  destruct (lay_root _ _ _ _ _ Hlay) as [nd Hr]. exists nd.
  pose proof (lay_height _ _ _ _ _ Hlay). rewrite last_lookup in Hr.
  replace (pred (length levels)) with (length levels - 1)%nat in Hr by lia. split; [done |].
  destruct (node_piece ps sorted levels m pages Hlay _ _ 0%nat nd Hr eq_refl) as [-> _].
  unfold offset. rewrite drop_ge by lia. done.
Qed.

Lemma level0 : ∃ ls gs, levels !! 0%nat = Some ls ∧ ls = imap mkLeaf gs ∧ concat gs = sorted.
Proof.
  destruct Hok as [(gs & H0 & Hc & _) _]. by exists (imap mkLeaf gs), gs.
Qed.

Lemma leaf_piece ls i nd :
  levels !! 0%nat = Some ls → ls !! i = Some nd →
  ∃ page, Piece s (piece m nd) = Ok page ∧ DecodeLeaf page = Ok (records nd).
Proof.
  intros Hl Hi.
  destruct (node_page ps sorted levels m pages s Hlay Hsrc 0 ls i nd Hl Hi)
    as (page & He & Hp).
  exists page. split; [done |].
  destruct (level_cases ps sorted levels Hok 0 ls Hl) as (gs & Hls & _ & _).
  pose proof Hi as Hi'. rewrite Hls, list_lookup_imap in Hi'.
  destruct (gs !! i) as [g|]; [|done]. injection Hi' as <-.
  eapply leaf_page in He as [Hd _]; [exact Hd | exact Hlay | done | by exists ls].
Qed.

Lemma find_leaves_built t prefix ls sel out :
  src t = s → levels !! 0%nat = Some ls → sel `sublist_of` ls →
  fold_result (find_leaf t prefix) out (piece m <$> sel) =
    Ok (out ++ List.filter (accepts (MinPoWBits (trailer t)) prefix) (concat (records <$> sel))).
Proof.
  intros Ht Hl Hsub.
  assert (Hin : ∀ nd, nd ∈ sel → ∃ page, Piece s (piece m nd) = Ok page ∧ DecodeLeaf page = Ok (records nd)).
  { intros nd Hnd. eapply elem_of_sublist in Hnd; [|exact Hsub].
    apply list_elem_of_lookup in Hnd as [i Hi]. by eapply leaf_piece. }
  clear Hsub. revert out. induction sel as [|nd sel IH]; intros out.
  - simpl. by rewrite app_nil_r.
  - cbn [fmap list_fmap fold_result concat].
    destruct (Hin nd) as (page & Hp & Hd); [by left |].
    assert (Hf : find_leaf t prefix out (piece m nd) =
      Ok (out ++ List.filter (accepts (MinPoWBits (trailer t)) prefix) (records nd)))
      by (unfold find_leaf; by rewrite Ht, Hp, bind_ok, Hd).
    rewrite Hf, bind_ok, IH by (intros; apply Hin; by right).
    by rewrite List.filter_app, app_assoc.
Qed.

Lemma check_seen_ok seen ks :
  NoDup ks → (∀ k, k ∈ ks → k ∉ seen) → is_ok (fold_result check_seen seen ks) = true.
Proof.
  intros Hnd. revert seen. induction Hnd as [|k ks Hk Hnd IH]; intros seen Hs; [done |].
  cbn [fold_result]. assert (Hc : check_seen seen k = Ok ({[k]} ∪ seen)).
  { unfold check_seen. rewrite bool_decide_eq_false_2; [done |]. apply Hs. by left. }
  rewrite Hc, bind_ok. apply IH. intros x Hx [->%elem_of_singleton|Hin]%elem_of_union; [done |].
  apply (Hs x); [by right | done].
Qed.

Lemma accepts_matching bits prefix rs :
  List.filter (accepts bits prefix) (matching prefix rs) = List.filter (accepts bits prefix) rs.
Proof.
  unfold matching. induction rs as [|r rs IH]; [done |]. simpl.
  destruct (has_prefix (Kw r) prefix) eqn:E; simpl; rewrite IH; [done |].
  assert (accepts bits prefix r = false) as -> by (unfold accepts; by rewrite E). done.
Qed.

(** The query of a built tree. *)
Lemma Find_built t prefix :
  src t = s →
  Find t prefix = Ok (List.filter (accepts (MinPoWBits (trailer t)) prefix) sorted).
Proof.
  intros Ht. destruct root_level as (nd & Hroot & Hp0).
  set (top := (length levels - 1)%nat) in *.
  destruct (node_page ps sorted levels m pages s Hlay Hsrc top [nd] 0%nat nd Hroot eq_refl)
    as (page & He & Hpage). rewrite Hp0 in Hpage.
  pose proof (lay_height _ _ _ _ _ Hlay) as Hh. pose proof length_levels as Hll.
  assert (Hkind : kind <$> decodeHeader page = Ok PageKindRoot).
  { destruct top as [|l] eqn:Etop; [lia |].
    destruct (node_children ps sorted levels m pages Hlay l [nd] 0%nat nd Hroot eq_refl)
      as (cs & g & k0 & _ & -> & Hg & _). unfold encode_node in He.
    assert (isLeaf (mkInterior (S l) 0 g) = false) as E by (by destruct g).
    rewrite E in He. fold top in He. rewrite Etop, Nat.eqb_refl in He.
    by eapply EncodeInterior_kind. }
  apply header_kind in Hkind as (h & Hh' & Hk).
  destruct (walk_built ps sorted levels m pages s prefix Hlay Hwf Hsorted Hsrc HN top [nd] 0%nat nd
    (S (Z.to_nat (NumPieces s))) ∅ [] Hroot eq_refl) as (v & sel & Hw & Hsub & Hm & _).
  { rewrite HN. unfold len. lia. }
  { intros a _. set_solver. }
  destruct level0 as (ls & gs & Hl0 & _ & _).
  assert (Hls : leaves_of nd = ls).
  { pose proof (level_leaves ps sorted levels Hok top [nd] ls Hroot Hl0) as H. simpl in H.
    by rewrite app_nil_r in H. }
  assert (Hu : under nd = sorted).
  { pose proof (level_under ps sorted levels Hok top [nd] Hroot) as H. simpl in H.
    by rewrite app_nil_r in H. }
  simpl in Hsub, Hm. rewrite app_nil_r in Hsub, Hm. rewrite Hls in Hsub. rewrite Hu in Hm.
  unfold Find. rewrite Ht, Hpage, bind_ok, Hh', bind_ok, Hk. cbn [Z.eqb PageKindRoot].
  rewrite Hp0 in Hw. rewrite Hw, bind_ok. cbn [app].
  (* the leaves are few and distinct *)
  assert (Hlen : (length sel ≤ length pages)%nat).
  { apply sublist_length in Hsub. rewrite (lay_length _ _ _ _ _ Hlay), order_perm.
    rewrite <-(take_drop_middle levels 0 ls Hl0). simpl. rewrite length_app. lia. }
  destruct (Z.leb_spec (NumPieces s) (len (piece m <$> sel))) as [Hbad|_].
  { rewrite HN in Hbad. unfold len in Hbad. rewrite length_fmap in Hbad. lia. }
  cbn [negb].
  assert (Hnd : NoDup (piece m <$> sel)).
  { apply (sublist_NoDup _ (piece m <$> ls)); [|by apply fmap_sublist].
    apply NoDup_alt. intros i j k Hi Hj. rewrite list_lookup_fmap in Hi, Hj.
    destruct (ls !! i) as [x|] eqn:Hx; [|done]. destruct (ls !! j) as [y|] eqn:Hy; [|done].
    simpl in Hi, Hj. injection Hi as Hi. injection Hj as Hj.
    destruct (node_piece ps sorted levels m pages Hlay 0 ls i x Hl0 Hx) as [H1 _].
    destruct (node_piece ps sorted levels m pages Hlay 0 ls j y Hl0 Hy) as [H2 _]. lia. }
  pose proof (check_seen_ok ∅ _ Hnd ltac:(set_solver)) as Hs.
  destruct (fold_result check_seen ∅ (piece m <$> sel)); [|done]. rewrite bind_ok.
  rewrite (find_leaves_built t prefix ls sel [] Ht Hl0 Hsub). cbn [app].
  by rewrite <-(accepts_matching _ _ sorted), <-Hm, accepts_matching.
Qed.

(** Every piece below the trailer stores the records of its node: none for an
    interior one. *)
Lemma stored_page t k nd :
  src t = s → order levels !! k = Some nd → page_records t (Z.of_nat k) = Ok (records nd).
Proof.
  intros Ht Hk. destruct (lay_pages _ _ _ _ _ Hlay k nd Hk) as (page & He & Hp).
  unfold page_records. rewrite Ht, (Hsrc k page Hp), bind_ok.
  assert (Hin : nd ∈ concat levels) by (rewrite <-order_perm; by eapply list_elem_of_lookup_2).
  apply list_elem_of_concat in Hin as (ns & Hns & Hin).
  apply list_elem_of_lookup in Hns as [l Hl]. apply list_elem_of_lookup in Hin as [i Hi].
  rewrite (addr_level ps sorted levels l ns i nd Hok Hl Hi) in He. destruct l as [|l]; simpl in He.
  - destruct (level_cases ps sorted levels Hok 0 ns Hl) as (gs & Hls & _ & _).
    pose proof Hi as Hi'. rewrite Hls, list_lookup_imap in Hi'.
    destruct (gs !! i) as [g|]; [|done]. injection Hi' as <-.
    eapply leaf_page in He as [Hd Hh]; [| exact Hlay | exact Hwf | by exists ns].
    apply header_kind in Hh as (h & -> & Hkd). rewrite bind_ok, Hkd. exact Hd.
  - destruct (node_children ps sorted levels m pages Hlay l ns i nd Hl Hi)
      as (cs & g & k0 & _ & -> & Hg & _). unfold encode_node in He.
    assert (isLeaf (mkInterior (S l) i g) = false) as E by (by destruct g). rewrite E in He.
    apply EncodeInterior_kind, header_kind in He as (h & -> & Hkd). rewrite bind_ok, Hkd.
    by case_match.
Qed.

Lemma records_order : concat (records <$> order levels) = sorted.
Proof.
  destruct level0 as (ls & gs & Hl0 & Hls & Hgs). unfold order.
  pose proof (take_drop_middle levels 0 ls Hl0) as Hsplit. simpl in Hsplit.
  assert (Hnil : ∀ nd, nd ∈ concat (reverse (drop 1 levels)) → records nd = []).
  { intros nd Hin. apply list_elem_of_concat in Hin as (ns & Hns & Hin).
    rewrite elem_of_reverse in Hns. apply list_elem_of_lookup in Hns as [l Hl].
    apply list_elem_of_lookup in Hin as [i Hi]. rewrite lookup_drop in Hl. simpl in Hl.
    by destruct (node_children ps sorted levels m pages Hlay l ns i nd Hl Hi)
      as (cs & g & k0 & _ & -> & _). }
  rewrite <-Hsplit, reverse_cons, concat_app, fmap_app, concat_app. simpl. rewrite app_nil_r.
  assert (concat (records <$> concat (reverse (drop 1 levels))) = []) as ->.
  { revert Hnil. induction (concat (reverse (drop 1 levels))) as [|nd l IH]; intros Hnil; [done |].
    simpl. rewrite Hnil by (by left). apply IH. intros x Hx. apply Hnil. by right. }
  rewrite Hls, <-Hgs. simpl. f_equal. rewrite fmap_imap.
  etrans; [|apply list_fmap_id]. rewrite <-(imap_const id). by apply imap_ext.
Qed.

Lemma stored_built t : src t = s → stored_records t = Ok sorted.
Proof.
  intros Ht. unfold stored_records.
  rewrite (map_result_lookup _ _ (records <$> order levels)).
  - simpl. by rewrite records_order.
  - rewrite Ht, HN, length_seqZ, length_fmap, <-(lay_length _ _ _ _ _ Hlay). unfold len. lia.
  - intros k x y Hx Hy. apply lookup_seqZ in Hx as [-> _]. rewrite Z.add_0_l.
    rewrite list_lookup_fmap in Hy. destruct (order levels !! k) as [nd|] eqn:Hk; [|done].
    injection Hy as <-. by apply stored_page.
Qed.

End built.

#[export] Instance record_le_total : Total record_le.
Proof. intros a b. apply bytes_le_total. Qed.
#[export] Instance record_le_trans : Transitive record_le.
Proof. intros a b c. apply bytes_le_trans. Qed.

(** The arguments a Go caller can pass, signing with a key pair. *)
Definition input_ok `{Ed25519} (inp : BuildInput) : Prop :=
  Forall wf (inRecords inp) ∧ len (inRecords inp) ≤ 2 ^ 30 ∧ is_u64 (inSeq inp) ∧
  0 ≤ inMinPoWBits inp < 256 ∧
  ∃ priv, inPrivKey inp = Some priv ∧ ed25519_keypair priv (inPubKey inp).

Section final.
Context {B : Bencode recordWire} {BL : BencodeLaws recordWire}.
Context {Ed : Ed25519} {EdL : Ed25519Laws}.

Lemma make_trailer_signed inp now np n fp :
  input_ok inp → VerifyTrailerSig (make_trailer inp now np n fp) = Ok ().
Proof.
  intros (_ & _ & _ & _ & priv & Hp & Hk). unfold make_trailer. rewrite Hp.
  unfold VerifyTrailerSig. cbn [SignTrailer PubKey PublisherSig].
  match goal with |- context [TrailerSigMessage (SignTrailer ?t ?k)] =>
    change (TrailerSigMessage (SignTrailer t k)) with (TrailerSigMessage t) end.
  by rewrite ed25519_verify_sign.
Qed.

Lemma make_trailer_fields inp now np n fp :
  let t := make_trailer inp now np n fp in
  NumPages t = u32 (np + 1) ∧ RootPieceIndex t = 0 ∧ NumRecords t = n ∧
  MinPoWBits t = inMinPoWBits inp ∧ Fingerprint t = fp.
Proof. unfold make_trailer. by destruct (inPrivKey inp). Qed.

Lemma make_trailer_ok inp now np n fp :
  input_ok inp → is_u64 n → trailer_ok (make_trailer inp now np n fp).
Proof.
  intros (_ & _ & Hs & Hb & priv & Hp & _) Hn. unfold make_trailer. rewrite Hp.
  repeat split; simpl; try apply Hs; try apply Hn; try apply Hb; try apply u64_range;
    try apply u32_range; done.
Qed.

(** Everything a reader needs to know about a built file. *)
Lemma built_open now inp built :
  input_ok inp → BuildBTree now inp = Ok built →
  let s := BytesPageSource (outBytes built) (outPieceSize built) in
  let sorted := sort_records (inRecords inp) in
  ∃ t levels m pages, OpenBTree s = Ok t ∧ src t = s ∧
    layout sorted (outPieceSize built) levels m pages ∧
    (∀ k page, pages !! k = Some page → Piece s (Z.of_nat k) = Ok page) ∧
    NumPieces s = len pages + 1 ∧ inRecords inp ≠ [] ∧
    NumRecords (trailer t) = len sorted ∧ MinPoWBits (trailer t) = inMinPoWBits inp ∧
    fingerprintSorted sorted = Ok (Fingerprint (trailer t)) ∧
    Fingerprint (trailer t) = outFingerprint built.
Proof.
  intros Hin Hb. pose proof Hin as (_ & Hn & _).
  apply BuildBTree_inv in Hb as (Hps & Hne & _ & levels & m & pages & fp & tp & Hlay & Hfp & Htr & ->);
    [|done].
  cbn [outBytes outPieceSize outFingerprint].
  set (sorted := sort_records (inRecords inp)) in *. set (ps := inPieceSize inp) in *.
  assert (Hsl : len sorted = len (inRecords inp))
    by (unfold len, sorted; by rewrite sort_records_perm).
  assert (Hsne : sorted ≠ [])
    by (intros E; rewrite E, len_nil in Hsl; pose proof (len_pos _ Hne); lia).
  set (tr := make_trailer inp now (len pages) (len sorted) fp) in *.
  pose proof (len_nonneg sorted).
  assert (Hok : trailer_ok tr) by (apply make_trailer_ok; [done | unfold is_u64; lia]).
  pose proof (EncodeTrailer_decode tr ps Hok) as Hd. rewrite Htr in Hd.
  destruct Hd as (_ & Htl & Hd).
  destruct (source_pieces ps pages tp) as [HN Hsrc].
  { unfold MinPieceSize in Hps. lia. }
  { apply Forall_app. split; [by eapply layout_page_len | by constructor]. }
  set (s := BytesPageSource (concat pages ++ tp) ps) in *.
  pose proof (layout_three _ _ _ _ _ Hlay Hsne) as H3.
  destruct (make_trailer_fields inp now (len pages) (len sorted) fp) as (Hnp & Hroot & Hnr & Hbits & Hf).
  fold tr in Hnp, Hroot, Hnr, Hbits, Hf.
  exists (mkTree s tr), levels, m, pages. cbn [trailer src]. split.
  - unfold OpenBTree. rewrite HN. destruct (Z.leb_spec 3 (len pages + 1)); [|lia].
    replace (len pages + 1 - 1) with (Z.of_nat (length pages)) by (unfold len; lia).
    rewrite (Hsrc (length pages) tp) by (rewrite lookup_app_r, Nat.sub_diag by lia; done).
    assert (Hsig : VerifyTrailerSig tr = Ok ()) by (by apply make_trailer_signed).
    rewrite bind_ok, Hd, bind_ok, Hsig, bind_ok, Hnp, Hroot.
    pose proof (lay_small _ _ _ _ _ Hlay) as Hsm. unfold len in Hsm.
    rewrite <-(lay_length _ _ _ _ _ Hlay) in Hsm. fold (len pages) in Hsm.
    rewrite u32_small by (unfold is_u32; lia). by rewrite Z.eqb_refl.
  - split_and!; try done; [|by rewrite Hf].
    intros k page Hk. apply Hsrc. rewrite lookup_app_l; [done |]. by eapply lookup_lt_Some.
Qed.

Lemma sorted_wf inp : input_ok inp → Forall wf (sort_records (inRecords inp)).
Proof. intros (H & _). by rewrite sort_records_perm. Qed.

Lemma sort_sorted rs : StronglySorted record_le (sort_records rs).
Proof. apply (StronglySorted_merge_sort record_le). Qed.

Lemma sort_nonempty rs : rs ≠ [] → sort_records rs ≠ [].
Proof.
  intros Hne E. pose proof (sort_records_perm rs) as Hp. rewrite E in Hp.
  by apply Permutation_nil in Hp.
Qed.

Lemma Find_of_built now inp built (Hin : input_ok inp) (Hb : BuildBTree now inp = Ok built) :
  ∃ t, OpenBTree (BytesPageSource (outBytes built) (outPieceSize built)) = Ok t ∧
    ∀ prefix, Find t prefix =
      Ok (List.filter (accepts (inMinPoWBits inp) prefix) (sort_records (inRecords inp))).
Proof.
  destruct (built_open now inp built Hin Hb)
    as (t & levels & m & pages & Ho & Hs & Hlay & Hsrc & HN & Hne & _ & Hbits & _ & _).
  exists t. split; [done |]. intros prefix. rewrite <-Hbits.
  eapply Find_built;
    first [eassumption | by apply sorted_wf | apply sort_sorted | by apply sort_nonempty].
Qed.

Lemma fingerprint_of_built now inp built (Hin : input_ok inp) (Hb : BuildBTree now inp = Ok built) :
  ∃ t, OpenBTree (BytesPageSource (outBytes built) (outPieceSize built)) = Ok t ∧
    VerifyFingerprint t = Ok () ∧
    fingerprintSorted (sort_records (inRecords inp)) = Ok (outFingerprint built) ∧
    stored_records t = Ok (sort_records (inRecords inp)).
Proof.
  destruct (built_open now inp built Hin Hb)
    as (t & levels & m & pages & Ho & Hs & Hlay & Hsrc & HN & Hne & Hnr & _ & Hfp & Hout).
  assert (Hst : stored_records t = Ok (sort_records (inRecords inp))).
  { eapply stored_built; first [eassumption | by apply sorted_wf | by apply sort_nonempty]. }
  exists t. split; [done |]. split; [|split; [by rewrite <-Hout | done]].
  apply VerifyFingerprint_stored.
  - rewrite Hnr. destruct Hin as (_ & Hn & _). unfold is_u64, len in *.
    rewrite sort_records_perm. lia.
  - exists (sort_records (inRecords inp)). split; [done |]. split; [by rewrite Hnr | done].
Qed.


End final.

(** ** Concrete instances *)
Import ToySig.

Definition toy_pub : array 32 := copy_arr 32 (str "publisher").
Definition toy_input : BuildInput :=
  mkInput [toy_record 9; toy_record 200] toy_pub (Some (sl toy_pub)) 7 1700000000 0 16384.

Lemma toy_input_ok : input_ok toy_input.
Proof.
  split; [exact toy_records_wf |]. split; [by vm_compute |]. split; [by vm_compute |].
  split; [by vm_compute |]. by exists (sl toy_pub).
Qed.

Lemma toy_encodable : Forall encodable (inRecords toy_input).
Proof. repeat constructor; by vm_compute. Qed.

Lemma toy_builds : ∃ built, BuildBTree 0 toy_input = Ok built.
Proof.
  pose proof (BuildBTree_ok 0 toy_input ltac:(done) ltac:(done) toy_encodable) as Hok.
  destruct (BuildBTree 0 toy_input) as [built|]; [by exists built | done].
Qed.

Lemma toy_sorted : sort_records (inRecords toy_input) = [toy_record 9; toy_record 200].
Proof. by vm_compute. Qed.

Definition many (n : nat) : BuildInput :=
  mkInput (replicate n (toy_record 9)) toy_pub (Some (sl toy_pub)) 7 1700000000 0 (2 ^ 20).

Lemma BuildBTree_total_witness :
  is_ok (BuildBTree 0 toy_input) = true ∧ is_ok (BuildBTree 0 (many 500)) = false.
Proof.
  split.
  - apply (proj1 (BuildBTree_total 0 toy_input)); [done | done |].
    split; [done | exact toy_encodable].
  - apply (proj2 (BuildBTree_total 0 (many 500))); [done | apply Forall_replicate; by vm_compute | vm_compute; reflexivity].
Defined.


(** One tree for the theorems about any source. *)
Lemma toy_tree :
  ∃ t, (∀ k, Piece (src t) k ≠ Err ErrFuel) ∧ Find t (str "ubuntu") = Ok (List.filter (accepts 0 (str "ubuntu")) [toy_record 9; toy_record 200]) ∧
    VerifyFingerprint t = Ok () ∧ is_u64 (NumRecords (trailer t)).
Proof.
  destruct toy_builds as [built Hb].
  destruct (built_open 0 toy_input built toy_input_ok Hb)
    as (t & levels & m & pages & Ho & Hs & Hlay & Hsrc & HN & Hne & Hnr & Hbits & Hfp & Hout).
  exists t. split; [|split; [|split]].
  - intros k. rewrite Hs. cbn [Piece BytesPageSource]. unfold BytesPiece. by repeat case_match.
  - rewrite <-toy_sorted. change 0 with (inMinPoWBits toy_input). rewrite <-Hbits.
    eapply Find_built; first [eassumption | by apply sorted_wf, toy_input_ok | apply sort_sorted |
      by apply sort_nonempty].
  - destruct (fingerprint_of_built 0 toy_input built toy_input_ok Hb) as (t' & Ho' & Hf & _).
    rewrite Ho in Ho'. apply Ok_inj in Ho'. rewrite Ho'. exact Hf.
  - rewrite Hnr. cbv zeta. rewrite toy_sorted. split; [apply len_nonneg | reflexivity].
Qed.

(** A source that serves one interior page for every piece, a cycle. *)
Definition cyclic : Tree :=
  mkTree (mkSource (λ _, Ok toy_interior) 5) toy_trailer.

Lemma hostile_source_witness :
  Find cyclic (str "ubuntu") ≠ Err ErrFuel ∧
  ∃ t out, Find t (str "ubuntu") = Ok out ∧ (∃ leaves, NoDup leaves ∧
    out = List.filter (accepts (MinPoWBits (trailer t)) (str "ubuntu")) (concat (leaf_at t <$> leaves))) ∧
    ∃ recs, VerifyFingerprint t = Ok () ∧ stored_records t = Ok recs ∧
      fingerprintSorted recs = Ok (Fingerprint (trailer t)).
Proof.
  split; [apply (hostile_source cyclic (str "ubuntu")); discriminate |].
  destruct toy_tree as (t & Hsrc & Hf & Hv & Hn). eexists t, _. split; [exact Hf |].
  destruct (hostile_source t (str "ubuntu") Hsrc) as (_ & Hs & Hp). split.
  - destruct (Hs _ Hf) as [(leaves & Hd & _ & Ho) _]. exists leaves. split; [exact Hd | exact Ho].
  - destruct (proj1 (Hp Hn) Hv) as (recs & Hst & _ & Hfp).
    exists recs. split; [exact Hv |]. split; [exact Hst | exact Hfp].
Defined.

Example cyclic_rejected : Find cyclic (str "ubuntu") = Err ErrChildIndex.
Proof. by vm_compute. Qed.

End SnaggFind.
