(* ===== verification/Utf8.v ===== *)
(** * UTF-8 (unicode/utf8)

    [utf8.DecodeRuneInString] and [utf8.AppendRune] of the Go standard library,
    and the cutting of a string into runes that [for _, r := range s] performs.
    An invalid byte is a rune [RuneError] one byte wide. *)

From S2P Require Import Prelude GoInt.
From stdpp Require Import finite.
Open Scope Z_scope.

Module Utf8.

Definition RuneError : Z := 0xFFFD.
Definition MaxRune : Z := 0x10FFFF.

(** The width a first byte announces and the range of the second byte. *)
Definition lead (x0 : Z) : option (nat * Z * Z) :=
  if x0 <? 0xC2 then None
  else if x0 <=? 0xDF then Some (2%nat, 0x80, 0xBF)
  else if x0 =? 0xE0 then Some (3%nat, 0xA0, 0xBF)
  else if x0 =? 0xED then Some (3%nat, 0x80, 0x9F)
  else if x0 <=? 0xEF then Some (3%nat, 0x80, 0xBF)
  else if x0 =? 0xF0 then Some (4%nat, 0x90, 0xBF)
  else if x0 <=? 0xF3 then Some (4%nat, 0x80, 0xBF)
  else if x0 =? 0xF4 then Some (4%nat, 0x80, 0x8F)
  else None.

Definition within (lo hi : Z) (b : byte) : bool := (lo <=? b2z b) && (b2z b <=? hi).
Definition cont (b : byte) : bool := within 0x80 0xBF b.
Definition low6 (b : byte) : Z := Z.land (b2z b) 0x3F.

(** [join x b]: six more bits of a rune. *)
Definition join (x : Z) (b : byte) : Z := Z.lor (Z.shiftl x 6) (low6 b).

(** [utf8.DecodeRuneInString]: the first rune and its width. *)
Definition decode_rune (s : bytes) : Z * nat :=
  match s with
  | [] => (RuneError, 0%nat)
  | b0 :: s1 =>
    if b2z b0 <? 0x80 then (b2z b0, 1%nat)
    else match lead (b2z b0), s1 with
    | Some (n, lo, hi), b1 :: s2 =>
      if negb (within lo hi b1) then (RuneError, 1%nat)
      else match n, s2 with
      | 2%nat, _ => (join (Z.land (b2z b0) 0x1F) b1, 2%nat)
      | _, [] => (RuneError, 1%nat)
      | 3%nat, b2 :: _ =>
        if cont b2 then (join (join (Z.land (b2z b0) 0x0F) b1) b2, 3%nat)
        else (RuneError, 1%nat)
      | _, b2 :: b3 :: _ =>
        if cont b2 && cont b3
        then (join (join (join (Z.land (b2z b0) 0x07) b1) b2) b3, 4%nat)
        else (RuneError, 1%nat)
      | _, _ => (RuneError, 1%nat)
      end
    | _, _ => (RuneError, 1%nat)
    end
  end.

(** [utf8.AppendRune], as [strings.Builder.WriteRune] calls it. *)
Definition encode_rune (r : Z) : bytes :=
  let r := if (r <? 0) || (MaxRune <? r) || ((0xD800 <=? r) && (r <=? 0xDFFF))
           then RuneError else r in
  let c k := z2b (Z.lor 0x80 (Z.land (Z.shiftr r k) 0x3F)) in
  if r <? 0x80 then [z2b r]
  else if r <? 0x800 then [z2b (Z.lor 0xC0 (Z.shiftr r 6)); c 0]
  else if r <? 0x10000 then [z2b (Z.lor 0xE0 (Z.shiftr r 12)); c 6; c 0]
  else [z2b (Z.lor 0xF0 (Z.shiftr r 18)); c 12; c 6; c 0].

(** The runes of a string, each with its bytes. *)
Fixpoint runes_go (fuel : nat) (s : bytes) : list (Z * bytes) :=
  match fuel, s with
  | S fuel, _ :: _ =>
    let '(r, n) := decode_rune s in (r, take n s) :: runes_go fuel (drop n s)
  | _, _ => []
  end.
Definition runes (s : bytes) : list (Z * bytes) := runes_go (length s) s.

(** A string is valid UTF-8 when no rune stands for an invalid byte. *)
Definition valid (s : bytes) : Prop :=
  Forall (λ c, c.1 = RuneError → length c.2 ≠ 1%nat) (runes s).

(** ** Widths *)
Lemma decode_rune_width s :
  s ≠ [] → (1 ≤ snd (decode_rune s) ≤ 4 ∧ snd (decode_rune s) ≤ length s)%nat.
Proof.
  intros Hs. destruct s as [|b0 s1]; [done |]. simpl.
  destruct (b2z b0 <? 0x80); [simpl; lia |].
  destruct (lead (b2z b0)) as [[[n lo] hi]|]; [|simpl; lia].
  destruct s1 as [|b1 s2]; [simpl; lia |].
  destruct (within lo hi b1); simpl; [|lia].
  destruct n as [|[|[|[|n]]]], s2 as [|b2 [|b3 s4]]; simpl; try lia;
    repeat case_match; simpl; lia.
Qed.

(** The first rune is settled by its own bytes: cutting the string at or after
    its end does not change it. *)
Lemma decode_rune_take s k :
  (1 ≤ k → snd (decode_rune s) ≤ k)%nat → (1 ≤ k)%nat →
  decode_rune (take k s) = decode_rune s.
Proof.
  intros Hk Hk1. specialize (Hk Hk1). destruct s as [|b0 s1]; [by rewrite take_nil |].
  destruct k as [|k]; [lia |]. simpl in Hk |- *.
  destruct (b2z b0 <? 0x80); [done |].
  destruct (lead (b2z b0)) as [[[n lo] hi]|]; [|done].
  destruct s1 as [|b1 s2]; [by rewrite take_nil |].
  destruct k as [|k]; simpl in Hk |- *.
  { destruct (within lo hi b1); simpl in *; [|done].
    destruct n as [|[|[|[|n]]]], s2 as [|b2 [|b3 s4]]; simpl in *; try done;
      repeat case_match; simpl in *; try done; lia. }
  destruct (within lo hi b1); simpl in *; [|done].
  destruct n as [|[|[|[|n]]]], k as [|[|k]], s2 as [|b2 [|b3 s4]]; simpl in *; try done;
      repeat case_match; simpl in *; try done; lia.
Qed.

#[global] Arguments decode_rune : simpl never.

(** ** Cutting a string into runes *)
Lemma runes_go_fuel n m s :
  (length s ≤ n)%nat → (length s ≤ m)%nat → runes_go n s = runes_go m s.
Proof.
  revert m s. induction n as [|n IH]; intros m s Hn Hm.
  { destruct s; [|simpl in Hn; lia]. by destruct m. }
  destruct s as [|b s]; [by destruct m |]. destruct m as [|m]; [simpl in Hm; lia |].
  simpl runes_go. pose proof (decode_rune_width (b :: s) ltac:(done)) as Hw.
  destruct (decode_rune (b :: s)) as [r w]. simpl in Hw. f_equal.
  apply IH; rewrite length_drop; simpl in *; lia.
Qed.

Lemma runes_nil : runes [] = [].
Proof. done. Qed.

Lemma runes_unfold s :
  s ≠ [] → runes s = (fst (decode_rune s), take (snd (decode_rune s)) s)
                     :: runes (drop (snd (decode_rune s)) s).
Proof.
  intros Hs. destruct s as [|b s]; [done |]. unfold runes at 1.
  change (length (b :: s)) with (S (length s)). simpl runes_go.
  pose proof (decode_rune_width (b :: s) ltac:(done)) as Hw.
  destruct (decode_rune (b :: s)) as [r w] eqn:E. simpl in Hw |- *. f_equal.
  apply runes_go_fuel; rewrite length_drop; simpl in *; lia.
Qed.

(** Induction on the runes of a string. *)
Lemma runes_ind (P : bytes → Prop) :
  P [] → (∀ s, s ≠ [] → P (drop (snd (decode_rune s)) s) → P s) → ∀ s, P s.
Proof.
  intros H0 Hs s. induction s as [s IH] using (induction_ltof1 _ length).
  destruct (decide (s = [])) as [->|Hne]; [done |]. apply Hs; [done |]. apply IH.
  unfold ltof. rewrite length_drop. pose proof (decode_rune_width s Hne).
  destruct s; [done |]. simpl in *. lia.
Qed.

Lemma runes_concat s : concat (snd <$> runes s) = s.
Proof.
  induction s as [|s Hs IH] using runes_ind; [done |].
  rewrite runes_unfold, fmap_cons by done. cbn [concat snd]. rewrite IH. apply take_drop.
Qed.

Lemma runes_chunk s : Forall (λ c, 1 ≤ length c.2 ≤ 4)%nat (runes s).
Proof.
  induction s as [|s Hs IH] using runes_ind; [constructor |].
  rewrite runes_unfold by done. constructor; [|done]. simpl.
  pose proof (decode_rune_width s Hs). rewrite length_take. lia.
Qed.

Lemma runes_prefix k s :
  concat (snd <$> take k (runes s)) = take (length (concat (snd <$> take k (runes s)))) s.
Proof.
  set (p := concat _).
  assert (Hs : p ++ concat (snd <$> drop k (runes s)) = s).
  { unfold p. rewrite <-concat_app, <-fmap_app, take_drop. apply runes_concat. }
  transitivity (take (length p) (p ++ concat (snd <$> drop k (runes s)))); [by rewrite take_app_length |].
  by rewrite Hs.
Qed.

(** A string made of the first runes of another is cut into these runes. *)
Lemma runes_take k s : runes (concat (snd <$> take k (runes s))) = take k (runes s).
Proof.
  revert s. induction k as [|k IH]; intros s; [done |].
  destruct (decide (s = [])) as [->|Hs]; [done |].
  pose proof (decode_rune_width s Hs) as Hw.
  rewrite (runes_unfold s Hs). cbn [take]. rewrite fmap_cons. cbn [concat snd].
  set (w := snd (decode_rune s)) in *. set (t := drop w s).
  assert (Hpre : take w s ++ concat (snd <$> take k (runes t))
                 = take (w + length (concat (snd <$> take k (runes t)))) s).
  { rewrite <-(take_drop w s) at 2. rewrite take_app, length_take.
    rewrite (take_ge (take w s)) by (rewrite length_take; lia). f_equal.
    fold t. replace (w + _ - w `min` length s)%nat
      with (length (concat (snd <$> take k (runes t)))) by lia. apply runes_prefix. }
  rewrite Hpre. set (m := (w + _)%nat) in *.
  assert (Hd : decode_rune (take m s) = decode_rune s)
    by (apply decode_rune_take; unfold m, w; lia).
  rewrite runes_unfold.
  - rewrite Hd. fold w. rewrite take_take, Nat.min_l by (unfold m; lia).
    rewrite <-Hpre, drop_app_length' by (rewrite length_take; lia). by rewrite IH.
  - intros Hnil. apply (f_equal length) in Hnil. rewrite length_take in Hnil. simpl in Hnil.
    unfold m in Hnil. lia.
Qed.

Lemma valid_take k s : valid s → valid (concat (snd <$> take k (runes s))).
Proof. unfold valid. rewrite runes_take. apply Forall_take. Qed.

(** A valid ASCII string is its own runes. *)
Lemma decode_rune_ascii b s : b2z b < 0x80 → decode_rune (b :: s) = (b2z b, 1%nat).
Proof. intros. unfold decode_rune. by destruct (Z.ltb_spec (b2z b) 0x80); [|lia]. Qed.

(** ** Letters and digits (unicode, strings.ToLower)

    The tables of the [unicode] package are a parameter. *)

(** [unicode.IsLetter], [unicode.IsDigit] and [unicode.ToLower]. *)
Class Unicode := {
  IsLetter : Z → bool;
  IsDigit : Z → bool;
  ToLower : Z → Z
}.

(** The ASCII part of the tables. *)
Class UnicodeLaws `{Unicode} : Prop := {
  IsLetter_ascii r : 0 ≤ r < 0x80 →
    IsLetter r = ((65 <=? r) && (r <=? 90)) || ((97 <=? r) && (r <=? 122));
  IsDigit_ascii r : 0 ≤ r < 0x80 → IsDigit r = (48 <=? r) && (r <=? 57);
  ToLower_ascii r : 0 ≤ r < 0x80 → ToLower r = if (65 <=? r) && (r <=? 90) then r + 32 else r
}.

(** [strings.ToLower]: rune by rune, an invalid byte becoming [RuneError]. *)
Definition strings_ToLower `{Unicode} (s : bytes) : bytes :=
  runes s ≫= λ c, encode_rune (ToLower c.1).

(** The ASCII alphabet. *)
#[export] Instance ascii_unicode : Unicode := {|
  IsLetter r := ((65 <=? r) && (r <=? 90)) || ((97 <=? r) && (r <=? 122));
  IsDigit r := (48 <=? r) && (r <=? 57);
  ToLower r := if (65 <=? r) && (r <=? 90) then r + 32 else r
|}.
#[export] Instance ascii_unicode_laws : UnicodeLaws.
Proof. by split. Qed.


(** Lower-casing an ASCII string is lower-casing its bytes. *)
Definition ascii_lower (c : byte) : byte :=
  if (65 <=? b2z c) && (b2z c <=? 90) then z2b (b2z c + 32) else c.

Lemma encode_rune_ascii r : 0 ≤ r < 0x80 → encode_rune r = [z2b r].
Proof.
  intros Hr. unfold encode_rune, MaxRune.
  rewrite (proj2 (Z.ltb_ge r 0)), (proj2 (Z.ltb_ge 0x10FFFF r)), (proj2 (Z.leb_gt 0xD800 r)) by lia.
  simpl. by rewrite (proj2 (Z.ltb_lt r 0x80)) by lia.
Qed.

Lemma strings_ToLower_ascii `{UnicodeLaws} s :
  Forall (λ c, b2z c < 0x80) s → strings_ToLower s = ascii_lower <$> s.
Proof.
  unfold strings_ToLower. induction 1 as [|c s Hc Hs IH]; [done |].
  rewrite runes_unfold by done. rewrite decode_rune_ascii by done. cbn [snd fst].
  change (drop 1 (c :: s)) with s. cbn [mbind list_bind fst]. rewrite IH.
  rewrite fmap_cons. pose proof (b2z_range c). rewrite ToLower_ascii by lia. unfold ascii_lower.
  destruct ((65 <=? b2z c) && (b2z c <=? 90)) eqn:E.
  - apply andb_true_iff in E as [E1%Z.leb_le E2%Z.leb_le]. by rewrite encode_rune_ascii by lia.
  - rewrite encode_rune_ascii by lia. by rewrite z2b_b2z.
Qed.

(** ** Encoding what was decoded *)
Lemma low6_range b : 0 ≤ low6 b < 64.
Proof. by destruct b. Qed.

Lemma join_add x b : join x b = 64 * x + low6 b.
Proof.
  assert (Hs : Z.shiftr (join x b) 6 = x).
  { unfold join. rewrite Z.shiftr_lor, Z.shiftr_shiftl_l by done.
    replace (Z.shiftr (low6 b) 6) with 0 by by destruct b. by rewrite Z.lor_0_r, Z.shiftl_0_r. }
  assert (Hl : Z.land (join x b) 63 = low6 b).
  { unfold join. rewrite Z.land_lor_distr_l. replace (Z.land (low6 b) 63) with (low6 b) by by destruct b.
    change 63 with (Z.ones 6). by rewrite Z.land_ones, Z.shiftl_mul_pow2, Z_mod_mult by done. }
  rewrite Z.shiftr_div_pow2 in Hs by done. change 63 with (Z.ones 6) in Hl.
  rewrite Z.land_ones in Hl by done. pose proof (Z.div_mod (join x b) (2 ^ 6)). lia.
Qed.

Lemma shiftr_join x b k : 0 ≤ k → Z.shiftr (join x b) (6 + k) = Z.shiftr x k.
Proof.
  intros Hk. rewrite <-Z.shiftr_shiftr by done. f_equal.
  rewrite join_add, Z.shiftr_div_pow2 by done. pose proof (low6_range b).
  symmetry. apply (Z.div_unique _ _ x (low6 b)); lia.
Qed.

(** The continuation byte that carries the low six bits. *)
Definition tail (r : Z) : byte := z2b (Z.lor 0x80 (Z.land r 0x3F)).
Lemma tail_join x b : cont b = true → tail (join x b) = b.
Proof.
  intros Hc. unfold tail. rewrite join_add. change 0x3F with (Z.ones 6). rewrite Z.land_ones by done.
  replace ((64 * x + low6 b) mod 2 ^ 6) with (low6 b).
  - revert Hc. by destruct b.
  - pose proof (low6_range b). rewrite Z.mul_comm, Z.add_comm, Z_mod_plus_full. by rewrite Z.mod_small.
Qed.

(** First and second bytes: every pair, checked. *)
Definition pair_ok (b0 b1 : byte) : bool :=
  match lead (b2z b0) with
  | Some (n, lo, hi) =>
    negb (within lo hi b1) ||
    (cont b1 &&
     match n with
     | 2%nat => let x := Z.land (b2z b0) 0x1F in
       (2 <=? x) && (x <? 32) && bool_decide (z2b (Z.lor 0xC0 x) = b0)
     | 3%nat => let x := Z.land (b2z b0) 0x0F in let y := join x b1 in
       (0x20 <=? y) && (y <? 0x400) && negb ((0x360 <=? y) && (y <=? 0x37F)) &&
       bool_decide (z2b (Z.lor 0xE0 x) = b0)
     | 4%nat => let x := Z.land (b2z b0) 0x07 in let y := join x b1 in
       (0x10 <=? y) && (y <? 0x110) && bool_decide (z2b (Z.lor 0xF0 x) = b0)
     | _ => false
     end)
  | None => true
  end.
Lemma pairs_ok b0 b1 : pair_ok b0 b1 = true.
Proof.
  assert (H : forallb (λ b0, forallb (pair_ok b0) (enum byte)) (enum byte) = true)
    by (vm_compute; reflexivity).
  rewrite forallb_forall in H. specialize (H b0). rewrite <-list_elem_of_In in H.
  specialize (H (elem_of_enum b0)). rewrite forallb_forall in H. apply H.
  rewrite <-list_elem_of_In. apply elem_of_enum.
Qed.

Lemma encode_small r : 0 ≤ r < 0x800 → 0x80 ≤ r → encode_rune r = [z2b (Z.lor 0xC0 (Z.shiftr r 6)); tail r].
Proof.
  intros Hr Hl. unfold encode_rune, MaxRune.
  rewrite (proj2 (Z.ltb_ge r 0)), (proj2 (Z.ltb_ge 0x10FFFF r)), (proj2 (Z.leb_gt 0xD800 r)) by lia.
  simpl. by rewrite (proj2 (Z.ltb_ge r 0x80)), (proj2 (Z.ltb_lt r 0x800)) by lia.
Qed.
Lemma encode_three r :
  0x800 ≤ r < 0x10000 → ¬ (0xD800 ≤ r ≤ 0xDFFF) →
  encode_rune r = [z2b (Z.lor 0xE0 (Z.shiftr r 12)); tail (Z.shiftr r 6); tail r].
Proof.
  intros Hr Hs. unfold encode_rune, MaxRune.
  assert (Hb : (0xD800 <=? r) && (r <=? 0xDFFF) = false).
  { apply andb_false_iff. rewrite !Z.leb_gt. lia. }
  rewrite Hb, (proj2 (Z.ltb_ge r 0)), (proj2 (Z.ltb_ge 0x10FFFF r)) by lia. simpl.
  by rewrite (proj2 (Z.ltb_ge r 0x80)), (proj2 (Z.ltb_ge r 0x800)), (proj2 (Z.ltb_lt r 0x10000)) by lia.
Qed.
Lemma encode_four r :
  0x10000 ≤ r ≤ MaxRune →
  encode_rune r =
    [z2b (Z.lor 0xF0 (Z.shiftr r 18)); tail (Z.shiftr r 12); tail (Z.shiftr r 6); tail r].
Proof.
  unfold encode_rune, MaxRune. intros Hr.
  rewrite (proj2 (Z.ltb_ge r 0)), (proj2 (Z.ltb_ge 0x10FFFF r)), (proj2 (Z.leb_gt r 0xDFFF)) by lia.
  rewrite andb_false_r. simpl.
  by rewrite (proj2 (Z.ltb_ge r 0x80)), (proj2 (Z.ltb_ge r 0x800)), (proj2 (Z.ltb_ge r 0x10000)) by lia.
Qed.

Lemma encode_decoded s :
  s ≠ [] → (fst (decode_rune s) = RuneError → snd (decode_rune s) ≠ 1%nat) →
  encode_rune (fst (decode_rune s)) = take (snd (decode_rune s)) s.
Proof.
  intros Hs. destruct s as [|b0 s1]; [done |]. unfold decode_rune. pose proof (b2z_range b0).
  destruct (Z.ltb_spec (b2z b0) 0x80) as [Ha|Ha].
  { intros _. simpl. rewrite encode_rune_ascii by lia. by rewrite z2b_b2z. }
  destruct (lead (b2z b0)) as [[[n lo] hi]|] eqn:El; [|by intros []].
  destruct s1 as [|b1 s2]; [by intros [] |].
  destruct (within lo hi b1) eqn:Ew; [|by intros []].
  pose proof (pairs_ok b0 b1) as Hp. unfold pair_ok in Hp. rewrite El, Ew in Hp.
  cbn [negb orb] in Hp. apply andb_true_iff in Hp as [Hc1 Hp]. cbn [negb].
  destruct n as [|[|[|[|[|n]]]]]; try done; intros He.
  - apply andb_true_iff in Hp as [[Hx1%Z.leb_le Hx2%Z.ltb_lt]%andb_true_iff Hb%bool_decide_eq_true].
    cbn [fst snd]. pose proof (low6_range b1). rewrite encode_small by (rewrite join_add; lia).
    rewrite (shiftr_join _ b1 0), Z.shiftr_0_r, Hb, tail_join by done. done.
  - destruct s2 as [|b2 s3]; [by destruct He |].
    destruct (cont b2) eqn:Hc2; [|by destruct He]. cbn [fst snd]. rewrite !andb_true_iff in Hp.
    destruct Hp as [[[Hy1%Z.leb_le Hy2%Z.ltb_lt] Hsur] Hb%bool_decide_eq_true].
    apply negb_true_iff, andb_false_iff in Hsur. rewrite !Z.leb_gt in Hsur.
    pose proof (low6_range b2).
    rewrite encode_three by (rewrite (join_add _ b2); lia).
    rewrite (shiftr_join _ b2 6), (shiftr_join _ b1 0), (shiftr_join _ b2 0), !Z.shiftr_0_r by done.
    by rewrite !tail_join, Hb by done.
  - destruct s2 as [|b2 [|b3 s4]]; [by destruct He.. |].
    destruct (cont b2 && cont b3) eqn:Hc2; [|by destruct He]. apply andb_true_iff in Hc2 as [Hc2 Hc3].
    cbn [fst snd]. rewrite !andb_true_iff in Hp.
    destruct Hp as [[Hy1%Z.leb_le Hy2%Z.ltb_lt] Hb%bool_decide_eq_true].
    pose proof (low6_range b2). pose proof (low6_range b3).
    rewrite encode_four by (rewrite (join_add _ b3), (join_add _ b2); unfold MaxRune; lia).
    rewrite (shiftr_join _ b3 12), (shiftr_join _ b2 6), (shiftr_join _ b1 0) by done.
    rewrite (shiftr_join _ b3 6), (shiftr_join _ b2 0), (shiftr_join _ b3 0), !Z.shiftr_0_r by done.
    by rewrite !tail_join, Hb by done.
Qed.

(** [strings.ToValidUTF8] one [RuneError] per invalid byte, as [encoding/json]
    writes text. *)
Definition to_valid (s : bytes) : bytes := runes s ≫= λ c, encode_rune c.1.

Lemma to_valid_id s : valid s → to_valid s = s.
Proof.
  unfold valid, to_valid. induction s as [|s Hs IH] using runes_ind; [done |].
  rewrite runes_unfold by done. intros [Hc Hv]%Forall_cons. cbn [mbind list_bind fst].
  rewrite IH by done. rewrite encode_decoded; [apply take_drop | done |].
  intros E. specialize (Hc E). cbn [snd] in Hc. pose proof (decode_rune_width s Hs).
  rewrite length_take in Hc. lia.
Qed.
End Utf8.
