(* ===== verification/LtepServices.v ===== *)
(** * The services bit field (contracts/ltepwire/services.go)

    The 64-bit mask a node announces, computed from the operator's sharing
    preferences and the live state of the daemon, and its hexadecimal form. *)

From S2P Require Import Prelude GoInt.
Open Scope Z_scope.

Module LtepServices.

Definition BitShareLocal : Z := Z.shiftl 1 0.
Definition BitShareSwarm : Z := Z.shiftl 1 1.
Definition BitFileHits : Z := Z.shiftl 1 2.
Definition BitContentHits : Z := Z.shiftl 1 3.
Definition BitLayerDPublisher : Z := Z.shiftl 1 4.
Definition BitCompanionPublisher : Z := Z.shiftl 1 5.
Definition BitCompanionSubscriber : Z := Z.shiftl 1 6.
Definition BitSnippetHighlight : Z := Z.shiftl 1 7.
Definition BitRegtest : Z := Z.shiftl 1 8.
Definition BitSetReconciliation : Z := Z.shiftl 1 9.

Definition Has (s bit : Z) : bool := Z.land s bit =? bit.
Definition With (s bit : Z) : Z := Z.lor s bit.
Definition Without (s bit : Z) : Z := Z.ldiff s bit.

Record Sharing := { ShareLocal : Z; FileHits : bool; ContentHits : bool }.

Record RuntimeFacts := {
  Publishing : bool; Reconciliation : bool; Regtest : bool; CompanionPub : bool;
  CompanionSub : bool; SnippetHighlight : bool
}.

(** [if b { m |= bit }] *)
Definition or_if (b : bool) (bit m : Z) : Z := if b then Z.lor m bit else m.

Definition Announced (s : Sharing) (f : RuntimeFacts) : Z :=
  let m := 0 in
  let m := if ShareLocal s =? 2 then Z.lor m BitShareLocal
           else if ShareLocal s =? 1 then Z.lor m BitShareSwarm else m in
  let m := or_if (FileHits s) BitFileHits m in
  let m := or_if (ContentHits s) BitContentHits m in
  let m := or_if (Publishing f) BitLayerDPublisher m in
  let m := or_if (CompanionPub f) BitCompanionPublisher m in
  let m := or_if (CompanionSub f) BitCompanionSubscriber m in
  let m := or_if (SnippetHighlight f) BitSnippetHighlight m in
  let m := or_if (Regtest f) BitRegtest m in
  let m := or_if (Reconciliation f) BitSetReconciliation m in
  m.

(** ** fmt's [%016x] *)
Definition hex_digit (d : Z) : byte :=
  if d <? 10 then z2b (48 + d) else z2b (87 + d).

(** The digits of [v], most significant first, without leading zeros. *)
Fixpoint hex_go (fuel : nat) (v : Z) (acc : bytes) : bytes :=
  match fuel with
  | O => acc
  | S fuel =>
    let acc := hex_digit (v mod 16) :: acc in
    if v / 16 =? 0 then acc else hex_go fuel (v / 16) acc
  end.
Definition format_hex (v : Z) : bytes := hex_go 16 v [].

Definition pad_zero (width : nat) (s : bytes) : bytes :=
  replicate (width - length s) x30 ++ s.

Definition FormatHex (v : Z) : bytes := pad_zero 16 (format_hex v).

(** ** The announced bits *)

(** Which input decides bit [n]. *)
Definition announced_bit (s : Sharing) (f : RuntimeFacts) (n : nat) : bool :=
  match n with
  | 0%nat => ShareLocal s =? 2
  | 1%nat => ShareLocal s =? 1
  | 2%nat => FileHits s
  | 3%nat => ContentHits s
  | 4%nat => Publishing f
  | 5%nat => CompanionPub f
  | 6%nat => CompanionSub f
  | 7%nat => SnippetHighlight f
  | 8%nat => Regtest f
  | 9%nat => Reconciliation f
  | _ => false
  end.

Lemma testbit_or_if b k m n :
  0 ≤ k → 0 ≤ n → Z.testbit (or_if b (Z.shiftl 1 k) m) n = Z.testbit m n || (b && (n =? k)).
Proof.
  intros Hk Hn. unfold or_if. destruct b; [|by rewrite orb_false_r].
  rewrite Z.lor_spec, Z.shiftl_1_l, Z.pow2_bits_eqb, (Z.eqb_sym k) by done. done.
Qed.

Lemma announced_testbit s f n :
  0 ≤ n → Z.testbit (Announced s f) n = announced_bit s f (Z.to_nat n).
Proof.
  intros Hn. unfold Announced.
  replace (if ShareLocal s =? 2 then _ else _)
    with (or_if (ShareLocal s =? 1) BitShareSwarm (or_if (ShareLocal s =? 2) BitShareLocal 0)).
  2:{ destruct (Z.eqb_spec (ShareLocal s) 2) as [->|]; [done |]. by destruct (_ =? 1). }
  unfold BitShareLocal, BitShareSwarm, BitFileHits, BitContentHits, BitLayerDPublisher,
    BitCompanionPublisher, BitCompanionSubscriber, BitSnippetHighlight, BitRegtest,
    BitSetReconciliation.
  rewrite !testbit_or_if, Z.bits_0 by done.
  destruct (Z.ltb_spec n 10) as [Hlt|Hge].
  - assert (n ∈ seqZ 0 10) as Hin by (apply elem_of_seqZ; lia).
    revert Hin. cbv [seqZ seq Z.to_nat Pos.to_nat Pos.iter_op fmap list_fmap Nat.add].
    rewrite !elem_of_cons, elem_of_nil.
    intros Hc; destruct_or! Hc; subst n; simpl;
      rewrite ?andb_false_r, ?andb_true_r, ?orb_false_r; done.
  - replace (announced_bit s f (Z.to_nat n)) with false.
    2:{ replace (Z.to_nat n) with (10 + Z.to_nat (n - 10))%nat by lia. done. }
    repeat match goal with |- context [n =? ?k] => rewrite (proj2 (Z.eqb_neq n k)) by lia end.
    by rewrite !andb_false_r.
Qed.

Lemma land_bit m k : 0 ≤ k → Has m (Z.shiftl 1 k) = Z.testbit m k.
Proof.
  intros Hk. unfold Has. rewrite Z.shiftl_1_l. destruct (Z.testbit m k) eqn:E.
  - apply Z.eqb_eq, Z.bits_inj'. intros n Hn. rewrite Z.land_spec, Z.pow2_bits_eqb by done.
    destruct (Z.eqb_spec k n); [subst; by rewrite E | by rewrite andb_false_r].
  - apply Z.eqb_neq. intros Heq. apply (f_equal (λ z, Z.testbit z k)) in Heq.
    rewrite Z.land_spec, Z.pow2_bits_true, E in Heq by done. done.
Qed.

Lemma or_if_range b bit m : 0 ≤ bit < 2 ^ 10 → 0 ≤ m < 2 ^ 10 → 0 ≤ or_if b bit m < 2 ^ 10.
Proof.
  intros Hb Hm. unfold or_if. destruct b; [|done]. split; [apply Z.lor_nonneg; lia |].
  destruct (decide (Z.lor m bit = 0)) as [->|Hne]; [done |].
  assert (0 < Z.lor m bit) by (pose proof (proj2 (Z.lor_nonneg m bit) ltac:(lia)); lia).
  apply Z.log2_lt_pow2; [done |]. rewrite Z.log2_lor by lia.
  assert (∀ x, 0 ≤ x < 2 ^ 10 → Z.log2 x < 10) as Hl.
  { intros x Hx. destruct (decide (x = 0)) as [->|]; [done |]. apply Z.log2_lt_pow2; lia. }
  apply Z.max_lub_lt; by apply Hl.
Qed.

Lemma announced_range s f : 0 ≤ Announced s f < 2 ^ 10.
Proof.
  unfold Announced. repeat (apply or_if_range; [done |]). by repeat case_match.
Qed.

(** ** The hexadecimal form *)
Definition hex_value (c : byte) : option Z :=
  let z := b2z c in
  if (48 <=? z) && (z <=? 57) then Some (z - 48)
  else if (97 <=? z) && (z <=? 102) then Some (z - 87) else None.

(** The number a lower-case hexadecimal string writes, big-endian. *)
Fixpoint parse_hex (acc : Z) (s : bytes) : option Z :=
  match s with
  | [] => Some acc
  | c :: s => d ← hex_value c; parse_hex (acc * 16 + d) s
  end.

Lemma hex_value_digit d : 0 ≤ d < 16 → hex_value (hex_digit d) = Some d.
Proof.
  intros. assert (d ∈ seqZ 0 16) as Hin by (apply elem_of_seqZ; lia).
  revert d H Hin. cut (Forall (λ d, hex_value (hex_digit d) = Some d) (seqZ 0 16)).
  { rewrite Forall_forall. eauto. }
  apply (bool_decide_unpack _). by vm_compute.
Qed.

Lemma hex_go_spec fuel v acc :
  0 ≤ v < 16 ^ Z.of_nat fuel →
  ∃ ds, hex_go fuel v acc = ds ++ acc ∧ (length ds ≤ fuel)%nat ∧
        ∀ a t, parse_hex a (ds ++ t) = parse_hex (a * 16 ^ len ds + v) t.
Proof.
  revert v acc. induction fuel as [|fuel IH]; intros v acc Hv.
  { exists []. split_and!; [done | simpl; lia |]. intros a t. rewrite len_nil. simpl.
    simpl in Hv. f_equal. lia. }
  rewrite Nat2Z.inj_succ, Z.pow_succ_r in Hv by lia.
  pose proof (Z.mod_pos_bound v 16 eq_refl) as Hm. pose proof (Z.div_mod v 16 ltac:(lia)) as Hd.
  simpl hex_go. destruct (Z.eqb_spec (v / 16) 0) as [Hz|Hnz].
  - exists [hex_digit (v mod 16)]. split_and!; [done | simpl; lia |]. intros a t.
    simpl. rewrite hex_value_digit by done. simpl. f_equal. change (16 ^ len [_]) with 16. lia.
  - destruct (IH (v / 16) (hex_digit (v mod 16) :: acc)) as (ds & -> & Hl & Hp).
    { split; [apply Z.div_pos; lia |]. apply Z.div_lt_upper_bound; lia. }
    exists (ds ++ [hex_digit (v mod 16)]). rewrite <-!app_assoc. split_and!; [done | |].
    + rewrite length_app. simpl. lia.
    + intros a t. rewrite <-app_assoc. rewrite Hp. simpl. rewrite hex_value_digit by done. simpl.
      f_equal. rewrite len_app, Z.pow_add_r by (try apply len_nonneg; lia).
      change (16 ^ len [_]) with 16. lia.
Qed.

Lemma parse_hex_zeros n a t : parse_hex a (replicate n x30 ++ t) = parse_hex (a * 16 ^ Z.of_nat n) t.
Proof.
  revert a. induction n as [|n IH]; intros a; [simpl; f_equal; lia |].
  change (replicate (S n) x30 ++ t) with (x30 :: (replicate n x30 ++ t)). simpl parse_hex.
  change (hex_value x30) with (Some 0). cbn [mbind option_bind]. rewrite IH. f_equal.
  rewrite Nat2Z.inj_succ, Z.pow_succ_r by lia.
  change (b2z x30 - 48) with 0. ring.
Qed.

(** Sixteen lower-case hexadecimal digits, most significant first, from which
    the mask is read back. *)
Lemma FormatHex_parse (v : Z) (Hv : is_u64 v) :
  length (FormatHex v) = 16%nat ∧ parse_hex 0 (FormatHex v) = Some v.
Proof.
  destruct (hex_go_spec 16 v []) as (ds & Hds & Hl & Hp); [exact Hv |].
  unfold FormatHex, format_hex, pad_zero. rewrite Hds, app_nil_r. split.
  - rewrite length_app, length_replicate. lia.
  - rewrite parse_hex_zeros, <-(app_nil_r ds), Hp. simpl. f_equal.
Qed.

(** Every bit of the announced mask is decided by exactly one input: a
    cleared preference clears its bit (there is no default floor), bits 0 and 1
    exclude each other and the reserved bits 10..63 are zero.  A peer that reads
    the mask with [Has] sees each bit, and the readout [FormatHex] is sixteen
    hexadecimal digits from which the mask is read back. *)
Lemma Announced_bits (s : Sharing) (f : RuntimeFacts) :
  (∀ n, 0 ≤ n → Z.testbit (Announced s f) n = announced_bit s f (Z.to_nat n)) ∧
  (∀ n, 0 ≤ n → Has (Announced s f) (Z.shiftl 1 n) = announced_bit s f (Z.to_nat n)) ∧
  Has (Announced s f) BitShareLocal && Has (Announced s f) BitShareSwarm = false ∧
  0 ≤ Announced s f < 2 ^ 10 ∧
  length (FormatHex (Announced s f)) = 16%nat ∧
  parse_hex 0 (FormatHex (Announced s f)) = Some (Announced s f).
Proof.
  pose proof (announced_range s f) as Hr.
  destruct (FormatHex_parse (Announced s f)) as [Hl Hp]; [unfold is_u64; lia |].
  split_and!; [by apply announced_testbit | | | lia | lia | done | done].
  - intros n Hn. rewrite land_bit by done. by apply announced_testbit.
  - unfold BitShareLocal, BitShareSwarm. rewrite !land_bit, !announced_testbit by done. simpl.
    destruct (Z.eqb_spec (ShareLocal s) 2) as [->|]; done.
Qed.

Lemma Announced_bits_witness :
  let s := {| ShareLocal := 2; FileHits := true; ContentHits := false |} in
  let f := {| Publishing := false; Reconciliation := true; Regtest := false; CompanionPub := true;
              CompanionSub := false; SnippetHighlight := true |} in
  FormatHex (Announced s f) = str "00000000000002a5" ∧
  parse_hex 0 (FormatHex (Announced s f)) = Some (Announced s f).
Proof.
  intros s f. destruct (Announced_bits s f) as (_ & _ & _ & _ & _ & Hp).
  split; [reflexivity | exact Hp].
Defined.
End LtepServices.
