(* ===== verification/Ltepwire.v ===== *)
(** * The sn_search messages (contracts/ltepwire/wire.go, bounded.go)

    The query, result, reject and peer_announce messages: their encoders, which
    normalise, and their decoders, which validate.  A value a decoder accepts is
    within the caps of the contract, whatever the bytes. *)

From S2P Require Import Prelude GoInt Externals Instances Utf8.
Open Scope Z_scope.

Module Ltepwire.
Import Utf8.

(** ** Constants *)
Definition ProtocolVersion : Z := 1.
Definition DefaultScope : bytes := str "nfc".
Definition MaxEndorsedPerAnnounce : Z := 10.
Definition MaxHitNameBytes : Z := 60.

Definition MsgTypeQuery : Z := 0.
Definition MsgTypeResult : Z := 1.
Definition MsgTypeReject : Z := 2.
Definition MsgTypePeerAnnounce : Z := 3.
Definition MsgTypeSyncBegin : Z := 4.
Definition MsgTypeSyncSymbols : Z := 5.
Definition MsgTypeSyncNeed : Z := 6.
Definition MsgTypeSyncRecords : Z := 7.
Definition MsgTypeSyncEnd : Z := 8.

Definition RejectRateLimited : Z := 0.
Definition RejectTooExpensive : Z := 1.
Definition RejectUnsupportedScope : Z := 2.
Definition RejectQueryTooBroad : Z := 3.
Definition RejectShuttingDown : Z := 4.

Inductive error : Type :=
  | ErrBencode                     (* the bencode library refused *)
  | ErrMsgType (got : Z)           (* "not a ..., msg_type=%d" *)
  | ErrEndorsedCap                 (* errEndorsedCap *)
  | ErrEndorsedLen (got : Z)       (* "endorsed entry must be 32 bytes" *)
  | ErrElementSize (got : Z)
  | ErrSymbolCount (got : Z)
  | ErrSymbolLen (got : Z)
  | ErrNeedCount (got : Z)
  | ErrNeedLen (got : Z)
  | ErrRecordCount (got : Z)
  | ErrRecordPk (got : Z)
  | ErrRecordIh (got : Z)
  | ErrRecordSig (got : Z)
  | ErrRecordKw (got : Z).

(** ** Messages

    A slice that is never omitted on the wire and that the code compares with
    [nil] is an [option]. *)
Record Query := {
  q_MsgType : Z; q_TxID : Z; q_Q : bytes; q_Scope : bytes; q_Limit : Z;
  q_Lang : bytes; q_MinSize : Z; q_MaxSize : Z; q_NotIH : list bytes
}.

Record FileMatch := { FI : Z; FP : bytes; Off : Z; Pr : bytes; Sn : bytes }.

Record Hit := {
  IH : bytes; IH2 : bytes; N : bytes; S_ : Z; L : Z; Sz : Z; T : Z; Rank : Z;
  Matches : list FileMatch
}.

Record Result := {
  res_MsgType : Z; res_TxID : Z; res_Total : Z; res_Partial : Z; res_Hits : option (list Hit)
}.

Record Reject := { rej_MsgType : Z; rej_TxID : Z; rej_Code : Z; rej_Reason : bytes }.

Record PeerAnnounce := {
  pa_MsgType : Z; pa_Version : Z; pa_Services : Z; pa_Pk : bytes; pa_Endorsed : list bytes
}.

Record peekHeader := { h_MsgType : Z; h_TxID : Z }.

#[export] Instance query_wire : Wire Query := λ q,
  is_i64 (q_MsgType q) ∧ is_u32 (q_TxID q) ∧ is_i64 (q_Limit q) ∧
  is_i64 (q_MinSize q) ∧ is_i64 (q_MaxSize q).
Definition match_ok (m : FileMatch) : Prop := is_i64 (FI m) ∧ is_i64 (Off m).
Definition hit_ok (h : Hit) : Prop :=
  is_i64 (S_ h) ∧ is_i64 (L h) ∧ is_i64 (Sz h) ∧ is_i64 (T h) ∧ is_i64 (Rank h) ∧
  Forall match_ok (Matches h).
Definition result_ok (r : Result) : Prop :=
  is_u32 (res_TxID r) ∧ is_i64 (res_Total r) ∧ is_i64 (res_Partial r) ∧
  Forall hit_ok (default [] (res_Hits r)).
#[export] Instance result_wire : Wire Result := λ r,
  is_i64 (res_MsgType r) ∧ result_ok r ∧ is_Some (res_Hits r).
#[export] Instance reject_wire : Wire Reject := λ r,
  is_i64 (rej_MsgType r) ∧ is_u32 (rej_TxID r) ∧ is_i64 (rej_Code r).
#[export] Instance announce_wire : Wire PeerAnnounce := λ p,
  is_i64 (pa_MsgType p) ∧ is_i64 (pa_Version p) ∧ is_u64 (pa_Services p).

(** ** Bounded decoding (bounded.go)

    [MaxStrLen] is tightened to the payload length; the zero left for an empty
    payload stands for the library's default. *)
Definition decodeBounded {V} `{Bencode V} (payload : bytes) : result error V :=
  let n := len payload in
  let MaxStrLen := if 0 <? n then n else 0 in
  match unmarshal MaxStrLen payload with Some v => Ok v | None => Err ErrBencode end.

Definition Marshal {V} `{Bencode V} (v : V) : result error bytes :=
  match marshal v with Some b => Ok b | None => Err ErrBencode end.

(** ** Normalisation *)
Definition clampRank (r : Z) : Z := if r <? 0 then 0 else if 1000 <? r then 1000 else r.

(** The loop of [truncateUTF8] from index [i] on the string [s[i:]]; it ends
    because every rune is at least a byte wide, so [len(s)] rounds suffice. *)
Fixpoint truncate_go (fuel : nat) (i : nat) (rest : bytes) (max : Z) : nat :=
  match fuel, rest with
  | S fuel, _ :: _ =>
    let size := snd (decode_rune rest) in
    if max <? Z.of_nat (i + size) then i else truncate_go fuel (i + size) (drop size rest) max
  | _, _ => i
  end.

Definition truncateUTF8 (s : bytes) (max : Z) : bytes :=
  if len s <=? max then s else take (truncate_go (length s) 0 s max) s.

Definition normMatch (m : FileMatch) : FileMatch :=
  {| FI := FI m; FP := truncateUTF8 (FP m) MaxHitNameBytes; Off := Off m; Pr := Pr m; Sn := Sn m |}.

Definition normHit (h : Hit) : Hit := {|
  IH := IH h; IH2 := IH2 h; N := truncateUTF8 (N h) MaxHitNameBytes;
  S_ := S_ h; L := L h; Sz := Sz h;
  T := if T h <? 0 then 0 else T h;
  Rank := clampRank (Rank h);
  Matches := normMatch <$> Matches h
|}.

(** What [EncodeResult] leaves in the hits it was given: [norm] copies a hit,
    but its [Matches] are the caller's. *)
Definition callerHit (h : Hit) : Hit := {|
  IH := IH h; IH2 := IH2 h; N := N h; S_ := S_ h; L := L h; Sz := Sz h; T := T h;
  Rank := Rank h; Matches := normMatch <$> Matches h
|}.

(** ** Encoders *)
Section codec.
Context `{Bencode Query, Bencode Result, Bencode Reject, Bencode PeerAnnounce, Bencode peekHeader}.

Definition stampQuery (q : Query) : Query := {|
  q_MsgType := MsgTypeQuery; q_TxID := q_TxID q; q_Q := q_Q q; q_Scope := q_Scope q;
  q_Limit := q_Limit q; q_Lang := q_Lang q; q_MinSize := q_MinSize q; q_MaxSize := q_MaxSize q;
  q_NotIH := q_NotIH q
|}.
Definition EncodeQuery (q : Query) : result error bytes := Marshal (stampQuery q).

Definition normResult (r : Result) : Result := {|
  res_MsgType := MsgTypeResult; res_TxID := res_TxID r; res_Total := res_Total r;
  res_Partial := res_Partial r;
  res_Hits := Some (normHit <$> default [] (res_Hits r))
|}.
Definition callerResult (r : Result) : Result := {|
  res_MsgType := res_MsgType r; res_TxID := res_TxID r; res_Total := res_Total r;
  res_Partial := res_Partial r; res_Hits := option_map (map callerHit) (res_Hits r)
|}.
(** The frame, and the argument as the call leaves it. *)
Definition EncodeResult (r : Result) : result error bytes * Result :=
  (Marshal (normResult r), callerResult r).

Definition stampReject (r : Reject) : Reject := {|
  rej_MsgType := MsgTypeReject; rej_TxID := rej_TxID r; rej_Code := rej_Code r;
  rej_Reason := rej_Reason r
|}.
Definition EncodeReject (r : Reject) : result error bytes := Marshal (stampReject r).

Definition stampPeerAnnounce (pa : PeerAnnounce) : PeerAnnounce := {|
  pa_MsgType := MsgTypePeerAnnounce; pa_Version := ProtocolVersion;
  pa_Services := pa_Services pa; pa_Pk := pa_Pk pa; pa_Endorsed := pa_Endorsed pa
|}.

(** A loop that returns the first error over a slice. *)
Definition check_all {A} (ok : A → bool) (err : A → error) (l : list A) : result error unit :=
  fold_result (λ _ x, check (ok x) ! (err x); Ok tt) tt l.

Definition EncodePeerAnnounce (pa : PeerAnnounce) : result error bytes :=
  let pa := stampPeerAnnounce pa in
  check (negb (MaxEndorsedPerAnnounce <? len (pa_Endorsed pa))) ! ErrEndorsedCap;
  _ ← check_all (λ e : bytes, len e =? 32) (λ e, ErrEndorsedLen (len e)) (pa_Endorsed pa);
  Marshal pa.

(** ** Decoders *)
Definition PeekMsgType (payload : bytes) : result error Z :=
  h ← decodeBounded payload; Ok (h_MsgType h).

Definition PeekTxID (payload : bytes) : Z :=
  match decodeBounded payload with Ok h => h_TxID h | Err _ => 0 end.

Definition DecodeQuery (payload : bytes) : result error Query :=
  q ← decodeBounded payload;
  check (q_MsgType q =? MsgTypeQuery) ! (ErrMsgType (q_MsgType q)); Ok q.

Definition DecodeResult (payload : bytes) : result error Result :=
  r ← decodeBounded payload;
  check (res_MsgType r =? MsgTypeResult) ! (ErrMsgType (res_MsgType r)); Ok r.

Definition DecodeReject (payload : bytes) : result error Reject :=
  r ← decodeBounded payload;
  check (rej_MsgType r =? MsgTypeReject) ! (ErrMsgType (rej_MsgType r)); Ok r.

(** The cleaning loop: [clean] is the accumulated slice. *)
Fixpoint clean_endorsed (clean l : list bytes) : list bytes :=
  match l with
  | [] => clean
  | e :: l =>
    if MaxEndorsedPerAnnounce <=? len clean then clean
    else if len e =? 32 then clean_endorsed (clean ++ [e]) l
    else clean_endorsed clean l
  end.

Definition DecodePeerAnnounce (payload : bytes) : result error PeerAnnounce :=
  pa ← decodeBounded payload;
  check (pa_MsgType pa =? MsgTypePeerAnnounce) ! (ErrMsgType (pa_MsgType pa));
  Ok (if 0 <? len (pa_Endorsed pa) then {|
        pa_MsgType := pa_MsgType pa; pa_Version := pa_Version pa;
        pa_Services := pa_Services pa; pa_Pk := pa_Pk pa;
        pa_Endorsed := clean_endorsed [] (pa_Endorsed pa)
      |} else pa).
End codec.

(** ** Cutting a name

    [rune_cut s max t]: [t] is [s] cut after as many whole runes as fit in [max]
    bytes. *)
Definition rune_cut (s : bytes) (max : Z) (t : bytes) : Prop :=
  ∃ k, t = concat (snd <$> take k (runes s)) ∧ len t ≤ max ∧
       ∀ c, runes s !! k = Some c → max < len t + len c.2.

Lemma truncate_go_spec fuel i s max :
  (length s ≤ fuel)%nat → Z.of_nat i ≤ max →
  ∃ k, truncate_go fuel i s max = (i + length (concat (snd <$> take k (runes s))))%nat ∧
       Z.of_nat (truncate_go fuel i s max) ≤ max ∧
       ∀ c, runes s !! k = Some c → max < Z.of_nat (truncate_go fuel i s max) + len c.2.
Proof.
  revert i s. induction fuel as [|fuel IH]; intros i s Hf Hi.
  { destruct s; [|simpl in Hf; lia]. exists 0%nat. simpl. split_and!; [lia | done | done]. }
  destruct (decide (s = [])) as [->|Hs].
  { exists 0%nat. simpl. split_and!; [lia | done | done]. }
  pose proof (decode_rune_width s Hs) as Hw. rewrite (runes_unfold s Hs).
  set (w := snd (decode_rune s)) in *.
  assert (Hgo : truncate_go (S fuel) i s max =
    if max <? Z.of_nat (i + w) then i else truncate_go fuel (i + w) (drop w s) max)
    by (destruct s; done).
  rewrite Hgo. destruct (Z.ltb_spec max (Z.of_nat (i + w))) as [Hgt|Hle].
  - exists 0%nat. split_and!; [simpl; lia | done |]. intros c [= <-]. unfold len. simpl.
    rewrite length_take. lia.
  - destruct (IH (i + w)%nat (drop w s)) as (k & Hk & Hm & Hn); [rewrite length_drop; lia | done |].
    exists (S k). split_and!; [|done |by apply Hn].
    rewrite Hk. cbn [take]. rewrite fmap_cons. cbn [concat snd].
    rewrite length_app, length_take. lia.
Qed.

Lemma truncateUTF8_cut s max : 0 ≤ max → rune_cut s max (truncateUTF8 s max).
Proof.
  intros Hmax. unfold truncateUTF8. destruct (Z.leb_spec (len s) max) as [Hle|Hgt].
  - exists (length (runes s)). rewrite firstn_all, runes_concat. split_and!; [done | done |].
    intros c Hc. by rewrite lookup_ge_None_2 in Hc.
  - destruct (truncate_go_spec (length s) 0 s max) as (k & Hk & Hm & Hn); [lia | done |].
    exists k. rewrite Nat.add_0_l in Hk.
    assert (Ht : take (truncate_go (length s) 0 s max) s = concat (snd <$> take k (runes s))).
    { rewrite Hk. symmetry. apply runes_prefix. }
    rewrite Ht. unfold len at 1 2. rewrite <-Hk. done.
Qed.

Lemma rune_cut_prefix s max t : rune_cut s max t → t `prefix_of` s.
Proof.
  intros (k & -> & _). exists (concat (snd <$> drop k (runes s))).
  by rewrite <-concat_app, <-fmap_app, take_drop, runes_concat.
Qed.

Lemma rune_cut_valid s max t : rune_cut s max t → valid s → valid t.
Proof. intros (k & -> & _). apply valid_take. Qed.

(** Less than a rune is lost: an over-long string keeps more than [max - 4]
    bytes, so a name that is not UTF-8 does not collapse. *)
Lemma rune_cut_long s max t : rune_cut s max t → max < len s → max - 4 < len t.
Proof.
  intros (k & -> & Hle & Hn) Hs. destruct (runes s !! k) as [c|] eqn:E.
  - specialize (Hn c eq_refl). pose proof (runes_chunk s) as Hc.
    eapply Forall_lookup_1 in Hc; [|exact E]. unfold len in *. lia.
  - apply lookup_ge_None in E. rewrite take_ge, runes_concat in Hle by done. lia.
Qed.

Lemma clampRank_range r : 0 ≤ clampRank r ≤ 1000.
Proof. unfold clampRank. destruct (Z.ltb_spec r 0), (Z.ltb_spec 1000 r); lia. Qed.

(** ** Round trips *)
Lemma decodeBounded_marshal `{BencodeLaws V} (v : V) b :
  wire_ok v → Marshal v = Ok b → decodeBounded b = Ok v.
Proof.
  intros Hv. unfold Marshal, decodeBounded. destruct (marshal v) as [b'|] eqn:E; [|done].
  intros [= ->]. rewrite (unmarshal_marshal v b) by (try done; destruct (Z.ltb_spec 0 (len b)); lia).
  done.
Qed.

Lemma Marshal_total `{BencodeLaws V} (v : V) : wire_ok v → ∃ b, Marshal v = Ok b.
Proof. intros Hv. unfold Marshal. destruct (marshal_total v Hv) as [b ->]. eauto. Qed.

(** The two steps together: what is marshalled decodes to itself. *)
Lemma Marshal_decode `{BencodeLaws V} (v : V) :
  wire_ok v → ∃ b, Marshal v = Ok b ∧ decodeBounded b = Ok v.
Proof.
  intros Hv. destruct (Marshal_total v Hv) as [b Hb]. exists b.
  split; [done | by apply decodeBounded_marshal].
Qed.

Lemma normMatch_ok m : match_ok m → match_ok (normMatch m).
Proof. done. Qed.

Lemma normHit_ok h : hit_ok h → hit_ok (normHit h).
Proof.
  intros (HS & HL & Hz & HT & HR & HM). unfold hit_ok. simpl. split_and!; try done.
  - by destruct (T h <? 0).
  - pose proof (clampRank_range (Rank h)). unfold is_i64. lia.
  - apply Forall_fmap. eapply Forall_impl; [exact HM | apply normMatch_ok].
Qed.

Lemma normResult_ok r : result_ok r → wire_ok (normResult r).
Proof.
  intros (Ht & Htot & Hp & Hh). unfold wire_ok, result_wire, result_ok. simpl.
  split_and!; try done. apply Forall_fmap. eapply Forall_impl; [exact Hh | apply normHit_ok].
Qed.

(** How a hit on the wire relates to the hit that was encoded. *)
Definition match_on_wire (m m' : FileMatch) : Prop :=
  FI m' = FI m ∧ Off m' = Off m ∧ Pr m' = Pr m ∧ Sn m' = Sn m ∧
  rune_cut (FP m) MaxHitNameBytes (FP m').
Definition hit_on_wire (h h' : Hit) : Prop :=
  IH h' = IH h ∧ IH2 h' = IH2 h ∧ S_ h' = S_ h ∧ L h' = L h ∧ Sz h' = Sz h ∧
  rune_cut (N h) MaxHitNameBytes (N h') ∧
  T h' = Z.max 0 (T h) ∧ Rank h' = Z.max 0 (Z.min 1000 (Rank h)) ∧
  Forall2 match_on_wire (Matches h) (Matches h').

Lemma normHit_wire h : hit_on_wire h (normHit h).
Proof.
  unfold hit_on_wire. simpl. split_and!; try done.
  - by apply truncateUTF8_cut.
  - destruct (Z.ltb_spec (T h) 0); lia.
  - unfold clampRank. destruct (Z.ltb_spec (Rank h) 0), (Z.ltb_spec 1000 (Rank h)); lia.
  - apply Forall2_fmap_r, Forall_Forall2_diag, Forall_all. intros m.
    unfold match_on_wire. simpl. split_and!; try done. by apply truncateUTF8_cut.
Qed.

Lemma result_decode {BR : Bencode Result} {BL : BencodeLaws Result} r :
  result_ok r → ∃ b, fst (EncodeResult r) = Ok b ∧ DecodeResult b = Ok (normResult r).
Proof.
  intros Hr. destruct (Marshal_decode (normResult r)) as (b & Hb & Hd).
  { by apply normResult_ok. }
  exists b. split; [exact Hb |]. unfold DecodeResult. by rewrite Hd.
Qed.

(** A result of any hits encodes, and the frame decodes to a result with the
    same transaction and counts and one hit per hit, an absent hit list becoming
    an empty one.  On the wire a name and a file path are the longest run of
    whole runes within 60 bytes (valid UTF-8 stays valid), the rank is clamped to
    0..1000 and a negative timestamp is dropped; everything else is the
    caller's. *)
Lemma result_roundtrip {BR : Bencode Result} {BL : BencodeLaws Result} (r : Result)
    (Hr : result_ok r) :
  ∃ b r' hits,
    fst (EncodeResult r) = Ok b ∧ DecodeResult b = Ok r' ∧
    res_MsgType r' = MsgTypeResult ∧ res_TxID r' = res_TxID r ∧
    res_Total r' = res_Total r ∧ res_Partial r' = res_Partial r ∧
    res_Hits r' = Some hits ∧ Forall2 hit_on_wire (default [] (res_Hits r)) hits ∧
    Forall2 (λ h h', valid (N h) → valid (N h')) (default [] (res_Hits r)) hits.
Proof.
  destruct (result_decode r Hr) as (b & Hb & Hd).
  exists b, (normResult r), (normHit <$> default [] (res_Hits r)).
  split_and!; try done; apply Forall2_fmap_r, Forall_Forall2_diag, Forall_all; intros h.
  - apply normHit_wire.
  - intros Hv. eapply rune_cut_valid; [|exact Hv].
    destruct (normHit_wire h) as (_ & _ & _ & _ & _ & Hn & _). exact Hn.
Qed.

(** ** Announcements *)
Definition endorsed_ok (l : list bytes) : Prop :=
  len l ≤ MaxEndorsedPerAnnounce ∧ Forall (λ e : bytes, len e = 32) l.

Lemma check_all_ok {A} (ok : A → bool) (err : A → error) l :
  check_all ok err l = Ok tt ↔ Forall (λ x, ok x = true) l.
Proof.
  unfold check_all. induction l as [|x l IH]; simpl; [split; [constructor | done] |].
  rewrite Forall_cons. destruct (ok x); simpl.
  - rewrite IH. tauto.
  - split; [done | by intros [? _]].
Qed.

Lemma check_all_err {A} (ok : A → bool) (err : A → error) l :
  ¬ Forall (λ x, ok x = true) l → ∃ x, x ∈ l ∧ ok x = false ∧ check_all ok err l = Err (err x).
Proof.
  unfold check_all. induction l as [|x l IH]; simpl; intros Hn.
  { destruct Hn. constructor. }
  destruct (ok x) eqn:E; simpl.
  - destruct IH as (y & Hy & Ho & He); [intros Hl; apply Hn; by constructor |].
    exists y. split_and!; [by right | done | done].
  - exists x. split_and!; [by left | done | done].
Qed.

Lemma check_all_len {A B} (f : A → list B) n (err : A → error) l :
  check_all (λ x, len (f x) =? n) err l = Ok tt ↔ Forall (λ x, len (f x) = n) l.
Proof. rewrite check_all_ok. apply Forall_iff. intros x. apply Z.eqb_eq. Qed.

(** The cleaning loop keeps the first ten entries of 32 bytes. *)
Lemma clean_endorsed_spec clean l :
  clean_endorsed clean l
  = if MaxEndorsedPerAnnounce <=? len clean then clean
    else take (Z.to_nat MaxEndorsedPerAnnounce) (clean ++ filter (λ e : bytes, len e = 32) l).
Proof.
  revert clean. induction l as [|e l IH]; intros clean; simpl.
  - rewrite app_nil_r. destruct (Z.leb_spec MaxEndorsedPerAnnounce (len clean)); [done |].
    rewrite take_ge; [done | unfold len in *; lia].
  - destruct (Z.leb_spec MaxEndorsedPerAnnounce (len clean)) as [|Hlt]; [done |].
    rewrite filter_cons, !IH. destruct (Z.eqb_spec (len e) 32) as [He|He].
    + rewrite decide_True by done. rewrite len_app. change (len [e]) with 1.
      destruct (Z.leb_spec MaxEndorsedPerAnnounce (len clean + 1)).
      * rewrite (cons_middle e clean (filter _ l)), app_assoc, take_app_exact; [done |].
        rewrite length_app. unfold MaxEndorsedPerAnnounce, len in *. simpl. lia.
      * by rewrite <-app_assoc.
    + rewrite decide_False by done. destruct (Z.leb_spec MaxEndorsedPerAnnounce (len clean)); [lia |].
      done.
Qed.

Definition clean (l : list bytes) : list bytes :=
  take (Z.to_nat MaxEndorsedPerAnnounce) (filter (λ e : bytes, len e = 32) l).

Lemma clean_ok l : endorsed_ok (clean l).
Proof.
  unfold clean, endorsed_ok. split.
  - unfold len. rewrite length_take. unfold MaxEndorsedPerAnnounce. lia.
  - apply Forall_take. apply list.Forall_forall. intros e He.
    by apply list_elem_of_filter in He as [? _].
Qed.

Lemma clean_id l : endorsed_ok l → clean l = l.
Proof.
  intros [Hl Hf]. unfold clean. rewrite filter_all by done.
  apply take_ge. unfold len, MaxEndorsedPerAnnounce in *. lia.
Qed.

Definition with_endorsed (pa : PeerAnnounce) (l : list bytes) : PeerAnnounce := {|
  pa_MsgType := pa_MsgType pa; pa_Version := pa_Version pa; pa_Services := pa_Services pa;
  pa_Pk := pa_Pk pa; pa_Endorsed := l
|}.

Lemma DecodePeerAnnounce_clean `{Bencode PeerAnnounce} b :
  DecodePeerAnnounce b =
    pa ← decodeBounded b;
    check (pa_MsgType pa =? MsgTypePeerAnnounce) ! (ErrMsgType (pa_MsgType pa));
    Ok (with_endorsed pa (clean (pa_Endorsed pa))).
Proof.
  unfold DecodePeerAnnounce. destruct (decodeBounded b) as [pa|]; [|done]. simpl.
  destruct (_ =? _); [|done]. f_equal. rewrite clean_endorsed_spec. simpl.
  destruct pa as [mt v sv pk [|e l]]; [done |].
  destruct (Z.ltb_spec 0 (len (e :: l))) as [|Hn]; [done |]. rewrite len_cons in Hn.
  pose proof (len_nonneg l). lia.
Qed.

(** The endorsement list is strict on encode and lenient on decode.  An
    announcement encodes exactly when it endorses at most ten keys, all of 32
    bytes, and then decodes to itself with its type and version stamped.  A
    frame the decoder accepts, whatever its bytes, keeps the first ten 32-byte
    entries of its list: a malformed entry never fails the frame. *)
Lemma announce_asymmetric {BP : Bencode PeerAnnounce} {BL : BencodeLaws PeerAnnounce}
    (pa : PeerAnnounce) (Hs : is_u64 (pa_Services pa)) :
  (endorsed_ok (pa_Endorsed pa) →
   ∃ b, EncodePeerAnnounce pa = Ok b ∧ DecodePeerAnnounce b = Ok (stampPeerAnnounce pa)) ∧
  (¬ endorsed_ok (pa_Endorsed pa) → ∀ b, EncodePeerAnnounce pa ≠ Ok b) ∧
  (∀ b raw, unmarshal (len b) b = Some raw → pa_MsgType raw = MsgTypePeerAnnounce →
   ∃ pa', DecodePeerAnnounce b = Ok pa' ∧ endorsed_ok (pa_Endorsed pa') ∧
          pa' = with_endorsed raw (clean (pa_Endorsed raw))).
Proof.
  split_and!.
  - intros [Hl Hf]. destruct (Marshal_decode (stampPeerAnnounce pa)) as (b & Hb & Hd).
    { done. }
    exists b. split.
    + unfold EncodePeerAnnounce. simpl pa_Endorsed.
      destruct (Z.ltb_spec MaxEndorsedPerAnnounce (len (pa_Endorsed pa))); [lia |]. simpl.
      by rewrite (proj2 (check_all_len id 32 _ _) Hf).
    + rewrite DecodePeerAnnounce_clean, Hd. simpl. by rewrite clean_id.
  - intros Hn b Hb. apply Hn. unfold EncodePeerAnnounce in Hb. simpl pa_Endorsed in Hb.
    apply check_ok_inv in Hb as [Hl Hb]. apply bind_ok_inv in Hb as ([] & Hc & _).
    apply negb_true_iff, Z.ltb_ge in Hl. apply (check_all_len id) in Hc. done.
  - intros b raw Hu Ht. eexists. rewrite DecodePeerAnnounce_clean. unfold decodeBounded.
    replace (if 0 <? len b then len b else 0) with (len b).
    2:{ pose proof (len_nonneg b). destruct (Z.ltb_spec 0 (len b)); lia. }
    rewrite Hu. simpl. rewrite Ht. simpl. split_and!; [done | apply clean_ok | done].
Qed.

(** Results and announcements.  A result of any hits encodes, and the frame
    decodes to a result with the same transaction and counts and one hit per hit,
    an absent hit list becoming an empty one.  On the wire a name and a file path
    are the longest run of whole runes within 60 bytes (valid UTF-8 stays valid),
    the rank is clamped to 0..1000 and a negative timestamp is dropped; everything
    else is the caller's.  The endorsement list is strict on encode and lenient on
    decode: an announcement encodes exactly when it endorses at most ten keys, all
    of 32 bytes, and then decodes to itself with its type and version stamped; a
    frame the decoder accepts, whatever its bytes, keeps the first ten 32-byte
    entries of its list. *)
Lemma results_and_announcements
    {BR : Bencode Result} {LR : BencodeLaws Result}
    {BP : Bencode PeerAnnounce} {LP : BencodeLaws PeerAnnounce} :
  (∀ r, result_ok r →
   ∃ b r' hits,
     fst (EncodeResult r) = Ok b ∧ DecodeResult b = Ok r' ∧
     res_MsgType r' = MsgTypeResult ∧ res_TxID r' = res_TxID r ∧
     res_Total r' = res_Total r ∧ res_Partial r' = res_Partial r ∧
     res_Hits r' = Some hits ∧ Forall2 hit_on_wire (default [] (res_Hits r)) hits ∧
     Forall2 (λ h h', valid (N h) → valid (N h')) (default [] (res_Hits r)) hits) ∧
  (∀ pa, is_u64 (pa_Services pa) →
   (endorsed_ok (pa_Endorsed pa) →
    ∃ b, EncodePeerAnnounce pa = Ok b ∧ DecodePeerAnnounce b = Ok (stampPeerAnnounce pa)) ∧
   (¬ endorsed_ok (pa_Endorsed pa) → ∀ b, EncodePeerAnnounce pa ≠ Ok b)) ∧
  (∀ b raw, unmarshal (len b) b = Some raw → pa_MsgType raw = MsgTypePeerAnnounce →
   ∃ pa, DecodePeerAnnounce b = Ok pa ∧ endorsed_ok (pa_Endorsed pa) ∧
         pa = with_endorsed raw (clean (pa_Endorsed raw))).
Proof.
  split; [apply result_roundtrip |]. split.
  - intros pa Hs. destruct (announce_asymmetric pa Hs) as (H1 & H2 & _). by split.
  - by apply (announce_asymmetric (Build_PeerAnnounce 0 0 0 [] [])).
Qed.


(** ** Concrete codecs *)
#[export] Instance Query_dec : EqDecision Query. Proof. solve_decision. Defined.
#[export] Instance FileMatch_dec : EqDecision FileMatch. Proof. solve_decision. Defined.
#[export] Instance Hit_dec : EqDecision Hit. Proof. solve_decision. Defined.
#[export] Instance Result_dec : EqDecision Result. Proof. solve_decision. Defined.
#[export] Instance Reject_dec : EqDecision Reject. Proof. solve_decision. Defined.
#[export] Instance PeerAnnounce_dec : EqDecision PeerAnnounce. Proof. solve_decision. Defined.
#[export] Instance peekHeader_dec : EqDecision peekHeader. Proof. solve_decision. Defined.

#[export] Program Instance Query_countable : Countable Query := inj_countable'
  (λ q, (q_MsgType q, q_TxID q, q_Q q, q_Scope q, q_Limit q, q_Lang q, q_MinSize q, q_MaxSize q,
         q_NotIH q))
  (λ '(a, b, c, d, e, f, g, h, i), Build_Query a b c d e f g h i) _.
Next Obligation. by intros []. Qed.
#[export] Program Instance FileMatch_countable : Countable FileMatch := inj_countable'
  (λ m, (FI m, FP m, Off m, Pr m, Sn m)) (λ '(a, b, c, d, e), Build_FileMatch a b c d e) _.
Next Obligation. by intros []. Qed.
#[export] Program Instance Hit_countable : Countable Hit := inj_countable'
  (λ h, (IH h, IH2 h, N h, S_ h, L h, Sz h, T h, Rank h, Matches h))
  (λ '(a, b, c, d, e, f, g, h, i), Build_Hit a b c d e f g h i) _.
Next Obligation. by intros []. Qed.
#[export] Program Instance Result_countable : Countable Result := inj_countable'
  (λ r, (res_MsgType r, res_TxID r, res_Total r, res_Partial r, res_Hits r))
  (λ '(a, b, c, d, e), Build_Result a b c d e) _.
Next Obligation. by intros []. Qed.
#[export] Program Instance Reject_countable : Countable Reject := inj_countable'
  (λ r, (rej_MsgType r, rej_TxID r, rej_Code r, rej_Reason r))
  (λ '(a, b, c, d), Build_Reject a b c d) _.
Next Obligation. by intros []. Qed.
#[export] Program Instance PeerAnnounce_countable : Countable PeerAnnounce := inj_countable'
  (λ p, (pa_MsgType p, pa_Version p, pa_Services p, pa_Pk p, pa_Endorsed p))
  (λ '(a, b, c, d, e), Build_PeerAnnounce a b c d e) _.
Next Obligation. by intros []. Qed.
#[export] Program Instance peekHeader_countable : Countable peekHeader := inj_countable'
  (λ h, (h_MsgType h, h_TxID h)) (λ '(a, b), Build_peekHeader a b) _.
Next Obligation. by intros []. Qed.

Definition header_of (r : Result) : peekHeader := Build_peekHeader (res_MsgType r) (res_TxID r).
Definition toy_result : Bencode Result := ToyCodec.pos_bencode header_of.
Definition toy_announce : Bencode PeerAnnounce :=
  ToyCodec.pos_bencode (λ p, Build_peekHeader (pa_MsgType p) 0).

Definition sample_hit : Hit := {|
  IH := replicate 20 x11; IH2 := []; N := replicate 59 x61 ++ str "é!"; S_ := 3; L := 0; Sz := 7;
  T := -1; Rank := 2000;
  Matches := [{| FI := 1; FP := replicate 70 x62; Off := 0; Pr := []; Sn := [] |}]
|}.
Definition sample_result : Result :=
  {| res_MsgType := 9; res_TxID := 5; res_Total := 1; res_Partial := 0; res_Hits := Some [sample_hit] |}.

Definition sample_announce : PeerAnnounce := {|
  pa_MsgType := 0; pa_Version := 0; pa_Services := 517; pa_Pk := [];
  pa_Endorsed := [replicate 32 x01; replicate 32 x02]
|}.

Lemma results_and_announcements_witness :
  (result_ok sample_result ∧ N (normHit sample_hit) = replicate 59 x61 ∧
   ∃ b r', fst (@EncodeResult toy_result sample_result) = Ok b ∧
           @DecodeResult toy_result b = Ok r' ∧ res_TxID r' = 5) ∧
  (∃ b, @EncodePeerAnnounce toy_announce sample_announce = Ok b ∧
        @DecodePeerAnnounce toy_announce b = Ok (stampPeerAnnounce sample_announce)).
Proof.
  destruct (@results_and_announcements toy_result (ToyCodec.pos_laws _) toy_announce (ToyCodec.pos_laws _))
    as (Hres & Hann & _).
  assert (Hr : result_ok sample_result).
  { unfold result_ok, hit_ok, match_ok, is_i64, is_u32. simpl.
    split_and!; try lia. repeat constructor; simpl; lia. }
  destruct (Hres sample_result Hr) as (b & r' & hits & Hb & Hd & _ & Ht & _).
  split; [split; [exact Hr |]; split; [reflexivity |] |].
  - exists b, r'. split; [exact Hb |]. split; [exact Hd | exact Ht].
  - apply (Hann sample_announce); [split; reflexivity || done |]. split; [done | by repeat constructor].
Defined.
End Ltepwire.
