(* ===== verification/LtepSync.v ===== *)
(** * The set-reconciliation messages (contracts/ltepwire/sync.go)

    The sync_begin, sync_symbols, sync_need, sync_records and sync_end frames.
    The caps of a frame are checked by its encoder and again by its decoder, so
    the dispatcher only ever sees frames within them. *)

From S2P Require Import Prelude GoInt Externals Instances Utf8 Ltepwire.
Open Scope Z_scope.

Module LtepSync.
Import Ltepwire.

Definition MaxSymbolsPerMessage : Z := 100.
Definition MaxRecordsPerMessage : Z := 500.
Definition MaxNeedIDsPerMessage : Z := 1000.
Definition DefaultSyncMaxSymbols : Z := 2000.
Definition DefaultSyncMaxBytes : Z := Z.shiftl 1 20.
Definition RIBLTElementSize : Z := 32.
Definition SyncAlgo : bytes := str "riblt-v1".
Definition SyncStatusConverged : bytes := str "converged".
Definition SyncStatusLimitExceeded : bytes := str "limit_exceeded".
Definition SyncStatusAborted : bytes := str "aborted".

Record SyncFilter := { Pubkeys : list bytes; Since : Z; Prefix : bytes }.

Record SyncBegin := {
  sb_MsgType : Z; sb_TxID : Z; sb_Algo : bytes; sb_ElementSize : Z; sb_Filter : SyncFilter;
  sb_LocalCount : Z; sb_MaxSymbols : Z; sb_MaxBytes : Z
}.

Record SyncSymbol := { C : Z; H : Z; B : bytes }.

Record SyncSymbols := {
  ss_MsgType : Z; ss_TxID : Z; ss_Index : Z; ss_Symbols : list SyncSymbol; ss_Done : bool
}.

Record SyncNeed := { sn_MsgType : Z; sn_TxID : Z; sn_IDs : option (list bytes) }.

Record SyncRecord := { Pk : bytes; Kw : bytes; Ih : bytes; T_ : Z; Pow : Z; Sig : bytes }.

Record SyncRecords := {
  sr_MsgType : Z; sr_TxID : Z; sr_Records : option (list SyncRecord); sr_Missing : list bytes
}.

Record SyncEnd := {
  se_MsgType : Z; se_TxID : Z; se_Status : bytes; se_Decoded : Z; se_Sent : Z;
  se_BytesIn : Z; se_BytesOut : Z; se_AbortCode : Z
}.

#[export] Instance begin_wire : Wire SyncBegin := λ m,
  is_i64 (sb_MsgType m) ∧ is_u32 (sb_TxID m) ∧ is_i64 (sb_ElementSize m) ∧
  is_i64 (Since (sb_Filter m)) ∧ is_i64 (sb_LocalCount m) ∧ is_i64 (sb_MaxSymbols m) ∧
  is_i64 (sb_MaxBytes m).
Definition symbol_ok (s : SyncSymbol) : Prop := - 2 ^ 31 ≤ C s < 2 ^ 31 ∧ is_u64 (H s).
#[export] Instance symbols_wire : Wire SyncSymbols := λ m,
  is_i64 (ss_MsgType m) ∧ is_u32 (ss_TxID m) ∧ is_i64 (ss_Index m) ∧
  Forall symbol_ok (ss_Symbols m).
#[export] Instance need_wire : Wire SyncNeed := λ m,
  is_i64 (sn_MsgType m) ∧ is_u32 (sn_TxID m) ∧ is_Some (sn_IDs m).
Definition record_ok (r : SyncRecord) : Prop := is_i64 (T_ r) ∧ is_u64 (Pow r).
#[export] Instance records_wire : Wire SyncRecords := λ m,
  is_i64 (sr_MsgType m) ∧ is_u32 (sr_TxID m) ∧ is_Some (sr_Records m) ∧
  Forall record_ok (default [] (sr_Records m)).
#[export] Instance end_wire : Wire SyncEnd := λ m,
  is_i64 (se_MsgType m) ∧ is_u32 (se_TxID m) ∧ is_i64 (se_Decoded m) ∧ is_i64 (se_Sent m) ∧
  is_i64 (se_BytesIn m) ∧ is_i64 (se_BytesOut m) ∧ is_i64 (se_AbortCode m).

Section codec.
Context `{Bencode SyncBegin, Bencode SyncSymbols, Bencode SyncNeed, Bencode SyncRecords,
  Bencode SyncEnd}.

(** ** Encoders *)
Definition stampSyncBegin (m : SyncBegin) : SyncBegin := {|
  sb_MsgType := MsgTypeSyncBegin; sb_TxID := sb_TxID m;
  sb_Algo := if bool_decide (sb_Algo m = []) then SyncAlgo else sb_Algo m;
  sb_ElementSize := if sb_ElementSize m =? 0 then RIBLTElementSize else sb_ElementSize m;
  sb_Filter := sb_Filter m; sb_LocalCount := sb_LocalCount m;
  sb_MaxSymbols := sb_MaxSymbols m; sb_MaxBytes := sb_MaxBytes m
|}.
Definition EncodeSyncBegin (m : SyncBegin) : result error bytes := Marshal (stampSyncBegin m).

Definition stampSyncSymbols (m : SyncSymbols) : SyncSymbols := {|
  ss_MsgType := MsgTypeSyncSymbols; ss_TxID := ss_TxID m; ss_Index := ss_Index m;
  ss_Symbols := ss_Symbols m; ss_Done := ss_Done m
|}.

(** The symbol checks of the encoder and the decoder. *)
Definition check_symbols (l : list SyncSymbol) : result error unit :=
  check (negb ((len l <? 1) || (MaxSymbolsPerMessage <? len l))) ! (ErrSymbolCount (len l));
  check_all (λ s, len (B s) =? RIBLTElementSize) (λ s, ErrSymbolLen (len (B s))) l.

Definition EncodeSyncSymbols (m : SyncSymbols) : result error bytes :=
  let m := stampSyncSymbols m in
  _ ← check_symbols (ss_Symbols m); Marshal m.

Definition check_ids (l : list bytes) : result error unit :=
  check (negb (MaxNeedIDsPerMessage <? len l)) ! (ErrNeedCount (len l));
  check_all (λ id : bytes, len id =? 32) (λ id, ErrNeedLen (len id)) l.

(** Setting the message type, then a [nil] list to an empty one. *)
Definition stampSyncNeed (m : SyncNeed) : SyncNeed := {|
  sn_MsgType := MsgTypeSyncNeed; sn_TxID := sn_TxID m;
  sn_IDs := Some (default [] (sn_IDs m))
|}.

Definition EncodeSyncNeed (m : SyncNeed) : result error bytes :=
  _ ← check_ids (default [] (sn_IDs m)); Marshal (stampSyncNeed m).

Definition validSyncRecord (r : SyncRecord) : result error unit :=
  check (len (Pk r) =? 32) ! (ErrRecordPk (len (Pk r)));
  check (len (Ih r) =? 20) ! (ErrRecordIh (len (Ih r)));
  check (len (Sig r) =? 64) ! (ErrRecordSig (len (Sig r)));
  check (negb ((len (Kw r) <? 1) || (64 <? len (Kw r)))) ! (ErrRecordKw (len (Kw r)));
  Ok tt.

Definition check_records (l : list SyncRecord) : result error unit :=
  check (negb (MaxRecordsPerMessage <? len l)) ! (ErrRecordCount (len l));
  fold_result (λ _ r, validSyncRecord r) tt l.

Definition stampSyncRecords (m : SyncRecords) : SyncRecords := {|
  sr_MsgType := MsgTypeSyncRecords; sr_TxID := sr_TxID m;
  sr_Records := Some (default [] (sr_Records m)); sr_Missing := sr_Missing m
|}.

Definition EncodeSyncRecords (m : SyncRecords) : result error bytes :=
  _ ← check_records (default [] (sr_Records m)); Marshal (stampSyncRecords m).

Definition stampSyncEnd (m : SyncEnd) : SyncEnd := {|
  se_MsgType := MsgTypeSyncEnd; se_TxID := se_TxID m;
  se_Status := if bool_decide (se_Status m = []) then SyncStatusConverged else se_Status m;
  se_Decoded := se_Decoded m; se_Sent := se_Sent m; se_BytesIn := se_BytesIn m;
  se_BytesOut := se_BytesOut m; se_AbortCode := se_AbortCode m
|}.
Definition EncodeSyncEnd (m : SyncEnd) : result error bytes := Marshal (stampSyncEnd m).

(** ** Decoders *)
Definition DecodeSyncBegin (payload : bytes) : result error SyncBegin :=
  m ← decodeBounded payload;
  check (sb_MsgType m =? MsgTypeSyncBegin) ! (ErrMsgType (sb_MsgType m));
  check (sb_ElementSize m =? RIBLTElementSize) ! (ErrElementSize (sb_ElementSize m));
  Ok m.

Definition DecodeSyncSymbols (payload : bytes) : result error SyncSymbols :=
  m ← decodeBounded payload;
  check (ss_MsgType m =? MsgTypeSyncSymbols) ! (ErrMsgType (ss_MsgType m));
  _ ← check_symbols (ss_Symbols m); Ok m.

Definition DecodeSyncNeed (payload : bytes) : result error SyncNeed :=
  m ← decodeBounded payload;
  check (sn_MsgType m =? MsgTypeSyncNeed) ! (ErrMsgType (sn_MsgType m));
  _ ← check_ids (default [] (sn_IDs m)); Ok m.

Definition DecodeSyncRecords (payload : bytes) : result error SyncRecords :=
  m ← decodeBounded payload;
  check (sr_MsgType m =? MsgTypeSyncRecords) ! (ErrMsgType (sr_MsgType m));
  _ ← check_records (default [] (sr_Records m)); Ok m.

Definition DecodeSyncEnd (payload : bytes) : result error SyncEnd :=
  m ← decodeBounded payload;
  check (se_MsgType m =? MsgTypeSyncEnd) ! (ErrMsgType (se_MsgType m));
  Ok m.
End codec.

(** ** The contract of a frame

    [stamp] is the value the encoder writes; [within] is what the frame's caps
    allow. *)
Definition symbols_within (m : SyncSymbols) : Prop :=
  1 ≤ len (ss_Symbols m) ≤ MaxSymbolsPerMessage ∧
  Forall (λ s, len (B s) = RIBLTElementSize) (ss_Symbols m).
Definition need_within (m : SyncNeed) : Prop :=
  len (default [] (sn_IDs m)) ≤ MaxNeedIDsPerMessage ∧
  Forall (λ id : bytes, len id = 32) (default [] (sn_IDs m)).
Definition record_within (r : SyncRecord) : Prop :=
  len (Pk r) = 32 ∧ len (Ih r) = 20 ∧ len (Sig r) = 64 ∧ 1 ≤ len (Kw r) ≤ 64.
Definition records_within (m : SyncRecords) : Prop :=
  len (default [] (sr_Records m)) ≤ MaxRecordsPerMessage ∧
  Forall record_within (default [] (sr_Records m)).

(** The encoder accepts exactly the [encodable] values; what it writes decodes
    back to the stamped form, provided that is [within] the caps; whatever the
    bytes, a decoded value is [within] the caps and of type [k]. *)
Definition frame_contract {M} `{Wire M} (encode : M → result error bytes)
    (decode : bytes → result error M) (stamp : M → M) (type : M → Z) (k : Z)
    (encodable within : M → Prop) : Prop :=
  (∀ m, wire_ok (stamp m) → encodable m → ∃ b, encode m = Ok b ∧
        (within (stamp m) → decode b = Ok (stamp m))) ∧
  (∀ m b, encode m = Ok b → encodable m) ∧
  (∀ b m, decode b = Ok m → within m ∧ type m = k).

(** An encoder that guards and marshals, against a decoder that unmarshals,
    compares the type and guards again. *)
Lemma frame_contract_intro `{BencodeLaws M} (encode : M → result error bytes) decode stamp
    (type : M → Z) k (encodable within : M → Prop) (eguard dguard : M → result error unit) :
  (∀ m, encode m = (_ ← eguard m; Marshal (stamp m))) →
  (∀ b, decode b = (m ← decodeBounded b; check (type m =? k) ! (ErrMsgType (type m));
                    _ ← dguard m; Ok m)) →
  (∀ m, type (stamp m) = k) →
  (∀ m, eguard m = Ok tt ↔ encodable m) → (∀ m, dguard m = Ok tt ↔ within m) →
  frame_contract encode decode stamp type k encodable within.
Proof.
  intros He Hd Ht Heg Hdg. split_and!.
  - intros m Hm Hen. destruct (Marshal_decode (stamp m) Hm) as (b & Hb & Hdec). exists b.
    rewrite He, (proj2 (Heg m) Hen). split; [exact Hb |]. intros Hw.
    by rewrite Hd, Hdec, bind_ok, Ht, Z.eqb_refl, (proj2 (Hdg (stamp m)) Hw).
  - intros m b Hb. rewrite He in Hb. apply bind_ok_inv in Hb as ([] & Hg & _). by apply Heg.
  - intros b m Hb. rewrite Hd in Hb. apply bind_ok_inv in Hb as (m' & _ & Hb).
    apply check_ok_inv in Hb as [Hk Hb]. apply bind_ok_inv in Hb as ([] & Hg & Hb).
    apply Ok_inj in Hb as ->. split; [by apply Hdg | by apply Z.eqb_eq].
Qed.

Lemma check_symbols_ok l :
  check_symbols l = Ok tt ↔
  1 ≤ len l ≤ MaxSymbolsPerMessage ∧ Forall (λ s, len (B s) = RIBLTElementSize) l.
Proof.
  unfold check_symbols. rewrite <-check_all_len with (f := B).
  destruct (Z.ltb_spec (len l) 1), (Z.ltb_spec MaxSymbolsPerMessage (len l)); simpl;
    (split; [intros Hc | intros [? Hc]]); try done; try lia.
Qed.

Lemma check_ids_ok l :
  check_ids l = Ok tt ↔ len l ≤ MaxNeedIDsPerMessage ∧ Forall (λ id : bytes, len id = 32) l.
Proof.
  unfold check_ids. rewrite <-check_all_len with (f := id).
  destruct (Z.ltb_spec MaxNeedIDsPerMessage (len l)); simpl;
    (split; [intros Hc | intros [? Hc]]); try done; try lia.
Qed.

Lemma validSyncRecord_ok r : validSyncRecord r = Ok tt ↔ record_within r.
Proof.
  unfold validSyncRecord, record_within.
  destruct (Z.eqb_spec (len (Pk r)) 32), (Z.eqb_spec (len (Ih r)) 20),
    (Z.eqb_spec (len (Sig r)) 64); simpl; try (split; [done | lia]).
  destruct (Z.ltb_spec (len (Kw r)) 1), (Z.ltb_spec 64 (len (Kw r))); simpl;
    (split; [done || lia | try lia; done]).
Qed.

Lemma check_records_ok l :
  check_records l = Ok tt ↔ len l ≤ MaxRecordsPerMessage ∧ Forall record_within l.
Proof.
  unfold check_records. assert (Hf : fold_result (λ _ r, validSyncRecord r) tt l = Ok tt ↔
                                     Forall record_within l).
  { induction l as [|r l IH]; [split; [constructor | done] |]. simpl.
    rewrite Forall_cons, <-validSyncRecord_ok, <-IH.
    destruct (validSyncRecord r) as [[]|]; simpl; [tauto |]. split; [done | by intros [? _]]. }
  rewrite <-Hf. destruct (Z.ltb_spec MaxRecordsPerMessage (len l)); simpl;
    (split; [intros Hc | intros [? Hc]]); try done; try lia.
Qed.

Definition begin_within (m : SyncBegin) : Prop := sb_ElementSize m = RIBLTElementSize.

(** The five sync frames keep their contract.  sync_symbols, sync_need and
    sync_records encode exactly when they are within their caps, and then decode
    to themselves; sync_begin and sync_end always encode, with the algorithm,
    element size and status defaulted, and a sync_begin decodes exactly when its
    element size is 32.  Whatever the bytes, a decoded frame is within its caps
    and carries its own message type. *)
Lemma sync_frames
    {B4 : Bencode SyncBegin} {L4 : BencodeLaws SyncBegin}
    {B5 : Bencode SyncSymbols} {L5 : BencodeLaws SyncSymbols}
    {B6 : Bencode SyncNeed} {L6 : BencodeLaws SyncNeed}
    {B7 : Bencode SyncRecords} {L7 : BencodeLaws SyncRecords}
    {B8 : Bencode SyncEnd} {L8 : BencodeLaws SyncEnd} :
  frame_contract EncodeSyncBegin DecodeSyncBegin stampSyncBegin sb_MsgType MsgTypeSyncBegin
    (λ _, True) begin_within ∧
  frame_contract EncodeSyncSymbols DecodeSyncSymbols stampSyncSymbols ss_MsgType
    MsgTypeSyncSymbols symbols_within symbols_within ∧
  frame_contract EncodeSyncNeed DecodeSyncNeed stampSyncNeed sn_MsgType MsgTypeSyncNeed
    need_within need_within ∧
  frame_contract EncodeSyncRecords DecodeSyncRecords stampSyncRecords sr_MsgType
    MsgTypeSyncRecords records_within records_within ∧
  frame_contract EncodeSyncEnd DecodeSyncEnd stampSyncEnd se_MsgType MsgTypeSyncEnd
    (λ _, True) (λ _, True).
Proof.
  refine (conj _ (conj _ (conj _ (conj _ _)))).
  - apply (frame_contract_intro _ _ _ _ _ _ _ (λ _, Ok tt) (λ m,
      check (sb_ElementSize m =? RIBLTElementSize) ! (ErrElementSize (sb_ElementSize m)); Ok tt));
      try done.
    + intros b. unfold DecodeSyncBegin. destruct (decodeBounded b) as [m|]; [|done]. simpl.
      destruct (_ =? _); [|done]. by destruct (_ =? _).
    + intros m. unfold begin_within. destruct (Z.eqb_spec (sb_ElementSize m) RIBLTElementSize); done.
  - apply (frame_contract_intro _ _ _ _ _ _ _ (λ m, check_symbols (ss_Symbols m))
      (λ m, check_symbols (ss_Symbols m))); try done; intros; apply check_symbols_ok.
  - apply (frame_contract_intro _ _ _ _ _ _ _ (λ m, check_ids (default [] (sn_IDs m)))
      (λ m, check_ids (default [] (sn_IDs m)))); try done; intros; apply check_ids_ok.
  - apply (frame_contract_intro _ _ _ _ _ _ _ (λ m, check_records (default [] (sr_Records m)))
      (λ m, check_records (default [] (sr_Records m)))); try done; intros; apply check_records_ok.
  - apply (frame_contract_intro _ _ _ _ _ _ _ (λ _, Ok tt) (λ _, Ok tt)); try done.
Qed.

(** ** Concrete codecs *)
#[export] Instance SyncFilter_dec : EqDecision SyncFilter. Proof. solve_decision. Defined.
#[export] Instance SyncBegin_dec : EqDecision SyncBegin. Proof. solve_decision. Defined.
#[export] Instance SyncSymbol_dec : EqDecision SyncSymbol. Proof. solve_decision. Defined.
#[export] Instance SyncSymbols_dec : EqDecision SyncSymbols. Proof. solve_decision. Defined.
#[export] Instance SyncNeed_dec : EqDecision SyncNeed. Proof. solve_decision. Defined.
#[export] Instance SyncRecord_dec : EqDecision SyncRecord. Proof. solve_decision. Defined.
#[export] Instance SyncRecords_dec : EqDecision SyncRecords. Proof. solve_decision. Defined.
#[export] Instance SyncEnd_dec : EqDecision SyncEnd. Proof. solve_decision. Defined.

#[export] Program Instance SyncFilter_countable : Countable SyncFilter := inj_countable'
  (λ f, (Pubkeys f, Since f, Prefix f)) (λ '(a, b, c), Build_SyncFilter a b c) _.
Next Obligation. by intros []. Qed.
#[export] Program Instance SyncBegin_countable : Countable SyncBegin := inj_countable'
  (λ m, (sb_MsgType m, sb_TxID m, sb_Algo m, sb_ElementSize m, sb_Filter m, sb_LocalCount m,
         sb_MaxSymbols m, sb_MaxBytes m))
  (λ '(a, b, c, d, e, f, g, h), Build_SyncBegin a b c d e f g h) _.
Next Obligation. by intros []. Qed.
#[export] Program Instance SyncSymbol_countable : Countable SyncSymbol := inj_countable'
  (λ s, (C s, H s, B s)) (λ '(a, b, c), Build_SyncSymbol a b c) _.
Next Obligation. by intros []. Qed.
#[export] Program Instance SyncSymbols_countable : Countable SyncSymbols := inj_countable'
  (λ m, (ss_MsgType m, ss_TxID m, ss_Index m, ss_Symbols m, ss_Done m))
  (λ '(a, b, c, d, e), Build_SyncSymbols a b c d e) _.
Next Obligation. by intros []. Qed.
#[export] Program Instance SyncNeed_countable : Countable SyncNeed := inj_countable'
  (λ m, (sn_MsgType m, sn_TxID m, sn_IDs m)) (λ '(a, b, c), Build_SyncNeed a b c) _.
Next Obligation. by intros []. Qed.
#[export] Program Instance SyncRecord_countable : Countable SyncRecord := inj_countable'
  (λ r, (Pk r, Kw r, Ih r, T_ r, Pow r, Sig r))
  (λ '(a, b, c, d, e, f), Build_SyncRecord a b c d e f) _.
Next Obligation. by intros []. Qed.
#[export] Program Instance SyncRecords_countable : Countable SyncRecords := inj_countable'
  (λ m, (sr_MsgType m, sr_TxID m, sr_Records m, sr_Missing m))
  (λ '(a, b, c, d), Build_SyncRecords a b c d) _.
Next Obligation. by intros []. Qed.
#[export] Program Instance SyncEnd_countable : Countable SyncEnd := inj_countable'
  (λ m, (se_MsgType m, se_TxID m, se_Status m, se_Decoded m, se_Sent m, se_BytesIn m,
         se_BytesOut m, se_AbortCode m))
  (λ '(a, b, c, d, e, f, g, h), Build_SyncEnd a b c d e f g h) _.
Next Obligation. by intros []. Qed.

Definition toy_begin : Bencode SyncBegin :=
  ToyCodec.pos_bencode (λ m, Build_peekHeader (sb_MsgType m) (sb_TxID m)).
Definition toy_symbols : Bencode SyncSymbols :=
  ToyCodec.pos_bencode (λ m, Build_peekHeader (ss_MsgType m) (ss_TxID m)).
Definition toy_need : Bencode SyncNeed :=
  ToyCodec.pos_bencode (λ m, Build_peekHeader (sn_MsgType m) (sn_TxID m)).
Definition toy_records : Bencode SyncRecords :=
  ToyCodec.pos_bencode (λ m, Build_peekHeader (sr_MsgType m) (sr_TxID m)).
Definition toy_end : Bencode SyncEnd :=
  ToyCodec.pos_bencode (λ m, Build_peekHeader (se_MsgType m) (se_TxID m)).

Definition sample_symbols : SyncSymbols := {|
  ss_MsgType := 0; ss_TxID := 7; ss_Index := 0;
  ss_Symbols := [{| C := -1; H := 77; B := replicate 32 x05 |}]; ss_Done := false
|}.

Lemma sync_frames_witness :
  symbols_within sample_symbols ∧
  (∃ b, @EncodeSyncSymbols toy_symbols sample_symbols = Ok b ∧
        @DecodeSyncSymbols toy_symbols b = Ok (stampSyncSymbols sample_symbols)) ∧
  is_ok (@EncodeSyncSymbols toy_symbols {| ss_MsgType := 0; ss_TxID := 0; ss_Index := 0;
                                           ss_Symbols := []; ss_Done := true |}) = false.
Proof.
  assert (Hw : symbols_within sample_symbols).
  { split; [by split |]. by repeat constructor. }
  destruct (@sync_frames toy_begin (ToyCodec.pos_laws _) toy_symbols (ToyCodec.pos_laws _)
    toy_need (ToyCodec.pos_laws _) toy_records (ToyCodec.pos_laws _)
    toy_end (ToyCodec.pos_laws _)) as (_ & (H5 & _ & _) & _ & _ & _).
  split_and!; [exact Hw | | reflexivity].
  destruct (H5 sample_symbols) as (b & Hb & Hd); [| exact Hw |].
  - unfold wire_ok, symbols_wire, symbol_ok, is_i64, is_u32, is_u64. simpl.
    split_and!; try done. apply Forall_singleton. simpl. lia.
  - exists b. split; [exact Hb |]. apply Hd, Hw.
Defined.
End LtepSync.
