(* ===== verification/Token.v ===== *)
(** * The tokenizer (contracts/token)

    A torrent name is cut at every rune that is neither a letter nor a digit; the
    lower-cased pieces that survive the filters are the keywords published for
    it.  The tables of the [unicode] package are a parameter. *)

From S2P Require Import Prelude GoInt Utf8.
Open Scope Z_scope.

Module Token.
Import Utf8.

Definition MinTokenBytes : Z := 3.
Definition MaxKeywordsPerTorrent : Z := 8.

Definition stopWords : list bytes := str <$> [
  "the"; "and"; "for"; "are"; "not"; "with"; "from"; "this"; "that"; "have";
  "was"; "you"; "all"; "any"; "but"; "can"; "had"; "has"; "his"; "her";
  "its"; "our"; "their"; "they"; "them"; "who"; "what"; "when"; "where"; "why"; "how"]%string.

Definition extensionTokens : list bytes := str <$> [
  "mp3"; "mp4"; "mkv"; "iso"; "avi"; "wmv"; "flac"; "wav"; "jpg"; "jpeg"; "png"; "gif";
  "zip"; "rar"; "tar"; "gz"; "epub"; "pdf"; "txt"]%string.

(** The variables of [tokenizeUncapped]: the output, the tokens seen and the
    token under construction. *)
Record st := { out : list bytes; seen : gset bytes; buf : bytes }.

Definition flush (s : st) : st :=
  if len (buf s) =? 0 then s
  else
    let tok := buf s in
    let s := {| out := out s; seen := seen s; buf := [] |} in
    if len tok <? MinTokenBytes then s
    else if bool_decide (tok ∈ stopWords) then s
    else if bool_decide (tok ∈ extensionTokens) then s
    else if bool_decide (tok ∈ seen s) then s
    else {| out := out s ++ [tok]; seen := {[tok]} ∪ seen s; buf := buf s |}.

Section tokenize.
Context `{Unicode}.

Definition wordRune (r : Z) : bool := IsLetter r || IsDigit r.

Definition scan (s : st) (r : Z) : st :=
  if wordRune r
  then {| out := out s; seen := seen s; buf := buf s ++ encode_rune (ToLower r) |}
  else flush s.

Definition tokenizeUncapped (name : bytes) : list bytes :=
  out (flush (foldl scan {| out := []; seen := ∅; buf := [] |} (fst <$> runes name))).

Definition Tokenize (name : bytes) : list bytes :=
  let out := tokenizeUncapped name in
  if MaxKeywordsPerTorrent <? len out then take (Z.to_nat MaxKeywordsPerTorrent) out else out.

Definition TokenizeAll (name : bytes) : list bytes := tokenizeUncapped name.

Definition MostDistinctive (tokens : list bytes) : bytes :=
  foldl (λ best tok, if len best <? len tok then tok else best) [] tokens.

(** ** Specification

    The candidate words of a name, in order, and the filter a word passes. *)
Fixpoint words_go (buf : bytes) (rs : list Z) : list bytes :=
  match rs with
  | [] => [buf]
  | r :: rs =>
    if wordRune r then words_go (buf ++ encode_rune (ToLower r)) rs else buf :: words_go [] rs
  end.
Definition words (name : bytes) : list bytes := words_go [] (fst <$> runes name).

Definition keyword (w : bytes) : bool :=
  (MinTokenBytes <=? len w) && bool_decide (w ∉ stopWords) && bool_decide (w ∉ extensionTokens).

(** The first occurrences of the elements of a list. *)
Fixpoint first_occurrences (seen : list bytes) (l : list bytes) : list bytes :=
  match l with
  | [] => []
  | w :: l => if bool_decide (w ∈ seen) then first_occurrences seen l
              else w :: first_occurrences (seen ++ [w]) l
  end.

Definition keywords (name : bytes) : list bytes :=
  first_occurrences [] (filter (λ w, keyword w = true) (words name)).

(** ** The scan computes it *)
Definition invariant (s : st) : Prop := ∀ w, w ∈ seen s ↔ w ∈ out s.

Lemma flush_spec s :
  invariant s →
  invariant (flush s) ∧ buf (flush s) = [] ∧
  out (flush s) = out s ++ (if keyword (buf s) && bool_decide (buf s ∉ out s) then [buf s] else []).
Proof.
  intros Hi. unfold flush, keyword. destruct (Z.eqb_spec (len (buf s)) 0) as [H0|H0].
  - destruct (buf s) as [|x b] eqn:E; [|rewrite len_cons in H0; pose proof (len_nonneg b); lia].
    rewrite app_nil_r. done.
  - rewrite Z.leb_antisym. destruct (len (buf s) <? MinTokenBytes); simpl.
    { by rewrite app_nil_r. }
    rewrite !bool_decide_not.
    destruct (bool_decide (buf s ∈ stopWords)); simpl; [by rewrite app_nil_r |].
    destruct (bool_decide (buf s ∈ extensionTokens)); simpl; [by rewrite app_nil_r |].
    rewrite (bool_decide_ext _ _ (Hi (buf s))).
    destruct (bool_decide (buf s ∈ out s)); simpl; [by rewrite app_nil_r |].
    split_and!; [|done|done]. intros w. simpl.
    rewrite elem_of_union, elem_of_singleton, list.elem_of_app, list_elem_of_singleton, (Hi w). tauto.
Qed.

Lemma first_occurrences_app seen l k :
  first_occurrences seen (l ++ k)
  = first_occurrences seen l ++ first_occurrences (seen ++ first_occurrences seen l) k.
Proof.
  revert seen. induction l as [|w l IH]; intros seen; simpl; [by rewrite app_nil_r |].
  case_bool_decide; [apply IH |]. rewrite IH. simpl. do 2 f_equal. by rewrite <-app_assoc.
Qed.

Lemma first_occurrences_spec seen l :
  NoDup (first_occurrences seen l) ∧
  ∀ w, w ∈ first_occurrences seen l ↔ w ∈ l ∧ w ∉ seen.
Proof.
  revert seen. induction l as [|w l IH]; intros seen; simpl.
  { split; [constructor |]. intros w. by rewrite elem_of_nil; tauto. }
  case_bool_decide as Hw.
  - destruct (IH seen) as [Hn He]. split; [done |]. intros v. rewrite He, elem_of_cons.
    split; [tauto | intros [[->|] ?]; tauto].
  - destruct (IH (seen ++ [w])) as [Hn He]. split.
    + constructor; [|done]. rewrite He, list.elem_of_app, list_elem_of_singleton. tauto.
    + intros v. rewrite !elem_of_cons, He, list.elem_of_app, list_elem_of_singleton.
      destruct (decide (v = w)) as [->|]; tauto.
Qed.

(** The loop, started after the words [pre] were flushed. *)
Lemma scan_spec rs pre s :
  invariant s → out s = first_occurrences [] (filter (λ w, keyword w = true) pre) →
  out (flush (foldl scan s rs))
  = first_occurrences [] (filter (λ w, keyword w = true) (pre ++ words_go (buf s) rs)).
Proof.
  assert (Hflush : ∀ s pre, invariant s →
    out s = first_occurrences [] (filter (λ w, keyword w = true) pre) →
    out (flush s) = first_occurrences [] (filter (λ w, keyword w = true) (pre ++ [buf s]))).
  { clear. intros s pre Hi Ho. destruct (flush_spec s Hi) as (_ & _ & ->). rewrite Ho.
    rewrite filter_app, first_occurrences_app, filter_cons, filter_nil. f_equal. simpl.
    destruct (decide (keyword (buf s) = true)) as [Hk|Hk].
    - rewrite Hk. simpl. rewrite bool_decide_not. by destruct (bool_decide _).
    - destruct (keyword (buf s)); done. }
  revert pre s. induction rs as [|r rs IH]; intros pre s Hi Ho; simpl; [by apply Hflush |].
  unfold scan at 2. destruct (wordRune r).
  - rewrite (IH pre); done.
  - destruct (flush_spec s Hi) as (Hi' & Hb & _). rewrite (IH (pre ++ [buf s])).
    + by rewrite Hb, <-app_assoc.
    + done.
    + by apply Hflush.
Qed.

Lemma tokenizeUncapped_spec name : tokenizeUncapped name = keywords name.
Proof.
  unfold tokenizeUncapped, keywords, words.
  rewrite (scan_spec _ [] {| out := []; seen := ∅; buf := [] |}); [done | | done].
  intros w. simpl. by rewrite elem_of_nil, elem_of_empty.
Qed.

Lemma MostDistinctive_go best tokens :
  let r := foldl (λ best tok : bytes, if len best <? len tok then tok else best) best tokens in
  (r = best ∧ Forall (λ t : bytes, len t ≤ len best) tokens) ∨
  (∃ l k, tokens = l ++ r :: k ∧ len best < len r ∧
          Forall (λ t : bytes, len t < len r) l ∧ Forall (λ t : bytes, len t ≤ len r) k).
Proof.
  revert best. induction tokens as [|t ts IH]; intros best; simpl; [by left |].
  destruct (Z.ltb_spec (len best) (len t)) as [Hlt|Hge].
  - right. destruct (IH t) as [[-> Hf]|(l & k & Hts & Hlr & Hl & Hk)].
    + exists [], ts. by split_and!.
    + set (r := foldl _ _ _) in *. exists (t :: l), k. split_and!; try done.
      * by rewrite Hts at 1.
      * lia.
      * by constructor.
  - destruct (IH best) as [[-> Hf]|(l & k & Hts & Hlr & Hl & Hk)].
    + left. split; [done |]. by constructor.
    + right. set (r := foldl _ _ _) in *. exists (t :: l), k. split_and!; try done.
      * by rewrite Hts at 1.
      * constructor; [lia | done].
Qed.

(** [C7] The keywords published for a name are the first eight of the distinct
    words of the name, in order of first appearance, that have at least three
    bytes and are neither stop words nor file extensions; there are no
    duplicates.  [MostDistinctive] picks the earliest of the longest, so every
    searcher derives the same target. *)
Theorem Tokenize_spec (name : bytes) :
  TokenizeAll name = keywords name ∧
  Tokenize name = take 8 (keywords name) ∧
  NoDup (Tokenize name) ∧
  (∀ w, w ∈ TokenizeAll name ↔ w ∈ words name ∧ keyword w = true) ∧
  (∀ w, w ∈ Tokenize name → 3 ≤ len w ∧ (w ∉ stopWords) ∧ (w ∉ extensionTokens)) ∧
  (Tokenize name ≠ [] → ∃ l k, Tokenize name = l ++ MostDistinctive (Tokenize name) :: k ∧
     Forall (λ t : bytes, len t < len (MostDistinctive (Tokenize name))) l ∧
     Forall (λ t : bytes, len t ≤ len (MostDistinctive (Tokenize name))) k).
Proof.
  assert (Ht : Tokenize name = take 8 (keywords name)).
  { unfold Tokenize. rewrite tokenizeUncapped_spec.
    destruct (Z.ltb_spec MaxKeywordsPerTorrent (len (keywords name))) as [|Hle]; [done |].
    rewrite take_ge; [done |]. unfold len, MaxKeywordsPerTorrent in Hle. lia. }
  destruct (first_occurrences_spec [] (filter (λ w, keyword w = true) (words name))) as [Hn He].
  assert (Hall : ∀ w, w ∈ keywords name ↔ w ∈ words name ∧ keyword w = true).
  { intros w. unfold keywords. rewrite He, list_elem_of_filter. pose proof (not_elem_of_nil w). tauto. }
  assert (Hk : ∀ w, w ∈ Tokenize name → 3 ≤ len w ∧ (w ∉ stopWords) ∧ (w ∉ extensionTokens)).
  { intros w Hw. rewrite Ht in Hw. apply elem_of_take in Hw as (i & Hi & _).
    apply list_elem_of_lookup_2, Hall in Hi as [_ Hi]. unfold keyword in Hi.
    rewrite !andb_true_iff, !bool_decide_eq_true in Hi. unfold MinTokenBytes in Hi.
    rewrite Z.leb_le in Hi. tauto. }
  split_and!; try done.
  - apply tokenizeUncapped_spec.
  - rewrite Ht. fold (keywords name) in Hn. rewrite <-(take_drop 8 (keywords name)) in Hn.
    by apply NoDup_app in Hn as [? _].
  - intros w. unfold TokenizeAll. by rewrite tokenizeUncapped_spec.
  - intros Hne. destruct (MostDistinctive_go [] (Tokenize name)) as [[_ Hf]|(l & k & Hl & _ & H1 & H2)].
    + destruct (Tokenize name) as [|t ts] eqn:E; [done |]. apply Forall_cons in Hf as [Hf _].
      destruct (Hk t) as [Hk3 _]; [by left |]. rewrite len_nil in Hf. lia.
    + by exists l, k.
Qed.
End tokenize.

(** ** Example *)
Lemma Tokenize_spec_witness :
  Tokenize (str "The.Ubuntu-24.04_Desktop (amd64) ubuntu.iso") = str <$> ["ubuntu"; "desktop"; "amd64"]%string
  ∧ NoDup (Tokenize (str "The.Ubuntu-24.04_Desktop (amd64) ubuntu.iso")) ∧
  ∃ l k, Tokenize (str "The.Ubuntu") = l ++ MostDistinctive (Tokenize (str "The.Ubuntu")) :: k.
Proof.
  split; [reflexivity |]. split.
  - apply (Tokenize_spec (str "The.Ubuntu-24.04_Desktop (amd64) ubuntu.iso")).
  - destruct (Tokenize_spec (str "The.Ubuntu")) as (_ & _ & _ & _ & _ & Hm).
    destruct Hm as (l & k & Hl & _); [by vm_compute |]. exists l, k. exact Hl.
Defined.
End Token.
