(* ===== verification/DhtSchema.v ===== *)
(** * The DHT item schema (contracts/dhtschema)

    The two BEP-44 values a publisher stores in the DHT: the hits of one keyword
    and the pointer to its aggregate index.  The clock is an argument. *)

From S2P Require Import Prelude GoInt Sha256 Externals Instances.
Open Scope Z_scope.

Module DhtSchema.

Definition MaxSaltBytes : Z := 64.
Definition MaxValueBytes : Z := 1000.
Definition MaxPPMIValueBytes : Z := MaxValueBytes.
Definition PPMISaltSeed : bytes := str "snet.index".
Definition PPMISalt : bytes := sl (sha256 PPMISaltSeed).

Inductive error : Type :=
  | ErrEncode | ErrDecode
  | ErrEmptyValue | ErrOversize (got : Z)
  | ErrEmptyKeyword | ErrSaltTooLong (got : Z)
  | ErrIH (got : Z) | ErrCommit (got : Z) | ErrTopics (got : Z) | ErrNextPk (got : Z).

Record KeywordHit := { IH : bytes; N : bytes; S_ : Z; F : Z; Sz : Z }.
Record KeywordValue := {
  Ts : Z; Hits : option (list KeywordHit); More : Z; NextPubKey : bytes
}.
Record PPMIValue := {
  p_IH : bytes; Commit : bytes; Topics : bytes; p_Ts : Z; NextPk : bytes
}.

Definition hit_ok (h : KeywordHit) : Prop := is_i64 (S_ h) ∧ is_i64 (F h) ∧ is_i64 (Sz h).
#[export] Instance value_wire : Wire KeywordValue := λ v,
  is_i64 (Ts v) ∧ is_i64 (More v) ∧ is_Some (Hits v) ∧ Forall hit_ok (default [] (Hits v)).
#[export] Instance ppmi_wire : Wire PPMIValue := λ v, is_i64 (p_Ts v).

(** ** Decimal numbers ([fmt]'s [%d]) *)
Fixpoint decimal_go (fuel : nat) (n : Z) (acc : bytes) : bytes :=
  match fuel with
  | O => acc
  | S fuel =>
    let acc := z2b (48 + n mod 10) :: acc in
    if n / 10 =? 0 then acc else decimal_go fuel (n / 10) acc
  end.
(** Nineteen digits hold every 64-bit magnitude. *)
Definition format_decimal (n : Z) : bytes :=
  if n <? 0 then str "-" ++ decimal_go 20 (- n) [] else decimal_go 20 n [].

Section schema.
Context `{Bencode KeywordValue, Bencode PPMIValue}.

Definition decodeBounded {V} `{Bencode V} (payload : bytes) : result error V :=
  match unmarshal MaxValueBytes payload with Some v => Ok v | None => Err ErrDecode end.

Definition Marshal {V} `{Bencode V} (v : V) : result error bytes :=
  match marshal v with Some b => Ok b | None => Err ErrEncode end.

(** ** Keyword values *)
Definition with_Ts (v : KeywordValue) (ts : Z) : KeywordValue :=
  {| Ts := ts; Hits := Hits v; More := More v; NextPubKey := NextPubKey v |}.
Definition with_Hits (v : KeywordValue) (hits : list KeywordHit) : KeywordValue :=
  {| Ts := Ts v; Hits := Some hits; More := More v; NextPubKey := NextPubKey v |}.

(** [if v.Ts == 0 { v.Ts = time.Now().Unix() }] *)
Definition stamp_ts (now : Z) (v : KeywordValue) : KeywordValue :=
  if Ts v =? 0 then with_Ts v now else v.
(** [if v.Hits == nil { v.Hits = []KeywordHit{} }] *)
Definition non_nil_hits (v : KeywordValue) : KeywordValue :=
  match Hits v with None => with_Hits v [] | Some _ => v end.

Definition EncodeValue (now : Z) (v : KeywordValue) : result error bytes :=
  let v := non_nil_hits (stamp_ts now v) in
  out ← Marshal v;
  check (negb (MaxValueBytes <? len out)) ! (ErrOversize (len out));
  Ok out.

Definition DecodeValue (payload : bytes) : result error KeywordValue :=
  check (negb (len payload =? 0)) ! ErrEmptyValue;
  check (negb (MaxValueBytes <? len payload)) ! (ErrOversize (len payload));
  decodeBounded payload.

Definition EstimateValueSize (now : Z) (v : KeywordValue) : Z :=
  match marshal (stamp_ts now v) with Some out => len out | None => MaxValueBytes + 1 end.

(** ** Salts *)
Definition SaltForKeyword (keyword : bytes) : result error bytes :=
  check (negb (len keyword =? 0)) ! ErrEmptyKeyword;
  check (negb (MaxSaltBytes <? len keyword)) ! (ErrSaltTooLong (len keyword));
  Ok keyword.

Definition SaltForShard (keyword : bytes) (shard : Z) : result error bytes :=
  if shard =? 0 then SaltForKeyword keyword
  else SaltForKeyword (keyword ++ str "#" ++ format_decimal shard).

(** ** Publisher pointers *)
Definition zero_or_32 (b : bytes) : bool := (len b =? 0) || (len b =? 32).

(** The width checks of the encoder and the decoder. *)
Definition check_widths (v : PPMIValue) : result error unit :=
  check (len (p_IH v) =? 20) ! (ErrIH (len (p_IH v)));
  check (zero_or_32 (Commit v)) ! (ErrCommit (len (Commit v)));
  check (zero_or_32 (Topics v)) ! (ErrTopics (len (Topics v)));
  check (zero_or_32 (NextPk v)) ! (ErrNextPk (len (NextPk v)));
  Ok tt.

Definition stamp_ppmi (now : Z) (v : PPMIValue) : PPMIValue :=
  if p_Ts v =? 0 then
    {| p_IH := p_IH v; Commit := Commit v; Topics := Topics v; p_Ts := now; NextPk := NextPk v |}
  else v.

Definition EncodePPMI (now : Z) (v : PPMIValue) : result error bytes :=
  _ ← check_widths v;
  let v := stamp_ppmi now v in
  out ← Marshal v;
  check (negb (MaxPPMIValueBytes <? len out)) ! (ErrOversize (len out));
  Ok out.

Definition DecodePPMI (payload : bytes) : result error PPMIValue :=
  check (negb (len payload =? 0)) ! ErrEmptyValue;
  check (negb (MaxPPMIValueBytes <? len payload)) ! (ErrOversize (len payload));
  v ← decodeBounded payload;
  _ ← check_widths v;
  Ok v.
End schema.

(** ** Contracts *)
Definition widths_ok (v : PPMIValue) : Prop :=
  len (p_IH v) = 20 ∧ (len (Commit v) = 0 ∨ len (Commit v) = 32) ∧
  (len (Topics v) = 0 ∨ len (Topics v) = 32) ∧ (len (NextPk v) = 0 ∨ len (NextPk v) = 32).

Lemma zero_or_32_spec b : zero_or_32 b = true ↔ len b = 0 ∨ len b = 32.
Proof. unfold zero_or_32. by rewrite orb_true_iff, !Z.eqb_eq. Qed.

Lemma check_widths_ok v : check_widths v = Ok tt ↔ widths_ok v.
Proof.
  unfold check_widths, widths_ok. rewrite <-!zero_or_32_spec, <-(Z.eqb_eq (len (p_IH v)) 20).
  destruct (_ =? 20), (zero_or_32 _), (zero_or_32 _), (zero_or_32 _); simpl; intuition congruence.
Qed.

(** What both decoders do before they look at a payload. *)
Lemma decode_guard `{Bencode V} (payload : bytes) (k : result error V) v :
  (check (negb (len payload =? 0)) ! ErrEmptyValue;
   check (negb (MaxValueBytes <? len payload)) ! (ErrOversize (len payload)); k) = Ok v ↔
  1 ≤ len payload ≤ MaxValueBytes ∧ k = Ok v.
Proof.
  pose proof (len_nonneg payload).
  destruct (Z.eqb_spec (len payload) 0), (Z.ltb_spec MaxValueBytes (len payload)); simpl;
    (split; [intros Hk | intros [? Hk]]); try done; try lia. split; [lia | done].
Qed.

Lemma stamp_ts_ok now v : is_i64 now → wire_ok v → wire_ok (stamp_ts now v).
Proof.
  intros Hn (Ht & Hr). unfold stamp_ts. destruct (_ =? 0); by split.
Qed.

Lemma stamped_ok now v :
  is_i64 now → wire_ok (non_nil_hits v) → wire_ok (non_nil_hits (stamp_ts now v)).
Proof.
  intros Hn Hv. replace (non_nil_hits (stamp_ts now v)) with (stamp_ts now (non_nil_hits v)).
  - by apply stamp_ts_ok.
  - destruct v as [ts [hs|] mo np]; unfold stamp_ts; simpl; by destruct (ts =? 0).
Qed.

Lemma non_nil_some v : is_Some (Hits v) → non_nil_hits v = v.
Proof. unfold non_nil_hits. by intros [hs ->]. Qed.

(** A capped encoder: what it writes is within the cap and decodes back. *)
Lemma capped_roundtrip `{BencodeLaws V} (v : V) b :
  wire_ok v →
  (out ← Marshal v; check (negb (MaxValueBytes <? len out)) ! (ErrOversize (len out)); Ok out)
    = Ok b →
  marshal v = Some b ∧ 1 ≤ len b ≤ MaxValueBytes ∧ decodeBounded b = Ok v.
Proof.
  intros Hv. unfold Marshal, decodeBounded. destruct (marshal v) as [out|] eqn:E; [|done]. simpl.
  destruct (Z.ltb_spec MaxValueBytes (len out)) as [|Hle]; [done |]. intros Hb.
  apply Ok_inj in Hb as <-. rewrite (unmarshal_marshal v out) by done.
  pose proof (marshal_nonempty v out E). split_and!; [done | | done | done].
  destruct out; [done |]. rewrite len_cons. pose proof (len_nonneg out). lia.
Qed.

Lemma keyword_value_contract {BK : Bencode KeywordValue} {BL : BencodeLaws KeywordValue} now v :
  is_i64 now → wire_ok (non_nil_hits v) →
  (∀ b, EncodeValue now v = Ok b →
        1 ≤ len b ≤ MaxValueBytes ∧ DecodeValue b = Ok (non_nil_hits (stamp_ts now v))) ∧
  (is_Some (Hits v) →
     (EstimateValueSize now v ≤ MaxValueBytes ↔ ∃ b, EncodeValue now v = Ok b)) ∧
  (∀ payload w, DecodeValue payload = Ok w → 1 ≤ len payload ≤ MaxValueBytes).
Proof.
  intros Hnow Hv. pose proof (stamped_ok now v Hnow Hv) as Hs. split_and!.
  - intros b Hb. apply capped_roundtrip in Hb as (_ & Hl & Hd); [|done].
    split; [done |]. by apply decode_guard.
  - intros Hh. assert (Hn : non_nil_hits (stamp_ts now v) = stamp_ts now v).
    { apply non_nil_some. unfold stamp_ts. by destruct (_ =? 0). }
    unfold EstimateValueSize, EncodeValue, Marshal. rewrite Hn.
    destruct (marshal_total (stamp_ts now v)) as [b Hb]; [by rewrite <-Hn |]. rewrite Hb. simpl.
    destruct (Z.ltb_spec MaxValueBytes (len b)); simpl; (split; [try lia | try done]).
    + intros [b' Hb']. done.
    + intros _. by exists b.
  - intros payload w Hw. by apply decode_guard in Hw as [? _].
Qed.

Lemma ppmi_contract {BP : Bencode PPMIValue} {BL : BencodeLaws PPMIValue} now :
  is_i64 now →
  (∀ v b, wire_ok v → EncodePPMI now v = Ok b →
     widths_ok v ∧ 1 ≤ len b ≤ MaxPPMIValueBytes ∧ DecodePPMI b = Ok (stamp_ppmi now v)) ∧
  (∀ v, ¬ widths_ok v → ∀ b, EncodePPMI now v ≠ Ok b) ∧
  (∀ payload v, DecodePPMI payload = Ok v →
     widths_ok v ∧ 1 ≤ len payload ≤ MaxPPMIValueBytes).
Proof.
  intros Hnow. split_and!.
  - intros v b Hv Hb. apply bind_ok_inv in Hb as ([] & Hw & Hb). apply check_widths_ok in Hw.
    assert (Hws : widths_ok (stamp_ppmi now v)) by (unfold stamp_ppmi; by destruct (_ =? 0)).
    apply capped_roundtrip in Hb as (_ & Hl & Hd).
    2:{ unfold stamp_ppmi. by destruct (_ =? 0). }
    split_and!; [done | lia | unfold MaxPPMIValueBytes; lia |]. apply decode_guard.
    split; [done |]. rewrite Hd, bind_ok. by rewrite (proj2 (check_widths_ok _) Hws).
  - intros v Hn b Hb. apply bind_ok_inv in Hb as ([] & Hw & _). by apply check_widths_ok in Hw.
  - intros payload v Hd. apply decode_guard in Hd as [Hl Hd].
    apply bind_ok_inv in Hd as (w & _ & Hd). apply bind_ok_inv in Hd as ([] & Hw & Hd).
    apply Ok_inj in Hd as <-. split; [by apply check_widths_ok | done].
Qed.

(** [C8] The two DHT items keep their contracts.  A keyword value that encodes is 1
    to 1000 bytes and decodes to the value that was encoded, with its timestamp
    stamped and an absent hit list made empty.  It encodes exactly when the
    estimate the publisher's eviction loop uses is within the cap, also when the
    timestamp is still to be stamped.  A publisher pointer encodes only when its
    infohash has 20 bytes and its optional fields 0 or 32; it then fits the BEP-44
    cap and decodes to itself with the timestamp stamped.  Whatever the bytes, a
    payload that is empty or over the cap is refused, and a decoded pointer has
    these widths. *)
Theorem item_contracts
    {BK : Bencode KeywordValue} {LK : BencodeLaws KeywordValue}
    {BP : Bencode PPMIValue} {LP : BencodeLaws PPMIValue} (now : Z) (Hnow : is_i64 now) :
  (∀ v, wire_ok (non_nil_hits v) →
     (∀ b, EncodeValue now v = Ok b →
           1 ≤ len b ≤ MaxValueBytes ∧ DecodeValue b = Ok (non_nil_hits (stamp_ts now v))) ∧
     (is_Some (Hits v) →
        (EstimateValueSize now v ≤ MaxValueBytes ↔ ∃ b, EncodeValue now v = Ok b)) ∧
     (∀ payload w, DecodeValue payload = Ok w → 1 ≤ len payload ≤ MaxValueBytes)) ∧
  (∀ v b, wire_ok v → EncodePPMI now v = Ok b →
     widths_ok v ∧ 1 ≤ len b ≤ MaxPPMIValueBytes ∧ DecodePPMI b = Ok (stamp_ppmi now v)) ∧
  (∀ v, ¬ widths_ok v → ∀ b, EncodePPMI now v ≠ Ok b) ∧
  (∀ payload v, DecodePPMI payload = Ok v →
     widths_ok v ∧ 1 ≤ len payload ≤ MaxPPMIValueBytes).
Proof. split; [intros; by apply keyword_value_contract | by apply ppmi_contract]. Qed.

(** ** Concrete codecs *)
#[export] Instance KeywordHit_dec : EqDecision KeywordHit. Proof. solve_decision. Defined.
#[export] Instance KeywordValue_dec : EqDecision KeywordValue. Proof. solve_decision. Defined.
#[export] Instance PPMIValue_dec : EqDecision PPMIValue. Proof. solve_decision. Defined.
#[export] Program Instance KeywordHit_countable : Countable KeywordHit := inj_countable'
  (λ h, (IH h, N h, S_ h, F h, Sz h)) (λ '(a, b, c, d, e), Build_KeywordHit a b c d e) _.
Next Obligation. by intros []. Qed.
#[export] Program Instance KeywordValue_countable : Countable KeywordValue := inj_countable'
  (λ v, (Ts v, Hits v, More v, NextPubKey v)) (λ '(a, b, c, d), Build_KeywordValue a b c d) _.
Next Obligation. by intros []. Qed.
#[export] Program Instance PPMIValue_countable : Countable PPMIValue := inj_countable'
  (λ v, (p_IH v, Commit v, Topics v, p_Ts v, NextPk v))
  (λ '(a, b, c, d, e), Build_PPMIValue a b c d e) _.
Next Obligation. by intros []. Qed.

Definition toy_value : Bencode KeywordValue := ToyCodec.pos_bencode (λ _, tt).
Definition toy_ppmi : Bencode PPMIValue := ToyCodec.pos_bencode (λ _, tt).

Definition sample_value : KeywordValue := {|
  Ts := 0; More := 0; NextPubKey := [];
  Hits := Some [{| IH := [x01]; N := []; S_ := 1; F := 0; Sz := 0 |}]
|}.
Definition sample_ppmi : PPMIValue := {|
  p_IH := replicate 20 x07; Commit := []; Topics := []; p_Ts := 0; NextPk := []
|}.

Lemma item_contracts_witness :
  (∃ b, @EncodeValue toy_value 1700 sample_value = Ok b ∧
        @DecodeValue toy_value b = Ok (with_Ts sample_value 1700)) ∧
  (∃ b, @EncodePPMI toy_ppmi 1700 sample_ppmi = Ok b ∧
        @DecodePPMI toy_ppmi b = Ok (stamp_ppmi 1700 sample_ppmi)).
Proof.
  destruct (@item_contracts toy_value (ToyCodec.pos_laws _) toy_ppmi (ToyCodec.pos_laws _) 1700)
    as (Hkw & Hpp & _).
  { split; by vm_compute. }
  split.
  - destruct (Hkw sample_value) as (Hrt & _ & _).
    { unfold wire_ok, value_wire, hit_ok, is_i64. simpl. split_and!; try done.
      apply Forall_singleton. simpl. lia. }
    destruct (@EncodeValue toy_value 1700 sample_value) as [b|e] eqn:E.
    + exists b. split; [done |]. destruct (Hrt b eq_refl) as [_ Hd]. exact Hd.
    + exfalso. assert (Hok : is_ok (@EncodeValue toy_value 1700 sample_value) = true)
        by (vm_compute; reflexivity). by rewrite E in Hok.
  - destruct (@EncodePPMI toy_ppmi 1700 sample_ppmi) as [b|e] eqn:E.
    + destruct (Hpp sample_ppmi b) as (_ & _ & Hd); [by vm_compute | exact E |].
      exists b. by split.
    + exfalso. assert (Hok : is_ok (@EncodePPMI toy_ppmi 1700 sample_ppmi) = true)
        by (vm_compute; reflexivity). by rewrite E in Hok.
Defined.
End DhtSchema.
