(* ===== verification/GoFloat.v ===== *)
(** * Go's float64

    IEEE 754 binary64 as the standard library's [spec_float]: the operations the
    program uses, executable and free of primitive types.  [math.Log] and
    [math.Pow] are parameters. *)

From Stdlib Require Import SpecFloat FloatOps.
From S2P Require Import Prelude GoInt.
Open Scope Z_scope.

Abbreviation float64 := spec_float.

Module GoFloat.

Definition prec : Z := 53.
Definition emax : Z := 1024.

Definition fadd : float64 → float64 → float64 := SFadd prec emax.
Definition fsub : float64 → float64 → float64 := SFsub prec emax.
Definition fmul : float64 → float64 → float64 := SFmul prec emax.
Definition fdiv : float64 → float64 → float64 := SFdiv prec emax.
Definition fopp : float64 → float64 := SFopp.
Definition feq : float64 → float64 → bool := SFeqb.
Definition flt : float64 → float64 → bool := SFltb.
Definition fle : float64 → float64 → bool := SFleb.
Definition is_nan (f : float64) : bool := match f with S754_nan => true | _ => false end.

(** The double nearest to [m * 2^e], as the compiler rounds a constant and
    [float64(i)] an integer. *)
Definition of_scaled (m e : Z) : float64 := binary_normalize prec emax m e false.
Definition of_int (i : Z) : float64 := of_scaled i 0.

(** The double nearest to [num / den]. *)
Definition of_ratio (num den : Z) : float64 := fdiv (of_int num) (of_int den).

(** [math.Ceil] followed by a conversion to an integer. *)
Definition ceil_Z (f : float64) : Z :=
  match f with
  | S754_finite s m e =>
    let v := if s then Zneg m else Zpos m in
    if 0 <=? e then v * 2 ^ e else - ((- v) / 2 ^ (- e))
  | _ => 0
  end.

(** [math.Log] and [math.Pow]. *)
Class Math := { Log : float64 → float64; Pow : float64 → float64 → float64 }.

(** [math.Ln2] and [math.Ln2 * math.Ln2], rounded. *)
Definition Ln2 : float64 := of_scaled 6243314768165359 (- 53).
Definition Ln2_squared : float64 := of_scaled 8655072057804175 (- 54).

Lemma flt_irrefl f : flt f f = false.
Proof.
  unfold flt, SFltb, SFcompare. destruct f as [s|s| |s m e]; try done; [by destruct s |].
  destruct s; rewrite Z.compare_refl, Pcompare_refl; done.
Qed.

Lemma flt_asymm f g : flt f g = true → flt g f = false.
Proof.
  unfold flt, SFltb, SFcompare. destruct f as [s|s| |s m e], g as [s'|s'| |s' m' e'];
    try done; try (by destruct s, s'); try (by destruct s); try (by destruct s').
  pose proof (Pos.compare_antisym m m') as Ha. unfold Pos.compare in Ha.
  destruct s, s'; try done; rewrite (Z.compare_antisym e e'), ?Ha;
    destruct (e ?= e'); simpl; try done; by destruct (Pos.compare_cont Eq m m').
Qed.

Lemma flt_false_fle f g :
  is_nan f = false → is_nan g = false → flt f g = false → fle g f = true.
Proof.
  unfold flt, fle, SFltb, SFleb, SFcompare.
  destruct f as [s|s| |s m e], g as [s'|s'| |s' m' e']; try done; intros _ _;
    try (by destruct s, s'); try (by destruct s); try (by destruct s').
  pose proof (Pos.compare_antisym m m') as Ha. unfold Pos.compare in Ha.
  destruct s, s'; try done; rewrite (Z.compare_antisym e e'), ?Ha;
    destruct (e ?= e'); simpl; try done; by destruct (Pos.compare_cont Eq m m').
Qed.

(** The order of the floats that are not NaN: the lexicographic order of a key. *)
Definition fkey (f : float64) : Z * Z * Z :=
  match f with
  | S754_zero _ => (0, 0, 0)
  | S754_infinity s => (if s then -2 else 2, 0, 0)
  | S754_finite s m e => if s then (-1, - e, Zneg m) else (1, e, Zpos m)
  | S754_nan => (3, 0, 0)
  end.
Definition key_lt (a b : Z * Z * Z) : Prop :=
  a.1.1 < b.1.1 ∨ (a.1.1 = b.1.1 ∧ (a.1.2 < b.1.2 ∨ (a.1.2 = b.1.2 ∧ a.2 < b.2))).

Lemma compare_key f g :
  is_nan f = false → is_nan g = false →
  match SFcompare f g with
  | Some Lt => key_lt (fkey f) (fkey g)
  | Some Eq => fkey f = fkey g
  | Some Gt => key_lt (fkey g) (fkey f)
  | None => False
  end.
Proof.
  unfold SFcompare, key_lt, fkey.
  destruct f as [s|s| |s m e], g as [s'|s'| |s' m' e']; try done; intros _ _;
    try (destruct s, s'; simpl; lia || done); try (destruct s; simpl; lia || done);
    try (destruct s'; simpl; lia || done).
  fold (Pos.compare m m').
  destruct s, s'; simpl; try lia; destruct (Z.compare_spec e e') as [->|Hc|Hc]; simpl; try lia;
    change (Pos.compare_cont Eq m m') with (Pos.compare m m');
    destruct (Pos.compare_spec m m') as [->|Hm|Hm]; simpl; try done; lia.
Qed.

Lemma flt_key f g : is_nan f = false → is_nan g = false → flt f g = true ↔ key_lt (fkey f) (fkey g).
Proof.
  intros Hf Hg. pose proof (compare_key f g Hf Hg) as H. unfold flt, SFltb.
  destruct (SFcompare f g) as [[]|]; try done; unfold key_lt in *; [rewrite H|]; split; try done; lia.
Qed.
Lemma feq_key f g : is_nan f = false → is_nan g = false → feq f g = true ↔ fkey f = fkey g.
Proof.
  intros Hf Hg. pose proof (compare_key f g Hf Hg) as H. unfold feq, SFeqb.
  destruct (SFcompare f g) as [[]|]; try done; unfold key_lt in *; split; try done; intros E; rewrite E in H; lia.
Qed.
End GoFloat.
