(* ===== verification/Files.v ===== *)
(** * Atomic file replacement

    The stores of the program persist the same way: [os.CreateTemp] beside the
    target, write, close, [os.Rename], and [os.Remove] of the temporary file when
    a step fails.  The file system is a map from paths to contents, and which
    calls fail is an argument. *)

From S2P Require Import Prelude GoInt.
Open Scope Z_scope.

Module Files.

Abbreviation path := bytes.
Abbreviation fs := (gmap path bytes).

(** Which calls of one save succeed.  A write that fails may have written a part
    of the content first. *)
Record outcome := {
  o_create : bool;
  o_write : bool; o_written : nat;
  o_close : bool; o_rename : bool; o_remove : bool
}.
Definition no_failure : outcome := {|
  o_create := true; o_write := true; o_written := 0; o_close := true; o_rename := true;
  o_remove := true
|}.

Inductive error : Type := ErrCreate | ErrWrite | ErrClose | ErrRename.

(** [os.Remove(tmp)], whose error the callers ignore. *)
Definition remove (o : outcome) (tmp : path) (f : fs) : fs :=
  if o_remove o then delete tmp f else f.

(** Replace the file at [p] by [content], through the temporary file [tmp]. *)
Definition replace_file (o : outcome) (tmp p : path) (content : bytes) (f : fs)
    : fs * result error unit :=
  if negb (o_create o) then (f, Err ErrCreate)
  else
    let f1 := <[tmp := []]> f in
    if negb (o_write o) then
      (remove o tmp (<[tmp := take (o_written o) content]> f1), Err ErrWrite)
    else
      let f2 := <[tmp := content]> f1 in
      if negb (o_close o) then (remove o tmp f2, Err ErrClose)
      else if negb (o_rename o) then (remove o tmp f2, Err ErrRename)
      else (<[p := content]> (delete tmp f2), Ok tt).

(** Whatever fails, the target holds its old content or the whole new one, and
    no other file changes but the temporary one. *)
Lemma replace_file_atomic o tmp p content f f' r :
  tmp ≠ p → f !! tmp = None → replace_file o tmp p content f = (f', r) →
  (f' !! p = match r with Ok _ => Some content | Err _ => f !! p end) ∧
  (∀ q, q ≠ p → q ≠ tmp → f' !! q = f !! q) ∧
  (r = Ok tt → f' !! tmp = None) ∧ (o_remove o = true → f' !! tmp = None).
Proof.
  intros Hne Hf. unfold replace_file, remove. intros Hr.
  destruct (o_create o), (o_write o), (o_close o), (o_rename o), (o_remove o); simpl in Hr;
    injection Hr as <- <-; (split; [| split; [| split]]); intros; by simplify_map_eq.
Qed.

(** Without failures the new content is there. *)
Lemma replace_file_ok tmp p content f :
  tmp ≠ p → ∃ f', replace_file no_failure tmp p content f = (f', Ok tt) ∧ f' !! p = Some content.
Proof. intros Hne. eexists. split; [reflexivity |]. by simplify_map_eq. Qed.
End Files.
