(* ===== verification/Bloom.v ===== *)
(** * The known-good filter (internal/reputation/bloom.go)

    A Bloom filter over infohashes: a bit array of 64-bit words, its double
    hashing, its file format and its persistence.  An operation under the
    filter's lock is one step. *)

From Stdlib Require Import SpecFloat.
From S2P Require Import Prelude GoInt GoFloat Files.
Open Scope Z_scope.

Module Bloom.
Import GoFloat.

Record BloomFilter := { bits : list Z; m : Z; k : Z; path : bytes }.

Definition BloomDefaultExpectedItems : Z := 1000000.
Definition BloomDefaultFalsePositiveRate : float64 := of_ratio 1 100.
Definition bloomFileMagic : bytes := str "SBLM".
Definition bloomFileVersion : Z := 1.
Definition maxBloomBits : Z := Z.shiftl 1 31.
Definition MaxUint16 : Z := 65535.

Inductive error : Type :=
  | ErrEmptyPath | ErrMkdir | ErrOpen
  | ErrHeader | ErrMagic | ErrVersion (v : Z) | ErrParams (m k : Z) | ErrTooLarge (m : Z)
  | ErrBitsLen (n m : Z) | ErrReadBits | ErrK (k : Z) | ErrSave (e : Files.error).

(** [(m+63)/64] on uint64. *)
Definition words_for (m : Z) : Z := u64 (m + 63) / 64.

(** ** Sizing *)
Section sizing.
Context `{Math}.

Definition optimalSize (n : Z) (p : float64) : Z * Z :=
  let mF := fdiv (fmul (fopp (of_int n)) (Log p)) Ln2_squared in
  let kF := fmul (fdiv mF (of_int n)) Ln2 in
  let m := u64 (ceil_Z mF) in
  let m := if m =? 0 then 1 else m in
  let k := u64 (ceil_Z kF) in
  let k := if k =? 0 then 1 else k in
  (m, k).

Definition NewBloomFilter (expectedItems : Z) (fpRate : float64) : BloomFilter :=
  let expectedItems := if expectedItems <=? 0 then BloomDefaultExpectedItems else expectedItems in
  let fpRate := if fle fpRate (of_int 0) || fle (of_int 1) fpRate
                then BloomDefaultFalsePositiveRate else fpRate in
  let '(m, k) := optimalSize expectedItems fpRate in
  {| bits := replicate (Z.to_nat (words_for m)) 0; m := m; k := k; path := [] |}.
End sizing.

(** ** Membership *)
Definition indices (b : BloomFilter) (input : bytes) : list Z :=
  let h1 := fnv1a input in
  let h2 := Z.lor (fnv1a_step h1 xff) 1 in
  (λ i, u64 (h1 + u64 (i * h2)) mod m b) <$> seqZ 0 (k b).

Definition bit (idx : Z) : Z := Z.shiftl 1 (idx mod 64).

(** [bits[idx/64] |= 1 << (idx % 64)] *)
Definition set_bit (bits : list Z) (idx : Z) : list Z :=
  alter (λ w, Z.lor w (bit idx)) (Z.to_nat (idx / 64)) bits.

(** [bits[idx/64] & (1 << (idx % 64)) != 0] *)
Definition test_bit (bits : list Z) (idx : Z) : bool :=
  negb (Z.land (default 0 (bits !! Z.to_nat (idx / 64))) (bit idx) =? 0).

Definition Add (b : BloomFilter) (infohash : bytes) : BloomFilter :=
  {| bits := foldl set_bit (bits b) (indices b infohash); m := m b; k := k b; path := path b |}.

Definition Test (b : BloomFilter) (infohash : bytes) : bool :=
  forallb (test_bit (bits b)) (indices b infohash).

(** [bits.OnesCount64] *)
Definition OnesCount64 (w : Z) : Z :=
  len (filter (λ i, Z.testbit w i = true) (seqZ 0 64)).

Definition PopulationCount (b : BloomFilter) : Z :=
  foldl (λ n w, u64 (n + OnesCount64 w)) 0 (bits b).

Definition Bits (b : BloomFilter) : Z := m b.
Definition HashFunctions (b : BloomFilter) : Z := k b.

(** ** The file format *)
Definition write_header (b : BloomFilter) : bytes :=
  bloomFileMagic ++ put_le 2 bloomFileVersion ++ put_le 2 (u16 (k b)) ++ put_le 8 (m b) ++
  put_le 8 (len (bits b)).

Definition writeBloom (b : BloomFilter) : result error bytes :=
  check (negb (MaxUint16 <? k b)) ! (ErrK (k b));
  Ok (write_header b ++ (bits b ≫= put_le 8)).

(** [io.ReadFull(r, buf)] with [len(buf) = n]. *)
Definition ReadFull (n : nat) (r : bytes) : option (bytes * bytes) :=
  if (n <=? length r)%nat then Some (take n r, drop n r) else None.

(** The loop that fills [bits]. *)
Fixpoint read_words (n : nat) (r : bytes) : result error (list Z) :=
  match n with
  | O => Ok []
  | S n =>
    match ReadFull 8 r with
    | None => Err ErrReadBits
    | Some (buf, r) => ws ← read_words n r; Ok (get_le buf :: ws)
    end
  end.

Definition readBloom (r : bytes) : result error BloomFilter :=
  match ReadFull 24 r with
  | None => Err ErrHeader
  | Some (hdr, r) =>
    check (bool_decide (take 4 hdr = bloomFileMagic)) ! ErrMagic;
    let version := get_le (take 2 (drop 4 hdr)) in
    check (version =? bloomFileVersion) ! (ErrVersion version);
    let k := get_le (take 2 (drop 6 hdr)) in
    let m := get_le (take 8 (drop 8 hdr)) in
    let bitsLen := get_le (take 8 (drop 16 hdr)) in
    check (negb ((m =? 0) || (k =? 0))) ! (ErrParams m k);
    check (negb (maxBloomBits <? m)) ! (ErrTooLarge m);
    check (bitsLen =? words_for m) ! (ErrBitsLen bitsLen m);
    bits ← read_words (Z.to_nat bitsLen) r;
    Ok {| bits := bits; m := m; k := k; path := [] |}
  end.

(** ** Persistence *)
Definition with_path (b : BloomFilter) (p : bytes) : BloomFilter :=
  {| bits := bits b; m := m b; k := k b; path := p |}.

(** [tmp] is the name [os.CreateTemp] chose; [o] says which calls fail.  A filter
    that does not encode leaves an empty temporary file behind only if removing
    it fails. *)
Definition Save (o : Files.outcome) (tmp : bytes) (b : BloomFilter) (f : gmap bytes bytes)
    : gmap bytes bytes * result error unit :=
  if bool_decide (path b = []) then (f, Ok tt)
  else if negb (Files.o_create o) then (f, Err (ErrSave Files.ErrCreate))
  else match writeBloom b with
  | Err e => (Files.remove o tmp (<[tmp := []]> f), Err e)
  | Ok content =>
    let '(f, r) := Files.replace_file o tmp (path b) content f in
    (f, match r with Ok _ => Ok tt | Err e => Err (ErrSave e) end)
  end.

(** [mkdir] and [open] say whether the system calls succeed on a file that
    exists. *)
Definition LoadOrCreateBloom `{Math} (mkdir open : bool) (p : bytes) (f : gmap bytes bytes)
    : result error BloomFilter :=
  check (negb (bool_decide (p = []))) ! ErrEmptyPath;
  check mkdir ! ErrMkdir;
  match f !! p with
  | None => Ok (with_path (NewBloomFilter 0 (of_int 0)) p)
  | Some content =>
    check open ! ErrOpen;
    bf ← readBloom content; Ok (with_path bf p)
  end.

(** ** Well-formed filters

    What indexing needs: positive parameters and one word per 64 bits. *)
Definition wf (b : BloomFilter) : Prop :=
  0 < m b ∧ m b + 63 < 2 ^ 64 ∧ 0 < k b ∧ len (bits b) = words_for (m b) ∧
  Forall is_u64 (bits b).

Lemma words_for_spec m : 0 < m → m + 63 < 2 ^ 64 → words_for m = (m + 63) / 64.
Proof. intros. unfold words_for. by rewrite u64_small by (unfold is_u64; lia). Qed.

Lemma index_range b x idx : wf b → idx ∈ indices b x → 0 ≤ idx < m b.
Proof.
  intros (Hm & _) Hin. unfold indices in Hin.
  apply list_elem_of_fmap in Hin as (i & -> & _). by apply Z.mod_pos_bound.
Qed.

(** No index of a well-formed filter is out of the range of its words. *)
Lemma index_in_bounds b x idx :
  wf b → idx ∈ indices b x → (Z.to_nat (idx / 64) < length (bits b))%nat.
Proof.
  intros Hwf Hin. pose proof (index_range b x idx Hwf Hin) as Hr.
  destruct Hwf as (Hm & Hm2 & _ & Hl & _). rewrite words_for_spec in Hl by done.
  unfold len in Hl. pose proof (Z.div_mod idx 64). pose proof (Z.mod_pos_bound idx 64).
  pose proof (Z.div_mod (m b + 63) 64). pose proof (Z.mod_pos_bound (m b + 63) 64). lia.
Qed.

Lemma test_bit_spec bs idx :
  0 ≤ idx → test_bit bs idx = Z.testbit (default 0 (bs !! Z.to_nat (idx / 64))) (idx mod 64).
Proof.
  intros Hi. unfold test_bit, bit. set (w := default _ _).
  pose proof (Z.mod_pos_bound idx 64 eq_refl) as Hr. rewrite Z.shiftl_1_l.
  destruct (Z.testbit w (idx mod 64)) eqn:E.
  - apply negb_true_iff, Z.eqb_neq. intros H0.
    apply (f_equal (λ z, Z.testbit z (idx mod 64))) in H0.
    rewrite Z.land_spec, E, Z.pow2_bits_true, Z.bits_0 in H0 by lia. done.
  - apply negb_false_iff, Z.eqb_eq, Z.bits_inj'. intros n Hn.
    rewrite Z.land_spec, Z.pow2_bits_eqb, Z.bits_0 by lia.
    destruct (Z.eqb_spec (idx mod 64) n); [subst; by rewrite E | by rewrite andb_false_r].
Qed.

Lemma length_set_bit bs idx : length (set_bit bs idx) = length bs.
Proof. apply length_alter. Qed.

(** Setting a bit sets that bit and no other. *)
Lemma test_set_bit bs i j :
  0 ≤ i → 0 ≤ j → (Z.to_nat (i / 64) < length bs)%nat →
  test_bit (set_bit bs i) j = test_bit bs j || (i =? j).
Proof.
  intros Hi Hj Hb. rewrite !test_bit_spec by done. unfold set_bit.
  pose proof (Z.mod_pos_bound i 64 eq_refl). pose proof (Z.mod_pos_bound j 64 eq_refl).
  pose proof (Z.div_mod i 64 ltac:(lia)). pose proof (Z.div_mod j 64 ltac:(lia)).
  pose proof (Z.div_pos i 64 Hi ltac:(lia)). pose proof (Z.div_pos j 64 Hj ltac:(lia)).
  destruct (decide (i / 64 = j / 64)) as [Heq|Hne].
  - rewrite Heq in *. rewrite list_lookup_alter.
    destruct (lookup_lt_is_Some_2 _ _ Hb) as [w Hw]. rewrite Hw.
    cbn [fmap option_fmap option_map from_option id]. rewrite decide_True by done.
    cbn [from_option id].
    rewrite Z.lor_spec. f_equal. unfold bit. rewrite Z.shiftl_1_l, Z.pow2_bits_eqb by lia.
    destruct (Z.eqb_spec (i mod 64) (j mod 64)), (Z.eqb_spec i j); try done; exfalso; lia.
  - rewrite list_lookup_alter, decide_False by lia.
    destruct (Z.eqb_spec i j); [congruence | by rewrite orb_false_r].
Qed.

Lemma test_set_bits bs l j :
  0 ≤ j → (∀ i, i ∈ l → 0 ≤ i ∧ (Z.to_nat (i / 64) < length bs)%nat) →
  test_bit (foldl set_bit bs l) j = test_bit bs j || bool_decide (j ∈ l).
Proof.
  intros Hj. revert bs. induction l as [|i l IH]; intros bs Hl; simpl.
  { by rewrite orb_false_r. }
  destruct (Hl i) as [Hi0 Hib]; [by left |].
  rewrite IH, test_set_bit; try done.
  - rewrite <-orb_assoc. f_equal. destruct (Z.eqb_spec i j) as [->|Hne]; simpl.
    + symmetry. apply bool_decide_eq_true. by left.
    + apply bool_decide_ext. rewrite elem_of_cons. intuition congruence.
  - intros i' Hi'. rewrite length_set_bit. apply Hl. by right.
Qed.

(** ** Adding keeps a filter well-formed *)
Lemma set_bit_u64 bs idx : Forall is_u64 bs → Forall is_u64 (set_bit bs idx).
Proof.
  intros Hf. unfold set_bit. apply Forall_alter; [done |]. intros w Hw Hr.
  pose proof (Z.mod_pos_bound idx 64 eq_refl) as Hm. unfold bit, is_u64 in *.
  split; [apply Z.lor_nonneg; split; [lia |]; rewrite Z.shiftl_1_l; apply Z.pow_nonneg; lia |].
  rewrite Z.shiftl_1_l. destruct (decide (Z.lor w (2 ^ (idx mod 64)) = 0)) as [->|Hne]; [done |].
  assert (0 ≤ Z.lor w (2 ^ (idx mod 64))).
  { apply Z.lor_nonneg. split; [lia |]. apply Z.pow_nonneg. lia. }
  apply Z.log2_lt_pow2; [lia |].
  rewrite Z.log2_lor by (try apply Z.pow_nonneg; lia). rewrite Z.log2_pow2 by lia.
  apply Z.max_lub_lt; [|lia]. destruct (decide (w = 0)) as [->|]; [done |].
  apply Z.log2_lt_pow2; lia.
Qed.

Lemma set_bits_shape l bs :
  length (foldl set_bit bs l) = length bs ∧ (Forall is_u64 bs → Forall is_u64 (foldl set_bit bs l)).
Proof.
  revert bs. induction l as [|i l IH]; intros bs; [done |]. simpl.
  destruct (IH (set_bit bs i)) as [Hl Hf]. split; [by rewrite Hl, length_set_bit |].
  intros Hb. by apply Hf, set_bit_u64.
Qed.

Lemma Add_wf b x : wf b → wf (Add b x).
Proof.
  intros (Hm & Hm2 & Hk & Hl & Hf). unfold wf, Add. simpl.
  destruct (set_bits_shape (indices b x) (bits b)) as [Hl' Hf']. unfold len in *. rewrite Hl'.
  split_and!; try done. by apply Hf'.
Qed.

Lemma Add_bit b x j :
  wf b → 0 ≤ j → test_bit (bits (Add b x)) j = test_bit (bits b) j || bool_decide (j ∈ indices b x).
Proof.
  intros Hwf Hj. unfold Add. simpl. apply test_set_bits; [done |]. intros i Hi.
  split; [by eapply index_range | by eapply index_in_bounds].
Qed.

(** The filter after a sequence of additions: a bit is set when it was set or is
    an index of an added infohash. *)
Lemma Adds_bit xs b j :
  wf b → 0 ≤ j →
  wf (foldl Add b xs) ∧ m (foldl Add b xs) = m b ∧ k (foldl Add b xs) = k b ∧
  (test_bit (bits (foldl Add b xs)) j = true ↔
   test_bit (bits b) j = true ∨ ∃ x, x ∈ xs ∧ j ∈ indices b x).
Proof.
  intros Hwf Hj. revert b Hwf. induction xs as [|x xs IH]; intros b Hwf; simpl.
  { split_and!; try done. split; [by left |]. intros [|(x & Hx & _)]; [done |].
    by apply not_elem_of_nil in Hx. }
  destruct (IH (Add b x) (Add_wf b x Hwf)) as (Hw & Hm & Hk & Hb).
  split_and!; try done. rewrite Hb, Add_bit, orb_true_iff, bool_decide_eq_true by done.
  change (indices (Add b x)) with (indices b).
  setoid_rewrite elem_of_cons. split.
  - intros [[Ht|Hi]|(y & Hy & Hi)]; [by left | right | right]; eauto.
  - intros [Ht|(y & [->|Hy] & Hi)]; [by left; left | by left; right |]. right. by exists y.
Qed.

Lemma Test_true b x : Test b x = true ↔ ∀ j, j ∈ indices b x → test_bit (bits b) j = true.
Proof.
  unfold Test. rewrite forallb_forall. split; intros Hf j Hj; apply Hf; by apply list_elem_of_In.
Qed.

Lemma membership b xs :
  wf b → let b' := foldl Add b xs in
  wf b' ∧
  (∀ x, x ∈ xs → Test b' x = true) ∧
  (∀ x, Test b x = true → Test b' x = true) ∧
  (∀ y, Test b' y = true ↔
     ∀ j, j ∈ indices b y → test_bit (bits b) j = true ∨ ∃ x, x ∈ xs ∧ j ∈ indices b x) ∧
  (∀ x j, j ∈ indices b' x → (Z.to_nat (j / 64) < length (bits b'))%nat).
Proof.
  intros Hwf b'. destruct (Adds_bit xs b 0 Hwf ltac:(done)) as (Hw & Hm & Hk & _). fold b' in Hw, Hm, Hk.
  assert (Hidx : indices b' = indices b) by (unfold indices; by rewrite Hm, Hk).
  assert (Hall : ∀ y, Test b' y = true ↔
    ∀ j, j ∈ indices b y → test_bit (bits b) j = true ∨ ∃ x, x ∈ xs ∧ j ∈ indices b x).
  { intros y. rewrite Test_true, Hidx. apply forall_proper. intros j.
    split; intros Hj Hin; destruct (index_range b y j Hwf Hin) as [H0 _];
      destruct (Adds_bit xs b j Hwf H0) as (_ & _ & _ & Hb); by apply Hb, Hj. }
  split_and!; try done.
  - intros x Hx. apply Hall. intros j Hj. right. by exists x.
  - intros x Hx. apply Hall. intros j Hj. left. by apply (proj1 (Test_true b x) Hx).
  - intros x j Hj. by eapply index_in_bounds.
Qed.

(** ** Reading back a file *)
Lemma ReadFull_app n s t : length s = n → ReadFull n (s ++ t) = Some (s, t).
Proof.
  intros <-. unfold ReadFull. rewrite length_app, take_app_length, drop_app_length.
  destruct (Nat.leb_spec (length s) (length s + length t)); [done | lia].
Qed.

Lemma read_words_put ws rest :
  Forall is_u64 ws → read_words (length ws) ((ws ≫= put_le 8) ++ rest) = Ok ws.
Proof.
  induction 1 as [|w ws Hw Hf IH]; [done |].
  change ((w :: ws) ≫= put_le 8) with (put_le 8 w ++ (ws ≫= put_le 8)).
  rewrite <-app_assoc. cbn [length read_words].
  rewrite ReadFull_app by apply length_put_le. rewrite IH. simpl.
  by rewrite get_put_le_small.
Qed.

Lemma read_words_ok n r ws :
  read_words n r = Ok ws → length ws = n ∧ Forall is_u64 ws.
Proof.
  revert r ws. induction n as [|n IH]; intros r ws Hr; simpl in Hr.
  { apply Ok_inj in Hr as <-. by split. }
  unfold ReadFull in Hr. destruct (8 <=? length r)%nat eqn:E; [|done].
  apply Nat.leb_le in E. apply bind_ok_inv in Hr as (ws' & Hw & Hr). apply Ok_inj in Hr as <-.
  destruct (IH _ _ Hw) as [Hl Hf]. split; [simpl; by rewrite Hl |]. constructor; [|done].
  pose proof (get_le_range (take 8 r)) as Hg. unfold len in Hg. rewrite length_take in Hg.
  rewrite Nat.min_l in Hg by done. exact Hg.
Qed.

(** The fields of a header. *)
Lemma write_header_fields b :
  length (write_header b) = 24%nat ∧ take 4 (write_header b) = bloomFileMagic ∧
  take 2 (drop 4 (write_header b)) = put_le 2 bloomFileVersion ∧
  take 2 (drop 6 (write_header b)) = put_le 2 (u16 (k b)) ∧
  take 8 (drop 8 (write_header b)) = put_le 8 (m b) ∧
  take 8 (drop 16 (write_header b)) = put_le 8 (len (bits b)).
Proof.
  unfold write_header. split; [by rewrite !length_app, !length_put_le |].
  set (p1 := put_le 2 _). set (p2 := put_le 2 _). set (p3 := put_le 8 _). set (p4 := put_le 8 _).
  assert (H1 : length p1 = 2%nat) by apply length_put_le.
  assert (H2 : length p2 = 2%nat) by apply length_put_le.
  assert (H3 : length p3 = 8%nat) by apply length_put_le.
  assert (H4 : length p4 = 8%nat) by apply length_put_le.
  clearbody p1 p2 p3 p4.
  do 3 (destruct p1 as [|? p1]; try done). do 3 (destruct p2 as [|? p2]; try done).
  do 9 (destruct p3 as [|? p3]; try done). by do 9 (destruct p4 as [|? p4]; try done).
Qed.

Lemma readBloom_write b rest content :
  wf b → m b ≤ maxBloomBits → writeBloom b = Ok content →
  readBloom (content ++ rest) = Ok (with_path b []).
Proof.
  intros (Hm & Hm2 & Hk & Hl & Hf) Hmax Hw. unfold writeBloom in Hw.
  apply check_ok_inv in Hw as [Hku Hw]. apply Ok_inj in Hw as <-.
  apply negb_true_iff, Z.ltb_ge in Hku. unfold MaxUint16 in Hku.
  destruct (write_header_fields b) as (H24 & H4 & Hv & Hkk & Hmm & Hbl).
  unfold readBloom. rewrite <-app_assoc, ReadFull_app by done.
  rewrite H4, Hv, Hkk, Hmm, Hbl, bool_decide_true by done.
  assert (Hlen : len (bits b) ≤ 2 ^ 32).
  { rewrite Hl, words_for_spec by done. unfold maxBloomBits in Hmax.
    apply Z.div_le_upper_bound; [done |]. change (Z.shiftl 1 31) with (2 ^ 31) in Hmax. lia. }
  pose proof (len_nonneg (bits b)).
  rewrite u16_small by (unfold is_u16; lia).
  rewrite (get_put_le_small 2 bloomFileVersion), (get_put_le_small 2 (k b)),
    (get_put_le_small 8 (m b)), (get_put_le_small 8 (len (bits b)));
    [| change (0 ≤ len (bits b) < 2 ^ 64); lia | change (0 ≤ m b < 2 ^ 64); lia
     | change (0 ≤ k b < 2 ^ 16); lia | done].
  rewrite Z.eqb_refl, <-Hl, Z.eqb_refl, (proj2 (Z.eqb_neq (m b) 0)), (proj2 (Z.eqb_neq (k b) 0)),
    (proj2 (Z.ltb_ge maxBloomBits (m b))) by lia. simpl negb. cbv iota.
  unfold len. rewrite Nat2Z.id, read_words_put by done. done.
Qed.

Lemma readBloom_ok content bf :
  readBloom content = Ok bf → wf bf ∧ m bf ≤ maxBloomBits ∧ len (bits bf) ≤ 2 ^ 25.
Proof.
  unfold readBloom. destruct (ReadFull 24 content) as [[hdr r]|]; [|done].
  set (kk := get_le (take 2 _)). set (mm := get_le (take 8 _)). set (nn := get_le (take 8 _)).
  intros Hr. apply check_ok_inv in Hr as [_ Hr]. apply check_ok_inv in Hr as [_ Hr].
  apply check_ok_inv in Hr as [Hz Hr]. apply check_ok_inv in Hr as [Hc Hr].
  apply check_ok_inv in Hr as [Hn Hr]. apply bind_ok_inv in Hr as (ws & Hw & Hr).
  apply Ok_inj in Hr as <-. apply read_words_ok in Hw as [Hlw Hfw].
  apply negb_true_iff, orb_false_iff in Hz as [Hmz Hkz]. apply Z.eqb_neq in Hmz, Hkz.
  apply negb_true_iff, Z.ltb_ge in Hc. apply Z.eqb_eq in Hn.
  pose proof (get_le_range (take 8 (drop 8 hdr))) as [Hm0 _].
  pose proof (get_le_range (take 2 (drop 6 hdr))) as [Hk0 _].
  fold mm in Hm0. fold kk in Hk0.
  assert (Hmax : maxBloomBits = 2 ^ 31) by reflexivity. rewrite Hmax in Hc.
  assert (Hwf : words_for mm = (mm + 63) / 64) by (apply words_for_spec; lia).
  assert (Hle : (mm + 63) / 64 ≤ 2 ^ 25).
  { apply Z.lt_succ_r, Z.div_lt_upper_bound; lia. }
  pose proof (Z.div_pos (mm + 63) 64).
  unfold wf. simpl. unfold len. rewrite Hlw, Hn, Hwf, Z2Nat.id by lia.
  split_and!; try done; lia.
Qed.

(** What a save leaves at the filter's path. *)
Definition saved (b : BloomFilter) (f f' : gmap bytes bytes) (r : result error unit) : Prop :=
  match r with
  | Ok _ => path b = [] ∧ f' = f ∨ ∃ c, writeBloom b = Ok c ∧ f' !! path b = Some c
  | Err _ => f' !! path b = f !! path b
  end.

Lemma Save_atomic o tmp b f f' r :
  tmp ≠ path b → f !! tmp = None → Save o tmp b f = (f', r) → saved b f f' r.
Proof.
  intros Hne Hf. unfold Save, saved. case_bool_decide as Hp; [intros [= <- <-]; by left |].
  destruct (Files.o_create o); simpl; [|by intros [= <- <-]].
  destruct (writeBloom b) as [c|e].
  - destruct (Files.replace_file o tmp (path b) c f) as [f1 r1] eqn:E. intros [= <- <-].
    apply Files.replace_file_atomic in E as (Hr & _); [|done..].
    destruct r1; [right; by exists c | done].
  - intros [= <- <-]. unfold Files.remove. destruct (Files.o_remove o); by simplify_map_eq.
Qed.

Lemma persistence {MA : Math} b tmp f :
  wf b → m b ≤ maxBloomBits → k b ≤ MaxUint16 → path b ≠ [] → tmp ≠ path b → f !! tmp = None →
  (∃ f', Save Files.no_failure tmp b f = (f', Ok tt) ∧
         LoadOrCreateBloom true true (path b) f' = Ok b) ∧
  (∀ o f' r, Save o tmp b f = (f', r) → saved b f f' r) ∧
  (∀ content bf, readBloom content = Ok bf →
     wf bf ∧ m bf ≤ maxBloomBits ∧ len (bits bf) ≤ 2 ^ 25).
Proof.
  intros Hwf Hm Hk Hp Htmp Hfresh. split_and!.
  - assert (Hw : ∃ c, writeBloom b = Ok c).
    { unfold writeBloom. destruct (Z.ltb_spec MaxUint16 (k b)); [lia |]. by eexists. }
    destruct Hw as [c Hc].
    destruct (Files.replace_file_ok tmp (path b) c f Htmp) as (f' & Hr & Hl). exists f'. split.
    + unfold Save. rewrite bool_decide_false by done.
      change (negb (Files.o_create Files.no_failure)) with false. cbv iota. by rewrite Hc, Hr.
    + unfold LoadOrCreateBloom. rewrite bool_decide_false by done. simpl. rewrite Hl.
      rewrite <-(app_nil_r c), (readBloom_write b [] c) by done. by destruct b.
  - intros o f' r. by apply Save_atomic.
  - apply readBloom_ok.
Qed.

(** [C9] The filter has no false negatives and survives a restart.  From a
    well-formed filter, any sequence of additions gives a well-formed filter in
    which every added infohash, and every infohash that was known before, tests
    positive.  It tests positive exactly when each of its bits was set before or
    is a bit of an added one, and no access is out of the bit array.  A filter
    saved without failures is the one loaded back, path included.  Whichever
    system calls fail during a save, the file at the filter's path holds its old
    content or the whole new one.  Whatever a file holds, a filter that loads is
    well formed and at most [2^31] bits (2^25 words) long, so a corrupt header
    neither panics nor drives an allocation. *)
Theorem bloom_filter {MA : Math} (b : BloomFilter) (xs : list bytes) (tmp : bytes)
    (f : gmap bytes bytes) (Hwf : wf b) :
  (let b' := foldl Add b xs in
   wf b' ∧
   (∀ x, x ∈ xs → Test b' x = true) ∧
   (∀ x, Test b x = true → Test b' x = true) ∧
   (∀ y, Test b' y = true ↔
      ∀ j, j ∈ indices b y → test_bit (bits b) j = true ∨ ∃ x, x ∈ xs ∧ j ∈ indices b x) ∧
   (∀ x j, j ∈ indices b' x → (Z.to_nat (j / 64) < length (bits b'))%nat)) ∧
  (m b ≤ maxBloomBits → k b ≤ MaxUint16 → path b ≠ [] → tmp ≠ path b → f !! tmp = None →
   (∃ f', Save Files.no_failure tmp b f = (f', Ok tt) ∧
          LoadOrCreateBloom true true (path b) f' = Ok b) ∧
   (∀ o f' r, Save o tmp b f = (f', r) → saved b f f' r) ∧
   (∀ content bf, readBloom content = Ok bf →
      wf bf ∧ m bf ≤ maxBloomBits ∧ len (bits bf) ≤ 2 ^ 25)).
Proof. split; [by apply membership | intros; by apply persistence]. Qed.

(** ** Example *)
Definition sample : BloomFilter := {| bits := [0; 0]; m := 100; k := 3; path := str "f" |}.

Lemma sample_wf : wf sample.
Proof. unfold wf. simpl. split_and!; try done. by repeat constructor. Qed.

Definition zero_math : Math := {| Log := λ x, x; Pow := λ x _, x |}.

Lemma bloom_filter_witness :
  Test (foldl Add sample [str "x"; str "y"]) (str "x") = true ∧
  ∃ f', Save Files.no_failure (str "t") sample ∅ = (f', Ok tt) ∧
        @LoadOrCreateBloom zero_math true true (str "f") f' = Ok sample.
Proof.
  destruct (@bloom_filter zero_math sample [str "x"; str "y"] (str "t") ∅ sample_wf)
    as [(_ & Hadd & _) Hp]. split.
  - apply Hadd. by left.
  - destruct Hp as [(f' & Hs & Hl) _]; [by vm_compute | by vm_compute | by vm_compute | by vm_compute | reflexivity |].
    exists f'. split; [exact Hs | exact Hl].
Defined.
End Bloom.
