(* ===== verification/Sources.v ===== *)
(** * Which indexers returned an infohash (internal/reputation/sources.go)

    A bounded table from infohashes to the sets of indexers that claimed them,
    with least-recently-used eviction: a map into a doubly linked list.  The
    specification is one list of entries, most recent first. *)

From S2P Require Import Prelude GoInt Utf8.
Open Scope Z_scope.

Module Sources.
Import Utf8.

Definition DefaultSourceCapacity : Z := 10000.

Record sourceEntry := { infohash : bytes; pubs : gset bytes }.

(** A [*list.Element] is an identity; [order] is the list of the elements from
    front to back with the entries they hold, [fresh] the next identity. *)
Record SourceTracker := {
  capacity : Z;
  items : gmap bytes N;
  order : list (N * sourceEntry);
  fresh : N
}.

Definition NewSourceTracker (cap : Z) : SourceTracker :=
  {| capacity := if cap <=? 0 then DefaultSourceCapacity else cap;
     items := ∅; order := []; fresh := 0%N |}.

(** ** container/list *)
Definition find_elem (e : N) (l : list (N * sourceEntry)) : option sourceEntry :=
  snd <$> head (filter (λ p, p.1 = e) l).
Definition Remove (e : N) (l : list (N * sourceEntry)) : list (N * sourceEntry) :=
  filter (λ p, p.1 ≠ e) l.
Definition MoveToFront (e : N) (l : list (N * sourceEntry)) : list (N * sourceEntry) :=
  match find_elem e l with Some v => (e, v) :: Remove e l | None => l end.
(** Assignment to the entry an element points to. *)
Definition set_value (e : N) (v : sourceEntry) (l : list (N * sourceEntry)) :=
  (λ p : N * sourceEntry, if bool_decide (p.1 = e) then (e, v) else p) <$> l.

Definition with_order (s : SourceTracker) (items : gmap bytes N) (order : list (N * sourceEntry))
    : SourceTracker :=
  {| capacity := capacity s; items := items; order := order; fresh := fresh s |}.

(** The eviction loop: one round per element over the capacity. *)
Fixpoint evict (fuel : nat) (s : SourceTracker) : SourceTracker :=
  match fuel with
  | O => s
  | S fuel =>
    if negb (capacity s <? len (order s)) then s
    else match last (order s) with
    | None => s
    | Some (oldest, oldestEntry) =>
      evict fuel (with_order s (delete (infohash oldestEntry) (items s)) (Remove oldest (order s)))
    end
  end.

Section tracker.
Context `{Unicode}.

Definition Record_ (s : SourceTracker) (ih pubkey : bytes) : SourceTracker :=
  if bool_decide (ih = []) || bool_decide (pubkey = []) then s
  else
    let key := strings_ToLower ih in
    match items s !! key with
    | Some elem =>
      match find_elem elem (order s) with
      | Some entry =>
        let entry := {| infohash := infohash entry; pubs := {[pubkey]} ∪ pubs entry |} in
        with_order s (items s) (MoveToFront elem (set_value elem entry (order s)))
      | None => s
      end
    | None =>
      let entry := {| infohash := key; pubs := {[pubkey]} |} in
      let s := {| capacity := capacity s; items := <[key := fresh s]> (items s);
                  order := (fresh s, entry) :: order s; fresh := fresh s + 1 |} in
      evict (length (order s)) s
    end.

Definition RecordMany (s : SourceTracker) (ih : bytes) (pubkeys : list bytes) : SourceTracker :=
  foldl (λ s p, Record_ s ih p) s pubkeys.

(** The answer, in the order of the map's iteration, and the tracker after. *)
Definition Sources (s : SourceTracker) (ih : bytes) : SourceTracker * list bytes :=
  if bool_decide (ih = []) then (s, [])
  else match items s !! strings_ToLower ih with
  | None => (s, [])
  | Some elem =>
    let s := with_order s (items s) (MoveToFront elem (order s)) in
    (s, match find_elem elem (order s) with Some e => elements (pubs e) | None => [] end)
  end.

Definition Forget (s : SourceTracker) (ih : bytes) : SourceTracker :=
  if bool_decide (ih = []) then s
  else
    let key := strings_ToLower ih in
    match items s !! key with
    | None => s
    | Some elem => with_order s (delete key (items s)) (Remove elem (order s))
    end.

Definition Len (s : SourceTracker) : Z := len (order s).
End tracker.

(** ** Specification: one list of entries, most recent first *)
Abbreviation lru := (list sourceEntry).

Definition lru_find (key : bytes) (l : lru) : option sourceEntry :=
  head (filter (λ e, infohash e = key) l).
Definition lru_remove (key : bytes) (l : lru) : lru := filter (λ e, infohash e ≠ key) l.

Definition lru_record (cap : nat) (key pubkey : bytes) (l : lru) : lru :=
  match lru_find key l with
  | Some e => {| infohash := key; pubs := {[pubkey]} ∪ pubs e |} :: lru_remove key l
  | None => take cap ({| infohash := key; pubs := {[pubkey]} |} :: l)
  end.
Definition lru_touch (key : bytes) (l : lru) : lru :=
  match lru_find key l with Some e => e :: lru_remove key l | None => l end.
Definition lru_sources (key : bytes) (l : lru) : gset bytes :=
  match lru_find key l with Some e => pubs e | None => ∅ end.

Definition abs (s : SourceTracker) : lru := snd <$> order s.

(** ** Invariant

    The map and the list hold the same elements, under distinct keys, no more
    than the capacity allows, up to an excess of [n] before an eviction. *)
Record wf_upto (n : Z) (s : SourceTracker) : Prop := {
  wf_cap : 0 < capacity s;
  wf_len : len (order s) ≤ capacity s + n;
  wf_ids : NoDup (order s).*1;
  wf_keys : NoDup (infohash <$> (order s).*2);
  wf_items : ∀ key e, items s !! key = Some e ↔ ∃ v, (e, v) ∈ order s ∧ infohash v = key;
  wf_fresh : Forall (λ p, (p.1 < fresh s)%N) (order s)
}.
Abbreviation wf := (wf_upto 0).

Section refinement.
Context `{Unicode}.
Implicit Types (s : SourceTracker) (l : list (N * sourceEntry)).

Lemma key_unique l e v p :
  NoDup l.*1 → NoDup (infohash <$> l.*2) → (e, v) ∈ l → p ∈ l →
  p.1 = e ↔ infohash p.2 = infohash v.
Proof.
  intros H1 H2 He Hp. rewrite <-list_fmap_compose in H2. split; intros Heq.
  - by rewrite (NoDup_fmap_eq fst l p (e, v) H1 Hp He Heq).
  - by rewrite (NoDup_fmap_eq (infohash ∘ snd) l p (e, v) H2 Hp He Heq).
Qed.

Lemma filter_snd l (P : N * sourceEntry → Prop) (Q : sourceEntry → Prop)
    `{∀ x, Decision (P x), ∀ x, Decision (Q x)} :
  (∀ p, p ∈ l → P p ↔ Q p.2) → (filter P l).*2 = filter Q l.*2.
Proof.
  intros HPQ. induction l as [|p l IH]; [done |]. rewrite fmap_cons, !filter_cons.
  pose proof (HPQ p (list_elem_of_here _ _)) as Hp.
  rewrite <-IH by (intros; apply HPQ; by right).
  destruct (decide (P p)), (decide (Q p.2)); [by rewrite fmap_cons | tauto | tauto | done].
Qed.

(** An element of the list, seen from either side. *)
Lemma elem_view l e v :
  NoDup l.*1 → NoDup (infohash <$> l.*2) → (e, v) ∈ l →
  find_elem e l = Some v ∧ lru_find (infohash v) l.*2 = Some v ∧
  (Remove e l).*2 = lru_remove (infohash v) l.*2.
Proof.
  intros H1 H2 He.
  assert (Hu : ∀ p, p ∈ l → p.1 = e ↔ infohash p.2 = infohash v) by (intros; by eapply key_unique).
  assert (Hf : find_elem e l = Some v).
  { unfold find_elem. destruct (filter (λ p, p.1 = e) l) as [|[e' v'] k] eqn:E.
    - assert (Hin : (e, v) ∈ filter (λ p, p.1 = e) l) by (by apply list_elem_of_filter).
      rewrite E in Hin. by apply not_elem_of_nil in Hin.
    - assert (Hin : (e', v') ∈ filter (λ p, p.1 = e) l) by (rewrite E; by left).
      apply list_elem_of_filter in Hin as [Heq Hin]. simpl in *. subst.
      by injection (NoDup_fmap_eq fst l (e, v') (e, v) H1 Hin He eq_refl) as ->. }
  split_and!; [done | |].
  - unfold lru_find. rewrite <-(filter_snd l (λ p, p.1 = e) (λ w, infohash w = infohash v)) by done.
    unfold find_elem in Hf. destruct (filter _ l); [done |]. exact Hf.
  - unfold Remove, lru_remove. apply filter_snd. intros p Hp. by rewrite (Hu p Hp).
Qed.

Lemma lookup_view s key e :
  wf s → items s !! key = Some e →
  ∃ v, (e, v) ∈ order s ∧ infohash v = key ∧ find_elem e (order s) = Some v ∧
       lru_find key (abs s) = Some v ∧ (Remove e (order s)).*2 = lru_remove key (abs s).
Proof.
  intros Hwf Hk. apply (wf_items _ s Hwf) in Hk as (v & He & <-). exists v.
  destruct (elem_view (order s) e v) as (? & ? & ?); [apply Hwf | apply Hwf | done |].
  by split_and!.
Qed.

Lemma lookup_none s key : wf s → items s !! key = None → lru_find key (abs s) = None.
Proof.
  intros Hwf Hk. unfold lru_find, abs. rewrite filter_none; [done |]. apply list.Forall_forall. intros v Hv Heq.
  apply list_elem_of_fmap in Hv as ([e v'] & -> & He).
  assert (items s !! key = Some e); [|congruence]. apply (wf_items _ s Hwf). by exists v'.
Qed.

(** ** Each operation refines the list

    [kept l]: a list as the invariant wants it. *)
Lemma move_front_wf s e v v' key :
  wf s → (e, v) ∈ order s → infohash v = key → infohash v' = key →
  wf (with_order s (items s) ((e, v') :: Remove e (order s))).
Proof.
  intros Hwf He Hk Hk'. destruct (wf_items _ s Hwf key e) as [_ Hi]. specialize (Hi (ex_intro _ v (conj He Hk))).
  destruct (elem_view (order s) e v (wf_ids _ s Hwf) (wf_keys _ s Hwf) He) as (_ & _ & Hr).
  assert (Hin : ∀ p, p ∈ Remove e (order s) ↔ p ∈ order s ∧ p.1 ≠ e).
  { intros p. unfold Remove. rewrite list_elem_of_filter. tauto. }
  assert (Hsub : (length (Remove e (order s)) < length (order s))%nat).
  { unfold Remove. apply (length_filter_lt _ _ (e, v)); [done |]. simpl. tauto. }
  split; cbn [order items capacity fresh with_order]; rewrite ?fmap_cons; cbn [fst snd].
  - apply Hwf.
  - pose proof (wf_len _ s Hwf) as Hl. rewrite len_cons. unfold len in *. lia.
  - constructor.
    + intros Hx. apply list_elem_of_fmap in Hx as (p & -> & Hp). by apply Hin in Hp as [_ ?].
    + eapply sublist_NoDup; [apply (wf_ids _ s Hwf) |]. apply fmap_sublist, sublist_filter.
  - rewrite Hr. constructor.
    + intros Hx. apply list_elem_of_fmap in Hx as (w & Hw & Hp).
      apply list_elem_of_filter in Hp as [Hne _]. apply Hne. congruence.
    + eapply sublist_NoDup; [apply (wf_keys _ s Hwf) |]. apply fmap_sublist, sublist_filter.
  - intros key' e'. rewrite (wf_items _ s Hwf). setoid_rewrite elem_of_cons. setoid_rewrite Hin.
    destruct (decide (e' = e)) as [->|Hne].
    + split.
      * intros (w & Hw & Hkw). exists v'. split; [by left |].
        pose proof (NoDup_fmap_eq fst (order s) _ _ (wf_ids _ s Hwf) Hw He eq_refl) as [= ->]. congruence.
      * intros (w & [[= ->]|[_ Hf]] & Hkw); [|by simpl in Hf]. exists v. split; [done | congruence].
    + split.
      * intros (w & Hw & Hkw). exists w. split; [by right | done].
      * intros (w & [[= ]|[Hw _]] & Hkw); [done |]. by exists w.
  - constructor; simpl.
    + pose proof (wf_fresh _ s Hwf) as Hf. rewrite list.Forall_forall in Hf. apply (Hf (e, v) He).
    + apply list.Forall_forall. intros p Hp. apply Hin in Hp as [Hp _].
      pose proof (wf_fresh _ s Hwf) as Hf. rewrite list.Forall_forall in Hf. by apply Hf.
Qed.

Lemma remove_wf n s e v :
  wf_upto n s → (e, v) ∈ order s →
  wf_upto (n - 1) (with_order s (delete (infohash v) (items s)) (Remove e (order s))).
Proof.
  intros Hwf He.
  destruct (elem_view (order s) e v (wf_ids _ s Hwf) (wf_keys _ s Hwf) He) as (_ & _ & Hr).
  assert (Hin : ∀ p, p ∈ Remove e (order s) ↔ p ∈ order s ∧ p.1 ≠ e).
  { intros p. unfold Remove. rewrite list_elem_of_filter. tauto. }
  assert (Hsub : (length (Remove e (order s)) < length (order s))%nat).
  { unfold Remove. apply (length_filter_lt _ _ (e, v)); [done |]. simpl. tauto. }
  split; cbn [order items capacity fresh with_order].
  - apply Hwf.
  - pose proof (wf_len _ s Hwf) as Hl. unfold len in *. lia.
  - eapply sublist_NoDup; [apply (wf_ids _ s Hwf) |]. apply fmap_sublist, sublist_filter.
  - rewrite Hr. eapply sublist_NoDup; [apply (wf_keys _ s Hwf) |]. apply fmap_sublist, sublist_filter.
  - intros key e'. rewrite lookup_delete_Some, (wf_items _ s Hwf). setoid_rewrite Hin. split.
    + intros (Hne & w & Hw & Hk). exists w. split_and!; try done. simpl. intros ->.
      pose proof (NoDup_fmap_eq fst (order s) _ _ (wf_ids _ s Hwf) Hw He eq_refl) as [= ->]. done.
    + intros (w & [Hw Hne] & Hk). split; [|by exists w]. intros Heq. apply Hne.
      apply (key_unique (order s) e v (e', w) (wf_ids _ s Hwf) (wf_keys _ s Hwf) He Hw).
      simpl. congruence.
  - apply list.Forall_forall. intros p Hp. apply Hin in Hp as [Hp _].
    pose proof (wf_fresh _ s Hwf) as Hf. rewrite list.Forall_forall in Hf. by apply Hf.
Qed.

Lemma wf_weaken n n' s : n ≤ n' → wf_upto n s → wf_upto n' s.
Proof. intros Hn [? ? ? ? ? ?]. split; try done. lia. Qed.

Lemma set_value_move e v v' l :
  NoDup l.*1 → (e, v) ∈ l → MoveToFront e (set_value e v' l) = (e, v') :: Remove e l.
Proof.
  intros Hn He.
  assert (Hids : (set_value e v' l).*1 = l.*1).
  { unfold set_value. rewrite <-list_fmap_compose. apply list_fmap_ext. intros _ [e' w] _. simpl.
    by case_bool_decide. }
  assert (Hin : (e, v') ∈ set_value e v' l).
  { unfold set_value. apply list_elem_of_fmap. exists (e, v). split; [|done]. simpl.
    by rewrite bool_decide_true. }
  assert (Hf : find_elem e (set_value e v' l) = Some v').
  { unfold find_elem. destruct (filter (λ p, p.1 = e) (set_value e v' l)) as [|[e' w] k] eqn:E.
    - assert (Hx : (e, v') ∈ filter (λ p, p.1 = e) (set_value e v' l)) by (by apply list_elem_of_filter).
      rewrite E in Hx. by apply not_elem_of_nil in Hx.
    - assert (Hx : (e', w) ∈ filter (λ p, p.1 = e) (set_value e v' l)) by (rewrite E; by left).
      apply list_elem_of_filter in Hx as [Heq Hx]. simpl in *. subst e'.
      rewrite <-Hids in Hn.
      by injection (NoDup_fmap_eq fst _ (e, w) (e, v') Hn Hx Hin eq_refl) as ->. }
  unfold MoveToFront. rewrite Hf. f_equal. unfold Remove, set_value.
  clear. induction l as [|[e' w] l IH]; [done |]. rewrite fmap_cons, !filter_cons, IH. simpl.
  case_bool_decide; simpl; [|done]. subst. by rewrite !decide_False by tauto.
Qed.

(** One round of eviction. *)
Lemma evict_one s o e w :
  wf_upto 1 s → order s = o ++ [(e, w)] →
  evict (length (order s)) s = if capacity s <? len (order s)
                 then with_order s (delete (infohash w) (items s)) o else s.
Proof.
  intros Hwf Ho. pose proof (wf_cap _ s Hwf) as Hcap.
  assert (Hlen : (1 ≤ length (order s))%nat) by (rewrite Ho, length_app; simpl; lia).
  assert (H2 : capacity s < len (order s) → (2 ≤ length (order s))%nat) by (unfold len; lia).
  revert Hlen H2. generalize (length (order s)) as fuel. intros [|fuel] Hlen H2; [lia |].
  cbn [evict]. destruct (Z.ltb_spec (capacity s) (len (order s))) as [Hlt|]; [|done]. simpl negb. cbv iota.
  specialize (H2 Hlt). destruct fuel as [|fuel]; [lia |].
  rewrite Ho at 1. rewrite last_snoc.
  assert (Hr : Remove e (order s) = o).
  { unfold Remove. rewrite Ho, filter_app, filter_cons_False by tauto. rewrite filter_nil, app_nil_r.
    apply filter_all. apply list.Forall_forall. intros p Hp.
    pose proof (wf_ids _ s Hwf) as Hn. rewrite Ho, fmap_app in Hn.
    apply NoDup_app in Hn as (_ & Hd & _). intros He. apply (Hd p.1).
    - by apply list_elem_of_fmap_2.
    - rewrite He. by left. }
  rewrite Hr. cbn [evict with_order order capacity].
  pose proof (wf_len _ s Hwf) as Hl. rewrite Ho, len_app in Hl. change (len [_]) with 1 in Hl.
  destruct (Z.ltb_spec (capacity s) (len o)); [lia | done].
Qed.

Lemma push_wf s key pk :
  wf s → items s !! key = None →
  wf_upto 1 {| capacity := capacity s; items := <[key := fresh s]> (items s);
               order := (fresh s, {| infohash := key; pubs := {[pk]} |}) :: order s;
               fresh := fresh s + 1 |}.
Proof.
  intros Hwf Hk. pose proof (wf_fresh _ s Hwf) as Hf. rewrite list.Forall_forall in Hf.
  split; cbn [order items capacity fresh]; rewrite ?fmap_cons; cbn [fst snd infohash].
  - apply Hwf.
  - pose proof (wf_len _ s Hwf). rewrite len_cons. lia.
  - constructor; [|apply Hwf]. intros Hx. apply list_elem_of_fmap in Hx as (p & Hp & Hin).
    specialize (Hf p Hin). simpl in Hf. lia.
  - constructor; [|apply Hwf]. intros Hx. apply list_elem_of_fmap in Hx as (w & Hw & Hin).
    apply list_elem_of_fmap in Hin as ([e w'] & -> & Hin). simpl in Hw.
    assert (items s !! key = Some e); [|congruence]. apply (wf_items _ s Hwf). by exists w'.
  - intros key' e. setoid_rewrite elem_of_cons.
    rewrite lookup_insert_Some, (wf_items _ s Hwf). split.
    + intros [[<- <-]|[Hne (w & Hw & Hkw)]]; [eexists; split; [by left | done] |].
      exists w. split; [by right | done].
    + intros (w & [[= -> ->]|Hw] & Hkw); [by left |]. right. split; [|by exists w].
      intros <-. assert (items s !! key = Some e); [|congruence]. apply (wf_items _ s Hwf). by exists w.
  - constructor; [simpl; lia |]. apply list.Forall_forall. intros p Hp. specialize (Hf p Hp). lia.
Qed.

Lemma Record_refines s ih pk :
  wf s → ih ≠ [] → pk ≠ [] →
  let s' := Record_ s ih pk in
  wf s' ∧ capacity s' = capacity s ∧
  abs s' = lru_record (Z.to_nat (capacity s)) (strings_ToLower ih) pk (abs s).
Proof.
  intros Hwf Hih Hpk. unfold Record_. rewrite !bool_decide_false by done. simpl orb. cbv iota zeta.
  set (key := strings_ToLower ih). unfold lru_record.
  destruct (items s !! key) as [e|] eqn:E.
  - destruct (lookup_view s key e Hwf E) as (v & He & Hk & -> & Hl & Hr). rewrite Hl.
    rewrite (set_value_move e v) by (done || apply Hwf). rewrite Hk.
    split_and!; [| done |].
    + by apply (move_front_wf s e v _ key).
    + unfold abs. cbn [order with_order]. rewrite fmap_cons, Hr. done.
  - rewrite (lookup_none s key Hwf E). pose proof (push_wf s key pk Hwf E) as Hw.
    set (s1 := Build_SourceTracker _ _ _ _) in *.
    destruct (exists_last (l := order s1)) as (o & [e w] & Ho); [done |].
    change (length (_ :: order s)) with (length (order s1)). rewrite (evict_one s1 o e w Hw Ho).
    pose proof (wf_len _ s Hwf) as Hl. pose proof (wf_cap _ s Hwf) as Hc.
    change (_ :: abs s) with (abs s1).
    assert (Hls : len (order s1) = 1 + len (order s)) by apply len_cons.
    destruct (Z.ltb_spec (capacity s1) (len (order s1))) as [Hlt|Hge].
    + assert (Hin : (e, w) ∈ order s1) by (rewrite Ho; set_solver).
      pose proof (remove_wf 1 s1 e w Hw Hin) as Hw'.
      assert (Hr : Remove e (order s1) = o).
      { unfold Remove. rewrite Ho, filter_app, filter_cons_False by tauto.
        rewrite filter_nil, app_nil_r. apply filter_all. apply list.Forall_forall. intros p Hp.
        pose proof (wf_ids _ s1 Hw) as Hn. rewrite Ho, fmap_app in Hn.
        apply NoDup_app in Hn as (_ & Hd & _). intros Hpe. apply (Hd p.1).
        - by apply list_elem_of_fmap_2.
        - rewrite Hpe. by left. }
      rewrite Hr in Hw'. split_and!; [exact Hw' | done |].
      unfold abs. cbn [order with_order]. rewrite Ho, fmap_app, take_app_exact; [done |].
      rewrite length_fmap. rewrite Ho, len_app in Hls. change (len [_]) with 1 in Hls.
      rewrite Ho, len_app in Hlt. change (len [_]) with 1 in Hlt. change (capacity s1) with (capacity s) in Hlt.
      unfold len in *. lia.
    + split_and!; [| done |].
      * destruct Hw as [? ? ? ? ? ?]. split; try done. lia.
      * rewrite take_ge; [done |]. unfold abs. rewrite length_fmap.
        change (capacity s1) with (capacity s) in Hge. unfold len in *. lia.
Qed.

Lemma Sources_refines s ih :
  wf s → ih ≠ [] →
  let '(s', out) := Sources s ih in
  wf s' ∧ capacity s' = capacity s ∧ abs s' = lru_touch (strings_ToLower ih) (abs s) ∧
  NoDup out ∧ ∀ pk, pk ∈ out ↔ pk ∈ lru_sources (strings_ToLower ih) (abs s).
Proof.
  intros Hwf Hih. unfold Sources. rewrite bool_decide_false by done.
  set (key := strings_ToLower ih). unfold lru_touch, lru_sources.
  destruct (items s !! key) as [e|] eqn:E.
  - destruct (lookup_view s key e Hwf E) as (v & He & Hk & Hf & Hl & Hr). rewrite Hl.
    assert (Hm : MoveToFront e (order s) = (e, v) :: Remove e (order s))
      by (unfold MoveToFront; by rewrite Hf).
    cbn [order with_order]. rewrite Hm.
    replace (find_elem e ((e, v) :: _)) with (Some v)
      by (unfold find_elem; by rewrite filter_cons_True).
    split_and!; [by apply (move_front_wf s e v v key) | done | | apply NoDup_elements |].
    + unfold abs. cbn [order with_order]. by rewrite fmap_cons, Hr.
    + intros pk. apply elem_of_elements.
  - rewrite (lookup_none s key Hwf E). split_and!; [done | done | done | constructor |].
    intros pk. by rewrite elem_of_nil, elem_of_empty.
Qed.

Lemma Forget_refines s ih :
  wf s → ih ≠ [] →
  wf (Forget s ih) ∧ capacity (Forget s ih) = capacity s ∧
  abs (Forget s ih) = lru_remove (strings_ToLower ih) (abs s).
Proof.
  intros Hwf Hih. unfold Forget. rewrite bool_decide_false by done.
  set (key := strings_ToLower ih). destruct (items s !! key) as [e|] eqn:E.
  - destruct (lookup_view s key e Hwf E) as (v & He & Hk & Hf & Hl & Hr). rewrite <-Hk.
    split_and!; [| done |].
    + eapply wf_weaken; [|apply remove_wf; [exact Hwf | exact He]]. lia.
    + unfold abs. cbn [order with_order]. rewrite Hk. exact Hr.
  - split_and!; [done | done |]. unfold lru_remove. rewrite filter_all; [done |].
    apply list.Forall_forall. intros v Hv Hk.
    apply list_elem_of_fmap in Hv as ([e v'] & -> & He).
    assert (items s !! key = Some e); [|congruence]. apply (wf_items _ s Hwf). by exists v'.
Qed.

(** ** Histories *)
Inductive op : Type :=
  | ORecord (ih pubkey : bytes)
  | OSources (ih : bytes)
  | OForget (ih : bytes).

Definition run (s : SourceTracker) (o : op) : SourceTracker :=
  match o with
  | ORecord ih pk => Record_ s ih pk
  | OSources ih => fst (Sources s ih)
  | OForget ih => Forget s ih
  end.

(** What the operation does to the specification; empty arguments are
    ignored. *)
Definition spec (cap : nat) (l : lru) (o : op) : lru :=
  match o with
  | ORecord ih pk =>
    if bool_decide (ih = []) || bool_decide (pk = []) then l
    else lru_record cap (strings_ToLower ih) pk l
  | OSources ih => if bool_decide (ih = []) then l else lru_touch (strings_ToLower ih) l
  | OForget ih => if bool_decide (ih = []) then l else lru_remove (strings_ToLower ih) l
  end.

Lemma run_refines s o :
  wf s → wf (run s o) ∧ capacity (run s o) = capacity s ∧
         abs (run s o) = spec (Z.to_nat (capacity s)) (abs s) o.
Proof.
  intros Hwf. destruct o as [ih pk|ih|ih]; simpl.
  - destruct (decide (ih = [])) as [->|Hih]; [by rewrite bool_decide_true by done |].
    destruct (decide (pk = [])) as [->|Hpk].
    + unfold Record_. rewrite (bool_decide_true (@nil byte = [])), orb_true_r by done. done.
    + destruct (Record_refines s ih pk Hwf Hih Hpk) as (? & ? & ?).
      by rewrite !bool_decide_false by done.
  - destruct (decide (ih = [])) as [->|Hih]; [by rewrite bool_decide_true by done |].
    pose proof (Sources_refines s ih Hwf Hih) as Hs. destruct (Sources s ih) as [s' out].
    destruct Hs as (? & ? & ? & _). by rewrite bool_decide_false by done.
  - destruct (decide (ih = [])) as [->|Hih]; [by rewrite bool_decide_true by done |].
    destruct (Forget_refines s ih Hwf Hih) as (? & ? & ?). by rewrite bool_decide_false by done.
Qed.

Lemma NewSourceTracker_wf cap : wf (NewSourceTracker cap).
Proof.
  unfold NewSourceTracker. split; simpl; try constructor.
  - destruct (Z.leb_spec cap 0); [done | lia].
  - rewrite len_nil. destruct (Z.leb_spec cap 0); [done | lia].
  - intros. by rewrite lookup_empty in *.
  - by intros (v & Hv%not_elem_of_nil & _).
Qed.

Lemma run_all ops s :
  wf s → wf (foldl run s ops) ∧ capacity (foldl run s ops) = capacity s ∧
         abs (foldl run s ops) = foldl (spec (Z.to_nat (capacity s))) (abs s) ops.
Proof.
  revert s. induction ops as [|o ops IH]; intros s Hwf; [done |]. simpl.
  destruct (run_refines s o Hwf) as (Hw & Hc & Ha).
  destruct (IH (run s o) Hw) as (Hw' & Hc' & Ha'). by rewrite Hc', Ha', Hc, Ha.
Qed.

(** [C10] After any sequence of operations the tracker is the least-recently-used
    cache of the specification: its entries, most recent first, are those of the
    list, it never holds more than its capacity, its map and its linked list
    agree, and a query returns, without duplicates, the indexers of the entry. *)
Theorem source_tracker_lru (cap : Z) (ops : list op) :
  let s := foldl run (NewSourceTracker cap) ops in
  let l := foldl (spec (Z.to_nat (capacity (NewSourceTracker cap)))) [] ops in
  wf s ∧ 0 ≤ Len s ≤ capacity (NewSourceTracker cap) ∧ abs s = l ∧
  (∀ ih, ih ≠ [] → NoDup (snd (Sources s ih)) ∧
     ∀ pk, pk ∈ snd (Sources s ih) ↔ pk ∈ lru_sources (strings_ToLower ih) l).
Proof.
  intros s l. destruct (run_all ops (NewSourceTracker cap) (NewSourceTracker_wf cap))
    as (Hw & Hc & Ha). fold s in Hw, Hc, Ha. change (abs s = l) in Ha.
  split_and!; [exact Hw | apply len_nonneg | | exact Ha |].
  - rewrite <-Hc. pose proof (wf_len _ s Hw). unfold Len. lia.
  - intros ih Hih. pose proof (Sources_refines s ih Hw Hih) as Hs. rewrite <-Ha.
    destruct (Sources s ih) as [s' out]. by destruct Hs as (_ & _ & _ & ? & ?).
Qed.
End refinement.

Lemma source_tracker_lru_witness :
  let s := foldl run (NewSourceTracker 2)
    [ORecord (str "AA") (str "p"); ORecord (str "bb") (str "q"); OSources (str "aa");
     ORecord (str "cc") (str "r"); ORecord (str "aA") (str "t")] in
  infohash <$> abs s = [str "aa"; str "cc"] ∧ snd (Sources s (str "bb")) = [] ∧
  0 ≤ Len s ≤ 2.
Proof.
  intros s. split_and!; [reflexivity | reflexivity | |];
    destruct (source_tracker_lru 2
      [ORecord (str "AA") (str "p"); ORecord (str "bb") (str "q"); OSources (str "aa");
       ORecord (str "cc") (str "r"); ORecord (str "aA") (str "t")]) as (_ & [H0 H1] & _ & _).
  - exact H0.
  - exact H1.
Defined.
End Sources.
