(* ===== verification/Hex.v ===== *)
(** * Hexadecimal strings (encoding/hex)

    [hex.EncodeToString] writes lower-case digits; [hex.DecodeString] reads both
    cases and fails on an odd length or another character. *)

From S2P Require Import Prelude GoInt.
Open Scope Z_scope.

Module Hex.

Definition digit (d : Z) : byte := if d <? 10 then z2b (48 + d) else z2b (87 + d).

Definition value (c : byte) : option Z :=
  let z := b2z c in
  if (48 <=? z) && (z <=? 57) then Some (z - 48)
  else if (97 <=? z) && (z <=? 102) then Some (z - 87)
  else if (65 <=? z) && (z <=? 70) then Some (z - 55)
  else None.

Definition EncodeToString (s : bytes) : bytes :=
  s ≫= λ b, [digit (b2z b / 16); digit (b2z b mod 16)].

Fixpoint DecodeString (s : bytes) : option bytes :=
  match s with
  | [] => Some []
  | a :: b :: s => x ← value a; y ← value b; t ← DecodeString s; Some (z2b (x * 16 + y) :: t)
  | [_] => None
  end.

(** ASCII lower case of one character. *)
Definition lower (c : byte) : byte :=
  if (65 <=? b2z c) && (b2z c <=? 90) then z2b (b2z c + 32) else c.

Lemma forall_byte (P : byte → bool) : forallb P (z2b <$> seqZ 0 256) = true → ∀ b, P b = true.
Proof.
  rewrite forallb_forall. intros HP b. apply HP, list_elem_of_In, list_elem_of_fmap.
  exists (b2z b). rewrite z2b_b2z, elem_of_seqZ. pose proof (b2z_range b). split; [done | lia].
Qed.

Lemma decode_digits b :
  value (digit (b2z b / 16)) = Some (b2z b / 16) ∧ value (digit (b2z b mod 16)) = Some (b2z b mod 16).
Proof.
  assert (H : bool_decide (value (digit (b2z b / 16)) = Some (b2z b / 16)) &&
              bool_decide (value (digit (b2z b mod 16)) = Some (b2z b mod 16)) = true).
  { revert b. apply forall_byte. by vm_compute. }
  by apply andb_true_iff in H as [?%bool_decide_eq_true ?%bool_decide_eq_true].
Qed.

Lemma decode_encode s : DecodeString (EncodeToString s) = Some s.
Proof.
  induction s as [|b s IH]; [done |].
  change (EncodeToString (b :: s))
    with (digit (b2z b / 16) :: digit (b2z b mod 16) :: EncodeToString s).
  destruct (decode_digits b) as [H1 H2]. cbn [DecodeString]. rewrite H1, H2, IH. simpl.
  do 2 f_equal. rewrite <-(z2b_b2z b) at 3. f_equal. pose proof (Z.div_mod (b2z b) 16). lia.
Qed.

Lemma length_encode s : length (EncodeToString s) = (2 * length s)%nat.
Proof.
  induction s as [|b s IH]; [done |].
  change (EncodeToString (b :: s))
    with (digit (b2z b / 16) :: digit (b2z b mod 16) :: EncodeToString s).
  simpl. rewrite IH. lia.
Qed.

Lemma pair_ind (P : bytes → Prop) :
  P [] → (∀ a, P [a]) → (∀ a b s, P s → P (a :: b :: s)) → ∀ s, P s.
Proof.
  intros H0 H1 H2. assert (H : ∀ s, P s ∧ ∀ a, P (a :: s)).
  { induction s as [|b s [IH IH']]; [by split |]. split; [done |]. intros a. by apply H2. }
  intros s. apply H.
Qed.

Lemma value_digit c x : value c = Some x → 0 ≤ x < 16 ∧ digit x = lower c.
Proof.
  assert (H : match value c with
              | Some x => (0 <=? x) && (x <? 16) && bool_decide (digit x = lower c)
              | None => true end = true).
  { revert c. apply forall_byte. by vm_compute. }
  intros E. rewrite E in H. apply andb_true_iff in H as [H Hd%bool_decide_eq_true].
  apply andb_true_iff in H as [H1%Z.leb_le H2%Z.ltb_lt]. done.
Qed.

(** Decoding and encoding again is lower-casing: the canonical form. *)
Lemma encode_decode s t : DecodeString s = Some t → EncodeToString t = lower <$> s.
Proof.
  revert t. induction s as [|a|a b s IH] using pair_ind; intros t Ht; simpl in Ht.
  - by injection Ht as <-.
  - done.
  - destruct (value a) as [x|] eqn:Ea; [|done]. destruct (value b) as [y|] eqn:Eb; [|done].
    simpl in Ht. destruct (DecodeString s) as [u|]; [|done]. simpl in Ht. injection Ht as <-.
    apply value_digit in Ea as [Hx Hdx]. apply value_digit in Eb as [Hy Hdy].
    rewrite !fmap_cons, <-(IH u eq_refl), <-Hdx, <-Hdy.
    change (EncodeToString (?w :: u)) with (digit (b2z w / 16) :: digit (b2z w mod 16) :: EncodeToString u).
    rewrite b2z_z2b_small by lia.
    by rewrite Z.div_add_l, Z.div_small, Z.add_0_r, Z.add_comm, Z_mod_plus_full, Z.mod_small by lia.
Qed.

Lemma length_decode s t : DecodeString s = Some t → length s = (2 * length t)%nat.
Proof.
  intros Ht. apply encode_decode in Ht. apply (f_equal length) in Ht.
  by rewrite length_encode, length_fmap in Ht.
Qed.
End Hex.
