(* ===== verification/Reputation.v ===== *)
(** * The reputation table (internal/reputation/reputation.go)

    Per-indexer counters and the score derived from them.  The clock is an
    argument, read once per operation. *)

From Stdlib Require Import SpecFloat.
From S2P Require Import Prelude GoInt Utf8 GoFloat Hex Files.
Open Scope Z_scope.

Module Reputation.
Import GoFloat.

(** [PubKey]: the canonical lower-case form of a key. *)
Definition PubKey (pk : array 32) : bytes := Hex.EncodeToString (sl pk).

Record Counters := {
  HitsReturned : Z; HitsConfirmed : Z; HitsFlagged : Z;
  FirstSeen : Z; LastUpdated : Z; SeededAt : Z; SeedLabel : bytes
}.

Definition defaultUnknownScore : float64 := of_ratio 1 2.
Definition smoothingPriorWeight : float64 := of_int 5.
Definition SeedBonus : float64 := of_ratio 45 100.
Definition SeedHalfLife : Z := 90 * 24 * Hour.

(** The table; its file path does not take part in the operations below. *)
Abbreviation Tracker := (gmap bytes Counters).
Definition NewTracker : Tracker := ∅.

Definition fresh_counters (now : Z) : Counters := {|
  HitsReturned := 0; HitsConfirmed := 0; HitsFlagged := 0; FirstSeen := now; LastUpdated := now;
  SeededAt := 0; SeedLabel := []
|}.

(** [touch] with an update of the record it returns. *)
Definition touch (now : Z) (pk : bytes) (f : Counters → Counters) (t : Tracker) : Tracker :=
  <[pk := f (default (fresh_counters now) (t !! pk))]> t.

Definition add_returned (now n : Z) (r : Counters) : Counters := {|
  HitsReturned := i64 (HitsReturned r + n); HitsConfirmed := HitsConfirmed r;
  HitsFlagged := HitsFlagged r; FirstSeen := FirstSeen r; LastUpdated := now;
  SeededAt := SeededAt r; SeedLabel := SeedLabel r
|}.
Definition add_confirmed (now : Z) (r : Counters) : Counters := {|
  HitsReturned := HitsReturned r; HitsConfirmed := i64 (HitsConfirmed r + 1);
  HitsFlagged := HitsFlagged r; FirstSeen := FirstSeen r; LastUpdated := now;
  SeededAt := SeededAt r; SeedLabel := SeedLabel r
|}.
Definition add_flagged (now : Z) (r : Counters) : Counters := {|
  HitsReturned := HitsReturned r; HitsConfirmed := HitsConfirmed r;
  HitsFlagged := i64 (HitsFlagged r + 1); FirstSeen := FirstSeen r; LastUpdated := now;
  SeededAt := SeededAt r; SeedLabel := SeedLabel r
|}.
Definition set_seed (now : Z) (label : bytes) (r : Counters) : Counters := {|
  HitsReturned := HitsReturned r; HitsConfirmed := HitsConfirmed r;
  HitsFlagged := HitsFlagged r; FirstSeen := FirstSeen r; LastUpdated := LastUpdated r;
  SeededAt := now; SeedLabel := label
|}.

Definition RecordReturned (now : Z) (pk : bytes) (n : Z) (t : Tracker) : Tracker :=
  if n <=? 0 then t else touch now pk (add_returned now n) t.

Definition RecordConfirmed (now : Z) (pks : list bytes) (t : Tracker) : Tracker :=
  if len pks =? 0 then t else foldl (λ t pk, touch now pk (add_confirmed now) t) t pks.

Definition RecordFlagged (now : Z) (pks : list bytes) (t : Tracker) : Tracker :=
  if len pks =? 0 then t else foldl (λ t pk, touch now pk (add_flagged now) t) t pks.

Definition MarkSeeded (now : Z) (pk label : bytes) (t : Tracker) : Tracker :=
  touch now pk (set_seed now label) t.

Definition IsSeeded (pk : bytes) (t : Tracker) : bool :=
  match t !! pk with Some r => negb (SeededAt r =? 0) | None => false end.

Fixpoint AnySeeded (pks : list bytes) (t : Tracker) : bool :=
  match pks with [] => false | pk :: pks => if IsSeeded pk t then true else AnySeeded pks t end.

(** ** Scores *)

(** [time.Since]. *)
Definition Since (now t : Z) : Z := time_sub now t.

Section scores.
Context `{Math}.

Definition organic (r : Counters) : float64 :=
  if (HitsReturned r =? 0) && (HitsConfirmed r =? 0) && (HitsFlagged r =? 0)
  then defaultUnknownScore
  else
    let returned := of_int (HitsReturned r) in
    let returned := if flt returned (of_int 1) then of_int 1 else returned in
    let good := fsub (of_int (HitsConfirmed r)) (of_int (HitsFlagged r)) in
    let good := if flt good (of_int 0) then of_int 0 else good in
    let rawScore := fdiv good returned in
    fdiv (fadd (fmul rawScore returned) (fmul defaultUnknownScore smoothingPriorWeight))
         (fadd returned smoothingPriorWeight).

Definition scoreOf (now : Z) (r : Counters) : float64 :=
  let organic := organic r in
  let organic :=
    if negb (SeededAt r =? 0) then
      let age := Since now (SeededAt r) in
      let age := if age <? 0 then 0 else age in
      let decay := Pow (of_ratio 1 2) (fdiv (of_int age) (of_int SeedHalfLife)) in
      fadd organic (fmul SeedBonus decay)
    else organic in
  let organic := if flt organic (of_int 0) then of_int 0 else organic in
  if flt (of_int 1) organic then of_int 1 else organic.

Definition Score (now : Z) (pk : bytes) (t : Tracker) : float64 :=
  match t !! pk with Some r => scoreOf now r | None => defaultUnknownScore end.

Definition Threshold (now : Z) (pk : bytes) (cutoff : float64) (t : Tracker) : bool :=
  if fle cutoff (of_int 0) || is_nan cutoff then true else fle cutoff (Score now pk t).

(** ** Snapshot: score descending, then key *)
Record SnapshotEntry := { se_PubKey : bytes; se_Counters : Counters; se_Score : float64 }.

Definition snapshot_before (a b : SnapshotEntry) : bool :=
  if negb (feq (se_Score a) (se_Score b)) then flt (se_Score b) (se_Score a)
  else match bytes_compare (se_PubKey a) (se_PubKey b) with Lt => true | _ => false end.

Definition snapshot_le (a b : SnapshotEntry) : Prop := snapshot_before b a = false.
#[export] Instance snapshot_le_dec a b : Decision (snapshot_le a b).
Proof. unfold snapshot_le. apply _. Defined.

Definition Snapshot (now : Z) (t : Tracker) : list SnapshotEntry :=
  merge_sort snapshot_le
    ((λ '(pk, r), {| se_PubKey := pk; se_Counters := r; se_Score := scoreOf now r |})
       <$> map_to_list t).
End scores.

(** ** Seed lists *)
Record SeedListEntry := { sl_PubKey : bytes; sl_Label : bytes }.
Record SeedList := { Version : Z; Seeds : list SeedListEntry }.

(** What [os.ReadFile] and [json.Unmarshal] make of the file. *)
Inductive seed_file : Type := NoFile | Unreadable | Malformed | Parsed (l : SeedList).

Inductive seed_error : Type :=
  | ErrRead | ErrParse | ErrVersion (v : Z) | ErrEntry (i : nat) (pk : bytes).

(** The import loop; [i] is the index of the entry. *)
Fixpoint import_seeds (now : Z) (i : nat) (l : list SeedListEntry) (t : Tracker)
    : Tracker * (Z * list seed_error) :=
  match l with
  | [] => (t, (0, []))
  | e :: l =>
    match Hex.DecodeString (sl_PubKey e) with
    | Some raw =>
      if len raw =? 32 then
        let '(t, (n, errs)) :=
          import_seeds now (S i) l (MarkSeeded now (PubKey (copy_arr 32 raw)) (sl_Label e) t) in
        (t, (n + 1, errs))
      else
        let '(t, (n, errs)) := import_seeds now (S i) l t in
        (t, (n, ErrEntry i (sl_PubKey e) :: errs))
    | None =>
      let '(t, (n, errs)) := import_seeds now (S i) l t in
      (t, (n, ErrEntry i (sl_PubKey e) :: errs))
    end
  end.

Definition LoadSeedList (now : Z) (path : bytes) (file : seed_file) (t : Tracker)
    : Tracker * (Z * list seed_error) :=
  if bool_decide (path = []) then (t, (0, []))
  else match file with
  | NoFile => (t, (0, []))
  | Unreadable => (t, (0, [ErrRead]))
  | Malformed => (t, (0, [ErrParse]))
  | Parsed list =>
    if negb (Version list =? 1) then (t, (0, [ErrVersion (Version list)]))
    else import_seeds now 0 (Seeds list) t
  end.

(** ** Persistence

    The table and its path; the JSON codec is a parameter. *)
Class TrackerJson := {
  json_encode : Tracker → bytes;
  json_decode : bytes → option Tracker
}.
Class TrackerJsonLaws `{TrackerJson} : Prop :=
  json_decode_encode t : json_decode (json_encode t) = Some t.

Inductive error : Type :=
  | ErrEmptyPath | ErrMkdir | ErrReadTracker | ErrParseTracker | ErrSave (e : Files.error).

Record StoredTracker := { path : bytes; Records : Tracker }.

Definition Save `{TrackerJson} (o : Files.outcome) (tmp : bytes) (t : StoredTracker)
    (f : gmap bytes bytes) : gmap bytes bytes * result error unit :=
  if bool_decide (path t = []) then (f, Ok tt)
  else
    let raw := json_encode (Records t) in
    let '(f, r) := Files.replace_file o tmp (path t) raw f in
    (f, match r with Ok _ => Ok tt | Err e => Err (ErrSave e) end).

Definition LoadOrCreateTracker `{TrackerJson} (mkdir readable : bool) (p : bytes)
    (f : gmap bytes bytes) : result error StoredTracker :=
  check (negb (bool_decide (p = []))) ! ErrEmptyPath;
  check mkdir ! ErrMkdir;
  match f !! p with
  | None => Ok {| path := p; Records := ∅ |}
  | Some raw =>
    check readable ! ErrReadTracker;
    match json_decode raw with
    | None => Err ErrParseTracker
    | Some t => Ok {| path := p; Records := t |}
    end
  end.

Lemma tracker_reload `{TrackerJsonLaws} tmp t f :
  path t ≠ [] → tmp ≠ path t →
  ∃ f', Save Files.no_failure tmp t f = (f', Ok tt) ∧ LoadOrCreateTracker true true (path t) f' = Ok t.
Proof.
  intros Hp Ht. destruct (Files.replace_file_ok tmp (path t) (json_encode (Records t)) f Ht)
    as (f' & Hr & Hl).
  exists f'. unfold Save, LoadOrCreateTracker. rewrite bool_decide_false by done. cbn [negb].
  rewrite Hr, Hl, json_decode_encode. by destruct t.
Qed.

(** ** Counters *)
Definition counters (t : Tracker) (pk : bytes) : Z * Z * Z :=
  match t !! pk with
  | Some r => (HitsReturned r, HitsConfirmed r, HitsFlagged r)
  | None => (0, 0, 0)
  end.

Definition occurrences (pk : bytes) (pks : list bytes) : Z :=
  len (filter (λ p, p = pk) pks).

Lemma touch_lookup now pk f t q :
  touch now pk f t !! q
  = if decide (q = pk) then Some (f (default (fresh_counters now) (t !! pk))) else t !! q.
Proof. unfold touch. destruct (decide (q = pk)) as [->|]; by simplify_map_eq. Qed.

Definition triple (r : Counters) : Z * Z * Z := (HitsReturned r, HitsConfirmed r, HitsFlagged r).

Definition times (pk : bytes) (pks : list bytes) : nat := length (filter (λ p, p = pk) pks).

(** A loop of [touch] updates a key once per occurrence. *)
Lemma foldl_touch_counters now f g pks t pk :
  (∀ r, triple (f r) = g (triple r)) →
  counters (foldl (λ t pk, touch now pk f t) t pks) pk
  = Nat.iter (times pk pks) g (counters t pk).
Proof.
  intros Hf. revert t. induction pks as [|p pks IH]; intros t; [done |]. simpl. rewrite IH.
  unfold times. rewrite filter_cons. unfold counters at 1. rewrite touch_lookup.
  destruct (decide (pk = p)) as [<-|Hne].
  - rewrite decide_True by done. cbn [length]. rewrite Nat.iter_succ_r. f_equal.
    change (triple (f (default (fresh_counters now) (t !! pk))) = g (counters t pk)).
    rewrite Hf. f_equal. unfold counters. by destruct (t !! pk).
  - rewrite decide_False by congruence. done.
Qed.

Lemma iter_i64_succ n b :
  is_i64 b → is_i64 (b + Z.of_nat n) → Nat.iter n (λ x, i64 (x + 1)) b = b + Z.of_nat n.
Proof.
  intros Hb. induction n as [|n IH]; intros Hn; [simpl; lia |].
  rewrite Nat.iter_succ, IH by (unfold is_i64 in *; lia).
  rewrite i64_small by (unfold is_i64 in *; lia). lia.
Qed.

Lemma occurrences_le pk pks : 0 <= occurrences pk pks <= len pks.
Proof. unfold occurrences, len. pose proof (length_filter (λ p, p = pk) pks). lia. Qed.

Lemma RecordConfirmed_fold now pks t :
  RecordConfirmed now pks t = foldl (λ t pk, touch now pk (add_confirmed now) t) t pks.
Proof. by destruct pks. Qed.

Lemma RecordFlagged_fold now pks t :
  RecordFlagged now pks t = foldl (λ t pk, touch now pk (add_flagged now) t) t pks.
Proof. by destruct pks. Qed.

Lemma confirmed_counters now pks t pk :
  let '(a, b, c) := counters t pk in
  is_i64 b → is_i64 (b + len pks) →
  counters (RecordConfirmed now pks t) pk = (a, b + occurrences pk pks, c).
Proof.
  destruct (counters t pk) as [[a b] c] eqn:E. intros Hb Hl. rewrite RecordConfirmed_fold.
  rewrite (foldl_touch_counters _ _ (λ '(a, b, c), (a, i64 (b + 1), c))), E by done.
  assert (Hi : ∀ n, Nat.iter n (λ '(a, b, c), (a, i64 (b + 1), c)) (a, b, c)
                    = (a, Nat.iter n (λ x, i64 (x + 1)) b, c)).
  { induction n as [|n IH]; [done |]. by rewrite !Nat.iter_succ, IH. }
  rewrite Hi, iter_i64_succ; [done | done |].
  pose proof (occurrences_le pk pks). unfold occurrences, len, is_i64, times in *. lia.
Qed.

Lemma flagged_counters now pks t pk :
  let '(a, b, c) := counters t pk in
  is_i64 c → is_i64 (c + len pks) →
  counters (RecordFlagged now pks t) pk = (a, b, c + occurrences pk pks).
Proof.
  destruct (counters t pk) as [[a b] c] eqn:E. intros Hb Hl. rewrite RecordFlagged_fold.
  rewrite (foldl_touch_counters _ _ (λ '(a, b, c), (a, b, i64 (c + 1)))), E by done.
  assert (Hi : ∀ n, Nat.iter n (λ '(a, b, c), (a, b, i64 (c + 1))) (a, b, c)
                    = (a, b, Nat.iter n (λ x, i64 (x + 1)) c)).
  { induction n as [|n IH]; [done |]. by rewrite !Nat.iter_succ, IH. }
  rewrite Hi, iter_i64_succ; [done | done |].
  pose proof (occurrences_le pk pks). unfold occurrences, len, is_i64, times in *. lia.
Qed.

(** ** Scores stay in [0, 1] *)
Lemma clamp_bounds x :
  let y := if flt x (of_int 0) then of_int 0 else x in
  let z := if flt (of_int 1) y then of_int 1 else y in
  is_nan z = false → fle (of_int 0) z = true ∧ fle z (of_int 1) = true.
Proof.
  intros y z Hz. subst z. destruct (flt (of_int 1) y) eqn:E1; [done |].
  split; [|by apply flt_false_fle]. subst y.
  destruct (flt x (of_int 0)) eqn:E0; [done |]. by apply flt_false_fle.
Qed.

Lemma scores_ok {MA : Math} (now : Z) (t : Tracker) (pk : bytes) :
  (t !! pk = None → Score now pk t = defaultUnknownScore) ∧
  (∀ r, t !! pk = Some r → counters t pk = (0, 0, 0) → SeededAt r = 0 →
     Score now pk t = defaultUnknownScore) ∧
  (is_nan (Score now pk t) = false →
     fle (of_int 0) (Score now pk t) = true ∧ fle (Score now pk t) (of_int 1) = true) ∧
  (∀ cutoff, Threshold now pk cutoff t
     = fle cutoff (of_int 0) || is_nan cutoff || fle cutoff (Score now pk t)) ∧
  (∀ pks, is_i64 (snd (fst (counters t pk))) → is_i64 (snd (fst (counters t pk)) + len pks) →
     counters (RecordConfirmed now pks t) pk
     = (fst (fst (counters t pk)), snd (fst (counters t pk)) + occurrences pk pks,
        snd (counters t pk))).
Proof.
  split_and!.
  - unfold Score. by intros ->.
  - intros r Hr Hc Hs. unfold Score, counters in *. rewrite Hr in *. injection Hc as H1 H2 H3.
    unfold scoreOf, organic. by rewrite H1, H2, H3, Hs.
  - unfold Score. destruct (t !! pk) as [r|]; [|by split]. apply clamp_bounds.
  - intros cutoff. unfold Threshold. by destruct (fle cutoff (of_int 0) || is_nan cutoff).
  - intros pks H1 H2. pose proof (confirmed_counters now pks t pk) as Hc.
    destruct (counters t pk) as [[a b] c]. by apply Hc.
Qed.

(** ** Imports *)
Definition seed_key (e : SeedListEntry) : option bytes :=
  match Hex.DecodeString (sl_PubKey e) with
  | Some raw => if len raw =? 32 then Some (Hex.lower <$> sl_PubKey e) else None
  | None => None
  end.

Lemma PubKey_lower s raw :
  Hex.DecodeString s = Some raw → len raw = 32 → PubKey (copy_arr 32 raw) = Hex.lower <$> s.
Proof.
  intros Hd Hl. unfold PubKey. rewrite sl_copy_arr by (unfold len in Hl; lia).
  by apply Hex.encode_decode.
Qed.

Lemma IsSeeded_mark now pk label t q :
  now ≠ 0 → IsSeeded q (MarkSeeded now pk label t) = IsSeeded q t || bool_decide (q = pk).
Proof.
  intros Hn. unfold IsSeeded, MarkSeeded. rewrite touch_lookup.
  destruct (decide (q = pk)) as [->|Hne].
  - rewrite bool_decide_true, orb_true_r by done. simpl. by rewrite (proj2 (Z.eqb_neq now 0)).
  - rewrite bool_decide_false by done. by rewrite orb_false_r.
Qed.

Lemma import_seeds_spec now i l t :
  now ≠ 0 →
  let '(t', (n, errs)) := import_seeds now i l t in
  n = len (omap seed_key l) ∧ n + len errs = len l ∧
  ∀ q, IsSeeded q t' = IsSeeded q t || bool_decide (q ∈ omap seed_key l).
Proof.
  intros Hn. revert i t. induction l as [|e l IH]; intros i t.
  { simpl. split_and!; [done | done |]. intros q. by rewrite orb_false_r. }
  assert (Ho : omap seed_key (e :: l)
               = match seed_key e with Some k => k :: omap seed_key l | None => omap seed_key l end)
    by done.
  rewrite Ho. cbn [import_seeds].
  assert (Hskip : ∀ er, let '(t', (n, errs)) :=
      (let '(t, (n, errs)) := import_seeds now (S i) l t in (t, (n, er :: errs))) in
      n = len (omap seed_key l) ∧ n + len errs = len (e :: l) ∧
      ∀ q, IsSeeded q t' = IsSeeded q t || bool_decide (q ∈ omap seed_key l)).
  { intros er. specialize (IH (S i) t). destruct (import_seeds now (S i) l t) as [t' [n errs]].
    destruct IH as (? & Hl & ?). rewrite !len_cons. split_and!; [done | lia | done]. }
  remember (seed_key e) as k eqn:Hk. unfold seed_key in Hk.
  destruct (Hex.DecodeString (sl_PubKey e)) as [raw|] eqn:Ed; [|subst k; by apply Hskip].
  destruct (Z.eqb_spec (len raw) 32) as [H32|]; [|subst k; by apply Hskip]. subst k.
  rewrite (PubKey_lower _ _ Ed H32). set (key := Hex.lower <$> _).
  specialize (IH (S i) (MarkSeeded now key (sl_Label e) t)).
  destruct (import_seeds now (S i) l _) as [t' [n errs]]. destruct IH as (-> & Hl & Hs).
  rewrite !len_cons. split_and!; [lia | lia |]. intros q. rewrite Hs, IsSeeded_mark by done.
  rewrite <-orb_assoc. f_equal. case_bool_decide as Hq.
  - subst. simpl. symmetry. apply bool_decide_eq_true. by left.
  - simpl. apply bool_decide_ext. rewrite elem_of_cons. intuition congruence.
Qed.

Lemma seed_import (now : Z) (path : bytes) (file : seed_file) (t : Tracker) :
  now ≠ 0 → path ≠ [] →
  let '(t', (n, errs)) := LoadSeedList now path file t in
  match file with
  | Parsed list =>
    if Version list =? 1 then
      n = len (omap seed_key (Seeds list)) ∧ n + len errs = len (Seeds list) ∧
      ∀ q, IsSeeded q t' = IsSeeded q t || bool_decide (q ∈ omap seed_key (Seeds list))
    else t' = t ∧ n = 0 ∧ len errs = 1
  | NoFile => t' = t ∧ n = 0 ∧ errs = []
  | _ => t' = t ∧ n = 0 ∧ len errs = 1
  end.
Proof.
  intros Hnow Hpath. unfold LoadSeedList. rewrite bool_decide_false by done.
  destruct file as [| | |list]; [by split_and!.. |].
  destruct (Version list =? 1); [|by split_and!]. simpl.
  by apply import_seeds_spec.
Qed.

(** The reputation table.  An unknown indexer and one without any signal have
    exactly the neutral score 1/2, a score that is a number is in [0, 1] whatever
    the counters and the seed age, and the admission threshold passes every
    indexer when the cutoff is not positive or not a number, else exactly those
    that score at least the cutoff.  Confirmations count with multiplicity.
    Importing a seed list seeds exactly the well-formed entries under their
    canonical lower-case key: the count is the number of entries of 64
    hexadecimal digits in either case, every other entry gives one error, and a
    key is seeded afterwards when it was before or is one of these keys.  An
    absent file is no error; an unreadable, malformed or non-v1 file changes
    nothing and gives one. *)
Lemma reputation_table {MA : Math} (now : Z) (t : Tracker) :
  (∀ pk,
     (t !! pk = None → Score now pk t = defaultUnknownScore) ∧
     (∀ r, t !! pk = Some r → counters t pk = (0, 0, 0) → SeededAt r = 0 →
        Score now pk t = defaultUnknownScore) ∧
     (is_nan (Score now pk t) = false →
        fle (of_int 0) (Score now pk t) = true ∧ fle (Score now pk t) (of_int 1) = true) ∧
     (∀ cutoff, Threshold now pk cutoff t
        = fle cutoff (of_int 0) || is_nan cutoff || fle cutoff (Score now pk t)) ∧
     (∀ pks, is_i64 (snd (fst (counters t pk))) → is_i64 (snd (fst (counters t pk)) + len pks) →
        counters (RecordConfirmed now pks t) pk
        = (fst (fst (counters t pk)), snd (fst (counters t pk)) + occurrences pk pks,
           snd (counters t pk)))) ∧
  (∀ path file, now ≠ 0 → path ≠ [] →
     let '(t', (n, errs)) := LoadSeedList now path file t in
     match file with
     | Parsed list =>
       if Version list =? 1 then
         n = len (omap seed_key (Seeds list)) ∧ n + len errs = len (Seeds list) ∧
         ∀ q, IsSeeded q t' = IsSeeded q t || bool_decide (q ∈ omap seed_key (Seeds list))
       else t' = t ∧ n = 0 ∧ len errs = 1
     | NoFile => t' = t ∧ n = 0 ∧ errs = []
     | _ => t' = t ∧ n = 0 ∧ len errs = 1
     end).
Proof. split; [intros; apply scores_ok | intros; by apply seed_import]. Qed.

(** ** Examples *)
Definition half_pow : Math := {| Log := λ x, x; Pow := λ _ _, of_ratio 1 2 |}.

Definition sample_seeds : SeedList := {|
  Version := 1;
  Seeds := [{| sl_PubKey := replicate 64 x41; sl_Label := str "a" |};
            {| sl_PubKey := str "zz"; sl_Label := [] |}]
|}.

Lemma reputation_table_witness :
  let t := MarkSeeded 1 (str "k") (str "seed") (RecordConfirmed 1 [str "k"] ∅) in
  let t' := fst (LoadSeedList 7 (str "seeds.json") (Parsed sample_seeds) t) in
  fle (@Score half_pow 7 (str "k") t) (of_int 1) = true ∧
  fst (snd (LoadSeedList 7 (str "seeds.json") (Parsed sample_seeds) t)) = 1 ∧
  IsSeeded (replicate 64 x61) t' = true ∧ IsSeeded (replicate 64 x41) t' = false.
Proof.
  intros t t'. destruct (@reputation_table half_pow 7 t) as [Hs Hi].
  specialize (Hi (str "seeds.json") (Parsed sample_seeds)).
  destruct (Hs (str "k")) as (_ & _ & Hb & _).
  unfold t'. destruct (LoadSeedList 7 (str "seeds.json") (Parsed sample_seeds) t) as [t2 [n errs]].
  destruct Hi as (Hn & _ & Hq); [done | done |]. split_and!.
  - apply Hb. vm_compute. reflexivity.
  - rewrite Hn. reflexivity.
  - cbn [fst]. rewrite Hq. reflexivity.
  - cbn [fst]. rewrite Hq. reflexivity.
Defined.
End Reputation.
