(* ===== verification/Trust.v ===== *)
(** * The publisher-trust list (internal/trust)

    A set of publisher keys with labels, kept as a map from lower-case keys and
    rewritten to a JSON file after every change.  The JSON codec is a class. *)

From S2P Require Import Prelude GoInt Externals Instances Utf8 Hex Files.
Open Scope Z_scope.

Module Trust.
Import Utf8.

Record Entry := { PubKeyHex : bytes; Label : bytes }.
Record Store := { path : bytes; entries : gmap bytes Entry }.

(** [json.MarshalIndent] of a list of entries and the decoding of a file: a list
    whose strings are valid UTF-8 is read back. *)
Class TrustJson := {
  json_encode : list Entry → bytes;
  json_decode : bytes → option (list Entry)
}.
Definition entry_utf8 (e : Entry) : Prop := valid (PubKeyHex e) ∧ valid (Label e).
Class TrustJsonLaws `{TrustJson} : Prop :=
  json_decode_encode l : Forall entry_utf8 l → json_decode (json_encode l) = Some l.

Inductive error : Type :=
  | ErrPubKey (got : Z) | ErrOpen | ErrDecode | ErrMkdir | ErrSave (e : Files.error).

Definition validPubKeyHex (s : bytes) : bool :=
  if negb (len s =? 64) then false
  else match Hex.DecodeString s with Some _ => true | None => false end.

Section store.
Context `{Unicode, TrustJson}.

(** The loop of [LoadOrCreate] over the decoded entries. *)
Definition load_entry (m : gmap bytes Entry) (e : Entry) : gmap bytes Entry :=
  if negb (validPubKeyHex (PubKeyHex e)) then m
  else
    let key := strings_ToLower (PubKeyHex e) in
    <[key := {| PubKeyHex := key; Label := Label e |}]> m.

(** [openable]: whether [os.Open] succeeds on a file that exists. *)
Definition LoadOrCreate (openable : bool) (p : bytes) (f : gmap bytes bytes) : result error Store :=
  if bool_decide (p = []) then Ok {| path := p; entries := ∅ |}
  else match f !! p with
  | None => Ok {| path := p; entries := ∅ |}
  | Some content =>
    check openable ! ErrOpen;
    match json_decode content with
    | None => Err ErrDecode
    | Some raw => Ok {| path := p; entries := foldl load_entry ∅ raw |}
    end
  end.

Definition entry_le (a b : Entry) : Prop := bytes_le (PubKeyHex a) (PubKeyHex b).
#[export] Instance entry_le_dec a b : Decision (entry_le a b).
Proof. unfold entry_le. apply _. Defined.

(** [sort.Slice] on distinct keys: the one sorted order. *)
Definition List_ (s : Store) : list Entry := merge_sort entry_le (snd <$> map_to_list (entries s)).

(** How the system calls of a save fare: [mkdir] and the replacement. *)
Definition save (mkdir : bool) (o : Files.outcome) (tmp : bytes) (s : Store) (f : gmap bytes bytes)
    : gmap bytes bytes * result error unit :=
  if bool_decide (path s = []) then (f, Ok tt)
  else
    let body := json_encode (List_ s) in
    if negb mkdir then (f, Err ErrMkdir)
    else
      let '(f, r) := Files.replace_file o tmp (path s) body f in
      (f, match r with Ok _ => Ok tt | Err e => Err (ErrSave e) end).

Definition insert_entry (s : Store) (key label : bytes) : Store :=
  {| path := path s; entries := <[key := {| PubKeyHex := key; Label := label |}]> (entries s) |}.

Definition Add (mkdir : bool) (o : Files.outcome) (tmp : bytes) (s : Store) (pubKeyHex label : bytes)
    (f : gmap bytes bytes) : Store * (gmap bytes bytes * result error unit) :=
  if negb (validPubKeyHex pubKeyHex) then (s, (f, Err (ErrPubKey (len pubKeyHex))))
  else
    let key := strings_ToLower pubKeyHex in
    let s := insert_entry s key label in
    (s, save mkdir o tmp s f).

Definition Remove (mkdir : bool) (o : Files.outcome) (tmp : bytes) (s : Store) (pubKeyHex : bytes)
    (f : gmap bytes bytes) : Store * (gmap bytes bytes * result error unit) :=
  let key := strings_ToLower pubKeyHex in
  let s := {| path := path s; entries := delete key (entries s) |} in
  (s, save mkdir o tmp s f).

Definition IsTrusted (s : Store) (pubKeyHex : bytes) : bool :=
  match entries s !! strings_ToLower pubKeyHex with Some _ => true | None => false end.

Definition Label_ (s : Store) (pubKeyHex : bytes) : bytes :=
  match entries s !! strings_ToLower pubKeyHex with Some e => Label e | None => [] end.

(** ** Invariant

    Every entry is filed under its own key, which is 64 lower-case hexadecimal
    digits, and is text. *)
Definition canonical (key : bytes) : Prop :=
  validPubKeyHex key = true ∧ Hex.lower <$> key = key.
Definition wf (s : Store) : Prop :=
  map_Forall (λ key e, PubKeyHex e = key ∧ canonical key ∧ valid (Label e)) (entries s).
End store.

Section laws.
Context `{UnicodeLaws, TrustJsonLaws}.

Lemma hex_ascii s t : Hex.DecodeString s = Some t → Forall (λ c, b2z c < 0x80) s.
Proof.
  assert (Hv : ∀ c, (match Hex.value c with Some _ => b2z c <? 0x80 | None => true end) = true)
    by (apply Hex.forall_byte; by vm_compute).
  revert t. induction s as [|a|a b s IH] using Hex.pair_ind; intros t Ht; simpl in Ht;
    [constructor | done |].
  pose proof (Hv a) as Ha. pose proof (Hv b) as Hb.
  destruct (Hex.value a); [|done]. destruct (Hex.value b); [|done]. simpl in Ht.
  destruct (Hex.DecodeString s) as [u|]; [|done]. apply Z.ltb_lt in Ha, Hb.
  constructor; [done |]. constructor; [done |]. by apply (IH u).
Qed.

Lemma lower_valid_hex s :
  validPubKeyHex s = true →
  strings_ToLower s = Hex.lower <$> s ∧ canonical (Hex.lower <$> s).
Proof.
  unfold canonical, validPubKeyHex. destruct (Z.eqb_spec (len s) 64) as [Hl|]; [|done]. simpl.
  destruct (Hex.DecodeString s) as [t|] eqn:E; [|done]. intros _.
  split; [apply strings_ToLower_ascii; by eapply hex_ascii |].
  rewrite <-(Hex.encode_decode _ _ E). unfold len. rewrite Hex.length_encode.
  apply Hex.length_decode in E as Hlen. rewrite <-Hlen. unfold len in Hl. rewrite Hl. simpl.
  rewrite Hex.decode_encode. split; [done |].
  by rewrite <-(Hex.encode_decode (Hex.EncodeToString t) t (Hex.decode_encode t)).
Qed.

Lemma ascii_valid s : Forall (λ c, b2z c < 0x80) s → valid s.
Proof.
  unfold valid. induction 1 as [|c s Hc Hs IH]; [constructor |].
  rewrite runes_unfold, decode_rune_ascii by done. constructor; [|exact IH].
  simpl. unfold RuneError. lia.
Qed.

Lemma canonical_utf8 key : canonical key → valid key.
Proof.
  intros [Hv _]. unfold validPubKeyHex in Hv. destruct (len key =? 64); [|done]. simpl in Hv.
  destruct (Hex.DecodeString key) eqn:E; [|done]. by eapply ascii_valid, hex_ascii.
Qed.

Lemma List_perm (s : Store) : List_ s ≡ₚ snd <$> map_to_list (entries s).
Proof. apply merge_sort_Permutation. Qed.

Lemma canonical_key key : canonical key → strings_ToLower key = key.
Proof. intros [Hv Hl]. destruct (lower_valid_hex key Hv) as [-> _]. done. Qed.

(** Loading what the store lists gives the store back. *)
Lemma load_list (m : gmap bytes Entry) l :
  map_Forall (λ key e, PubKeyHex e = key ∧ canonical key ∧ valid (Label e)) m →
  l ≡ₚ snd <$> map_to_list m → foldl load_entry ∅ l = m.
Proof.
  intros Hm Hl.
  assert (Hin : ∀ e, e ∈ l ↔ m !! PubKeyHex e = Some e).
  { intros e. rewrite Hl, list_elem_of_fmap. split.
    - intros ([key e'] & -> & He). apply elem_of_map_to_list in He. simpl.
      destruct (Hm _ _ He) as (-> & _). done.
    - intros He. exists (PubKeyHex e, e). split; [done |]. by apply elem_of_map_to_list. }
  assert (Hgen : ∀ l acc, (∀ e, e ∈ l → m !! PubKeyHex e = Some e) →
    ∀ key, foldl load_entry acc l !! key
           = if decide (key ∈ PubKeyHex <$> l) then m !! key else acc !! key).
  { clear l Hl Hin. induction l as [|e l IH]; intros acc He key; simpl.
    { done. }
    rewrite IH by (intros; apply He; by right).
    pose proof (He e ltac:(by left)) as Hme. destruct (Hm _ _ Hme) as (_ & Hc & _).
    assert (Hload : load_entry acc e = <[PubKeyHex e := e]> acc).
    { unfold load_entry. rewrite (proj1 Hc). simpl. rewrite (canonical_key _ Hc). by destruct e. }
    rewrite Hload. destruct (decide (key ∈ PubKeyHex <$> l)) as [Hk|Hk].
    - by rewrite decide_True by (by right).
    - destruct (decide (key = PubKeyHex e)) as [->|Hne].
      + rewrite decide_True by (by left). by rewrite lookup_insert_eq.
      + rewrite decide_False by (rewrite elem_of_cons; tauto).
        by rewrite lookup_insert_ne by congruence. }
  apply map_eq. intros key. rewrite Hgen by (intros; by apply Hin).
  case_decide as Hk; [done |]. rewrite lookup_empty. destruct (m !! key) as [e|] eqn:E; [|done].
  destruct Hk. destruct (Hm _ _ E) as (<- & _). apply list_elem_of_fmap_2, Hin. exact E.
Qed.

Lemma Add_entry_wf mkdir o tmp s pk label f :
  wf s → valid label → wf (fst (Add mkdir o tmp s pk label f)).
Proof.
  intros Hwf Hl. unfold Add. destruct (validPubKeyHex pk) eqn:E; [|done]. simpl.
  destruct (lower_valid_hex pk E) as [-> Hc]. apply map_Forall_insert_2; [|done]. by split_and!.
Qed.

Lemma Remove_wf mkdir o tmp s pk f : wf s → wf (fst (Remove mkdir o tmp s pk f)).
Proof. intros Hwf. by apply map_Forall_delete. Qed.

Lemma load_entry_wf m e :
  map_Forall (λ key e, PubKeyHex e = key ∧ canonical key ∧ valid (Label e)) m →
  valid (Label e) →
  map_Forall (λ key e, PubKeyHex e = key ∧ canonical key ∧ valid (Label e)) (load_entry m e).
Proof.
  intros Hm Hl. unfold load_entry. destruct (validPubKeyHex _) eqn:E; [|done]. simpl.
  destruct (lower_valid_hex _ E) as [-> Hc]. apply map_Forall_insert_2; [|done]. by split_and!.
Qed.

Lemma save_reload s tmp f :
  wf s → path s ≠ [] → tmp ≠ path s →
  ∃ f', save true Files.no_failure tmp s f = (f', Ok tt) ∧ LoadOrCreate true (path s) f' = Ok s.
Proof.
  intros Hwf Hp Ht.
  destruct (Files.replace_file_ok tmp (path s) (json_encode (List_ s)) f Ht) as (f' & Hr & Hl).
  exists f'. unfold save, LoadOrCreate. rewrite bool_decide_false by done. cbn [negb].
  rewrite Hr, Hl, json_decode_encode.
  - split; [done |]. do 2 f_equal. rewrite (load_list (entries s)); [by destruct s | exact Hwf |].
    apply List_perm.
  - rewrite List_perm. apply Forall_fmap, list.Forall_forall. intros [key e] He. simpl.
    apply elem_of_map_to_list in He. destruct (Hwf _ _ He) as (<- & Hc & Hle).
    split; [by apply canonical_utf8 | done].
Qed.

Instance entry_le_total : Total entry_le.
Proof.
  intros a b. unfold entry_le. destruct (decide (bytes_le (PubKeyHex a) (PubKeyHex b))); [by left |].
  right. apply bytes_nlt_le. intros Hlt. destruct n. apply bytes_le_lt_eq. by left.
Qed.

(** The trust list is a set of canonical keys that survives a restart.
    Adding keeps only 64-digit keys, in lower case; a key is trusted afterwards
    exactly when it was or is the added one, in any case, and removing it undoes
    that.  A store saved without failures is the one loaded back.  When a system
    call of the save fails, the file holds its old content, and the list in
    memory is changed all the same.  [List] is sorted by key. *)
Lemma trust_store (s : Store) (tmp pk label : bytes) (f : gmap bytes bytes)
    (Hwf : wf s) (Hp : path s ≠ []) (Ht : tmp ≠ path s) (Hfresh : f !! tmp = None)
    (Hpk : validPubKeyHex pk = true) (Hl : valid label) :
  let added o := Add true o tmp s pk label f in
  let removed o := Remove true o tmp s pk f in
  (∃ f', snd (added Files.no_failure) = (f', Ok tt) ∧
         LoadOrCreate true (path s) f' = Ok (fst (added Files.no_failure))) ∧
  (∃ f', snd (removed Files.no_failure) = (f', Ok tt) ∧
         LoadOrCreate true (path s) f' = Ok (fst (removed Files.no_failure))) ∧
  (∀ o q, IsTrusted (fst (added o)) q
          = IsTrusted s q || bool_decide (strings_ToLower q = strings_ToLower pk)) ∧
  (∀ o q, IsTrusted (fst (removed o)) q
          = IsTrusted s q && negb (bool_decide (strings_ToLower q = strings_ToLower pk))) ∧
  (∀ o f' e, snd (added o) = (f', Err e) → f' !! path s = f !! path s) ∧
  Sorted entry_le (List_ s) ∧ wf (fst (added Files.no_failure)).
Proof.
  intros added removed.
  assert (Hadd : ∀ o, added o = (insert_entry s (strings_ToLower pk) label,
                       save true o tmp (insert_entry s (strings_ToLower pk) label) f)).
  { intros o. unfold added, Add. by rewrite Hpk. }
  assert (Hw : wf (insert_entry s (strings_ToLower pk) label)).
  { pose proof (Add_entry_wf true Files.no_failure tmp s pk label f Hwf Hl) as Hw.
    fold (added Files.no_failure) in Hw. by rewrite Hadd in Hw. }
  split_and!.
  - rewrite Hadd. by apply (save_reload (insert_entry s (strings_ToLower pk) label)).
  - apply (save_reload {| path := path s; entries := delete (strings_ToLower pk) (entries s) |});
      [by apply map_Forall_delete | done | done].
  - intros o q. rewrite Hadd. unfold IsTrusted, insert_entry. cbn [fst entries].
    case_bool_decide as Hq; [rewrite Hq, lookup_insert_eq, orb_true_r; done |].
    rewrite lookup_insert_ne by congruence. by rewrite orb_false_r.
  - intros o q. unfold removed, IsTrusted, Remove. cbn [fst entries].
    case_bool_decide as Hq; [rewrite Hq, lookup_delete_eq, andb_false_r; done |].
    rewrite lookup_delete_ne by congruence. by rewrite andb_true_r.
  - intros o f' e. rewrite Hadd. cbn [snd]. unfold save. cbn [path insert_entry].
    rewrite bool_decide_false by done. cbn [negb].
    destruct (Files.replace_file o tmp (path s) _ f) as [f1 r1] eqn:E.
    apply Files.replace_file_atomic in E as (Hr & _); [|done..].
    destruct r1; intros [= <- <-]; done.
  - apply Sorted_merge_sort. apply _.
  - rewrite Hadd. exact Hw.
Qed.
End laws.

(** ** Example *)
#[export] Instance Entry_dec : EqDecision Entry. Proof. solve_decision. Defined.
#[export] Program Instance Entry_countable : Countable Entry :=
  inj_countable' (λ e, (PubKeyHex e, Label e)) (λ '(a, b), Build_Entry a b) _.
Next Obligation. by intros []. Qed.

#[export] Instance toy_json : TrustJson := {|
  json_encode l := ToyCodec.enc_pos (encode l);
  json_decode b := p ← ToyCodec.dec_pos b; decode p
|}.
#[export] Instance toy_json_laws : TrustJsonLaws.
Proof.
  intros l _. simpl. rewrite ToyCodec.dec_enc_pos. simpl. apply decode_encode.
Qed.

Definition sample_store : Store := {| path := str "trust.json"; entries := ∅ |}.

Lemma trust_store_witness :
  let pk := replicate 64 x41 in
  (∃ f', snd (Add true Files.no_failure (str "t") sample_store pk (str "alice") ∅) = (f', Ok tt) ∧
         LoadOrCreate true (str "trust.json") f'
         = Ok (fst (Add true Files.no_failure (str "t") sample_store pk (str "alice") ∅))) ∧
  IsTrusted (fst (Add true Files.no_failure (str "t") sample_store pk (str "alice") ∅))
    (replicate 64 x61) = true.
Proof.
  intros pk. destruct (trust_store sample_store (str "t") pk (str "alice") ∅) as (Ha & _ & Ht & _).
  - apply map_Forall_empty.
  - done.
  - done.
  - reflexivity.
  - reflexivity.
  - apply ascii_valid. repeat constructor.
  - split; [exact Ha |]. rewrite Ht. reflexivity.
Defined.
End Trust.
