(* ===== verification/Admission.v ===== *)
(** * Publisher admission (internal/admission)

    The deny-by-default gate: rules over candidates, and the admitted, endorsed
    and observed sets.  The reputation the gate reads is an interface, which the
    reputation table implements.  Two operations release the engine's lock
    between recording a signal and deciding, so each is two atomic steps. *)

From Stdlib Require Import SpecFloat.
From S2P Require Import Prelude GoInt GoFloat Hex Reputation.
Open Scope Z_scope.

Module Admission.
Import GoFloat.

Abbreviation key := (array 32).

(** ** Policy (policy.go) *)
Inductive Source := SourceAnchor | SourceBEP51 | SourceEndorsement.
#[export] Instance Source_dec : EqDecision Source. Proof. solve_decision. Defined.

Definition UnknownPrior : float64 := of_ratio 1 2.
Definition MaxTrackedPublishers : Z := 100.
Definition EndorsementThreshold : Z := 3.

(** What the gate needs of a reputation table [R]. *)
Class ReputationView (R : Type) := {
  rep_Score : R → key → float64;
  rep_IsSeeded : R → key → bool;
  rep_MarkSeeded : key → bytes → R → R
}.
Record Candidate := { Pub : key; Label : bytes; Src : Source; StrongEndorsers : Z }.

Inductive Rule :=
  | AnchorRule
  | EndorsementRule (Threshold : Z)
  | CrawlRule (Threshold : Z)
  | permissiveRule (src : Source).

Record Policy := {
  MaxTracked : Z;
  Endorsement : Z;
  rules : Source → option Rule
}.

Definition ruleFor (p : Policy) (s : Source) : option Rule := rules p s.

Definition DefaultPolicy : Policy := {|
  MaxTracked := MaxTrackedPublishers;
  Endorsement := EndorsementThreshold;
  rules s := match s with
             | SourceAnchor => Some AnchorRule
             | SourceEndorsement => Some (EndorsementRule EndorsementThreshold)
             | SourceBEP51 => Some (CrawlRule EndorsementThreshold)
             end
|}.

Definition PermissivePolicyForTest : Policy := {|
  MaxTracked := MaxTrackedPublishers;
  Endorsement := EndorsementThreshold;
  rules s := Some (permissiveRule s)
|}.

Section engine.
Context {R : Type} `{ReputationView R}.

Definition earned (pub : key) (v : option R) : bool :=
  match v with
  | None => false
  | Some v => flt UnknownPrior (rep_Score v pub) || rep_IsSeeded v pub
  end.

Definition Admit (r : Rule) (c : Candidate) (v : option R) : bool :=
  match r with
  | AnchorRule => true
  | EndorsementRule t => (t <=? StrongEndorsers c) || earned (Pub c) v
  | CrawlRule t => earned (Pub c) v || (t <=? StrongEndorsers c)
  | permissiveRule _ => true
  end.

(** ** State (state.go) *)
Record State := {
  anchorKeys : list key;
  admitted : gset key;
  anchorsAdmitted : gset key;
  endorsements : gmap key (gset key);
  observed : gset key
}.

Definition newState (anchors : list key) : State :=
  {| anchorKeys := anchors; admitted := ∅; anchorsAdmitted := ∅; endorsements := ∅; observed := ∅ |}.

Definition IsAdmitted (s : State) (pub : key) : bool := bool_decide (pub ∈ admitted s).
Definition IsPending (s : State) (pub : key) : bool :=
  if bool_decide (pub ∈ admitted s) then false
  else match endorsements s !! pub with
  | Some _ => true
  | None => bool_decide (pub ∈ observed s)
  end.
Definition AdmittedCount (s : State) : Z := Z.of_nat (size (admitted s)).
Definition AnchorCount (s : State) : Z := len (anchorKeys s).
(** The map [seen] the function fills. *)
Definition pending_seen (s : State) : gset key :=
  let skip k seen := if bool_decide (k ∈ admitted s) then seen else {[k]} ∪ seen in
  let seen := foldr (λ p seen, skip p.1 seen) ∅ (map_to_list (endorsements s)) in
  foldr skip seen (elements (observed s)).
Definition PendingCount (s : State) : Z := Z.of_nat (size (pending_seen s)).

(** ** The engine (engine.go) *)
Record AdmissionEngine := { policy : Policy; rep : option R; state : State }.

Inductive error := ErrNotHex (s : bytes) | ErrLength (s : bytes) (n : Z).

Definition parse_anchor (keys : list key) (s : bytes) : result error (list key) :=
  if bool_decide (s = []) then Ok keys
  else match Hex.DecodeString s with
  | None => Err (ErrNotHex s)
  | Some raw => check (len raw =? 32) ! (ErrLength s (len raw)); Ok (keys ++ [copy_arr 32 raw])
  end.

Definition NewEngine (p : Policy) (v : option R) (anchorHexes : list bytes)
    : result error AdmissionEngine :=
  let p := {| MaxTracked := if MaxTracked p <=? 0 then MaxTrackedPublishers else MaxTracked p;
              Endorsement := if Endorsement p <=? 0 then EndorsementThreshold else Endorsement p;
              rules := rules p |} in
  keys ← fold_result parse_anchor [] anchorHexes;
  Ok {| policy := p; rep := v; state := newState keys |}.

Definition strongEndorsers (e : AdmissionEngine) (cand : key) : Z :=
  let endorsers := default ∅ (endorsements (state e) !! cand) in
  match rep e with
  | None => 0
  | Some v => len (filter (λ ep, flt UnknownPrior (rep_Score v ep) || rep_IsSeeded v ep = true)
                     (elements endorsers))
  end.

Definition with_state (e : AdmissionEngine) (s : State) : AdmissionEngine :=
  {| policy := policy e; rep := rep e; state := s |}.

(** The locked part of [admit_] and the seeding after it. *)
Definition admit_ (c : Candidate) (e : AdmissionEngine) : AdmissionEngine * bool :=
  let s := state e in
  if bool_decide (Pub c ∈ admitted s) then (e, true)
  else
    let c := {| Pub := Pub c; Label := Label c; Src := Src c;
                StrongEndorsers := strongEndorsers e (Pub c) |} in
    match ruleFor (policy e) (Src c) with
    | None => (e, false)
    | Some rule =>
      if negb (Admit rule c (rep e)) then (e, false)
      else if negb (bool_decide (Src c = SourceAnchor)) &&
              (MaxTracked (policy e) <=?
                 Z.of_nat (size (admitted s)) - Z.of_nat (size (anchorsAdmitted s)))
      then (e, false)
      else
        let s := {| anchorKeys := anchorKeys s; admitted := {[Pub c]} ∪ admitted s;
                    anchorsAdmitted := if bool_decide (Src c = SourceAnchor)
                                       then {[Pub c]} ∪ anchorsAdmitted s else anchorsAdmitted s;
                    endorsements := endorsements s; observed := observed s |} in
        ({| policy := policy e;
            rep := if bool_decide (Src c = SourceAnchor)
                   then rep_MarkSeeded (Pub c) (Label c) <$> rep e else rep e;
            state := s |}, true)
    end.

Definition AdmitAnchor (pub : key) (label : bytes) (e : AdmissionEngine) : AdmissionEngine * bool :=
  admit_ {| Pub := pub; Label := label; Src := SourceAnchor; StrongEndorsers := 0 |} e.

Definition observe (cand : key) (e : AdmissionEngine) : AdmissionEngine :=
  let s := state e in
  with_state e {| anchorKeys := anchorKeys s; admitted := admitted s;
                  anchorsAdmitted := anchorsAdmitted s; endorsements := endorsements s;
                  observed := {[cand]} ∪ observed s |}.

Definition admit_crawled (cand : key) (e : AdmissionEngine) : AdmissionEngine * bool :=
  admit_ {| Pub := cand; Label := str "crawled"; Src := SourceBEP51; StrongEndorsers := 0 |} e.

Definition CandidateFromCrawl (cand : key) (sigValid : bool) (e : AdmissionEngine)
    : AdmissionEngine * bool :=
  if negb sigValid then (e, false)
  else if bool_decide (cand ∈ admitted (state e)) then (e, true)
  else admit_crawled cand (observe cand e).

Definition recordEndorser (cand endorser : key) (e : AdmissionEngine) : AdmissionEngine :=
  let s := state e in
  let set := default ∅ (endorsements s !! cand) in
  with_state e {| anchorKeys := anchorKeys s; admitted := admitted s;
                  anchorsAdmitted := anchorsAdmitted s;
                  endorsements := <[cand := {[endorser]} ∪ set]> (endorsements s);
                  observed := observed s |}.

Definition admit_endorsed (cand : key) (e : AdmissionEngine) : AdmissionEngine * bool :=
  admit_ {| Pub := cand; Label := str "endorsed"; Src := SourceEndorsement; StrongEndorsers := 0 |} e.

Definition IngestEndorsement (endorser cand : key) (e : AdmissionEngine) : AdmissionEngine * bool :=
  if bool_decide (cand ∈ admitted (state e)) then (recordEndorser cand endorser e, true)
  else admit_endorsed cand (recordEndorser cand endorser e).

(** ** Interleavings

    One atomic step of the engine: an anchor admission, one half of a crawl or
    endorsement call, or a change of the reputation table by another component. *)
Definition with_rep (e : AdmissionEngine) (v : R) : AdmissionEngine :=
  {| policy := policy e; rep := Some v; state := state e |}.

Inductive step (e : AdmissionEngine) : AdmissionEngine → Prop :=
  | step_anchor pub label : step e (fst (AdmitAnchor pub label e))
  | step_observe cand : cand ∉ admitted (state e) → step e (observe cand e)
  | step_crawl cand : step e (fst (admit_crawled cand e))
  | step_record cand endorser : step e (recordEndorser cand endorser e)
  | step_endorse cand : step e (fst (admit_endorsed cand e))
  | step_rep v v' : rep e = Some v → step e (with_rep e v').

(** Every operation is a sequence of steps. *)
Lemma CandidateFromCrawl_steps cand sig e : rtc step e (fst (CandidateFromCrawl cand sig e)).
Proof.
  unfold CandidateFromCrawl. destruct sig; simpl; [|done].
  case_bool_decide as Ha; [done |]. eapply rtc_l; [by apply step_observe |].
  apply rtc_once, step_crawl.
Qed.
Lemma IngestEndorsement_steps endorser cand e : rtc step e (fst (IngestEndorsement endorser cand e)).
Proof.
  unfold IngestEndorsement. case_bool_decide as Ha; simpl; [apply rtc_once, step_record |].
  eapply rtc_l; [by apply step_record |]. apply rtc_once, step_endorse.
Qed.

(** ** What one decision does *)
Definition gate (c : Candidate) (e : AdmissionEngine) : bool :=
  match ruleFor (policy e) (Src c) with
  | None => false
  | Some rule =>
    Admit rule {| Pub := Pub c; Label := Label c; Src := Src c;
                  StrongEndorsers := strongEndorsers e (Pub c) |} (rep e)
  end.
Definition room (e : AdmissionEngine) : bool :=
  Z.of_nat (size (admitted (state e))) - Z.of_nat (size (anchorsAdmitted (state e)))
  <? MaxTracked (policy e).

(** A decision changes nothing, or admits the candidate it was about because the
    rule cleared it and, unless it is an anchor, there was room. *)
Lemma admit_cases c e :
  (Pub c ∈ admitted (state e) ∧ admit_ c e = (e, true)) ∨
  ((gate c e = false ∨ Src c ≠ SourceAnchor ∧ room e = false) ∧ admit_ c e = (e, false)) ∨
  ((Pub c ∉ admitted (state e)) ∧ gate c e = true ∧ (Src c = SourceAnchor ∨ room e = true) ∧
   snd (admit_ c e) = true ∧
   let e' := fst (admit_ c e) in
   policy e' = policy e ∧
   rep e' = (if bool_decide (Src c = SourceAnchor)
             then rep_MarkSeeded (Pub c) (Label c) <$> rep e else rep e) ∧
   admitted (state e') = {[Pub c]} ∪ admitted (state e) ∧
   anchorsAdmitted (state e') = (if bool_decide (Src c = SourceAnchor)
                                 then {[Pub c]} ∪ anchorsAdmitted (state e)
                                 else anchorsAdmitted (state e)) ∧
   endorsements (state e') = endorsements (state e) ∧ observed (state e') = observed (state e)).
Proof.
  unfold admit_, gate, room. case_bool_decide as Ha; [by left |]. right.
  cbn [Pub Label Src]. destruct (ruleFor (policy e) (Src c)) as [r|]; [|left; split; [by left | done]].
  destruct (Admit r _ (rep e)); simpl; [|left; split; [by left | done]].
  rewrite Z.leb_antisym. case_bool_decide as Hs; simpl.
  - right. split_and!; try done. by left.
  - destruct (_ <? _) eqn:Hr; simpl; [|left; split; [by right | done]].
    right. split_and!; try done. by right.
Qed.

Record inv (e : AdmissionEngine) : Prop := {
  inv_max : 0 < MaxTracked (policy e);
  inv_sub : anchorsAdmitted (state e) ⊆ admitted (state e);
  inv_cap : Z.of_nat (size (admitted (state e))) - Z.of_nat (size (anchorsAdmitted (state e)))
            ≤ MaxTracked (policy e)
}.

Lemma cap_step (A B : gset key) k (anchor : bool) (n : Z) :
  k ∉ A → B ⊆ A → Z.of_nat (size A) - Z.of_nat (size B) ≤ n →
  (anchor = true ∨ Z.of_nat (size A) - Z.of_nat (size B) < n) →
  let B' := if anchor then {[k]} ∪ B else B in
  B' ⊆ {[k]} ∪ A ∧ Z.of_nat (size ({[k]} ∪ A)) - Z.of_nat (size B') ≤ n.
Proof.
  intros Hk Hs Hn Hr. assert (Hb : k ∉ B) by (intros ?; by apply Hk, Hs). simpl.
  rewrite (size_union {[k]} A), size_singleton by (by apply disjoint_singleton_l). destruct anchor.
  - split; [by apply union_mono_l |].
    rewrite size_union, size_singleton by (by apply disjoint_singleton_l). lia.
  - split; [by apply union_subseteq_r' |]. destruct Hr; [done | lia].
Qed.

Lemma admit_inv c e : inv e → inv (fst (admit_ c e)).
Proof.
  intros [Hm Hs Hc]. destruct (admit_cases c e) as [[_ ->]|[[_ ->]|H1]]; [done | done |].
  destruct H1 as (Hn & _ & Hr & _ & Hp & _ & Ha & Haa & _).
  destruct (cap_step (admitted (state e)) (anchorsAdmitted (state e)) (Pub c)
    (bool_decide (Src c = SourceAnchor)) (MaxTracked (policy e)) Hn Hs Hc) as [Hs' Hc'].
  { rewrite bool_decide_eq_true. destruct Hr as [|Hr]; [by left | right]. by apply Z.ltb_lt in Hr. }
  split; rewrite ?Hp, ?Ha, ?Haa; done.
Qed.

Lemma step_inv e e' : step e e' → inv e → inv e'.
Proof.
  intros [pub label|cand Hc|cand|cand endorser|cand|v v' Hv] Hi;
    first [by apply admit_inv | destruct Hi; by split].
Qed.

Lemma step_policy e e' : step e e' → policy e' = policy e.
Proof.
  assert (Ha : ∀ c, policy (fst (admit_ c e)) = policy e).
  { intros c. destruct (admit_cases c e) as [[_ ->]|[[_ ->]|H1]]; [done | done |]. apply H1. }
  intros []; first [apply Ha | done].
Qed.

Lemma NewEngine_spec p v hexes e :
  NewEngine p v hexes = Ok e →
  inv e ∧ admitted (state e) = ∅ ∧ anchorsAdmitted (state e) = ∅ ∧ endorsements (state e) = ∅ ∧
  observed (state e) = ∅ ∧ rep e = v ∧ rules (policy e) = rules p.
Proof.
  unfold NewEngine. intros He. apply bind_ok_inv in He as (keys & _ & He).
  apply Ok_inj in He as <-. split_and!; try done. split; simpl.
  - destruct (Z.leb_spec (MaxTracked p) 0); unfold MaxTrackedPublishers; lia.
  - set_solver.
  - destruct (Z.leb_spec (MaxTracked p) 0); unfold MaxTrackedPublishers; lia.
Qed.

(** ** Pending publishers *)
Lemma pending_seen_spec s k :
  k ∈ pending_seen s ↔ (k ∈ dom (endorsements s) ∨ k ∈ observed s) ∧ k ∉ admitted s.
Proof.
  unfold pending_seen.
  assert (Hgen : ∀ (A : Type) (f : A → key) (l : list A) (acc : gset key),
    k ∈ foldr (λ x seen, if bool_decide (f x ∈ admitted s) then seen else {[f x]} ∪ seen) acc l ↔
    k ∈ acc ∨ (k ∉ admitted s) ∧ k ∈ f <$> l).
  { intros A f l acc. induction l as [|x l IH]; simpl.
    - rewrite elem_of_nil. tauto.
    - rewrite elem_of_cons. case_bool_decide as Hx; [|rewrite elem_of_union, elem_of_singleton];
        rewrite IH; split; try tauto; [|].
      + intros [|[? [->|]]]; tauto.
      + intros [->|[|[]]]; tauto. }
  rewrite (Hgen key id (elements (observed s))), list_fmap_id.
  rewrite (Hgen (key * gset key)%type fst (map_to_list (endorsements s))).
  rewrite elem_of_elements, elem_of_empty, elem_of_dom.
  assert (Hd : k ∈ (map_to_list (endorsements s)).*1 ↔ is_Some (endorsements s !! k)).
  { rewrite list_elem_of_fmap. split.
    - intros ([k' x] & -> & Hx). apply elem_of_map_to_list in Hx. by exists x.
    - intros [x Hx]. exists (k, x). split; [done | by apply elem_of_map_to_list]. }
  rewrite Hd. tauto.
Qed.

Lemma IsPending_spec s k : IsPending s k = bool_decide (k ∈ pending_seen s).
Proof.
  unfold IsPending. destruct (decide (k ∈ admitted s)) as [Ha|Ha];
    [rewrite (bool_decide_true _ Ha) | rewrite (bool_decide_false _ Ha)]; symmetry.
  - apply bool_decide_eq_false. rewrite pending_seen_spec. tauto.
  - destruct (endorsements s !! k) as [x|] eqn:E.
    + apply bool_decide_eq_true, pending_seen_spec. split; [|done]. left. apply elem_of_dom. by exists x.
    + apply bool_decide_ext. rewrite pending_seen_spec, elem_of_dom, E.
      split; [intros [[[? ?]|?] ?]; done | tauto].
Qed.

Lemma rtc_inv e e' : rtc step e e' → inv e → inv e' ∧ policy e' = policy e.
Proof.
  induction 1 as [|e1 e2 e3 Hs _ IH]; [done |]. intros Hi.
  destruct (IH (step_inv _ _ Hs Hi)) as [? ->]. split; [done | by apply step_policy].
Qed.

(** However crawls, endorsements, anchors and reputation changes interleave,
    an engine never admits more publishers than the policy's cap, anchors aside;
    a publisher is pending exactly when it was endorsed or observed and is not
    admitted, so never both; and the count of pending publishers counts each
    once. *)
Lemma admission_invariant (p : Policy) (v : option R) (hexes : list bytes)
    (e0 e : AdmissionEngine) (H0 : NewEngine p v hexes = Ok e0) (Hs : rtc step e0 e) :
  let s := state e in
  anchorsAdmitted s ⊆ admitted s ∧
  AdmittedCount s - Z.of_nat (size (anchorsAdmitted s)) ≤ MaxTracked (policy e0) ∧
  (∀ k, IsPending s k = true ↔
        (k ∈ dom (endorsements s) ∨ k ∈ observed s) ∧ IsAdmitted s k = false) ∧
  PendingCount s = Z.of_nat (size ((dom (endorsements s) ∪ observed s) ∖ admitted s)).
Proof.
  destruct (NewEngine_spec p v hexes e0 H0) as (Hi & _).
  destruct (rtc_inv e0 e Hs Hi) as [[Hm Hsub Hcap] Hp]. rewrite Hp in *. intros s.
  split_and!; [exact Hsub | exact Hcap | |].
  - intros k. rewrite IsPending_spec, bool_decide_eq_true, pending_seen_spec.
    unfold IsAdmitted. by rewrite bool_decide_eq_false.
  - unfold PendingCount. do 2 f_equal. apply set_eq. intros k.
    rewrite pending_seen_spec, elem_of_difference, elem_of_union. done.
Qed.

(** ** Why a publisher is admitted *)

(** [pub] had merit in [e]: its own earned signal, or at least
    [EndorsementThreshold] distinct endorsers with earned signal. *)
Definition merit (e : AdmissionEngine) (pub : key) : Prop :=
  earned pub (rep e) = true ∨
  ∃ X : gset key, X ⊆ default ∅ (endorsements (state e) !! pub) ∧
    EndorsementThreshold ≤ Z.of_nat (size X) ∧ ∀ k, k ∈ X → earned k (rep e) = true.

Lemma strongEndorsers_set e cand :
  ∃ X : gset key, X ⊆ default ∅ (endorsements (state e) !! cand) ∧
    strongEndorsers e cand = Z.of_nat (size X) ∧ ∀ k, k ∈ X → earned k (rep e) = true.
Proof.
  unfold strongEndorsers, earned. destruct (rep e) as [v|].
  - set (E := default ∅ _).
    exists (list_to_set (filter (λ ep, flt UnknownPrior (rep_Score v ep) || rep_IsSeeded v ep = true)
                                (elements E))). split_and!.
    + intros k. rewrite elem_of_list_to_set, list_elem_of_filter, elem_of_elements. tauto.
    + rewrite size_list_to_set; [done |]. apply NoDup_filter, NoDup_elements.
    + intros k. rewrite elem_of_list_to_set, list_elem_of_filter. tauto.
  - exists ∅. split_and!; [apply empty_subseteq | by rewrite size_empty | by intros k ?%elem_of_empty].
Qed.

Lemma gate_merit c e :
  rules (policy e) = rules DefaultPolicy → Src c ≠ SourceAnchor → gate c e = true →
  merit e (Pub c).
Proof.
  intros Hp Hs. unfold gate, ruleFor. rewrite Hp. unfold merit.
  destruct (strongEndorsers_set e (Pub c)) as (X & HX & Hsz & Hst).
  destruct (Src c); [done | |]; simpl; rewrite orb_true_iff, Z.leb_le, Hsz;
    intros [|]; try (by left); right; by exists X.
Qed.

(** The history of an admission. *)
Definition justified (e0 : AdmissionEngine) (e : AdmissionEngine) : Prop :=
  ∀ pub, pub ∈ admitted (state e) →
    pub ∈ anchorsAdmitted (state e) ∨ ∃ e1, rtc step e0 e1 ∧ merit e1 pub.

Lemma admit_justified e0 c e :
  rules (policy e) = rules DefaultPolicy → rtc step e0 e → justified e0 e →
  justified e0 (fst (admit_ c e)).
Proof.
  intros Hp Hs Hj. destruct (admit_cases c e) as [[_ ->]|[[_ ->]|H1]]; [done | done |].
  destruct H1 as (Hn & Hg & _ & _ & _ & _ & Ha & Haa & _). intros pub. rewrite Ha, Haa.
  rewrite elem_of_union, elem_of_singleton. intros [->|Hin].
  - case_bool_decide as Hsrc; [left; apply elem_of_union; left; by apply elem_of_singleton |].
    right. exists e. split; [done | by apply gate_merit].
  - destruct (Hj pub Hin) as [Hj'|Hj']; [|by right]. left.
    case_bool_decide; [apply elem_of_union; by right | done].
Qed.

Lemma rtc_justified e0 e :
  rules (policy e0) = rules DefaultPolicy → admitted (state e0) = ∅ → rtc step e0 e →
  justified e0 e.
Proof.
  intros Hp Ha Hs. cut (justified e0 e ∧ rules (policy e) = rules DefaultPolicy); [tauto |].
  revert e Hs. apply rtc_ind_r.
  - split; [|done]. intros pub. rewrite Ha. by intros ?%elem_of_empty.
  - intros e1 e2 Hr Hst [Hj Hp1]. split; [|by rewrite (step_policy _ _ Hst)].
    destruct Hst; first [by apply admit_justified | exact Hj].
Qed.

(** Admission is deny-by-default.  Under the production policy, whatever the
    interleaving, every admitted publisher that is not an anchor had merit at
    some moment: an earned signal of its own, or three distinct endorsers with
    one.  Without a reputation table only anchors are admitted, and any number of
    endorsers without earned signal admits nobody. *)
Lemma admission_justified (v : option R) (hexes : list bytes) (e0 e : AdmissionEngine)
    (H0 : NewEngine DefaultPolicy v hexes = Ok e0) (Hs : rtc step e0 e) :
  (∀ pub, IsAdmitted (state e) pub = true →
     pub ∈ anchorsAdmitted (state e) ∨ ∃ e1, rtc step e0 e1 ∧ merit e1 pub) ∧
  (v = None → admitted (state e) = anchorsAdmitted (state e)) ∧
  (∀ cand endorser r, rep e = Some r → cand ∉ admitted (state e) →
     (∀ k, earned k (Some r) = false) →
     snd (IngestEndorsement endorser cand e) = false ∧
     snd (CandidateFromCrawl cand true e) = false).
Proof.
  destruct (NewEngine_spec _ v hexes e0 H0) as (Hi & Ha & Haa & _ & _ & Hv & Hp).
  assert (Hpe : rules (policy e) = rules DefaultPolicy).
  { destruct (rtc_inv e0 e Hs Hi) as [_ ->]. exact Hp. }
  split_and!.
  - intros pub Hpub. apply bool_decide_eq_true in Hpub. by eapply rtc_justified.
  - intros ->. cut (admitted (state e) = anchorsAdmitted (state e) ∧ rep e = None ∧
                    rules (policy e) = rules DefaultPolicy); [tauto |].
    clear Hpe. revert e Hs. apply rtc_ind_r; [by rewrite Ha, Haa |].
    intros e1 e2 _ Hst (He & Hr & Hp1).
    assert (Hadm : ∀ c, let e' := fst (admit_ c e1) in
      admitted (state e') = anchorsAdmitted (state e') ∧ rep e' = None ∧
      rules (policy e') = rules DefaultPolicy).
    { intros c. destruct (admit_cases c e1) as [[_ ->]|[[_ ->]|H1]]; [done | done |].
      destruct H1 as (Hn & Hg & _ & _ & Hp' & Hr' & Ha' & Haa' & _). simpl.
      destruct (decide (Src c = SourceAnchor)) as [Hsrc|Hsrc].
      - rewrite bool_decide_true in Hr', Haa' by done. rewrite Hr', Ha', Haa', Hp', Hr, He. done.
      - destruct (gate_merit c e1 Hp1 Hsrc Hg) as [Hm|(X & HX & Hsz & Hm)].
        + by rewrite Hr in Hm.
        + destruct (decide (X = ∅)) as [->|Hne].
          { rewrite size_empty in Hsz. by unfold EndorsementThreshold in Hsz. }
          apply set_choose_L in Hne as [k Hk]. specialize (Hm k Hk). by rewrite Hr in Hm. }
    destruct Hst; first [apply Hadm | by split_and! | congruence].
  - intros cand endorser r Hr Hc Hno.
    assert (Hdeny : ∀ c e', rep e' = rep e → admitted (state e') = admitted (state e) →
      rules (policy e') = rules DefaultPolicy → Pub c = cand → Src c ≠ SourceAnchor →
      snd (admit_ c e') = false).
    { intros c e' Hr' Ha' Hp' Hpc Hsrc. destruct (admit_cases c e') as [[Hin _]|[[_ ->]|H1]].
      - rewrite Ha', Hpc in Hin. done.
      - done.
      - destruct H1 as (_ & Hg & _). destruct (gate_merit c e' Hp' Hsrc Hg) as [Hm|(X & HX & Hsz & Hm)].
        + rewrite Hr', Hr, Hno in Hm. done.
        + destruct (decide (X = ∅)) as [->|Hne].
          { rewrite size_empty in Hsz. by unfold EndorsementThreshold in Hsz. }
          apply set_choose_L in Hne as [k Hk]. specialize (Hm k Hk). rewrite Hr', Hr, Hno in Hm. done. }
    split.
    + unfold IngestEndorsement. rewrite bool_decide_false by done. by apply Hdeny.
    + unfold CandidateFromCrawl. rewrite bool_decide_false by done. by apply Hdeny.
Qed.



(** ** Progress *)
Definition ingest_all (cand : key) (l : list key) (e : AdmissionEngine) : AdmissionEngine :=
  foldl (λ e endorser, fst (IngestEndorsement endorser cand e)) e l.

Lemma ingest_all_steps cand l e : rtc step e (ingest_all cand l e).
Proof.
  revert e. induction l as [|k l IH]; intros e; [done |].
  etrans; [apply IngestEndorsement_steps | apply IH].
Qed.

(** What holds while [cand] waits for endorsers. *)
Definition waiting (cand : key) (e0 : AdmissionEngine) (got : list key) (e : AdmissionEngine) : Prop :=
  cand ∈ admitted (state e) ∨
  (policy e = policy e0 ∧ rep e = rep e0 ∧ admitted (state e) = admitted (state e0) ∧
   anchorsAdmitted (state e) = anchorsAdmitted (state e0) ∧
   (∀ k, k ∈ got → k ∈ default ∅ (endorsements (state e) !! cand)) ∧
   (got ≠ [] → strongEndorsers e cand < EndorsementThreshold)).

Lemma waiting_step cand e0 got e k :
  rules (policy e0) = rules DefaultPolicy → room e0 = true →
  waiting cand e0 got e → waiting cand e0 (got ++ [k]) (fst (IngestEndorsement k cand e)).
Proof.
  intros Hp Hroom Hw. unfold IngestEndorsement. case_bool_decide as Hc.
  { left. exact Hc. }
  destruct Hw as [?|(Hpe & Hre & Hae & Haae & Hgot & _)]; [done |].
  set (e1 := recordEndorser cand k e).
  assert (He1 : default ∅ (endorsements (state e1) !! cand)
                = {[k]} ∪ default ∅ (endorsements (state e) !! cand)).
  { unfold e1, recordEndorser. simpl. by rewrite lookup_insert_eq. }
  assert (Hgot1 : ∀ j, j ∈ got ++ [k] → j ∈ default ∅ (endorsements (state e1) !! cand)).
  { intros j. rewrite He1, list.elem_of_app, list_elem_of_singleton, elem_of_union, elem_of_singleton.
    intros [?|?]; [right; by apply Hgot | by left]. }
  unfold admit_endorsed. set (c := Build_Candidate _ _ _ _).
  destruct (admit_cases c e1) as [[Hin _]|[[Hno ->]|H1]].
  - left. done.
  - right. split_and!; try done. intros _.
    destruct Hno as [Hg|[_ Hr]].
    + unfold gate, ruleFor in Hg. change (policy e1) with (policy e) in Hg. rewrite Hpe, Hp in Hg.
      simpl in Hg. apply orb_false_iff in Hg as [Hg _]. by apply Z.leb_gt in Hg.
    + unfold room in Hr, Hroom. change (policy e1) with (policy e) in Hr.
      change (admitted (state e1)) with (admitted (state e)) in Hr.
      change (anchorsAdmitted (state e1)) with (anchorsAdmitted (state e)) in Hr.
      rewrite Hpe, Hae, Haae in Hr. congruence.
  - destruct H1 as (_ & _ & _ & _ & _ & _ & Ha & _). left. rewrite Ha.
    apply elem_of_union. left. by apply elem_of_singleton.
Qed.

Lemma strong_count e cand (l : list key) :
  NoDup l → (∀ k, k ∈ l → k ∈ default ∅ (endorsements (state e) !! cand)) →
  (∀ k, k ∈ l → earned k (rep e) = true) → l ≠ [] → len l ≤ strongEndorsers e cand.
Proof.
  intros Hn Hin Hst Hne. unfold strongEndorsers, earned in *. destruct (rep e) as [v|].
  - unfold len. apply inj_le, submseteq_length, NoDup_submseteq; [done |]. intros k Hk.
    apply list_elem_of_filter. split; [by apply Hst |]. by apply elem_of_elements, Hin.
  - destruct l as [|k l]; [done |]. specialize (Hst k ltac:(by left)). done.
Qed.

(** [C12] An honest newcomer gets in.  Under the production policy, while there is
    room, a publisher vouched for by at least three distinct publishers with
    earned signal is admitted once their endorsements are ingested, in any
    order. *)
Theorem admission_progress (e : AdmissionEngine) (cand : key) (l : list key)
    (Hp : rules (policy e) = rules DefaultPolicy) (Hroom : room e = true)
    (Hn : NoDup l) (Hlen : EndorsementThreshold ≤ len l)
    (Hst : ∀ k, k ∈ l → earned k (rep e) = true) :
  IsAdmitted (state (ingest_all cand l e)) cand = true.
Proof.
  apply bool_decide_eq_true. unfold ingest_all.
  assert (Hw : waiting cand e l (foldl (λ e endorser, fst (IngestEndorsement endorser cand e)) e l)).
  { clear Hn Hlen Hst. induction l as [|k l IH] using rev_ind.
    - right. split_and!; try done. by intros k ?%not_elem_of_nil.
    - rewrite foldl_app. simpl. by apply waiting_step. }
  destruct Hw as [Hin|(_ & Hr & _ & _ & Hgot & Hlt)]; [exact Hin |]. exfalso.
  assert (Hne : l ≠ []).
  { intros ->. rewrite len_nil in Hlen. by unfold EndorsementThreshold in Hlen. }
  specialize (Hlt Hne). set (e' := foldl _ _ _) in *.
  pose proof (strong_count e' cand l Hn Hgot) as Hc. rewrite Hr in Hc. specialize (Hc Hst Hne). lia.
Qed.

(** An anchor that a crawl or endorsements admitted first stays an ordinary
    publisher: [AdmitAnchor] reports success and does nothing. *)
Lemma AdmitAnchor_admitted pub label e :
  pub ∈ admitted (state e) → AdmitAnchor pub label e = (e, true).
Proof. intros Hin. unfold AdmitAnchor, admit_. by rewrite bool_decide_true. Qed.
End engine.

(** ** The reputation table as the view

    The daemon adapts the engine's table, if there is one, keying it on the
    hexadecimal form of a key. *)
#[export] Instance reputationView (now : Z) `{Math} :
    ReputationView (option (gmap bytes Reputation.Counters)) := {|
  rep_Score t k :=
    match t with
    | None => of_ratio 1 2
    | Some t => Reputation.Score now (Reputation.PubKey k) t
    end;
  rep_IsSeeded t k :=
    match t with
    | None => false
    | Some t => Reputation.IsSeeded (Reputation.PubKey k) t
    end;
  rep_MarkSeeded k l t := Reputation.MarkSeeded now (Reputation.PubKey k) l <$> t
|}.

(** ** Examples *)
#[local] Instance example_view : ReputationView (option (gmap bytes Reputation.Counters)) :=
  @reputationView 9 Reputation.half_pow.

Definition sample_key (b : byte) : key := copy_arr 32 (replicate 32 b).
Definition sample_rep : option (gmap bytes Reputation.Counters) :=
  foldr (λ b, rep_MarkSeeded (sample_key b) (str "seed")) (Some ∅) [x01; x02; x03].
Definition sample_engine : AdmissionEngine := {|
  policy := DefaultPolicy; rep := Some sample_rep; state := newState []
|}.


Lemma admission_progress_witness :
  EndorsementThreshold ≤ len (sample_key <$> [x01; x02; x03]) ∧
  IsAdmitted (state (ingest_all (sample_key x08) (sample_key <$> [x01; x02; x03]) sample_engine))
    (sample_key x08) = true.
Proof.
  split; [by vm_compute |]. apply (admission_progress sample_engine).
  - reflexivity.
  - reflexivity.
  - apply (bool_decide_unpack _). vm_compute. reflexivity.
  - by vm_compute.
  - apply list.Forall_forall, (bool_decide_unpack _). vm_compute. reflexivity.
Defined.
End Admission.
