(* ===== verification/SpamResistance.v ===== *)
(** * Confirming and flagging a hit (internal/engine/reputation.go)

    The engine's composition of the known-good filter, the reputation table, the
    source tracker and the trust list: the one path by which a user's verdict on
    a search hit reaches them. *)

From Stdlib Require Import SpecFloat.
From S2P Require Import Prelude GoInt Utf8 GoFloat Hex Files Bloom Sources Reputation Trust.
Open Scope Z_scope.

Module SpamResistance.
Import Utf8.

(** The fields of the engine this path uses; [None] is a nil pointer, a feature
    that is off or failed to load. *)
Record Engine := {
  bloom : option Bloom.BloomFilter;
  tracker : option Reputation.StoredTracker;
  sources : Sources.SourceTracker;
  trust : option Trust.Store;
  trustFailed : bool;
  files : gmap bytes bytes
}.

(** How the system calls of one checkpoint fare, and the names of its temporary
    files. *)
Record checkpoint_io := {
  bloom_io : Files.outcome; bloom_tmp : bytes;
  tracker_io : Files.outcome; tracker_tmp : bytes
}.

Inductive attribution := Targeted | TrustedExempt | TrustUnavailable | NoAttribution.
Record FlagResult := { Flagged : Z; Attribution : attribution }.

Section engine.
Context `{Unicode, Reputation.TrackerJson, Trust.TrustJson, GoFloat.Math}.

(** The configured paths and whether each file can be opened. *)
Record config := {
  BloomPath : bytes; ReputationPath : bytes; SeedListPath : bytes; TrustPath : bytes;
  readable : bytes → bool; seed_list : Reputation.seed_file
}.

Definition loadSpamResistance (now : Z) (cfg : config) (e : Engine) : Engine :=
  let bloom' :=
    if bool_decide (BloomPath cfg = []) then bloom e
    else match Bloom.LoadOrCreateBloom true (readable cfg (BloomPath cfg)) (BloomPath cfg) (files e) with
         | Ok b => Some b | Err _ => bloom e end in
  let tracker' :=
    if bool_decide (ReputationPath cfg = []) then tracker e
    else match Reputation.LoadOrCreateTracker true (readable cfg (ReputationPath cfg))
                 (ReputationPath cfg) (files e) with
         | Err _ => tracker e
         | Ok t =>
           Some (if bool_decide (SeedListPath cfg = []) then t
                 else {| Reputation.path := Reputation.path t;
                         Reputation.Records :=
                           fst (Reputation.LoadSeedList now (SeedListPath cfg) (seed_list cfg)
                                  (Reputation.Records t)) |})
         end in
  let '(trust', failed) :=
    if bool_decide (TrustPath cfg = []) then (trust e, trustFailed e)
    else match Trust.LoadOrCreate (readable cfg (TrustPath cfg)) (TrustPath cfg) (files e) with
         | Err _ => (trust e, true)
         | Ok s => (Some s, trustFailed e)
         end in
  {| bloom := bloom'; tracker := tracker'; sources := sources e; trust := trust';
     trustFailed := failed; files := files e |}.

(** The two saves; their errors are logged. *)
Definition Checkpoint (io : checkpoint_io) (e : Engine) : Engine :=
  let f := match bloom e with
           | Some b => fst (Bloom.Save (bloom_io io) (bloom_tmp io) b (files e))
           | None => files e end in
  let f := match tracker e with
           | Some t => fst (Reputation.Save (tracker_io io) (tracker_tmp io) t f)
           | None => f end in
  {| bloom := bloom e; tracker := tracker e; sources := sources e; trust := trust e;
     trustFailed := trustFailed e; files := f |}.

Definition update_records (f : gmap bytes Reputation.Counters → gmap bytes Reputation.Counters)
    (t : Reputation.StoredTracker) : Reputation.StoredTracker :=
  {| Reputation.path := Reputation.path t; Reputation.Records := f (Reputation.Records t) |}.

Definition ConfirmHit (now : Z) (io : checkpoint_io) (ih : array 20) (ihHex : bytes) (e : Engine)
    : Engine * (Z * bool) :=
  match bloom e with
  | None => (e, (0, false))
  | Some b =>
    let b := Bloom.Add b (sl ih) in
    let '(tracker', sources', confirmed) :=
      match tracker e with
      | None => (None, sources e, 0)
      | Some t =>
        let '(s, pks) := Sources.Sources (sources e) ihHex in
        if 0 <? len pks
        then (Some (update_records (Reputation.RecordConfirmed now pks) t), s, len pks)
        else (Some t, s, 0)
      end in
    (Checkpoint io {| bloom := Some b; tracker := tracker'; sources := sources'; trust := trust e;
                      trustFailed := trustFailed e; files := files e |}, (confirmed, true))
  end.

Definition trusted (e : Engine) (pk : bytes) : bool :=
  match trust e with Some s => Trust.IsTrusted s pk | None => false end.

(** The loop over the attributed indexers. *)
Fixpoint split_trusted (e : Engine) (demote : list bytes) (skipped : bool) (pks : list bytes)
    : list bytes * bool :=
  match pks with
  | [] => (demote, skipped)
  | pk :: pks =>
    if trusted e pk then split_trusted e demote true pks
    else split_trusted e (demote ++ [pk]) skipped pks
  end.

Definition FlagHit (now : Z) (io : checkpoint_io) (ihHex : bytes) (e : Engine)
    : Engine * (FlagResult * bool) :=
  match tracker e with
  | None => (e, ({| Flagged := 0; Attribution := NoAttribution |}, false))
  | Some t =>
    if trustFailed e then (e, ({| Flagged := 0; Attribution := TrustUnavailable |}, true))
    else
      let '(s, pks) := Sources.Sources (sources e) ihHex in
      if len pks =? 0 then
        ({| bloom := bloom e; tracker := Some t; sources := s; trust := trust e;
            trustFailed := trustFailed e; files := files e |},
         ({| Flagged := 0; Attribution := NoAttribution |}, true))
      else
        let '(demote, trustedSkipped) := split_trusted e [] false pks in
        let t := if 0 <? len demote then update_records (Reputation.RecordFlagged now demote) t else t in
        let s := Sources.Forget s ihHex in
        let e := Checkpoint io {| bloom := bloom e; tracker := Some t; sources := s; trust := trust e;
                                  trustFailed := trustFailed e; files := files e |} in
        let a := if (len demote =? 0) && trustedSkipped then TrustedExempt else Targeted in
        (e, ({| Flagged := len demote; Attribution := a |}, true))
  end.

(** ** The demoted indexers *)
Lemma split_trusted_spec e demote skipped pks :
  split_trusted e demote skipped pks
  = (demote ++ filter (λ pk, trusted e pk = false) pks, skipped || existsb (trusted e) pks).
Proof.
  revert demote skipped. induction pks as [|pk pks IH]; intros demote skipped; simpl.
  { by rewrite app_nil_r, orb_false_r. }
  rewrite filter_cons. destruct (trusted e pk) eqn:E; rewrite IH.
  - rewrite decide_False by congruence. f_equal. by rewrite orb_true_r, orb_true_l.
  - rewrite decide_True by done. by rewrite <-app_assoc.
Qed.

(** The indexers an infohash is attributed to. *)
Definition blamed (e : Engine) (ihHex : bytes) : gset bytes :=
  Sources.lru_sources (strings_ToLower ihHex) (Sources.abs (sources e)).

Definition records (e : Engine) : gmap bytes Reputation.Counters :=
  match tracker e with Some t => Reputation.Records t | None => ∅ end.

(** No counter is at the end of its range. *)
Definition roomy (n : Z) (e : Engine) : Prop :=
  ∀ pk, let '(_, b, c) := Reputation.counters (records e) pk in
        0 <= b < 2 ^ 63 - n ∧ 0 <= c < 2 ^ 63 - n.

Lemma occurrences_NoDup pk pks :
  NoDup pks → Reputation.occurrences pk pks = if bool_decide (pk ∈ pks) then 1 else 0.
Proof.
  unfold Reputation.occurrences. induction 1 as [|p pks Hp Hn IH]; [done |].
  rewrite filter_cons. destruct (decide (p = pk)) as [->|Hne].
  - rewrite bool_decide_true by (by left). rewrite len_cons, IH.
    by rewrite bool_decide_false.
  - rewrite IH. erewrite bool_decide_ext; [done |]. rewrite elem_of_cons. intuition congruence.
Qed.

Lemma set_of_list (pks : list bytes) (X : gset bytes) :
  NoDup pks → (∀ pk, pk ∈ pks ↔ pk ∈ X) → len pks = Z.of_nat (size X).
Proof.
  intros Hn Hx. unfold len. f_equal. rewrite <-(size_list_to_set (C:=gset bytes)) by done.
  f_equal. apply set_eq. intros pk. by rewrite elem_of_list_to_set.
Qed.

Lemma Sources_query e ihHex :
  Sources.wf (sources e) → ihHex ≠ [] →
  ∃ s pks, Sources.Sources (sources e) ihHex = (s, pks) ∧ Sources.wf s ∧ NoDup pks ∧
    (∀ pk, pk ∈ pks ↔ pk ∈ blamed e ihHex) ∧
    Sources.abs s = Sources.lru_touch (strings_ToLower ihHex) (Sources.abs (sources e)).
Proof.
  intros Hwf Hih. pose proof (Sources.Sources_refines (sources e) ihHex Hwf Hih) as Hs.
  destruct (Sources.Sources (sources e) ihHex) as [s pks]. destruct Hs as (? & _ & ? & ? & ?).
  by exists s, pks.
Qed.

Lemma lru_find_remove key l : Sources.lru_find key (Sources.lru_remove key l) = None.
Proof.
  unfold Sources.lru_find, Sources.lru_remove. rewrite filter_none; [done |].
  apply list.Forall_forall. intros x Hx. by apply list_elem_of_filter in Hx as [? _].
Qed.

Lemma forgotten e' s ihHex :
  Sources.wf s → ihHex ≠ [] → sources e' = Sources.Forget s ihHex →
  Sources.wf (sources e') ∧ blamed e' ihHex = ∅.
Proof.
  intros Hwf Hih He. destruct (Sources.Forget_refines s ihHex Hwf Hih) as (Hw & _ & Ha).
  rewrite He. split; [done |]. unfold blamed. rewrite He, Ha. unfold Sources.lru_sources.
  by rewrite lru_find_remove.
Qed.

Lemma lru_touch_empty key l :
  Sources.lru_sources key l = ∅ → Sources.lru_sources key (Sources.lru_touch key l) = ∅.
Proof.
  unfold Sources.lru_touch. intros Hl. destruct (Sources.lru_find key l) as [e|] eqn:E; [|done].
  unfold Sources.lru_sources in *. rewrite E in Hl. unfold Sources.lru_find in *.
  assert (Sources.infohash e = key) as Hk.
  { destruct (filter _ l) as [|e' l'] eqn:El; [done |]. injection E as ->.
    assert (He : e ∈ filter (λ e, Sources.infohash e = key) l) by (rewrite El; by left).
    by apply list_elem_of_filter in He as [? _]. }
  by rewrite filter_cons_True.
Qed.

Definition is_blamed (e : Engine) (ihHex pk : bytes) : Z :=
  if bool_decide (pk ∈ blamed e ihHex) then 1 else 0.
Definition is_demoted (e : Engine) (ihHex pk : bytes) : Z :=
  if trusted e pk then 0 else is_blamed e ihHex pk.

Lemma flag_counts now t e pks ihHex pk :
  tracker e = Some t → NoDup pks → (∀ pk, pk ∈ pks ↔ pk ∈ blamed e ihHex) →
  roomy (len pks) e →
  let demote := filter (λ pk, trusted e pk = false) pks in
  let '(a, b, c) := Reputation.counters (records e) pk in
  Reputation.counters (Reputation.RecordFlagged now demote (Reputation.Records t)) pk
  = (a, b, c + is_demoted e ihHex pk).
Proof.
  intros Ht Hn Hpks Hroom demote. pose proof (Hroom pk) as Hr.
  pose proof (Reputation.flagged_counters now demote (Reputation.Records t) pk) as Hf.
  unfold records in *. rewrite Ht in *.
  assert (Hd : NoDup demote) by by apply NoDup_filter.
  destruct (Reputation.counters _ _) as [[a b] c]. unfold is_demoted, is_blamed.
  rewrite Hf.
  - rewrite occurrences_NoDup by done. do 2 f_equal. unfold demote.
    destruct (trusted e pk) eqn:Etr; [rewrite bool_decide_false; [done |];
      intros [? _]%list_elem_of_filter; congruence |].
    erewrite bool_decide_ext; [done |]. rewrite list_elem_of_filter, Hpks. tauto.
  - pose proof (len_nonneg pks). unfold is_i64. lia.
  - assert (len demote <= len pks) by (unfold demote, len; apply inj_le, length_filter).
    pose proof (len_nonneg demote). unfold is_i64. lia.
Qed.

Lemma Test_Add b x : Bloom.wf b → Bloom.Test (Bloom.Add b x) x = true.
Proof.
  intros Hwf. apply Bloom.Test_true. intros j Hj. change (j ∈ Bloom.indices b x) in Hj.
  destruct (Bloom.index_range b x j Hwf Hj). rewrite Bloom.Add_bit, bool_decide_true by done.
  apply orb_true_r.
Qed.

Lemma confirm_ok now io ih ihHex e :
  Sources.wf (sources e) → ihHex ≠ [] → (∀ b, bloom e = Some b → Bloom.wf b) →
  roomy (Z.of_nat (size (blamed e ihHex))) e →
  let '(e', (n, ok)) := ConfirmHit now io ih ihHex e in
  match bloom e with
  | None => e' = e ∧ (n, ok) = (0, false)
  | Some _ =>
    ok = true ∧ (∃ b, bloom e' = Some b ∧ Bloom.Test b (sl ih) = true) ∧
    (n = if decide (tracker e = None) then 0 else Z.of_nat (size (blamed e ihHex))) ∧
    (tracker e ≠ None → ∀ pk,
       let '(a, b, c) := Reputation.counters (records e) pk in
       Reputation.counters (records e') pk = (a, b + is_blamed e ihHex pk, c))
  end.
Proof.
  intros Hwf Hih Hb Hroom. unfold ConfirmHit. destruct (bloom e) as [b|]; [|done].
  destruct (Sources_query e ihHex Hwf Hih) as (s & pks & Hq & Hs & Hn & Hpks & _).
  pose proof (set_of_list pks _ Hn Hpks) as Hsize. rewrite <-Hsize in *. rewrite Hq.
  pose proof (Test_Add b (sl ih) (Hb b eq_refl)) as Htest.
  destruct (tracker e) as [t|] eqn:Et.
  2: { split_and!; [done | by eexists | done | done]. }
  assert (Hcount : ∀ pk, let '(a, b, c) := Reputation.counters (records e) pk in
    Reputation.counters (Reputation.RecordConfirmed now pks (Reputation.Records t)) pk
    = (a, b + is_blamed e ihHex pk, c)).
  { intros pk. pose proof (Hroom pk) as Hr.
    pose proof (Reputation.confirmed_counters now pks (Reputation.Records t) pk) as Hc.
    unfold records in *. rewrite Et in *.
    destruct (Reputation.counters _ _) as [[x y] z]. pose proof (len_nonneg pks).
    rewrite Hc by (unfold is_i64; lia). rewrite occurrences_NoDup by done.
    unfold is_blamed. erewrite bool_decide_ext; [done | apply Hpks]. }
  destruct (Z.ltb_spec 0 (len pks)) as [Hpos|Hz]; cbn [bloom tracker records Checkpoint update_records Reputation.Records].
  - split_and!; [done | by eexists | done | intros _; exact Hcount].
  - assert (pks = []) as -> by (destruct pks; [done |]; rewrite len_cons in Hz; pose proof (len_nonneg pks); lia).
    split_and!; [done | by eexists | done | intros _ pk]. exact (Hcount pk).
Qed.

Lemma blamed_size e pks ihHex :
  NoDup pks → (∀ pk, pk ∈ pks ↔ pk ∈ blamed e ihHex) →
  len (filter (λ pk, trusted e pk = false) pks)
  = Z.of_nat (size (filter (λ pk, trusted e pk = false) (blamed e ihHex))).
Proof.
  intros Hn Hpks. apply set_of_list; [by apply NoDup_filter |]. intros pk.
  by rewrite list_elem_of_filter, elem_of_filter, Hpks.
Qed.

(** A hit attributed to nobody. *)
Lemma flag_nobody now io ihHex e t :
  tracker e = Some t → trustFailed e = false → Sources.wf (sources e) → ihHex ≠ [] →
  blamed e ihHex = ∅ →
  snd (FlagHit now io ihHex e) = ({| Flagged := 0; Attribution := NoAttribution |}, true) ∧
  records (fst (FlagHit now io ihHex e)) = records e.
Proof.
  intros Ht Hf Hwf Hih Hb. unfold FlagHit. rewrite Ht, Hf.
  destruct (Sources_query e ihHex Hwf Hih) as (s & pks & -> & _ & _ & Hpks & _).
  assert (pks = []) as -> by (destruct pks as [|p pks]; [done |]; rewrite Hb in Hpks; exfalso; apply (not_elem_of_empty (C:=gset bytes) p), Hpks; by left).
  unfold records. by rewrite Ht.
Qed.

Lemma flag_ok now io ihHex e :
  Sources.wf (sources e) → ihHex ≠ [] → roomy (Z.of_nat (size (blamed e ihHex))) e →
  let '(e', (r, ok)) := FlagHit now io ihHex e in
  if decide (tracker e = None) then e' = e ∧ ok = false
  else if trustFailed e then
    e' = e ∧ r = {| Flagged := 0; Attribution := TrustUnavailable |} ∧ ok = true
  else
    ok = true ∧
    Flagged r = Z.of_nat (size (filter (λ pk, trusted e pk = false) (blamed e ihHex))) ∧
    (∀ pk, let '(a, b, c) := Reputation.counters (records e) pk in
       Reputation.counters (records e') pk = (a, b, c + is_demoted e ihHex pk)) ∧
    (∀ now' io', snd (FlagHit now' io' ihHex e')
       = ({| Flagged := 0; Attribution := NoAttribution |}, true) ∧
       records (fst (FlagHit now' io' ihHex e')) = records e').
Proof.
  intros Hwf Hih Hroom.
  destruct (Sources_query e ihHex Hwf Hih) as (s & pks & Hq & Hs & Hn & Hpks & Habs).
  pose proof (set_of_list pks _ Hn Hpks) as Hsize. rewrite <-Hsize in Hroom.
  assert (Ht : ∀ t, tracker e = Some t → trustFailed e = false → len pks = 0 →
    blamed e ihHex = ∅ ∧ FlagHit now io ihHex e
    = ({| bloom := bloom e; tracker := Some t; sources := s; trust := trust e;
          trustFailed := false; files := files e |},
       ({| Flagged := 0; Attribution := NoAttribution |}, true))).
  { intros t Ht Hf Hz. split; [apply leibniz_equiv, size_empty_inv; lia |].
    unfold FlagHit. by rewrite Ht, Hf, Hq, Hz. }
  destruct (tracker e) as [t|] eqn:Et.
  2: { unfold FlagHit. rewrite Et. by rewrite decide_True. }
  destruct (trustFailed e) eqn:Ef.
  { unfold FlagHit. rewrite Et, Ef. by rewrite decide_False. }
  destruct (Z.eqb_spec (len pks) 0) as [Hz|Hz].
  - destruct (Ht t eq_refl eq_refl Hz) as [Hb ->]. rewrite decide_False by done.
    split_and!; [done | by rewrite Hb | |].
    + intros pk. unfold is_demoted, is_blamed. rewrite Hb. unfold records. rewrite Et.
      cbn [tracker]. destruct (Reputation.counters _ _) as [[a b] c].
      rewrite bool_decide_false by set_solver. destruct (trusted e pk); by rewrite Z.add_0_r.
    + intros now' io'. apply (flag_nobody _ _ _ _ t); try done.
      unfold blamed. cbn [sources]. rewrite Habs. unfold blamed in Hb.
      by apply lru_touch_empty.
  - unfold FlagHit. rewrite Et, Ef, Hq, (proj2 (Z.eqb_neq _ _) Hz), split_trusted_spec.
    rewrite decide_False by done. cbn [app]. rewrite <-(blamed_size e pks) by done.
    pose proof (λ pk, flag_counts now t e pks ihHex pk Et Hn Hpks Hroom) as Hc.
    cbn zeta in Hc. set (demote := filter _ pks) in *.
    split_and!; [done | done | |].
    + intros pk. specialize (Hc pk). destruct (Reputation.counters (records e) pk) as [[a b] c].
      rewrite <-Hc. unfold records. cbn [tracker Checkpoint]. clear.
      destruct (Z.ltb_spec 0 (len demote)) as [|Hd]; [done |].
      destruct demote as [|p d]; [done |]. rewrite len_cons in Hd. pose proof (len_nonneg d). lia.
    + intros now' io'. eapply flag_nobody; try done; by eapply (forgotten _ s).
Qed.

(** [C13] A user's verdict on a hit touches exactly the indexers the hit is
    attributed to.  A confirmation needs the known-good filter: without one
    nothing changes; with one the infohash tests positive afterwards and, when
    there is a reputation table, every attributed indexer and nobody else gains
    one confirmation.  A flag needs the table, and changes nothing while a
    configured trust list could not be loaded.  Otherwise every attributed
    indexer that is not trusted and nobody else gains one flag, the number
    reported is the number demoted, and the attribution is forgotten: flagging
    the hit again demotes nobody. *)
Theorem confirm_and_flag (now : Z) (io : checkpoint_io) (ih : array 20) (ihHex : bytes) (e : Engine)
    (Hwf : Sources.wf (sources e)) (Hih : ihHex ≠ [])
    (Hbloom : ∀ b, bloom e = Some b → Bloom.wf b)
    (Hroom : roomy (Z.of_nat (size (blamed e ihHex))) e) :
  (let '(e', (n, ok)) := ConfirmHit now io ih ihHex e in
   match bloom e with
   | None => e' = e ∧ (n, ok) = (0, false)
   | Some _ =>
     ok = true ∧ (∃ b, bloom e' = Some b ∧ Bloom.Test b (sl ih) = true) ∧
     (n = if decide (tracker e = None) then 0 else Z.of_nat (size (blamed e ihHex))) ∧
     (tracker e ≠ None → ∀ pk,
        let '(a, b, c) := Reputation.counters (records e) pk in
        Reputation.counters (records e') pk = (a, b + is_blamed e ihHex pk, c))
   end) ∧
  (let '(e', (r, ok)) := FlagHit now io ihHex e in
   if decide (tracker e = None) then e' = e ∧ ok = false
   else if trustFailed e then
     e' = e ∧ r = {| Flagged := 0; Attribution := TrustUnavailable |} ∧ ok = true
   else
     ok = true ∧
     Flagged r = Z.of_nat (size (filter (λ pk, trusted e pk = false) (blamed e ihHex))) ∧
     (∀ pk, let '(a, b, c) := Reputation.counters (records e) pk in
        Reputation.counters (records e') pk = (a, b, c + is_demoted e ihHex pk)) ∧
     (∀ now' io', snd (FlagHit now' io' ihHex e')
        = ({| Flagged := 0; Attribution := NoAttribution |}, true) ∧
        records (fst (FlagHit now' io' ihHex e')) = records e')).
Proof. split; [by apply confirm_ok | by apply flag_ok]. Qed.
End engine.

(** ** Example: a hit returned by two indexers, one of them trusted *)
Definition no_codec : Reputation.TrackerJson :=
  {| Reputation.json_encode := λ _, []; Reputation.json_decode := λ _, None |}.

Definition quiet : checkpoint_io := {|
  bloom_io := Files.no_failure; bloom_tmp := str "b.tmp";
  tracker_io := Files.no_failure; tracker_tmp := str "t.tmp"
|}.

Definition sample : Engine := {|
  bloom := Some {| Bloom.bits := [0; 0]; Bloom.m := 100; Bloom.k := 3; Bloom.path := [] |};
  tracker := Some {| Reputation.path := []; Reputation.Records := ∅ |};
  sources := foldl Sources.run (Sources.NewSourceTracker 2)
    [Sources.ORecord (str "AA") (str "p"); Sources.ORecord (str "aa") (str "q")];
  trust := Some {| Trust.path := [];
    Trust.entries := {[ str "p" := {| Trust.PubKeyHex := str "p"; Trust.Label := [] |} ]} |};
  trustFailed := false; files := ∅
|}.

Lemma sample_roomy : roomy 2 sample.
Proof. intros pk. unfold Reputation.counters, records. simpl. by rewrite lookup_empty. Qed.

Lemma sample_bloom b : bloom sample = Some b → Bloom.wf b.
Proof.
  intros [= <-]. unfold Bloom.wf. split_and!; try done. by repeat constructor.
Qed.

Lemma confirm_and_flag_witness :
  let e := fst (@FlagHit _ no_codec 5 quiet (str "Aa") sample) in
  Sources.wf (sources sample) ∧
  Reputation.counters (records e) (str "q") = (0, 0, 1) ∧
  Reputation.counters (records e) (str "p") = (0, 0, 0) ∧
  snd (@FlagHit _ no_codec 6 quiet (str "Aa") e)
    = ({| Flagged := 0; Attribution := NoAttribution |}, true).
Proof.
  intros e.
  assert (Hwf : Sources.wf (sources sample)).
  { apply (Sources.run_all [Sources.ORecord (str "AA") (str "p"); Sources.ORecord (str "aa") (str "q")]).
    apply Sources.NewSourceTracker_wf. }
  destruct (@confirm_and_flag _ no_codec 5 quiet (vreplicate 20 x00) (str "Aa") sample Hwf
    ltac:(done) sample_bloom sample_roomy) as [_ Hf].
  subst e. destruct (FlagHit 5 quiet (str "Aa") sample) as [e' [r ok]].
  destruct Hf as (_ & _ & Hc & Hs). cbn [fst]. split_and!; [exact Hwf | | | apply Hs].
  - exact (Hc (str "q")).
  - exact (Hc (str "p")).
Defined.
End SpamResistance.
