(* ===== verification/Misbehavior.v ===== *)
(** * Discouraging misbehaving peers (internal/swarmsearch/misbehavior.go, ratelimit.go)

    The two per-peer defences of the sn_search protocol: the ban manager, which
    accumulates points and bans for a day, and the token bucket on inbound
    queries.  Both hold one map from addresses; the clock is an argument, read
    where the code reads it. *)

From Stdlib Require Import SpecFloat.
From S2P Require Import Prelude GoInt GoFloat.
Open Scope Z_scope.

Module Misbehavior.
Import GoFloat.

Definition ScoreBadBencode : Z := 20.
Definition ScoreBadRecordSig : Z := 20.
Definition ScoreMalformedResult : Z := 10.
Definition ScoreStaleTxID : Z := 10.
Definition ScoreUnexpectedMessage : Z := 10.
Definition ScoreRateLimited : Z := 5.
Definition ScoreQueryTooBroad : Z := 5.

Definition BanThreshold : Z := 100.
Definition BanDuration : Z := 24 * Hour.

(** ** The ban manager *)
Record banEntry := { score : Z; bannedUntil : Z }.
Abbreviation banman := (gmap bytes banEntry).
Definition newBanman : banman := ∅.
Definition newEntry : banEntry := {| score := 0; bannedUntil := 0 |}.

Definition Add (now : Z) (addr : bytes) (pts : Z) (b : banman) : banman * bool :=
  if pts <=? 0 then (b, false)
  else
    let e := default newEntry (b !! addr) in
    let score' := i64 (score e + pts) in
    if (BanThreshold <=? score') && (bannedUntil e =? 0)
    then (<[addr := {| score := score'; bannedUntil := now + BanDuration |}]> b, true)
    else (<[addr := {| score := score'; bannedUntil := bannedUntil e |}]> b, false).

Definition IsBanned (now : Z) (addr : bytes) (b : banman) : banman * bool :=
  match b !! addr with
  | None => (b, false)
  | Some e =>
    if bannedUntil e =? 0 then (b, false)
    else if now <? bannedUntil e then (b, true)
    else (<[addr := newEntry]> b, false)
  end.

Definition Score (addr : bytes) (b : banman) : Z :=
  match b !! addr with Some e => score e | None => 0 end.

Definition Forget (addr : bytes) (b : banman) : banman :=
  match b !! addr with
  | Some e => if bannedUntil e =? 0 then delete addr b else b
  | None => b
  end.

(** ** The token bucket *)
Record RateLimit := { QueriesPerSecond : float64; Burst : Z }.
Definition DefaultRateLimit : RateLimit := {| QueriesPerSecond := of_int 5; Burst := 10 |}.

Record bucket := { tokens : float64; last : Z }.
Record rateLimiter := { cfg : RateLimit; buckets : gmap bytes bucket }.
Definition newRateLimiter (cfg : RateLimit) : rateLimiter := {| cfg := cfg; buckets := ∅ |}.

(** [Duration.Seconds]. *)
Definition Seconds (d : Z) : float64 :=
  fadd (of_int (Z.quot d Second)) (fdiv (of_int (Z.rem d Second)) (of_int Second)).

(** The bucket a call finds: a full one, or the old one refilled. *)
Definition refill (now : Z) (c : RateLimit) (b : option bucket) : bucket :=
  match b with
  | None => {| tokens := of_int (Burst c); last := now |}
  | Some b =>
    let elapsed := Seconds (time_sub now (last b)) in
    if flt (of_int 0) elapsed then
      let t := fadd (tokens b) (fmul elapsed (QueriesPerSecond c)) in
      {| tokens := if flt (of_int (Burst c)) t then of_int (Burst c) else t; last := now |}
    else b
  end.

Definition Allow (now : Z) (addr : bytes) (r : rateLimiter) : rateLimiter * bool :=
  if fle (QueriesPerSecond (cfg r)) (of_int 0) || (Burst (cfg r) <=? 0) then (r, true)
  else
    let b := refill now (cfg r) (buckets r !! addr) in
    let (b, ok) := if fle (of_int 1) (tokens b)
                   then ({| tokens := fsub (tokens b) (of_int 1); last := last b |}, true)
                   else (b, false) in
    ({| cfg := cfg r; buckets := <[addr := b]> (buckets r) |}, ok).

Definition setConfig (c : RateLimit) (r : rateLimiter) : rateLimiter :=
  {| cfg := c; buckets := buckets r |}.

Definition forget (addr : bytes) (r : rateLimiter) : rateLimiter :=
  {| cfg := cfg r; buckets := delete addr (buckets r) |}.

(** ** A history of charges

    [l] lists the charges against one address, each with its time. *)
Definition charges (addr : bytes) (l : list (Z * Z)) (b : banman) : banman :=
  foldl (λ b c, fst (Add c.1 addr c.2 b)) b l.
Definition total (l : list (Z * Z)) : Z := foldr (λ c, Z.add c.2) 0 l.
Definition charge_ok (c : Z * Z) : Prop := 0 < c.1 ∧ 0 < c.2.

(** When the charges reach the threshold, [0] while they do not. *)
Fixpoint ban_end (s : Z) (l : list (Z * Z)) : Z :=
  match l with
  | [] => 0
  | (t, p) :: l => if BanThreshold <=? s + p then t + BanDuration else ban_end (s + p) l
  end.

Lemma total_app l k : total (l ++ k) = total l + total k.
Proof. unfold total. induction l as [|c l IH]; simpl; lia. Qed.

Lemma total_nonneg l : Forall charge_ok l → 0 ≤ total l.
Proof. induction 1 as [|c l [_ Hc] Hl IH]; unfold total in *; simpl; lia. Qed.

Lemma charges_app addr l k b : charges addr (l ++ k) b = charges addr k (charges addr l b).
Proof. apply foldl_app. Qed.

Lemma Add_other now addr pts b addr' :
  addr' ≠ addr → fst (Add now addr pts b) !! addr' = b !! addr'.
Proof.
  intros Hne. unfold Add. destruct (pts <=? 0); [done |].
  destruct (_ && _); cbn [fst]; by rewrite lookup_insert_ne.
Qed.

Lemma charges_other addr l b addr' : addr' ≠ addr → charges addr l b !! addr' = b !! addr'.
Proof.
  intros Hne. revert b. induction l as [|c l IH]; intros b; [done |]. cbn [charges foldl].
  etrans; [apply IH | by apply Add_other].
Qed.

(** A charge against a peer that is not banned. *)
Lemma Add_clean now addr pts b s :
  0 < pts → 0 ≤ s → s + pts < 2 ^ 63 →
  default newEntry (b !! addr) = {| score := s; bannedUntil := 0 |} →
  Add now addr pts b
  = (<[addr := {| score := s + pts;
                  bannedUntil := if BanThreshold <=? s + pts then now + BanDuration else 0 |}]> b,
     BanThreshold <=? s + pts).
Proof.
  intros Hp Hs Hb He. unfold Add. rewrite (proj2 (Z.leb_gt pts 0)) by lia. rewrite He.
  cbn [score bannedUntil]. rewrite i64_small by (unfold is_i64; lia).
  by destruct (BanThreshold <=? s + pts).
Qed.

(** A charge against a banned peer. *)
Lemma Add_banned now addr pts b e :
  0 < pts → 0 ≤ score e → score e + pts < 2 ^ 63 → bannedUntil e ≠ 0 → b !! addr = Some e →
  Add now addr pts b
  = (<[addr := {| score := score e + pts; bannedUntil := bannedUntil e |}]> b, false).
Proof.
  intros Hp Hs Hb Hu He. unfold Add. rewrite (proj2 (Z.leb_gt pts 0)) by lia. rewrite He.
  cbn [default]. unfold from_option, id. rewrite i64_small by (unfold is_i64; lia).
  by rewrite (proj2 (Z.eqb_neq _ _) Hu), andb_false_r.
Qed.

Lemma charges_banned addr l b e :
  Forall charge_ok l → 0 ≤ score e → score e + total l < 2 ^ 63 → bannedUntil e ≠ 0 →
  b !! addr = Some e →
  charges addr l b !! addr
  = Some {| score := score e + total l; bannedUntil := bannedUntil e |}.
Proof.
  intros Hl. revert b e. induction Hl as [|[t p] l [_ Hp] Hl IH]; intros b e Hs Hb Hu He.
  { simpl. rewrite He. unfold total. simpl. rewrite Z.add_0_r. by destruct e. }
  pose proof (total_nonneg l Hl).
  change (charges addr ((t, p) :: l) b) with (charges addr l (fst (Add t addr p b))).
  cbn [total foldr fst snd] in *. fold (total l) in *.
  rewrite (Add_banned t addr p b e) by (lia || done). cbn [fst].
  erewrite IH; [| | | |apply lookup_insert_eq]; cbn [score bannedUntil]; [|lia|lia|done].
  by rewrite <-Z.add_assoc.
Qed.

Lemma charges_clean addr l b s :
  Forall charge_ok l → 0 ≤ s < BanThreshold → s + total l < 2 ^ 63 →
  default newEntry (b !! addr) = {| score := s; bannedUntil := 0 |} →
  default newEntry (charges addr l b !! addr)
  = {| score := s + total l; bannedUntil := ban_end s l |}.
Proof.
  intros Hl. revert b s. induction Hl as [|[t p] l [Ht Hp] Hl IH]; intros b s Hs Hb He.
  { simpl. rewrite He. unfold total. simpl. by rewrite Z.add_0_r. }
  pose proof (total_nonneg l Hl). cbn [ban_end].
  change (charges addr ((t, p) :: l) b) with (charges addr l (fst (Add t addr p b))).
  cbn [total foldr fst snd] in *. fold (total l) in *.
  rewrite (Add_clean t addr p b s) by (lia || done). cbn [fst].
  rewrite Z.add_assoc. destruct (Z.leb_spec BanThreshold (s + p)).
  - erewrite charges_banned; [| done | | | |apply lookup_insert_eq]; cbn [score bannedUntil];
      [done | lia | lia |]. unfold BanDuration, Hour, Minute, Second. lia.
  - apply IH; [lia | lia |]. by rewrite lookup_insert_eq.
Qed.

Lemma ban_end_0 s l :
  Forall charge_ok l → s + total l < BanThreshold → ban_end s l = 0.
Proof.
  intros Hl. revert s. induction Hl as [|[t p] l [_ Hp] Hl IH]; intros s Hs; [done |].
  pose proof (total_nonneg l Hl). unfold total in *. simpl in *.
  destruct (Z.leb_spec BanThreshold (s + p)); [lia |]. apply IH. lia.
Qed.

Lemma ban_end_cross s l1 t p l2 :
  Forall charge_ok l1 → s + total l1 < BanThreshold → BanThreshold ≤ s + total l1 + p →
  ban_end s (l1 ++ (t, p) :: l2) = t + BanDuration.
Proof.
  intros Hl. revert s. induction Hl as [|[t' p'] l1 [_ Hp] Hl IH]; intros s Hs Hc; simpl in *.
  - unfold total in Hc. simpl in Hc. destruct (Z.leb_spec BanThreshold (s + p)); [done | lia].
  - pose proof (total_nonneg l1 Hl). unfold total in *. simpl in *.
    destruct (Z.leb_spec BanThreshold (s + p')); [lia |]. apply IH; lia.
Qed.

Lemma ban_end_neq s l :
  Forall charge_ok l → 0 ≤ s < BanThreshold → BanThreshold ≤ s + total l → ban_end s l ≠ 0.
Proof.
  intros Hl. revert s. induction Hl as [|[t p] l [Ht Hp] Hl IH]; intros s Hs Hc; simpl in *; [lia |].
  destruct (Z.leb_spec BanThreshold (s + p)).
  - unfold BanDuration, Hour, Minute, Second. lia.
  - apply IH; lia.
Qed.

Lemma charges_entry addr l b :
  Forall charge_ok l → total l < 2 ^ 63 → b !! addr = None → l ≠ [] →
  charges addr l b !! addr = Some {| score := total l; bannedUntil := ban_end 0 l |}.
Proof.
  intros Hl Ht Hb Hne.
  pose proof (charges_clean addr l b 0 Hl ltac:(done) ltac:(lia) ltac:(by rewrite Hb)) as Hc.
  rewrite Z.add_0_l in Hc.
  assert (Hs : is_Some (charges addr l b !! addr)).
  { destruct (exists_last Hne) as (l1 & [t p] & ->). apply Forall_app in Hl as [_ Hp].
    apply Forall_cons in Hp as [[_ Hp] _]. rewrite charges_app. unfold charges at 1. simpl in *.
    unfold Add. rewrite (proj2 (Z.leb_gt p 0)) by lia. destruct (_ && _); cbn [fst];
      rewrite lookup_insert_eq; by eexists. }
  destruct Hs as [e He]. rewrite He in *. f_equal. exact Hc.
Qed.

Lemma charge_answer addr l1 t p b :
  Forall charge_ok (l1 ++ [(t, p)]) → total (l1 ++ [(t, p)]) < 2 ^ 63 → b !! addr = None →
  snd (Add t addr p (charges addr l1 b))
  = (total l1 <? BanThreshold) && (BanThreshold <=? total l1 + p).
Proof.
  intros [Hl Hp]%Forall_app Ht Hb. apply Forall_cons in Hp as [[_ Hp] _]. simpl in Hp.
  rewrite total_app in Ht. change (total [(t, p)]) with (p + 0) in Ht.
  pose proof (total_nonneg l1 Hl) as Hn.
  destruct (decide (total l1 < BanThreshold)) as [Hlt|Hge].
  - rewrite (proj2 (Z.ltb_lt _ _) Hlt).
    pose proof (charges_clean addr l1 b 0 Hl ltac:(done) ltac:(lia) ltac:(by rewrite Hb)) as Hc.
    rewrite ban_end_0, Z.add_0_l in Hc by (done || lia).
    by rewrite (Add_clean t addr p _ (total l1)) by (lia || done).
  - rewrite (proj2 (Z.ltb_ge _ _)) by lia. simpl.
    assert (Hne : l1 ≠ []) by (intros ->; by apply Hge).
    pose proof (charges_entry addr l1 b Hl ltac:(lia) Hb Hne) as He.
    unfold Add. rewrite (proj2 (Z.leb_gt p 0)), He by lia. cbn [default bannedUntil].
    rewrite andb_comm, (proj2 (Z.eqb_neq _ _)); [done |].
    apply ban_end_neq; [done | done | lia].
Qed.

(** [C14] A ban needs a hundred points and lasts a day.  Charges against a peer
    without history add up; exactly the charge that brings the sum to the
    threshold reports a fresh ban, which then holds for 24 hours from that
    charge: later charges do not prolong it, a disconnection does not lift it,
    and a look-up after its end gives the peer a clean slate.  Below the
    threshold the peer is never banned and a disconnection forgets it.  No other
    peer's record is touched. *)
Theorem ban_lifecycle (addr : bytes) (l : list (Z * Z)) (b : banman)
    (Hl : Forall charge_ok l) (Hsum : total l < 2 ^ 63) (Hfresh : b !! addr = None) :
  let b' := charges addr l b in
  Score addr b' = total l ∧
  (∀ l1 t p l2, l = l1 ++ (t, p) :: l2 →
     snd (Add t addr p (charges addr l1 b))
     = (total l1 <? BanThreshold) && (BanThreshold <=? total l1 + p)) ∧
  (total l < BanThreshold → ∀ now, IsBanned now addr b' = (b', false) ∧ Forget addr b' !! addr = None) ∧
  (∀ l1 t p l2, l = l1 ++ (t, p) :: l2 → total l1 < BanThreshold → BanThreshold ≤ total l1 + p →
     Forget addr b' = b' ∧
     ∀ now, IsBanned now addr b' = if now <? t + BanDuration then (b', true)
                                   else (<[addr := newEntry]> b', false)) ∧
  (∀ addr', addr' ≠ addr → b' !! addr' = b !! addr').
Proof.
  intros b'. assert (Hentry : l ≠ [] → b' !! addr = Some {| score := total l; bannedUntil := ban_end 0 l |})
    by by apply charges_entry.
  split_and!.
  - unfold Score. destruct (decide (l = [])) as [->|Hne]; [|by rewrite Hentry].
    unfold b'. simpl. by rewrite Hfresh.
  - intros l1 t p l2 ->. change ((t, p) :: l2) with ([(t, p)] ++ l2) in *. rewrite app_assoc in *.
    apply charge_answer; [by apply Forall_app in Hl as [? _] | | done].
    apply Forall_app in Hl as [_ Hl]. rewrite total_app in Hsum. pose proof (total_nonneg l2 Hl). lia.
  - intros Ht now. destruct (decide (l = [])) as [->|Hne].
    { unfold b', IsBanned, Forget. simpl. by rewrite Hfresh. }
    rewrite ban_end_0 in Hentry by (done || lia). unfold IsBanned, Forget. rewrite Hentry by done.
    simpl. by rewrite lookup_delete_eq.
  - intros l1 t p l2 -> H1 H2. apply Forall_app in Hl as [Hl1 Hl2].
    apply Forall_cons in Hl2 as [[Ht _] _]. simpl in Ht.
    rewrite ban_end_cross in Hentry by (done || lia). unfold IsBanned, Forget.
    rewrite Hentry by (by destruct l1). cbn [bannedUntil].
    rewrite (proj2 (Z.eqb_neq _ _)); [done |]. unfold BanDuration, Hour, Minute, Second. lia.
  - intros addr' Hne. by apply charges_other.
Qed.

(** ** Bursts *)
Definition enabled (c : RateLimit) : bool :=
  negb (fle (QueriesPerSecond c) (of_int 0) || (Burst c <=? 0)).

(** The answers to [n] queries of one peer at one instant. *)
Fixpoint answers (n : nat) (now : Z) (addr : bytes) (r : rateLimiter) : list bool :=
  match n with
  | O => []
  | S n => let '(r, ok) := Allow now addr r in ok :: answers n now addr r
  end.

(** The bucket sizes for which the arithmetic is checked below. *)
Definition small_bursts : list Z := seqZ 1 256.

#[export] Instance float_dec : EqDecision float64. Proof. solve_decision. Defined.

(** Taking a token from a whole number of tokens. *)
Lemma take_token :
  Forall (λ k, fle (of_int 1) (of_int k) = true ∧ fsub (of_int k) (of_int 1) = of_int (k - 1))
    small_bursts.
Proof. apply (bool_decide_unpack _). vm_compute. reflexivity. Qed.

Lemma Allow_spec now addr r :
  enabled (cfg r) = true →
  Allow now addr r
  = (let b := refill now (cfg r) (buckets r !! addr) in
     let ok := fle (of_int 1) (tokens b) in
     ({| cfg := cfg r;
         buckets := <[addr := if ok then {| tokens := fsub (tokens b) (of_int 1); last := last b |}
                              else b]> (buckets r) |}, ok)).
Proof.
  unfold enabled, Allow. intros ->%negb_true_iff. cbv zeta. by destruct (fle (of_int 1) (tokens _)).
Qed.

Lemma refill_again now c b : refill now c (Some (refill now c b)) = refill now c b.
Proof.
  assert (Hz : flt (of_int 0) (Seconds (time_sub now now)) = false).
  { unfold time_sub. by rewrite Z.sub_diag. }
  destruct b as [b|]; cbn [refill].
  - destruct (flt (of_int 0) (Seconds (time_sub now (last b)))) eqn:E; cbn [last].
    + by rewrite Hz.
    + by rewrite E.
  - cbn [last]. by rewrite Hz.
Qed.

Lemma answers_drain n k now addr r b :
  enabled (cfg r) = true → 0 ≤ k ≤ 256 →
  refill now (cfg r) (buckets r !! addr) = {| tokens := of_int k; last := b |} →
  last (refill now (cfg r) (buckets r !! addr)) = now →
  answers n now addr r = replicate (min n (Z.to_nat k)) true ++ replicate (n - Z.to_nat k) false.
Proof.
  intros He. revert k r b He. induction n as [|n IH]; intros k r b He Hk Hr Hl; [done |].
  cbn [answers]. rewrite Allow_spec by done. cbv zeta. rewrite Hr in *. simpl in Hl. subst b.
  cbn [tokens last]. destruct (decide (k = 0)) as [->|Hne].
  - change (fle (of_int 1) (of_int 0)) with false. cbn iota.
    change (answers n now addr ?r') with (answers n now addr r').
    erewrite (IH 0); [by rewrite !Nat.min_0_r, !Nat.sub_0_r | done | lia | |];
      cbn [cfg buckets]; rewrite lookup_insert_eq, <-Hr, refill_again, Hr; done.
  - destruct (proj1 (list.Forall_forall _ _) take_token k) as [H1 H2]; [apply elem_of_seqZ; lia |].
    rewrite H1, H2. cbn iota.
    assert (Hs : Z.to_nat k = S (Z.to_nat (k - 1))) by lia. rewrite Hs. cbn [Nat.min replicate app Nat.sub].
    f_equal. eapply IH; [done | lia | |]; cbn [cfg buckets]; rewrite lookup_insert_eq; cbn [refill last];
      unfold time_sub; rewrite Z.sub_diag; done.
Qed.

(** The query rate limit.  A limiter without a rate or a burst admits
    everything and keeps no state.  Otherwise a query is admitted exactly when
    the bucket holds a token; a refill never fills the bucket above its burst; a
    refused query changes nothing, so repeating it at the same instant is refused
    again; only the sender's own bucket is touched.  A peer seen for the first
    time, or again after a disconnection, gets exactly its burst at one instant,
    for every burst up to 256. *)
Lemma rate_limit (now : Z) (addr : bytes) (r : rateLimiter) :
  (enabled (cfg r) = false → Allow now addr r = (r, true)) ∧
  (enabled (cfg r) = true →
   let b := refill now (cfg r) (buckets r !! addr) in
   let '(r', ok) := Allow now addr r in
   ok = fle (of_int 1) (tokens b) ∧
   (buckets r !! addr ≠ Some b → flt (of_int (Burst (cfg r))) (tokens b) = false) ∧
   (ok = false → Allow now addr r' = (r', false)) ∧
   cfg r' = cfg r ∧ (∀ addr', addr' ≠ addr → buckets r' !! addr' = buckets r !! addr')) ∧
  (∀ n, enabled (cfg r) = true → Burst (cfg r) ≤ 256 →
   answers n now addr (forget addr r)
   = replicate (min n (Z.to_nat (Burst (cfg r)))) true
     ++ replicate (n - Z.to_nat (Burst (cfg r))) false).
Proof.
  split_and!.
  - unfold enabled, Allow. by intros ->%negb_false_iff.
  - intros He b. rewrite Allow_spec by done. fold b. cbv zeta. split_and!; [done | | | done |].
    + intros Hb. subst b. unfold refill in *. destruct (buckets r !! addr) as [b|]; cbn [tokens] in *.
      * destruct (flt (of_int 0) _); [|done]. cbn [tokens].
        destruct (flt (of_int (Burst (cfg r))) _) eqn:E; [apply flt_irrefl | exact E].
      * apply flt_irrefl.
    + intros Hok. rewrite Hok, Allow_spec by done. cbv zeta. cbn [cfg buckets].
      rewrite lookup_insert_eq. subst b. rewrite refill_again, Hok. by rewrite insert_insert_eq.
    + intros addr' Hne. cbn [buckets]. by rewrite lookup_insert_ne.
  - intros n He Hb. unfold forget. apply answers_drain with (b := now); cbn [cfg buckets]; try done.
    + unfold enabled in He. apply negb_true_iff, orb_false_iff in He as [_ He%Z.leb_gt]. lia.
    + by rewrite lookup_delete_eq.
    + by rewrite lookup_delete_eq.
Qed.

(** ** Examples *)
Lemma ban_lifecycle_witness :
  let l := [(10, 60); (20, 35); (30, 20); (40, 20)] in
  let b := charges (str "a") l ∅ in
  Forall charge_ok l ∧ Score (str "a") b = 135 ∧
  IsBanned (30 + BanDuration - 1) (str "a") b = (b, true) ∧
  snd (IsBanned (30 + BanDuration) (str "a") b) = false.
Proof.
  intros l b. assert (Hl : Forall charge_ok l) by (repeat constructor).
  destruct (ban_lifecycle (str "a") l ∅ Hl eq_refl (lookup_empty _)) as (Hs & _ & _ & Hb & _).
  destruct (Hb [(10, 60); (20, 35)] 30 20 [(40, 20)] eq_refl eq_refl ltac:(done)) as [_ Hn].
  split_and!; [exact Hl | exact Hs | exact (Hn _) |]. unfold b. rewrite Hn. reflexivity.
Defined.

Lemma rate_limit_witness :
  answers 12 7 (str "a") (newRateLimiter DefaultRateLimit)
  = [true; true; true; true; true; true; true; true; true; true; false; false] ∧
  enabled DefaultRateLimit = true.
Proof.
  destruct (rate_limit 7 (str "a") (newRateLimiter DefaultRateLimit)) as (_ & _ & Ha).
  specialize (Ha 12%nat eq_refl ltac:(done)). split; [exact Ha | reflexivity].
Defined.
End Misbehavior.
