(* ===== verification/RecordCache.v ===== *)
(** * The record cache (internal/swarmsearch/records.go)

    The bounded store of signed records a node reconciles against: a map by
    element identity and a queue of identities in insertion order, which may hold
    stale entries.  The specification is one list of records, oldest first. *)

From S2P Require Import Prelude GoInt Sha256 Record LtepSync.
Open Scope Z_scope.

Module RecordCache.
Import Record.

Abbreviation LocalRecord := Record.Record.
Abbreviation id := (array 32).

(** A Go [map] from identities; its iteration order is [map_to_list]'s. *)
Record RecordCache := { m : gmap id LocalRecord; order : list id; max : Z }.
Definition NewRecordCache : RecordCache := {| m := ∅; order := []; max := 0 |}.

Definition SetMaxRecords (n : Z) (c : RecordCache) : RecordCache :=
  {| m := m c; order := order c; max := n |}.
Definition MaxRecords (c : RecordCache) : Z := max c.
Definition Len (c : RecordCache) : Z := Z.of_nat (size (m c)).

(** The eviction loop of [Add]. *)
Fixpoint evict (mp : gmap id LocalRecord) (order : list id) : gmap id LocalRecord * list id :=
  match order with
  | [] => (mp, [])
  | head :: order =>
    match mp !! head with
    | Some _ => (delete head mp, order)
    | None => evict mp order
    end
  end.

Definition Add (r : LocalRecord) (c : RecordCache) : RecordCache :=
  let id := ElementID r in
  match m c !! id with
  | Some _ => {| m := <[id := r]> (m c); order := order c; max := max c |}
  | None =>
    let '(mp, order) :=
      if (0 <? max c) && (max c <=? Len c) then evict (m c) (order c) else (m c, order c) in
    {| m := <[id := r]> mp; order := order ++ [id]; max := max c |}
  end.

Definition Get (i : id) (c : RecordCache) : option LocalRecord := m c !! i.

Definition Remove (i : id) (c : RecordCache) : RecordCache :=
  {| m := delete i (m c); order := order c; max := max c |}.

Definition live (mp : gmap id LocalRecord) (i : id) : Prop := is_Some (mp !! i).

Definition PruneOlderThan (cutoff : Z) (c : RecordCache) : RecordCache * Z :=
  let n := Z.of_nat (size (filter (λ p : id * LocalRecord, T p.2 < cutoff) (m c))) in
  let mp := filter (λ p : id * LocalRecord, ¬ T p.2 < cutoff) (m c) in
  ({| m := mp; order := if 0 <? n then filter (live mp) (order c) else order c; max := max c |}, n).

Definition Snapshot (c : RecordCache) : list LocalRecord := snd <$> map_to_list (m c).

Definition matchFilter (r : LocalRecord) (f : LtepSync.SyncFilter) : bool :=
  if (0 <? len (LtepSync.Pubkeys f))
     && negb (existsb (λ pk, (len pk =? 32) && bool_decide (copy_arr 32 pk = Pk r)) (LtepSync.Pubkeys f))
  then false
  else if (0 <? LtepSync.Since f) && (T r <? LtepSync.Since f) then false
  else if negb (bool_decide (LtepSync.Prefix f = [])) && negb (has_prefix (Kw r) (LtepSync.Prefix f))
  then false
  else true.

Definition LocalRecords (f : LtepSync.SyncFilter) (c : RecordCache) : list LocalRecord :=
  filter (λ r, matchFilter r f = true) (Snapshot c).

(** The size the budgets count. *)
Definition syncRecordWireSize (r : LocalRecord) : Z := 32 + len (Kw r) + 20 + 8 + 8 + 64.

(** ** Specification: the records, oldest first *)
Abbreviation fifo := (list LocalRecord).

Definition same_id (r x : LocalRecord) : bool := bool_decide (ElementID x = ElementID r).
Definition fifo_add (max : Z) (r : LocalRecord) (q : fifo) : fifo :=
  if existsb (same_id r) q then (λ x, if same_id r x then r else x) <$> q
  else (if (0 <? max) && (max <=? len q) then tail q else q) ++ [r].
Definition fifo_remove (i : id) (q : fifo) : fifo := filter (λ x, ElementID x ≠ i) q.
Definition fifo_prune (cutoff : Z) (q : fifo) : fifo := filter (λ x, ¬ T x < cutoff) q.

Definition queue (mp : gmap id LocalRecord) (l : list id) : fifo := omap (λ i, mp !! i) l.
Definition abs (c : RecordCache) : fifo := queue (m c) (order c).

(** ** Invariant

    Records are filed under their identity and their identity is queued.
    [clean]: besides, no identity is queued twice. *)
Definition wf (c : RecordCache) : Prop :=
  map_Forall (λ i r, ElementID r = i ∧ i ∈ order c) (m c).
Definition clean (c : RecordCache) : Prop := wf c ∧ NoDup (order c).

Section fifo.
Implicit Types (c : RecordCache) (r : LocalRecord) (l : list id) (mp : gmap id LocalRecord).

Definition filed mp : Prop := map_Forall (λ i r, ElementID r = i) mp.
Lemma wf_filed c : wf c → filed (m c).
Proof. intros Hwf i r Hi. by destruct (Hwf i r Hi). Qed.

Lemma queue_cons mp i l :
  queue mp (i :: l) = match mp !! i with Some r => r :: queue mp l | None => queue mp l end.
Proof. done. Qed.

Lemma queue_app mp l k : queue mp (l ++ k) = queue mp l ++ queue mp k.
Proof. apply omap_app. Qed.

Lemma queue_ext mp mp' l : (∀ i, i ∈ l → mp !! i = mp' !! i) → queue mp l = queue mp' l.
Proof.
  induction l as [|i l IH]; intros Hf; [done |]. rewrite !queue_cons, Hf by (by left).
  by rewrite IH by (intros; apply Hf; by right).
Qed.

Lemma elem_of_queue mp l r : filed mp → r ∈ queue mp l ↔ ElementID r ∈ l ∧ mp !! ElementID r = Some r.
Proof.
  intros Hf. unfold queue. rewrite list_elem_of_omap. split.
  - intros (i & Hl & Hi). pose proof (Hf i r Hi) as Hr. simpl in Hr. by rewrite Hr.
  - intros [Hl Hr]. by exists (ElementID r).
Qed.

Lemma queue_NoDup mp l : filed mp → NoDup l → NoDup (ElementID <$> queue mp l).
Proof.
  intros Hf. induction 1 as [|i l Hi Hn IH]; [constructor |]. rewrite queue_cons.
  destruct (mp !! i) as [r|] eqn:E; [|done]. rewrite fmap_cons. constructor; [|done].
  pose proof (Hf i r E) as Hr. simpl in Hr. intros Hx.
  apply list_elem_of_fmap in Hx as (x & Hx & [Hin _]%elem_of_queue); [|done]. congruence.
Qed.

Lemma queue_insert_new mp l i r : (i ∉ l) → queue (<[i := r]> mp) l = queue mp l.
Proof. intros Hi. apply queue_ext. intros j Hj. rewrite lookup_insert_ne; [done |]. congruence. Qed.

Lemma queue_delete mp l i :
  filed mp → queue (delete i mp) l = filter (λ x, ElementID x ≠ i) (queue mp l).
Proof.
  intros Hf. induction l as [|j l IH]; [done |]. rewrite !queue_cons, IH.
  destruct (decide (j = i)) as [->|Hne].
  - rewrite lookup_delete_eq. destruct (mp !! i) as [r|] eqn:E; [|done].
    rewrite filter_cons_False; [done |]. pose proof (Hf i r E). tauto.
  - rewrite lookup_delete_ne by done. destruct (mp !! j) as [r|] eqn:E; [|done].
    rewrite filter_cons_True; [done |]. pose proof (Hf j r E) as Hr. simpl in Hr. congruence.
Qed.

Lemma queue_update mp l r :
  filed mp → live mp (ElementID r) →
  queue (<[ElementID r := r]> mp) l = (λ x, if same_id r x then r else x) <$> queue mp l.
Proof.
  intros Hf [r0 H0]. induction l as [|j l IH]; [done |]. rewrite !queue_cons, IH.
  destruct (decide (j = ElementID r)) as [->|Hne].
  - rewrite lookup_insert_eq, H0, fmap_cons. unfold same_id at 2.
    rewrite bool_decide_true; [done |]. exact (Hf _ _ H0).
  - rewrite lookup_insert_ne by done. destruct (mp !! j) as [x|] eqn:E; [|done].
    rewrite fmap_cons. unfold same_id at 2. rewrite bool_decide_false; [done |].
    pose proof (Hf j x E) as Hx. simpl in Hx. congruence.
Qed.

(** Eviction drops the oldest live record and the stale entries before it. *)
Lemma evict_keeps mp l :
  fst (evict mp l) ⊆ mp ∧ snd (evict mp l) ⊆ l ∧
  (∀ i, i ∈ l → live (fst (evict mp l)) i → i ∈ snd (evict mp l)).
Proof.
  induction l as [|i l IH]; cbn [evict]; [done |].
  destruct (mp !! i) as [r|] eqn:E; cbn [fst snd].
  - split_and!; [apply delete_subseteq | by apply list_subseteq_cons |].
    intros j [->|Hj]%elem_of_cons; [|done]. unfold live. rewrite lookup_delete_eq. by intros [].
  - destruct IH as (Hsub & ? & Hl). split_and!; [done | by apply list_subseteq_cons |].
    intros j [->|Hj]%elem_of_cons Hlive; [|by apply Hl]. exfalso. destruct Hlive as [x Hx].
    by rewrite (lookup_weaken _ _ _ _ Hx Hsub) in E.
Qed.

Lemma evict_queue mp l :
  filed mp → NoDup l →
  queue (fst (evict mp l)) (snd (evict mp l)) = tail (queue mp l) ∧ NoDup (snd (evict mp l)).
Proof.
  intros Hf Hn. induction Hn as [|i l Hi Hn IH]; cbn [evict]; [split; [done | constructor] |].
  rewrite queue_cons. destruct (mp !! i) as [r|] eqn:E; [|done]. split; [|done]. simpl.
  apply queue_ext. intros j Hj. apply lookup_delete_ne. congruence.
Qed.

Lemma evict_size mp l i :
  live mp i → i ∈ l → S (size (fst (evict mp l))) = size mp.
Proof.
  intros Hi. induction l as [|j l IH]; intros Hin; [by apply not_elem_of_nil in Hin |].
  cbn [evict]. destruct (mp !! j) as [r|] eqn:E.
  - simpl. rewrite map_size_delete_Some by (by exists r).
    assert (size mp ≠ 0%nat) by (apply map_size_ne_0_lookup; by exists j, r). lia.
  - apply IH. apply elem_of_cons in Hin as [->|]; [|done]. destruct Hi as [x Hx]. congruence.
Qed.

Lemma queue_filter_live mp l : queue mp (filter (live mp) l) = queue mp l.
Proof.
  induction l as [|i l IH]; [done |]. rewrite filter_cons, queue_cons.
  destruct (decide (live mp i)) as [[r Hr]|Hn].
  - by rewrite queue_cons, Hr, IH.
  - apply eq_None_not_Some in Hn. by rewrite Hn.
Qed.

Lemma queue_filter mp l (P : LocalRecord → Prop) `{∀ r, Decision (P r)} :
  queue (filter (λ p : id * LocalRecord, P p.2) mp) l = filter P (queue mp l).
Proof.
  induction l as [|i l IH]; [done |]. rewrite !queue_cons.
  destruct (mp !! i) as [r|] eqn:E.
  - rewrite filter_cons. destruct (decide (P r)) as [HP|HP].
    + assert (Hr : filter (λ p : id * LocalRecord, P p.2) mp !! i = Some r)
        by (by apply map_lookup_filter_Some). by rewrite Hr, IH.
    + destruct (filter _ mp !! i) as [x|] eqn:Ex; [|exact IH].
      apply map_lookup_filter_Some in Ex as [Ex HPx]. simpl in HPx. congruence.
  - destruct (filter _ mp !! i) as [x|] eqn:Ex; [|exact IH].
    apply map_lookup_filter_Some in Ex as [Ex _]. congruence.
Qed.

Lemma queue_length mp l :
  filed mp → NoDup l → (∀ i, live mp i → i ∈ l) → length (queue mp l) = size mp.
Proof.
  intros Hf Hn Hl. rewrite <-(size_dom mp), <-(length_fmap ElementID).
  rewrite <-(size_list_to_set (C:=gset id)) by by apply queue_NoDup.
  f_equal. apply set_eq. intros i. rewrite elem_of_list_to_set, elem_of_dom, list_elem_of_fmap. split.
  - intros (r & -> & [_ Hr]%elem_of_queue); [by exists r | done].
  - intros Hi. pose proof (Hl i Hi) as Hin. destruct Hi as [r Hr].
    pose proof (Hf i r Hr) as Hid. simpl in Hid. exists r. split; [done |].
    apply elem_of_queue; [done |]. by rewrite Hid.
Qed.

Lemma wf_live c i : wf c → live (m c) i → i ∈ order c.
Proof. intros Hwf [r Hr]. by destruct (Hwf i r Hr). Qed.

Lemma Len_abs c : clean c → Len c = len (abs c).
Proof.
  intros [Hwf Hn]. unfold Len, len, abs. f_equal. symmetry.
  apply queue_length; [by apply wf_filed | done |]. intros i. by apply wf_live.
Qed.

Lemma exists_live c r :
  clean c →
  existsb (same_id r) (abs c) = match m c !! ElementID r with Some _ => true | None => false end.
Proof.
  intros [Hwf Hn]. destruct (m c !! ElementID r) as [x|] eqn:E.
  - apply existsb_exists. pose proof (wf_filed c Hwf _ _ E) as Hid. simpl in Hid. exists x. split.
    + apply list_elem_of_In, elem_of_queue; [by apply wf_filed |]. rewrite Hid. split; [|done].
      apply wf_live; [done | by exists x].
    + unfold same_id. by apply bool_decide_eq_true.
  - apply not_true_iff_false. intros (x & Hx%list_elem_of_In & Hs)%existsb_exists.
    unfold same_id in Hs. apply bool_decide_eq_true in Hs.
    apply elem_of_queue in Hx as [_ Hx]; [|by apply wf_filed]. congruence.
Qed.

Lemma insert_wf mp l r mx :
  filed mp → (∀ i, live mp i → i ∈ l) → ElementID r ∈ l →
  wf {| m := <[ElementID r := r]> mp; order := l; max := mx |}.
Proof.
  intros Hf Hl Hr i x Hi. cbn [m order] in *. apply lookup_insert_Some in Hi as [[<- <-]|[_ Hi]]; [done |].
  split; [exact (Hf i x Hi) |]. apply Hl. by exists x.
Qed.

Lemma filed_subseteq mp mp' : filed mp → mp' ⊆ mp → filed mp'.
Proof. intros Hf Hs i r Hi. apply Hf. by eapply lookup_weaken. Qed.

Lemma Add_new_step mp l r mx :
  filed mp → NoDup l → (∀ i, live mp i → i ∈ l) → (ElementID r ∉ l) →
  let c := {| m := <[ElementID r := r]> mp; order := l ++ [ElementID r]; max := mx |} in
  clean c ∧ abs c = queue mp l ++ [r].
Proof.
  intros Hf Hn Hl Hr c. split; [split |].
  - apply insert_wf; [done | | set_solver]. intros i Hi. apply elem_of_app. left. by apply Hl.
  - apply NoDup_app. split_and!; [done | | apply NoDup_singleton]. intros x Hx ->%list_elem_of_singleton.
    by apply Hr.
  - unfold abs, c. cbn [m order]. rewrite queue_app, queue_insert_new by done.
    rewrite queue_cons, lookup_insert_eq. done.
Qed.

Lemma Add_fifo c r :
  clean c → (ElementID r ∈ order c → live (m c) (ElementID r)) →
  clean (Add r c) ∧ max (Add r c) = max c ∧ abs (Add r c) = fifo_add (max c) r (abs c).
Proof.
  intros Hc Hre. pose proof Hc as [Hwf Hn]. pose proof (wf_filed c Hwf) as Hf.
  unfold Add, fifo_add. rewrite exists_live, <-Len_abs by done.
  destruct (m c !! ElementID r) as [x|] eqn:E.
  { split_and!; [split; [|done] | done | apply queue_update; [done | by exists x]].
    assert (live (m c) (ElementID r)) as Hlive by (by exists x).
    apply insert_wf; [done | intros; by apply wf_live | by apply wf_live]. }
  assert (Hnot : ElementID r ∉ order c).
  { intros Hin. destruct (Hre Hin) as [y Hy]. congruence. }
  destruct ((0 <? max c) && (max c <=? Len c)).
  - destruct (evict_keeps (m c) (order c)) as (Hmp & Hsub & Hlive).
    destruct (evict_queue (m c) (order c) Hf Hn) as (Hq & Hnl).
    destruct (evict (m c) (order c)) as [mp l]. cbn [fst snd] in *.
    destruct (Add_new_step mp l r (max c)) as [Hcl Ha]; [by eapply filed_subseteq | done | | | ].
    + intros i Hi. apply Hlive; [|done]. apply wf_live; [done |].
      destruct Hi as [y Hy]. exists y. by eapply lookup_weaken.
    + intros Hin. by apply Hnot, Hsub.
    + split_and!; [done | done |]. by rewrite Ha, Hq.
  - destruct (Add_new_step (m c) (order c) r (max c)) as [Hcl Ha]; [done | done | | done |].
    + intros i. by apply wf_live.
    + by split_and!.
Qed.

Lemma Remove_fifo c i :
  clean c → clean (Remove i c) ∧ abs (Remove i c) = fifo_remove i (abs c).
Proof.
  intros [Hwf Hn]. split; [split; [|done] |].
  - intros j r Hj. cbn [m order Remove] in *. apply lookup_delete_Some in Hj as [_ Hj]. by apply Hwf.
  - apply queue_delete. by apply wf_filed.
Qed.

Lemma Prune_fifo c cutoff :
  clean c →
  let '(c', n) := PruneOlderThan cutoff c in
  clean c' ∧ abs c' = fifo_prune cutoff (abs c) ∧ max c' = max c ∧
  n = len (filter (λ x, T x < cutoff) (abs c)).
Proof.
  intros [Hwf Hn]. unfold PruneOlderThan. cbv zeta.
  set (gone := filter (λ p : id * LocalRecord, T p.2 < cutoff) (m c)).
  set (mp := filter (λ p : id * LocalRecord, ¬ T p.2 < cutoff) (m c)).
  assert (Hlive : ∀ i, live mp i → i ∈ order c).
  { intros i [x Hx]. apply map_lookup_filter_Some in Hx as [Hx _]. apply wf_live; [done | by exists x]. }
  assert (Hf : filed mp).
  { intros i x Hx. apply map_lookup_filter_Some in Hx as [Hx _]. by apply (wf_filed c Hwf). }
  set (l := if 0 <? Z.of_nat (size gone) then filter (live mp) (order c) else order c).
  assert (Hq : queue mp l = queue mp (order c)) by (unfold l; destruct (_ <? _); [apply queue_filter_live | done]).
  assert (Hnl : NoDup l) by (unfold l; destruct (_ <? _); [by apply NoDup_filter | done]).
  assert (Hll : ∀ i, live mp i → i ∈ l).
  { intros i Hi. unfold l. destruct (_ <? _); [apply list_elem_of_filter; split; [done |] |]; by apply Hlive. }
  split_and!; [split; [|done] | | done |].
  - intros i x Hx. cbn [m order] in *. split; [exact (Hf i x Hx) | apply Hll; by exists x].
  - unfold abs. cbn [m order]. rewrite Hq. unfold fifo_prune. exact (queue_filter (m c) (order c) (λ x, ¬ T x < cutoff)).
  - unfold abs. rewrite <-(queue_filter (m c) (order c) (λ x, T x < cutoff)). fold gone. unfold len. f_equal. symmetry. apply queue_length.
    + intros i x Hx. apply map_lookup_filter_Some in Hx as [Hx _]. by apply (wf_filed c Hwf).
    + done.
    + intros i [x Hx]. apply map_lookup_filter_Some in Hx as [Hx _]. apply wf_live; [done | by exists x].
Qed.


(** ** Any history *)
Lemma Add_any c r :
  wf c →
  wf (Add r c) ∧ m (Add r c) !! ElementID r = Some r ∧ max (Add r c) = max c ∧
  Len (Add r c) = match m c !! ElementID r with
                  | Some _ => Len c
                  | None => if (0 <? max c) && (max c <=? Len c) then Len c else Len c + 1
                  end.
Proof.
  intros Hwf. pose proof (wf_filed c Hwf) as Hf. unfold Add, Len.
  destruct (m c !! ElementID r) as [x|] eqn:E; cbn [m max].
  { split_and!; [| by rewrite lookup_insert_eq | done |].
    - apply insert_wf; [done | intros; by apply wf_live |]. apply wf_live; [done | by exists x].
    - rewrite map_size_insert_Some; [done | by exists x]. }
  assert (Hstep : ∀ mp l, mp ⊆ m c → (∀ i, live mp i → i ∈ l) →
    wf {| m := <[ElementID r := r]> mp; order := l ++ [ElementID r]; max := max c |} ∧
    size (<[ElementID r := r]> mp) = S (size mp)).
  { intros mp l Hsub Hl. split.
    - apply insert_wf; [by eapply filed_subseteq | | set_solver].
      intros i Hi. apply elem_of_app. left. by apply Hl.
    - apply map_size_insert_None. apply eq_None_not_Some. intros [y Hy].
      by rewrite (lookup_weaken _ _ _ _ Hy Hsub) in E. }
  destruct ((0 <? max c) && (max c <=? Z.of_nat (size (m c)))) eqn:Ecap.
  - destruct (evict_keeps (m c) (order c)) as (Hmp & Hsub & Hlive).
    assert (Hne : size (m c) ≠ 0%nat) by (apply andb_true_iff in Ecap as [?%Z.ltb_lt ?%Z.leb_le]; lia).
    apply map_size_ne_0_lookup in Hne as [i Hi].
    pose proof (evict_size (m c) (order c) i Hi (wf_live c i Hwf Hi)) as Hsz.
    destruct (evict (m c) (order c)) as [mp l]. cbn [fst snd m max] in *.
    destruct (Hstep mp l) as [Hw Hs]; [done | |].
    { intros j Hj. apply Hlive; [|done]. apply wf_live; [done |].
      destruct Hj as [y Hy]. exists y. by eapply lookup_weaken. }
    split_and!; [done | by rewrite lookup_insert_eq | done |]. rewrite Hs. lia.
  - destruct (Hstep (m c) (order c)) as [Hw Hs]; [done | intros; by apply wf_live |].
    cbn [m max]. split_and!; [done | by rewrite lookup_insert_eq | done |]. rewrite Hs. lia.
Qed.

Lemma Remove_any c i : wf c → wf (Remove i c).
Proof.
  intros Hwf j r Hj. cbn [m order Remove] in *. apply lookup_delete_Some in Hj as [_ Hj].
  by apply Hwf.
Qed.

Lemma Prune_wf c cutoff : wf c → wf (fst (PruneOlderThan cutoff c)).
Proof.
  intros Hwf i r Hi. unfold PruneOlderThan in *. cbn [m order fst] in *.
  pose proof Hi as [Hm _]%map_lookup_filter_Some. destruct (Hwf i r Hm) as [Hid Ho].
  split; [done |]. destruct (0 <? _); [|done]. apply list_elem_of_filter. split; [by exists r | done].
Qed.

(** ** Histories *)
Inductive op : Type :=
  | OAdd (r : LocalRecord)
  | ORemove (i : id)
  | OPrune (cutoff : Z)
  | OSetMax (n : Z).

Definition run c (o : op) : RecordCache :=
  match o with
  | OAdd r => Add r c
  | ORemove i => Remove i c
  | OPrune cutoff => fst (PruneOlderThan cutoff c)
  | OSetMax n => SetMaxRecords n c
  end.

Definition spec (s : Z * fifo) (o : op) : Z * fifo :=
  match o with
  | OAdd r => (s.1, fifo_add s.1 r s.2)
  | ORemove i => (s.1, fifo_remove i s.2)
  | OPrune cutoff => (s.1, fifo_prune cutoff s.2)
  | OSetMax n => (n, s.2)
  end.

(** No identity is added again after it was removed; [gone] are the removed
    ones. *)
Fixpoint no_readd (gone : list id) (ops : list op) : Prop :=
  match ops with
  | [] => True
  | OAdd r :: ops => (ElementID r ∉ gone) ∧ no_readd gone ops
  | ORemove i :: ops => no_readd (i :: gone) ops
  | _ :: ops => no_readd gone ops
  end.

Lemma run_wf c o : wf c → wf (run c o).
Proof.
  intros Hwf. destruct o; simpl; [by apply Add_any | by apply Remove_any | by apply Prune_wf | done].
Qed.

Lemma runs_wf ops c : wf c → wf (foldl run c ops).
Proof. revert c. induction ops as [|o ops IH]; intros c Hc; [done |]. simpl. by apply IH, run_wf. Qed.

(** The stale identities of the queue. *)
Definition stale_in (gone : list id) c : Prop := ∀ i, i ∈ order c → live (m c) i ∨ i ∈ gone.

Lemma evict_live mp l i :
  NoDup l → i ∈ snd (evict mp l) → live mp i → live (fst (evict mp l)) i.
Proof.
  induction 1 as [|j l Hj Hn IH]; cbn [evict]; [done |].
  destruct (mp !! j) as [r|]; cbn [fst snd]; [|done].
  intros Hi Hlive. unfold live. rewrite lookup_delete_ne; [done | congruence].
Qed.

Lemma Add_stale gone c r : clean c → stale_in gone c → stale_in gone (Add r c).
Proof.
  intros [Hwf Hn] Hs.
  assert (Hstep : ∀ i mp l, i ∈ l ++ [ElementID r] → (i ∈ l → live mp i ∨ i ∈ gone) →
    live (<[ElementID r := r]> mp) i ∨ i ∈ gone).
  { intros i mp l Hi Hlive. unfold live. rewrite lookup_insert.
    destruct (decide (ElementID r = i)) as [|Hne]; [left; by eexists |].
    apply Hlive. apply elem_of_app in Hi as [|Hi]; [done |].
    apply list_elem_of_singleton in Hi. congruence. }
  intros i Hi. unfold Add in *. destruct (m c !! ElementID r) as [x|] eqn:E; cbn [m order] in *.
  { unfold live. rewrite lookup_insert. destruct (decide _); [left; by eexists | by apply Hs]. }
  destruct (_ && _); [|apply (Hstep _ _ _ Hi), Hs].
  destruct (evict_keeps (m c) (order c)) as (_ & Hsub & _).
  pose proof (evict_live (m c) (order c) i Hn) as Hev.
  destruct (evict (m c) (order c)) as [mp l]. cbn [m order fst snd] in *. apply (Hstep _ _ _ Hi).
  intros Hl. destruct (Hs i (Hsub _ Hl)) as [Hlive|]; [left; by apply Hev | by right].
Qed.

Lemma Prune_stale gone c cutoff : stale_in gone c → stale_in gone (fst (PruneOlderThan cutoff c)).
Proof.
  intros Hs i Hi. unfold PruneOlderThan in *. cbn [m order fst] in *.
  destruct (Z.ltb_spec 0 (Z.of_nat (size (filter (λ p : id * LocalRecord, T p.2 < cutoff) (m c)))))
    as [|Hz]; [left; by apply list_elem_of_filter in Hi as [? _] |].
  destruct (Hs i Hi) as [[r Hr]|]; [left | by right]. exists r. apply map_lookup_filter_Some.
  split; [done |]. simpl. intros Hlt.
  assert (Hne : size (filter (λ p : id * LocalRecord, T p.2 < cutoff) (m c)) ≠ 0%nat).
  { apply map_size_ne_0_lookup. exists i, r. by apply map_lookup_filter_Some. }
  lia.
Qed.

Lemma runs_fifo ops gone c :
  clean c → stale_in gone c → no_readd gone ops →
  clean (foldl run c ops) ∧
  (max (foldl run c ops), abs (foldl run c ops)) = foldl spec (max c, abs c) ops.
Proof.
  revert gone c. induction ops as [|o ops IH]; intros gone c Hc Hs Hre; [done |].
  assert (Hstep : ∀ gone' c', clean c' → stale_in gone' c' → no_readd gone' ops →
    (max c', abs c') = spec (max c, abs c) o → run c o = c' →
    clean (foldl run c (o :: ops)) ∧
    (max (foldl run c (o :: ops)), abs (foldl run c (o :: ops))) = foldl spec (max c, abs c) (o :: ops)).
  { intros gone' c' Hc' Hs' Hre' He Hr. simpl. rewrite Hr, <-He. by eapply IH. }
  destruct o as [r|i|cutoff|n]; simpl in Hre.
  - destruct Hre as [Hr Hre]. destruct (Add_fifo c r Hc) as (Hc' & Hm & Ha).
    { intros Hin. by destruct (Hs _ Hin). }
    apply (Hstep gone (Add r c)); [done | by apply Add_stale | done | | done]. by rewrite Hm, Ha.
  - destruct (Remove_fifo c i Hc) as (Hc' & Ha).
    apply (Hstep (i :: gone) (Remove i c)); [done | | done | | done]; [|by rewrite Ha].
    intros j Hj. cbn [order m Remove] in *. unfold live. destruct (decide (j = i)) as [->|Hne].
    + right. by left.
    + rewrite lookup_delete_ne by done. destruct (Hs j Hj) as [|Hg]; [by left | right; by right].
  - pose proof (Prune_fifo c cutoff Hc) as Hp. pose proof (Prune_stale gone c cutoff Hs) as Hst.
    apply (Hstep gone (fst (PruneOlderThan cutoff c))); try done;
      destruct (PruneOlderThan cutoff c) as [c' n]; destruct Hp as (? & Ha & Hm & _); [done |].
    simpl. by rewrite Hm, Ha.
  - apply (Hstep gone (SetMaxRecords n c)); done.
Qed.

Lemma elem_of_LocalRecords f c r :
  clean c → r ∈ LocalRecords f c ↔ r ∈ abs c ∧ matchFilter r f = true.
Proof.
  intros [Hwf Hn]. unfold LocalRecords, Snapshot. pose proof (wf_filed c Hwf) as Hf.
  rewrite list_elem_of_filter, list_elem_of_fmap. unfold abs. rewrite elem_of_queue by done. split.
  - intros [Hm ([i x] & -> & Hi%elem_of_map_to_list)]. simpl in *.
    pose proof (Hf i x Hi) as Hid. simpl in Hid. rewrite Hid. split_and!; try done.
    apply wf_live; [done | by exists x].
  - intros [[_ Hr] Hm]. split; [done |]. exists (ElementID r, r). split; [done |].
    by apply elem_of_map_to_list.
Qed.

(** The cache is a bounded FIFO queue.  After any history, an added record
    can be read back, and adding never grows the cache beyond the larger of the
    cap and its present size: a record already present is replaced, a new one
    costs the place of an old one once the cap is reached (a cap lowered below
    the present size is therefore never reached by adding).  As long as no
    identity is added again after its removal, the cache is the list of the
    specification, oldest record first: additions evict the oldest record,
    replacing a record keeps its place, pruning drops exactly the records older
    than the cut-off, and a filtered query returns exactly the matching ones. *)
Lemma record_cache_fifo (ops : list op) :
  let c := foldl run NewRecordCache ops in
  (∀ r, Get (ElementID r) (Add r c) = Some r ∧
     Len (Add r c) = (if bool_decide (is_Some (Get (ElementID r) c)) then Len c
                      else if (0 <? MaxRecords c) && (MaxRecords c <=? Len c) then Len c
                      else Len c + 1)) ∧
  (no_readd [] ops →
   (MaxRecords c, abs c) = foldl spec (0, []) ops ∧
   NoDup (ElementID <$> abs c) ∧ Len c = len (abs c) ∧
   (∀ r, Get (ElementID r) c = Some r ↔ r ∈ abs c) ∧
   (∀ f r, r ∈ LocalRecords f c ↔ r ∈ abs c ∧ matchFilter r f = true) ∧
   (∀ cutoff, snd (PruneOlderThan cutoff c) = len (filter (λ x, T x < cutoff) (abs c)))).
Proof.
  intros c. assert (H0 : clean NewRecordCache) by (split; [apply map_Forall_empty | constructor]).
  split.
  - intros r. assert (Hwf : wf c) by apply runs_wf, H0.
    destruct (Add_any c r Hwf) as (_ & Hg & _ & Hl). split; [done |]. rewrite Hl. unfold Get.
    destruct (m c !! ElementID r) as [x|]; [by rewrite bool_decide_true |].
    by rewrite bool_decide_false by (by intros []).
  - intros Hre. destruct (runs_fifo ops [] NewRecordCache H0) as [Hc Hs]; [by intros ? ?%not_elem_of_nil | done |].
    fold c in Hc, Hs. split_and!; [exact Hs | | by apply Len_abs | | |].
    + destruct Hc as [Hwf Hn]. apply queue_NoDup; [by apply wf_filed | done].
    + intros r. destruct Hc as [Hwf Hn]. unfold abs. rewrite elem_of_queue by by apply wf_filed.
      split; [|tauto]. intros Hr. split; [|done]. apply wf_live; [done | by exists r].
    + intros f r. by apply elem_of_LocalRecords.
    + intros cutoff. pose proof (Prune_fifo c cutoff Hc) as Hp.
      destruct (PruneOlderThan cutoff c) as [c' n]. by destruct Hp as (_ & _ & _ & Hn).
Qed.
End fifo.

(** ** Examples *)
Definition rec_ (t : Z) : LocalRecord := mk (zero_arr 32) (str "linux") (zero_arr 20) t 0 (zero_arr 64).

Lemma record_cache_fifo_witness :
  let ops := [OSetMax 2; OAdd (rec_ 5); OAdd (rec_ 6); OAdd (rec_ 5); OAdd (rec_ 7)] in
  let c := foldl run NewRecordCache ops in
  no_readd [] ops ∧ abs c = [rec_ 6; rec_ 7] ∧ Len c = 2 ∧ Get (ElementID (rec_ 5)) c = None.
Proof.
  intros ops c. assert (Hre : no_readd [] ops) by (cbn; set_solver).
  destruct (record_cache_fifo ops) as [_ Hf]. destruct (Hf Hre) as (Hs & _ & Hl & _).
  assert (Ha : abs c = [rec_ 6; rec_ 7]).
  { change (abs c) with (snd (MaxRecords c, abs c)). etrans; [exact (f_equal snd Hs) |].
    vm_compute. reflexivity. }
  split_and!; [exact Hre | exact Ha | |].
  - etrans; [exact Hl |]. fold c. rewrite Ha. reflexivity.
  - vm_compute. reflexivity.
Defined.

(** A record removed and added again keeps its old place in the queue: it is
    evicted although the other record is older. *)
Example readded_evicted_first :
  let c := foldl run NewRecordCache [OSetMax 2; OAdd (rec_ 5); OAdd (rec_ 6);
    ORemove (ElementID (rec_ 5)); OAdd (rec_ 5); OAdd (rec_ 7)] in
  abs c = [rec_ 6; rec_ 7].
Proof. vm_compute. reflexivity. Qed.
End RecordCache.
