(* ===== verification/SyncSession.v ===== *)
(** * One reconciliation session (internal/swarmsearch/sync_session.go)

    The state machine of one exchange with one peer: it produces and consumes
    the sync frames, the caller sends them.  Every operation holds the session's
    lock, so it is one function of the state; an operation that fails returns the
    state it leaves behind with its error. *)

From S2P Require Import Prelude GoInt Sha256 Externals Instances Record Riblt Utf8 Ltepwire LtepSync RecordCache.
Open Scope Z_scope.

Module SyncSession.
Import LtepSync.

Abbreviation LocalRecord := Record.Record.
Abbreviation id := (array 32).

Inductive syncRole := RoleInitiator | RoleResponder.
Inductive syncPhase :=
  | PhaseIdle | PhaseBegun | PhaseSymbolsFlowing | PhaseNeeded | PhaseFulfilled | PhaseEnded.

Inductive error : Type :=
  | ErrSymbolBudgetExceeded | ErrSyncBytesBudgetExceeded | ErrSyncDesync | ErrSyncPhase
  | ErrSyncTxID | ErrSyncTooLarge.

#[export] Instance syncRole_dec : EqDecision syncRole. Proof. solve_decision. Defined.
#[export] Instance syncPhase_dec : EqDecision syncPhase. Proof. solve_decision. Defined.
#[export] Instance error_dec : EqDecision error. Proof. solve_decision. Defined.

Definition convergeSymbolFloor : Z := 256.
Definition maxPendingSymbolBatches : Z := 32.

(** [pumpStopped]: the channel [stopPumpCh] is closed. *)
Record SyncSession := mkSession {
  txid : Z;
  role : syncRole;
  phase : syncPhase;
  records : gmap id LocalRecord;
  enc : Riblt.Encoder;
  dec : Riblt.Decoder;
  maxSymbols : Z;
  maxBytes : Z;
  symbolsOut : Z;
  symbolsIn : Z;
  bytesIn : Z;
  bytesOut : Z;
  recordsIn : Z;
  pendingSymbols : gmap Z LtepSync.SyncSymbols;
  doneReceived : bool;
  convergeFired : bool;
  lastActivity : Z;
  pumpStopped : bool
}.

(** Assignments to fields. *)
Definition set_phase v_phase (s : SyncSession) : SyncSession :=
  mkSession (txid s) (role s) v_phase (records s) (enc s) (dec s) (maxSymbols s) (maxBytes s)
    (symbolsOut s) (symbolsIn s) (bytesIn s) (bytesOut s) (recordsIn s) (pendingSymbols s)
    (doneReceived s) (convergeFired s) (lastActivity s) (pumpStopped s).
Definition set_budgets v_maxSymbols v_maxBytes (s : SyncSession) : SyncSession :=
  mkSession (txid s) (role s) (phase s) (records s) (enc s) (dec s) v_maxSymbols v_maxBytes
    (symbolsOut s) (symbolsIn s) (bytesIn s) (bytesOut s) (recordsIn s) (pendingSymbols s)
    (doneReceived s) (convergeFired s) (lastActivity s) (pumpStopped s).
Definition set_out v_enc v_symbolsOut (s : SyncSession) : SyncSession :=
  mkSession (txid s) (role s) (phase s) (records s) v_enc (dec s) (maxSymbols s) (maxBytes s)
    v_symbolsOut (symbolsIn s) (bytesIn s) (bytesOut s) (recordsIn s) (pendingSymbols s)
    (doneReceived s) (convergeFired s) (lastActivity s) (pumpStopped s).
Definition set_in v_dec v_symbolsIn v_doneReceived (s : SyncSession) : SyncSession :=
  mkSession (txid s) (role s) (phase s) (records s) (enc s) v_dec (maxSymbols s) (maxBytes s)
    (symbolsOut s) v_symbolsIn (bytesIn s) (bytesOut s) (recordsIn s) (pendingSymbols s)
    v_doneReceived (convergeFired s) (lastActivity s) (pumpStopped s).
Definition set_pending v_pendingSymbols (s : SyncSession) : SyncSession :=
  mkSession (txid s) (role s) (phase s) (records s) (enc s) (dec s) (maxSymbols s) (maxBytes
    s) (symbolsOut s) (symbolsIn s) (bytesIn s) (bytesOut s) (recordsIn s) v_pendingSymbols
    (doneReceived s) (convergeFired s) (lastActivity s) (pumpStopped s).
Definition set_bytesOut v_bytesOut (s : SyncSession) : SyncSession :=
  mkSession (txid s) (role s) (phase s) (records s) (enc s) (dec s) (maxSymbols s) (maxBytes
    s) (symbolsOut s) (symbolsIn s) (bytesIn s) v_bytesOut (recordsIn s) (pendingSymbols s)
    (doneReceived s) (convergeFired s) (lastActivity s) (pumpStopped s).
Definition set_recordsIn v_bytesIn v_recordsIn (s : SyncSession) : SyncSession :=
  mkSession (txid s) (role s) (phase s) (records s) (enc s) (dec s) (maxSymbols s) (maxBytes
    s) (symbolsOut s) (symbolsIn s) v_bytesIn (bytesOut s) v_recordsIn (pendingSymbols s)
    (doneReceived s) (convergeFired s) (lastActivity s) (pumpStopped s).
Definition set_fired v_convergeFired (s : SyncSession) : SyncSession :=
  mkSession (txid s) (role s) (phase s) (records s) (enc s) (dec s) (maxSymbols s) (maxBytes
    s) (symbolsOut s) (symbolsIn s) (bytesIn s) (bytesOut s) (recordsIn s) (pendingSymbols s)
    (doneReceived s) v_convergeFired (lastActivity s) (pumpStopped s).
Definition set_activity v_lastActivity (s : SyncSession) : SyncSession :=
  mkSession (txid s) (role s) (phase s) (records s) (enc s) (dec s) (maxSymbols s) (maxBytes
    s) (symbolsOut s) (symbolsIn s) (bytesIn s) (bytesOut s) (recordsIn s) (pendingSymbols s)
    (doneReceived s) (convergeFired s) v_lastActivity (pumpStopped s).
Definition set_stopped v_pumpStopped (s : SyncSession) : SyncSession :=
  mkSession (txid s) (role s) (phase s) (records s) (enc s) (dec s) (maxSymbols s) (maxBytes
    s) (symbolsOut s) (symbolsIn s) (bytesIn s) (bytesOut s) (recordsIn s) (pendingSymbols s)
    (doneReceived s) (convergeFired s) (lastActivity s) v_pumpStopped.

(** ** Life cycle *)
Definition touch (now : Z) (s : SyncSession) : SyncSession := set_activity now s.
Definition stale (now d : Z) (s : SyncSession) : bool := d <? time_sub now (lastActivity s).
Definition StopPump (s : SyncSession) : SyncSession := set_stopped true s.

(** The loop over the records: the first record of an identity counts. *)
Definition add_record (s : SyncSession) (r : LocalRecord) : SyncSession :=
  let i := Record.ElementID r in
  match records s !! i with
  | Some _ => s
  | None =>
    mkSession (txid s) (role s) (phase s) (<[i := r]> (records s)) (Riblt.AddElement (enc s) i)
      (Riblt.AddLocalElement (dec s) i) (maxSymbols s) (maxBytes s) (symbolsOut s) (symbolsIn s)
      (bytesIn s) (bytesOut s) (recordsIn s) (pendingSymbols s) (doneReceived s) (convergeFired s)
      (lastActivity s) (pumpStopped s)
  end.

Definition NewSyncSession (now : Z) (tx : Z) (r : syncRole) (recs : list LocalRecord) : SyncSession :=
  foldl add_record
    (mkSession tx r PhaseIdle ∅ Riblt.newEncoder Riblt.NewDecoder DefaultSyncMaxSymbols
       DefaultSyncMaxBytes 0 0 0 0 0 ∅ false false now false)
    recs.

Definition Begin (filter : SyncFilter) (s : SyncSession) : SyncSession * SyncBegin :=
  (set_phase PhaseBegun s,
   {| sb_MsgType := 0; sb_TxID := txid s; sb_Algo := SyncAlgo; sb_ElementSize := RIBLTElementSize;
      sb_Filter := filter; sb_LocalCount := Riblt.Len (enc s); sb_MaxSymbols := maxSymbols s;
      sb_MaxBytes := maxBytes s |}).

Definition ApplyBegin (m : SyncBegin) (s : SyncSession) : SyncSession * result error unit :=
  if negb (sb_TxID m =? txid s) then (s, Err ErrSyncTxID)
  else if negb (sb_ElementSize m =? RIBLTElementSize) then (s, Err ErrSyncDesync)
  else
    let ms := if (0 <? sb_MaxSymbols m) && (sb_MaxSymbols m <? maxSymbols s)
              then sb_MaxSymbols m else maxSymbols s in
    let mb := if (0 <? sb_MaxBytes m) && (sb_MaxBytes m <? maxBytes s)
              then sb_MaxBytes m else maxBytes s in
    (set_phase PhaseBegun (set_budgets ms mb s), Ok tt).

(** ** Symbols *)
Fixpoint produce (n : nat) (e : Riblt.Encoder) : list SyncSymbol * Riblt.Encoder :=
  match n with
  | O => ([], e)
  | S n =>
    let '(cs, e) := Riblt.NextSymbol e in
    let '(syms, e) := produce n e in
    ({| C := Riblt.Count cs; H := Riblt.KeyXOR cs; B := sl (Riblt.DataXOR cs) |} :: syms, e)
  end.

Definition ProduceSymbols (count : Z) (s : SyncSession)
    : SyncSession * result error SyncSymbols :=
  let count := if MaxSymbolsPerMessage <? count then MaxSymbolsPerMessage else count in
  let remaining := maxSymbols s - symbolsOut s in
  let count := if remaining <? count then remaining else count in
  if count <=? 0 then (s, Err ErrSymbolBudgetExceeded)
  else
    let baseIdx := i64 (Riblt.NextSymbolIndex (enc s)) in
    let '(syms, e) := produce (Z.to_nat count) (enc s) in
    (set_phase PhaseSymbolsFlowing (set_out e (symbolsOut s + count) s),
     Ok {| ss_MsgType := 0; ss_TxID := txid s; ss_Index := baseIdx; ss_Symbols := syms;
           ss_Done := false |}).

Definition symbol_of (w : SyncSymbol) : Riblt.Symbol :=
  Riblt.mkSymbol (C w) (H w) (copy_arr 32 (B w)).

(** The loop of [ApplySymbols]: every round but the last takes a batch out of the
    buffer, so one more round than the buffer holds batches is enough. *)
Fixpoint apply_batches (fuel : nat) (cur : SyncSymbols) (s : SyncSession)
    : SyncSession * result error unit :=
  if maxSymbols s <? symbolsIn s + len (ss_Symbols cur) then (s, Err ErrSymbolBudgetExceeded)
  else
    let s := set_in (foldl (λ d w, Riblt.AddRemoteSymbol d (symbol_of w)) (dec s) (ss_Symbols cur))
               (symbolsIn s + len (ss_Symbols cur))
               (if ss_Done cur then true else doneReceived s) s in
    match pendingSymbols s !! symbolsIn s with
    | None => (s, Ok tt)
    | Some next =>
      let s := set_pending (delete (symbolsIn s) (pendingSymbols s)) s in
      match fuel with O => (s, Ok tt) | S fuel => apply_batches fuel next s end
    end.

Definition ApplySymbols (m : SyncSymbols) (s : SyncSession) : SyncSession * result error unit :=
  if negb (ss_TxID m =? txid s) then (s, Err ErrSyncTxID)
  else
    let s := set_phase PhaseSymbolsFlowing s in
    if ss_Index m <? symbolsIn s then (s, Ok tt)
    else if symbolsIn s <? ss_Index m then
      match pendingSymbols s !! ss_Index m with
      | Some _ => (s, Ok tt)
      | None =>
        if maxPendingSymbolBatches <=? Z.of_nat (size (pendingSymbols s)) then (s, Err ErrSyncDesync)
        else (set_pending (<[ss_Index m := m]> (pendingSymbols s)) s, Ok tt)
      end
    else apply_batches (size (pendingSymbols s)) m s.

Definition ShouldInitiatorConverge (s : SyncSession) : SyncSession * bool :=
  if convergeFired s then (s, false)
  else
    let ready := (Riblt.Converged (dec s) && (convergeSymbolFloor <=? symbolsIn s)) || doneReceived s in
    (if ready then set_fired true s else s, ready).

Definition Converged (s : SyncSession) : bool := Riblt.Converged (dec s).
Definition Finalized (s : SyncSession) : bool := convergeFired s.

(** ** The difference *)
Fixpoint less_go (a b : bytes) : bool :=
  match a, b with
  | x :: a, y :: b => if negb (b2z x =? b2z y) then b2z x <? b2z y else less_go a b
  | _, _ => false
  end.
Definition less32 (a b : id) : bool := less_go (sl a) (sl b).
Definition le32 (a b : id) : Prop := less32 b a = false.
#[export] Instance le32_dec a b : Decision (le32 a b).
Proof. unfold le32. apply _. Defined.

Definition NeedIDs (s : SyncSession) : list id := merge_sort le32 (Riblt.Added (dec s)).

Definition RemovedRecords (s : SyncSession) : list LocalRecord :=
  omap (λ e, records s !! e) (Riblt.Removed (dec s)).

Definition NeedFrame (ids : list id) (s : SyncSession) : SyncSession * result error SyncNeed :=
  if MaxNeedIDsPerMessage <? len ids then (s, Err ErrSyncTooLarge)
  else (set_phase PhaseNeeded s,
        Ok {| sn_MsgType := 0; sn_TxID := txid s; sn_IDs := Some (sl <$> ids) |}).

(** The loop of [ApplyNeed]: the records found and the identities missing. *)
Fixpoint resolve (recs : gmap id LocalRecord) (ids : list bytes) : list LocalRecord * list id :=
  match ids with
  | [] => ([], [])
  | idb :: ids =>
    let '(found, missing) := resolve recs ids in
    if negb (len idb =? 32) then (found, missing)
    else match recs !! copy_arr 32 idb with
         | Some r => (r :: found, missing)
         | None => (found, copy_arr 32 idb :: missing)
         end
  end.

Definition ApplyNeed (m : SyncNeed) (s : SyncSession) : result error (list LocalRecord * list id) :=
  check (sn_TxID m =? txid s) ! ErrSyncTxID;
  check (negb (MaxNeedIDsPerMessage <? len (default [] (sn_IDs m)))) ! ErrSyncTooLarge;
  Ok (resolve (records s) (default [] (sn_IDs m))).

(** ** Records *)
Definition toWireRecord (r : LocalRecord) : SyncRecord := {|
  Pk := sl (Record.Pk r); Kw := Record.Kw r; Ih := sl (Record.Ih r); T_ := Record.T r;
  Pow := Record.Pow r; Sig := sl (Record.Sig r)
|}.

Definition fromWireRecord (w : SyncRecord) : LocalRecord :=
  Record.mk (copy_arr 32 (Pk w)) (Kw w) (copy_arr 20 (Ih w)) (T_ w) (Pow w) (copy_arr 64 (Sig w)).

Definition wire_size (recs : list LocalRecord) : Z :=
  foldr (λ r n, RecordCache.syncRecordWireSize r + n) 0 recs.

Definition BuildRecordsFrame (recs : list LocalRecord) (missing : list id) (s : SyncSession)
    : SyncSession * result error SyncRecords :=
  if MaxRecordsPerMessage <? len recs then (s, Err ErrSyncTooLarge)
  else
    (set_phase PhaseFulfilled (set_bytesOut (bytesOut s + wire_size recs + 32 * len missing) s),
     Ok {| sr_MsgType := 0; sr_TxID := txid s; sr_Records := Some (toWireRecord <$> recs);
           sr_Missing := sl <$> missing |}).

Definition ApplyRecords (m : SyncRecords) (s : SyncSession)
    : SyncSession * result error (list LocalRecord) :=
  let recs := default [] (sr_Records m) in
  if negb (sr_TxID m =? txid s) then (s, Err ErrSyncTxID)
  else if bool_decide (phase s = PhaseIdle) || bool_decide (phase s = PhaseBegun)
  then (s, Err ErrSyncPhase)
  else if MaxRecordsPerMessage <? len recs then (s, Err ErrSyncTooLarge)
  else if negb (forallb (λ w, (len (Pk w) =? 32) && (len (Ih w) =? 20) && (len (Sig w) =? 64)) recs)
  then (s, Err ErrSyncPhase)
  else
    let out := fromWireRecord <$> recs in
    let frameBytes := wire_size out + 32 * len (sr_Missing m) in
    if maxBytes s <? bytesIn s + frameBytes then (s, Err ErrSyncBytesBudgetExceeded)
    else (set_phase PhaseFulfilled (set_recordsIn (bytesIn s + frameBytes) (recordsIn s + len out) s),
          Ok out).

Definition Finish (status : bytes) (s : SyncSession) : SyncSession * SyncEnd :=
  let status := if bool_decide (status = []) then SyncStatusConverged else status in
  (set_phase PhaseEnded s,
   {| se_MsgType := 0; se_TxID := txid s; se_Status := status; se_Decoded := recordsIn s;
      se_Sent := symbolsOut s; se_BytesIn := bytesIn s; se_BytesOut := bytesOut s;
      se_AbortCode := 0 |}).

Definition ApplyEnd (m : SyncEnd) (s : SyncSession) : SyncSession * result error unit :=
  if negb (se_TxID m =? txid s) then (s, Err ErrSyncTxID)
  else (set_phase PhaseEnded s, Ok tt).

(** ** Reordered symbol batches

    The dispatcher handles each frame on its own goroutine, so batches arrive in
    any order and more than once. *)
Fixpoint arrive (ms : list SyncSymbols) (s : SyncSession) : SyncSession * result error unit :=
  match ms with
  | [] => (s, Ok tt)
  | m :: ms =>
    let '(s, r) := ApplySymbols m s in
    match r with Ok _ => arrive ms s | Err e => (s, Err e) end
  end.

Definition feed (d : Riblt.Decoder) (ms : list SyncSymbols) : Riblt.Decoder :=
  foldl (λ d m, foldl (λ d w, Riblt.AddRemoteSymbol d (symbol_of w)) d (ss_Symbols m)) d ms.

Section reorder.
Context (bs : list SyncSymbols) (s0 : SyncSession).

(** Where batch number [j] starts. *)
Definition off (j : nat) : Z := foldr (λ m n, len (ss_Symbols m) + n) 0 (take j bs).

(** The batches are one contiguous stream for a session that has seen none of
    it, within its budget and few enough for its buffer. *)
Record honest : Prop := {
  honest_batch : ∀ j m, bs !! j = Some m →
    ss_TxID m = txid s0 ∧ ss_Index m = off j ∧ 1 ≤ len (ss_Symbols m);
  honest_budget : off (length bs) ≤ maxSymbols s0;
  honest_count : (length bs ≤ 33)%nat;
  honest_start : symbolsIn s0 = 0 ∧ pendingSymbols s0 = ∅ ∧ doneReceived s0 = false
}.
Context (Hh : honest).

Lemma off_app l k : foldr (λ m n, len (ss_Symbols m) + n) 0 (l ++ k)
  = foldr (λ m n, len (ss_Symbols m) + n) 0 l + foldr (λ m n, len (ss_Symbols m) + n) 0 k.
Proof. induction l as [|m l IH]; simpl; lia. Qed.

Lemma off_S j m : bs !! j = Some m → off (S j) = off j + len (ss_Symbols m).
Proof.
  intros Hj. unfold off. rewrite (take_S_r _ _ _ Hj), off_app. simpl. lia.
Qed.

Lemma off_lt i j : (i < j ≤ length bs)%nat → off i < off j.
Proof.
  intros [Hlt Hj]. induction Hlt as [|j Hlt IH].
  - destruct (lookup_lt_is_Some_2 bs i) as [m Hm]; [lia |]. rewrite (off_S i m Hm).
    destruct (honest_batch Hh i m Hm) as (_ & _ & ?). lia.
  - destruct (lookup_lt_is_Some_2 bs j) as [m Hm]; [lia |]. rewrite (off_S j m Hm).
    destruct (honest_batch Hh j m Hm) as (_ & _ & ?). specialize (IH ltac:(lia)). lia.
Qed.

Lemma off_inj i j : (i ≤ length bs)%nat → (j ≤ length bs)%nat → off i = off j → i = j.
Proof.
  intros Hi Hj He. destruct (decide (i < j)%nat); [pose proof (off_lt i j ltac:(lia)); lia |].
  destruct (decide (j < i)%nat); [pose proof (off_lt j i ltac:(lia)); lia | lia].
Qed.

(** The first [k] batches are in the decoder, the batches of [seen] beyond them
    in the buffer. *)
Record core (k : nat) (s : SyncSession) : Prop := {
  core_k : (k ≤ length bs)%nat;
  core_in : symbolsIn s = off k;
  core_dec : dec s = feed (dec s0) (take k bs);
  core_done : doneReceived s = existsb ss_Done (take k bs);
  core_txid : txid s = txid s0;
  core_max : maxSymbols s = maxSymbols s0;
  core_records : records s = records s0;
  core_fired : convergeFired s = convergeFired s0
}.
Definition buffered (k : nat) (seen : gset nat) (s : SyncSession) : Prop :=
  ∀ i m, pendingSymbols s !! i = Some m ↔
    ∃ j, (k < j)%nat ∧ j ∈ seen ∧ bs !! j = Some m ∧ i = off j.

Lemma feed_snoc d ms m :
  feed d (ms ++ [m])
  = foldl (λ d w, Riblt.AddRemoteSymbol d (symbol_of w)) (feed d ms) (ss_Symbols m).
Proof. unfold feed. by rewrite foldl_app. Qed.

Lemma core_step k m s :
  bs !! k = Some m → core k s →
  core (S k) (set_in (foldl (λ d w, Riblt.AddRemoteSymbol d (symbol_of w)) (dec s) (ss_Symbols m))
                (symbolsIn s + len (ss_Symbols m)) (if ss_Done m then true else doneReceived s) s).
Proof.
  intros Hk [? Hin Hdec Hdone ? ? ? ?]. pose proof (lookup_lt_Some _ _ _ Hk).
  split; cbn [symbolsIn dec doneReceived txid maxSymbols records convergeFired set_in]; try done.
  - by rewrite Hin, (off_S k m Hk).
  - by rewrite (take_S_r _ _ _ Hk), feed_snoc, Hdec.
  - rewrite (take_S_r _ _ _ Hk), existsb_app, Hdone. simpl.
    destruct (ss_Done m); [by rewrite orb_true_r | by rewrite orb_false_r].
Qed.

Lemma core_budget k m s :
  bs !! k = Some m → core k s → (maxSymbols s <? symbolsIn s + len (ss_Symbols m)) = false.
Proof.
  intros Hk [? Hin _ _ _ Hmax _ _]. apply Z.ltb_ge. rewrite Hin, Hmax, <-(off_S k m Hk).
  pose proof (lookup_lt_Some _ _ _ Hk). pose proof (honest_budget Hh).
  destruct (decide (S k = length bs)) as [->|]; [done |]. pose proof (off_lt (S k) (length bs)). lia.
Qed.

(** Applying batch [k] and whatever the buffer continues it with. *)
Lemma drain seen fuel k m s :
  bs !! k = Some m → core k s → buffered k seen s → (size (pendingSymbols s) ≤ fuel)%nat →
  ∃ k' s', apply_batches fuel m s = (s', Ok tt) ∧ (k < k')%nat ∧ core k' s' ∧
    buffered k' seen s' ∧ (∀ j, (k < j < k')%nat → j ∈ seen) ∧
    (k' ∈ seen → bs !! k' = None).
Proof.
  revert k m s. induction fuel as [|fuel IH]; intros k m s Hk Hc Hb Hsz; cbn [apply_batches];
    rewrite (core_budget k m s Hk Hc); pose proof (core_step k m s Hk Hc) as Hc';
    set (s1 := set_in _ _ _ s) in *;
    change (pendingSymbols s1) with (pendingSymbols s);
    pose proof (lookup_lt_Some _ _ _ Hk) as Hlt;
    rewrite (core_in _ _ Hc').
  - apply Nat.le_0_r, map_size_empty_inv in Hsz. rewrite Hsz, lookup_empty.
    exists (S k), s1. split_and!; [done | lia | done | | lia |].
    + intros i m'. change (pendingSymbols s1) with (pendingSymbols s). rewrite (Hb i m').
      split; intros (j & Hj & Hs & Hm & ->); exists j; split_and!; try done; [|lia].
      assert (Hx : pendingSymbols s !! off j = Some m') by (apply Hb; by exists j).
      by rewrite Hsz, lookup_empty in Hx.
    + intros Hs. apply eq_None_not_Some. intros [m' Hm'].
      assert (Hx : pendingSymbols s !! off (S k) = Some m') by (apply Hb; exists (S k); split_and!; (done || lia)).
      by rewrite Hsz, lookup_empty in Hx.
  - destruct (pendingSymbols s !! off (S k)) as [next|] eqn:E.
    + pose proof E as E'. apply Hb in E' as (j & Hj & Hs & Hm & Hoff).
      pose proof (lookup_lt_Some _ _ _ Hm). apply off_inj in Hoff; [|lia..]. subst j.
      set (s2 := set_pending _ s1).
      assert (Hc2 : core (S k) s2) by (destruct Hc'; by split).
      assert (Hb2 : buffered (S k) seen s2).
      { intros i m'. unfold s2. cbn [pendingSymbols set_pending].
        change (pendingSymbols s1) with (pendingSymbols s).
        rewrite lookup_delete_Some, (Hb i m'). split.
        - intros (Hne & j & Hj' & ? & Hm' & ->). exists j. split_and!; try done.
          destruct (decide (j = S k)) as [->|]; [done | lia].
        - intros (j & Hj' & ? & Hm' & ->). pose proof (lookup_lt_Some _ _ _ Hm'). split.
          + intros Hx. apply off_inj in Hx; lia.
          + exists j. split_and!; try done. lia. }
      destruct (IH (S k) next s2 Hm Hc2 Hb2) as (k' & s' & Ha & Hlt' & Hc3 & Hb3 & Hall & Hstop).
      { unfold s2. cbn [pendingSymbols set_pending]. change (pendingSymbols s1) with (pendingSymbols s).
        rewrite map_size_delete_Some by (by eexists). lia. }
      exists k', s'. split_and!; [exact Ha | lia | done | done | | done].
      intros j Hj'. destruct (decide (j = S k)) as [->|]; [done | apply Hall; lia].
    + exists (S k), s1. split_and!; [done | lia | done | | lia |].
      * intros i m'. change (pendingSymbols s1) with (pendingSymbols s). rewrite (Hb i m').
        split; intros (j & Hj & Hs & Hm & ->); exists j; split_and!; try done; [|lia].
        destruct (decide (j = S k)) as [->|]; [|lia]. exfalso.
        assert (Hx : pendingSymbols s !! off (S k) = Some m') by (apply Hb; by exists (S k)).
        by rewrite E in Hx.
      * intros Hs. apply eq_None_not_Some. intros [m' Hm'].
        assert (Hx : pendingSymbols s !! off (S k) = Some m') by (apply Hb; exists (S k); split_and!; (done || lia)).
        by rewrite E in Hx.
Qed.

Definition inv (k : nat) (seen : gset nat) (s : SyncSession) : Prop :=
  core k s ∧ buffered k seen s ∧ (∀ j, (j < k)%nat → j ∈ seen) ∧ (k ∈ seen → bs !! k = None).

Lemma buffered_seen k j seen s :
  (j ≤ k)%nat → buffered k seen s → buffered k ({[j]} ∪ seen) s.
Proof.
  intros Hj Hb i m. rewrite (Hb i m). split; intros (j' & ? & Hs & ? & ?); exists j'; split_and!;
    try done; [set_solver |]. apply elem_of_union in Hs as [->%elem_of_singleton|]; [lia | done].
Qed.

(** The buffer holds no more than the batches beyond the next two. *)
Lemma buffer_room k j seen s :
  buffered k seen s → (k < j < length bs)%nat → pendingSymbols s !! off j = None →
  (size (pendingSymbols s) < 32)%nat.
Proof.
  intros Hb Hj Hnone. set (l := filter (λ i, i ≠ j) (seq (S k) (length bs - S k))).
  assert (Hl : (length l < length bs - S k)%nat).
  { unfold l. pose proof (length_filter_lt (λ i, i ≠ j) (seq (S k) (length bs - S k)) j) as Hf.
    rewrite length_seq in Hf. apply Hf; [apply elem_of_seq; lia | tauto]. }
  pose proof (honest_count Hh).
  assert (Hd : dom (pendingSymbols s) ⊆ list_to_set (off <$> l)).
  { intros i [m Hm]%elem_of_dom. pose proof Hm as Hi. apply Hb in Hi as (j' & Hj' & _ & Hbj & ->).
    pose proof (lookup_lt_Some _ _ _ Hbj). apply elem_of_list_to_set, list_elem_of_fmap_2.
    apply list_elem_of_filter. split; [intros ->; congruence | apply elem_of_seq; lia]. }
  apply subseteq_size in Hd. rewrite size_dom in Hd.
  assert (Hs : (size (list_to_set (C:=gset Z) (off <$> l)) ≤ length l)%nat).
  { clear. induction l as [|x l IH]; [done |]. cbn [fmap list_fmap list_to_set length].
    pose proof (size_union_alt {[off x]} (list_to_set (C:=gset Z) (off <$> l))).
    rewrite size_union_alt, size_singleton.
    pose proof (subseteq_size (list_to_set (C:=gset Z) (off <$> l) ∖ {[off x]})
      (list_to_set (off <$> l)) ltac:(set_solver)). lia. }
  lia.
Qed.

Lemma arrival k j m seen s :
  bs !! j = Some m → inv k seen s →
  ∃ k' s', ApplySymbols m s = (s', Ok tt) ∧ inv k' ({[j]} ∪ seen) s'.
Proof.
  intros Hj (Hc & Hb & Hall & Hstop). destruct (honest_batch Hh j m Hj) as (Htx & Hidx & _).
  pose proof (lookup_lt_Some _ _ _ Hj) as Hlt. pose proof (core_k _ _ Hc).
  unfold ApplySymbols. rewrite Htx, <-(core_txid _ _ Hc), Z.eqb_refl. cbn [negb].
  set (s1 := set_phase PhaseSymbolsFlowing s).
  assert (Hc1 : core k s1) by (destruct Hc; by split).
  assert (Hb1 : buffered k seen s1) by done. rewrite Hidx, (core_in _ _ Hc1).
  destruct (Z.ltb_spec (off j) (off k)) as [Hlow|Hge].
  { assert (Hjk : (j < k)%nat).
    { destruct (decide (k < j)%nat); [pose proof (off_lt k j ltac:(lia)); lia |].
      destruct (decide (j = k)) as [->|]; [lia | lia]. }
    exists k, s1. split_and!; [done | split_and!; [done | apply buffered_seen; [lia | done] | set_solver |]].
    intros Hs. apply Hstop. apply elem_of_union in Hs as [->%elem_of_singleton|]; [lia | done]. }
  destruct (Z.ltb_spec (off k) (off j)) as [Hhigh|Hle].
  - assert (Hjk : (k < j)%nat).
    { destruct (decide (j < k)%nat); [pose proof (off_lt j k ltac:(lia)); lia |].
      destruct (decide (j = k)) as [->|]; [lia | lia]. }
    assert (Hstop' : k ∈ {[j]} ∪ seen → bs !! k = None).
    { intros Hs. apply Hstop. apply elem_of_union in Hs as [->%elem_of_singleton|]; [lia | done]. }
    destruct (pendingSymbols s1 !! off j) as [m'|] eqn:E.
    + exists k, s1. split_and!; [done | split_and!; [done | | set_solver | done]].
      apply Hb1 in E as (j' & ? & Hs & Hm' & Hoff). pose proof (lookup_lt_Some _ _ _ Hm').
      apply off_inj in Hoff; [|lia..]. subst j'.
      by replace ({[j]} ∪ seen) with seen by set_solver.
    + pose proof (buffer_room k j seen s1 Hb1 ltac:(lia) E) as Hroom.
      rewrite (proj2 (Z.leb_gt _ _)) by (unfold maxPendingSymbolBatches; lia).
      eexists k, _. split_and!; [done |]. split_and!; [destruct Hc1; by split | | set_solver | done].
      intros i m'. cbn [pendingSymbols set_pending]. rewrite lookup_insert_Some. split.
      * intros [[<- <-]|[Hne Hi]]; [exists j; split_and!; (done || set_solver) |].
        apply Hb1 in Hi as (j' & ? & ? & ? & ?). exists j'. split_and!; (done || set_solver).
      * intros (j' & ? & Hs & Hm' & ->). destruct (decide (j' = j)) as [->|Hne]; [left; split; congruence |].
        right. pose proof (lookup_lt_Some _ _ _ Hm').
        split; [intros Hx; apply off_inj in Hx; lia |]. apply Hb1. exists j'. split_and!; try done.
        set_solver.
  - assert (j = k) as -> by (apply off_inj; lia).
    destruct (drain ({[k]} ∪ seen) (size (pendingSymbols s1)) k m s1 Hj Hc1
                (buffered_seen k k seen s1 ltac:(lia) Hb1) ltac:(lia))
      as (k' & s' & Ha & Hlt' & Hc' & Hb' & Hseen & Hstop').
    exists k', s'. split_and!; [exact Ha |]. split_and!; [done | done | | done].
    intros j Hjk. destruct (decide (j < k)%nat); [set_solver |].
    destruct (decide (j = k)) as [->|]; [set_solver | apply Hseen; lia].
Qed.

Lemma arrivals ms k seen s :
  (∀ m, m ∈ ms → m ∈ bs) → inv k seen s →
  ∃ k' seen' s', arrive ms s = (s', Ok tt) ∧ inv k' seen' s' ∧ seen ⊆ seen' ∧
    (∀ m, m ∈ ms → ∃ j, j ∈ seen' ∧ bs !! j = Some m) ∧
    (∀ j, j ∈ seen' → j ∈ seen ∨ ∃ m, m ∈ ms ∧ bs !! j = Some m).
Proof.
  revert k seen s. induction ms as [|m ms IH]; intros k seen s Hms Hinv.
  { exists k, seen, s. split_and!; try done; [by intros m ?%not_elem_of_nil | by left]. }
  destruct (proj1 (list_elem_of_lookup bs m)) as [j Hj]; [apply Hms; by left |].
  destruct (arrival k j m seen s Hj Hinv) as (k1 & s1 & Ha & Hinv1). cbn [arrive]. rewrite Ha.
  destruct (IH k1 ({[j]} ∪ seen) s1) as (k' & seen' & s' & Har & Hinv' & Hsub & H1 & H2);
    [intros; apply Hms; by right | done |].
  exists k', seen', s'. split_and!; [done | done | set_solver | |].
  - intros m' [->|Hm']%elem_of_cons; [|by apply H1]. exists j. split; [set_solver | done].
  - intros j' Hj'. destruct (H2 j' Hj') as [[->%elem_of_singleton|]%elem_of_union|(m' & ? & ?)];
      [right; exists m; split; [by left | done] | by left |]. right. exists m'. split; [by right | done].
Qed.

Lemma inv_start : inv 0 ∅ s0.
Proof.
  destruct (honest_start Hh) as (H1 & H2 & H3). split_and!; [| | lia | set_solver].
  - split; rewrite ?take_0; try done; lia.
  - intros i m. rewrite H2, lookup_empty. split; [done |]. by intros (j & _ & ? & _).
Qed.

(** Once every batch has arrived, the session is where in-order delivery leaves
    it. *)
Lemma arrive_all ms :
  (∀ m, m ∈ ms ↔ m ∈ bs) →
  ∃ s', arrive ms s0 = (s', Ok tt) ∧ core (length bs) s' ∧ pendingSymbols s' = ∅.
Proof.
  intros Hms. destruct (arrivals ms 0 ∅ s0) as (k & seen & s' & Ha & Hinv & _ & H1 & H2);
    [intros; by apply Hms | apply inv_start |].
  destruct Hinv as (Hc & Hb & Hall & Hstop). pose proof (core_k _ _ Hc).
  assert (Hk : k = length bs).
  { destruct (decide (k = length bs)) as [|Hne]; [done | exfalso].
    destruct (lookup_lt_is_Some_2 bs k) as [m Hm]; [lia |].
    destruct (H1 m) as (j & Hjs & Hj); [apply Hms, list_elem_of_lookup; by exists k |].
    assert (j = k) as ->; [|by rewrite Hstop in Hm].
    pose proof (lookup_lt_Some _ _ _ Hj). destruct (honest_batch Hh j m Hj) as (_ & Ho1 & _).
    destruct (honest_batch Hh k m Hm) as (_ & Ho2 & _). apply off_inj; [lia | lia | congruence]. }
  subst k. exists s'. split_and!; [done | done |]. apply map_empty. intros i.
  apply eq_None_not_Some. intros [m (j & Hj & _ & Hm & _)%Hb].
  pose proof (lookup_lt_Some _ _ _ Hm). lia.
Qed.
End reorder.

(** ** A fresh session *)
Record fresh (recs : list LocalRecord) (ids : list id) (s : SyncSession) : Prop := {
  fresh_NoDup : NoDup ids;
  fresh_ids : ∀ i, i ∈ ids ↔ ∃ r, r ∈ recs ∧ Record.ElementID r = i;
  fresh_enc : enc s = Riblt.encoder ids;
  fresh_dec : dec s = Riblt.seeded ids;
  fresh_dom : ∀ i, is_Some (records s !! i) ↔ i ∈ ids;
  fresh_records : ∀ i r, records s !! i = Some r → r ∈ recs ∧ Record.ElementID r = i;
  fresh_in : symbolsIn s = 0 ∧ pendingSymbols s = ∅ ∧ doneReceived s = false;
  fresh_out : symbolsOut s = 0 ∧ maxSymbols s = DefaultSyncMaxSymbols ∧ convergeFired s = false
}.

Lemma encoder_snoc l e : Riblt.encoder (l ++ [e]) = Riblt.AddElement (Riblt.encoder l) e.
Proof. unfold Riblt.encoder. by rewrite foldl_app. Qed.

Lemma seeded_snoc l e : Riblt.seeded (l ++ [e]) = Riblt.AddLocalElement (Riblt.seeded l) e.
Proof. unfold Riblt.seeded. by rewrite foldl_app. Qed.

Lemma add_record_fresh recs ids s r :
  fresh recs ids s → ∃ ids', fresh (recs ++ [r]) ids' (add_record s r).
Proof.
  intros [Hn Hi He Hd Hdom Hr Hin Hout]. unfold add_record.
  destruct (records s !! Record.ElementID r) as [x|] eqn:E.
  - exists ids. split; try done; [|].
    + intros i. rewrite Hi. split; intros (y & Hy & <-).
      * exists y. split; [set_solver | done].
      * apply elem_of_app in Hy as [Hy|Hy%list_elem_of_singleton]; [by exists y |]. subst y.
        destruct (Hr _ _ E) as [Hx Hid]. by exists x.
    + intros i y Hy. destruct (Hr i y Hy). split; [set_solver | done].
  - assert (Hnot : Record.ElementID r ∉ ids) by (intros [x Hx]%Hdom; congruence).
    exists (ids ++ [Record.ElementID r]).
    split; cbn [enc dec records symbolsIn pendingSymbols doneReceived symbolsOut maxSymbols convergeFired];
      try done.
    + apply NoDup_app. split_and!; [done | | apply NoDup_singleton]. set_solver.
    + intros i. rewrite elem_of_app, Hi, list_elem_of_singleton. setoid_rewrite elem_of_app.
      setoid_rewrite list_elem_of_singleton. naive_solver.
    + by rewrite He, encoder_snoc.
    + by rewrite Hd, seeded_snoc.
    + intros i. rewrite lookup_insert_is_Some', elem_of_app, list_elem_of_singleton, Hdom. naive_solver.
    + intros i y [[<- <-]|[_ Hy]]%lookup_insert_Some; [set_solver |].
      destruct (Hr i y Hy). split; [set_solver | done].
Qed.

Lemma NewSyncSession_fresh now tx r recs :
  ∃ ids, fresh recs ids (NewSyncSession now tx r recs) ∧ txid (NewSyncSession now tx r recs) = tx.
Proof.
  unfold NewSyncSession. set (s0 := mkSession _ _ _ _ _ _ _ _ _ _ _ _ _ _ _ _ _ _).
  assert (H0 : fresh [] [] s0).
  { split; try done; [apply NoDup_nil_2 | |]; cbn [records s0].
    - intros i. split; [by intros ?%not_elem_of_nil | by intros (x & ?%not_elem_of_nil & _)].
    - intros i. rewrite lookup_empty. split; [by intros [] | by intros ?%not_elem_of_nil]. }
  assert (Htx : txid s0 = tx) by done.
  assert (Hg : ∀ l pre ids s, fresh pre ids s → txid s = tx →
    ∃ ids', fresh (pre ++ l) ids' (foldl add_record s l) ∧ txid (foldl add_record s l) = tx).
  { induction l as [|x l IH]; intros pre ids s Hf Ht; [exists ids; by rewrite app_nil_r |].
    destruct (add_record_fresh pre ids s x Hf) as [ids' Hf']. simpl.
    rewrite (cons_middle x pre l), app_assoc. apply (IH _ ids'); [done |].
    unfold add_record. by destruct (records s !! _). }
  exact (Hg recs [] [] s0 H0 Htx).
Qed.

(** ** The responder's stream

    The loop of [runSyncPump], for at most [n] frames before it is stopped. *)
Fixpoint pump (n : nat) (s : SyncSession) : list SyncSymbols * SyncSession :=
  match n with
  | O => ([], s)
  | S n =>
    let '(s, r) := ProduceSymbols MaxSymbolsPerMessage s in
    match r with
    | Err _ => ([], s)
    | Ok frame =>
      let done := maxSymbols s <=? symbolsOut s in
      let frame := {| ss_MsgType := ss_MsgType frame; ss_TxID := ss_TxID frame;
                      ss_Index := ss_Index frame; ss_Symbols := ss_Symbols frame; ss_Done := done |} in
      if done then ([frame], s)
      else let '(frames, s) := pump n s in (frame :: frames, s)
    end
  end.

Lemma symbol_of_wire cs :
  symbol_of {| C := Riblt.Count cs; H := Riblt.KeyXOR cs; B := sl (Riblt.DataXOR cs) |} = cs.
Proof. unfold symbol_of. cbn [C H B]. rewrite copy_arr_sl. by destruct cs. Qed.

Lemma produce_stream n m e :
  let '(syms, e') := produce n e in
  length syms = n ∧ symbol_of <$> syms = Riblt.stream n e ∧
  Riblt.stream (n + m) e = Riblt.stream n e ++ Riblt.stream m e' ∧
  (Riblt.nextIdx e + Z.of_nat n < 2 ^ 64 → 0 ≤ Riblt.nextIdx e →
   Riblt.nextIdx e' = Riblt.nextIdx e + Z.of_nat n).
Proof.
  revert e. induction n as [|n IH]; intros e.
  { cbn [produce]. split_and!; try done. lia. }
  cbn [produce]. destruct (Riblt.NextSymbol e) as [cs e1] eqn:E. specialize (IH e1).
  destruct (produce n e1) as [syms e2]. destruct IH as (Hl & Hs & Ha & Hidx).
  cbn [Riblt.stream Nat.add]. rewrite E. split_and!.
  - simpl. by rewrite Hl.
  - rewrite fmap_cons, symbol_of_wire. by rewrite Hs.
  - simpl. by rewrite Ha.
  - intros Hlt H0. assert (He1 : Riblt.nextIdx e1 = Riblt.nextIdx e + 1).
    { unfold Riblt.NextSymbol in E. injection E as _ <-. cbn [Riblt.nextIdx].
      apply u64_small. unfold is_u64. lia. }
    rewrite Hidx; lia.
Qed.

(** The symbols of a list of batches. *)
Definition symbols (bs : list SyncSymbols) : list Riblt.Symbol :=
  symbol_of <$> (bs ≫= ss_Symbols).

Lemma symbols_cons m bs : symbols (m :: bs) = (symbol_of <$> ss_Symbols m) ++ symbols bs.
Proof. unfold symbols. cbn [mbind list_bind]. by rewrite fmap_app. Qed.

Lemma off_total bs : off bs (length bs) = len (symbols bs).
Proof.
  unfold off. rewrite firstn_all. induction bs as [|m bs IH]; [done |].
  rewrite symbols_cons, len_app. simpl. unfold len in *. rewrite length_fmap. lia.
Qed.

(** Frames of at most [MaxSymbolsPerMessage] symbols from index [c] of the stream
    of [e], all but the last full, the budget [b] marking the last one done. *)
Record pumped (tx c b : Z) (e : Riblt.Encoder) (bs : list SyncSymbols) : Prop := {
  pumped_frames : ∀ j m, bs !! j = Some m →
    ss_TxID m = tx ∧ ss_Index m = c + off bs j ∧ 1 ≤ len (ss_Symbols m);
  pumped_total : len (symbols bs) ≤ b;
  pumped_count : MaxSymbolsPerMessage * len bs ≤ b + (MaxSymbolsPerMessage - 1);
  pumped_stream : symbols bs = Riblt.stream (length (symbols bs)) e;
  pumped_done : existsb ss_Done bs = bool_decide (len (symbols bs) = b)
}.

Lemma pumped_nil tx c b e : 0 < b → pumped tx c b e [].
Proof.
  intros Hb. assert (Hz : len (symbols []) = 0) by done. split; [done | lia | | done |].
  - change (len []) with 0. unfold MaxSymbolsPerMessage. lia.
  - rewrite Hz. symmetry. apply bool_decide_eq_false. lia.
Qed.

Lemma pumped_cons tx c b b' e e' m bs :
  pumped tx (c + len (ss_Symbols m)) b' e' bs →
  ss_TxID m = tx → ss_Index m = c → len (ss_Symbols m) = MaxSymbolsPerMessage →
  b = len (ss_Symbols m) + b' → ss_Done m = false →
  symbol_of <$> ss_Symbols m = Riblt.stream (length (ss_Symbols m)) e →
  (∀ k, Riblt.stream (length (ss_Symbols m) + k) e
        = Riblt.stream (length (ss_Symbols m)) e ++ Riblt.stream k e') →
  pumped tx c b e (m :: bs).
Proof.
  intros [Hf Ht Hc Hs Hd] Htx Hidx Hlen -> Hdone Hst Happ.
  assert (Hsz : len (symbols (m :: bs)) = len (ss_Symbols m) + len (symbols bs)).
  { rewrite symbols_cons, len_app. unfold len at 1. by rewrite length_fmap. }
  split.
  - intros [|j] m' Hj; simpl in Hj.
    + injection Hj as <-. unfold off. simpl. split_and!; [done | lia |].
      rewrite Hlen. done.
    + destruct (Hf j m' Hj) as (? & Hi & ?). split_and!; [done | | done]. rewrite Hi. unfold off. simpl. lia.
  - lia.
  - rewrite len_cons. lia.
  - rewrite symbols_cons, length_app, length_fmap, Happ, Hst. by rewrite <-Hs.
  - simpl. rewrite Hdone, Hd, Hsz. simpl. apply bool_decide_ext. lia.
Qed.

Lemma pumped_single tx c e m :
  ss_TxID m = tx → ss_Index m = c → 1 ≤ len (ss_Symbols m) ≤ MaxSymbolsPerMessage →
  ss_Done m = true → symbol_of <$> ss_Symbols m = Riblt.stream (length (ss_Symbols m)) e →
  pumped tx c (len (ss_Symbols m)) e [m].
Proof.
  intros Htx Hidx Hlen Hdone Hst.
  assert (Hsy : symbols [m] = symbol_of <$> ss_Symbols m) by (by rewrite symbols_cons, app_nil_r).
  assert (Hsz : len (symbols [m]) = len (ss_Symbols m)) by (rewrite Hsy; unfold len; by rewrite length_fmap).
  split.
  - intros [|j] m' Hj; simpl in Hj; [|done]. injection Hj as <-. unfold off. simpl.
    split_and!; [done | lia | lia].
  - lia.
  - change (len [m]) with 1. lia.
  - rewrite Hsy, length_fmap. done.
  - simpl. rewrite Hdone, Hsz. symmetry. by apply bool_decide_eq_true.
Qed.

Lemma pump_pumped n s :
  Riblt.nextIdx (enc s) = symbolsOut s → 0 ≤ symbolsOut s < maxSymbols s →
  maxSymbols s ≤ DefaultSyncMaxSymbols →
  pumped (txid s) (symbolsOut s) (maxSymbols s - symbolsOut s) (enc s) (fst (pump n s)).
Proof.
  revert s. induction n as [|n IH]; intros s Hidx Hout Hmax; cbn [pump fst].
  { apply pumped_nil. lia. }
  unfold DefaultSyncMaxSymbols in Hmax. unfold ProduceSymbols. rewrite Z.ltb_irrefl.
  set (c := if _ <? _ then maxSymbols s - symbolsOut s else MaxSymbolsPerMessage).
  assert (Hc : c = Z.min (maxSymbols s - symbolsOut s) MaxSymbolsPerMessage)
    by (unfold c; destruct (Z.ltb_spec (maxSymbols s - symbolsOut s) MaxSymbolsPerMessage); lia).
  unfold MaxSymbolsPerMessage in Hc. rewrite (proj2 (Z.leb_gt c 0)) by lia.
  pose proof (λ k, produce_stream (Z.to_nat c) k (enc s)) as Hp.
  destruct (produce (Z.to_nat c) (enc s)) as [syms e] eqn:Ep.
  destruct (Hp 0%nat) as (Hlen & Hst & _ & Hnext).
  assert (Hl : len syms = c) by (unfold len; lia).
  cbn [maxSymbols symbolsOut set_phase set_out ss_TxID ss_Index ss_Symbols ss_MsgType].
  unfold Riblt.NextSymbolIndex. rewrite Hidx, i64_small by (unfold is_i64; lia).
  destruct (Z.leb_spec (maxSymbols s) (symbolsOut s + c)) as [Hdone|Hmore].
  - cbn [fst]. replace (maxSymbols s - symbolsOut s) with (len syms) by lia.
    apply (pumped_single _ _ _ {| ss_MsgType := _; ss_TxID := _; ss_Index := _; ss_Symbols := syms;
      ss_Done := true |}); cbn [ss_TxID ss_Index ss_Symbols ss_Done]; try done.
    + unfold MaxSymbolsPerMessage. lia.
    + by rewrite Hlen.
  - set (s1 := set_phase _ _). specialize (IH s1).
    change (symbolsOut s1) with (symbolsOut s + c) in IH.
    change (maxSymbols s1) with (maxSymbols s) in IH. change (txid s1) with (txid s) in IH.
    change (enc s1) with e in IH.
    assert (Hc100 : c = 100) by lia.
    assert (IH' : pumped (txid s) (symbolsOut s + c) (maxSymbols s - (symbolsOut s + c)) e (fst (pump n s1))).
    { apply IH; [rewrite Hnext; lia | lia | done]. }
    destruct (pump n s1) as [frames s2]. cbn [fst] in *.
    eapply pumped_cons with (e' := e); cbn [ss_TxID ss_Index ss_Symbols ss_Done]; try done.
    + rewrite Hl. exact IH'.
    + by rewrite Hl.
    + rewrite Hl. lia.
    + by rewrite Hlen.
    + intros k. rewrite Hlen, <-Hst. destruct (Hp k) as (_ & _ & Ha & _). by rewrite Ha, Hst.
Qed.

Lemma produce_width n e : Forall (λ w, len (B w) = RIBLTElementSize) (fst (produce n e)).
Proof.
  revert e. induction n as [|n IH]; intros e; cbn [produce]; [constructor |].
  destruct (Riblt.NextSymbol e) as [cs e1]. specialize (IH e1).
  destruct (produce n e1) as [syms e2]. constructor; [|done]. cbn [B]. exact (len_sl (Riblt.DataXOR cs)).
Qed.

Lemma pump_within n s : Forall symbols_within (fst (pump n s)).
Proof.
  revert s. induction n as [|n IH]; intros s; cbn [pump]; [constructor |].
  unfold ProduceSymbols. rewrite Z.ltb_irrefl.
  set (c := if _ <? _ then maxSymbols s - symbolsOut s else MaxSymbolsPerMessage).
  assert (Hc : c ≤ MaxSymbolsPerMessage).
  { unfold c. destruct (Z.ltb_spec (maxSymbols s - symbolsOut s) MaxSymbolsPerMessage); lia. }
  destruct (Z.leb_spec c 0); [constructor |].
  pose proof (produce_width (Z.to_nat c) (enc s)) as Hw.
  pose proof (produce_stream (Z.to_nat c) 0 (enc s)) as Hp.
  destruct (produce (Z.to_nat c) (enc s)) as [syms e]. destruct Hp as (Hl & _). cbv zeta.
  set (s1 := set_phase _ _). set (frame := Build_SyncSymbols _ _ _ _ _).
  assert (Hf : symbols_within frame).
  { split; [|exact Hw]. cbn [ss_Symbols frame]. unfold len. lia. }
  destruct (_ <=? _); [by constructor |].
  specialize (IH s1). destruct (pump n s1). by constructor.
Qed.

Lemma off_stamp bs j : off (stampSyncSymbols <$> bs) j = off bs j.
Proof. unfold off. by rewrite <-fmap_take, foldr_fmap. Qed.

Lemma symbols_stamp bs : symbols (stampSyncSymbols <$> bs) = symbols bs.
Proof. induction bs as [|m bs IH]; [done |]. rewrite fmap_cons, !symbols_cons, IH. done. Qed.

Lemma done_stamp bs : existsb ss_Done (stampSyncSymbols <$> bs) = existsb ss_Done bs.
Proof. induction bs as [|m bs IH]; [done |]. rewrite fmap_cons. cbn [existsb]. by rewrite IH. Qed.

Lemma feed_symbols d ms : feed d ms = foldl Riblt.AddRemoteSymbol d (symbols ms).
Proof.
  revert d. induction ms as [|m ms IH]; intros d; [done |].
  rewrite symbols_cons, foldl_app. unfold feed in *. simpl. rewrite IH. f_equal.
  generalize (ss_Symbols m). clear. intros l. revert d.
  induction l as [|w l IH]; intros d; [done |]. apply IH.
Qed.

(** A stream of the pump is honest for a fresh session with the default budget. *)
Lemma pumped_honest tx b e bs s0 recs ids :
  pumped tx 0 b e bs → b ≤ DefaultSyncMaxSymbols → fresh recs ids s0 → txid s0 = tx →
  honest (stampSyncSymbols <$> bs) s0.
Proof.
  intros [Hf Ht Hc _ _] Hb Hfr Htx. destruct (fresh_out _ _ _ Hfr) as (_ & Hm & _). split.
  - intros j m Hj. apply list_lookup_fmap_Some in Hj as (m' & -> & Hj).
    destruct (Hf j m' Hj) as (? & ? & ?). rewrite off_stamp. cbn [ss_TxID ss_Index ss_Symbols stampSyncSymbols].
    split_and!; [congruence | lia | done].
  - rewrite off_total, symbols_stamp, Hm. lia.
  - rewrite length_fmap. unfold MaxSymbolsPerMessage, DefaultSyncMaxSymbols, len in *. lia.
  - apply Hfr.
Qed.

(** ** The order of the requested identities *)
Lemma less_go_asym a b : less_go a b = true → less_go b a = false.
Proof.
  revert b. induction a as [|x a IH]; intros [|y b]; try done. simpl.
  destruct (Z.eqb_spec (b2z x) (b2z y)) as [->|Hne]; simpl; [rewrite Z.eqb_refl; apply IH |].
  rewrite (proj2 (Z.eqb_neq (b2z y) (b2z x))) by congruence. simpl.
  intros Hlt%Z.ltb_lt. apply Z.ltb_ge. lia.
Qed.

#[export] Instance le32_total : Total le32.
Proof.
  intros a b. unfold le32, less32. destruct (less_go (sl b) (sl a)) eqn:E; [|by left].
  right. by apply less_go_asym.
Qed.

Lemma elem_of_NeedIDs s i : i ∈ NeedIDs s ↔ i ∈ Riblt.Added (dec s).
Proof. unfold NeedIDs. by rewrite merge_sort_Permutation. Qed.

Lemma elem_of_RemovedRecords s r :
  (∀ i x, records s !! i = Some x → Record.ElementID x = i) →
  r ∈ RemovedRecords s ↔
  records s !! Record.ElementID r = Some r ∧ Record.ElementID r ∈ Riblt.Removed (dec s).
Proof.
  intros Hf. unfold RemovedRecords. rewrite list_elem_of_omap. split.
  - intros (i & Hi & Hr). by rewrite (Hf i r Hr).
  - intros [Hr Hi]. by exists (Record.ElementID r).
Qed.

Definition has_id (recs : list LocalRecord) (i : id) : Prop :=
  ∃ r, r ∈ recs ∧ Record.ElementID r = i.

Lemma Begin_fresh f recs ids s :
  fresh recs ids s → fresh recs ids (fst (Begin f s)) ∧ txid (fst (Begin f s)) = txid s.
Proof. intros [? ? ? ? ? ? ? ?]. split; [by split | done]. Qed.

(** The responder's budgets stay at their defaults. *)
Lemma ApplyBegin_fresh f recs ids s recs' ids' s' :
  fresh recs ids s → fresh recs' ids' s' → txid s = txid s' →
  ∃ R, ApplyBegin (snd (Begin f s)) s' = (R, Ok tt) ∧ fresh recs' ids' R ∧ txid R = txid s'.
Proof.
  intros Hf Hf' Htx. destruct (fresh_out _ _ _ Hf) as (_ & Hm & _).
  destruct (fresh_out _ _ _ Hf') as (_ & Hm' & _). unfold ApplyBegin. cbn [snd Begin sb_TxID sb_ElementSize sb_MaxSymbols].
  rewrite Htx, Z.eqb_refl. cbn [negb]. rewrite Hm, Hm', Z.ltb_irrefl, andb_false_r.
  eexists. split; [done |]. destruct Hf' as [? ? ? ? ? ? ? (? & ? & ?)]. split; [|done].
  split; try done.
Qed.

Lemma fresh_elems recs ids s : fresh recs ids s → Riblt.elems (enc s) = ids.
Proof. intros Hf. by rewrite (fresh_enc _ _ _ Hf), Riblt.encoder_elems. Qed.

Lemma pump_fresh k recs ids R :
  fresh recs ids R → pumped (txid R) 0 DefaultSyncMaxSymbols (Riblt.encoder ids) (fst (pump k R)).
Proof.
  intros Hf. destruct (fresh_out _ _ _ Hf) as (Ho & Hm & _).
  pose proof (pump_pumped k R) as Hp. rewrite Ho, Hm, (fresh_enc _ _ _ Hf), Z.sub_0_r in Hp.
  apply Hp; [by rewrite Riblt.encoder_elems | done | done].
Qed.

Lemma reconcile L S idsL idsS I R k ms :
  fresh L idsL I → fresh S idsS R → txid I = txid R →
  let sent := fst (pump k R) in
  let n := length (symbols sent) in
  (∀ m, m ∈ ms ↔ m ∈ stampSyncSymbols <$> sent) →
  ∃ I', arrive ms I = (I', Ok tt) ∧ pendingSymbols I' = ∅ ∧ symbolsIn I' = Z.of_nat n ∧
    dec I' = Riblt.run idsL (Riblt.stream n (Riblt.encoder idsS)) ∧
    snd (ShouldInitiatorConverge I')
      = (Converged I' && (convergeSymbolFloor <=? Z.of_nat n)) || (Z.of_nat n =? DefaultSyncMaxSymbols) ∧
    (Riblt.no_false_pure idsS idsL n → Riblt.no_false_zero idsS idsL n → Converged I' = true →
     Sorted le32 (NeedIDs I') ∧ (∀ i, i ∈ NeedIDs I' ↔ has_id S i ∧ ¬ has_id L i) ∧
     (∀ r, r ∈ RemovedRecords I' ↔
        records I !! Record.ElementID r = Some r ∧ ¬ has_id S (Record.ElementID r))).
Proof.
  intros HL HS Htx sent n Hms. pose proof (pump_fresh k S idsS R HS) as Hp. fold sent in Hp.
  pose proof (pumped_honest _ _ _ _ I _ _ Hp ltac:(done) HL Htx) as Hh.
  destruct (arrive_all _ I Hh ms Hms) as (I' & Ha & Hc & Hpend).
  assert (Hin : symbolsIn I' = Z.of_nat n) by (by rewrite (core_in _ _ _ _ Hc), off_total, symbols_stamp).
  assert (Hdec : dec I' = Riblt.run idsL (Riblt.stream n (Riblt.encoder idsS))).
  { rewrite (core_dec _ _ _ _ Hc), firstn_all, feed_symbols, symbols_stamp, (fresh_dec _ _ _ HL).
    unfold Riblt.run. f_equal. apply (pumped_stream _ _ _ _ _ Hp). }
  assert (Hn : Z.of_nat n < 2 ^ 64).
  { pose proof (pumped_total _ _ _ _ _ Hp). unfold len, DefaultSyncMaxSymbols in *. unfold n. lia. }
  exists I'. split_and!; [done | done | done | done | |].
  - unfold ShouldInitiatorConverge, Converged.
    rewrite (core_fired _ _ _ _ Hc). destruct (fresh_out _ _ _ HL) as (_ & _ & ->). cbn [snd].
    rewrite Hin, (core_done _ _ _ _ Hc), firstn_all, done_stamp, (pumped_done _ _ _ _ _ Hp). f_equal.
    destruct (Z.eqb_spec (Z.of_nat n) DefaultSyncMaxSymbols);
      [by apply bool_decide_eq_true | by apply bool_decide_eq_false].
  - intros Hpure Hzero Hconv. unfold Converged in Hconv. rewrite Hdec in Hconv.
    destruct (Riblt.converged_exact idsS idsL n (fresh_NoDup _ _ _ HS) (fresh_NoDup _ _ _ HL) Hn Hpure
                Hzero Hconv) as [HA HR].
    split_and!; [apply Sorted_merge_sort, _ | |].
    + intros i. rewrite elem_of_NeedIDs, Hdec, HA, (fresh_ids _ _ _ HS), (fresh_ids _ _ _ HL). done.
    + intros r. rewrite elem_of_RemovedRecords, (core_records _ _ _ _ Hc), Hdec, HR.
      * rewrite (fresh_ids _ _ _ HS). rewrite <-(fresh_dom _ _ _ HL). unfold has_id. split.
        -- tauto.
        -- intros [Hr Hno]. split_and!; [done | by eexists | done].
      * intros i x. rewrite (core_records _ _ _ _ Hc). apply (fresh_records _ _ _ HL).
Qed.

(** [C15] Reconciliation over an unordered connection.  An initiator with the
    records [L] opens a session, a responder with the records [S] accepts it and
    streams batches of symbols until it is stopped.  Every frame it sends is
    within the caps of the wire format.  Whatever the order in which the batches
    arrive, and however often, no batch is refused, the reorder buffer drains,
    and the decoder ends exactly where in-order delivery leaves it.  The
    initiator finalises when the decoder has converged on 256 symbols or more,
    or when the responder's budget of 2000 symbols has run out.  When the decoder
    has converged (and no combination of differing identities imitates a pure or
    an empty symbol), the identities requested are exactly those of [S] missing
    from [L], sorted and without duplicates, and the records pushed are exactly
    those of the initiator the responder lacks. *)
Theorem session_reconciles (now now' tx : Z) (f : SyncFilter) (L S : list LocalRecord) (k : nat)
    (ms : list SyncSymbols) :
  let '(init, begin) := Begin f (NewSyncSession now tx RoleInitiator L) in
  let '(resp, accepted) := ApplyBegin begin (NewSyncSession now' tx RoleResponder S) in
  let sent := fst (pump k resp) in
  let n := length (symbols sent) in
  accepted = Ok tt ∧ Forall symbols_within sent ∧
  ((∀ m, m ∈ ms ↔ m ∈ stampSyncSymbols <$> sent) →
   ∃ init', arrive ms init = (init', Ok tt) ∧ pendingSymbols init' = ∅ ∧ symbolsIn init' = Z.of_nat n ∧
     dec init' = Riblt.run (Riblt.elems (enc init)) (Riblt.stream n (Riblt.encoder (Riblt.elems (enc resp)))) ∧
     snd (ShouldInitiatorConverge init')
       = (Converged init' && (convergeSymbolFloor <=? Z.of_nat n)) || (Z.of_nat n =? DefaultSyncMaxSymbols) ∧
     (Riblt.no_false_pure (Riblt.elems (enc resp)) (Riblt.elems (enc init)) n →
      Riblt.no_false_zero (Riblt.elems (enc resp)) (Riblt.elems (enc init)) n →
      Converged init' = true →
      Sorted le32 (NeedIDs init') ∧
      (∀ i, i ∈ NeedIDs init' ↔ has_id S i ∧ ¬ has_id L i) ∧
      (∀ r, r ∈ RemovedRecords init' ↔
         records init !! Record.ElementID r = Some r ∧ ¬ has_id S (Record.ElementID r)))).
Proof.
  destruct (NewSyncSession_fresh now tx RoleInitiator L) as (idsL & HL & HtL).
  destruct (NewSyncSession_fresh now' tx RoleResponder S) as (idsS & HS & HtS).
  destruct (Begin_fresh f L idsL _ HL) as [HI HtI].
  destruct (ApplyBegin_fresh f _ _ _ _ _ _ HL HS ltac:(congruence)) as (resp & HR & HRf & HtR).
  destruct (Begin f _) as [init begin]. cbn [fst snd] in *. rewrite HR. cbv zeta.
  rewrite (fresh_elems _ _ _ HI), (fresh_elems _ _ _ HRf).
  split_and!; [done | apply pump_within |]. apply (reconcile L S); [done | done | congruence].
Qed.

(** ** Budgets

    Any sequence of operations, with any arguments, honest or not. *)
Inductive step : SyncSession → SyncSession → Prop :=
  | step_begin f s : step s (fst (Begin f s))
  | step_apply_begin m s : step s (fst (ApplyBegin m s))
  | step_produce n s : step s (fst (ProduceSymbols n s))
  | step_symbols m s : step s (fst (ApplySymbols m s))
  | step_converge s : step s (fst (ShouldInitiatorConverge s))
  | step_need ids s : step s (fst (NeedFrame ids s))
  | step_build recs missing s : step s (fst (BuildRecordsFrame recs missing s))
  | step_records m s : step s (fst (ApplyRecords m s))
  | step_finish status s : step s (fst (Finish status s))
  | step_end m s : step s (fst (ApplyEnd m s))
  | step_touch now s : step s (touch now s)
  | step_stop s : step s (StopPump s).

Record bounded (s : SyncSession) : Prop := {
  bounded_max : 0 < maxSymbols s ≤ DefaultSyncMaxSymbols ∧ 0 < maxBytes s ≤ DefaultSyncMaxBytes;
  bounded_out : 0 ≤ symbolsOut s ≤ DefaultSyncMaxSymbols;
  bounded_in : 0 ≤ symbolsIn s ≤ DefaultSyncMaxSymbols;
  bounded_bytes : 0 ≤ bytesIn s ≤ DefaultSyncMaxBytes;
  bounded_pending : Z.of_nat (size (pendingSymbols s)) ≤ maxPendingSymbolBatches
}.

(** What no operation undoes. *)
Definition keeps (s s' : SyncSession) : Prop :=
  txid s' = txid s ∧ role s' = role s ∧ records s' = records s ∧
  maxSymbols s' ≤ maxSymbols s ∧ maxBytes s' ≤ maxBytes s ∧
  symbolsIn s ≤ symbolsIn s' ∧ bytesIn s ≤ bytesIn s' ∧
  (convergeFired s = true → convergeFired s' = true) ∧
  (pumpStopped s = true → pumpStopped s' = true).

#[export] Instance keeps_refl : Reflexive keeps.
Proof. intros s. unfold keeps. split_and!; (done || lia). Qed.
#[export] Instance keeps_trans : Transitive keeps.
Proof.
  intros s1 s2 s3 (? & ? & ? & ? & ? & ? & ? & ? & ?) (? & ? & ? & ? & ? & ? & ? & ? & ?).
  unfold keeps. split_and!; try congruence; try lia; auto.
Qed.

Lemma bounded_same s s' :
  bounded s → maxSymbols s' = maxSymbols s → maxBytes s' = maxBytes s → symbolsOut s' = symbolsOut s →
  symbolsIn s' = symbolsIn s → bytesIn s' = bytesIn s → pendingSymbols s' = pendingSymbols s → bounded s'.
Proof. intros [] E1 E2 E3 E4 E5 E6. by split; rewrite ?E1, ?E2, ?E3, ?E4, ?E5, ?E6. Qed.

Lemma wire_size_nonneg recs : 0 ≤ wire_size recs.
Proof.
  induction recs as [|r recs IH]; [done |]. cbn [wire_size foldr]. fold (wire_size recs).
  unfold RecordCache.syncRecordWireSize. pose proof (len_nonneg (Record.Kw r)). lia.
Qed.

Lemma apply_batches_step fuel m s :
  bounded s → bounded (fst (apply_batches fuel m s)) ∧ keeps s (fst (apply_batches fuel m s)).
Proof.
  revert m s. induction fuel as [|fuel IH]; intros m s Hb; cbn [apply_batches];
    destruct (Z.ltb_spec (maxSymbols s) (symbolsIn s + len (ss_Symbols m))) as [|Hle];
    try (cbn [fst]; by split); set (s1 := set_in _ _ _ s);
    pose proof (len_nonneg (ss_Symbols m));
    (assert (Hb1 : bounded s1) by
      (destruct Hb as [[Hm ?] ? ? ? ?]; split; cbn; (done || lia)));
    (assert (Hk1 : keeps s s1) by (unfold keeps; split_and!; (done || (cbn; lia))));
    destruct (pendingSymbols s1 !! symbolsIn s1) as [next|] eqn:E; try (cbn [fst]; by split);
    set (s2 := set_pending _ s1);
    (assert (Hb2 : bounded s2) by
      (destruct Hb1 as [? ? ? ? Hp]; split; try done; unfold s2; cbn [pendingSymbols set_pending];
       rewrite map_size_delete_Some by (by eexists); lia));
    (assert (Hk2 : keeps s s2) by exact Hk1); [by split |].
  destruct (IH next s2 Hb2) as [? ?]. split; [done | by etrans].
Qed.

Lemma step_bounded s s' : bounded s → step s s' → bounded s' ∧ keeps s s'.
Proof.
  intros Hb. assert (Hsame : ∀ s', (bounded s → bounded s') → keeps s s' → bounded s' ∧ keeps s s') by auto.
  pose proof Hb as [[Hm1 Hm2] Ho Hi Hy Hp].
  intros Hst. destruct Hst as [f s|m s|n s|m s|s|ids s|recs missing s|m s|st s|m s|now s|s].
  - split; [by eapply bounded_same | by split_and!].
  - unfold ApplyBegin. repeat case_match; cbn [fst]; try (by split; [|reflexivity]).
    all: split; [split | unfold keeps; split_and!]; cbn; try done; try lia.
    all: repeat case_match; lia.
  - unfold ProduceSymbols. cbv zeta.
    set (c := if maxSymbols s - symbolsOut s <? _ then _ else _).
    destruct (Z.leb_spec c 0) as [|Hc]; [by split; [|reflexivity] |].
    destruct (produce (Z.to_nat c) (enc s)) as [syms e]. cbn [fst].
    assert (c ≤ maxSymbols s - symbolsOut s) by (unfold c; repeat case_match; lia).
    split; [split; cbn; (done || lia) | unfold keeps; by split_and!].
  - unfold ApplySymbols. destruct (negb _); [by split; [|reflexivity] |]. cbv zeta.
    set (s1 := set_phase _ s). assert (Hb1 : bounded s1) by by eapply bounded_same.
    assert (Hk1 : keeps s s1) by (unfold keeps; by split_and!).
    destruct (ss_Index m <? symbolsIn s1); [by split |].
    destruct (symbolsIn s1 <? ss_Index m).
    + destruct (pendingSymbols s1 !! ss_Index m) eqn:E; [by split |].
      destruct (Z.leb_spec maxPendingSymbolBatches (Z.of_nat (size (pendingSymbols s1)))); [by split |].
      cbn [fst]. split; [|unfold keeps; by split_and!].
      destruct Hb1 as [? ? ? ? Hp1]. split; try done. cbn [pendingSymbols set_pending].
      rewrite map_size_insert_None by done. unfold maxPendingSymbolBatches in *. lia.
    + destruct (apply_batches_step (size (pendingSymbols s1)) m s1 Hb1). split; [done | by etrans].
  - unfold ShouldInitiatorConverge. destruct (convergeFired s) eqn:E; [by split; [|reflexivity] |].
    cbv zeta. cbn [fst]. destruct (_ || _); [|by split; [|reflexivity]].
    split; [by eapply bounded_same | unfold keeps; by split_and!].
  - unfold NeedFrame. case_match; cbn [fst]; [by split; [|reflexivity] |].
    split; [by eapply bounded_same | unfold keeps; by split_and!].
  - unfold BuildRecordsFrame. case_match; cbn [fst]; [by split; [|reflexivity] |].
    split; [by eapply bounded_same | unfold keeps; by split_and!].
  - unfold ApplyRecords. cbv zeta. repeat (destruct (negb _) || destruct (_ || _));
      try (by split; [|reflexivity]).
    all: try (destruct (_ <? len _); [by split; [|reflexivity] |]).
    all: repeat (destruct (negb _)); try (by split; [|reflexivity]).
    all: set (out := fromWireRecord <$> _); pose proof (wire_size_nonneg out);
      pose proof (len_nonneg (sr_Missing m));
      destruct (Z.ltb_spec (maxBytes s) (bytesIn s + (wire_size out + 32 * len (sr_Missing m))));
      [by split; [|reflexivity] |].
    all: cbn [fst]; split; [split; cbn; (done || lia) | unfold keeps; split_and!; (done || (cbn; lia))].
  - split; [by eapply bounded_same | by split_and!].
  - unfold ApplyEnd. case_match; cbn [fst]; [by split; [|reflexivity] |].
    split; [by eapply bounded_same | unfold keeps; by split_and!].
  - split; [by eapply bounded_same | by split_and!].
  - split; [by eapply bounded_same | by split_and!].
Qed.

Lemma steps_bounded s s' : bounded s → rtc step s s' → bounded s' ∧ keeps s s'.
Proof.
  intros Hb Hs. induction Hs as [|s1 s2 s3 H12 H23 IH]; [by split; [|reflexivity] |].
  destruct (step_bounded s1 s2 Hb H12) as [Hb2 Hk]. destruct (IH Hb2) as [? Hk3].
  split; [done | by etrans].
Qed.

Lemma NewSyncSession_bounded now tx r recs : bounded (NewSyncSession now tx r recs).
Proof.
  unfold NewSyncSession. set (s0 := mkSession _ _ _ _ _ _ _ _ _ _ _ _ _ _ _ _ _ _).
  assert (H0 : bounded s0) by (by split).
  generalize dependent s0. induction recs as [|x recs IH]; intros s0 H0; [done |]. apply IH.
  unfold add_record. destruct (records s0 !! _); [done |]. by eapply bounded_same.
Qed.

Lemma ApplyRecords_ok m s s' recs :
  ApplyRecords m s = (s', Ok recs) →
  recs = fromWireRecord <$> default [] (sr_Records m) ∧ len recs ≤ MaxRecordsPerMessage ∧
  bytesIn s' = bytesIn s + wire_size recs + 32 * len (sr_Missing m) ∧ bytesIn s' ≤ maxBytes s ∧
  recordsIn s' = recordsIn s + len recs ∧ phase s' = PhaseFulfilled.
Proof.
  unfold ApplyRecords. cbv zeta. destruct (negb _); [done |]. destruct (_ || _); [done |].
  destruct (Z.ltb_spec MaxRecordsPerMessage (len (default [] (sr_Records m)))); [done |].
  destruct (negb _); [done |]. set (out := fromWireRecord <$> _).
  destruct (Z.ltb_spec (maxBytes s) (bytesIn s + (wire_size out + 32 * len (sr_Missing m)))); [done |].
  intros [= <- <-]. split_and!; try done; cbn.
  - unfold out, len in *. rewrite length_fmap. lia.
  - lia.
Qed.

(** A session cannot be driven past its budgets.  After any sequence of
    operations with any arguments: at most 2000 symbols were sent and at most
    2000 absorbed, at most one mebibyte of records was accepted, at most 32
    batches wait in the reorder buffer, and negotiation only ever lowered the
    budgets.  Records are refused before symbols flow, accepted records are
    accounted and within the byte budget, and a frame of another transaction
    changes nothing.  The initiator finalises at most once: after
    [ShouldInitiatorConverge] has answered true it answers false for ever. *)
Lemma session_budgets (now tx : Z) (r : syncRole) (recs : list LocalRecord) (s : SyncSession)
    (Hs : rtc step (NewSyncSession now tx r recs) s) :
  bounded s ∧ keeps (NewSyncSession now tx r recs) s ∧
  (∀ m, phase s = PhaseIdle ∨ phase s = PhaseBegun → ∃ e, ApplyRecords m s = (s, Err e)) ∧
  (∀ m s' out, ApplyRecords m s = (s', Ok out) →
     len out ≤ MaxRecordsPerMessage ∧
     bytesIn s' = bytesIn s + wire_size out + 32 * len (sr_Missing m) ∧ bytesIn s' ≤ maxBytes s) ∧
  (∀ m, ss_TxID m ≠ txid s → ApplySymbols m s = (s, Err ErrSyncTxID)) ∧
  (∀ m, sr_TxID m ≠ txid s → ApplyRecords m s = (s, Err ErrSyncTxID)) ∧
  (∀ s', snd (ShouldInitiatorConverge s) = true → rtc step (fst (ShouldInitiatorConverge s)) s' →
     snd (ShouldInitiatorConverge s') = false).
Proof.
  destruct (steps_bounded _ s (NewSyncSession_bounded now tx r recs) Hs) as [Hb Hk].
  split_and!; [done | done | | | | |].
  - intros m Hp. unfold ApplyRecords. destruct (negb _); [by eexists |].
    destruct Hp as [-> | ->]; by eexists.
  - intros m s' out Ha. by destruct (ApplyRecords_ok m s s' out Ha) as (_ & ? & ? & ? & _).
  - intros m Hne. unfold ApplySymbols. by rewrite (proj2 (Z.eqb_neq _ _) Hne).
  - intros m Hne. unfold ApplyRecords. by rewrite (proj2 (Z.eqb_neq _ _) Hne).
  - intros s' Hfire Hrun.
    assert (Hf : convergeFired (fst (ShouldInitiatorConverge s)) = true).
    { unfold ShouldInitiatorConverge in *. destruct (convergeFired s) eqn:E; [done |].
      cbv zeta in *. cbn [fst snd] in *. by rewrite Hfire. }
    destruct (step_bounded s _ Hb (step_converge s)) as [Hb1 _].
    destruct (steps_bounded _ s' Hb1 Hrun) as [_ Hk'].
    unfold ShouldInitiatorConverge. destruct Hk' as (_ & _ & _ & _ & _ & _ & _ & Hk' & _).
    by rewrite (Hk' Hf).
Qed.

(** ** Example: the initiator lacks one record *)
Definition rec_ (t : Z) : LocalRecord :=
  Record.mk (zero_arr 32) (str "linux") (zero_arr 20) t 0 (zero_arr 64).
Definition no_filter : SyncFilter := {| Pubkeys := []; Since := 0; Prefix := [] |}.

Definition toy_initiator : SyncSession :=
  fst (Begin no_filter (NewSyncSession 0 7 RoleInitiator [rec_ 2])).
Definition toy_responder : SyncSession :=
  fst (ApplyBegin (snd (Begin no_filter (NewSyncSession 0 7 RoleInitiator [rec_ 2])))
         (NewSyncSession 0 7 RoleResponder [rec_ 2; rec_ 3; rec_ 2])).
Definition toy_batches : list SyncSymbols := stampSyncSymbols <$> fst (pump 1 toy_responder).
(** Every batch twice. *)
Definition toy_arrivals : list SyncSymbols := reverse toy_batches ++ toy_batches.

Lemma toy_arrivals_all m : m ∈ toy_arrivals ↔ m ∈ toy_batches.
Proof. unfold toy_arrivals. rewrite elem_of_app, elem_of_reverse. tauto. Qed.

Definition toy_ids (l : list Z) : list id := (λ t, Record.ElementID (rec_ t)) <$> l.

Lemma toy_pure : Riblt.no_false_pure (Riblt.elems (enc toy_responder)) (Riblt.elems (enc toy_initiator)) 100.
Proof. apply Riblt.no_false_pureb_sound. by vm_compute. Qed.
Lemma toy_zero : Riblt.no_false_zero (Riblt.elems (enc toy_responder)) (Riblt.elems (enc toy_initiator)) 100.
Proof. apply Riblt.no_false_zerob_sound. by vm_compute. Qed.

Lemma toy_distinct t u : t ≠ u → t ∈ [2; 3] → u ∈ [2; 3] →
  Record.ElementID (rec_ t) ≠ Record.ElementID (rec_ u).
Proof.
  intros Hne Ht Hu. assert (Hn : NoDup (toy_ids [2; 3])) by (apply (bool_decide_unpack _); by vm_compute).
  intros He. apply Hne. by apply (NoDup_fmap_eq (λ t, Record.ElementID (rec_ t)) [2; 3]).
Qed.

Lemma toy_lacks : ¬ has_id [rec_ 2] (Record.ElementID (rec_ 3)).
Proof.
  intros (r & ->%list_elem_of_singleton & He). revert He.
  apply toy_distinct; [done | left | right; left].
Qed.

Lemma session_reconciles_witness :
  let i := fst (arrive toy_arrivals toy_initiator) in
  Converged i = true ∧ pendingSymbols i = ∅ ∧ symbolsIn i = 100 ∧
  Record.ElementID (rec_ 3) ∈ NeedIDs i.
Proof.
  intros i. pose proof (session_reconciles 0 0 7 no_filter [rec_ 2] [rec_ 2; rec_ 3; rec_ 2] 1
    toy_arrivals) as Hs.
  rewrite (surjective_pairing (Begin _ _)) in Hs. fold toy_initiator in Hs.
  rewrite (surjective_pairing (ApplyBegin _ _)) in Hs. fold toy_responder in Hs.
  destruct Hs as (_ & _ & Hs).
  destruct (Hs toy_arrivals_all) as (i' & Ha & Hp & Hin & _ & _ & Hx).
  assert (i' = i) as -> by (unfold i; by rewrite Ha).
  assert (Hn : length (symbols (fst (pump 1 toy_responder))) = 100%nat) by (vm_compute; reflexivity).
  rewrite Hn in *. assert (Hc : Converged i = true) by (vm_compute; reflexivity).
  destruct (Hx toy_pure toy_zero Hc) as (_ & Hneed & _).
  split_and!; [exact Hc | exact Hp | rewrite Hin; reflexivity |].
  apply Hneed. split; [exists (rec_ 3); split; [right; left | reflexivity] |]. exact toy_lacks.
Defined.

(** A batch far ahead of the stream waits in the buffer; records before any
    symbol are refused. *)
Definition early_batch : SyncSymbols := {|
  ss_MsgType := 5; ss_TxID := 7; ss_Index := 300; ss_Symbols := []; ss_Done := false
|}.
Definition early_records : SyncRecords := {|
  sr_MsgType := 7; sr_TxID := 7; sr_Records := None; sr_Missing := []
|}.

Lemma session_budgets_witness :
  let s := fst (ApplySymbols early_batch (NewSyncSession 0 7 RoleInitiator [])) in
  rtc step (NewSyncSession 0 7 RoleInitiator []) s ∧ bounded s ∧
  size (pendingSymbols s) = 1%nat ∧
  ApplyRecords early_records (NewSyncSession 0 7 RoleInitiator [])
  = (NewSyncSession 0 7 RoleInitiator [], Err ErrSyncPhase).
Proof.
  intros s. assert (Hs : rtc step (NewSyncSession 0 7 RoleInitiator []) s)
    by (apply rtc_once; constructor).
  destruct (session_budgets 0 7 RoleInitiator [] s Hs) as (Hb & _).
  split_and!; [exact Hs | exact Hb | vm_compute; reflexivity | reflexivity].
Defined.
End SyncSession.
