(* ===== verification/Protocol.v ===== *)
(** * The sn_search protocol engine (internal/swarmsearch/protocol.go, ports.go)

    The state every handler of the protocol shares, the monad the handlers are
    written in, and the handlers of the connection callbacks.  A handler runs to
    completion; what it hands to the transport, the reply closure and the
    injected sinks is a list of events. *)

From Stdlib Require Import SpecFloat.
From S2P Require Import Prelude GoInt Sha256 Externals Instances Record Riblt Utf8 GoFloat LtepServices Ltepwire LtepSync Misbehavior RecordCache SyncSession.
Open Scope Z_scope.

Module Protocol.

Definition announceQueueDepth : Z := 64.

Record Capabilities := { caps_Sharing : LtepServices.Sharing; caps_Services : Z }.
Definition no_capabilities : Capabilities := {|
  caps_Sharing := {| LtepServices.ShareLocal := 0; LtepServices.FileHits := false;
                     LtepServices.ContentHits := false |};
  caps_Services := 0
|}.

(** A token is minted by [OnRemoteHandshake]; the zero token authorises nothing. *)
Record PeerToken := { t_addr : bytes; t_epoch : Z }.
Definition zero_token : PeerToken := {| t_addr := []; t_epoch := 0 |}.
Definition valid (t : PeerToken) : bool := negb (bool_decide (t_addr t = [])).

Record PeerState := {
  Addr : bytes; SeenAt : Z; Supported : bool; RemoteExtID : Z; token : PeerToken;
  Services : Z; Version : Z; PublisherPubkey : array 32; hasPubkey : bool
}.
Definition new_peer (now : Z) (addr : bytes) : PeerState := {|
  Addr := addr; SeenAt := now; Supported := false; RemoteExtID := 0; token := zero_token;
  Services := 0; Version := 0; PublisherPubkey := zero_arr 32; hasPubkey := false
|}.

Record LocalHit := {
  DocType : bytes; InfoHash : bytes; Name : bytes; SizeBytes : Z; AddedAt : Z; Seeders : Z;
  Leechers : Z; FileIndex : Z; FilePath : bytes; Score : float64
}.

(** An outbound query waiting for answers: the channel [results] with its
    capacity, the peers asked and those that have answered. *)
Record incomingResult := {
  fromAddr : bytes; reject : bool; code : Z; total : Z; hits : list Ltepwire.Hit
}.
Record pendingQuery := {
  pq_txid : Z; asked : gset bytes; results : list incomingResult; results_cap : Z;
  responded : gset bytes
}.

(** A [*SyncSession] is an identity: the registry, a running pump and the caller
    of [StartSync] share the session it names in [heap].  [pumps] are the pump
    goroutines that have not returned. *)
Abbreviation sid := N.

(** The injected collaborators: a searcher and a record source answer; of a
    transport, a sink or an observer only the presence is known.  The
    capabilities are those the source answers now. *)
Record Protocol := mkProtocol {
  peers : gmap bytes PeerState;
  searcher : option (bytes → Z → option (Z * list LocalHit));
  transport : bool;
  capsFn : option Capabilities;
  pubkey : array 32;
  hasPub : bool;
  epoch : Z;
  idxSink : bool;
  endSink : bool;
  recordSource : option (LtepSync.SyncFilter → option (list Record.Record));
  recordSink : bool;
  pubObserver : bool;
  syncSessions : gmap bytes (gmap Z sid);
  heap : gmap sid SyncSession.SyncSession;
  pumps : gmap sid PeerToken;
  limiter : Misbehavior.rateLimiter;
  ban : Misbehavior.banman;
  pending : gmap Z pendingQuery;
  txid : Z;
  announceCh : list PeerToken;
  closed : bool
}.

Definition set_peers v_peers (p : Protocol) : Protocol :=
  mkProtocol v_peers (searcher p) (transport p) (capsFn p) (pubkey p) (hasPub p) (epoch p)
    (idxSink p) (endSink p) (recordSource p) (recordSink p) (pubObserver p) (syncSessions p)
    (heap p) (pumps p) (limiter p) (ban p) (pending p) (txid p) (announceCh p) (closed p).
Definition set_epoch v_epoch (p : Protocol) : Protocol :=
  mkProtocol (peers p) (searcher p) (transport p) (capsFn p) (pubkey p) (hasPub p) v_epoch
    (idxSink p) (endSink p) (recordSource p) (recordSink p) (pubObserver p) (syncSessions p)
    (heap p) (pumps p) (limiter p) (ban p) (pending p) (txid p) (announceCh p) (closed p).
Definition set_sessions v_syncSessions (p : Protocol) : Protocol :=
  mkProtocol (peers p) (searcher p) (transport p) (capsFn p) (pubkey p) (hasPub p) (epoch p)
    (idxSink p) (endSink p) (recordSource p) (recordSink p) (pubObserver p) v_syncSessions (heap
    p) (pumps p) (limiter p) (ban p) (pending p) (txid p) (announceCh p) (closed p).
Definition set_heap v_heap (p : Protocol) : Protocol :=
  mkProtocol (peers p) (searcher p) (transport p) (capsFn p) (pubkey p) (hasPub p) (epoch p)
    (idxSink p) (endSink p) (recordSource p) (recordSink p) (pubObserver p) (syncSessions p)
    v_heap (pumps p) (limiter p) (ban p) (pending p) (txid p) (announceCh p) (closed p).
Definition set_pumps v_pumps (p : Protocol) : Protocol :=
  mkProtocol (peers p) (searcher p) (transport p) (capsFn p) (pubkey p) (hasPub p) (epoch p)
    (idxSink p) (endSink p) (recordSource p) (recordSink p) (pubObserver p) (syncSessions p)
    (heap p) v_pumps (limiter p) (ban p) (pending p) (txid p) (announceCh p) (closed p).
Definition set_limiter v_limiter (p : Protocol) : Protocol :=
  mkProtocol (peers p) (searcher p) (transport p) (capsFn p) (pubkey p) (hasPub p) (epoch p)
    (idxSink p) (endSink p) (recordSource p) (recordSink p) (pubObserver p) (syncSessions p)
    (heap p) (pumps p) v_limiter (ban p) (pending p) (txid p) (announceCh p) (closed p).
Definition set_ban v_ban (p : Protocol) : Protocol :=
  mkProtocol (peers p) (searcher p) (transport p) (capsFn p) (pubkey p) (hasPub p) (epoch p)
    (idxSink p) (endSink p) (recordSource p) (recordSink p) (pubObserver p) (syncSessions p)
    (heap p) (pumps p) (limiter p) v_ban (pending p) (txid p) (announceCh p) (closed p).
Definition set_pending v_pending (p : Protocol) : Protocol :=
  mkProtocol (peers p) (searcher p) (transport p) (capsFn p) (pubkey p) (hasPub p) (epoch p)
    (idxSink p) (endSink p) (recordSource p) (recordSink p) (pubObserver p) (syncSessions p)
    (heap p) (pumps p) (limiter p) (ban p) v_pending (txid p) (announceCh p) (closed p).
Definition set_txid v_txid (p : Protocol) : Protocol :=
  mkProtocol (peers p) (searcher p) (transport p) (capsFn p) (pubkey p) (hasPub p) (epoch p)
    (idxSink p) (endSink p) (recordSource p) (recordSink p) (pubObserver p) (syncSessions p)
    (heap p) (pumps p) (limiter p) (ban p) (pending p) v_txid (announceCh p) (closed p).
Definition set_announce v_announceCh (p : Protocol) : Protocol :=
  mkProtocol (peers p) (searcher p) (transport p) (capsFn p) (pubkey p) (hasPub p) (epoch p)
    (idxSink p) (endSink p) (recordSource p) (recordSink p) (pubObserver p) (syncSessions p)
    (heap p) (pumps p) (limiter p) (ban p) (pending p) (txid p) v_announceCh (closed p).
Definition SetSearcher v_searcher (p : Protocol) : Protocol :=
  mkProtocol (peers p) v_searcher (transport p) (capsFn p) (pubkey p) (hasPub p) (epoch p)
    (idxSink p) (endSink p) (recordSource p) (recordSink p) (pubObserver p) (syncSessions p)
    (heap p) (pumps p) (limiter p) (ban p) (pending p) (txid p) (announceCh p) (closed p).
Definition SetTransport v_transport (p : Protocol) : Protocol :=
  mkProtocol (peers p) (searcher p) v_transport (capsFn p) (pubkey p) (hasPub p) (epoch p)
    (idxSink p) (endSink p) (recordSource p) (recordSink p) (pubObserver p) (syncSessions p)
    (heap p) (pumps p) (limiter p) (ban p) (pending p) (txid p) (announceCh p) (closed p).
Definition SetCapabilitySource v_capsFn (p : Protocol) : Protocol :=
  mkProtocol (peers p) (searcher p) (transport p) v_capsFn (pubkey p) (hasPub p) (epoch p)
    (idxSink p) (endSink p) (recordSource p) (recordSink p) (pubObserver p) (syncSessions p)
    (heap p) (pumps p) (limiter p) (ban p) (pending p) (txid p) (announceCh p) (closed p).
Definition SetPublisherPubkey v_pubkey v_hasPub (p : Protocol) : Protocol :=
  mkProtocol (peers p) (searcher p) (transport p) (capsFn p) v_pubkey v_hasPub (epoch p)
    (idxSink p) (endSink p) (recordSource p) (recordSink p) (pubObserver p) (syncSessions p)
    (heap p) (pumps p) (limiter p) (ban p) (pending p) (txid p) (announceCh p) (closed p).
Definition SetIndexerSink v_idxSink (p : Protocol) : Protocol :=
  mkProtocol (peers p) (searcher p) (transport p) (capsFn p) (pubkey p) (hasPub p) (epoch p)
    v_idxSink (endSink p) (recordSource p) (recordSink p) (pubObserver p) (syncSessions p) (heap
    p) (pumps p) (limiter p) (ban p) (pending p) (txid p) (announceCh p) (closed p).
Definition SetEndorsementSink v_endSink (p : Protocol) : Protocol :=
  mkProtocol (peers p) (searcher p) (transport p) (capsFn p) (pubkey p) (hasPub p) (epoch p)
    (idxSink p) v_endSink (recordSource p) (recordSink p) (pubObserver p) (syncSessions p) (heap
    p) (pumps p) (limiter p) (ban p) (pending p) (txid p) (announceCh p) (closed p).
Definition SetRecordSource v_recordSource (p : Protocol) : Protocol :=
  mkProtocol (peers p) (searcher p) (transport p) (capsFn p) (pubkey p) (hasPub p) (epoch p)
    (idxSink p) (endSink p) v_recordSource (recordSink p) (pubObserver p) (syncSessions p) (heap
    p) (pumps p) (limiter p) (ban p) (pending p) (txid p) (announceCh p) (closed p).
Definition SetRecordSink v_recordSink (p : Protocol) : Protocol :=
  mkProtocol (peers p) (searcher p) (transport p) (capsFn p) (pubkey p) (hasPub p) (epoch p)
    (idxSink p) (endSink p) (recordSource p) v_recordSink (pubObserver p) (syncSessions p) (heap
    p) (pumps p) (limiter p) (ban p) (pending p) (txid p) (announceCh p) (closed p).
Definition SetPublisherObserver v_pubObserver (p : Protocol) : Protocol :=
  mkProtocol (peers p) (searcher p) (transport p) (capsFn p) (pubkey p) (hasPub p) (epoch p)
    (idxSink p) (endSink p) (recordSource p) (recordSink p) v_pubObserver (syncSessions p) (heap
    p) (pumps p) (limiter p) (ban p) (pending p) (txid p) (announceCh p) (closed p).
Definition set_closed v_closed (p : Protocol) : Protocol :=
  mkProtocol (peers p) (searcher p) (transport p) (capsFn p) (pubkey p) (hasPub p) (epoch p)
    (idxSink p) (endSink p) (recordSource p) (recordSink p) (pubObserver p) (syncSessions p)
    (heap p) (pumps p) (limiter p) (ban p) (pending p) (txid p) (announceCh p) v_closed.

(** [New]. *)
Definition New : Protocol :=
  mkProtocol ∅ None false None (zero_arr 32) false 0 false false None false false ∅ ∅ ∅
    (Misbehavior.newRateLimiter Misbehavior.DefaultRateLimit) Misbehavior.newBanman ∅ 0 [] false.

Definition Close : Protocol → Protocol := set_closed true.
Definition SetRateLimit (rl : Misbehavior.RateLimit) (p : Protocol) : Protocol :=
  set_limiter (Misbehavior.setConfig rl (limiter p)) p.

(** ** Effects *)
Inductive event : Type :=
  | Sent (to : PeerToken) (frame : bytes)
  | Replied (frame : bytes)
  | NotedIndexer (pk : array 32) (label : bytes)
  | NotedEndorsement (endorser candidate : array 32)
  | SinkAdded (r : Record.Record)
  | PublisherSeen (pk : array 32).

(** A handler: the state after, the events in their order and the answer. *)
Definition M (A : Type) : Type := Protocol → Protocol * list event * A.
#[export] Instance M_ret : MRet M := λ A a p, (p, [], a).
#[export] Instance M_bind : MBind M := λ A B f m p,
  let '(p, es, a) := m p in let '(p, es', b) := f a p in (p, es ++ es', b).

Lemma bind_M {A B} (m : M A) (f : A → M B) p :
  (m ≫= f) p = let '(p, es, a) := m p in let '(p, es', b) := f a p in (p, es ++ es', b).
Proof. done. Qed.

Definition gets {A} (f : Protocol → A) : M A := λ p, (p, [], f p).
Definition modify (f : Protocol → Protocol) : M unit := λ p, (f p, [], tt).
Definition emit (e : event) : M unit := λ p, (p, [e], tt).
Definition skip : M unit := mret tt.

Definition state_of {A} (m : M A) (p : Protocol) : Protocol := (m p).1.1.
Definition events_of {A} (m : M A) (p : Protocol) : list event := (m p).1.2.
Definition answer_of {A} (m : M A) (p : Protocol) : A := (m p).2.

(** [p.ban.Add(addr, pts)] and [p.ban.IsBanned(addr)]. *)
Definition charge (now : Z) (addr : bytes) (pts : Z) : M unit :=
  modify (λ p, set_ban (fst (Misbehavior.Add now addr pts (ban p))) p).
Definition isBanned (now : Z) (addr : bytes) : M bool := λ p,
  let '(b, r) := Misbehavior.IsBanned now addr (ban p) in (set_ban b p, [], r).
Definition allow (now : Z) (addr : bytes) : M bool := λ p,
  let '(l, r) := Misbehavior.Allow now addr (limiter p) in (set_limiter l p, [], r).

Definition caps : M Capabilities := gets (λ p, default no_capabilities (capsFn p)).

Definition nextTxID : M Z := λ p,
  let t := u32 (txid p + 1) in (set_txid t p, [], t).

Definition sendVia (to : PeerToken) (frame : bytes) : M unit :=
  t ← gets transport; if (t : bool) then emit (Sent to frame) else skip.

Definition peerToken (addr : bytes) : M (option PeerToken) := gets (λ p,
  match peers p !! addr with
  | Some ps => if valid (token ps) then Some (token ps) else None
  | None => None
  end).

Definition peerHasReconciliation (addr : bytes) : M bool := gets (λ p,
  match peers p !! addr with
  | Some ps => LtepServices.Has (Services ps) LtepServices.BitSetReconciliation
  | None => false
  end).

(** ** Connections *)
Definition NotePeerAdded (now : Z) (addr : bytes) : M unit := modify (λ p,
  match peers p !! addr with
  | Some _ => p
  | None => set_peers (<[addr := new_peer now addr]> (peers p)) p
  end).

Definition advertise (ps : PeerState) (ext : Z) (sup : bool) (tok : PeerToken) : PeerState := {|
  Addr := Addr ps; SeenAt := SeenAt ps; Supported := sup; RemoteExtID := ext; token := tok;
  Services := Services ps; Version := Version ps; PublisherPubkey := PublisherPubkey ps;
  hasPubkey := hasPubkey ps
|}.

Definition OnRemoteHandshake (now : Z) (addr : bytes) (supported : bool) (remoteExtID : Z) : M unit :=
  banned ← isBanned now addr;
  if (banned : bool) then skip
  else modify (λ p,
    let ps := default (new_peer now addr) (peers p !! addr) in
    if supported && negb (remoteExtID =? 0) then
      if Supported ps
      then set_peers (<[addr := advertise ps remoteExtID true (token ps)]> (peers p)) p
      else
        let e := u64 (epoch p + 1) in
        let tok := {| t_addr := addr; t_epoch := e |} in
        let p := set_epoch e (set_peers (<[addr := advertise ps remoteExtID true tok]> (peers p)) p) in
        if len (announceCh p) <? announceQueueDepth then set_announce (announceCh p ++ [tok]) p else p
    else set_peers (<[addr := advertise ps remoteExtID (Supported ps) (token ps)]> (peers p)) p).

(** [s.StopPump()] through a pointer. *)
Definition stop_sid (s : sid) (p : Protocol) : Protocol :=
  set_heap (alter SyncSession.StopPump s (heap p)) p.

Definition releaseAllSyncSessions (addr : bytes) (p : Protocol) : Protocol :=
  let m := default ∅ (syncSessions p !! addr) in
  let p := set_sessions (delete addr (syncSessions p)) p in
  foldl (λ p s, stop_sid s p) p (snd <$> map_to_list m).

Definition OnPeerClosed (addr : bytes) : M unit := modify (λ p,
  let p := set_peers (delete addr (peers p)) p in
  let p := set_limiter (Misbehavior.forget addr (limiter p)) p in
  let p := set_ban (Misbehavior.Forget addr (ban p)) p in
  releaseAllSyncSessions addr p).

Definition KnownPeers (p : Protocol) : Z := Z.of_nat (size (peers p)).
Definition CapablePeerCount (p : Protocol) : Z :=
  Z.of_nat (size (filter (λ a : bytes * PeerState, Supported a.2 = true) (peers p))).

(** The announce worker takes the head of the queue. *)
Section announce.
Context `{Bencode Ltepwire.PeerAnnounce}.

Definition sendAnnounce (tok : PeerToken) : M unit :=
  t ← gets transport;
  pk ← gets pubkey;
  hp ← gets hasPub;
  if negb t || negb (valid tok) then skip
  else
    c ← caps;
    let pa := {| Ltepwire.pa_MsgType := 0; Ltepwire.pa_Version := 0;
                 Ltepwire.pa_Services := caps_Services c;
                 Ltepwire.pa_Pk := if (hp : bool) then sl pk else []; Ltepwire.pa_Endorsed := [] |} in
    match Ltepwire.EncodePeerAnnounce pa with
    | Err _ => skip
    | Ok frame => emit (Sent tok frame)
    end.

Definition announceWorker : M unit :=
  q ← gets announceCh;
  match q with
  | [] => skip
  | tok :: q => modify (set_announce q);; sendAnnounce tok
  end.
End announce.
End Protocol.
