(* ===== verification/SwarmQuery.v ===== *)
(** * Outbound queries (internal/swarmsearch/query.go)

    The asked-set that guards the answers of a query, the loop that collects them
    and the merge of the hits of all peers. *)

From Stdlib Require Import SpecFloat.
From S2P Require Import Prelude GoInt Sha256 Externals Instances Record Utf8 Hex Ltepwire Misbehavior Protocol.
Open Scope Z_scope.

Module SwarmQuery.
Import Protocol.

Inductive error : Type :=
  | ErrEmptyQuery | ErrNoSender | ErrNoCapablePeers | ErrEncodeQuery (e : Ltepwire.error).

Record QueryRequest := { Q : bytes; Scope : bytes; Limit : Z }.

Record MergedHit := {
  m_InfoHash : bytes; m_Name : bytes; m_Size : Z; m_Seeders : Z; m_Score : Z;
  m_Sources : list bytes; m_Matches : list Ltepwire.FileMatch
}.

Record QueryResponse := {
  r_TxID : Z; r_Hits : list MergedHit; r_Asked : Z; r_Responded : Z; r_Rejected : Z
}.

(** ** Pending queries *)
Definition firstFrom (addr : bytes) (pq : pendingQuery) : pendingQuery * bool :=
  if bool_decide (addr ∈ responded pq) then (pq, false)
  else ({| pq_txid := pq_txid pq; asked := asked pq; results := results pq;
           results_cap := results_cap pq; responded := {[addr]} ∪ responded pq |}, true).

(** The send that gives up when the channel is full. *)
Definition offer (r : incomingResult) (pq : pendingQuery) : pendingQuery :=
  if len (results pq) <? results_cap pq then
    {| pq_txid := pq_txid pq; asked := asked pq; results := results pq ++ [r];
       results_cap := results_cap pq; responded := responded pq |}
  else pq.

Definition registerPending (pq : pendingQuery) : M unit :=
  modify (λ p, set_pending (<[pq_txid pq := pq]> (pending p)) p).
Definition lookupPending (txid : Z) : M (option pendingQuery) := gets (λ p, pending p !! txid).
Definition unregisterPending (txid : Z) : M unit :=
  modify (λ p, set_pending (delete txid (pending p)) p).

Definition supportedTargets (p : Protocol) : list PeerToken :=
  omap (λ a : bytes * PeerState,
    if Supported a.2 && valid (token a.2) then Some (token a.2) else None) (map_to_list (peers p)).

(** ** Routing of the answers *)
Definition resultIsMalformed (r : Ltepwire.Result) : bool :=
  let hits := default [] (Ltepwire.res_Hits r) in
  if (0 <? Ltepwire.res_Total r) && (len hits =? 0) then true
  else existsb (λ h, negb (len (Ltepwire.IH h) =? 20)) hits.

(** The tail both routes share: the asked set, the first-answer guard, the send. *)
Definition route (now : Z) (from : bytes) (txid : Z) (r : incomingResult) : M unit :=
  pend ← lookupPending txid;
  match pend with
  | None => charge now from Misbehavior.ScoreStaleTxID
  | Some pq =>
    if negb (bool_decide (from ∈ asked pq)) then charge now from Misbehavior.ScoreUnexpectedMessage
    else
      let '(pq, first) := firstFrom from pq in
      if negb first then skip else registerPending (offer r pq)
  end.

Definition routeResult (now : Z) (from : bytes) (r : Ltepwire.Result) : M unit :=
  if resultIsMalformed r then charge now from Misbehavior.ScoreMalformedResult
  else route now from (Ltepwire.res_TxID r)
         {| fromAddr := from; reject := false; code := 0; total := Ltepwire.res_Total r;
            hits := default [] (Ltepwire.res_Hits r) |}.

Definition routeReject (now : Z) (from : bytes) (rj : Ltepwire.Reject) : M unit :=
  route now from (Ltepwire.rej_TxID rj)
    {| fromAddr := from; reject := true; code := Ltepwire.rej_Code rj; total := 0; hits := [] |}.

(** ** Merging *)
Record merge_state := { byIH : gmap bytes MergedHit; order : list bytes; seenPeerIH : gset bytes }.

Definition new_merged (ihHex : bytes) : MergedHit := {|
  m_InfoHash := ihHex; m_Name := []; m_Size := 0; m_Seeders := 0; m_Score := 0; m_Sources := [];
  m_Matches := []
|}.

(** The first hit of a peer for an infohash scores and names the peer. *)
Definition credit (from : bytes) (rank : Z) (m : MergedHit) : MergedHit :=
  let score := i64 (m_Score m + rank) in
  {| m_InfoHash := m_InfoHash m; m_Name := m_Name m; m_Size := m_Size m; m_Seeders := m_Seeders m;
     m_Score := if 1000 <? score then 1000 else score; m_Sources := m_Sources m ++ [from];
     m_Matches := m_Matches m |}.

Definition absorb (h : Ltepwire.Hit) (m : MergedHit) : MergedHit := {|
  m_InfoHash := m_InfoHash m;
  m_Name := if bool_decide (m_Name m = []) && negb (bool_decide (Ltepwire.N h = []))
            then Ltepwire.N h else m_Name m;
  m_Size := if (m_Size m =? 0) && negb (Ltepwire.Sz h =? 0) then Ltepwire.Sz h else m_Size m;
  m_Seeders := if m_Seeders m <? Ltepwire.S_ h then Ltepwire.S_ h else m_Seeders m;
  m_Score := m_Score m; m_Sources := m_Sources m;
  m_Matches := m_Matches m ++ Ltepwire.Matches h
|}.

Definition merge_step (from : bytes) (s : merge_state) (h : Ltepwire.Hit) : merge_state :=
  if negb (len (Ltepwire.IH h) =? 20) then s
  else
    let ihHex := Hex.EncodeToString (Ltepwire.IH h) in
    let '(m, order') := match byIH s !! ihHex with
                        | Some m => (m, order s)
                        | None => (new_merged ihHex, order s ++ [ihHex]) end in
    let pk := from ++ str "|" ++ ihHex in
    let m := if bool_decide (pk ∈ seenPeerIH s) then m else credit from (Ltepwire.Rank h) m in
    {| byIH := <[ihHex := absorb h m]> (byIH s); order := order';
       seenPeerIH := {[pk]} ∪ seenPeerIH s |}.

Definition merge_result (s : merge_state) (r : incomingResult) : merge_state :=
  foldl (merge_step (fromAddr r)) s (hits r).

Definition before (a b : MergedHit) : bool :=
  if negb (m_Score a =? m_Score b) then m_Score b <? m_Score a else m_Seeders b <? m_Seeders a.

Definition mergeResponses (rs : list incomingResult) (limit : Z) : list MergedHit :=
  let s := foldl merge_result {| byIH := ∅; order := []; seenPeerIH := ∅ |} rs in
  let out := stable_sort before (omap (λ ih, byIH s !! ih) (order s)) in
  if (0 <? limit) && (limit <? len out) then take (Z.to_nat limit) out else out.

(** ** The query *)
Section query.
Context `{Bencode Ltepwire.Query}.

(** Up to the sends; [send_ok] tells which of them the transport accepts.  The
    answer is the transaction and the number of peers asked. *)
Definition Query_send (send_ok : PeerToken → bool) (req : QueryRequest) : M (result error (Z * Z)) :=
  if bool_decide (Q req = []) then mret (Err ErrEmptyQuery)
  else
    t ← gets transport;
    if negb t then mret (Err ErrNoSender)
    else
      targets ← gets supportedTargets;
      if len targets =? 0 then mret (Err ErrNoCapablePeers)
      else
        tx ← nextTxID;
        registerPending {| pq_txid := tx; asked := list_to_set (t_addr <$> targets); results := [];
                           results_cap := len targets; responded := ∅ |};;
        match Ltepwire.EncodeQuery
          {| Ltepwire.q_MsgType := 0; Ltepwire.q_TxID := tx; Ltepwire.q_Q := Q req;
             Ltepwire.q_Scope := Scope req; Ltepwire.q_Limit := Limit req; Ltepwire.q_Lang := [];
             Ltepwire.q_MinSize := 0; Ltepwire.q_MaxSize := 0; Ltepwire.q_NotIH := [] |} with
        | Err e => mret (Err (ErrEncodeQuery e))
        | Ok frame =>
          foldr (λ tok k, emit (Sent tok frame);; k) skip targets;;
          let sent := len (filter (λ tok, send_ok tok = true) targets) in
          if sent =? 0 then mret (Err ErrNoCapablePeers) else mret (Ok (tx, sent))
        end.
End query.

(** The collecting loop over what comes out of the channel before the deadline,
    for [n] more answers. *)
Fixpoint collect (n : nat) (items : list incomingResult) (resp rej : Z) (got : list incomingResult)
    : Z * Z * list incomingResult :=
  match n, items with
  | S n, i :: items =>
    if reject i then collect n items resp (rej + 1) got
    else collect n items (resp + 1) rej (got ++ [i])
  | _, _ => (resp, rej, got)
  end.

Definition Query_collect (tx sent : Z) (items : list incomingResult) (req : QueryRequest) : QueryResponse :=
  let '(resp, rej, got) := collect (Z.to_nat sent) items 0 0 [] in
  {| r_TxID := tx; r_Hits := mergeResponses got (Limit req); r_Asked := sent; r_Responded := resp;
     r_Rejected := rej |}.

(** ** The merge, infohash by infohash

    A contribution is one peer's hit with a proper infohash. *)
Abbreviation contribution := (bytes * Ltepwire.Hit)%type.

Definition contributions (rs : list incomingResult) : list contribution :=
  rs ≫= λ r, pair (fromAddr r) <$> filter (λ h, len (Ltepwire.IH h) = 20) (hits r).

Definition ih_key (c : contribution) : bytes := Hex.EncodeToString (Ltepwire.IH c.2).

Definition add_capped (s r : Z) : Z := let s := i64 (s + r) in if 1000 <? s then 1000 else s.

(** What the answer says of infohash [k], whose contributions are [l]. *)
Definition reference (k : bytes) (l : list contribution) : MergedHit := {|
  m_InfoHash := k;
  m_Name := default [] (head (filter (λ n, n ≠ []) ((λ c, Ltepwire.N c.2) <$> l)));
  m_Size := default 0 (head (filter (λ n, n ≠ 0) ((λ c, Ltepwire.Sz c.2) <$> l)));
  m_Seeders := foldl Z.max 0 ((λ c, Ltepwire.S_ c.2) <$> l);
  m_Score := foldl add_capped 0 ((λ c, Ltepwire.Rank c.2) <$> firsts fst l);
  m_Sources := distinct l.*1;
  m_Matches := l ≫= λ c, Ltepwire.Matches c.2
|}.

Definition upd (c : contribution) (m : MergedHit) : MergedHit :=
  absorb c.2 (if bool_decide (c.1 ∈ m_Sources m) then m else credit c.1 (Ltepwire.Rank c.2) m).
Abbreviation groups := (group ih_key (λ c, new_merged (ih_key c)) upd).
Abbreviation gstep := (group_step ih_key (λ c, new_merged (ih_key c)) upd).

Lemma head_filter_snoc {A} (P : A → Prop) `{∀ x, Decision (P x)} (d : A) l x :
  default d (head (filter P (l ++ [x]))) =
    match head (filter P l) with Some y => y | None => if bool_decide (P x) then x else d end.
Proof.
  rewrite filter_app. destruct (filter P l) as [|y k]; [|done]. simpl.
  case_bool_decide; [by rewrite filter_cons_True | by rewrite filter_cons_False].
Qed.

Lemma head_filter_Some {A} (P : A → Prop) `{∀ x, Decision (P x)} (l : list A) y :
  head (filter P l) = Some y → P y.
Proof.
  intros Hh. assert (Hy : y ∈ filter P l) by (destruct (filter P l); simplify_eq/=; by left).
  by apply list_elem_of_filter in Hy as [? _].
Qed.

Lemma reference_nil k : reference k [] = new_merged k.
Proof. done. Qed.

Lemma reference_snoc k l c : reference k (l ++ [c]) = upd c (reference k l).
Proof.
  unfold upd, absorb, credit, reference.
  cbn [m_InfoHash m_Name m_Size m_Seeders m_Score m_Sources m_Matches].
  rewrite !fmap_app, bind_app. cbn [fmap list_fmap]. rewrite !head_filter_snoc, !foldl_app.
  simpl. unfold firsts at 1, distinct. rewrite !foldl_app. simpl.
  fold (firsts fst l) (distinct l.*1). unfold add_first, add_new. rewrite firsts_keys.
  assert (Hn : ∀ o : option bytes, (∀ y, o = Some y → y ≠ []) →
    match o with Some y => y | None => if bool_decide (Ltepwire.N c.2 ≠ []) then Ltepwire.N c.2 else [] end
    = if bool_decide (default [] o = []) && negb (bool_decide (Ltepwire.N c.2 = []))
      then Ltepwire.N c.2 else default [] o).
  { intros [y|] Ho; simpl.
    - rewrite (bool_decide_false (y = [])) by (by apply Ho). done.
    - by case_bool_decide; case_bool_decide. }
  assert (Hz : ∀ o : option Z, (∀ y, o = Some y → y ≠ 0) →
    match o with Some y => y | None => if bool_decide (Ltepwire.Sz c.2 ≠ 0) then Ltepwire.Sz c.2 else 0 end
    = if (default 0 o =? 0) && negb (Ltepwire.Sz c.2 =? 0) then Ltepwire.Sz c.2 else default 0 o).
  { intros [y|] Ho; simpl.
    - rewrite (proj2 (Z.eqb_neq y 0)) by (by apply Ho). done.
    - rewrite bool_decide_not. destruct (Z.eqb_spec (Ltepwire.Sz c.2) 0) as [->|Hne]; [done |].
      by rewrite bool_decide_false. }
  assert (Hs : ∀ a b : Z, Z.max a b = if a <? b then b else a)
    by (intros a b; destruct (Z.ltb_spec a b); lia).
  rewrite Hn by (intros y; apply (head_filter_Some (λ n, n ≠ []))).
  rewrite Hz by (intros y; apply (head_filter_Some (λ n, n ≠ 0))). rewrite Hs, app_nil_r.
  destruct (bool_decide (c.1 ∈ distinct l.*1));
    cbn [m_InfoHash m_Name m_Size m_Seeders m_Score m_Sources m_Matches].
  - f_equal; try reflexivity.
  - by rewrite fmap_app, foldl_app.
Qed.

Lemma group_of_reference k l :
  Forall (λ c, ih_key c = k) l →
  group_of (λ c, new_merged (ih_key c)) upd l =
    match l with [] => None | _ => Some (reference k l) end.
Proof.
  induction l as [|c l IH] using rev_ind; [done |].
  rewrite Forall_app, Forall_singleton. intros [Hl <-]. rewrite group_of_snoc, (IH Hl).
  rewrite reference_snoc. destruct l as [|x l]; [by rewrite reference_nil | done].
Qed.

(** ** The code computes the reference *)
Lemma hex_len c : len (Ltepwire.IH c.2) = 20 → length (ih_key c) = 40%nat.
Proof. intros Hl. unfold ih_key. rewrite Hex.length_encode. unfold len in Hl. lia. Qed.

(** An address and a key of fixed length are told apart by the joined string. *)
Lemma joined_inj (f g k k' : bytes) :
  length k = 40%nat → length k' = 40%nat → f ++ str "|" ++ k = g ++ str "|" ++ k' → f = g ∧ k = k'.
Proof.
  intros Hk Hk' He. apply app_inj_2 in He as [-> He].
  - split; [done |]. by apply app_inv_head in He.
  - rewrite !length_app, Hk, Hk'. done.
Qed.

Record simulates (s : merge_state) (g : gmap bytes MergedHit * list bytes) : Prop := {
  sim_map : byIH s = g.1;
  sim_order : order s = g.2;
  sim_seen : ∀ (from k : bytes), length k = 40%nat →
    (from ++ str "|" ++ k ∈ seenPeerIH s ↔ ∃ m, g.1 !! k = Some m ∧ from ∈ m_Sources m)
}.

Lemma sources_upd c m (from : bytes) :
  from ∈ m_Sources (upd c m) ↔ from ∈ m_Sources m ∨ from = c.1.
Proof.
  unfold upd, absorb. cbn [m_Sources]. case_bool_decide as Hin.
  - split; [by left |]. by intros [?| ->].
  - cbn [credit m_Sources]. rewrite elem_of_app, list_elem_of_singleton. done.
Qed.

Lemma merge_step_valid from s h :
  len (Ltepwire.IH h) = 20 →
  let m := default (new_merged (ih_key (from, h))) (byIH s !! ih_key (from, h)) in
  let pk := from ++ str "|" ++ ih_key (from, h) in
  merge_step from s h = {|
    byIH := <[ih_key (from, h) := absorb h (if bool_decide (pk ∈ seenPeerIH s) then m
                                            else credit from (Ltepwire.Rank h) m)]> (byIH s);
    order := match byIH s !! ih_key (from, h) with Some _ => order s
             | None => order s ++ [ih_key (from, h)] end;
    seenPeerIH := {[pk]} ∪ seenPeerIH s |}.
Proof.
  intros Hl. unfold merge_step. rewrite Hl. cbn [Z.eqb Pos.eqb negb]. unfold ih_key. cbn [snd].
  by destruct (byIH s !! _).
Qed.

Lemma simulates_step s g from h :
  len (Ltepwire.IH h) = 20 → simulates s g →
  simulates (merge_step from s h) (gstep g (from, h)).
Proof.
  intros Hl [Hm Ho Hs]. pose proof (hex_len (from, h) Hl) as Hk.
  rewrite (merge_step_valid from s h Hl). set (k := ih_key (from, h)) in *.
  set (m := default (new_merged k) (byIH s !! k)).
  assert (Hg : gstep g (from, h) = (<[k := upd (from, h) m]> g.1,
    match g.1 !! k with Some _ => g.2 | None => g.2 ++ [k] end)).
  { unfold group_step. fold k. unfold m. rewrite Hm. by destruct (g.1 !! k). }
  rewrite Hg. rewrite Hm in *. split; cbn [byIH order seenPeerIH fst snd].
  - unfold upd. cbn [fst snd].
    assert (He : bool_decide (from ++ str "|" ++ k ∈ seenPeerIH s) = bool_decide (from ∈ m_Sources m));
      [|by rewrite He].
    apply bool_decide_ext. rewrite (Hs from k Hk).
    unfold m. rewrite Hm. destruct (g.1 !! k) as [b|]; simpl.
    + split; [by intros (? & [= ->] & ?) | eauto].
    + split; [by intros (? & ? & _) | by intros ?%not_elem_of_nil].
  - rewrite Ho. by destruct (g.1 !! k).
  - intros f k' Hk'. rewrite elem_of_union, elem_of_singleton, (Hs f k' Hk'). rewrite lookup_insert.
    destruct (decide (k = k')) as [<-|Hne].
    + split.
      * intros [He|(b & Hb & Hin)]; (eexists; split; [done |]); rewrite sources_upd.
        -- right. by apply joined_inj in He as [-> _].
        -- left. unfold m. by rewrite Hm, Hb.
      * intros (b & [= <-] & Hin). rewrite sources_upd in Hin. destruct Hin as [Hin| ->]; [|by left].
        right. unfold m in Hin. rewrite Hm in Hin. destruct (g.1 !! k) as [b|]; [eauto |].
        by apply not_elem_of_nil in Hin.
    + split; [|by right]. intros [He|?]; [|done]. by apply joined_inj in He as [_ ->].
Qed.

Lemma merge_result_valid s r :
  merge_result s r = foldl (merge_step (fromAddr r)) s (filter (λ h, len (Ltepwire.IH h) = 20) (hits r)).
Proof.
  unfold merge_result. revert s. induction (hits r) as [|h l IH]; intros s; simpl; [done |].
  destruct (decide (len (Ltepwire.IH h) = 20)) as [Hl|Hl].
  - rewrite filter_cons_True by done. apply IH.
  - rewrite filter_cons_False by done. rewrite IH. unfold merge_step at 2.
    by rewrite (proj2 (Z.eqb_neq _ _) Hl).
Qed.

Lemma simulates_all rs s g :
  simulates s g → simulates (foldl merge_result s rs) (foldl gstep g (contributions rs)).
Proof.
  revert s g. induction rs as [|r rs IH]; intros s g Hs; simpl; [done |].
  change (contributions (r :: rs)) with
    ((pair (fromAddr r) <$> filter (λ h, len (Ltepwire.IH h) = 20) (hits r)) ++ contributions rs).
  rewrite foldl_app. apply IH. rewrite merge_result_valid.
  assert (Hf : Forall (λ h, len (Ltepwire.IH h) = 20)
                 (filter (λ h, len (Ltepwire.IH h) = 20) (hits r)))
    by (apply Forall_forall; by intros h [? _]%list_elem_of_filter).
  revert s g Hs. induction Hf as [|h l Hh Hl IHl]; intros s g Hs; simpl; [done |].
  by apply IHl, simulates_step.
Qed.

Definition of_key (rs : list incomingResult) (k : bytes) : list contribution :=
  filter (λ c, ih_key c = k) (contributions rs).

Definition cut (limit : Z) (l : list MergedHit) : list MergedHit :=
  if (0 <? limit) && (limit <? len l) then take (Z.to_nat limit) l else l.

Lemma merge_reference rs limit :
  mergeResponses rs limit =
    cut limit (stable_sort before
      ((λ k, reference k (of_key rs k)) <$> distinct (ih_key <$> contributions rs))).
Proof.
  unfold mergeResponses. set (s := foldl merge_result _ rs).
  assert (Hs : simulates s (groups (contributions rs))).
  { apply simulates_all. split; [done | done |]. intros from k _. split.
    - by intros ?%not_elem_of_empty.
    - by intros (? & ? & _). }
  destruct Hs as [Hm Ho _]. rewrite Hm, Ho.
  destruct (group_spec ih_key (λ c, new_merged (ih_key c)) upd (contributions rs)) as [-> Hg].
  assert (Ho' : ∀ ks : list bytes, (∀ k, k ∈ ks → k ∈ ih_key <$> contributions rs) →
    omap (λ ih, (groups (contributions rs)).1 !! ih) ks = (λ k, reference k (of_key rs k)) <$> ks).
  { induction ks as [|k ks IH]; intros Hks; [done |]. cbn. rewrite Hg.
    rewrite (group_of_reference k) by (apply Forall_forall; by intros c [? _]%list_elem_of_filter).
    fold (of_key rs k). rewrite IH by (intros; apply Hks; by right).
    assert (Hne : of_key rs k ≠ []).
    { specialize (Hks k ltac:(by left)). apply list_elem_of_fmap in Hks as (c & -> & Hc).
      intros He. assert (Hx : c ∈ of_key rs (ih_key c)) by (by apply list_elem_of_filter).
      rewrite He in Hx. by apply not_elem_of_nil in Hx. }
    by destruct (of_key rs k). }
  rewrite Ho' by (intros k; apply (proj2 (distinct_spec _))). done.
Qed.

(** ** What the caller gets *)
Lemma add_capped_le s r : add_capped s r ≤ 1000.
Proof. unfold add_capped. destruct (Z.ltb_spec 1000 (i64 (s + r))); lia. Qed.

Lemma score_le l : foldl add_capped 0 l ≤ 1000.
Proof. destruct l as [|r l _] using rev_ind; [done |]. rewrite foldl_app. apply add_capped_le. Qed.

Definition sum (l : list Z) : Z := foldr Z.add 0 l.

(** With ranks as an honest encoder sends them, the sum capped at 1000. *)
Lemma score_sum l :
  Forall (λ r, 0 ≤ r ≤ 1000) l → foldl add_capped 0 l = Z.min 1000 (sum l) ∧ 0 ≤ sum l.
Proof.
  intros Hl. induction l as [|r l IH] using rev_ind; [done |].
  rewrite Forall_app, Forall_singleton in Hl. destruct Hl as [Hl Hr]. destruct (IH Hl) as [IHs Hp].
  assert (Hsum : sum (l ++ [r]) = sum l + r).
  { clear. unfold sum. induction l as [|x l IH]; simpl in *; lia. }
  rewrite foldl_app. simpl. rewrite IHs, Hsum. unfold add_capped.
  rewrite i64_small by (unfold is_i64; lia).
  destruct (Z.ltb_spec 1000 (Z.min 1000 (sum l) + r)); lia.
Qed.

Lemma cut_prefix limit l : ∃ k, l = cut limit l ++ k.
Proof.
  unfold cut. destruct (_ && _); [|exists []; by rewrite app_nil_r].
  exists (drop (Z.to_nat limit) l). by rewrite take_drop.
Qed.

Lemma before_asym a b : before a b = true → before b a = false.
Proof.
  unfold before. rewrite (Z.eqb_sym (m_Score b)).
  destruct (Z.eqb_spec (m_Score a) (m_Score b)); simpl; rewrite Z.ltb_lt, Z.ltb_ge; lia.
Qed.
Lemma before_trans a b c : before b a = false → before c b = false → before c a = false.
Proof.
  unfold before.
  destruct (Z.eqb_spec (m_Score b) (m_Score a)), (Z.eqb_spec (m_Score c) (m_Score b)),
    (Z.eqb_spec (m_Score c) (m_Score a)); simpl; rewrite !Z.ltb_ge; lia.
Qed.

Definition all_merged (rs : list incomingResult) : list MergedHit :=
  (λ k, reference k (of_key rs k)) <$> distinct (ih_key <$> contributions rs).

Lemma all_merged_keys rs : m_InfoHash <$> all_merged rs = distinct (ih_key <$> contributions rs).
Proof. unfold all_merged. rewrite <-list_fmap_compose. by rewrite list_fmap_id. Qed.

Lemma all_merged_elem rs m : m ∈ all_merged rs → m = reference (m_InfoHash m) (of_key rs (m_InfoHash m)).
Proof. by intros (k & -> & _)%list_elem_of_fmap. Qed.

(** The merged answer is the reference, one entry for each infohash that
    some collected answer holds, sorted by score then seeders with ties in order
    of first use, cut at the limit.  No infohash is listed twice, an entry names
    each peer that contributed to it once, a score never exceeds 1000, and with
    ranks as an encoder sends them it is the sum over the peers of the rank of
    their first hit, capped at 1000. *)
Lemma merge_responses rs limit :
  mergeResponses rs limit = cut limit (stable_sort before (all_merged rs)) ∧
  NoDup (m_InfoHash <$> mergeResponses rs limit) ∧
  StronglySorted (λ a b, before b a = false) (mergeResponses rs limit) ∧
  ∀ m, m ∈ mergeResponses rs limit →
    m = reference (m_InfoHash m) (of_key rs (m_InfoHash m)) ∧
    NoDup (m_Sources m) ∧
    (∀ from, from ∈ m_Sources m ↔ ∃ h, (from, h) ∈ of_key rs (m_InfoHash m)) ∧
    m_Score m ≤ 1000 ∧
    (Forall (λ c, 0 ≤ Ltepwire.Rank c.2 ≤ 1000) (of_key rs (m_InfoHash m)) →
     m_Score m = Z.min 1000 (sum ((λ c, Ltepwire.Rank c.2) <$> firsts fst (of_key rs (m_InfoHash m))))).
Proof.
  rewrite merge_reference. fold (all_merged rs). set (out := stable_sort before (all_merged rs)).
  destruct (cut_prefix limit out) as [k Hk]. pose proof (stable_sort_perm before (all_merged rs)) as Hp.
  fold out in Hp. split; [done |]. split_and!.
  - assert (Hn : NoDup (m_InfoHash <$> out))
      by (rewrite Hp, all_merged_keys; apply (proj1 (distinct_spec _))).
    rewrite Hk, fmap_app in Hn. by apply NoDup_app in Hn as [? _].
  - pose proof (stable_sort_sorted before (all_merged rs) before_asym
      (λ a b c, before_trans a b c)) as Hs. fold out in Hs. rewrite Hk in Hs.
    by apply StronglySorted_app_1_l in Hs.
  - intros m Hm. assert (Hin : m ∈ all_merged rs) by (rewrite <-Hp, Hk; apply elem_of_app; by left).
    pose proof (all_merged_elem rs m Hin) as He. split; [done |].
    set (ih := m_InfoHash m) in *. rewrite He. cbn [reference m_Sources m_Score].
    destruct (distinct_spec (of_key rs ih).*1) as [Hn Hd]. split_and!; [done | | apply score_le |].
    + intros from. rewrite Hd, list_elem_of_fmap. split.
      * intros ([f h] & -> & ?). by exists h.
      * intros [h ?]. by exists (from, h).
    + intros Hr. apply score_sum, Forall_fmap, Forall_forall. intros c Hc%firsts_incl.
      by apply (proj1 (Forall_forall _ _) Hr).
Qed.

(** ** Whose answers count

    The frames of the peers in the order their goroutines handle them. *)
Inductive answer : Type :=
  | AResult (now : Z) (from : bytes) (r : Ltepwire.Result)
  | AReject (now : Z) (from : bytes) (rj : Ltepwire.Reject).

Definition handle (a : answer) : M unit :=
  match a with
  | AResult now from r => routeResult now from r
  | AReject now from rj => routeReject now from rj
  end.
Definition handle_all (as_ : list answer) (p : Protocol) : Protocol :=
  foldl (λ p a, state_of (handle a) p) p as_.

Definition a_now (a : answer) : Z := match a with AResult now _ _ | AReject now _ _ => now end.
Definition a_from (a : answer) : bytes := match a with AResult _ f _ | AReject _ f _ => f end.
Definition a_txid (a : answer) : Z :=
  match a with AResult _ _ r => Ltepwire.res_TxID r | AReject _ _ rj => Ltepwire.rej_TxID rj end.
Definition a_malformed (a : answer) : bool :=
  match a with AResult _ _ r => resultIsMalformed r | AReject _ _ _ => false end.
Definition a_item (a : answer) : incomingResult :=
  match a with
  | AResult _ f r => {| fromAddr := f; reject := false; code := 0; total := Ltepwire.res_Total r;
                        hits := default [] (Ltepwire.res_Hits r) |}
  | AReject _ f rj => {| fromAddr := f; reject := true; code := Ltepwire.rej_Code rj; total := 0;
                         hits := [] |}
  end.

(** What an answer is charged, given the asked sets of the pending queries. *)
Definition penalty (asked_ : gmap Z (gset bytes)) (a : answer) : Z :=
  if a_malformed a then Misbehavior.ScoreMalformedResult
  else match asked_ !! a_txid a with
       | None => Misbehavior.ScoreStaleTxID
       | Some s => if bool_decide (a_from a ∈ s) then 0 else Misbehavior.ScoreUnexpectedMessage
       end.
Definition charge_answer (asked_ : gmap Z (gset bytes)) (b : Misbehavior.banman) (a : answer) :=
  fst (Misbehavior.Add (a_now a) (a_from a) (penalty asked_ a) b).

(** The answers transaction [t] may use: well formed, from a peer it asked. *)
Definition counts (t : Z) (s : gset bytes) (a : answer) : bool :=
  (a_txid a =? t) && negb (a_malformed a) && bool_decide (a_from a ∈ s).
Definition accepted (t : Z) (s : gset bytes) (as_ : list answer) : list incomingResult :=
  firsts fromAddr (a_item <$> filter (λ a, counts t s a = true) as_).

Definition asked_sets (p : Protocol) : gmap Z (gset bytes) := asked <$> pending p.

(** The state of a pending query that has seen [as_]. *)
Record after (t : Z) (pq0 : pendingQuery) (as_ : list answer) (pq : pendingQuery) : Prop := {
  after_txid : pq_txid pq = pq_txid pq0;
  after_asked : asked pq = asked pq0;
  after_cap : results_cap pq = results_cap pq0;
  after_results : results pq = accepted t (asked pq0) as_;
  after_responded : ∀ f, f ∈ responded pq ↔ f ∈ fromAddr <$> results pq
}.

Lemma accepted_asked t s as_ f : f ∈ fromAddr <$> accepted t s as_ → f ∈ s.
Proof.
  intros (i & -> & Hi%firsts_incl)%list_elem_of_fmap.
  apply list_elem_of_fmap in Hi as (a & -> & [Hc _]%list_elem_of_filter).
  unfold counts in Hc. b2p. by destruct a.
Qed.

Lemma accepted_room t s as_ : (length (accepted t s as_) ≤ size s)%nat.
Proof.
  rewrite <-(length_fmap fromAddr). pose proof (firsts_NoDup fromAddr
    (a_item <$> filter (λ a, counts t s a = true) as_)) as Hn. fold (accepted t s as_) in Hn.
  rewrite <-(size_list_to_set (C := gset bytes)) by done. apply subseteq_size.
  intros f Hf%elem_of_list_to_set. by apply (accepted_asked t s as_).
Qed.

Lemma accepted_snoc t s as_ a :
  accepted t s (as_ ++ [a]) =
    if counts t s a then add_first fromAddr (accepted t s as_) (a_item a) else accepted t s as_.
Proof.
  unfold accepted. rewrite filter_app, fmap_app. destruct (counts t s a) eqn:E.
  - rewrite filter_cons_True by done. unfold firsts. by rewrite foldl_app.
  - by rewrite filter_cons_False, app_nil_r by (by rewrite E).
Qed.

Lemma a_item_from a : fromAddr (a_item a) = a_from a.
Proof. by destruct a. Qed.

(** One frame, whatever its kind. *)
Lemma handle_eq a p :
  state_of (handle a) p =
    if a_malformed a then set_ban (charge_answer (asked_sets p) (ban p) a) p
    else match pending p !! a_txid a with
    | None => set_ban (charge_answer (asked_sets p) (ban p) a) p
    | Some pq =>
      if bool_decide (a_from a ∈ asked pq) then
        if (firstFrom (a_from a) pq).2
        then state_of (registerPending (offer (a_item a) (firstFrom (a_from a) pq).1)) p
        else p
      else set_ban (charge_answer (asked_sets p) (ban p) a) p
    end.
Proof.
  assert (Hroute : ∀ now from tx i,
    state_of (route now from tx i) p =
    match pending p !! tx with
    | None => set_ban (fst (Misbehavior.Add now from Misbehavior.ScoreStaleTxID (ban p))) p
    | Some pq =>
      if bool_decide (from ∈ asked pq) then
        if (firstFrom from pq).2
        then state_of (registerPending (offer i (firstFrom from pq).1)) p else p
      else set_ban (fst (Misbehavior.Add now from Misbehavior.ScoreUnexpectedMessage (ban p))) p
    end).
  { intros. unfold state_of, route, lookupPending, gets, mbind, M_bind.
    destruct (pending p !! tx) as [pq|]; [|reflexivity].
    destruct (bool_decide (from ∈ asked pq)); [|reflexivity].
    destruct (firstFrom from pq) as [pq' []]; reflexivity. }
  destruct a as [now from r|now from rj]; cbn [handle a_malformed a_txid a_from].
  - unfold routeResult, charge_answer, penalty. cbn [a_malformed a_txid a_from a_now].
    destruct (resultIsMalformed r) eqn:E; [done |]. rewrite Hroute. unfold asked_sets.
    rewrite lookup_fmap. destruct (pending p !! _) as [pq|]; [|done]. simpl.
    by case_bool_decide.
  - unfold routeReject, charge_answer, penalty. cbn [a_malformed a_txid a_from a_now].
    rewrite Hroute. unfold asked_sets.
    rewrite lookup_fmap. destruct (pending p !! _) as [pq|]; [|done]. simpl.
    by case_bool_decide.
Qed.

(** Queries are registered under their own transaction, with room for an answer
    of every peer they ask. *)
Definition well_registered (p : Protocol) : Prop :=
  map_Forall (λ t pq, pq_txid pq = t ∧ Z.of_nat (size (asked pq)) ≤ results_cap pq) (pending p).

Lemma firstFrom_eq f pq :
  firstFrom f pq = if bool_decide (f ∈ responded pq) then (pq, false)
    else ({| pq_txid := pq_txid pq; asked := asked pq; results := results pq;
             results_cap := results_cap pq; responded := {[f]} ∪ responded pq |}, true).
Proof. done. Qed.

(** A counted answer enters the channel of its query. *)
Lemma after_counts t pq0 as_ pq a :
  after t pq0 as_ pq → counts t (asked pq0) a = true → Z.of_nat (size (asked pq0)) ≤ results_cap pq0 →
  after t pq0 (as_ ++ [a])
    (if (firstFrom (a_from a) pq).2 then offer (a_item a) (firstFrom (a_from a) pq).1 else pq).
Proof.
  intros [Ht Ha Hcap Hr Hresp] Hc Hroom. pose proof (accepted_snoc t (asked pq0) as_ a) as Hs.
  rewrite Hc in Hs. unfold add_first in Hs. rewrite a_item_from in Hs.
  rewrite firstFrom_eq. destruct (decide (a_from a ∈ responded pq)) as [Hin|Hnin].
  - rewrite bool_decide_true by done. cbn [snd]. rewrite <-Hr in Hs.
    rewrite bool_decide_true in Hs by (by apply Hresp). split; try done.
  - rewrite bool_decide_false by done. cbn [fst snd]. rewrite bool_decide_false in Hs
      by (rewrite <-Hr, <-Hresp; done).
    pose proof (accepted_room t (asked pq0) (as_ ++ [a])) as Hlen.
    rewrite Hs, length_app in Hlen. simpl in Hlen. unfold offer. cbn [results results_cap].
    rewrite Hcap, Hr. rewrite (proj2 (Z.ltb_lt _ _)) by (unfold len; lia).
    split; cbn [pq_txid asked results results_cap responded]; try done.
    intros f. rewrite elem_of_union, elem_of_singleton, fmap_app, elem_of_app.
    cbn. rewrite list_elem_of_singleton, a_item_from, Hresp, Hr. tauto.
Qed.

Lemma after_skips t pq0 as_ pq a :
  after t pq0 as_ pq → counts t (asked pq0) a = false → after t pq0 (as_ ++ [a]) pq.
Proof.
  intros [Ht Ha Hcap Hr Hresp] Hc. split; try done. by rewrite Hr, accepted_snoc, Hc.
Qed.

(** The frames handled so far, from a state [p0]. *)
Record handled (p0 : Protocol) (as_ : list answer) (p : Protocol) : Prop := {
  handled_asked : asked_sets p = asked_sets p0;
  handled_ban : ban p = foldl (charge_answer (asked_sets p0)) (ban p0) as_;
  handled_reg : well_registered p;
  handled_pending : ∀ t pq0, pending p0 !! t = Some pq0 → results pq0 = [] → responded pq0 = ∅ →
    ∃ pq, pending p !! t = Some pq ∧ after t pq0 as_ pq
}.

Lemma handle_ban a p : ban (state_of (handle a) p) = charge_answer (asked_sets p) (ban p) a.
Proof.
  rewrite handle_eq. unfold charge_answer at 4, penalty. unfold asked_sets at 4.
  destruct (a_malformed a) eqn:E; [unfold charge_answer, penalty; by rewrite E |].
  rewrite lookup_fmap. destruct (pending p !! a_txid a) as [pq|] eqn:Hl; cbn [fmap option_fmap option_map].
  - destruct (bool_decide (a_from a ∈ asked pq)) eqn:Hb.
    + by destruct (firstFrom (a_from a) pq).2.
    + unfold charge_answer, penalty, asked_sets. rewrite E, lookup_fmap, Hl. simpl. by rewrite Hb.
  - unfold charge_answer, penalty, asked_sets. by rewrite E, lookup_fmap, Hl.
Qed.

Definition receive (a : answer) (pq : pendingQuery) : pendingQuery :=
  if counts (pq_txid pq) (asked pq) a then
    if (firstFrom (a_from a) pq).2 then offer (a_item a) (firstFrom (a_from a) pq).1 else pq
  else pq.

Lemma receive_keeps a pq :
  pq_txid (receive a pq) = pq_txid pq ∧ asked (receive a pq) = asked pq ∧
  results_cap (receive a pq) = results_cap pq.
Proof.
  unfold receive, firstFrom, offer. destruct (counts _ _ _); [|done].
  case_bool_decide; [done |]. cbn. by destruct (_ <? _).
Qed.

Lemma handle_pending a p :
  well_registered p → pending (state_of (handle a) p) = alter (receive a) (a_txid a) (pending p).
Proof.
  intros Hw. rewrite handle_eq. apply map_eq. intros t.
  destruct (decide (a_txid a = t)) as [<-|Hne].
  - rewrite lookup_alter, decide_True by done.
    destruct (pending p !! a_txid a) as [pq|] eqn:Hl; [|by destruct (a_malformed a)].
    destruct (Hw _ _ Hl) as [Ht _]. destruct (receive_keeps a pq) as (Hk & _ & _).
    cbn [fmap option_fmap option_map]. unfold receive, counts in *. rewrite Ht, Z.eqb_refl in *.
    destruct (a_malformed a); [done |]. cbn [andb negb] in *.
    destruct (bool_decide _); [|done]. destruct (firstFrom _ _).2; [|done].
    unfold registerPending, modify, state_of. cbn [fst pending set_pending].
    by rewrite Hk, lookup_insert, decide_True.
  - rewrite lookup_alter_ne by done.
    destruct (a_malformed a); [done |]. destruct (pending p !! a_txid a) as [pq|] eqn:Hl; [|done].
    destruct (Hw _ _ Hl) as [Ht _].
    destruct (bool_decide _); [|done]. destruct (firstFrom _ _).2 eqn:Ef; [|done].
    unfold registerPending, modify, state_of. cbn [fst pending set_pending].
    rewrite lookup_insert_ne; [done |]. intros He. apply Hne. rewrite <-Ht, <-He. unfold offer, firstFrom.
    case_bool_decide; by destruct (_ <? _).
Qed.

Lemma well_registered_handle a p : well_registered p → well_registered (state_of (handle a) p).
Proof.
  intros Hw t pq. rewrite handle_pending by done. rewrite lookup_alter.
  case_decide; [subst t|apply Hw].
  destruct (pending p !! a_txid a) as [pq0|] eqn:Hl; [|done].
  intros [= <-].
  destruct (receive_keeps a pq0) as (-> & -> & ->). by apply Hw.
Qed.

Lemma asked_sets_handle a p : well_registered p → asked_sets (state_of (handle a) p) = asked_sets p.
Proof.
  intros Hw. unfold asked_sets. rewrite handle_pending by done. apply map_eq. intros t.
  rewrite !lookup_fmap, lookup_alter. case_decide; [subst t|done].
  destruct (pending p !! a_txid a) as [pq0|]; [|done]. simpl.
  by destruct (receive_keeps a pq0) as (_ & -> & _).
Qed.

Lemma handled_step p0 as_ p a :
  handled p0 as_ p → handled p0 (as_ ++ [a]) (state_of (handle a) p).
Proof.
  intros [Hs Hb Hr Hp]. split.
  - by rewrite asked_sets_handle.
  - by rewrite handle_ban, Hs, Hb, foldl_app.
  - by apply well_registered_handle.
  - intros t pq0 Hl H1 H2. destruct (Hp t pq0 Hl H1 H2) as (pq & Hlp & Ha). destruct (Hr _ _ Hlp) as [Ht Hroom].
    rewrite handle_pending by done. rewrite lookup_alter.
    assert (Hc : counts (pq_txid pq) (asked pq) a = counts t (asked pq0) a)
      by (by rewrite Ht, (after_asked _ _ _ _ Ha)).
    case_decide as Hd.
    + rewrite Hd, Hlp. eexists. split; [done |]. unfold receive. rewrite Hc.
      destruct (counts t (asked pq0) a) eqn:E; [|by apply after_skips].
      apply after_counts; [done | done |].
      by rewrite <-(after_asked _ _ _ _ Ha), <-(after_cap _ _ _ _ Ha).
    + exists pq. split; [done |]. apply after_skips; [done |]. unfold counts.
      by rewrite (proj2 (Z.eqb_neq _ _)).
Qed.

Lemma handled_all p0 as_ : well_registered p0 → handled p0 as_ (handle_all as_ p0).
Proof.
  intros Hw. induction as_ as [|a as_ IH] using rev_ind.
  - split; [done | done | done |]. intros t pq0 Hl H1 H2. exists pq0. split; [done |].
    split; [done | done | done | by rewrite H1 |]. intros f. rewrite H1, H2. simpl.
    by rewrite elem_of_empty, elem_of_nil.
  - unfold handle_all. rewrite foldl_app. by apply handled_step.
Qed.

(** ** From the query to its answers *)
Lemma emit_all (frame : bytes) l p :
  foldr (λ tok k, emit (Sent tok frame);; k) skip l p = (p, (λ tok, Sent tok frame) <$> l, tt).
Proof.
  induction l as [|tok l IH]; [done |].
  change (foldr _ _ (tok :: l) p) with
    (let '(p, es, b) := foldr (λ tok k, emit (Sent tok frame);; k) skip l p in
     (p, Sent tok frame :: es, b)).
  by rewrite IH.
Qed.

Section answers.
Context `{Bencode Ltepwire.Query}.

(** The query a successful [Query] registers. *)
Definition registered (p : Protocol) : pendingQuery := {|
  pq_txid := u32 (txid p + 1); asked := list_to_set (t_addr <$> supportedTargets p); results := [];
  results_cap := len (supportedTargets p); responded := ∅
|}.

Lemma Query_send_ok send_ok req p tx sent :
  answer_of (Query_send send_ok req) p = Ok (tx, sent) →
  tx = u32 (txid p + 1) ∧
  pending (state_of (Query_send send_ok req) p) = <[tx := registered p]> (pending p) ∧
  ban (state_of (Query_send send_ok req) p) = ban p ∧
  0 < sent ≤ len (supportedTargets p).
Proof.
  unfold answer_of, state_of, Query_send.
  destruct (bool_decide (Q req = [])); [done |].
  rewrite bind_M. cbn [gets]. destruct (transport p); [cbn [negb] | done].
  rewrite bind_M. cbn [gets]. destruct (len (supportedTargets p) =? 0); [done |].
  rewrite bind_M. cbn [nextTxID]. rewrite bind_M. cbn [registerPending modify].
  destruct (Ltepwire.EncodeQuery _) as [frame|e]; [|done].
  rewrite bind_M, emit_all. set (n := len (filter _ _)).
  destruct (Z.eqb_spec n 0); [done |]. intros [= <- <-]. split_and!; try done.
  - subst n. unfold len in *. lia.
  - subst n. unfold len. apply Nat2Z.inj_le, length_filter.
Qed.

Lemma well_registered_send send_ok req p tx sent :
  well_registered p → answer_of (Query_send send_ok req) p = Ok (tx, sent) →
  well_registered (state_of (Query_send send_ok req) p).
Proof.
  intros Hw Ha. destruct (Query_send_ok _ _ _ _ _ Ha) as (-> & Hp & _ & _).
  intros t pq. rewrite Hp, lookup_insert_Some. intros [[<- <-]|[_ ?]]; [|by apply Hw].
  split; [done |]. cbn [registered asked results_cap]. unfold len. apply Nat2Z.inj_le.
  rewrite <-(length_fmap t_addr). generalize (t_addr <$> supportedTargets p). intros l.
  induction l as [|x l IH]; cbn [list_to_set length]; [by rewrite size_empty |].
  rewrite size_union_alt, size_singleton.
  pose proof (subseteq_size (C := gset bytes) (list_to_set l ∖ {[x]}) (list_to_set l) ltac:(set_solver)). lia.
Qed.

(** [C18] Anti-spoofing.  Once a query is sent, whatever results and rejects
    arrive, in whatever order and from whomever, its channel holds the first
    well-formed answer of each peer it asked and nothing else, in order of
    arrival; the channel has room for all of them; the query stays registered.
    Every other frame costs its sender exactly its penalty: a malformed result,
    an unknown transaction, a transaction that did not ask the sender. *)
Theorem query_answers send_ok req p tx sent as_ :
  well_registered p →
  answer_of (Query_send send_ok req) p = Ok (tx, sent) →
  let p1 := state_of (Query_send send_ok req) p in
  let p2 := handle_all as_ p1 in
  let s := list_to_set (t_addr <$> supportedTargets p) in
  0 < sent ≤ len (supportedTargets p) ∧
  ∃ pq, pending p2 !! tx = Some pq ∧ asked pq = s ∧
    results pq = accepted tx s as_ ∧
    NoDup (fromAddr <$> results pq) ∧ Forall (λ i, fromAddr i ∈ s) (results pq) ∧
    len (results pq) ≤ len (supportedTargets p) ∧
    asked_sets p2 = <[tx := s]> (asked_sets p) ∧
    ban p2 = foldl (charge_answer (<[tx := s]> (asked_sets p))) (ban p) as_.
Proof.
  intros Hw Ha p1 p2 s. destruct (Query_send_ok _ _ _ _ _ Ha) as (-> & Hp & Hb & Hsent).
  fold p1 in Hp, Hb. set (tx := u32 (txid p + 1)) in *.
  destruct (handled_all p1 as_) as [Hs Hban Hr Hpend]; [by eapply well_registered_send |].
  fold p2 in Hs, Hban, Hr, Hpend. split; [done |].
  destruct (Hpend tx (registered p)) as (pq & Hl & [Ht Hask Hcap Hres _]);
    [by rewrite Hp, lookup_insert, decide_True | done | done |].
  cbn [registered asked results_cap] in Hask, Hcap, Hres. fold s in Hask, Hres.
  assert (Has : asked_sets p1 = <[tx := s]> (asked_sets p))
    by (unfold asked_sets; by rewrite Hp, fmap_insert).
  exists pq. split_and!; [done | done | done | | | | |].
  - rewrite Hres. apply firsts_NoDup.
  - rewrite Hres. apply Forall_forall. intros i Hi. eapply accepted_asked.
    by apply list_elem_of_fmap_2.
  - destruct (Hr _ _ Hl) as [_ Hroom]. rewrite Hcap in Hroom. rewrite Hres.
    rewrite Hask in Hroom. pose proof (accepted_room tx s as_). unfold len in *. lia.
  - by rewrite Hs.
  - by rewrite Hban, Has, Hb.
Qed.
End answers.

(** ** Examples

    Two capable peers [a] and [b]; [c] was never asked. *)
Definition toy_query : Bencode Ltepwire.Query := {|
  marshal q := Some (Ltepwire.q_Q q); unmarshal _ _ := None
|}.
Definition capable (addr : bytes) (e : Z) : PeerState :=
  advertise (new_peer 0 addr) 3 true {| t_addr := addr; t_epoch := e |}.
Definition sample_protocol : Protocol :=
  mkProtocol (<[str "a" := capable (str "a") 1]> (<[str "b" := capable (str "b") 2]> ∅)) None true None
    (zero_arr 32) false 2 false false None false false ∅ ∅ ∅
    (Misbehavior.newRateLimiter Misbehavior.DefaultRateLimit) Misbehavior.newBanman ∅ 6 [] false.
Definition sample_request : QueryRequest := {| Q := str "linux"; Scope := []; Limit := 10 |}.

Definition sample_hit (rank : Z) : Ltepwire.Hit := {|
  Ltepwire.IH := replicate 20 xab; Ltepwire.IH2 := []; Ltepwire.N := str "debian"; Ltepwire.S_ := 4;
  Ltepwire.L := 0; Ltepwire.Sz := 9; Ltepwire.T := 0; Ltepwire.Rank := rank; Ltepwire.Matches := []
|}.
Definition sample_result (rank : Z) : Ltepwire.Result := {|
  Ltepwire.res_MsgType := 1; Ltepwire.res_TxID := 7; Ltepwire.res_Total := 1;
  Ltepwire.res_Partial := 0; Ltepwire.res_Hits := Some [sample_hit rank]
|}.
Definition sample_answers : list answer :=
  [AResult 0 (str "c") (sample_result 900); AResult 0 (str "a") (sample_result 600);
   AResult 0 (str "a") (sample_result 600); AResult 0 (str "b") (sample_result 700)].

Lemma query_answers_witness :
  let p1 := state_of (@Query_send toy_query (λ _, true) sample_request) sample_protocol in
  let p2 := handle_all sample_answers p1 in
  (fromAddr <$> accepted 7 {[str "a"; str "b"]} sample_answers) = [str "a"; str "b"] ∧
  (results <$> pending p2 !! 7) = Some (accepted 7 {[str "a"; str "b"]} sample_answers) ∧
  (Misbehavior.score <$> ban p2 !! str "c") = Some 10.
Proof.
  assert (Hw : well_registered sample_protocol) by (apply map_Forall_empty).
  assert (Ha : answer_of (@Query_send toy_query (λ _, true) sample_request) sample_protocol
    = Ok (7, 2)) by (vm_compute; reflexivity).
  destruct (@query_answers toy_query (λ _, true) sample_request sample_protocol 7 2 sample_answers Hw Ha)
    as (_ & pq & Hp & _ & Hr & _ & _ & _ & _ & Hb).
  assert (Hs : list_to_set (C := gset bytes) (t_addr <$> supportedTargets sample_protocol)
    = {[str "a"; str "b"]}) by (apply (bool_decide_unpack _); vm_compute; reflexivity).
  rewrite Hs in *. intros p1 p2. split; [vm_compute; reflexivity |].
  fold p1 in Hp, Hb. fold p2 in Hp, Hb. split; [by rewrite Hp, <-Hr |].
  rewrite Hb. vm_compute. reflexivity.
Defined.

(** Two peers that agree on a torrent are summed up to 1000. *)
Definition from_peer (addr : bytes) (rank : Z) : incomingResult := {|
  fromAddr := addr; reject := false; code := 0; total := 1; hits := [sample_hit rank] |}.

Example agreement_is_capped :
  m_Score <$> mergeResponses [from_peer (str "a") 600; from_peer (str "b") 700] 10 = [1000].
Proof. vm_compute. reflexivity. Qed.

(** The decoder does not clamp ranks as the encoder does: one peer can bury a
    torrent, by a negative rank or by one that overflows the sum. *)
Example one_peer_buries :
  m_Score <$> mergeResponses [from_peer (str "a") 1000; from_peer (str "b") (-5000)] 10 = [-4000] ∧
  m_Score <$> mergeResponses [from_peer (str "a") 1000; from_peer (str "b") (2 ^ 63 - 1)] 10
    = [- 2 ^ 63 + 999].
Proof. split; vm_compute; reflexivity. Qed.
End SwarmQuery.
