(* ===== verification/SyncDispatch.v ===== *)
(** * Dispatch of the reconciliation frames (internal/swarmsearch/sync_dispatch.go, sync_start.go)

    The registry of sessions by peer and transaction, the handlers of the five
    sync frames, the symbol pump of a responder and the initiator's entry points.
    A handler reads the clock once. *)

From S2P Require Import Prelude GoInt Sha256 Externals Instances Record Riblt Utf8 LtepServices Ltepwire LtepSync Misbehavior RecordCache SyncSession Protocol.
Open Scope Z_scope.

Module SyncDispatch.
Import Protocol.
Import LtepSync.
Abbreviation LocalRecord := Record.Record.
#[local] Existing Instances SyncSession.error_dec SyncSession.syncRole_dec.

Definition MaxSyncSessionsPerPeer : Z := 4.
Definition SyncSessionStaleAfter : Z := 2 * Minute.

Inductive error : Type :=
  | ErrSyncPeerUnknown | ErrSyncCapabilityMissing | ErrNoSender
  | ErrWire (e : Ltepwire.error) | ErrSession (e : SyncSession.error) | ErrSend.

(** ** Sessions behind pointers *)
Definition dead_session : SyncSession.SyncSession :=
  SyncSession.StopPump (SyncSession.NewSyncSession 0 0 SyncSession.RoleResponder []).
Definition deref (s : sid) (p : Protocol) : SyncSession.SyncSession := default dead_session (heap p !! s).
Definition on_session {A} (s : sid) (f : SyncSession.SyncSession → SyncSession.SyncSession * A) : M A :=
  λ p, let '(x, a) := f (deref s p) in (set_heap (<[s := x]> (heap p)) p, [], a).
Definition modify_session (s : sid) (f : SyncSession.SyncSession → SyncSession.SyncSession) : M unit :=
  on_session s (λ x, (f x, tt)).

(** Where [NewSyncSession] puts its result: an address never used. *)
Definition next_sid (h : gmap sid SyncSession.SyncSession) : sid :=
  foldr N.max 0%N ((λ a : sid * SyncSession.SyncSession, N.succ a.1) <$> map_to_list h).
Definition alloc (x : SyncSession.SyncSession) : M sid := λ p,
  let s := next_sid (heap p) in (set_heap (<[s := x]> (heap p)) p, [], s).

(** ** The registry *)
Definition sessions_of (addr : bytes) (p : Protocol) : gmap Z sid := default ∅ (syncSessions p !! addr).

(** The incumbent of a slot is stopped before the slot is reused. *)
Definition replace (addr : bytes) (s : sid) (p : Protocol) : Protocol :=
  let tx := SyncSession.txid (deref s p) in
  let m := sessions_of addr p in
  let p := match m !! tx with
           | Some i => if bool_decide (i = s) then p else stop_sid i p
           | None => p
           end in
  set_sessions (<[addr := <[tx := s]> m]> (syncSessions p)) p.

Definition registerSyncSession (addr : bytes) (s : sid) : M unit := modify (replace addr s).

Definition lookupSyncSession (addr : bytes) (tx : Z) : M (option sid) :=
  gets (λ p, sessions_of addr p !! tx).

Definition release (addr : bytes) (tx : Z) (p : Protocol) : Protocol :=
  match syncSessions p !! addr with
  | None => p
  | Some m =>
    let m := delete tx m in
    if bool_decide (m = ∅) then set_sessions (delete addr (syncSessions p)) p
    else set_sessions (<[addr := m]> (syncSessions p)) p
  end.
Definition releaseSyncSession (addr : bytes) (tx : Z) : M unit := modify (release addr tx).

Definition registerSyncSessionIfUnderCap (addr : bytes) (s : sid) (cap : Z) : M bool := λ p,
  let p := set_sessions (<[addr := sessions_of addr p]> (syncSessions p)) p in
  let n := Z.of_nat (size (delete (SyncSession.txid (deref s p)) (sessions_of addr p))) in
  if cap <=? n then (p, [], false) else (replace addr s p, [], true).

Section dispatch.
Context `{Ed25519}.
Context `{Bencode Ltepwire.Reject, Bencode Ltepwire.peekHeader, Bencode SyncBegin,
  Bencode SyncSymbols, Bencode SyncNeed, Bencode SyncRecords, Bencode SyncEnd}.

Definition sendEnd (tok : PeerToken) (m : SyncEnd) : M unit :=
  match EncodeSyncEnd m with Ok frame => sendVia tok frame | Err _ => skip end.

(** [reply]: the closure that answers on the connection is not nil. *)
Definition sendReject (reply : bool) (tx cd : Z) (reason : bytes) : M unit :=
  if negb reply then skip
  else match Ltepwire.EncodeReject {| Ltepwire.rej_MsgType := 0; Ltepwire.rej_TxID := tx;
                                      Ltepwire.rej_Code := cd; Ltepwire.rej_Reason := reason |} with
       | Ok frame => emit (Replied frame)
       | Err _ => skip
       end.

(** ** Reaping *)
Definition victims (now : Z) (p : Protocol) : list (bytes * sid) :=
  map_to_list (syncSessions p) ≫= λ a,
    pair a.1 <$> filter (λ s, SyncSession.stale now SyncSessionStaleAfter (deref s p) = true)
                   (snd <$> map_to_list a.2).
Definition survivors (now : Z) (p : Protocol) : gmap bytes (gmap Z sid) :=
  omap (λ m : gmap Z sid,
    let m := filter (λ a : Z * sid, SyncSession.stale now SyncSessionStaleAfter (deref a.2 p) = false) m in
    if bool_decide (m = ∅) then None else Some m) (syncSessions p).

(** [Finish] and its frame, when the peer still has a token. *)
Definition send_finish (addr : bytes) (s : sid) (status : bytes) : M unit :=
  tok ← peerToken addr;
  match tok with
  | None => skip
  | Some tok => e ← on_session s (SyncSession.Finish status); sendEnd tok e
  end.

Definition reap_one (v : bytes * sid) : M unit :=
  modify_session v.2 SyncSession.StopPump;; send_finish v.1 v.2 SyncStatusAborted.
Definition reapStaleSyncSessions (now : Z) : M unit :=
  vs ← gets (victims now);
  modify (λ p, set_sessions (survivors now p) p);;
  foldr (λ v k, reap_one v;; k) skip vs.

(** ** Ending *)
Definition endWithError (now : Z) (addr : bytes) (s : sid) (e : SyncSession.error) : M unit :=
  let limit := bool_decide (e = SyncSession.ErrSymbolBudgetExceeded) ||
               bool_decide (e = SyncSession.ErrSyncBytesBudgetExceeded) in
  (if limit then skip else charge now addr Misbehavior.ScoreUnexpectedMessage);;
  modify_session s SyncSession.StopPump;;
  send_finish addr s (if limit then SyncStatusLimitExceeded else SyncStatusAborted);;
  tx ← gets (λ p, SyncSession.txid (deref s p));
  releaseSyncSession addr tx.

(** ** sync_begin *)
Definition aborted_end (tx : Z) : SyncEnd := {|
  se_MsgType := 0; se_TxID := tx; se_Status := SyncStatusAborted; se_Decoded := 0; se_Sent := 0;
  se_BytesIn := 0; se_BytesOut := 0; se_AbortCode := 0
|}.

Definition onSyncBegin (now : Z) (addr : bytes) (payload : bytes) : M unit :=
  match DecodeSyncBegin payload with
  | Err _ => charge now addr Misbehavior.ScoreBadBencode
  | Ok m =>
    allowed ← allow now addr;
    if negb allowed then
      charge now addr Misbehavior.ScoreRateLimited;;
      tok ← peerToken addr;
      match tok with Some tok => sendEnd tok (aborted_end (sb_TxID m)) | None => skip end
    else
      src ← gets recordSource;
      let recs := match src with Some f => default [] (f (sb_Filter m)) | None => [] end in
      s ← alloc (SyncSession.NewSyncSession now (sb_TxID m) SyncSession.RoleResponder recs);
      r ← on_session s (SyncSession.ApplyBegin m);
      match r with
      | Err _ => skip
      | Ok _ =>
        registered ← registerSyncSessionIfUnderCap addr s MaxSyncSessionsPerPeer;
        if negb registered then
          tok ← peerToken addr;
          sendEnd (default zero_token tok) (aborted_end (sb_TxID m));;
          charge now addr Misbehavior.ScoreUnexpectedMessage
        else
          tok ← peerToken addr;
          match tok with
          | None => releaseSyncSession addr (sb_TxID m)
          | Some tok =>
            if len recs =? 0 then
              e ← on_session s (SyncSession.Finish SyncStatusConverged);
              sendEnd tok e;;
              releaseSyncSession addr (sb_TxID m)
            else modify (λ p, set_pumps (<[s := tok]> (pumps p)) p)
          end
      end
  end.

(** ** The pump

    One round of a running pump; [pumps] loses it when it returns. *)
Definition pump_exit (s : sid) : M unit := modify (λ p, set_pumps (delete s (pumps p)) p).

Definition runSyncPump (s : sid) : M unit :=
  running ← gets (λ p, pumps p !! s);
  match running with
  | None => skip
  | Some tok =>
    stop ← gets (λ p, closed p || SyncSession.pumpStopped (deref s p));
    if (stop : bool) then pump_exit s
    else
      r ← on_session s (SyncSession.ProduceSymbols MaxSymbolsPerMessage);
      match r with
      | Err _ => pump_exit s
      | Ok frame =>
        done_ ← gets (λ p, SyncSession.maxSymbols (deref s p) <=? SyncSession.symbolsOut (deref s p));
        match EncodeSyncSymbols {| ss_MsgType := ss_MsgType frame; ss_TxID := ss_TxID frame;
                ss_Index := ss_Index frame; ss_Symbols := ss_Symbols frame; ss_Done := done_ |} with
        | Err _ => pump_exit s
        | Ok wire => sendVia tok wire;; if (done_ : bool) then pump_exit s else skip
        end
      end
  end.

(** ** Records in chunks

    The loop over [found] from [start] on; a round takes [MaxRecordsPerMessage]
    records, so one more round than records is enough. *)
Fixpoint send_chunks (fuel : nat) (s : sid) (rest : list LocalRecord) (missing : list (array 32))
    (send : bytes → M unit) : M unit :=
  match fuel with
  | O => skip
  | S fuel =>
    let cap := Z.to_nat MaxRecordsPerMessage in
    let miss := if len rest <=? MaxRecordsPerMessage then missing else [] in
    r ← on_session s (SyncSession.BuildRecordsFrame (take cap rest) miss);
    match r with
    | Err _ => skip
    | Ok frame =>
      match EncodeSyncRecords frame with
      | Err _ => skip
      | Ok wire =>
        send wire;;
        if len rest <=? MaxRecordsPerMessage then skip
        else send_chunks fuel s (drop cap rest) missing send
      end
    end
  end.
Definition sendRecordsChunked (s : sid) (found : list LocalRecord) (missing : list (array 32))
    (send : bytes → M unit) : M unit :=
  send_chunks (S (length found)) s found missing send.

(** ** sync_symbols *)
Definition initiatorConverge (addr : bytes) (s : sid) : M unit :=
  tok ← peerToken addr;
  match tok with
  | None => skip
  | Some tok =>
    ids ← gets (λ p, SyncSession.NeedIDs (deref s p));
    r ← on_session s (SyncSession.NeedFrame ids);
    match r with
    | Err _ => skip
    | Ok need => match EncodeSyncNeed need with Ok wire => sendVia tok wire | Err _ => skip end
    end;;
    push ← gets (λ p, SyncSession.RemovedRecords (deref s p));
    if 0 <? len push then sendRecordsChunked s push [] (sendVia tok) else skip
  end.

Definition onSyncSymbols (now : Z) (addr : bytes) (payload : bytes) : M unit :=
  match DecodeSyncSymbols payload with
  | Err _ => charge now addr Misbehavior.ScoreBadBencode
  | Ok m =>
    sess ← lookupSyncSession addr (ss_TxID m);
    match sess with
    | None => skip
    | Some s =>
      modify_session s (SyncSession.touch now);;
      r ← on_session s (SyncSession.ApplySymbols m);
      match r with
      | Err e => endWithError now addr s e
      | Ok _ =>
        rl ← gets (λ p, SyncSession.role (deref s p));
        if bool_decide (rl = SyncSession.RoleInitiator) then
          conv ← on_session s SyncSession.ShouldInitiatorConverge;
          if (conv : bool) then initiatorConverge addr s else skip
        else skip
      end
    end
  end.

(** ** sync_need, sync_records, sync_end *)
Definition need_send (addr : bytes) (reply : bool) (wire : bytes) : M unit :=
  if reply then emit (Replied wire)
  else tok ← peerToken addr; match tok with Some tok => sendVia tok wire | None => skip end.

Definition onSyncNeed (now : Z) (addr : bytes) (payload : bytes) (reply : bool) : M unit :=
  match DecodeSyncNeed payload with
  | Err _ => charge now addr Misbehavior.ScoreBadBencode
  | Ok m =>
    sess ← lookupSyncSession addr (sn_TxID m);
    match sess with
    | None => skip
    | Some s =>
      modify_session s (SyncSession.touch now);;
      modify_session s SyncSession.StopPump;;
      r ← gets (λ p, SyncSession.ApplyNeed m (deref s p));
      match r with
      | Err _ => skip
      | Ok (found, missing) => sendRecordsChunked s found missing (need_send addr reply)
      end
    end
  end.

(** The loop over the records, with the publishers seen so far. *)
Fixpoint ingest (now : Z) (addr : bytes) (recs : list LocalRecord) (seen : gset (array 32)) : M unit :=
  match recs with
  | [] => skip
  | r :: recs =>
    match Record.Verify r with
    | Err _ => charge now addr Misbehavior.ScoreBadRecordSig;; ingest now addr recs seen
    | Ok _ =>
      sink ← gets recordSink;
      obs ← gets pubObserver;
      (if (sink : bool) then emit (SinkAdded r) else skip);;
      if (obs : bool) && negb (bool_decide (Record.Pk r ∈ seen))
      then emit (PublisherSeen (Record.Pk r));; ingest now addr recs ({[Record.Pk r]} ∪ seen)
      else ingest now addr recs seen
    end
  end.
Definition ingestSyncRecords (now : Z) (addr : bytes) (recs : list LocalRecord) : M unit :=
  ingest now addr recs ∅.

Definition onSyncRecords (now : Z) (addr : bytes) (payload : bytes) : M unit :=
  match DecodeSyncRecords payload with
  | Err _ => charge now addr Misbehavior.ScoreBadBencode
  | Ok m =>
    sess ← lookupSyncSession addr (sr_TxID m);
    match sess with
    | None => skip
    | Some s =>
      modify_session s (SyncSession.touch now);;
      r ← on_session s (SyncSession.ApplyRecords m);
      match r with
      | Err e => endWithError now addr s e
      | Ok recs => ingestSyncRecords now addr recs
      end
    end
  end.

Definition onSyncEnd (now : Z) (addr : bytes) (payload : bytes) : M unit :=
  match DecodeSyncEnd payload with
  | Err _ => charge now addr Misbehavior.ScoreBadBencode
  | Ok m =>
    sess ← lookupSyncSession addr (se_TxID m);
    match sess with
    | None => skip
    | Some s =>
      modify_session s SyncSession.StopPump;;
      on_session s (SyncSession.ApplyEnd m);;
      releaseSyncSession addr (se_TxID m)
    end
  end.

(** ** Dispatch *)
Definition handleSyncFrame (now : Z) (addr : bytes) (payload : bytes) (reply : bool) : M unit :=
  recon ← peerHasReconciliation addr;
  if negb recon then
    charge now addr Misbehavior.ScoreUnexpectedMessage;;
    sendReject reply (Ltepwire.PeekTxID payload) Ltepwire.RejectUnsupportedScope (str "sync_not_supported")
  else
    reapStaleSyncSessions now;;
    match Ltepwire.PeekMsgType payload with
    | Err _ => charge now addr Misbehavior.ScoreBadBencode
    | Ok mt =>
      if mt =? Ltepwire.MsgTypeSyncBegin then onSyncBegin now addr payload
      else if mt =? Ltepwire.MsgTypeSyncSymbols then onSyncSymbols now addr payload
      else if mt =? Ltepwire.MsgTypeSyncNeed then onSyncNeed now addr payload reply
      else if mt =? Ltepwire.MsgTypeSyncRecords then onSyncRecords now addr payload
      else if mt =? Ltepwire.MsgTypeSyncEnd then onSyncEnd now addr payload
      else skip
    end.

(** ** The initiator's entry points

    [send_ok]: the transport accepts the frame. *)
Definition StartSync (now : Z) (send_ok : bool) (addr : bytes) (filter : SyncFilter)
    (recs : list LocalRecord) : M (result error sid) :=
  ps ← gets (λ p, peers p !! addr);
  t ← gets transport;
  match ps with
  | None => mret (Err ErrSyncPeerUnknown)
  | Some ps =>
    if negb (LtepServices.Has (Services ps) LtepServices.BitSetReconciliation)
    then mret (Err ErrSyncCapabilityMissing)
    else if negb t || negb (valid (token ps)) then mret (Err ErrNoSender)
    else
      tx ← nextTxID;
      s ← alloc (SyncSession.NewSyncSession now tx SyncSession.RoleInitiator recs);
      begin ← on_session s (SyncSession.Begin filter);
      registerSyncSession addr s;;
      match EncodeSyncBegin begin with
      | Err e => releaseSyncSession addr tx;; mret (Err (ErrWire e))
      | Ok frame =>
        emit (Sent (token ps) frame);;
        if send_ok then mret (Ok s)
        else releaseSyncSession addr tx;; mret (Err ErrSend)
      end
  end.

Definition SendSyncNeed (addr : bytes) (s : sid) (ids : list (array 32)) : M (result error unit) :=
  r ← on_session s (SyncSession.NeedFrame ids);
  match r with
  | Err e => mret (Err (ErrSession e))
  | Ok need =>
    match EncodeSyncNeed need with
    | Err e => mret (Err (ErrWire e))
    | Ok wire =>
      tok ← peerToken addr;
      match tok with
      | None => mret (Err ErrNoSender)
      | Some tok => sendVia tok wire;; mret (Ok tt)
      end
    end
  end.

Definition CloseSync (addr : bytes) (s : sid) (status : bytes) : M (result error unit) :=
  tx ← gets (λ p, SyncSession.txid (deref s p));
  modify_session s SyncSession.StopPump;;
  e ← on_session s (SyncSession.Finish status);
  r ← match EncodeSyncEnd e with
      | Err e => mret (Err (ErrWire e))
      | Ok wire =>
        tok ← peerToken addr;
        match tok with
        | None => mret (Err ErrNoSender)
        | Some tok => sendVia tok wire;; mret (Ok tt)
        end
      end;
  releaseSyncSession addr tx;;
  mret r.
End dispatch.

(** ** Quiet operations

    An operation is quiet when it leaves the registry alone, starts no pump and
    moves sessions only by session operations. *)
Abbreviation session_steps := (rtc SyncSession.step).

Record quiet (p p' : Protocol) : Prop := {
  quiet_sessions : syncSessions p' = syncSessions p;
  quiet_pumps : pumps p' ⊆ pumps p;
  quiet_old : ∀ s x, heap p !! s = Some x → ∃ y, heap p' !! s = Some y ∧ session_steps x y;
  quiet_new : ∀ s y, heap p !! s = None → heap p' !! s = Some y → SyncSession.bounded y
}.

#[export] Instance quiet_refl : Reflexive quiet.
Proof. intros p. split; [done | done | eauto using rtc_refl | congruence]. Qed.
#[export] Instance quiet_trans : Transitive quiet.
Proof.
  intros p1 p2 p3 [Hs1 Hp1 Ho1 Hn1] [Hs2 Hp2 Ho2 Hn2]. split; [congruence | by etrans | |].
  - intros s x Hx. destruct (Ho1 s x Hx) as (y & Hy & H1). destruct (Ho2 s y Hy) as (z & Hz & H2).
    exists z. split; [done | by etrans].
  - intros s y Hx Hy. destruct (heap p2 !! s) as [z|] eqn:E; [|by eapply Hn2].
    destruct (Ho2 s z E) as (y' & Hy' & Hst). simplify_eq.
    apply (SyncSession.steps_bounded z); [by eapply Hn1 | done].
Qed.

Definition quietly {A} (m : M A) : Prop := ∀ p, quiet p (state_of m p).

(** Same registry, pumps and heap. *)
Lemma quiet_same p p' :
  syncSessions p' = syncSessions p → pumps p' = pumps p → heap p' = heap p → quiet p p'.
Proof. intros E1 E2 E3. split; rewrite ?E1, ?E2, ?E3; [done | done | eauto using rtc_refl | congruence]. Qed.

Lemma state_of_bind {A B} (m : M A) (f : A → M B) p :
  state_of (m ≫= f) p = state_of (f (answer_of m p)) (state_of m p).
Proof.
  unfold state_of, answer_of. rewrite bind_M. destruct (m p) as [[p1 es] a]. simpl.
  by destruct (f a p1) as [[? ?] ?].
Qed.

Lemma quietly_bind {A B} (m : M A) (f : A → M B) :
  quietly m → (∀ a, quietly (f a)) → quietly (m ≫= f).
Proof. intros Hm Hf p. rewrite state_of_bind. etrans; [apply Hm | apply Hf]. Qed.
Lemma quietly_ret {A} (a : A) : quietly (mret a).
Proof. intros p. apply quiet_refl. Qed.
Lemma quietly_skip : quietly skip.
Proof. apply quietly_ret. Qed.
Lemma quietly_gets {A} (f : Protocol → A) : quietly (gets f).
Proof. intros p. apply quiet_refl. Qed.
Lemma quietly_emit e : quietly (emit e).
Proof. intros p. apply quiet_refl. Qed.
Lemma quietly_charge now addr pts : quietly (charge now addr pts).
Proof. intros p. by apply quiet_same. Qed.
Lemma quietly_allow now addr : quietly (allow now addr).
Proof. intros p. unfold state_of, allow. destruct (Misbehavior.Allow _ _ _). by apply quiet_same. Qed.
Lemma quietly_isBanned now addr : quietly (isBanned now addr).
Proof. intros p. unfold state_of, isBanned. destruct (Misbehavior.IsBanned _ _ _). by apply quiet_same. Qed.
Lemma quietly_nextTxID : quietly nextTxID.
Proof. intros p. by apply quiet_same. Qed.
Lemma quietly_sendVia tok frame : quietly (sendVia tok frame).
Proof. apply quietly_bind; [apply quietly_gets |]. intros []; [apply quietly_emit | apply quietly_skip]. Qed.
Lemma quietly_pump_exit s : quietly (pump_exit s).
Proof. intros p. split; [done | apply delete_subseteq | eauto using rtc_refl |].
  intros s' y Hn Hy. change (heap p !! s' = Some y) in Hy. congruence. Qed.

Lemma dead_bounded : SyncSession.bounded dead_session.
Proof.
  destruct (SyncSession.step_bounded _ _ (SyncSession.NewSyncSession_bounded 0 0 SyncSession.RoleResponder [])
    (SyncSession.step_stop _)) as [Hb _]. done.
Qed.

Lemma quietly_session {A} s (f : SyncSession.SyncSession → SyncSession.SyncSession * A) :
  (∀ x, SyncSession.step x (fst (f x))) → quietly (on_session s f).
Proof.
  intros Hf p. unfold state_of, on_session. specialize (Hf (deref s p)).
  destruct (f (deref s p)) as [x a]. cbn [fst] in *. split; [done | done | |]; cbn [heap set_heap].
  - intros s' y Hy. rewrite lookup_insert. case_decide as He; [|eauto using rtc_refl]. subst s'.
    exists x. split; [done |]. apply rtc_once. unfold deref in Hf. by rewrite Hy in Hf.
  - intros s' y Hn. rewrite lookup_insert. case_decide as He; [|congruence]. intros [= <-]. subst s'.
    unfold deref in Hf. rewrite Hn in Hf. by apply (SyncSession.step_bounded _ _ dead_bounded Hf).
Qed.
Lemma quietly_modify_session s f :
  (∀ x, SyncSession.step x (f x)) → quietly (modify_session s f).
Proof. intros Hf. by apply quietly_session. Qed.

Lemma next_sid_fresh (h : gmap sid SyncSession.SyncSession) s : (next_sid h ≤ s)%N → h !! s = None.
Proof.
  intros Hs. apply eq_None_not_Some. intros [x Hx]. apply elem_of_map_to_list in Hx. unfold next_sid in Hs.
  revert Hs. induction (map_to_list h) as [|[s' x'] l IH]; [by apply not_elem_of_nil in Hx |]. simpl.
  apply elem_of_cons in Hx as [[= <- <-]|Hx]; [lia |]. intros Hs. apply IH; [done |].
  etrans; [|exact Hs]. apply N.le_max_r.
Qed.

Lemma quietly_alloc x : SyncSession.bounded x → quietly (alloc x).
Proof.
  intros Hx p. unfold state_of, alloc. pose proof (next_sid_fresh (heap p) _ (N.le_refl _)) as Hf.
  split; [done | done | |]; cbn [fst heap set_heap].
  - intros s y Hy. rewrite lookup_insert_ne by congruence. eauto using rtc_refl.
  - intros s y Hn. rewrite lookup_insert. case_decide; [congruence | congruence].
Qed.

Lemma quietly_foldr {A} (f : A → M unit) l :
  (∀ a, quietly (f a)) → quietly (foldr (λ a k, f a;; k) skip l).
Proof. intros Hf. induction l as [|a l IH]; simpl; [apply quietly_skip | by apply quietly_bind]. Qed.

Create HintDb quiet.
#[export] Hint Resolve quietly_skip quietly_gets quietly_emit quietly_charge quietly_allow
  quietly_isBanned quietly_nextTxID quietly_sendVia quietly_pump_exit : quiet.
#[export] Hint Resolve quietly_ret quietly_alloc SyncSession.NewSyncSession_bounded : quiet.

Ltac quiet_step :=
  first [ solve [eauto 2 with quiet]
        | apply quietly_bind; [|intros ?]
        | apply quietly_session; intros ?; constructor
        | apply quietly_modify_session; intros ?; constructor
        | case_match ].
Ltac quiet := repeat quiet_step.

Section quiet_handlers.
Context `{Ed25519}.
Context `{Bencode Ltepwire.Reject, Bencode Ltepwire.peekHeader, Bencode SyncBegin,
  Bencode SyncSymbols, Bencode SyncNeed, Bencode SyncRecords, Bencode SyncEnd}.

Lemma quietly_sendEnd tok m : quietly (sendEnd tok m).
Proof. unfold sendEnd. quiet. Qed.
Lemma quietly_sendReject reply tx cd reason : quietly (sendReject reply tx cd reason).
Proof. unfold sendReject. quiet. Qed.
Lemma quietly_peerToken addr : quietly (peerToken addr).
Proof. apply quietly_gets. Qed.
Lemma quietly_lookup addr tx : quietly (lookupSyncSession addr tx).
Proof. apply quietly_gets. Qed.
Local Hint Resolve quietly_sendEnd quietly_sendReject quietly_peerToken quietly_lookup : quiet.

Lemma quietly_send_finish addr s status : quietly (send_finish addr s status).
Proof. unfold send_finish. quiet. Qed.
Local Hint Resolve quietly_send_finish : quiet.
Lemma quietly_reap_one v : quietly (reap_one v).
Proof. unfold reap_one. quiet. Qed.
Lemma quietly_send_chunks fuel s rest missing send :
  (∀ wire, quietly (send wire)) → quietly (send_chunks fuel s rest missing send).
Proof.
  intros Hs. revert rest. induction fuel as [|fuel IH]; intros rest; cbn [send_chunks]; [apply quietly_skip |].
  cbv zeta. quiet.
Qed.
Lemma quietly_need_send addr reply wire : quietly (need_send addr reply wire).
Proof. unfold need_send. quiet. Qed.
Lemma quietly_converge addr s : quietly (initiatorConverge addr s).
Proof. unfold initiatorConverge, sendRecordsChunked. quiet; apply quietly_send_chunks; quiet. Qed.
Lemma quietly_ingest now addr recs seen : quietly (ingest now addr recs seen).
Proof.
  revert seen. induction recs as [|r recs IH]; intros seen; cbn [ingest]; [apply quietly_skip |]. quiet.
Qed.
Lemma quietly_pump s : quietly (runSyncPump s).
Proof. unfold runSyncPump. quiet. Qed.
Lemma quietly_SendSyncNeed addr s ids : quietly (SendSyncNeed addr s ids).
Proof. unfold SendSyncNeed. quiet. Qed.
Local Hint Resolve quietly_need_send quietly_converge quietly_ingest : quiet.

Lemma quietly_onSyncNeed now addr payload reply : quietly (onSyncNeed now addr payload reply).
Proof.
  unfold onSyncNeed, sendRecordsChunked. quiet; apply quietly_send_chunks; quiet.
Qed.
End quiet_handlers.
#[export] Hint Resolve quietly_sendEnd quietly_sendReject quietly_peerToken quietly_lookup
  quietly_send_finish quietly_reap_one quietly_need_send quietly_converge quietly_ingest quietly_pump
  quietly_SendSyncNeed quietly_onSyncNeed : quiet.

(** ** The invariant of the registry

    Every running pump serves a session that can still be stopped through the
    registry, or that is stopped, or that the operation under way is about to
    stop ([V]). *)
Definition registered (p : Protocol) (addr : bytes) (tx : Z) (s : sid) : Prop :=
  sessions_of addr p !! tx = Some s.
Definition stopped (p : Protocol) (s : sid) : Prop := SyncSession.pumpStopped (deref s p) = true.
Definition responders (addr : bytes) (p : Protocol) : gmap Z sid :=
  filter (λ a : Z * sid, SyncSession.role (deref a.2 p) = SyncSession.RoleResponder) (sessions_of addr p).

Record inv (V : sid → Prop) (p : Protocol) : Prop := {
  inv_bounded : map_Forall (λ _, SyncSession.bounded) (heap p);
  inv_registered : ∀ addr tx s, registered p addr tx s →
    ∃ x, heap p !! s = Some x ∧ SyncSession.txid x = tx;
  inv_pumped : ∀ s tok, pumps p !! s = Some tok →
    is_Some (heap p !! s) ∧ (V s ∨ stopped p s ∨ ∃ addr tx, registered p addr tx s);
  inv_cap : ∀ addr, Z.of_nat (size (responders addr p)) ≤ MaxSyncSessionsPerPeer
}.

Definition none : sid → Prop := λ _, False.

Lemma inv_weaken (V V' : sid → Prop) p : (∀ s, V s → V' s) → inv V p → inv V' p.
Proof.
  intros HV [Hb Hr Hp Hc]. split; try done. intros s tok Ht. destruct (Hp s tok Ht) as [? [?|?]]; auto.
Qed.

Lemma deref_some s p x : heap p !! s = Some x → deref s p = x.
Proof. unfold deref. by intros ->. Qed.

Lemma sessions_keep x y : SyncSession.bounded x → session_steps x y →
  SyncSession.txid y = SyncSession.txid x ∧ SyncSession.role y = SyncSession.role x ∧
  (SyncSession.pumpStopped x = true → SyncSession.pumpStopped y = true) ∧ SyncSession.bounded y.
Proof.
  intros Hb Hs. destruct (SyncSession.steps_bounded x y Hb Hs) as [? (? & ? & _ & _ & _ & _ & _ & _ & ?)]. done.
Qed.

Lemma registered_same p p' addr : syncSessions p' = syncSessions p → sessions_of addr p' = sessions_of addr p.
Proof. unfold sessions_of. by intros ->. Qed.

(** Fewer sessions, fewer responders. *)
Lemma responders_le addr p p' :
  sessions_of addr p' ⊆ sessions_of addr p →
  (∀ tx s, registered p' addr tx s →
     SyncSession.role (deref s p') = SyncSession.role (deref s p)) →
  (size (responders addr p') ≤ size (responders addr p))%nat.
Proof.
  intros Hsub Hrole. apply map_subseteq_size. apply map_subseteq_spec. intros tx s Hs.
  unfold responders in *. apply map_lookup_filter_Some in Hs as [Hs Hr]. cbn [snd] in *.
  apply map_lookup_filter_Some. split; [exact (lookup_weaken _ _ _ _ Hs Hsub) |]. cbn [snd].
  by rewrite <-(Hrole tx s Hs).
Qed.

Lemma inv_quiet V p p' : inv V p → quiet p p' → inv V p'.
Proof.
  intros [Hb Hr Hp Hc] [Qs Qp Qo Qn].
  assert (Hold : ∀ s x, heap p !! s = Some x → ∃ y, heap p' !! s = Some y ∧
    SyncSession.txid y = SyncSession.txid x ∧ SyncSession.role y = SyncSession.role x ∧
    (SyncSession.pumpStopped x = true → SyncSession.pumpStopped y = true)).
  { intros s x Hx. destruct (Qo s x Hx) as (y & Hy & Hst). exists y. split; [done |].
    destruct (sessions_keep x y (Hb s x Hx) Hst) as (? & ? & ? & _). done. }
  split.
  - intros s y Hy. destruct (heap p !! s) as [x|] eqn:E; [|by eapply Qn].
    destruct (Qo s x E) as (y' & Hy' & Hst). simplify_eq.
    by apply (sessions_keep x y (Hb s x E)).
  - intros addr tx s. unfold registered. rewrite (registered_same p p') by done. intros Hs.
    destruct (Hr addr tx s Hs) as (x & Hx & <-). destruct (Hold s x Hx) as (y & Hy & Ht & _). by exists y.
  - intros s tok Ht. destruct (Hp s tok (lookup_weaken _ _ _ _ Ht Qp)) as [[x Hx] Hv].
    destruct (Hold s x Hx) as (y & Hy & _ & _ & Hst). split; [by exists y |].
    destruct Hv as [Hv|[Hv|(addr & tx & Hv)]]; [by left | right; left | right; right].
    + unfold stopped in *. rewrite (deref_some s p' y Hy). rewrite (deref_some s p x Hx) in Hv. auto.
    + exists addr, tx. unfold registered. by rewrite (registered_same p p').
  - intros addr. etrans; [|apply (Hc addr)]. apply Nat2Z.inj_le, responders_le.
    + by rewrite (registered_same p p').
    + intros tx s. unfold registered. rewrite (registered_same p p') by done. intros Hs.
      destruct (Hr addr tx s Hs) as (x & Hx & _). destruct (Hold s x Hx) as (y & Hy & _ & Hro & _).
      by rewrite (deref_some s p' y Hy), (deref_some s p x Hx).
Qed.

Lemma inv_quietly {A} V (m : M A) p : quietly m → inv V p → inv V (state_of m p).
Proof. intros Hm Hi. by eapply inv_quiet. Qed.

(** Sessions leave the registry. *)
Lemma inv_shrink (V V' : sid → Prop) p r :
  (∀ addr, default ∅ (r !! addr) ⊆ sessions_of addr p) →
  (∀ s, V s → V' s) →
  (∀ addr tx s, registered p addr tx s →
     default ∅ (r !! addr) !! tx = Some s ∨ V' s ∨ stopped p s ∨ pumps p !! s = None) →
  inv V p → inv V' (set_sessions r p).
Proof.
  intros Hsub HV Hout [Hb Hr Hp Hc].
  assert (Hs : ∀ addr, sessions_of addr (set_sessions r p) = default ∅ (r !! addr)) by done.
  split; [done | | |].
  - intros addr tx s Hreg. apply (Hr addr tx s). exact (lookup_weaken _ _ _ _ Hreg (Hsub addr)).
  - intros s tok Ht. change (pumps p !! s = Some tok) in Ht. destruct (Hp s tok Ht) as [? [Hv|[Hv|(addr & tx & Hv)]]]; (split; [done |]).
    + left. by apply HV.
    + by right; left.
    + destruct (Hout addr tx s Hv) as [?|[?|[?|?]]];
        [right; right; by exists addr, tx | by left | by right; left | congruence].
  - intros addr. etrans; [|apply (Hc addr)]. apply Nat2Z.inj_le, responders_le; [apply Hsub | done].
Qed.

Lemma release_eq addr tx p :
  ∃ r, release addr tx p = set_sessions r p ∧
    ∀ a, default ∅ (r !! a) = if bool_decide (a = addr) then delete tx (sessions_of a p) else sessions_of a p.
Proof.
  unfold release, sessions_of. destruct (syncSessions p !! addr) as [m|] eqn:E.
  - case_bool_decide as He.
    + exists (delete addr (syncSessions p)). split; [done |]. intros a. case_bool_decide as Ha.
      * subst. rewrite lookup_delete_eq, E. simpl. by rewrite He.
      * by rewrite lookup_delete_ne.
    + exists (<[addr := delete tx m]> (syncSessions p)). split; [done |]. intros a. case_bool_decide as Ha.
      * subst. by rewrite lookup_insert_eq, E.
      * by rewrite lookup_insert_ne.
  - exists (syncSessions p). split; [by destruct p |]. intros a. case_bool_decide; [|done]. subst.
    rewrite E. simpl. by rewrite delete_empty.
Qed.

Lemma inv_release (V V' : sid → Prop) addr tx p :
  (∀ s, V s → V' s) → (∀ s, registered p addr tx s → V' s ∨ stopped p s ∨ pumps p !! s = None) →
  inv V p → inv V' (release addr tx p).
Proof.
  intros HV Hout Hi. destruct (release_eq addr tx p) as (r & -> & Hr).
  apply (inv_shrink V); [| done | | done].
  - intros a. rewrite Hr. case_bool_decide; [apply delete_subseteq | done].
  - intros a t s Hs. rewrite Hr. case_bool_decide as Ha; [|by left]. subst a.
    destruct (decide (t = tx)) as [->|Hne]; [right; by apply Hout |].
    left. by rewrite lookup_delete_ne.
Qed.

Lemma inv_discharge (V V' : sid → Prop) p :
  (∀ s, V s → V' s ∨ stopped p s) → inv V p → inv V' p.
Proof.
  intros HV [Hb Hr Hp Hc]. split; try done. intros s tok Ht. destruct (Hp s tok Ht) as [? [Hv|?]]; [|by auto].
  split; [done |]. destruct (HV s Hv); auto.
Qed.

(** Stopping. *)
Lemma quiet_stop s p : quiet p (stop_sid s p).
Proof.
  unfold stop_sid. split; [done | done | |]; cbn [heap set_heap].
  - intros s' x Hx. rewrite lookup_alter. case_decide as He; [|eauto using rtc_refl]. subst s'.
    rewrite Hx. eexists. split; [done |]. apply rtc_once. constructor.
  - intros s' y Hn. rewrite lookup_alter. case_decide as He; [|congruence]. subst s'. by rewrite Hn.
Qed.
Lemma stop_stopped s p : stopped (stop_sid s p) s.
Proof.
  unfold stopped, deref, stop_sid. cbn [heap set_heap]. rewrite lookup_alter, decide_True by done.
  by destruct (heap p !! s).
Qed.
Lemma modify_stopped s p : stopped (state_of (modify_session s SyncSession.StopPump) p) s.
Proof.
  unfold stopped, deref, state_of, modify_session, on_session. cbn [fst heap set_heap].
  by rewrite lookup_insert_eq.
Qed.
Lemma modify_heap s f p : is_Some (heap (state_of (modify_session s f) p) !! s).
Proof.
  unfold state_of, modify_session, on_session. cbn [fst heap set_heap]. rewrite lookup_insert_eq. by eexists.
Qed.

Lemma stopped_quiet V p p' s : inv V p → quiet p p' → is_Some (heap p !! s) → stopped p s → stopped p' s.
Proof.
  intros [Hb _ _ _] [_ _ Ho _] [x Hx] Hst. destruct (Ho s x Hx) as (y & Hy & Hs). unfold stopped in *.
  rewrite (deref_some s p' y Hy). rewrite (deref_some s p x Hx) in Hst.
  destruct (sessions_keep x y (Hb s x Hx) Hs) as (_ & _ & Hk & _). auto.
Qed.

Lemma stop_all l p :
  quiet p (foldl (λ p s, stop_sid s p) p l) ∧ ∀ s, s ∈ l → stopped (foldl (λ p s, stop_sid s p) p l) s.
Proof.
  assert (Hkeep : ∀ s s' p, stopped p s → stopped (stop_sid s' p) s).
  { intros s s' q Hs. destruct (decide (s' = s)) as [->|Hne]; [apply stop_stopped |].
    unfold stopped, deref, stop_sid in *. cbn [heap set_heap]. by rewrite lookup_alter_ne. }
  assert (Hfold : ∀ l s p, stopped p s → stopped (foldl (λ p s, stop_sid s p) p l) s).
  { clear l p. intros l s. induction l as [|x l IH]; intros p Hs; simpl; [done |]. by apply IH, Hkeep. }
  revert p. induction l as [|s l IH]; intros p; simpl.
  - split; [reflexivity |]. by intros s ?%not_elem_of_nil.
  - destruct (IH (stop_sid s p)) as [Hq Hs]. split; [etrans; [apply quiet_stop | done] |].
    intros s' [->|Hin]%elem_of_cons; [apply Hfold, stop_stopped | by apply Hs].
Qed.

(** A slot is taken. *)
Lemma inv_register V p addr s x :
  heap p !! s = Some x →
  (∀ i, registered p addr (SyncSession.txid x) i → i = s ∨ V i ∨ stopped p i) →
  let p' := set_sessions (<[addr := <[SyncSession.txid x := s]> (sessions_of addr p)]> (syncSessions p)) p in
  Z.of_nat (size (responders addr p')) ≤ MaxSyncSessionsPerPeer →
  inv V p → inv V p' ∧ registered p' addr (SyncSession.txid x) s.
Proof.
  intros Hx Hi p' Hcap [Hb Hr Hp Hc].
  assert (Hso : ∀ a, sessions_of a p' =
    if decide (a = addr) then <[SyncSession.txid x := s]> (sessions_of addr p) else sessions_of a p).
  { intros a. unfold p', sessions_of. cbn [syncSessions set_sessions]. case_decide as Ha.
    - subst a. by rewrite lookup_insert_eq.
    - by rewrite lookup_insert_ne. }
  assert (Hreg : registered p' addr (SyncSession.txid x) s)
    by (unfold registered; by rewrite Hso, decide_True, lookup_insert_eq).
  split; [|done]. split; [done | | |].
  - intros a t s'. unfold registered. rewrite Hso. case_decide as Ha; [|apply Hr]. subst a.
    rewrite lookup_insert. case_decide as Ht; [|apply Hr]. intros [= <-]. subst t. by exists x.
  - intros s' tok Ht. destruct (Hp s' tok Ht) as [? [Hv|[Hv|(a & t & Hv)]]]; (split; [done |]);
      [by left | by right; left |].
    destruct (decide (a = addr ∧ t = SyncSession.txid x)) as [[-> ->]|Hne].
    + destruct (Hi s' Hv) as [->|[?|?]]; [right; right; by exists addr, (SyncSession.txid x) | by left | by right; left].
    + right; right. exists a, t. unfold registered. rewrite Hso. case_decide; [|done]. subst a.
      rewrite lookup_insert_ne; [done |]. intros <-. by apply Hne.
  - intros a. destruct (decide (a = addr)) as [->|Ha]; [done |]. etrans; [|apply (Hc a)].
    apply Nat2Z.inj_le, responders_le; [|done]. by rewrite Hso, decide_False.
Qed.

(** What [replace] does, in two steps. *)
Lemma replace_eq addr s x p :
  heap p !! s = Some x →
  ∃ q, quiet p q ∧ is_Some (heap q !! s) ∧
    (∀ i, registered p addr (SyncSession.txid x) i → i = s ∨ stopped q i) ∧
    replace addr s p =
      set_sessions (<[addr := <[SyncSession.txid x := s]> (sessions_of addr q)]> (syncSessions q)) q.
Proof.
  intros Hx. unfold replace. rewrite (deref_some s p x Hx). unfold registered.
  destruct (sessions_of addr p !! SyncSession.txid x) as [i|] eqn:Ei.
  - case_bool_decide as Hi.
    + exists p. split_and!; [done | by eexists | | done]. intros j [= <-]. by left.
    + exists (stop_sid i p). split_and!; [apply quiet_stop | | | done].
      * destruct (quiet_old _ _ (quiet_stop i p) s x Hx) as (y & Hy & _). by exists y.
      * intros j [= <-]. right. apply stop_stopped.
  - exists p. split_and!; [done | by eexists | done | done].
Qed.

Lemma replace_initiator V p addr s x :
  heap p !! s = Some x → SyncSession.role x = SyncSession.RoleInitiator → inv V p →
  inv V (replace addr s p).
Proof.
  intros Hx Hrole Hi. destruct (replace_eq addr s x p Hx) as (q & Hq & [y Hy] & Hst & ->).
  pose proof (inv_quiet V p q Hi Hq) as Hiq.
  destruct (quiet_old _ _ Hq s x Hx) as (y' & Hy' & Hs). simplify_eq.
  destruct (sessions_keep x y (inv_bounded V p Hi s x Hx) Hs) as (Ht & Hr & _ & _).
  rewrite <-Ht. apply (inv_register V q addr s y Hy); [| |done].
  - intros i. unfold registered. rewrite (registered_same p q), Ht by (by destruct Hq).
    intros Hreg. destruct (Hst i Hreg); auto.
  - etrans; [|apply (inv_cap V q Hiq addr)]. apply Nat2Z.inj_le, map_subseteq_size, map_subseteq_spec.
    intros t i. unfold responders. rewrite !map_lookup_filter_Some. cbn [snd].
    intros [Hl Hro]. change (deref i _) with (deref i q) in Hro. split; [|done].
    revert Hl. unfold sessions_of. cbn [syncSessions set_sessions]. rewrite lookup_insert_eq. cbn [from_option id].
    rewrite lookup_insert_Some. intros [[<- <-]|[_ ?]]; [|done].
    rewrite (deref_some s q y Hy), Hr, Hrole in Hro. done.
Qed.

(** Registration under the cap: refused, or the slot is taken. *)
Lemma under_cap V p addr s x :
  heap p !! s = Some x → inv V p →
  let m := registerSyncSessionIfUnderCap addr s MaxSyncSessionsPerPeer in
  inv V (state_of m p) ∧ pumps (state_of m p) = pumps p ∧ is_Some (heap (state_of m p) !! s) ∧
  (answer_of m p = true → registered (state_of m p) addr (SyncSession.txid x) s).
Proof.
  intros Hx Hi m. unfold m, state_of, answer_of, registerSyncSessionIfUnderCap.
  set (p1 := set_sessions (<[addr := sessions_of addr p]> (syncSessions p)) p).
  assert (Hso : ∀ a, sessions_of a p1 = sessions_of a p).
  { intros a. unfold p1, sessions_of. cbn [syncSessions set_sessions]. rewrite lookup_insert.
    case_decide; [by subst|done]. }
  assert (Hi1 : inv V p1).
  { apply (inv_shrink V); [| done | | done].
    - intros a. by rewrite <-(Hso a).
    - intros a t i Hr. left. change (sessions_of a p1 !! t = Some i). by rewrite Hso. }
  assert (Hx1 : heap p1 !! s = Some x) by done. rewrite (deref_some s p1 x Hx1), Hso.
  destruct (Z.leb_spec MaxSyncSessionsPerPeer
    (Z.of_nat (size (delete (SyncSession.txid x) (sessions_of addr p))))) as [|Hlt]; cbn [fst snd].
  { split_and!; [done | done | by eexists | done]. }
  destruct (replace_eq addr s x p1 Hx1) as (q & Hq & [y Hy] & Hst & He). rewrite He.
  destruct (quiet_old _ _ Hq s x Hx1) as (y' & Hy' & Hs). simplify_eq.
  destruct (sessions_keep x y (inv_bounded V p Hi s x Hx) Hs) as (Ht & _ & _ & _).
  assert (Hsq : sessions_of addr q = sessions_of addr p).
  { rewrite (registered_same p1 q) by (by destruct Hq). apply Hso. }
  rewrite <-Ht. destruct (inv_register V q addr s y Hy) as [? ?].
  - intros i. unfold registered. rewrite (registered_same p1 q), Ht by (by destruct Hq).
    intros Hreg. destruct (Hst i Hreg); auto.
  - etrans; [apply Nat2Z.inj_le, map_subseteq_size, map_filter_subseteq |].
    unfold sessions_of at 1. cbn [syncSessions set_sessions]. rewrite lookup_insert_eq. cbn [from_option id].
    rewrite <-insert_delete_eq, map_size_insert_None by apply lookup_delete_eq.
    rewrite Hsq, Ht. lia.
  - by apply (inv_quiet V p1).
  - split_and!; [done | | by eexists | done].
    assert (Hpq : pumps q = pumps p1).
    { apply (f_equal pumps) in He. change (pumps (set_sessions _ q)) with (pumps q) in He.
      rewrite <-He. unfold replace. cbv zeta. cbn [pumps set_sessions].
      destruct (sessions_of addr p1 !! _) as [i|]; [by destruct (bool_decide (i = s)) | done]. }
    exact Hpq.
Qed.

(** ** The handlers keep the invariant *)
Section handlers.
Context `{Ed25519}.
Context `{Bencode Ltepwire.Reject, Bencode Ltepwire.peekHeader, Bencode SyncBegin,
  Bencode SyncSymbols, Bencode SyncNeed, Bencode SyncRecords, Bencode SyncEnd}.

Lemma survivors_eq now addr p :
  default ∅ (survivors now p !! addr) =
  filter (λ a : Z * sid, SyncSession.stale now SyncSessionStaleAfter (deref a.2 p) = false) (sessions_of addr p).
Proof.
  unfold survivors, sessions_of. rewrite lookup_omap. destruct (syncSessions p !! addr) as [m|]; simpl.
  - by case_bool_decide as E; [rewrite E |].
  - by rewrite map_filter_empty.
Qed.

Lemma victims_elem now addr tx s p :
  registered p addr tx s → SyncSession.stale now SyncSessionStaleAfter (deref s p) = true →
  (addr, s) ∈ victims now p.
Proof.
  unfold registered, sessions_of. destruct (syncSessions p !! addr) as [m|] eqn:E; [simpl | done].
  intros Hs Hst. unfold victims. apply list_elem_of_bind. exists (addr, m).
  split; [|by apply elem_of_map_to_list]. apply list_elem_of_fmap_2, list_elem_of_filter. split; [done |].
  apply list_elem_of_fmap. exists (tx, s). by rewrite elem_of_map_to_list.
Qed.

Lemma reap_one_stops v p :
  inv (λ _, True) p → stopped (state_of (reap_one v) p) v.2.
Proof.
  intros Hi. unfold reap_one. rewrite state_of_bind.
  apply (stopped_quiet (λ _, True) (state_of (modify_session v.2 SyncSession.StopPump) p)).
  - apply (inv_quietly _ _ _ (quietly_modify_session v.2 SyncSession.StopPump SyncSession.step_stop) Hi).
  - match goal with |- quiet ?q (state_of ?m ?q) => assert (Hq : quietly m) by quiet; apply Hq end.
  - apply modify_heap.
  - apply modify_stopped.
Qed.

Lemma reap_all vs p :
  inv (λ s, s ∈ vs.*2) p → inv none (state_of (foldr (λ v k, reap_one v;; k) skip vs) p).
Proof.
  revert p. induction vs as [|v vs IH]; intros p Hi; simpl.
  - apply (inv_weaken (λ s, s ∈ [])); [by intros s ?%not_elem_of_nil | done].
  - rewrite state_of_bind. apply IH.
    apply (inv_discharge (λ s, s ∈ (v :: vs).*2)).
    + intros s. rewrite fmap_cons. intros [->|Hs]%elem_of_cons; [right | by left].
      apply reap_one_stops. by apply (inv_weaken _ _ _ (λ _ _, I)) in Hi.
    + apply inv_quietly; [apply quietly_reap_one | done].
Qed.

Lemma inv_reap now p : inv none p → inv none (state_of (reapStaleSyncSessions now) p).
Proof.
  intros Hi. unfold reapStaleSyncSessions. rewrite !state_of_bind. cbn [gets modify state_of answer_of fst snd].
  apply reap_all. apply (inv_shrink none); [| done | | done].
  - intros a. rewrite survivors_eq. apply map_filter_subseteq.
  - intros a t s Hs. rewrite survivors_eq.
    destruct (SyncSession.stale now SyncSessionStaleAfter (deref s p)) eqn:E.
    + right; left. apply list_elem_of_fmap. exists (a, s). split; [done | by eapply victims_elem].
    + left. apply map_lookup_filter_Some. by split.
Qed.

(** A session is stopped, then its slot released. *)
Lemma stop_then_release addr tx s p p' :
  inv none p → (∀ s', registered p addr tx s' → s' = s) → quiet p p' → stopped p' s →
  inv none (release addr tx p').
Proof.
  intros Hi Hreg Hq Hst. apply (inv_release none); [done | | by apply (inv_quiet none p)].
  intros s'. unfold registered. rewrite (registered_same p p') by (by destruct Hq).
  intros Hs'. right; left. by rewrite (Hreg s' Hs').
Qed.

Lemma stopped_after {A} V s (m : M A) p :
  inv V p → quietly m → stopped (state_of (modify_session s SyncSession.StopPump;; m) p) s.
Proof.
  intros Hi Hm. rewrite state_of_bind.
  apply (stopped_quiet V (state_of (modify_session s SyncSession.StopPump) p)).
  - apply inv_quietly; [quiet | done].
  - apply Hm.
  - apply modify_heap.
  - apply modify_stopped.
Qed.

Lemma inv_endWithError now addr s e p :
  inv none p → (∃ tx, registered p addr tx s) → inv none (state_of (endWithError now addr s e) p).
Proof.
  intros Hi [tx Hreg]. unfold endWithError. rewrite state_of_bind.
  match goal with |- inv none (state_of _ (state_of ?m p)) => assert (Hq : quietly m) by quiet end.
  specialize (Hq p). set (p1 := state_of _ p) in *.
  pose proof (inv_quiet none p p1 Hi Hq) as Hi1. cbv beta.
  rewrite state_of_bind. set (p2 := state_of (modify_session s SyncSession.StopPump) p1).
  rewrite state_of_bind. set (status := if _ || _ then SyncStatusLimitExceeded else _).
  pose proof (stopped_after none s _ p1 Hi1 (quietly_send_finish addr s status)) as Hst.
  rewrite state_of_bind in Hst. fold p2 in Hst. cbv beta in Hst |- *.
  set (p3 := state_of (send_finish addr s status) p2) in *.
  assert (Hq2 : quiet p1 p2) by (apply quietly_modify_session; intros; constructor).
  assert (Hq3 : quiet p p3) by (etrans; [exact Hq | etrans; [exact Hq2 | apply quietly_send_finish]]).
  rewrite state_of_bind. cbn [gets state_of answer_of fst snd releaseSyncSession modify].
  destruct (inv_registered none p Hi addr tx s Hreg) as (x & Hx & Ht).
  destruct (quiet_old _ _ Hq3 s x Hx) as (y & Hy & Hs).
  destruct (sessions_keep x y (inv_bounded none p Hi s x Hx) Hs) as (Hty & _ & _ & _).
  rewrite (deref_some s p3 y Hy), Hty, Ht. apply (stop_then_release addr tx s p p3); try done.
  intros s' Hs'. unfold registered in *. congruence.
Qed.

Lemma quietly_touch now s : quietly (modify_session s (SyncSession.touch now)).
Proof. quiet. Qed.

(** A handler that looks a session up, touches it and applies a frame to it. *)
Lemma registered_quiet p p' addr tx s : quiet p p' → registered p addr tx s → registered p' addr tx s.
Proof. intros Hq. unfold registered. by rewrite (registered_same p p') by (by destruct Hq). Qed.

Lemma inv_onSyncSymbols now addr payload p :
  inv none p → inv none (state_of (onSyncSymbols now addr payload) p).
Proof.
  intros Hi. unfold onSyncSymbols. destruct (DecodeSyncSymbols payload) as [m|e];
    [|apply inv_quietly; [quiet | done]].
  rewrite state_of_bind. change (state_of (lookupSyncSession _ _) p) with p.
  change (answer_of (lookupSyncSession addr (ss_TxID m)) p) with (sessions_of addr p !! ss_TxID m).
  destruct (sessions_of addr p !! ss_TxID m) as [s|] eqn:Hl; [|done].
  rewrite !state_of_bind. set (p1 := state_of _ p). set (p2 := state_of _ p1).
  assert (Hq1 : quiet p p1) by apply quietly_touch.
  assert (Hq2 : quiet p1 p2) by (apply quietly_session; intros; constructor).
  assert (Hq : quiet p p2) by (by etrans).
  destruct (answer_of _ p1) as [[]|e].
  - apply inv_quietly; [quiet | by apply (inv_quiet none p)].
  - apply inv_endWithError; [by apply (inv_quiet none p) |].
    exists (ss_TxID m). by apply (registered_quiet p).
Qed.

Lemma inv_onSyncRecords now addr payload p :
  inv none p → inv none (state_of (onSyncRecords now addr payload) p).
Proof.
  intros Hi. unfold onSyncRecords. destruct (DecodeSyncRecords payload) as [m|e];
    [|apply inv_quietly; [quiet | done]].
  rewrite state_of_bind. change (state_of (lookupSyncSession _ _) p) with p.
  change (answer_of (lookupSyncSession addr (sr_TxID m)) p) with (sessions_of addr p !! sr_TxID m).
  destruct (sessions_of addr p !! sr_TxID m) as [s|] eqn:Hl; [|done].
  rewrite !state_of_bind. set (p1 := state_of _ p). set (p2 := state_of _ p1).
  assert (Hq1 : quiet p p1) by apply quietly_touch.
  assert (Hq2 : quiet p1 p2) by (apply quietly_session; intros; constructor).
  assert (Hq : quiet p p2) by (by etrans).
  destruct (answer_of _ p1) as [recs|e].
  - apply inv_quietly; [unfold ingestSyncRecords; quiet | by apply (inv_quiet none p)].
  - apply inv_endWithError; [by apply (inv_quiet none p) |].
    exists (sr_TxID m). by apply (registered_quiet p).
Qed.

Lemma inv_onSyncEnd now addr payload p :
  inv none p → inv none (state_of (onSyncEnd now addr payload) p).
Proof.
  intros Hi. unfold onSyncEnd. destruct (DecodeSyncEnd payload) as [m|e];
    [|apply inv_quietly; [quiet | done]].
  rewrite state_of_bind. change (state_of (lookupSyncSession _ _) p) with p.
  change (answer_of (lookupSyncSession addr (se_TxID m)) p) with (sessions_of addr p !! se_TxID m).
  destruct (sessions_of addr p !! se_TxID m) as [s|] eqn:Hl; [|done].
  assert (Hm : quietly (on_session s (SyncSession.ApplyEnd m))) by quiet.
  pose proof (stopped_after none s _ p Hi Hm) as Hst. rewrite state_of_bind in Hst. cbv beta in Hst.
  rewrite !state_of_bind. set (p1 := state_of _ p) in *. set (p2 := state_of _ p1) in *.
  apply (stop_then_release addr (se_TxID m) s p); [done | | | done].
  - unfold registered. intros s' Hs'. congruence.
  - etrans; [|apply Hm]. apply quietly_modify_session; intros; constructor.
Qed.

(** *** Opening a session *)
Lemma inv_pump_start V p s tok addr tx :
  inv V p → registered p addr tx s → inv V (set_pumps (<[s := tok]> (pumps p)) p).
Proof.
  intros [Hb Hr Hp Hc] Hreg. split; try done. intros s' tok'. cbn [pumps set_pumps].
  rewrite lookup_insert_Some. intros [[<- <-]|[_ Ht]]; [|by apply (Hp s' tok')].
  destruct (Hr addr tx s Hreg) as (x & Hx & _). split; [by exists x |]. right; right. by exists addr, tx.
Qed.

(** A session no pump serves yet. *)
Record opened (p : Protocol) (s : sid) (tx : Z) (r : SyncSession.syncRole) : Prop := {
  opened_heap : ∃ x, heap p !! s = Some x ∧ SyncSession.txid x = tx ∧ SyncSession.role x = r;
  opened_idle : pumps p !! s = None
}.

Lemma opened_quiet V p p' s tx r : inv V p → quiet p p' → opened p s tx r → opened p' s tx r.
Proof.
  intros Hi Hq [(x & Hx & <- & <-) Hn]. destruct (quiet_old _ _ Hq s x Hx) as (y & Hy & Hs).
  destruct (sessions_keep x y (inv_bounded V p Hi s x Hx) Hs) as (? & ? & _ & _).
  split; [by exists y |]. eapply lookup_weaken_None; [done | by destruct Hq].
Qed.

Lemma NewSyncSession_fields now tx r recs :
  SyncSession.txid (SyncSession.NewSyncSession now tx r recs) = tx ∧
  SyncSession.role (SyncSession.NewSyncSession now tx r recs) = r.
Proof.
  unfold SyncSession.NewSyncSession. set (s0 := SyncSession.mkSession _ _ _ _ _ _ _ _ _ _ _ _ _ _ _ _ _ _).
  assert (Hs : SyncSession.txid s0 = tx ∧ SyncSession.role s0 = r) by done. revert Hs. generalize s0.
  induction recs as [|x recs IH]; intros s Hs; [done |]. apply IH. unfold SyncSession.add_record.
  by destruct (SyncSession.records s !! _).
Qed.

Lemma alloc_opened V now tx r recs p :
  inv V p → let m := alloc (SyncSession.NewSyncSession now tx r recs) in
  quiet p (state_of m p) ∧ opened (state_of m p) (answer_of m p) tx r.
Proof.
  intros Hi m. split; [apply quietly_alloc, SyncSession.NewSyncSession_bounded |].
  destruct (NewSyncSession_fields now tx r recs) as [Ht Hr].
  unfold m, state_of, answer_of, alloc. cbn [fst snd]. split; cbn [heap pumps set_heap].
  - exists (SyncSession.NewSyncSession now tx r recs). by rewrite lookup_insert_eq.
  - apply eq_None_not_Some. intros [tok Htok]. destruct (inv_pumped V p Hi _ tok Htok) as [[x Hx] _].
    by rewrite next_sid_fresh in Hx.
Qed.

Lemma release_idle addr tx s p q :
  inv none p → (∀ s', registered p addr tx s' → s' = s) → quiet p q → pumps q !! s = None →
  inv none (release addr tx q).
Proof.
  intros Hi Hreg Hq Hn. apply (inv_release none); [done | | by apply (inv_quiet none p)].
  intros s'. unfold registered. rewrite (registered_same p q) by (by destruct Hq).
  intros Hs'. right; right. by rewrite (Hreg s' Hs').
Qed.

(** What follows a successful registration. *)
Lemma inv_started addr tx s p (recs : list LocalRecord) :
  inv none p → registered p addr tx s → pumps p !! s = None →
  inv none (state_of (
    tok ← peerToken addr;
    match tok with
    | None => releaseSyncSession addr tx
    | Some tok =>
      if len recs =? 0 then
        e ← on_session s (SyncSession.Finish SyncStatusConverged);
        sendEnd tok e;;
        releaseSyncSession addr tx
      else modify (λ p, set_pumps (<[s := tok]> (pumps p)) p)
    end) p).
Proof.
  intros Hi Hreg Hn. rewrite state_of_bind. change (state_of (peerToken addr) p) with p.
  assert (Hone : ∀ s', registered p addr tx s' → s' = s) by (unfold registered in *; congruence).
  destruct (answer_of (peerToken addr) p) as [tok|].
  - destruct (len recs =? 0).
    + rewrite state_of_bind. set (p1 := state_of _ p). cbv beta. rewrite state_of_bind.
      set (p2 := state_of _ p1). apply (release_idle addr tx s p); [done | done | |].
      * assert (Hq1 : quiet p p1) by (apply quietly_session; intros; constructor).
        etrans; [exact Hq1 | apply quietly_sendEnd].
      * assert (Hq1 : quiet p p1) by (apply quietly_session; intros; constructor).
        assert (Hq2 : quiet p1 p2) by apply quietly_sendEnd.
        eapply lookup_weaken_None; [done |]. etrans; [apply Hq2 | apply Hq1].
    + by apply (inv_pump_start none p s tok addr tx).
  - by apply (release_idle addr tx s p).
Qed.

Lemma inv_onSyncBegin now addr payload p :
  inv none p → inv none (state_of (onSyncBegin now addr payload) p).
Proof.
  intros Hi. unfold onSyncBegin. destruct (DecodeSyncBegin payload) as [m|e];
    [|apply inv_quietly; [quiet | done]].
  rewrite state_of_bind. set (p1 := state_of _ p).
  assert (Hi1 : inv none p1) by (apply inv_quietly; [apply quietly_allow | done]).
  destruct (answer_of (allow now addr) p); cbn [negb]; [|apply inv_quietly; [quiet | done]].
  rewrite state_of_bind. change (state_of (gets recordSource) p1) with p1. cbv beta zeta.
  set (recs := match _ with Some f => _ | None => [] end).
  rewrite state_of_bind. cbv beta.
  destruct (alloc_opened none now (sb_TxID m) SyncSession.RoleResponder recs p1 Hi1) as [Hq2 Ho2].
  set (s := answer_of (alloc _) p1) in *. set (p2 := state_of _ p1) in *.
  pose proof (inv_quiet none p1 p2 Hi1 Hq2) as Hi2.
  rewrite state_of_bind. cbv beta. set (p3 := state_of _ p2).
  assert (Hq3 : quiet p2 p3) by (apply quietly_session; intros; constructor).
  pose proof (inv_quiet none p2 p3 Hi2 Hq3) as Hi3.
  pose proof (opened_quiet none p2 p3 s _ _ Hi2 Hq3 Ho2) as [(x & Hx & Htx & _) Hn].
  destruct (answer_of _ p2) as [_|e]; [|done].
  rewrite state_of_bind. cbv beta. destruct (under_cap none p3 addr s x Hx Hi3) as (Hi4 & Hp4 & _ & Hreg).
  rewrite Htx in Hreg. set (p4 := state_of _ p3) in *.
  destruct (answer_of _ p3); cbn [negb]; [|apply inv_quietly; [quiet | done]].
  apply inv_started; [done | by apply Hreg | by rewrite Hp4].
Qed.

Lemma inv_handleSyncFrame now addr payload reply p :
  inv none p → inv none (state_of (handleSyncFrame now addr payload reply) p).
Proof.
  intros Hi. unfold handleSyncFrame. rewrite state_of_bind.
  change (state_of (peerHasReconciliation addr) p) with p.
  destruct (answer_of (peerHasReconciliation addr) p); cbn [negb]; [|apply inv_quietly; [quiet | done]].
  rewrite state_of_bind. pose proof (inv_reap now p Hi) as Hi1. set (p1 := state_of _ p) in *.
  destruct (Ltepwire.PeekMsgType payload) as [mt|e]; [|apply inv_quietly; [quiet | done]].
  repeat case_match; [by apply inv_onSyncBegin | by apply inv_onSyncSymbols | | by apply inv_onSyncRecords
    | by apply inv_onSyncEnd | done].
  apply inv_quietly; [quiet | done].
Qed.

Lemma inv_StartSync now send_ok addr filter recs p :
  inv none p → inv none (state_of (StartSync now send_ok addr filter recs) p).
Proof.
  intros Hi. unfold StartSync. rewrite state_of_bind. cbn [gets state_of answer_of fst snd].
  rewrite state_of_bind. cbn [gets state_of answer_of fst snd].
  destruct (peers p !! addr) as [ps|]; [|done].
  destruct (negb (LtepServices.Has _ _)); [done |]. destruct (_ || _); [done |].
  rewrite state_of_bind. set (p1 := state_of _ p). set (tx := answer_of _ p).
  assert (Hi1 : inv none p1) by (apply inv_quietly; [apply quietly_nextTxID | done]).
  rewrite state_of_bind. cbv beta.
  destruct (alloc_opened none now tx SyncSession.RoleInitiator recs p1 Hi1) as [Hq2 Ho2].
  set (s := answer_of (alloc _) p1) in *. set (p2 := state_of _ p1) in *.
  pose proof (inv_quiet none p1 p2 Hi1 Hq2) as Hi2.
  rewrite state_of_bind. cbv beta. set (p3 := state_of _ p2).
  assert (Hq3 : quiet p2 p3) by (apply quietly_session; intros; constructor).
  pose proof (inv_quiet none p2 p3 Hi2 Hq3) as Hi3.
  pose proof (opened_quiet none p2 p3 s _ _ Hi2 Hq3 Ho2) as [(x & Hx & Htx & Hr) Hn].
  rewrite state_of_bind. change (state_of (registerSyncSession addr s) p3) with (replace addr s p3).
  pose proof (replace_initiator none p3 addr s x Hx Hr Hi3) as Hi4. set (p4 := replace addr s p3) in *.
  assert (Hp4 : pumps p4 !! s = None ∧ ∀ s', registered p4 addr tx s' → s' = s).
  { unfold p4. destruct (replace_eq addr s x p3 Hx) as (q & Hq & _ & _ & ->). split.
    - eapply lookup_weaken_None; [exact Hn | apply Hq].
    - intros s'. unfold registered, sessions_of. cbn [syncSessions set_sessions].
      rewrite lookup_insert_eq. cbn [from_option id]. rewrite Htx, lookup_insert_eq. congruence. }
  destruct Hp4 as [Hn4 Hone].
  destruct (EncodeSyncBegin _) as [frame|e].
  - rewrite state_of_bind. change (state_of (emit _) p4) with p4. destruct send_ok; [done |].
    rewrite state_of_bind. by apply (release_idle addr tx s p4).
  - rewrite state_of_bind. by apply (release_idle addr tx s p4).
Qed.

Lemma inv_CloseSync addr s status p :
  inv none p → (∀ s', registered p addr (SyncSession.txid (deref s p)) s' → s' = s) →
  inv none (state_of (CloseSync addr s status) p).
Proof.
  intros Hi Hone. unfold CloseSync. rewrite state_of_bind. cbn [gets answer_of snd].
  change (state_of (gets _) p) with p. set (tx := SyncSession.txid (deref s p)) in *.
  rewrite state_of_bind. set (p1 := state_of _ p). cbv beta. rewrite state_of_bind.
  set (e := answer_of _ p1). set (p2 := state_of _ p1). cbv beta.
  rewrite state_of_bind.
  match goal with |- inv none (state_of _ (state_of ?m p2)) => assert (Hm : quietly m) by quiet end.
  set (p3 := state_of _ p2) in *. cbv beta. rewrite state_of_bind.
  change (inv none (release addr tx p3)).
  assert (Hq1 : quiet p p1) by (apply quietly_modify_session; intros; constructor).
  assert (Hq2 : quiet p1 p2) by (apply quietly_session; intros; constructor).
  apply (stop_then_release addr tx s p); [done | done | by etrans; [|etrans; [exact Hq2 | apply Hm]] |].
  apply (stopped_quiet none p1); [by apply (inv_quiet none p) | by etrans; [exact Hq2 | apply Hm] | |].
  - apply modify_heap.
  - apply modify_stopped.
Qed.

(** *** Disconnecting *)
Lemma OnPeerClosed_eq addr p :
  ∃ q, quiet p q ∧ (∀ tx s, registered p addr tx s → stopped q s) ∧
    state_of (OnPeerClosed addr) p = set_sessions (delete addr (syncSessions q)) q.
Proof.
  set (p1 := set_ban (Misbehavior.Forget addr (ban p))
    (set_limiter (Misbehavior.forget addr (limiter p)) (set_peers (delete addr (peers p)) p))).
  set (l := snd <$> map_to_list (default ∅ (syncSessions p !! addr))).
  exists (foldl (λ p s, stop_sid s p) p1 l). destruct (stop_all l p1) as [Hq Hst]. split_and!.
  - etrans; [|exact Hq]. by apply quiet_same.
  - intros tx s Hs. apply Hst. apply list_elem_of_fmap. exists (tx, s). split; [done |].
    by apply elem_of_map_to_list.
  - assert (Hcomm : ∀ l q, foldl (λ p s, stop_sid s p) (set_sessions (delete addr (syncSessions q)) q) l
      = set_sessions (delete addr (syncSessions (foldl (λ p s, stop_sid s p) q l)))
          (foldl (λ p s, stop_sid s p) q l)).
    { clear. induction l as [|s l IH]; intros q; [done |]. simpl. by rewrite <-IH. }
    by rewrite <-Hcomm.
Qed.

Lemma inv_OnPeerClosed addr p :
  inv none p →
  inv none (state_of (OnPeerClosed addr) p) ∧
  sessions_of addr (state_of (OnPeerClosed addr) p) = ∅ ∧
  ∀ tx s, registered p addr tx s → stopped (state_of (OnPeerClosed addr) p) s.
Proof.
  intros Hi. destruct (OnPeerClosed_eq addr p) as (q & Hq & Hst & ->).
  pose proof (inv_quiet none p q Hi Hq) as Hiq. split_and!.
  - apply (inv_shrink none); [| done | | done].
    + intros a. unfold sessions_of. rewrite lookup_delete. case_decide; [apply map_empty_subseteq | done].
    + intros a tx s Hreg. destruct (decide (addr = a)) as [<-|Hne].
      * right; right; left. apply (Hst tx). unfold registered in *.
        by rewrite (registered_same p q) in Hreg by (by destruct Hq).
      * left. by rewrite lookup_delete_ne.
  - unfold sessions_of. cbn [syncSessions set_sessions]. by rewrite lookup_delete_eq.
  - done.
Qed.

(** ** The steps of a running node

    [step_other]: whatever else the node does, in this package or out of it,
    leaves the sessions alone.  [CloseSync] is called with a session whose slot
    no other session has taken. *)
Inductive step : Protocol → Protocol → Prop :=
  | step_frame now addr payload reply p : step p (state_of (handleSyncFrame now addr payload reply) p)
  | step_pump s p : step p (state_of (runSyncPump s) p)
  | step_start now send_ok addr filter recs p : step p (state_of (StartSync now send_ok addr filter recs) p)
  | step_need addr s ids p : step p (state_of (SendSyncNeed addr s ids) p)
  | step_close addr s status p :
      (∀ s', registered p addr (SyncSession.txid (deref s p)) s' → s' = s) →
      step p (state_of (CloseSync addr s status) p)
  | step_closed addr p : step p (state_of (OnPeerClosed addr) p)
  | step_other p p' :
      syncSessions p' = syncSessions p → pumps p' = pumps p → heap p' = heap p → step p p'.

Lemma registry_inv_step p p' : inv none p → step p p' → inv none p'.
Proof.
  intros Hi Hst. destruct Hst as [now addr payload reply q|s q|now ok addr f recs q|addr s ids q|addr s st q Hone|addr q|q q' E1 E2 E3].
  - by apply inv_handleSyncFrame.
  - apply inv_quietly; [quiet | done].
  - by apply inv_StartSync.
  - apply inv_quietly; [quiet | done].
  - by apply inv_CloseSync.
  - by apply inv_OnPeerClosed.
  - apply (inv_quiet none q); [done | by apply quiet_same].
Qed.

Lemma inv_New : inv none New.
Proof.
  split; [apply map_Forall_empty | | |].
  - intros addr tx s Hs. discriminate Hs.
  - intros s tok Ht. discriminate Ht.
  - intros addr. unfold responders.
    change (sessions_of addr New) with (∅ : gmap Z sid). rewrite map_filter_empty. done.
Qed.

Lemma inv_reachable p : rtc step New p → inv none p.
Proof. apply (rtc_ind_r (inv none) New); [apply inv_New |]. intros. by eapply registry_inv_step. Qed.


(** ** A pump runs its course *)
Definition rounds (n : nat) (s : sid) (p : Protocol) : Protocol :=
  Nat.iter n (λ q, state_of (runSyncPump s) q) p.
Fixpoint round_events (n : nat) (s : sid) (p : Protocol) : list event :=
  match n with
  | O => []
  | S n => events_of (runSyncPump s) p ++ round_events n s (state_of (runSyncPump s) p)
  end.

Lemma rounds_S n s p : rounds (S n) s p = rounds n s (state_of (runSyncPump s) p).
Proof. unfold rounds. by rewrite Nat.iter_succ_r. Qed.

Definition budget_left (s : sid) (p : Protocol) : Z :=
  SyncSession.maxSymbols (deref s p) - SyncSession.symbolsOut (deref s p).

Lemma runSyncPump_none s p : pumps p !! s = None → runSyncPump s p = (p, [], tt).
Proof. intros Hn. unfold runSyncPump. rewrite bind_M. cbn [gets]. by rewrite Hn. Qed.

(** A round of a running pump, whole. *)
Lemma runSyncPump_eq s tok p :
  pumps p !! s = Some tok →
  runSyncPump s p =
    if closed p || SyncSession.pumpStopped (deref s p) then (set_pumps (delete s (pumps p)) p, [], tt)
    else
      let '(x, r) := SyncSession.ProduceSymbols MaxSymbolsPerMessage (deref s p) in
      let q := set_heap (<[s := x]> (heap p)) p in
      match r with
      | Err _ => (set_pumps (delete s (pumps p)) q, [], tt)
      | Ok f =>
        let done_ := SyncSession.maxSymbols x <=? SyncSession.symbolsOut x in
        match EncodeSyncSymbols {| ss_MsgType := ss_MsgType f; ss_TxID := ss_TxID f;
                ss_Index := ss_Index f; ss_Symbols := ss_Symbols f; ss_Done := done_ |} with
        | Err _ => (set_pumps (delete s (pumps p)) q, [], tt)
        | Ok wire => (if done_ then set_pumps (delete s (pumps p)) q else q,
                      if transport p then [Sent tok wire] else [], tt)
        end
      end.
Proof.
  intros Ht. unfold runSyncPump. rewrite bind_M. cbn [gets]. rewrite Ht, bind_M. cbn [gets].
  destruct (closed p || _); [done |]. rewrite bind_M. unfold on_session.
  destruct (SyncSession.ProduceSymbols _ _) as [x [f|e]]; [|done]. cbv zeta. rewrite bind_M. cbn [gets].
  assert (Hd : deref s (set_heap (<[s := x]> (heap p)) p) = x)
    by (unfold deref; cbn [heap set_heap]; by rewrite lookup_insert_eq).
  rewrite Hd. destruct (EncodeSyncSymbols _) as [wire|e]; [|done]. rewrite bind_M. unfold sendVia.
  rewrite bind_M. cbn [gets transport set_heap].
  by destruct (transport p), (SyncSession.maxSymbols x <=? _).
Qed.

Lemma ProduceSymbols_progress k x y f :
  SyncSession.ProduceSymbols k x = (y, Ok f) →
  SyncSession.maxSymbols y = SyncSession.maxSymbols x ∧
  SyncSession.symbolsOut x < SyncSession.symbolsOut y ≤ SyncSession.maxSymbols x ∧
  SyncSession.pumpStopped y = SyncSession.pumpStopped x.
Proof.
  unfold SyncSession.ProduceSymbols. cbv zeta. set (c := if _ <? _ then _ else _).
  destruct (Z.leb_spec c 0) as [|Hc]; [done |].
  destruct (SyncSession.produce (Z.to_nat c) _) as [syms e]. intros [= <- <-]. cbn.
  assert (c ≤ SyncSession.maxSymbols x - SyncSession.symbolsOut x) by (unfold c; repeat case_match; lia).
  split_and!; (done || lia).
Qed.

Lemma pump_exits n s p : budget_left s p < Z.of_nat n → pumps (rounds n s p) !! s = None ∨ n = 0%nat.
Proof.
  revert p. induction n as [|n IH]; intros p Hn; [by right |]. left. rewrite rounds_S.
  assert (Hdone : ∀ q, pumps q !! s = None → pumps (rounds n s q) !! s = None).
  { clear. induction n as [|n IH]; intros q Hq; [done |]. rewrite rounds_S. apply IH.
    unfold state_of. by rewrite runSyncPump_none. }
  destruct (pumps p !! s) as [tok|] eqn:Ht; [|apply Hdone; unfold state_of; by rewrite runSyncPump_none].
  unfold state_of. rewrite (runSyncPump_eq s tok p Ht).
  destruct (closed p || _); [apply Hdone, lookup_delete_eq |].
  destruct (SyncSession.ProduceSymbols _ _) as [x [f|e]] eqn:Ep; [|apply Hdone, lookup_delete_eq].
  destruct (ProduceSymbols_progress _ _ _ _ Ep) as (Hmax & Hout & _). cbv zeta.
  destruct (EncodeSyncSymbols _) as [wire|e]; [|apply Hdone, lookup_delete_eq]. cbn [fst].
  destruct (Z.leb_spec (SyncSession.maxSymbols x) (SyncSession.symbolsOut x)); [apply Hdone, lookup_delete_eq |].
  set (q := set_heap _ p).
  assert (Hb : budget_left s q < Z.of_nat n).
  { unfold budget_left in *. assert (Hd : deref s q = x)
      by (unfold deref, q; cbn [heap set_heap]; by rewrite lookup_insert_eq).
    rewrite Hd. lia. }
  destruct (IH q Hb) as [?|Hz]; [done |]. subst n. unfold budget_left in Hb.
  assert (Hd : deref s q = x)
      by (unfold deref, q; cbn [heap set_heap]; by rewrite lookup_insert_eq).
  rewrite Hd in Hb. lia.
Qed.

Lemma round_events_none n s p : pumps p !! s = None → round_events n s p = [].
Proof.
  revert p. induction n as [|n IH]; intros p Hn; [done |]. cbn [round_events].
  unfold events_of, state_of. rewrite runSyncPump_none by done. by apply IH.
Qed.

Lemma round_frames n s tok p wires :
  pumps p !! s = Some tok → closed p = false → SyncSession.pumpStopped (deref s p) = false →
  transport p = true →
  Forall2 (λ f w, EncodeSyncSymbols f = Ok w) (fst (SyncSession.pump n (deref s p))) wires →
  round_events n s p = Sent tok <$> wires.
Proof.
  revert p wires. induction n as [|n IH]; intros p wires Ht Hc Hs Htr Hf.
  { cbn in Hf. by inversion Hf. }
  cbn [round_events SyncSession.pump] in *. unfold events_of, state_of.
  rewrite (runSyncPump_eq s tok p Ht), Hc, Hs. cbn [orb].
  destruct (SyncSession.ProduceSymbols _ _) as [x [f|e]] eqn:Ep.
  2: { cbn [fst snd] in *. inversion Hf. subst. cbn. apply round_events_none, lookup_delete_eq. }
  destruct (ProduceSymbols_progress _ _ _ _ Ep) as (_ & _ & Hst). cbv zeta in *.
  destruct (SyncSession.maxSymbols x <=? SyncSession.symbolsOut x).
  - cbn [fst] in Hf. inversion Hf as [|? w ? ws Hw Hr]. subst. inversion Hr. subst.
    rewrite Hw. cbn [fst snd]. rewrite Htr, round_events_none; [done | apply lookup_delete_eq].
  - destruct (SyncSession.pump n x) as [frames y] eqn:Epump. cbn [fst] in Hf.
    inversion Hf as [|? w ? ws Hw Hr]. subst. rewrite Hw. cbn [fst snd]. rewrite Htr. cbn [app].
    rewrite fmap_cons. f_equal. set (q := set_heap _ p).
    assert (Hd : deref s q = x) by (unfold deref, q; cbn [heap set_heap]; by rewrite lookup_insert_eq).
    apply IH; [done | done | by rewrite Hd, Hst | done | by rewrite Hd, Epump].
Qed.

(** A pump runs its course.  Whatever the state, a pump has returned after
    one round more than its symbol budget has left; and while nobody stops it,
    what it sends, round after round, is the stream of frames of the session:
    each encoded, in order, to the token it was started with. *)
Lemma pump_runs s p :
  pumps (rounds (S (Z.to_nat (budget_left s p))) s p) !! s = None ∧
  ∀ n tok wires,
    pumps p !! s = Some tok → closed p = false → SyncSession.pumpStopped (deref s p) = false →
    transport p = true →
    Forall2 (λ f w, EncodeSyncSymbols f = Ok w) (fst (SyncSession.pump n (deref s p))) wires →
    round_events n s p = Sent tok <$> wires.
Proof.
  split; [|intros; by apply round_frames].
  destruct (pump_exits (S (Z.to_nat (budget_left s p))) s p) as [?|?]; [lia | done | done].
Qed.
End handlers.

(** ** Nothing requested is left out

    The frames that answer a request: [found] in chunks, [missing] on the last. *)
Fixpoint record_frames (fuel : nat) (tx : Z) (rest : list LocalRecord) (missing : list (array 32))
    : list SyncRecords :=
  match fuel with
  | O => []
  | S fuel =>
    {| sr_MsgType := Ltepwire.MsgTypeSyncRecords; sr_TxID := tx;
       sr_Records := Some (SyncSession.toWireRecord <$> take (Z.to_nat MaxRecordsPerMessage) rest);
       sr_Missing := if len rest <=? MaxRecordsPerMessage then sl <$> missing else [] |}
    :: if len rest <=? MaxRecordsPerMessage then []
       else record_frames fuel tx (drop (Z.to_nat MaxRecordsPerMessage) rest) missing
  end.

Lemma record_frames_spec fuel tx rest missing :
  (length rest < fuel)%nat →
  let frames := record_frames fuel tx rest missing in
  frames ≠ [] ∧
  (frames ≫= λ f, default [] (sr_Records f)) = SyncSession.toWireRecord <$> rest ∧
  (frames ≫= sr_Missing) = sl <$> missing ∧
  Forall (λ f, len (default [] (sr_Records f)) ≤ MaxRecordsPerMessage) frames.
Proof.
  revert rest. induction fuel as [|fuel IH]; intros rest Hf; [lia |]. cbn [record_frames]. cbv zeta.
  split; [done |].
  rewrite !bind_cons. set (cap := Z.to_nat MaxRecordsPerMessage).
  assert (Hcap : cap = 500%nat) by done.
  assert (Htake : len (SyncSession.toWireRecord <$> take cap rest) ≤ MaxRecordsPerMessage).
  { unfold len. rewrite length_fmap, length_take. unfold MaxRecordsPerMessage. lia. }
  destruct (Z.leb_spec (len rest) MaxRecordsPerMessage) as [Hle|Hgt].
  - cbn [sr_Records sr_Missing from_option id mbind list_bind]. rewrite !app_nil_r.
    assert (Hall : take cap rest = rest) by (apply firstn_all2; unfold len, MaxRecordsPerMessage in *; lia).
    split_and!; [by rewrite Hall | done | by repeat constructor].
  - assert (Hlen : (500 < length rest)%nat) by (unfold len, MaxRecordsPerMessage in *; lia).
    destruct (IH (drop cap rest)) as (_ & Hr & Hm & Ha); [rewrite length_drop; lia |].
    cbn [sr_Records sr_Missing from_option id]. split_and!.
    + rewrite Hr, <-fmap_app, take_drop. done.
    + by rewrite Hm.
    + by constructor.
Qed.

Section chunks.
Context `{Ed25519}.
Context `{Bencode Ltepwire.Reject, Bencode Ltepwire.peekHeader, Bencode SyncBegin,
  Bencode SyncSymbols, Bencode SyncNeed, Bencode SyncEnd}.
Context {B7 : Bencode SyncRecords} {L7 : BencodeLaws SyncRecords}.

(** A record that fits the wire. *)
Definition sendable (r : LocalRecord) : Prop :=
  record_within (SyncSession.toWireRecord r) ∧ record_ok (SyncSession.toWireRecord r).

Lemma encode_sendable tx recs (missing : list bytes) :
  is_u32 tx → Forall sendable recs → len recs ≤ MaxRecordsPerMessage →
  let m := {| sr_MsgType := Ltepwire.MsgTypeSyncRecords; sr_TxID := tx;
              sr_Records := Some (SyncSession.toWireRecord <$> recs); sr_Missing := missing |} in
  ∀ mt, ∃ wire, EncodeSyncRecords {| sr_MsgType := mt; sr_TxID := tx;
      sr_Records := Some (SyncSession.toWireRecord <$> recs); sr_Missing := missing |} = Ok wire ∧
    DecodeSyncRecords wire = Ok m.
Proof.
  intros Htx Hs Hl m mt.
  assert (Hw : check_records (SyncSession.toWireRecord <$> recs) = Ok tt).
  { apply check_records_ok. split; [unfold len in *; by rewrite length_fmap |].
    apply Forall_fmap. eapply Forall_impl; [exact Hs |]. by intros r [? _]. }
  assert (Hok : wire_ok m).
  { unfold wire_ok, records_wire. cbn [sr_MsgType sr_TxID sr_Records m from_option id].
    split; [done |]. split; [done |]. split; [by eexists |].
    apply Forall_fmap. eapply Forall_impl; [exact Hs |]. by intros r [_ ?]. }
  destruct (Ltepwire.Marshal_decode m Hok) as (b & Hb & Hd). exists b.
  unfold EncodeSyncRecords, DecodeSyncRecords. cbn [sr_Records from_option id]. rewrite Hw, Hd. split; [done |].
  rewrite bind_ok. cbn [sr_MsgType sr_Records m from_option id]. rewrite Z.eqb_refl, Hw. done.
Qed.

Lemma send_chunks_events fuel s rest missing p :
  (length rest < fuel)%nat → Forall sendable rest → is_u32 (SyncSession.txid (deref s p)) →
  ∃ wires, events_of (send_chunks fuel s rest missing (λ w, emit (Replied w))) p = Replied <$> wires ∧
    Forall2 (λ w f, DecodeSyncRecords w = Ok f) wires
      (record_frames fuel (SyncSession.txid (deref s p)) rest missing).
Proof.
  revert rest p. induction fuel as [|fuel IH]; intros rest p Hf Hs Htx; [lia |].
  cbn [send_chunks record_frames]. cbv zeta. set (cap := Z.to_nat MaxRecordsPerMessage).
  unfold events_of. rewrite bind_M. unfold on_session, SyncSession.BuildRecordsFrame.
  assert (Hcap : cap = 500%nat) by done.
  assert (Hlen : len (take cap rest) ≤ MaxRecordsPerMessage).
  { unfold len. rewrite length_take. unfold MaxRecordsPerMessage. lia. }
  rewrite (proj2 (Z.ltb_ge _ _) Hlen). cbn [fst snd].
  set (q := set_heap _ p).
  assert (Hd : SyncSession.txid (deref s q) = SyncSession.txid (deref s p)).
  { unfold deref at 1, q. cbn [heap set_heap]. by rewrite lookup_insert_eq. }
  set (miss := if len rest <=? _ then missing else []).
  destruct (encode_sendable (SyncSession.txid (deref s p)) (take cap rest) (sl <$> miss) Htx
    (Forall_take _ _ _ Hs) Hlen 0) as (wire & He & Hdec). rewrite He, bind_M. cbn [emit].
  assert (Hmiss : (sl <$> miss) = if len rest <=? MaxRecordsPerMessage then sl <$> missing else [])
    by (unfold miss; by destruct (len rest <=? _)).
  rewrite Hmiss in Hdec. destruct (Z.leb_spec (len rest) MaxRecordsPerMessage) as [Hle|Hgt].
  - exists [wire]. split; [done | by repeat constructor].
  - assert (Hl : (500 < length rest)%nat) by (unfold len, MaxRecordsPerMessage in *; lia).
    destruct (IH (drop cap rest) q) as (ws & Hev & Hw);
      [rewrite length_drop; lia | by apply Forall_drop | by rewrite Hd |].
    exists (wire :: ws). rewrite Hd in Hw. split; [|by constructor].
    unfold events_of in Hev. destruct (send_chunks _ _ _ _ _ q) as [[q' es] a]. cbn [fst snd] in *.
    by rewrite Hev.
Qed.

(** The loop of [ApplyNeed] loses no identity. *)
Lemma resolve_spec recs (ids : list bytes) :
  Forall (λ i, len i = 32) ids →
  Forall (λ i, (∃ r, recs !! copy_arr 32 i = Some r ∧ r ∈ (SyncSession.resolve recs ids).1) ∨
               copy_arr 32 i ∈ (SyncSession.resolve recs ids).2) ids ∧
  Forall (λ r, ∃ i, recs !! i = Some r) (SyncSession.resolve recs ids).1.
Proof.
  induction 1 as [|i ids Hi Hids IH]; [by split; constructor |]. cbn [SyncSession.resolve].
  destruct (SyncSession.resolve recs ids) as [found missing]. rewrite Hi. cbn [Z.eqb Pos.eqb negb fst snd] in *.
  destruct IH as [IH1 IH2]. destruct (recs !! copy_arr 32 i) as [r|] eqn:E; cbn [fst snd].
  - split; [|by constructor; [by eexists |]]. constructor; [left; exists r; split; [done | by left] |].
    eapply Forall_impl; [exact IH1 |]. intros j [(r' & ? & ?)|?]; [left | by right].
    exists r'. split; [done | by right].
  - split; [|done]. constructor; [right; by left |].
    eapply Forall_impl; [exact IH1 |]. intros j [?|?]; [by left | right; by right].
Qed.

Lemma modify_session_eq s f p x :
  heap p !! s = Some x → modify_session s f p = (set_heap (<[s := f x]> (heap p)) p, [], tt).
Proof. intros Hx. unfold modify_session, on_session. by rewrite (deref_some s p x Hx). Qed.

Lemma DecodeSyncNeed_within payload m :
  DecodeSyncNeed payload = Ok m →
  len (default [] (sn_IDs m)) ≤ MaxNeedIDsPerMessage ∧
  Forall (λ i : bytes, len i = 32) (default [] (sn_IDs m)).
Proof.
  unfold DecodeSyncNeed. intros Hd. apply bind_ok_inv in Hd as (m' & _ & Hd).
  apply check_ok_inv in Hd as [_ Hd]. apply bind_ok_inv in Hd as ([] & Hc & Hd).
  injection Hd as ->. by apply check_ids_ok.
Qed.

(** A request for records is answered in full.  The pump of the session is
    stopped; every identity asked for is found among the records of the session
    or reported missing; and the replies are frames of at most
    [MaxRecordsPerMessage] records, at least one, which the receiver decodes to
    exactly the records found, in order, with exactly the missing identities,
    however many there are. *)
Lemma need_answered now addr payload p m s x :
  DecodeSyncNeed payload = Ok m →
  registered p addr (sn_TxID m) s →
  heap p !! s = Some x → SyncSession.txid x = sn_TxID m → is_u32 (sn_TxID m) →
  SyncSession.bounded x → map_Forall (λ _, sendable) (SyncSession.records x) →
  stopped (state_of (onSyncNeed now addr payload true) p) s ∧
  ∃ found missing wires frames,
    SyncSession.resolve (SyncSession.records x) (default [] (sn_IDs m)) = (found, missing) ∧
    Forall (λ i, (∃ r, SyncSession.records x !! copy_arr 32 i = Some r ∧ r ∈ found) ∨
                 copy_arr 32 i ∈ missing) (default [] (sn_IDs m)) ∧
    events_of (onSyncNeed now addr payload true) p = Replied <$> wires ∧
    Forall2 (λ w f, DecodeSyncRecords w = Ok f) wires frames ∧
    frames ≠ [] ∧
    (frames ≫= λ f, default [] (sr_Records f)) = SyncSession.toWireRecord <$> found ∧
    (frames ≫= sr_Missing) = sl <$> missing ∧
    Forall (λ f, len (default [] (sr_Records f)) ≤ MaxRecordsPerMessage) frames.
Proof.
  intros Hd Hreg Hx Htx Hu Hb Hsend. destruct (DecodeSyncNeed_within payload m Hd) as [Hlen H32].
  set (x' := SyncSession.StopPump (SyncSession.touch now x)).
  set (p' := set_heap (<[s := x']> (<[s := SyncSession.touch now x]> (heap p))) p).
  destruct (SyncSession.resolve (SyncSession.records x) (default [] (sn_IDs m))) as [found missing] eqn:Er.
  destruct (resolve_spec (SyncSession.records x) _ H32) as [Hres Hin]. rewrite Er in Hres, Hin.
  assert (Hd' : deref s p' = x') by (unfold deref, p'; cbn [heap set_heap]; by rewrite lookup_insert_eq).
  assert (Hnil : len (default [] (sn_IDs m)) <= MaxNeedIDsPerMessage) by done.
  assert (He : onSyncNeed now addr payload true p
             = sendRecordsChunked s found missing (need_send addr true) p').
  { unfold onSyncNeed. rewrite Hd, bind_M. cbn [lookupSyncSession gets]. unfold registered in Hreg.
    rewrite Hreg, bind_M, (modify_session_eq s _ p x Hx).
    rewrite bind_M, (modify_session_eq s _ _ (SyncSession.touch now x)) by (cbn [heap set_heap]; by rewrite lookup_insert_eq).
    rewrite bind_M. cbn [gets]. fold x'. change (set_heap _ (set_heap _ p)) with p'. rewrite Hd'. unfold SyncSession.ApplyNeed.
    change (SyncSession.txid x') with (SyncSession.txid x). rewrite Htx, Z.eqb_refl.
    rewrite (proj2 (Z.ltb_ge _ _) Hlen). cbn [negb].
    change (SyncSession.records x') with (SyncSession.records x). rewrite Er.
    by destruct (sendRecordsChunked s found missing (need_send addr true) p') as [[? ?] ?]. }
  assert (Hq : quiet p' (state_of (sendRecordsChunked s found missing (need_send addr true)) p'))
    by (apply quietly_send_chunks; intros; quiet).
  split.
  - unfold state_of in *. rewrite He. destruct (quiet_old _ _ Hq s x') as (y & Hy & Hs).
    { unfold p'. cbn [heap set_heap]. by rewrite lookup_insert_eq. }
    assert (Hb' : SyncSession.bounded x').
    { apply (SyncSession.steps_bounded x); [done |]. eapply rtc_l; [apply (SyncSession.step_touch now) |].
      apply rtc_once. constructor. }
    destruct (sessions_keep x' y Hb' Hs) as (_ & _ & Hk & _).
    unfold stopped. rewrite (deref_some _ _ _ Hy). by apply Hk.
  - destruct (send_chunks_events (S (length found)) s found missing p') as (wires & Hev & Hw).
    + lia.
    + eapply Forall_impl; [exact Hin |]. cbn. intros r (i & Hi). by apply (Hsend i r).
    + rewrite Hd'. change (SyncSession.txid x') with (SyncSession.txid x). by rewrite Htx.
    + destruct (record_frames_spec (S (length found)) (SyncSession.txid (deref s p')) found missing)
        as (Hf1 & Hf2 & Hf3 & Hf4); [lia |].
      exists found, missing, wires. eexists. split; [done |]. split; [done |].
      split; [by unfold events_of; rewrite He |]. split; [exact Hw |]. done.
Qed.
End chunks.

(** ** Examples

    A node with one record, connected to the peer [a]. *)
Module Examples.
Import ToySig.
#[local] Existing Instances toy_begin toy_need toy_records toy_end.
#[local] Instance cheap_symbols : Bencode SyncSymbols := {|
  marshal m := Some [z2b (len (ss_Symbols m))]; unmarshal _ _ := None |}.
#[local] Instance toy_reject : Bencode Ltepwire.Reject := {|
  marshal r := Some (Ltepwire.rej_Reason r); unmarshal _ _ := None |}.
(** The header of every frame of these examples is that of a sync_begin. *)
#[local] Instance toy_header : Bencode Ltepwire.peekHeader := {|
  marshal _ := None; unmarshal _ _ := Some (Ltepwire.Build_peekHeader Ltepwire.MsgTypeSyncBegin 1) |}.

Definition a : bytes := str "a".
Definition peer_a : PeerState := {|
  Addr := a; SeenAt := 0; Supported := true; RemoteExtID := 3; token := {| t_addr := a; t_epoch := 1 |};
  Services := LtepServices.BitSetReconciliation; Version := 1; PublisherPubkey := zero_arr 32;
  hasPubkey := false |}.
Definition rec_ (t : Z) : LocalRecord :=
  Record.mk (zero_arr 32) (str "linux") (zero_arr 20) t 0 (zero_arr 64).
Definition node : Protocol :=
  SetRecordSource (Some (λ _, Some [rec_ 2])) (SetTransport true (set_peers {[a := peer_a]} New)).
Definition no_filter : SyncFilter := {| Pubkeys := []; Since := 0; Prefix := [] |}.
Definition begin_1 : SyncBegin := {|
  sb_MsgType := 0; sb_TxID := 1; sb_Algo := []; sb_ElementSize := 0; sb_Filter := no_filter;
  sb_LocalCount := 0; sb_MaxSymbols := 0; sb_MaxBytes := 0 |}.
Definition frame_of {E} (r : result E bytes) : bytes := match r with Ok b => b | Err _ => [] end.

(** The peer opens a session: a pump runs, and stops when the peer leaves. *)
Definition begun : Protocol :=
  state_of (handleSyncFrame 0 a (frame_of (EncodeSyncBegin begin_1)) true) node.


(** The node starts a sync under transaction 1, the peer opens a session under
    its own transaction 1, which takes the slot; closing the node's sync then
    releases the peer's session without stopping it.  Its pump outlives even the
    connection. *)
Definition collided : Protocol :=
  state_of (handleSyncFrame 0 a (frame_of (EncodeSyncBegin begin_1)) true)
    (state_of (StartSync 0 true a no_filter [rec_ 3]) node).

Definition closed_sync : Protocol := state_of (CloseSync a 0%N []) collided.
Definition disconnected : Protocol := state_of (OnPeerClosed a) closed_sync.

Example CloseSync_orphans_the_pump :
  is_ok (answer_of (StartSync 0 true a no_filter [rec_ 3]) node) = true ∧
  size (sessions_of a closed_sync) = 0%nat ∧
  (t_addr <$> pumps disconnected !! 1%N) = Some a ∧
  SyncSession.pumpStopped (deref 1%N disconnected) = false ∧
  length (events_of (runSyncPump 1%N) disconnected) = 1%nat.
Proof. split_and!; vm_compute; reflexivity. Qed.

(** A request for the node's record and for one it lacks. *)
Definition session_7 : SyncSession.SyncSession :=
  SyncSession.NewSyncSession 0 7 SyncSession.RoleResponder [rec_ 2].
Definition serving : Protocol :=
  set_sessions {[a := {[7 := 0%N]}]} (set_heap {[0%N := session_7]} node).
Definition need_7 : SyncNeed := {|
  sn_MsgType := Ltepwire.MsgTypeSyncNeed; sn_TxID := 7; sn_IDs := Some [replicate 32 x01] |}.

Lemma rec_sendable : sendable (rec_ 2).
Proof.
  unfold sendable, record_within, record_ok, is_i64, is_u64. cbn. unfold len.
  rewrite !length_sl. by split_and!.
Qed.

Lemma need_answered_witness :
  stopped (state_of (onSyncNeed 0 a (frame_of (EncodeSyncNeed need_7)) true) serving) 0%N ∧
  length (events_of (onSyncNeed 0 a (frame_of (EncodeSyncNeed need_7)) true) serving) = 1%nat.
Proof.
  destruct (need_answered (B7 := toy_records) (L7 := ToyCodec.pos_laws _) 0 a
    (frame_of (EncodeSyncNeed need_7)) serving need_7 0%N session_7) as [Hst _].
  - vm_compute. reflexivity.
  - reflexivity.
  - reflexivity.
  - apply NewSyncSession_fields.
  - unfold is_u32. cbn. lia.
  - apply SyncSession.NewSyncSession_bounded.
  - intros i r Hr. destruct (SyncSession.NewSyncSession_fresh 0 7 SyncSession.RoleResponder [rec_ 2])
      as (ids & Hf & _). destruct (SyncSession.fresh_records _ _ _ Hf i r Hr) as [Hin _].
    apply list_elem_of_singleton in Hin as ->. apply rec_sendable.
  - split; [exact Hst | vm_compute; reflexivity].
Defined.
End Examples.
End SyncDispatch.
