(* ===== verification/Handler.v ===== *)
(** * Inbound frames (internal/swarmsearch/handler.go)

    The dispatch of every sn_search frame, the answering of queries and the
    sharing policy applied to the answers. *)

From Stdlib Require Import SpecFloat.
From S2P Require Import Prelude GoInt Sha256 Externals Instances Record Utf8 GoFloat Hex LtepServices Ltepwire LtepSync Misbehavior RecordCache SyncSession Protocol SwarmQuery SyncDispatch.
Open Scope Z_scope.

Module Handler.
Import Protocol.

(** ** Language and standard library *)

(** [int(f)] on amd64: truncation; the least integer when that does not fit. *)
Definition float_to_int (f : float64) : Z :=
  match f with
  | S754_zero _ => 0
  | S754_finite s m e =>
    let v := if 0 <=? e then Zpos m * 2 ^ e else Zpos m / 2 ^ (- e) in
    let v := if (s : bool) then - v else v in
    if (- 2 ^ 63 <=? v) && (v <? 2 ^ 63) then v else - 2 ^ 63
  | _ => - 2 ^ 63
  end.

(** [time.Time.Unix] of an instant in nanoseconds since the zero time. *)
Definition Unix (t : Z) : Z := t / Second - 62135596800.

(** [unicode.IsSpace]. *)
Definition IsSpace (r : Z) : bool :=
  ((9 <=? r) && (r <=? 13)) || (r =? 0x20) || (r =? 0x85) || (r =? 0xA0) || (r =? 0x1680) ||
  ((0x2000 <=? r) && (r <=? 0x200A)) || (r =? 0x2028) || (r =? 0x2029) || (r =? 0x202F) ||
  (r =? 0x205F) || (r =? 0x3000).

Fixpoint drop_spaces (l : list (Z * bytes)) : list (Z * bytes) :=
  match l with
  | c :: l' => if IsSpace c.1 then drop_spaces l' else l
  | [] => []
  end.
(** [strings.TrimSpace]. *)
Definition TrimSpace (s : bytes) : bytes :=
  concat (snd <$> reverse (drop_spaces (reverse (drop_spaces (Utf8.runes s))))).

(** [strings.ContainsRune] of an ASCII character. *)
Definition contains (s : bytes) (c : byte) : bool := bool_decide (c ∈ s).

(** ** Sharing policy *)
Definition unsupportedScope (scope : bytes) (caps : LtepServices.Sharing) : option (Z * bytes) :=
  if contains scope x63 && negb (LtepServices.ContentHits caps)
  then Some (Ltepwire.RejectUnsupportedScope, str "unsupported_scope_c")
  else if contains scope x66 && negb (LtepServices.FileHits caps)
  then Some (Ltepwire.RejectUnsupportedScope, str "unsupported_scope_f")
  else None.

Definition is_content (h : LocalHit) : bool := bool_decide (DocType h = str "content").

(** The entry a torrent's first hit makes. *)
Definition new_hit (ih : bytes) (h : LocalHit) : Ltepwire.Hit := {|
  Ltepwire.IH := ih; Ltepwire.IH2 := []; Ltepwire.N := Name h; Ltepwire.S_ := Seeders h;
  Ltepwire.L := Leechers h; Ltepwire.Sz := SizeBytes h;
  Ltepwire.T := if AddedAt h =? 0 then 0 else Unix (AddedAt h);
  Ltepwire.Rank := float_to_int (GoFloat.fmul (Score h) (GoFloat.of_int 1000));
  Ltepwire.Matches := []
|}.
Definition file_match (caps : LtepServices.Sharing) (h : LocalHit) : Ltepwire.FileMatch := {|
  Ltepwire.FI := FileIndex h; Ltepwire.FP := if LtepServices.FileHits caps then FilePath h else [];
  Ltepwire.Off := 0; Ltepwire.Pr := []; Ltepwire.Sn := []
|}.
Definition add_match (m : Ltepwire.FileMatch) (w : Ltepwire.Hit) : Ltepwire.Hit := {|
  Ltepwire.IH := Ltepwire.IH w; Ltepwire.IH2 := Ltepwire.IH2 w; Ltepwire.N := Ltepwire.N w;
  Ltepwire.S_ := Ltepwire.S_ w; Ltepwire.L := Ltepwire.L w; Ltepwire.Sz := Ltepwire.Sz w;
  Ltepwire.T := Ltepwire.T w; Ltepwire.Rank := Ltepwire.Rank w;
  Ltepwire.Matches := Ltepwire.Matches w ++ [m]
|}.

Record wire_state := { w_byIH : gmap bytes Ltepwire.Hit; hasName : gset bytes; w_order : list bytes }.

Definition wire_step (caps : LtepServices.Sharing) (s : wire_state) (h : LocalHit) : wire_state :=
  match Hex.DecodeString (InfoHash h) with
  | None => s
  | Some ih =>
    if negb (len ih =? 20) then s
    else
      let '(w, s) :=
        match w_byIH s !! InfoHash h with
        | Some w => (w, s)
        | None => (new_hit ih h,
                   {| w_byIH := <[InfoHash h := new_hit ih h]> (w_byIH s); hasName := hasName s;
                      w_order := w_order s ++ [InfoHash h] |})
        end in
      if is_content h then
        if negb (LtepServices.ContentHits caps) then s
        else {| w_byIH := <[InfoHash h := add_match (file_match caps h) w]> (w_byIH s);
                hasName := hasName s; w_order := w_order s |}
      else {| w_byIH := w_byIH s; hasName := {[InfoHash h]} ∪ hasName s; w_order := w_order s |}
  end.

Definition hitsToWire (hits : list LocalHit) (caps : LtepServices.Sharing) : list Ltepwire.Hit :=
  let s := foldl (wire_step caps) {| w_byIH := ∅; hasName := ∅; w_order := [] |} hits in
  omap (λ ih,
    if negb (LtepServices.ContentHits caps) && negb (bool_decide (ih ∈ hasName s)) then None
    else w_byIH s !! ih) (w_order s).

(** ** Handlers *)
Section handler.
Context `{Ed25519}.
Context `{Bencode Ltepwire.Query, Bencode Ltepwire.Result, Bencode Ltepwire.Reject,
  Bencode Ltepwire.PeerAnnounce, Bencode Ltepwire.peekHeader, Bencode LtepSync.SyncBegin,
  Bencode LtepSync.SyncSymbols, Bencode LtepSync.SyncNeed, Bencode LtepSync.SyncRecords,
  Bencode LtepSync.SyncEnd}.

Definition handleQuery (now : Z) (addr payload : bytes) (reply : bool) : M unit :=
  match Ltepwire.DecodeQuery payload with
  | Err _ => charge now addr Misbehavior.ScoreBadBencode
  | Ok q =>
    let tx := Ltepwire.q_TxID q in
    allowed ← allow now addr;
    if negb allowed then
      charge now addr Misbehavior.ScoreRateLimited;;
      SyncDispatch.sendReject reply tx Ltepwire.RejectRateLimited (str "rate_limited")
    else
      search ← gets searcher;
      c ← caps;
      let sharing := caps_Sharing c in
      match search with
      | None => SyncDispatch.sendReject reply tx Ltepwire.RejectShuttingDown (str "searcher_disabled")
      | Some search =>
        if negb (LtepServices.ShareLocal sharing =? 2)
        then SyncDispatch.sendReject reply tx Ltepwire.RejectShuttingDown (str "searcher_disabled")
        else
          match unsupportedScope (Ltepwire.q_Scope q) sharing with
          | Some (cd, reason) => SyncDispatch.sendReject reply tx cd reason
          | None =>
            if len (TrimSpace (Ltepwire.q_Q q)) <? 2 then
              charge now addr Misbehavior.ScoreQueryTooBroad;;
              SyncDispatch.sendReject reply tx Ltepwire.RejectQueryTooBroad (str "query_too_short")
            else
              let limit := if (Ltepwire.q_Limit q <=? 0) || (100 <? Ltepwire.q_Limit q)
                           then 50 else Ltepwire.q_Limit q in
              match search (Ltepwire.q_Q q) limit with
              | None => SyncDispatch.sendReject reply tx Ltepwire.RejectTooExpensive (str "local_error")
              | Some (total, hits) =>
                if negb reply then skip
                else
                  match (Ltepwire.EncodeResult {|
                           Ltepwire.res_MsgType := 0; Ltepwire.res_TxID := tx;
                           Ltepwire.res_Total := total; Ltepwire.res_Partial := 0;
                           Ltepwire.res_Hits := Some (hitsToWire hits sharing) |}).1 with
                  | Err _ => skip
                  | Ok frame => emit (Replied frame)
                  end
              end
          end
      end
  end.

(** ** Announcements *)
Definition gossip_key (pk : bytes) : option (array 32) :=
  if (len pk =? 32) && negb (bool_decide (copy_arr 32 pk = zero_arr 32)) then Some (copy_arr 32 pk)
  else None.

Definition note_announce (pa : Ltepwire.PeerAnnounce) (ps : PeerState) : PeerState :=
  let key := gossip_key (Ltepwire.pa_Pk pa) in
  {| Addr := Addr ps; SeenAt := SeenAt ps; Supported := Supported ps; RemoteExtID := RemoteExtID ps;
     token := token ps; Services := Ltepwire.pa_Services pa; Version := Ltepwire.pa_Version pa;
     PublisherPubkey := default (PublisherPubkey ps) key;
     hasPubkey := match key with Some _ => true | None => hasPubkey ps end |}.

(** The loop over the endorsements. *)
Fixpoint note_endorsements (endorser : array 32) (l : list bytes) : M unit :=
  match l with
  | [] => skip
  | e :: l =>
    if negb (len e =? 32) then note_endorsements endorser l
    else
      let cand := copy_arr 32 e in
      if bool_decide (cand = zero_arr 32) || bool_decide (cand = endorser)
      then note_endorsements endorser l
      else emit (NotedEndorsement endorser cand);; note_endorsements endorser l
  end.

Definition handlePeerAnnounce (addr : bytes) (pa : Ltepwire.PeerAnnounce) : M unit :=
  ps ← gets (λ p, peers p !! addr);
  match ps with
  | None => skip
  | Some ps =>
    modify (λ p, set_peers (<[addr := note_announce pa ps]> (peers p)) p);;
    idx ← gets idxSink;
    en ← gets endSink;
    match gossip_key (Ltepwire.pa_Pk pa) with
    | None => skip
    | Some key =>
      (if (idx : bool) then emit (NotedIndexer key (str "gossip:" ++ addr)) else skip);;
      if negb en then skip else note_endorsements key (Ltepwire.pa_Endorsed pa)
    end
  end.

(** ** Dispatch *)
Definition is_sync (mt : Z) : bool :=
  bool_decide (mt ∈ [Ltepwire.MsgTypeSyncBegin; Ltepwire.MsgTypeSyncSymbols; Ltepwire.MsgTypeSyncNeed;
                     Ltepwire.MsgTypeSyncRecords; Ltepwire.MsgTypeSyncEnd]).

Definition HandleMessage (now : Z) (addr payload : bytes) (reply : bool) : M unit :=
  banned ← isBanned now addr;
  if (banned : bool) then skip
  else
    match Ltepwire.PeekMsgType payload with
    | Err _ => charge now addr Misbehavior.ScoreBadBencode
    | Ok mt =>
      if mt =? Ltepwire.MsgTypeQuery then handleQuery now addr payload reply
      else if mt =? Ltepwire.MsgTypeResult then
        match Ltepwire.DecodeResult payload with
        | Err _ => charge now addr Misbehavior.ScoreBadBencode
        | Ok r => SwarmQuery.routeResult now addr r
        end
      else if mt =? Ltepwire.MsgTypeReject then
        match Ltepwire.DecodeReject payload with
        | Err _ => charge now addr Misbehavior.ScoreBadBencode
        | Ok rj => SwarmQuery.routeReject now addr rj
        end
      else if mt =? Ltepwire.MsgTypePeerAnnounce then
        match Ltepwire.DecodePeerAnnounce payload with
        | Err _ => charge now addr Misbehavior.ScoreBadBencode
        | Ok pa => handlePeerAnnounce addr pa
        end
      else if is_sync mt then SyncDispatch.handleSyncFrame now addr payload reply
      else charge now addr Misbehavior.ScoreUnexpectedMessage
    end.
End handler.

(** ** The answer, torrent by torrent *)
Definition wire_ih (h : LocalHit) : option bytes :=
  ih ← Hex.DecodeString (InfoHash h); if len ih =? 20 then Some ih else None.
Definition valid_hits (hits : list LocalHit) : list LocalHit := filter (λ h, is_Some (wire_ih h)) hits.
Definition hits_of (hits : list LocalHit) (k : bytes) : list LocalHit :=
  filter (λ h, InfoHash h = k) (valid_hits hits).
Abbreviation content l := (filter (λ h, is_content h = true) l).
Abbreviation names l := (filter (λ h, is_content h = false) l).

Definition with_matches (ms : list Ltepwire.FileMatch) (w : Ltepwire.Hit) : Ltepwire.Hit := {|
  Ltepwire.IH := Ltepwire.IH w; Ltepwire.IH2 := Ltepwire.IH2 w; Ltepwire.N := Ltepwire.N w;
  Ltepwire.S_ := Ltepwire.S_ w; Ltepwire.L := Ltepwire.L w; Ltepwire.Sz := Ltepwire.Sz w;
  Ltepwire.T := Ltepwire.T w; Ltepwire.Rank := Ltepwire.Rank w; Ltepwire.Matches := ms
|}.

(** The entry of a torrent whose hits are [l]. *)
Definition entry (h : LocalHit) : Ltepwire.Hit := new_hit (default [] (wire_ih h)) h.
Definition wire_reference (caps : LtepServices.Sharing) (l : list LocalHit) : option Ltepwire.Hit :=
  match l with
  | [] => None
  | h :: _ =>
    if LtepServices.ContentHits caps then Some (with_matches (file_match caps <$> content l) (entry h))
    else if bool_decide (names l = []) then None else Some (entry h)
  end.

Section wire.
Context (caps : LtepServices.Sharing).

Definition w_upd (h : LocalHit) (b : Ltepwire.Hit * bool) : Ltepwire.Hit * bool :=
  if is_content h
  then (if LtepServices.ContentHits caps then add_match (file_match caps h) b.1 else b.1, b.2)
  else (b.1, true).
Abbreviation w_group := (group InfoHash (λ h, (entry h, false)) w_upd).
Abbreviation w_gstep := (group_step InfoHash (λ h, (entry h, false)) w_upd).

Record w_simulates (s : wire_state) (g : gmap bytes (Ltepwire.Hit * bool) * list bytes) : Prop := {
  w_sim_map : ∀ k, w_byIH s !! k = fst <$> g.1 !! k;
  w_sim_name : ∀ k, k ∈ hasName s ↔ ∃ w, g.1 !! k = Some (w, true);
  w_sim_order : w_order s = g.2
}.

Lemma wire_step_invalid s h : ¬ is_Some (wire_ih h) → wire_step caps s h = s.
Proof.
  unfold wire_ih, wire_step. destruct (Hex.DecodeString (InfoHash h)) as [ih|]; simpl; [|done].
  destruct (len ih =? 20); [|done]. intros []. by eexists.
Qed.

Lemma w_simulates_step s g h :
  is_Some (wire_ih h) → w_simulates s g → w_simulates (wire_step caps s h) (w_gstep g h).
Proof.
  intros [ih Hih] [Hm Hn Ho].
  assert (He : entry h = new_hit ih h) by (unfold entry; by rewrite Hih).
  unfold wire_ih in Hih. unfold wire_step.
  destruct (Hex.DecodeString (InfoHash h)) as [ih'|]; [|done]. simpl in Hih.
  destruct (len ih' =? 20); [|done]. injection Hih as ->. cbn [negb].
  set (k := InfoHash h) in *. pose proof (Hm k) as Hmk. pose proof (Hn k) as Hnk.
  assert (Hg : w_gstep g h = (<[k := w_upd h (default (entry h, false) (g.1 !! k))]> g.1,
    match g.1 !! k with Some _ => g.2 | None => g.2 ++ [k] end))
    by (unfold group_step; fold k; by destruct (g.1 !! k)).
  rewrite Hg. unfold w_upd. rewrite Hmk.
  destruct (g.1 !! k) as [[w n]|] eqn:E; simpl; rewrite ?He;
    destruct (is_content h); try destruct (LtepServices.ContentHits caps); simpl;
    split; cbn [w_byIH hasName w_order fst snd]; try (by rewrite ?Ho);
    intros k'; rewrite ?lookup_insert, ?elem_of_union, ?elem_of_singleton, ?Hn;
    repeat (case_decide as Hk; [subst k'|]); rewrite ?Hm, ?Hmk, ?E; simpl; naive_solver.
Qed.

Lemma w_simulates_all hits s g :
  w_simulates s g → w_simulates (foldl (wire_step caps) s hits) (foldl w_gstep g (valid_hits hits)).
Proof.
  revert s g. induction hits as [|h hits IH]; intros s g Hs; [done |]. unfold valid_hits in *. cbn [foldl].
  destruct (decide (is_Some (wire_ih h))) as [Hv|Hv].
  - rewrite filter_cons_True by done. cbn [foldl]. by apply IH, w_simulates_step.
  - rewrite filter_cons_False by done. rewrite wire_step_invalid by done. by apply IH.
Qed.

Definition shown (l : list LocalHit) : list Ltepwire.FileMatch :=
  if LtepServices.ContentHits caps then file_match caps <$> content l else [].

Lemma group_of_wire h l :
  group_of (λ h, (entry h, false)) (w_upd) (h :: l)
  = Some (with_matches (shown (h :: l)) (entry h), negb (bool_decide (names (h :: l) = []))).
Proof.
  cbn [group_of]. f_equal. generalize (h :: l) as k. intros k.
  assert (Hg : foldl (λ b x, w_upd x b) (entry h, false) k
               = (with_matches (shown k) (entry h), negb (bool_decide (names k = [])))); [|done].
  induction k as [|x k IH] using rev_ind.
  { unfold shown. cbn. by destruct (LtepServices.ContentHits caps). }
  rewrite foldl_app. cbn [foldl]. rewrite IH. unfold w_upd, shown. rewrite !filter_app. cbn [fst snd].
  destruct (is_content x) eqn:E.
  - rewrite !(filter_cons_True (λ h, is_content h = true)), !filter_nil by done.
    rewrite (filter_cons_False (λ h, is_content h = false)), filter_nil, app_nil_r by (by rewrite E).
    destruct (LtepServices.ContentHits caps); [|done]. by rewrite fmap_app.
  - rewrite (filter_cons_False (λ h, is_content h = true)), filter_nil, app_nil_r by (by rewrite E).
    rewrite (filter_cons_True (λ h, is_content h = false)), filter_nil by done.
    rewrite bool_decide_false; [done |]. intros Hn. by apply app_eq_nil in Hn as [_ ?].
Qed.

Lemma hitsToWire_reference hits :
  hitsToWire hits caps =
    omap (λ k, wire_reference caps (hits_of hits k)) (distinct (InfoHash <$> valid_hits hits)).
Proof.
  unfold hitsToWire. set (s := foldl (wire_step caps) _ hits).
  assert (Hs : w_simulates s (w_group (valid_hits hits))).
  { apply w_simulates_all. split; [done | | done]. intros k. split; [by intros ?%not_elem_of_empty |].
    by intros (w & Hw). }
  destruct Hs as [Hm Hn ->].
  destruct (group_spec InfoHash (λ h, (entry h, false)) w_upd (valid_hits hits)) as [-> Hg].
  apply list_omap_ext, Forall_Forall2_diag, Forall_forall. intros k _.
  rewrite Hm. assert (Hnk := Hn k). rewrite Hg in Hnk |- *. fold (hits_of hits k) in Hnk |- *.
  destruct (hits_of hits k) as [|h l]; [by destruct (_ && _) |].
  rewrite group_of_wire in Hnk |- *. cbn [fmap option_fmap option_map fst]. unfold wire_reference.
  assert (Hb : bool_decide (k ∈ hasName s) = negb (bool_decide (names (h :: l) = []))).
  { apply (iff_sym) in Hnk. destruct (bool_decide (names (h :: l) = [])); simpl in *.
    - apply bool_decide_false. rewrite <-Hnk. by intros (w & Hw).
    - apply bool_decide_true. apply Hnk. by eexists. }
  rewrite Hb, negb_involutive. unfold shown. destruct (LtepServices.ContentHits caps); [done |]. simpl.
  by destruct (bool_decide _).
Qed.

Lemma elem_hitsToWire hits w :
  w ∈ hitsToWire hits caps ↔
  ∃ k, k ∈ InfoHash <$> valid_hits hits ∧ wire_reference caps (hits_of hits k) = Some w.
Proof.
  rewrite hitsToWire_reference, list_elem_of_omap. setoid_rewrite (proj2 (distinct_spec _)). naive_solver.
Qed.
End wire.

(** What a query is answered is decided torrent by torrent, in order of
    first appearance: a torrent shows the data of its first hit with its content
    matches in order, hits without a 20-byte infohash counting for nothing.  With
    content sharing off no match is sent, and only torrents with a hit by name
    appear; with file sharing off no path is sent. *)
Lemma hits_to_wire hits caps :
  hitsToWire hits caps =
    omap (λ k, wire_reference caps (hits_of hits k)) (distinct (InfoHash <$> valid_hits hits)) ∧
  (LtepServices.ContentHits caps = false →
   Forall (λ w, Ltepwire.Matches w = [] ∧
     ∃ h, h ∈ hits ∧ is_content h = false ∧ wire_ih h = Some (Ltepwire.IH w)) (hitsToWire hits caps)) ∧
  (LtepServices.FileHits caps = false →
   Forall (λ w, Forall (λ m, Ltepwire.FP m = []) (Ltepwire.Matches w)) (hitsToWire hits caps)) ∧
  Forall (λ w, len (Ltepwire.IH w) = 20) (hitsToWire hits caps).
Proof.
  assert (Hval : ∀ k h, h ∈ hits_of hits k → h ∈ hits ∧ InfoHash h = k ∧ ∃ ih, wire_ih h = Some ih ∧ len ih = 20).
  { intros k h [Hk [[ih Hih] Hin]%list_elem_of_filter]%list_elem_of_filter. split_and!; [done | done |].
    exists ih. split; [done |]. revert Hih. unfold wire_ih. destruct (Hex.DecodeString _) as [ih'|]; [|done].
    simpl. destruct (Z.eqb_spec (len ih') 20); [|done]. by intros [= <-]. }
  assert (Hent : ∀ k h l, hits_of hits k = h :: l →
    ∃ ih, wire_ih h = Some ih ∧ len ih = 20 ∧ Ltepwire.IH (entry h) = ih).
  { intros k h l Hl. destruct (Hval k h) as (_ & _ & ih & Hih & Hlen); [rewrite Hl; by left |].
    exists ih. split_and!; [done | done |]. unfold entry. by rewrite Hih. }
  split; [apply hitsToWire_reference |]. split_and!.
  - intros Hc. apply Forall_forall. intros w (k & _ & Hw)%elem_hitsToWire. unfold wire_reference in Hw.
    destruct (hits_of hits k) as [|h l] eqn:El; [done |]. rewrite Hc in Hw.
    destruct (Hent k h l El) as (ih & Hih & _ & HIH). case_bool_decide as Hn; [done |].
    injection Hw as <-. split; [done |].
    destruct (names (h :: l)) as [|x xs] eqn:Ex; [done |].
    assert (Hx : x ∈ names (h :: l)) by (rewrite Ex; by left).
    apply list_elem_of_filter in Hx as [Hx Hin]. exists x. rewrite <-El in Hin.
    destruct (Hval k x Hin) as (? & Hk & _). split_and!; [done | done |].
    assert (Hh : InfoHash h = k) by (apply (Hval k h); rewrite El; by left).
    unfold wire_ih in *. rewrite HIH, Hk, <-Hh. exact Hih.
  - intros Hf. apply Forall_forall. intros w (k & _ & Hw)%elem_hitsToWire. unfold wire_reference in Hw.
    destruct (hits_of hits k) as [|h l] eqn:El; [done |].
    destruct (LtepServices.ContentHits caps).
    + injection Hw as <-. cbn [with_matches Ltepwire.Matches]. apply Forall_fmap, Forall_all.
      intros x. cbn. by rewrite Hf.
    + case_bool_decide; [done |]. injection Hw as <-. constructor.
  - apply Forall_forall. intros w (k & _ & Hw)%elem_hitsToWire. unfold wire_reference in Hw.
    destruct (hits_of hits k) as [|h l] eqn:El; [done |].
    destruct (Hent k h l El) as (ih & _ & Hlen & HIH).
    destruct (LtepServices.ContentHits caps); [|case_bool_decide; [done |]]; injection Hw as <-;
      cbn [with_matches Ltepwire.IH]; by rewrite HIH.
Qed.

(** ** What an inbound frame can do

    A handler is contained when it neither creates nor forgets a peer, and
    replies only through a reply closure it was given. *)
Definition allowed_event (reply : bool) (e : event) : Prop :=
  match e with Replied _ => reply = true | _ => True end.
Definition contained {A} (reply : bool) (m : M A) : Prop := ∀ p,
  dom (peers (state_of m p)) = dom (peers p) ∧ Forall (allowed_event reply) (events_of m p).

Lemma contained_bind {A B} reply (m : M A) (f : A → M B) :
  contained reply m → (∀ a, contained reply (f a)) → contained reply (m ≫= f).
Proof.
  intros Hm Hf p. unfold events_of. rewrite SyncDispatch.state_of_bind, bind_M.
  destruct (Hm p) as [Hd1 He1]. specialize (Hf (answer_of m p) (state_of m p)).
  unfold state_of, events_of, answer_of in *.
  destruct (m p) as [[p1 es] a]. cbn [fst snd] in *. destruct Hf as [Hd2 He2].
  destruct (f a p1) as [[p2 es'] b]. cbn [fst snd] in *. split; [congruence |]. by apply Forall_app.
Qed.

(** An operation that leaves the peers and says nothing. *)
Lemma contained_silent {A} reply (m : M A) :
  (∀ p, peers (state_of m p) = peers p ∧ events_of m p = []) → contained reply m.
Proof. intros Hm p. destruct (Hm p) as [-> ->]. by split. Qed.

Lemma contained_ret {A} reply (a : A) : contained reply (mret a).
Proof. by apply contained_silent. Qed.
Lemma contained_skip reply : contained reply skip.
Proof. apply contained_ret. Qed.
Lemma contained_gets {A} reply (f : Protocol → A) : contained reply (gets f).
Proof. by apply contained_silent. Qed.
Lemma contained_emit reply e : allowed_event reply e → contained reply (emit e).
Proof. intros He p. split; [done |]. by repeat constructor. Qed.
Lemma contained_modify reply f : (∀ p, peers (f p) = peers p) → contained reply (modify f).
Proof. intros Hf. apply contained_silent. intros p. split; [apply Hf | done]. Qed.
Lemma contained_charge reply now addr pts : contained reply (charge now addr pts).
Proof. by apply contained_silent. Qed.
Lemma contained_allow reply now addr : contained reply (allow now addr).
Proof.
  apply contained_silent. intros p. unfold state_of, events_of, allow. by destruct (Misbehavior.Allow _ _ _).
Qed.
Lemma contained_isBanned reply now addr : contained reply (isBanned now addr).
Proof.
  apply contained_silent. intros p. unfold state_of, events_of, isBanned. by destruct (Misbehavior.IsBanned _ _ _).
Qed.
Lemma contained_session {A} reply s (f : SyncSession.SyncSession → SyncSession.SyncSession * A) :
  contained reply (SyncDispatch.on_session s f).
Proof.
  apply contained_silent. intros p. unfold state_of, events_of, SyncDispatch.on_session.
  by destruct (f _).
Qed.
Lemma contained_alloc reply x : contained reply (SyncDispatch.alloc x).
Proof. by apply contained_silent. Qed.
Lemma peers_release addr tx p : peers (SyncDispatch.release addr tx p) = peers p.
Proof. by destruct (SyncDispatch.release_eq addr tx p) as (r & -> & _). Qed.
Lemma peers_replace addr s p : peers (SyncDispatch.replace addr s p) = peers p.
Proof.
  unfold SyncDispatch.replace. cbv zeta. destruct (_ !! _) as [i|]; [|done]. by destruct (bool_decide _).
Qed.
Lemma contained_under_cap reply addr s cap :
  contained reply (SyncDispatch.registerSyncSessionIfUnderCap addr s cap).
Proof.
  apply contained_silent. intros p.
  unfold state_of, events_of, SyncDispatch.registerSyncSessionIfUnderCap. cbv zeta.
  destruct (cap <=? _); cbn [fst snd]; [done |]. by rewrite peers_replace.
Qed.
Lemma contained_release reply addr tx : contained reply (SyncDispatch.releaseSyncSession addr tx).
Proof. apply contained_modify. intros p. apply peers_release. Qed.

Create HintDb contained.
#[export] Hint Resolve contained_ret contained_skip contained_gets contained_charge contained_allow
  contained_isBanned contained_session contained_alloc contained_under_cap contained_release : contained.

Ltac contained_step :=
  first [ solve [eauto 2 with contained]
        | apply contained_bind; [|intros ?]
        | apply contained_emit; first [exact I | reflexivity]
        | apply contained_modify; intros ?; reflexivity
        | case_match ].
Ltac contained := repeat contained_step.

Lemma contained_foldr {A} reply (f : A → M unit) l :
  (∀ a, contained reply (f a)) → contained reply (foldr (λ a k, f a;; k) skip l).
Proof. intros Hf. induction l as [|a l IH]; simpl; contained. Qed.

Section containment.
Context `{Ed25519}.
Context `{Bencode Ltepwire.Query, Bencode Ltepwire.Result, Bencode Ltepwire.Reject,
  Bencode Ltepwire.PeerAnnounce, Bencode Ltepwire.peekHeader, Bencode LtepSync.SyncBegin,
  Bencode LtepSync.SyncSymbols, Bencode LtepSync.SyncNeed, Bencode LtepSync.SyncRecords,
  Bencode LtepSync.SyncEnd}.
Context (reply : bool).
Local Abbreviation contained := (contained reply).

Lemma contained_sendVia tok frame : contained (sendVia tok frame).
Proof. unfold sendVia. contained. Qed.
Local Hint Resolve contained_sendVia : contained.
Lemma contained_sendEnd tok m : contained (SyncDispatch.sendEnd tok m).
Proof. unfold SyncDispatch.sendEnd. contained. Qed.
Lemma contained_peerToken addr : contained (peerToken addr).
Proof. apply contained_gets. Qed.
Lemma contained_lookup addr tx : contained (SyncDispatch.lookupSyncSession addr tx).
Proof. apply contained_gets. Qed.
Local Hint Resolve contained_sendEnd contained_peerToken contained_lookup : contained.
Lemma contained_reject tx cd reason : contained (SyncDispatch.sendReject reply tx cd reason).
Proof. unfold SyncDispatch.sendReject. destruct reply; contained. Qed.
Lemma contained_finish addr s status : contained (SyncDispatch.send_finish addr s status).
Proof. unfold SyncDispatch.send_finish. contained. Qed.
Local Hint Resolve contained_reject contained_finish : contained.
Lemma contained_chunks fuel s rest missing send :
  (∀ wire, contained (send wire)) → contained (SyncDispatch.send_chunks fuel s rest missing send).
Proof.
  intros Hs. revert rest. induction fuel as [|fuel IH]; intros rest; cbn [SyncDispatch.send_chunks]; [contained |].
  cbv zeta. contained.
Qed.
Lemma contained_need_send addr wire : contained (SyncDispatch.need_send addr reply wire).
Proof. unfold SyncDispatch.need_send. destruct reply; contained. Qed.
Lemma contained_converge addr s : contained (SyncDispatch.initiatorConverge addr s).
Proof. unfold SyncDispatch.initiatorConverge, SyncDispatch.sendRecordsChunked. contained; apply contained_chunks; contained. Qed.
Lemma contained_ingest now addr recs seen : contained (SyncDispatch.ingest now addr recs seen).
Proof.
  revert seen. induction recs as [|r recs IH]; intros seen; cbn [SyncDispatch.ingest]; contained.
Qed.
Lemma contained_endWithError now addr s e : contained (SyncDispatch.endWithError now addr s e).
Proof. unfold SyncDispatch.endWithError, SyncDispatch.modify_session. contained. Qed.
Local Hint Resolve contained_need_send contained_converge contained_ingest contained_endWithError : contained.
Lemma contained_reap now : contained (SyncDispatch.reapStaleSyncSessions now).
Proof.
  unfold SyncDispatch.reapStaleSyncSessions. contained; [].
  apply contained_foldr. intros v. unfold SyncDispatch.reap_one, SyncDispatch.modify_session. contained.
Qed.
Lemma contained_sync now addr payload : contained (SyncDispatch.handleSyncFrame now addr payload reply).
Proof.
  unfold SyncDispatch.handleSyncFrame, SyncDispatch.onSyncBegin, SyncDispatch.onSyncSymbols,
    SyncDispatch.onSyncNeed, SyncDispatch.onSyncRecords, SyncDispatch.onSyncEnd,
    SyncDispatch.modify_session, SyncDispatch.ingestSyncRecords, SyncDispatch.sendRecordsChunked.
  apply contained_bind; [apply contained_gets |]. intros []; cbn [negb]; [|contained].
  apply contained_bind; [apply contained_reap |]. intros _.
  contained; apply contained_chunks; contained.
Qed.

Lemma contained_route now from tx r : contained (SwarmQuery.route now from tx r).
Proof.
  unfold SwarmQuery.route, SwarmQuery.lookupPending, SwarmQuery.registerPending.
  apply contained_bind; [apply contained_gets |]. intros [pq|]; [|contained].
  destruct (negb _); [contained |]. destruct (SwarmQuery.firstFrom from pq) as [pq' []]; contained.
Qed.
Lemma contained_endorsements key l : contained (note_endorsements key l).
Proof. induction l as [|e l IH]; cbn [note_endorsements]; cbv zeta; contained. Qed.
Local Hint Resolve contained_route contained_endorsements contained_sync contained_reject : contained.

Lemma contained_handleQuery now addr payload : contained (handleQuery now addr payload reply).
Proof.
  unfold handleQuery, caps. destruct (Ltepwire.DecodeQuery payload) as [q|e]; [|contained]. cbv zeta.
  contained; (apply contained_emit; by apply negb_false_iff).
Qed.
Lemma contained_announce addr pa : contained (handlePeerAnnounce addr pa).
Proof.
  intros p. unfold handlePeerAnnounce. destruct (peers p !! addr) as [ps|] eqn:Hl.
  - set (p1 := set_peers (<[addr := note_announce pa ps]> (peers p)) p).
    set (k := idx ← gets idxSink;
      en ← gets endSink;
      match gossip_key (Ltepwire.pa_Pk pa) with
      | None => skip
      | Some key =>
        (if (idx : bool) then emit (NotedIndexer key (str "gossip:" ++ addr)) else skip);;
        if negb en then skip else note_endorsements key (Ltepwire.pa_Endorsed pa)
      end).
    assert (Hk : contained k) by (unfold k; contained).
    destruct (Hk p1) as [Hd He]. unfold state_of, events_of in *. rewrite bind_M. cbn [gets]. rewrite Hl.
    rewrite bind_M. cbn [modify]. fold p1. fold k. destruct (k p1) as [[p2 es] []]. cbn [fst snd] in *.
    split; [|done]. rewrite Hd. unfold p1. cbn [peers set_peers]. apply dom_insert_lookup_L. by eexists.
  - unfold state_of, events_of. rewrite bind_M. cbn [gets]. rewrite Hl. by split.
Qed.
Local Hint Resolve contained_handleQuery contained_announce : contained.

Lemma contained_HandleMessage now addr payload : contained (HandleMessage now addr payload reply).
Proof. unfold HandleMessage, SwarmQuery.routeResult, SwarmQuery.routeReject. contained. Qed.
End containment.

(** ** What a query is answered *)
Section queries.
Context `{Ed25519}.
Context `{Bencode Ltepwire.Query, Bencode Ltepwire.Result, Bencode Ltepwire.Reject,
  Bencode Ltepwire.PeerAnnounce, Bencode Ltepwire.peekHeader, Bencode LtepSync.SyncBegin,
  Bencode LtepSync.SyncSymbols, Bencode LtepSync.SyncNeed, Bencode LtepSync.SyncRecords,
  Bencode LtepSync.SyncEnd}.

Definition our_sharing (p : Protocol) : LtepServices.Sharing := caps_Sharing (answer_of caps p).

(** [frame] answers the query with hits: every gate was open. *)
Definition served (now : Z) (addr payload : bytes) (p : Protocol) (frame : bytes) : Prop :=
  ∃ q search limit total hits,
    Ltepwire.DecodeQuery payload = Ok q ∧
    (Misbehavior.Allow now addr (limiter p)).2 = true ∧
    searcher p = Some search ∧ LtepServices.ShareLocal (our_sharing p) = 2 ∧
    unsupportedScope (Ltepwire.q_Scope q) (our_sharing p) = None ∧
    2 ≤ len (TrimSpace (Ltepwire.q_Q q)) ∧ 1 ≤ limit ≤ 100 ∧
    search (Ltepwire.q_Q q) limit = Some (total, hits) ∧
    Ltepwire.Marshal (Ltepwire.normResult {|
      Ltepwire.res_MsgType := 0; Ltepwire.res_TxID := Ltepwire.q_TxID q; Ltepwire.res_Total := total;
      Ltepwire.res_Partial := 0; Ltepwire.res_Hits := Some (hitsToWire hits (our_sharing p)) |}) = Ok frame.

(** [frame] rejects the query. *)
Definition refused (payload frame : bytes) : Prop :=
  ∃ q cd reason, Ltepwire.DecodeQuery payload = Ok q ∧
    Ltepwire.EncodeReject {| Ltepwire.rej_MsgType := 0; Ltepwire.rej_TxID := Ltepwire.q_TxID q;
      Ltepwire.rej_Code := cd; Ltepwire.rej_Reason := reason |} = Ok frame.

(** At most one reply, and nothing but the rate limiter and the bans moves. *)
Definition answered (now : Z) (addr payload : bytes) (reply : bool) (p : Protocol)
    (out : Protocol * list event * unit) : Prop :=
  (∃ l b, out.1.1 = set_ban b (set_limiter l p)) ∧
  (out.1.2 = [] ∨ reply = true ∧
     ∃ frame, out.1.2 = [Replied frame] ∧ (served now addr payload p frame ∨ refused payload frame)).

Lemma sendReject_answered now addr payload reply q cd reason p l b :
  Ltepwire.DecodeQuery payload = Ok q →
  answered now addr payload reply p
    (SyncDispatch.sendReject reply (Ltepwire.q_TxID q) cd reason (set_ban b (set_limiter l p))).
Proof.
  intros Hq. unfold SyncDispatch.sendReject. destruct reply; cbn [negb].
  - destruct (Ltepwire.EncodeReject _) as [frame|e] eqn:E.
    + split; [by exists l, b |]. right. split; [done |]. exists frame. split; [done |]. right.
      by exists q, cd, reason.
    + split; [by exists l, b | by left].
  - split; [by exists l, b | by left].
Qed.

Lemma handleQuery_answered now addr payload reply p :
  answered now addr payload reply p (handleQuery now addr payload reply p).
Proof.
  assert (Hid : ∀ l, set_limiter l p = set_ban (ban p) (set_limiter l p)) by done.
  assert (Hp : p = set_ban (ban p) (set_limiter (limiter p) p)) by (by destruct p).
  unfold handleQuery. destruct (Ltepwire.DecodeQuery payload) as [q|e] eqn:Hq.
  2: { split; [|by left]. unfold charge, modify. cbn [fst snd].
       exists (limiter p). eexists. rewrite Hp at 1. reflexivity. }
  cbv zeta. rewrite bind_M. unfold allow.
  destruct (Misbehavior.Allow now addr (limiter p)) as [l ok] eqn:Hal. destruct ok; cbn [negb].
  - rewrite bind_M. cbn [gets searcher set_limiter]. rewrite bind_M. unfold caps. cbn [gets].
    assert (Hc : default no_capabilities (capsFn (set_limiter l p)) = answer_of caps p) by done.
    rewrite Hc. fold (our_sharing p). clear Hc.
    assert (Hfin : ∀ out, answered now addr payload reply p out →
      answered now addr payload reply p
        (let '(p', es, a) := (let '(p', es, a) := out in (p', [] ++ es, a)) in (p', [] ++ es, a)))
      by (by intros [[? ?] ?]).
    assert (Hrej : ∀ cd reason, answered now addr payload reply p
      (SyncDispatch.sendReject reply (Ltepwire.q_TxID q) cd reason (set_limiter l p)))
      by (intros; rewrite Hid; by apply sendReject_answered).
    assert (Hout : ∀ out, answered now addr payload reply p out →
      answered now addr payload reply p (let '(p', es, a) := out in (p', [] ++ es, a)))
      by (by intros [[? ?] ?]).
    do 3 apply Hout.
    destruct (searcher p) as [search|] eqn:Hse; [|apply Hrej].
    destruct (Z.eqb_spec (LtepServices.ShareLocal (our_sharing p)) 2) as [Hsh|Hsh]; cbn [negb]; [|apply Hrej].
    destruct (unsupportedScope _ _) as [[cd reason]|] eqn:Hsc; [apply Hrej |].
    destruct (Z.ltb_spec (len (TrimSpace (Ltepwire.q_Q q))) 2) as [|Hlen].
    + rewrite bind_M. unfold charge, modify. apply Hout. by apply sendReject_answered.
    + set (limit := if _ || _ then 50 else _).
      destruct (search (Ltepwire.q_Q q) limit) as [[total hits]|] eqn:Hs; [|apply Hrej].
      destruct reply; cbn [negb]; [|split; [by exists l, (ban p) | by left]].
      unfold Ltepwire.EncodeResult. cbn [fst].
      destruct (Ltepwire.Marshal _) as [frame|e] eqn:Hm; [|split; [by exists l, (ban p) | by left]].
      split; [by exists l, (ban p) |]. right. split; [done |]. exists frame. split; [done |]. left.
      exists q, search, limit, total, hits. rewrite Hal. split_and!; try done.
      * unfold limit. destruct (Z.leb_spec (Ltepwire.q_Limit q) 0); [simpl; lia |].
        destruct (Z.ltb_spec 100 (Ltepwire.q_Limit q)); simpl; lia.
      * unfold limit. destruct (Z.leb_spec (Ltepwire.q_Limit q) 0); [simpl; lia |].
        destruct (Z.ltb_spec 100 (Ltepwire.q_Limit q)); simpl; lia.
  - rewrite bind_M. unfold charge, modify.
    assert (Hout : ∀ out, answered now addr payload reply p out →
      answered now addr payload reply p (let '(p', es, a) := out in (p', [] ++ es, a)))
      by (by intros [[? ?] ?]).
    do 2 apply Hout. by apply sendReject_answered.
Qed.

(** ** Frames that leave the sync sessions alone *)
Definition apart (p p' : Protocol) : Prop :=
  syncSessions p' = syncSessions p ∧ pumps p' = pumps p ∧ heap p' = heap p.

Lemma endorsements_state key l p : state_of (note_endorsements key l) p = p.
Proof.
  revert p. induction l as [|e l IH]; intros p; cbn [note_endorsements]; cbv zeta; [done |].
  destruct (negb _); [apply IH |]. destruct (_ || _); [apply IH |].
  rewrite SyncDispatch.state_of_bind. apply IH.
Qed.

Lemma announce_state addr pa p :
  state_of (handlePeerAnnounce addr pa) p =
    match peers p !! addr with
    | Some ps => set_peers (<[addr := note_announce pa ps]> (peers p)) p
    | None => p
    end.
Proof.
  unfold handlePeerAnnounce. rewrite SyncDispatch.state_of_bind. cbn [gets state_of answer_of fst snd].
  destruct (peers p !! addr) as [ps|]; [|done].
  rewrite SyncDispatch.state_of_bind. cbn [modify state_of fst].
  rewrite SyncDispatch.state_of_bind. cbn [gets state_of answer_of fst snd].
  rewrite SyncDispatch.state_of_bind. cbn [gets state_of answer_of fst snd].
  destruct (gossip_key _) as [key|]; [|done]. rewrite SyncDispatch.state_of_bind.
  match goal with |- state_of _ (state_of ?m ?q) = _ =>
    assert (Hq : state_of m q = q) by (by destruct (idxSink _)); rewrite Hq end.
  destruct (negb _); [done |]. apply endorsements_state.
Qed.

Lemma handle_apart a p : apart p (state_of (SwarmQuery.handle a) p).
Proof.
  rewrite SwarmQuery.handle_eq. destruct (SwarmQuery.a_malformed a); [done |].
  destruct (pending p !! _) as [pq|]; [|done]. destruct (bool_decide _); [|done].
  by destruct (SwarmQuery.firstFrom _ _).2.
Qed.

Lemma charge_apart now addr pts p : apart p (state_of (charge now addr pts) p).
Proof. done. Qed.

Lemma apart_step p p' : apart p p' → rtc SyncDispatch.step p p'.
Proof. intros (? & ? & ?). by apply rtc_once, SyncDispatch.step_other. Qed.

Lemma HandleMessage_eq now addr payload reply p :
  (Misbehavior.IsBanned now addr (ban p)).2 = false →
  HandleMessage now addr payload reply p =
    match Ltepwire.PeekMsgType payload with
    | Err _ => charge now addr Misbehavior.ScoreBadBencode
    | Ok mt =>
      if mt =? Ltepwire.MsgTypeQuery then handleQuery now addr payload reply
      else if mt =? Ltepwire.MsgTypeResult then
        match Ltepwire.DecodeResult payload with
        | Err _ => charge now addr Misbehavior.ScoreBadBencode
        | Ok r => SwarmQuery.handle (SwarmQuery.AResult now addr r)
        end
      else if mt =? Ltepwire.MsgTypeReject then
        match Ltepwire.DecodeReject payload with
        | Err _ => charge now addr Misbehavior.ScoreBadBencode
        | Ok rj => SwarmQuery.handle (SwarmQuery.AReject now addr rj)
        end
      else if mt =? Ltepwire.MsgTypePeerAnnounce then
        match Ltepwire.DecodePeerAnnounce payload with
        | Err _ => charge now addr Misbehavior.ScoreBadBencode
        | Ok pa => handlePeerAnnounce addr pa
        end
      else if is_sync mt then SyncDispatch.handleSyncFrame now addr payload reply
      else charge now addr Misbehavior.ScoreUnexpectedMessage
    end (set_ban (Misbehavior.IsBanned now addr (ban p)).1 p).
Proof.
  intros Hb. unfold HandleMessage. rewrite bind_M. unfold isBanned.
  destruct (Misbehavior.IsBanned now addr (ban p)) as [b r]. cbn [fst snd] in *. rewrite Hb.
  assert (Heta : ∀ x : Protocol * list event * unit, (let '(p', es, a) := x in (p', [] ++ es, a)) = x)
    by (by intros [[? ?] ?]).
  apply Heta.
Qed.

Lemma HandleMessage_steps now addr payload reply p :
  rtc SyncDispatch.step p (state_of (HandleMessage now addr payload reply) p).
Proof.
  destruct (Misbehavior.IsBanned now addr (ban p)).2 eqn:Hb.
  - apply apart_step. unfold HandleMessage, state_of. rewrite bind_M. unfold isBanned.
    destruct (Misbehavior.IsBanned now addr (ban p)) as [b r]. cbn [fst snd] in *. by rewrite Hb.
  - unfold state_of. rewrite HandleMessage_eq by done.
    set (p1 := set_ban (Misbehavior.IsBanned now addr (ban p)).1 p).
    eapply (rtc_l _ p p1); [by apply SyncDispatch.step_other |].
    destruct (Ltepwire.PeekMsgType payload) as [mt|e]; [|by apply apart_step].
    destruct (mt =? Ltepwire.MsgTypeQuery).
    { apply apart_step. destruct (handleQuery_answered now addr payload reply p1) as [(l & b & ->) _]. done. }
    destruct (mt =? Ltepwire.MsgTypeResult).
    { apply apart_step. destruct (Ltepwire.DecodeResult payload) as [r|e]; [|done].
      apply (handle_apart (SwarmQuery.AResult now addr r) p1). }
    destruct (mt =? Ltepwire.MsgTypeReject).
    { apply apart_step. destruct (Ltepwire.DecodeReject payload) as [r|e]; [|done].
      apply (handle_apart (SwarmQuery.AReject now addr r) p1). }
    destruct (mt =? Ltepwire.MsgTypePeerAnnounce).
    { apply apart_step. destruct (Ltepwire.DecodePeerAnnounce payload) as [pa|e]; [|done].
      pose proof (announce_state addr pa p1) as Ha. unfold state_of in Ha. rewrite Ha.
      by destruct (peers p1 !! addr). }
    destruct (is_sync mt); [|by apply apart_step].
    apply rtc_once. apply (SyncDispatch.step_frame now addr payload reply p1).
Qed.

(** [C17] What any inbound frame can do, whatever its bytes and sender.  It
    neither creates nor forgets a peer; it replies only through the closure of
    its own connection; the sync sessions move only by sync steps.  A banned
    sender is ignored.  A query gets at most one reply and moves only the rate
    limiter and the bans; the reply carries hits only when the limiter admits
    it, the node shares fully, the scope asks for nothing the node withholds and
    the text has two bytes after trimming, and then at most 100 hits are asked
    of the searcher; every other reply is a reject of the same transaction. *)
Theorem inbound_message now addr payload reply p :
  dom (peers (state_of (HandleMessage now addr payload reply) p)) = dom (peers p) ∧
  Forall (allowed_event reply) (events_of (HandleMessage now addr payload reply) p) ∧
  rtc SyncDispatch.step p (state_of (HandleMessage now addr payload reply) p) ∧
  let banned := Misbehavior.IsBanned now addr (ban p) in
  (banned.2 = true →
   events_of (HandleMessage now addr payload reply) p = [] ∧
   state_of (HandleMessage now addr payload reply) p = set_ban banned.1 p) ∧
  (banned.2 = false → Ltepwire.PeekMsgType payload = Ok Ltepwire.MsgTypeQuery →
   answered now addr payload reply (set_ban banned.1 p) (HandleMessage now addr payload reply p)).
Proof.
  destruct (contained_HandleMessage reply now addr payload p) as [Hd He].
  split; [exact Hd |]. split; [exact He |]. split; [apply HandleMessage_steps |]. cbv zeta. split.
  - intros Hb. unfold HandleMessage, state_of, events_of. rewrite bind_M. unfold isBanned.
    destruct (Misbehavior.IsBanned now addr (ban p)) as [b r]. cbn [fst snd] in *. by rewrite Hb.
  - intros Hb Hq. rewrite HandleMessage_eq by done. rewrite Hq. cbn [Z.eqb].
    apply handleQuery_answered.
Qed.
End queries.

(** ** Example: the withheld match still ranks *)
Definition sample_local (doc : bytes) (score : Z) : LocalHit := {|
  DocType := doc; InfoHash := Hex.EncodeToString (replicate 20 xab); Name := str "debian";
  SizeBytes := 9; AddedAt := 0; Seeders := 1; Leechers := 0; FileIndex := 3; FilePath := str "etc/passwd";
  Score := GoFloat.of_int score |}.
Definition no_content : LtepServices.Sharing := {|
  LtepServices.ShareLocal := 2; LtepServices.FileHits := false; LtepServices.ContentHits := false |}.

(** With content sharing off the match itself is withheld, but when it comes
    first the torrent is sent with the rank the content match earned. *)
Example withheld_rank_shows :
  (Ltepwire.Rank <$> hitsToWire [sample_local (str "content") 900; sample_local (str "torrent") 2] no_content)
    = [900000] ∧
  (Ltepwire.Rank <$> hitsToWire [sample_local (str "torrent") 2] no_content) = [2000] ∧
  hitsToWire [sample_local (str "content") 900] no_content = [].
Proof. split_and!; vm_compute; reflexivity. Qed.
End Handler.
