(* ===== verification/Manifest.v ===== *)
(** * The publisher's manifest (internal/dhtindex/manifest.go)

    The keywords a node publishes, each with its hits, oldest first.  BEP-44 has
    no incremental update, so the whole hit list of a keyword is published at
    once and must fit one item: the manifest evicts the oldest hits, and cuts the
    name of a last hit that does not fit alone.  The store is a JSON file. *)

From S2P Require Import Prelude GoInt Externals Instances Hex Utf8 Files DhtSchema.
Open Scope Z_scope.

Module Manifest.
Import DhtSchema.

(** ** The bytes of a keyword value

    [bencode.Marshal] writes the dictionary that the struct tags of
    [KeywordValue] and [KeywordHit] describe, keys in order, zero fields of an
    [omitempty] tag left out.  The bytes are part of the frozen contract; the size
    of an item is what eviction is about. *)
Definition enc_int (z : Z) : bytes := str "i" ++ format_decimal z ++ str "e".
Definition enc_str (s : bytes) : bytes := format_decimal (len s) ++ str ":" ++ s.
Definition enc_opt_int (key : bytes) (z : Z) : bytes := if z =? 0 then [] else key ++ enc_int z.
Definition enc_opt_str (key : bytes) (s : bytes) : bytes :=
  if len s =? 0 then [] else key ++ enc_str s.
Definition enc_hit (h : KeywordHit) : bytes :=
  str "d" ++ enc_opt_int (str "1:f") (F h) ++ (str "2:ih" ++ enc_str (IH h)) ++
  enc_opt_str (str "1:n") (N h) ++ enc_opt_int (str "1:s") (S_ h) ++
  enc_opt_int (str "2:sz") (Sz h) ++ str "e".
Definition enc_value (v : KeywordValue) : bytes :=
  str "d" ++ (str "4:hits" ++ str "l" ++ (default [] (Hits v) ≫= enc_hit) ++ str "e") ++
  enc_opt_int (str "4:more") (More v) ++ enc_opt_str (str "7:next_pk") (NextPubKey v) ++
  (str "2:ts" ++ enc_int (Ts v)) ++ str "e".

Class MarshalBytes `{Bencode KeywordValue} : Prop :=
  marshal_bytes v : wire_ok v → marshal v = Some (enc_value v).

(** ** Data *)
Record ManifestEntry := {
  e_Hits : list KeywordHit;
  LastPublished : option Z;   (** nanoseconds; [None] is the zero [time.Time] *)
  LastError : bytes;
  PublishCount : Z
}.
Record Manifest := { path : bytes; Entries : gmap bytes ManifestEntry }.

Inductive error : Type :=
  | ErrEmptyKeyword_ | ErrMkdir | ErrRead | ErrParse | ErrMarshal | ErrWrite | ErrRename.

Definition set_entry (m : Manifest) (keyword : bytes) (e : ManifestEntry) : Manifest :=
  {| path := path m; Entries := <[keyword := e]> (Entries m) |}.
Definition with_hits (e : ManifestEntry) (hits : list KeywordHit) : ManifestEntry := {|
  e_Hits := hits; LastPublished := LastPublished e; LastError := LastError e;
  PublishCount := PublishCount e
|}.
Definition with_N (h : KeywordHit) (n : bytes) : KeywordHit :=
  {| IH := IH h; N := n; S_ := S_ h; F := F h; Sz := Sz h |}.

(** [dhtschema.KeywordValue{Hits: hits}] *)
Definition value_of (hits : list KeywordHit) : KeywordValue :=
  {| Ts := 0; Hits := Some hits; More := 0; NextPubKey := [] |}.

(** ** JSON

    [json.MarshalIndent] of the entries (an error for a time it cannot write) and
    the decoding of a file, where an entry may be [null].  Text is made valid
    UTF-8 when it is written: every invalid byte becomes [RuneError]. *)
Definition sanitize (s : bytes) : bytes := Utf8.to_valid s.
Definition sanitize_hit (h : KeywordHit) : KeywordHit := with_N h (sanitize (N h)).
Definition sanitize_entry (e : ManifestEntry) : ManifestEntry := {|
  e_Hits := sanitize_hit <$> e_Hits e; LastPublished := LastPublished e;
  LastError := sanitize (LastError e); PublishCount := PublishCount e
|}.

Class ManifestJson := {
  json_encode : gmap bytes ManifestEntry → option bytes;
  json_decode : bytes → option (gmap bytes (option ManifestEntry))
}.
Class ManifestJsonLaws `{ManifestJson} : Prop :=
  json_decode_encode es b :
    map_Forall (λ k _, Utf8.valid k) es → json_encode es = Some b →
    json_decode b = Some (Some ∘ sanitize_entry <$> es).

Section manifest.
Context `{Bencode KeywordValue, ManifestJson}.

(** ** Persistence

    [mkdir] and [readable]: whether [os.MkdirAll] and [os.ReadFile] of a file
    that exists succeed. *)
Definition LoadOrCreateManifest (mkdir readable : bool) (p : bytes) (f : gmap bytes bytes)
    : result error Manifest :=
  if bool_decide (p = []) then Ok {| path := p; Entries := ∅ |}
  else
    check mkdir ! ErrMkdir;
    match f !! p with
    | None => Ok {| path := p; Entries := ∅ |}
    | Some raw =>
      check readable ! ErrRead;
      match json_decode raw with
      | None => Err ErrParse
      | Some es => Ok {| path := p; Entries := omap id es |}
      end
    end.

(** [os.WriteFile] leaves what it wrote when it fails; [os.Rename] that fails is
    followed by [os.Remove]. *)
Definition Save (o : Files.outcome) (m : Manifest) (f : gmap bytes bytes)
    : gmap bytes bytes * result error unit :=
  if bool_decide (path m = []) then (f, Ok tt)
  else match json_encode (Entries m) with
  | None => (f, Err ErrMarshal)
  | Some raw =>
    let tmp := path m ++ str ".tmp" in
    if negb (Files.o_create o) then (f, Err ErrWrite)
    else if negb (Files.o_write o && Files.o_close o) then
      (<[tmp := take (Files.o_written o) raw]> f, Err ErrWrite)
    else
      let f := <[tmp := raw]> f in
      if negb (Files.o_rename o) then (Files.remove o tmp f, Err ErrRename)
      else (<[path m := raw]> (delete tmp f), Ok tt)
  end.

(** ** Hits *)
Definition over_cap (now : Z) (hits : list KeywordHit) : bool :=
  MaxValueBytes <? EstimateValueSize now (value_of hits).

(** The loop that replaces the hit of the same infohash, or appends. *)
Fixpoint upsert (hits : list KeywordHit) (hit : KeywordHit) : list KeywordHit :=
  match hits with
  | [] => [hit]
  | h :: rest => if bool_decide (IH h = IH hit) then hit :: rest else h :: upsert rest hit
  end.

Fixpoint evict (now : Z) (hits : list KeywordHit) : list KeywordHit :=
  match hits with
  | _ :: ((_ :: _) as rest) => if over_cap now hits then evict now rest else hits
  | _ => hits
  end.

(** One round of the loop: the name loses a quarter. *)
Definition fit_step (now : Z) (h : KeywordHit) : option KeywordHit :=
  if (0 <? len (N h)) && over_cap now [h] then
    Some (with_N h (take (Z.to_nat (len (N h) * 3 / 4)) (N h)))
  else None.
(** Every round shortens the name. *)
Definition fitHitToCap (now : Z) (h : KeywordHit) : KeywordHit :=
  (iter_nat (S (length (N h))) (fit_step now) h).1.

Definition empty_entry : ManifestEntry :=
  {| e_Hits := []; LastPublished := None; LastError := []; PublishCount := 0 |}.

(** [if len(entry.Hits) == 1 { entry.Hits[0] = fitHitToCap(entry.Hits[0]) }] *)
Definition fit_single (now : Z) (hits : list KeywordHit) : list KeywordHit :=
  match hits with [h] => [fitHitToCap now h] | _ => hits end.

Definition AddHit (now : Z) (m : Manifest) (keyword : bytes) (hit : KeywordHit)
    : result error (Manifest * Z) :=
  check (negb (bool_decide (keyword = []))) ! ErrEmptyKeyword_;
  let entry := default empty_entry (Entries m !! keyword) in
  let hits := fit_single now (evict now (upsert (e_Hits entry) hit)) in
  Ok (set_entry m keyword (with_hits entry hits), len hits).

Definition without (ih : bytes) (e : ManifestEntry) : list KeywordHit :=
  filter (λ h, IH h ≠ ih) (e_Hits e).

(** A map is edited entry by entry, in any order. *)
Definition RemoveAllHits (m : Manifest) (ih : bytes) : Manifest * Z :=
  if len ih =? 0 then (m, 0)
  else
    ({| path := path m;
        Entries := omap (λ e, match without ih e with [] => None | out => Some (with_hits e out) end)
                        (Entries m) |},
     Z.of_nat (size (filter (λ ke, ih ∈ (IH <$> e_Hits ke.2)) (Entries m)))).

Definition Snapshot (m : Manifest) : gmap bytes ManifestEntry := Entries m.

Definition MarkPublished (m : Manifest) (keyword : bytes) (when : Z) : Manifest :=
  match Entries m !! keyword with
  | Some e => set_entry m keyword {| e_Hits := e_Hits e; LastPublished := Some when;
      LastError := []; PublishCount := i64 (PublishCount e + 1) |}
  | None => m
  end.

Definition MarkFailed (m : Manifest) (keyword : bytes) (err : option bytes) : Manifest :=
  match Entries m !! keyword, err with
  | Some e, Some err => set_entry m keyword {| e_Hits := e_Hits e;
      LastPublished := LastPublished e; LastError := err; PublishCount := PublishCount e |}
  | _, _ => m
  end.

Definition Keywords (m : Manifest) : list bytes := merge_sort bytes_le (map_to_list (Entries m)).*1.
End manifest.

(** ** Sizes *)

(** The golden vectors of the contract. *)
Example golden_empty :
  enc_value {| Ts := 1700000000; Hits := Some []; More := 0; NextPubKey := [] |}
  = str "d4:hitsle2:tsi1700000000ee".
Proof. reflexivity. Qed.
Definition golden_hits : list KeywordHit := [
  {| IH := z2b <$> seqZ 1 20; N := str "ubuntu 24.04 desktop amd64"; S_ := 128; F := 1;
     Sz := 6442450944 |};
  {| IH := (λ z, z2b (255 - z)) <$> seqZ 0 20; N := []; S_ := 0; F := 0; Sz := 0 |} ].
Example golden_full :
  Hex.EncodeToString (enc_value {| Ts := 1700000000; Hits := Some golden_hits; More := 0;
                                   NextPubKey := [] |})
  = str "64343a686974736c64313a66693165323a696832303a0102030405060708090a0b0c0d0e0f1011121314313a6e32363a7562756e74752032342e3034206465736b746f7020616d643634313a736931323865323a737a6936343432343530393434656564323a696832303afffefdfcfbfaf9f8f7f6f5f4f3f2f1f0efeeedec6565323a747369313730303030303030306565".
Proof. vm_compute. reflexivity. Qed.

(** Clock readings of ten digits: from 2001 to 2286. *)
Definition era (now : Z) : Prop := 10 ^ 9 ≤ now < 10 ^ 10.

Lemma len_decimal_go fuel n acc : len (decimal_go fuel n acc) ≤ Z.of_nat fuel + len acc.
Proof.
  revert n acc. induction fuel as [|fuel IH]; intros n acc; [simpl; lia |].
  cbn [decimal_go]. cbv zeta. destruct (_ =? 0).
  - rewrite len_cons. pose proof (len_nonneg acc). lia.
  - etrans; [apply IH |]. rewrite len_cons. lia.
Qed.
Lemma len_format_decimal n : len (format_decimal n) ≤ 21.
Proof.
  unfold format_decimal. destruct (n <? 0).
  - rewrite len_app. pose proof (len_decimal_go 20 (- n) []). rewrite len_nil in *. change (len (str "-")) with 1. lia.
  - pose proof (len_decimal_go 20 n []). rewrite len_nil in *. lia.
Qed.

(** A number of [k + 1] digits. *)
Lemma len_decimal_digits k fuel n acc :
  (k < fuel)%nat → 10 ^ Z.of_nat k ≤ n < 10 ^ Z.of_nat (S k) →
  len (decimal_go fuel n acc) = Z.of_nat (S k) + len acc.
Proof.
  revert fuel n acc. induction k as [|k IH]; intros [|fuel] n acc Hf Hn; try lia;
    cbn [decimal_go]; cbv zeta.
  - simpl in Hn. rewrite Z.div_small by lia. simpl. rewrite len_cons. lia.
  - pose proof (Z.pow_pos_nonneg 10 (Z.of_nat k)) as Hp.
    assert (H1 : 10 ^ Z.of_nat (S k) = 10 * 10 ^ Z.of_nat k)
      by (rewrite Nat2Z.inj_succ; apply Z.pow_succ_r; lia).
    rewrite (Nat2Z.inj_succ (S k)), Z.pow_succ_r in Hn by lia.
    assert (Hd : 10 ^ Z.of_nat k ≤ n / 10 < 10 ^ Z.of_nat (S k)).
    { split; [apply Z.div_le_lower_bound | apply Z.div_lt_upper_bound]; lia. }
    destruct (Z.eqb_spec (n / 10) 0) as [E|_].
    { rewrite E in Hd. lia. }
    rewrite IH by (lia || done). rewrite len_cons. lia.
Qed.
Lemma len_enc_era now : era now → len (enc_int now) = 12.
Proof.
  intros Hn. unfold enc_int, format_decimal. rewrite !len_app. unfold era in Hn.
  destruct (Z.ltb_spec now 0); [lia |].
  rewrite (len_decimal_digits 9) by (lia || done). done.
Qed.

(** ** What fits *)
Definition size_hits (hits : list KeywordHit) : Z := len (hits ≫= enc_hit).
(** An item spends 26 bytes around its hits. *)
Definition fits (hits : list KeywordHit) : Prop := size_hits hits + 26 ≤ MaxValueBytes.
#[export] Instance fits_dec hits : Decision (fits hits).
Proof. unfold fits. apply _. Defined.
Definition wf_hit (h : KeywordHit) : Prop := len (IH h) = 20 ∧ hit_ok h.

Lemma len_value_of now hits :
  era now → len (enc_value (with_Ts (value_of hits) now)) = size_hits hits + 26.
Proof.
  intros Hn. unfold enc_value, size_hits. cbn [Hits More NextPubKey Ts value_of with_Ts default from_option id].
  change (enc_opt_int _ 0) with (@nil byte). change (enc_opt_str _ []) with (@nil byte).
  rewrite !len_app, (len_enc_era now Hn), len_nil.
  change (len (str "4:hits")) with 6. change (len (str "2:ts")) with 4.
  change (len (str "d")) with 1. change (len (str "l")) with 1. change (len (str "e")) with 1. lia.
Qed.

Lemma value_of_ok now hits :
  era now → Forall hit_ok hits → wire_ok (with_Ts (value_of hits) now).
Proof.
  intros Hn Hh. unfold era in Hn. unfold wire_ok, value_wire, is_i64. simpl.
  split; [lia |]. split; [lia |]. split; [by eexists | done].
Qed.

Lemma stamp_value_of now hits : stamp_ts now (value_of hits) = with_Ts (value_of hits) now.
Proof. done. Qed.

Section sizes.
Context {B : Bencode KeywordValue} {M : MarshalBytes}.

Lemma over_cap_fits now hits :
  era now → Forall hit_ok hits → over_cap now hits = bool_decide (¬ fits hits).
Proof.
  intros Hn Hh. unfold over_cap, EstimateValueSize. rewrite stamp_value_of.
  rewrite marshal_bytes by by apply value_of_ok. rewrite len_value_of by done. unfold fits.
  destruct (Z.ltb_spec MaxValueBytes (size_hits hits + 26)); symmetry;
    [apply bool_decide_eq_true | apply bool_decide_eq_false]; lia.
Qed.

(** A hit list that fits can be published, at any time. *)
Lemma encode_fits now hits :
  era now → Forall hit_ok hits → fits hits ↔ ∃ b, EncodeValue now (value_of hits) = Ok b.
Proof.
  intros Hn Hh. unfold EncodeValue, Marshal. rewrite stamp_value_of, non_nil_some by by eexists.
  rewrite marshal_bytes by by apply value_of_ok. simpl. rewrite len_value_of by done. unfold fits.
  destruct (Z.ltb_spec MaxValueBytes (size_hits hits + 26)); simpl; split; intros Hx; try lia; try done.
  - by destruct Hx.
  - by eexists.
Qed.

(** ** Eviction *)
Lemma evict_spec now hits :
  era now → Forall hit_ok hits →
  ∃ k, evict now hits = drop k hits ∧ (hits ≠ [] → (k < length hits)%nat) ∧
       (fits (drop k hits) ∨ length (drop k hits) ≤ 1)%nat ∧
       ∀ j, (j < k)%nat → ¬ fits (drop j hits).
Proof.
  intros Hn Hh. induction Hh as [|h hits Hh Hs IH].
  { exists 0%nat. split; [done |]. split; [done |]. split; [right; simpl; lia | lia]. }
  destruct hits as [|h2 hits].
  { exists 0%nat. split; [done |]. split; [simpl; lia |]. split; [right; simpl; lia | lia]. }
  destruct IH as (k & He & Hk & Hf & Hl). specialize (Hk ltac:(done)).
  cbn [evict]. fold (evict now (h2 :: hits)).
  rewrite over_cap_fits by (done || by constructor). case_bool_decide as Hc.
  - exists (S k). split; [done |]. split; [simpl in *; lia |]. split; [done |].
    intros [|j] Hj; [done |]. apply Hl. lia.
  - exists 0%nat. split; [done |]. split; [simpl; lia |]. split; [left; exact Hc | lia].
Qed.

Lemma len_enc_opt_int key z : len (enc_opt_int key z) ≤ len key + 23.
Proof.
  unfold enc_opt_int, enc_int. pose proof (len_nonneg key).
  destruct (_ =? 0); rewrite ?len_app, ?len_nil; [lia |]. pose proof (len_format_decimal z).
  change (len (str _)) with 1. change (len (str "e")) with 1. lia.
Qed.

Lemma enc_hit_small h : len (IH h) = 20 → fits [with_N h []].
Proof.
  intros Hih. unfold fits, size_hits, MaxValueBytes. cbn [mbind list_bind]. rewrite app_nil_r.
  unfold enc_hit. cbn [with_N IH N S_ F Sz]. rewrite !len_app.
  pose proof (len_enc_opt_int (str "1:f") (F h)). pose proof (len_enc_opt_int (str "1:s") (S_ h)).
  pose proof (len_enc_opt_int (str "2:sz") (Sz h)). unfold enc_str. rewrite !len_app, Hih.
  pose proof (len_format_decimal 20). change (len (enc_opt_str _ [])) with 0.
  change (len (str "1:f")) with 3 in *. change (len (str "1:s")) with 3 in *.
  change (len (str "2:sz")) with 4 in *. change (len (str "2:ih")) with 4.
  change (len (str "d")) with 1. change (len (str "e")) with 1. change (len (str ":")) with 1. lia.
Qed.

(** ** Cutting a name *)
Lemma fit_spec now h :
  era now → wf_hit h →
  fits [fitHitToCap now h] ∧ (∃ n, fitHitToCap now h = with_N h n ∧ n `prefix_of` N h) ∧
  (fits [h] → fitHitToCap now h = h).
Proof.
  intros Hn [Hih Hok].
  set (I x := ∃ n, x = with_N h n ∧ n `prefix_of` N h).
  assert (HI : I h) by (exists (N h); by destruct h).
  assert (Hdec : ∀ x y, I x → fit_step now x = Some y → I y ∧ (length (N y) < length (N x))%nat).
  { intros x y (n & -> & Hp) Hs. unfold fit_step in Hs. simpl in Hs.
    destruct (Z.ltb_spec 0 (len n)) as [Hl|]; [|done]. destruct (over_cap _ _); [|done].
    injection Hs as <-. set (q := Z.to_nat (len n * 3 / 4)).
    assert (Hq : (q < length n)%nat).
    { subst q. unfold len in *. apply Nat2Z.inj_lt. rewrite Z2Nat.id by (apply Z.div_pos; lia).
      apply Z.div_lt_upper_bound; lia. }
    split; [|simpl; rewrite length_take; lia].
    exists (take q n). split; [done |]. etrans; [apply prefix_take | done]. }
  assert (Hres : I (fitHitToCap now h)).
  { unfold fitHitToCap. apply (iter_nat_inv (fit_step now) I); [done |]. intros x y Hx Hy. by apply (Hdec x y). }
  assert (Hex : fit_step now (fitHitToCap now h) = None).
  { unfold fitHitToCap. apply iter_nat_exit. apply (iter_nat_terminates _ I (λ x, length (N x))); [done | done |]. lia. }
  split; [|split; [done |]].
  - destruct Hres as (n & E & _). rewrite E in Hex |- *. unfold fit_step in Hex. simpl in Hex.
    destruct (Z.ltb_spec 0 (len n)) as [|Hl].
    + rewrite over_cap_fits in Hex by (done || by constructor).
      case_bool_decide as Hc; [done |]. exact Hc.
    + assert (n = []) as -> by (apply length_zero_iff_nil; unfold len in Hl; lia).
      by apply enc_hit_small.
  - intros Hf. unfold fitHitToCap. cbn [iter_nat]. unfold fit_step at 1.
    rewrite over_cap_fits by (done || by constructor). rewrite bool_decide_eq_false_2 by tauto.
    by rewrite andb_false_r.
Qed.
End sizes.

(** ** Replacing a hit *)
Lemma upsert_keys hits hit : IH <$> upsert hits hit = add_new (IH <$> hits) (IH hit).
Proof.
  unfold add_new. induction hits as [|h hits Hi]; [done |]. cbn [upsert].
  destruct (decide (IH h = IH hit)) as [Hh|Hh].
  - rewrite (bool_decide_eq_true_2 _ Hh), !fmap_cons, bool_decide_eq_true_2; [by rewrite Hh |].
    rewrite Hh. constructor.
  - rewrite (bool_decide_eq_false_2 _ Hh), !fmap_cons, Hi.
    destruct (decide (IH hit ∈ IH <$> hits)) as [Hin|Hn].
    + rewrite !bool_decide_eq_true_2; [done | by constructor | done].
    + rewrite !bool_decide_eq_false_2; [done | | done].
      rewrite elem_of_cons. intros [?|?]; congruence.
Qed.

Lemma upsert_elem hits hit h :
  NoDup (IH <$> hits) → h ∈ upsert hits hit ↔ h = hit ∨ (h ∈ hits ∧ IH h ≠ IH hit).
Proof.
  induction hits as [|h0 hits Hi]; intros Hnd.
  { cbn [upsert]. rewrite list_elem_of_singleton. split; [tauto |].
    intros [?|[?%not_elem_of_nil _]]; done. }
  rewrite fmap_cons in Hnd. apply NoDup_cons in Hnd as [Hn0 Hnd]. cbn [upsert].
  case_bool_decide as Hh; rewrite !elem_of_cons.
  - split; [intros [->|Hin]; [by left |] | intros [->|[[->|?] ?]]; [by left | done | by right]].
    right. split; [by right |]. intros E. apply Hn0. rewrite Hh, <-E. by apply list_elem_of_fmap_2.
  - rewrite Hi by done. split; [intros [->|[->|[? ?]]]; auto |].
    intros [->|[[->|?] ?]]; auto.
Qed.

Lemma upsert_Forall (P : KeywordHit → Prop) hits hit :
  Forall P hits → P hit → Forall P (upsert hits hit).
Proof.
  intros Hf Hp. induction Hf as [|h hits Hh Hf Hi]; cbn [upsert]; [by constructor |].
  case_bool_decide; by constructor.
Qed.

Lemma upsert_ne hits hit : upsert hits hit ≠ [].
Proof. destruct hits; cbn [upsert]; [done | by case_bool_decide]. Qed.

Lemma upsert_new hits hit : IH hit ∉ IH <$> hits → upsert hits hit = hits ++ [hit].
Proof.
  induction hits as [|h hits Hi]; [done |]. rewrite fmap_cons, not_elem_of_cons.
  intros [Hh Hn]. cbn [upsert]. rewrite bool_decide_eq_false_2 by congruence. by rewrite Hi.
Qed.

(** ** Well-formed manifests

    Every keyword has hits, of distinct infohashes, that fit one item. *)
Definition hits_ok (hits : list KeywordHit) : Prop :=
  hits ≠ [] ∧ NoDup (IH <$> hits) ∧ Forall wf_hit hits ∧ fits hits.
Definition wf (m : Manifest) : Prop :=
  map_Forall (λ k e, k ≠ [] ∧ hits_ok (e_Hits e)) (Entries m).

Lemma wf_lookup m k e : wf m → Entries m !! k = Some e → hits_ok (e_Hits e).
Proof. intros Hm Hk. by apply (Hm k e Hk). Qed.

Lemma wf_set m k e : wf m → k ≠ [] → hits_ok (e_Hits e) → wf (set_entry m k e).
Proof. intros Hm Hk He. by apply map_Forall_insert_2. Qed.

Lemma hits_ok_wire hits : Forall wf_hit hits → Forall hit_ok hits.
Proof. intros Hw. eapply Forall_impl; [exact Hw |]. by intros h [_ ?]. Qed.

(** The size of a part is at most the size of the whole. *)
Lemma size_hits_filter (P : KeywordHit → Prop) `{∀ h, Decision (P h)} hits :
  size_hits (filter P hits) ≤ size_hits hits.
Proof.
  unfold size_hits. induction hits as [|h hits Hi]; [done |].
  rewrite filter_cons. case_decide; cbn [mbind list_bind]; rewrite !len_app.
  - lia.
  - pose proof (len_nonneg (enc_hit h)). lia.
Qed.

Section operations.
Context {B : Bencode KeywordValue} {M : MarshalBytes}.

(** What is left of a list: a suffix that fits, or the last hit, its name cut. *)
Lemma fit_evict_spec now hits :
  era now → hits ≠ [] → Forall wf_hit hits →
  ∃ k kept, drop k hits = kept ∧ (k < length hits)%nat ∧
    (∀ j, (j < k)%nat → ¬ fits (drop j hits)) ∧
    ((fits kept ∧ fit_single now (evict now hits) = kept) ∨
     (∃ h n, kept = [h] ∧ ¬ fits [h] ∧ n `prefix_of` N h ∧ fits [with_N h n] ∧
             fit_single now (evict now hits) = [with_N h n])).
Proof.
  intros Hn Hne Hw. destruct (evict_spec now hits) as (k & He & Hk & Hf & Hl);
    [done | by apply hits_ok_wire |]. specialize (Hk Hne).
  exists k, (drop k hits). split; [done |]. split; [done |]. split; [done |]. rewrite He.
  destruct (decide (fits (drop k hits))) as [Hfit|Hnf].
  - left. split; [done |]. unfold fit_single. destruct (drop k hits) as [|h [|]] eqn:E; [done | |done].
    f_equal. apply fit_spec; [done | | done].
    assert (Hd : Forall wf_hit (drop k hits)) by by apply Forall_drop. rewrite E in Hd. by inversion Hd.
  - right. destruct Hf as [|Hlen]; [done |].
    assert (length (drop k hits) ≠ 0)%nat by (rewrite length_drop; lia).
    destruct (drop k hits) as [|h [|]] eqn:E; [done | | simpl in Hlen; lia].
    assert (Hd : Forall wf_hit (drop k hits)) by by apply Forall_drop. rewrite E in Hd.
    apply Forall_cons in Hd as [Hh _].
    destruct (fit_spec now h Hn Hh) as (Hfit & (n & Hn' & Hp) & _).
    exists h, n. rewrite <-Hn'. split; [done |]. split; [done |]. split; [done |]. by split.
Qed.

Lemma fit_evict_ok now hits :
  era now → hits ≠ [] → NoDup (IH <$> hits) → Forall wf_hit hits →
  hits_ok (fit_single now (evict now hits)).
Proof.
  intros Hn Hne Hnd Hw.
  destruct (fit_evict_spec now hits) as (k & kept & Hd & Hk & _ & Hc); [done.. |].
  assert (Hkw : Forall wf_hit kept) by (rewrite <-Hd; by apply Forall_drop).
  destruct Hc as [[Hf ->] | (h & n & -> & _ & _ & Hf & ->)].
  - split; [|split; [|done]].
    + rewrite <-Hd. intros E%(f_equal length). rewrite length_drop in E. simpl in E. lia.
    + rewrite <-Hd, fmap_drop. apply (sublist_NoDup _ (IH <$> hits)); [done | apply sublist_drop].
  - split; [done |]. split; [by apply NoDup_singleton |]. split; [|done].
    apply Forall_cons in Hkw as [Hh _]. by constructor.
Qed.

Definition entry_of (m : Manifest) (k : bytes) : list KeywordHit :=
  e_Hits (default empty_entry (Entries m !! k)).

Lemma entry_of_ok m k : wf m → NoDup (IH <$> entry_of m k) ∧ Forall wf_hit (entry_of m k).
Proof.
  intros Hm. unfold entry_of. destruct (Entries m !! k) as [e|] eqn:E; simpl.
  - destruct (wf_lookup m k e Hm E) as (_ & ? & ? & _). done.
  - split; constructor.
Qed.

Lemma upsert_entry_ok m k hit :
  wf m → wf_hit hit → let all := upsert (entry_of m k) hit in
  all ≠ [] ∧ NoDup (IH <$> all) ∧ Forall wf_hit all.
Proof.
  intros Hm Hh. destruct (entry_of_ok m k Hm) as [Hnd Hw]. split; [apply upsert_ne |].
  split; [|by apply upsert_Forall]. rewrite upsert_keys. unfold add_new. case_bool_decide; [done |].
  apply NoDup_app. split; [done |]. split; [|apply NoDup_singleton].
  intros x Hx ->%list_elem_of_singleton. done.
Qed.

Lemma AddHit_wf now m k hit m' n :
  era now → wf m → wf_hit hit → AddHit now m k hit = Ok (m', n) → wf m'.
Proof.
  intros Hn Hm Hh. unfold AddHit. case_bool_decide as Hk; [done |]. intros Ha.
  apply Ok_inj in Ha. injection Ha as <- _. apply wf_set; [done | done |].
  destruct (upsert_entry_ok m k hit Hm Hh) as (? & ? & ?). by apply fit_evict_ok.
Qed.

Lemma RemoveAllHits_wf m ih : wf m → wf (RemoveAllHits m ih).1.
Proof.
  intros Hm. unfold RemoveAllHits. destruct (_ =? 0); [done |]. intros k e Hk. cbn [fst Entries] in Hk.
  apply lookup_omap_Some in Hk as (e0 & Hw & Hk). destruct (Hm k e0 Hk) as (Hkne & Hne & Hnd & Hf & Hfit).
  split; [done |]. destruct (without ih e0) as [|h out] eqn:E; [done |]. injection Hw as <-.
  cbn [e_Hits with_hits]. rewrite <-E. unfold without. split; [unfold without in E; by rewrite E |].
  split; [|split].
  - eapply sublist_NoDup; [exact Hnd |]. apply fmap_sublist, sublist_filter.
  - apply Forall_forall. intros x [_ Hin]%list_elem_of_filter. by eapply Forall_forall in Hf.
  - unfold fits in *. pose proof (size_hits_filter (λ h, IH h ≠ ih) (e_Hits e0)). lia.
Qed.

Lemma MarkPublished_wf m k t : wf m → wf (MarkPublished m k t).
Proof.
  intros Hm. unfold MarkPublished. destruct (Entries m !! k) as [e|] eqn:E; [|done].
  destruct (Hm k e E) as [Hk He]. by apply wf_set.
Qed.
Lemma MarkFailed_wf m k err : wf m → wf (MarkFailed m k err).
Proof.
  intros Hm. unfold MarkFailed. destruct (Entries m !! k) as [e|] eqn:E; [|done].
  destruct err; [|done]. destruct (Hm k e E) as [Hk He]. by apply wf_set.
Qed.
End operations.

(** ** Histories *)
Inductive op : Type :=
  | OpAdd (now : Z) (keyword : bytes) (hit : KeywordHit)
  | OpRemove (ih : bytes)
  | OpPublished (keyword : bytes) (when : Z)
  | OpFailed (keyword : bytes) (err : option bytes).
Definition op_ok (o : op) : Prop :=
  match o with OpAdd now _ hit => era now ∧ wf_hit hit | _ => True end.
Definition new_manifest (p : bytes) : Manifest := {| path := p; Entries := ∅ |}.

Section histories.
Context {B : Bencode KeywordValue}.

Definition run (m : Manifest) (o : op) : Manifest :=
  match o with
  | OpAdd now k hit => match AddHit now m k hit with Ok (m', _) => m' | Err _ => m end
  | OpRemove ih => (RemoveAllHits m ih).1
  | OpPublished k t => MarkPublished m k t
  | OpFailed k err => MarkFailed m k err
  end.

Lemma edit_wf {M : MarshalBytes} m o : op_ok o → wf m → wf (run m o).
Proof.
  intros Ho Hm. destruct o as [now k hit|ih|k t|k err]; cbn [run].
  - destruct Ho as [Hn Hh]. destruct (AddHit now m k hit) as [[m' n]|] eqn:E; [|done].
    by apply (AddHit_wf now m k hit m' n).
  - by apply RemoveAllHits_wf.
  - by apply MarkPublished_wf.
  - by apply MarkFailed_wf.
Qed.

Lemma edits_wf {M : MarshalBytes} ops m : Forall op_ok ops → wf m → wf (foldl run m ops).
Proof.
  intros Ho. revert m. induction Ho as [|o ops Ho _ Hi]; intros m Hm; [done |]. simpl.
  by apply Hi, edit_wf.
Qed.
End histories.


(** ** Editing *)

(** [h] is among the hits of keyword [k]. *)
Definition listed (m : Manifest) (k : bytes) (h : KeywordHit) : Prop :=
  ∃ e, Entries m !! k = Some e ∧ h ∈ e_Hits e.

Lemma RemoveAllHits_listed m ih k h :
  len ih ≠ 0 → listed (RemoveAllHits m ih).1 k h ↔ listed m k h ∧ IH h ≠ ih.
Proof.
  intros Hl. unfold RemoveAllHits. destruct (Z.eqb_spec (len ih) 0); [done |].
  unfold listed. cbn [fst Entries]. split.
  - intros (e & Hk & Hh). apply lookup_omap_Some in Hk as (e0 & Hw & Hk).
    destruct (without ih e0) eqn:E; [done |]. injection Hw as <-. rewrite <-E in Hh.
    apply list_elem_of_filter in Hh as [? ?]. split; [by exists e0 | done].
  - intros [(e & Hk & Hh) Hne].
    assert (Hin : h ∈ without ih e) by by apply list_elem_of_filter.
    destruct (without ih e) as [|h0 out] eqn:E; [by apply elem_of_nil in Hin |].
    exists (with_hits e (h0 :: out)). split; [|done].
    apply lookup_omap_Some. exists e. by rewrite E.
Qed.

Lemma RemoveAllHits_nonempty m ih k e :
  wf m → Entries (RemoveAllHits m ih).1 !! k = Some e → e_Hits e ≠ [].
Proof.
  intros Hm Hk. by destruct (wf_lookup _ k e (RemoveAllHits_wf m ih Hm) Hk).
Qed.

Lemma drop_snoc_lt {A} (l : list A) x i : (i < length (l ++ [x]))%nat → drop i (l ++ [x]) = drop i l ++ [x].
Proof. intros Hi. rewrite length_app in Hi. simpl in Hi. apply drop_app_le. lia. Qed.

(** A hit whose infohash is new is kept, last, its name perhaps cut. *)
Lemma new_hit_kept {B : Bencode KeywordValue} {M : MarshalBytes} now old hit :
  era now → Forall wf_hit old → wf_hit hit → IH hit ∉ IH <$> old →
  ∃ older n, fit_single now (evict now (upsert old hit)) = older ++ [with_N hit n] ∧ n `prefix_of` N hit.
Proof.
  intros Hn Ho Hh Hnew.
  destruct (fit_evict_spec now (upsert old hit)) as (i & d & Hd & Hi & _ & Hc);
    [done | apply upsert_ne | by apply upsert_Forall |].
  rewrite upsert_new in * by done. rewrite drop_snoc_lt in Hd by done.
  destruct Hc as [[_ ->] | (h & n & -> & _ & Hp & _ & ->)].
  - exists (drop i old), (N hit). rewrite <-Hd. by destruct hit.
  - exists [], n. apply (app_inj_tail (drop i old) []) in Hd as [_ ->]. done.
Qed.

(** What the two editing operations do.  Adding a hit replaces the hit of the
    same infohash, or appends; then the oldest hits go, as few as it takes for
    the rest to fit, and a last hit that does not fit alone loses the end of its
    name.  A hit whose infohash is new under the keyword is always kept, last,
    its name a prefix of what was given.  Other keywords are untouched, and the
    keyword's publication state is kept.  Removing an infohash removes exactly its
    hits, leaves no empty keyword and counts the keywords it was under. *)
Lemma manifest_edits {B : Bencode KeywordValue} {M : MarshalBytes} (m : Manifest) (Hm : wf m) :
  (∀ now k hit, era now → k ≠ [] → wf_hit hit →
     let old := entry_of m k in let all := upsert old hit in
     ∃ kept i,
       AddHit now m k hit =
         Ok (set_entry m k (with_hits (default empty_entry (Entries m !! k)) kept), len kept) ∧
       (∀ h, h ∈ all ↔ h = hit ∨ (h ∈ old ∧ IH h ≠ IH hit)) ∧
       (i < length all)%nat ∧ (∀ j, (j < i)%nat → ¬ fits (drop j all)) ∧
       (fits (drop i all) ∧ kept = drop i all ∨
        ∃ h n, drop i all = [h] ∧ ¬ fits [h] ∧ n `prefix_of` N h ∧ kept = [with_N h n] ∧ fits kept) ∧
       (IH hit ∉ IH <$> old → ∃ older n, kept = older ++ [with_N hit n] ∧ n `prefix_of` N hit)) ∧
  (∀ now hit, AddHit now m [] hit = Err ErrEmptyKeyword_) ∧
  (∀ ih, len ih ≠ 0 →
     let '(m', n) := RemoveAllHits m ih in
     (∀ k h, listed m' k h ↔ listed m k h ∧ IH h ≠ ih) ∧
     (∀ k e, Entries m' !! k = Some e → e_Hits e ≠ []) ∧
     n = Z.of_nat (size (filter (λ ke, ih ∈ (IH <$> e_Hits ke.2)) (Entries m)))).
Proof.
  split; [|split; [done |]].
  - intros now k hit Hn Hk Hh old all. destruct (upsert_entry_ok m k hit Hm Hh) as (Hne & Hnd & Hw).
    fold old in Hne, Hnd, Hw. fold all in Hne, Hnd, Hw.
    destruct (fit_evict_spec now all Hn Hne Hw) as (i & d & Hd & Hi & Hleast & Hc).
    exists (fit_single now (evict now all)), i.
    split; [by unfold AddHit; rewrite bool_decide_eq_false_2 |].
    split; [intros h; apply upsert_elem, entry_of_ok, Hm |]. split; [done |]. split; [done |].
    rewrite Hd. split.
    + destruct Hc as [[Hf ->] | (h & n & -> & Hf & Hp & Hfn & ->)]; [by left |].
      right. exists h, n. done.
    + intros Hnew. destruct (entry_of_ok m k Hm) as [_ Ho]. by apply new_hit_kept.
  - intros ih Hl. destruct (RemoveAllHits m ih) as [m' n] eqn:E.
    split; [intros k h; replace m' with (RemoveAllHits m ih).1 by by rewrite E |].
    { by apply RemoveAllHits_listed. }
    split.
    + intros k e Hk. apply (RemoveAllHits_nonempty m ih k); [done | by rewrite E].
    + unfold RemoveAllHits in E. destruct (Z.eqb_spec (len ih) 0); [done |]. by injection E as _ <-.
Qed.

(** ** Saving and loading *)

(** The texts of an entry are valid UTF-8. *)
Definition entry_text (e : ManifestEntry) : Prop :=
  Utf8.valid (LastError e) ∧ Forall (λ h, Utf8.valid (N h)) (e_Hits e).

Lemma sanitize_entry_id e : entry_text e → sanitize_entry e = e.
Proof.
  intros [He Hh]. unfold sanitize_entry, sanitize. rewrite Utf8.to_valid_id by done.
  replace (sanitize_hit <$> e_Hits e) with (e_Hits e); [by destruct e |].
  symmetry. rewrite <-(list_fmap_id (e_Hits e)) at 2. apply list_fmap_ext. intros i h Hi.
  unfold sanitize_hit, sanitize. eapply Forall_lookup_1 in Hh; [|exact Hi].
  rewrite Utf8.to_valid_id by done. by destruct h.
Qed.

Section saving.
Context {J : ManifestJson}.

(** What a save leaves, whichever calls fail. *)
Lemma saved_or_not o m f f' r raw :
  path m ≠ [] → json_encode (Entries m) = Some raw → Save o m f = (f', r) →
  f' !! path m = match r with Ok _ => Some raw | Err _ => f !! path m end ∧
  ∀ q, q ≠ path m → q ≠ path m ++ str ".tmp" → f' !! q = f !! q.
Proof.
  intros Hp Hj. unfold Save. rewrite bool_decide_eq_false_2, Hj by done.
  set (tmp := path m ++ str ".tmp"). assert (Hne : tmp ≠ path m).
  { intros E%(f_equal length). subst tmp. rewrite length_app in E. simpl in E. lia. }
  unfold Files.remove. intros Hr.
  destruct (Files.o_create o), (Files.o_write o), (Files.o_close o), (Files.o_rename o),
    (Files.o_remove o); simpl in Hr; injection Hr as <- <-; (split; [|intros q ? ?]);
    by simplify_map_eq.
Qed.

Lemma Load_saved {JL : ManifestJsonLaws} m f raw :
  path m ≠ [] → map_Forall (λ k _, Utf8.valid k) (Entries m) → json_encode (Entries m) = Some raw →
  f !! path m = Some raw →
  LoadOrCreateManifest true true (path m) f =
    Ok {| path := path m; Entries := sanitize_entry <$> Entries m |}.
Proof.
  intros Hp Hk Hj Hf. unfold LoadOrCreateManifest. rewrite bool_decide_eq_false_2, Hf by done.
  cbn iota. rewrite (json_decode_encode _ _ Hk Hj). do 2 f_equal. apply map_eq. intros k.
  rewrite lookup_omap, !lookup_fmap. by destruct (Entries m !! k).
Qed.

(** The manifest survives a restart.  Whichever system call of a save fails,
    the file holds its old content or the whole new one and no other file changes
    but the temporary one.  After a save that succeeded, loading gives the
    manifest back, with the invalid bytes of its texts replaced, so exactly when
    every name and error is valid UTF-8. *)
Lemma manifest_persists {JL : ManifestJsonLaws} (o : Files.outcome) (m : Manifest)
    (f f' : gmap bytes bytes) (r : result error unit)
    (Hp : path m ≠ []) (Hk : map_Forall (λ k _, Utf8.valid k) (Entries m))
    (Hs : Save o m f = (f', r)) :
  (∀ q, q ≠ path m → q ≠ path m ++ str ".tmp" → f' !! q = f !! q) ∧
  (∀ e, r = Err e → f' !! path m = f !! path m) ∧
  (r = Ok tt →
     LoadOrCreateManifest true true (path m) f' =
       Ok {| path := path m; Entries := sanitize_entry <$> Entries m |} ∧
     (map_Forall (λ _, entry_text) (Entries m) →
        LoadOrCreateManifest true true (path m) f' = Ok m)).
Proof.
  destruct (json_encode (Entries m)) as [raw|] eqn:Hj.
  - destruct (saved_or_not o m f f' r raw Hp Hj Hs) as [Hat Hoth]. split; [done |]. split.
    { by intros e ->. }
    intros ->. rewrite (Load_saved m f' raw) by done. split; [done |]. intros Ht.
    do 2 f_equal. destruct m as [p es]. simpl in *. f_equal. apply map_eq. intros k.
    rewrite lookup_fmap. destruct (es !! k) as [e|] eqn:Ek; [|done]. simpl.
    by rewrite sanitize_entry_id by exact (Ht k e Ek).
  - unfold Save in Hs. rewrite bool_decide_eq_false_2, Hj in Hs by done. injection Hs as <- <-. done.
Qed.
End saving.

(** ** Concrete parameters *)

(** A codec that writes the bytes of the contract; nothing here decodes. *)
Definition byte_codec : Bencode KeywordValue :=
  {| marshal v := Some (enc_value v); unmarshal _ _ := None |}.
Lemma byte_codec_bytes : @MarshalBytes byte_codec.
Proof. by intros v _. Qed.

Definition plain_hit (c : byte) (name : bytes) : KeywordHit :=
  {| IH := replicate 20 c; N := name; S_ := 3; F := 1; Sz := 1000 |}.
Definition sample_ops : list op := [
  OpAdd 1700000000 (str "linux") (plain_hit x01 (replicate 600 x61));
  OpAdd 1700000000 (str "linux") (plain_hit x02 (replicate 600 x62));
  OpAdd 1700000000 (str "mint") (plain_hit x02 (replicate 2000 x62));
  OpPublished (str "linux") 5;
  OpRemove (replicate 20 x02);
  OpAdd 1700000000 (str "linux") (plain_hit x03 (str "linux")) ].

Lemma sample_ops_ok : Forall op_ok sample_ops.
Proof.
  assert (He : era 1700000000) by (unfold era; lia).
  assert (Hh : ∀ c n, wf_hit (plain_hit c n)).
  { intros c n. split; [done |]. unfold hit_ok, is_i64. simpl. lia. }
  unfold sample_ops. repeat constructor; try done; apply Hh.
Qed.

Definition sample_manifest : Manifest :=
  foldl (@run byte_codec) (new_manifest (str "m.json")) sample_ops.

Lemma sample_lists : bool_decide (is_Some (Entries sample_manifest !! str "linux")) = true.
Proof. vm_compute. reflexivity. Qed.


Lemma sample_hit_ok c n : wf_hit (plain_hit c n).
Proof. split; [done |]. unfold hit_ok, is_i64. simpl. lia. Qed.

Lemma manifest_edits_witness :
  wf sample_manifest ∧
  ∃ kept i, @AddHit byte_codec 1800000000 sample_manifest (str "bsd") (plain_hit x05 []) =
    Ok (set_entry sample_manifest (str "bsd")
          (with_hits (default empty_entry (Entries sample_manifest !! str "bsd")) kept), len kept) ∧
    (i < length (upsert (entry_of sample_manifest (str "bsd")) (plain_hit x05 [])))%nat.
Proof.
  assert (Hm : wf sample_manifest).
  { apply (@edits_wf byte_codec byte_codec_bytes); [exact sample_ops_ok | apply map_Forall_empty]. }
  split; [exact Hm |].
  destruct (@manifest_edits byte_codec byte_codec_bytes sample_manifest Hm) as [Ha _].
  destruct (Ha 1800000000 (str "bsd") (plain_hit x05 [])) as (kept & i & He & _ & Hi & _).
  - unfold era. lia.
  - done.
  - apply sample_hit_ok.
  - exists kept, i. split; [exact He | exact Hi].
Defined.

(** A JSON codec: the code of the entries; what it reads it makes valid. *)
#[export] Instance ManifestEntry_dec : EqDecision ManifestEntry. Proof. solve_decision. Defined.
#[export] Program Instance ManifestEntry_countable : Countable ManifestEntry := inj_countable'
  (λ e, (e_Hits e, LastPublished e, LastError e, PublishCount e))
  (λ '(a, b, c, d), Build_ManifestEntry a b c d) _.
Next Obligation. by intros []. Qed.

Definition toy_json : ManifestJson := {|
  json_encode es := Some (ToyCodec.enc_pos (encode es));
  json_decode b :=
    match ToyCodec.dec_pos b with
    | Some p => fmap (M := gmap bytes) (Some ∘ sanitize_entry) <$> decode p
    | None => None
    end
|}.
Lemma toy_json_laws : @ManifestJsonLaws toy_json.
Proof.
  intros es b _ Hb. injection Hb as <-. unfold json_decode, toy_json.
  rewrite ToyCodec.dec_enc_pos. by rewrite decode_encode.
Qed.

Definition one_manifest : Manifest :=
  {| path := str "m.json"; Entries := {[ str "linux" := with_hits empty_entry [plain_hit x01 []] ]} |}.

Lemma manifest_persists_witness :
  ∃ f', @Save toy_json Files.no_failure one_manifest ∅ = (f', Ok tt) ∧
    @LoadOrCreateManifest toy_json true true (str "m.json") f' = Ok one_manifest.
Proof.
  destruct (@Save toy_json Files.no_failure one_manifest ∅) as [f' r] eqn:E.
  assert (Hr : r = Ok tt) by (unfold Save in E; simpl in E; congruence).
  exists f'. split; [by rewrite Hr |].
  apply (@manifest_persists toy_json toy_json_laws Files.no_failure one_manifest ∅ f' r);
    [done | | exact E | exact Hr |].
  - apply map_Forall_singleton. unfold Utf8.valid. vm_compute. repeat constructor; done.
  - apply map_Forall_singleton. split; vm_compute; repeat constructor; done.
Defined.

(** ** Behaviours worth knowing *)

(** A name of invalid bytes grows threefold when the manifest is read back: the
    entry was within the cap when it was added and no longer is, so after a
    restart every publication of the keyword fails until a hit is added to it. *)
Example reload_outgrows_cap :
  let h := plain_hit x01 (replicate 900 xff) in
  fits [h] ∧ ¬ fits (sanitize_hit <$> [h]).
Proof. split; [by vm_compute | intros H; by vm_compute in H]. Qed.

(** When the replaced hit is the oldest and no longer fits, the hit evicted is the
    one just added: the keyword does not list it. *)
Example refreshed_hit_evicted :
  let hits := [plain_hit x01 []; plain_hit x02 (replicate 700 x62)] in
  @evict byte_codec 1700000000 (upsert hits (plain_hit x01 (replicate 400 x61)))
  = [plain_hit x02 (replicate 700 x62)].
Proof. vm_compute. reflexivity. Qed.
End Manifest.
