(* ===== verification/Crawler.v ===== *)
(** * The DHT crawler (internal/dhtindex/crawler.go, sample.go)

    A bounded breadth-first walk that samples infohashes.  Every visit is a
    goroutine: the state of a crawl holds the visits that wait for a worker's
    slot and those that run, and a step is what one goroutine does between two
    acquisitions of the crawler's lock. *)

From S2P Require Import Prelude GoInt.
Open Scope Z_scope.

Module Crawler.

(** ** The samples of a node

    [krpc.NodeInfo] as the crawler reads it: an identifier and a UDP address, which
    may be absent or have no IP.  [addr_string] is [dht.NewAddr(udp).String()]. *)
Abbreviation ID := (array 20).
Record UDPAddr := { IP : option bytes; Port : Z }.
Record NodeInfo := { ni_ID : ID; ni_UDP : option UDPAddr }.
Class AddrString := addr_string : UDPAddr → bytes.

Record SampleInfohashesResult := {
  Samples : list ID; Interval : Z; Num : Z; Nodes : list NodeInfo
}.

(** The [r] dictionary of a reply; a pointer may be nil. *)
Record Return := {
  r_Samples : option (list ID); r_Interval : option Z; r_Num : option Z;
  r_Nodes : list NodeInfo; r_Nodes6 : list NodeInfo
}.
Inductive error : Type := ErrNilServer | ErrNilAddr | ErrQuery | ErrNoReturn.

(** [query]: what the server's query yields, an error or the [r] of its reply. *)
Definition SampleInfohashes (server addr : bool) (query : result unit (option Return))
    : result error SampleInfohashesResult :=
  check server ! ErrNilServer;
  check addr ! ErrNilAddr;
  match query with
  | Err _ => Err ErrQuery
  | Ok None => Err ErrNoReturn
  | Ok (Some r) => Ok {|
      Samples := default [] (r_Samples r); Interval := default 0 (r_Interval r);
      Num := default 0 (r_Num r); Nodes := r_Nodes r ++ r_Nodes6 r |}
  end.

(** ** State *)
Record CrawlNode := { Addr : option bytes; cn_ID : ID }.
Definition key (n : CrawlNode) : bytes := default [] (Addr n).

Record CrawlOptions := { Workers : Z; MaxFrontier : Z; MaxInfohashes : Z; PerQuery : Z }.
Definition withDefaults (o : CrawlOptions) : CrawlOptions := {|
  Workers := if Workers o <? 1 then 4 else Workers o;
  MaxFrontier := if MaxFrontier o <? 1 then 4096 else MaxFrontier o;
  MaxInfohashes := MaxInfohashes o;
  PerQuery := if PerQuery o <=? 0 then 8 * Second else PerQuery o
|}.
Record CrawlStats := { NodesSampled : Z; NodesErrored : Z; InfohashesSeen : Z }.

Record Crawler := {
  opts : CrawlOptions;
  queued : gset bytes;
  seenIH : gset ID;
  sampled : Z;
  errored : Z
}.
Definition newCrawler (o : CrawlOptions) : Crawler :=
  {| opts := withDefaults o; queued := ∅; seenIH := ∅; sampled := 0; errored := 0 |}.

(** [c.opts.MaxInfohashes > 0 && len(c.seenIH) >= c.opts.MaxInfohashes] *)
Definition target_met (c : Crawler) : bool :=
  (0 <? MaxInfohashes (opts c)) && (MaxInfohashes (opts c) <=? Z.of_nat (size (seenIH c))).
Definition frontier_full (c : Crawler) : bool :=
  MaxFrontier (opts c) <=? Z.of_nat (size (queued c)).

Definition with_queued (c : Crawler) (q : gset bytes) : Crawler :=
  {| opts := opts c; queued := q; seenIH := seenIH c; sampled := sampled c; errored := errored c |}.
Definition tryEnqueue (k : bytes) (c : Crawler) : Crawler * bool :=
  if bool_decide (k = []) then (c, false)
  else if target_met c then (c, false)
  else if frontier_full c then (c, false)
  else if bool_decide (k ∈ queued c) then (c, false)
  else (with_queued c ({[ k ]} ∪ queued c), true).

(** [emit] up to the call of the sink: the infohash to hand to it, if any. *)
Definition emit (ih : ID) (c : Crawler) : Crawler * option ID :=
  if bool_decide (ih ∈ seenIH c) then (c, None)
  else if target_met c then (c, None)
  else ({| opts := opts c; queued := queued c; seenIH := {[ ih ]} ∪ seenIH c;
           sampled := sampled c; errored := errored c |}, Some ih).

Definition recordSampled (c : Crawler) : Crawler :=
  {| opts := opts c; queued := queued c; seenIH := seenIH c; sampled := sampled c + 1;
     errored := errored c |}.
Definition recordErr (c : Crawler) : Crawler :=
  {| opts := opts c; queued := queued c; seenIH := seenIH c; sampled := sampled c;
     errored := errored c + 1 |}.
Definition snapshot (c : Crawler) : CrawlStats :=
  {| NodesSampled := sampled c; NodesErrored := errored c;
     InfohashesSeen := Z.of_nat (size (seenIH c)) |}.

Section crawl.
Context {AS : AddrString}.

(** [udp == nil || udp.IP == nil || udp.Port == 0] *)
Definition toCrawlNode (ni : NodeInfo) : option CrawlNode :=
  match ni_UDP ni with
  | Some udp =>
    match IP udp with
    | Some _ => if Port udp =? 0 then None
                else Some {| Addr := Some (addr_string udp); cn_ID := ni_ID ni |}
    | None => None
    end
  | None => None
  end.

(** ** Goroutines

    A visit that holds a slot is querying its node, or works through the answer:
    an infohash about to be handed to the sink, the samples and the neighbours
    still to be looked at. *)
Inductive visit : Type :=
  | Querying (n : CrawlNode)
  | Working (sinking : option ID) (samples : list ID) (nodes : list NodeInfo).

(** A pass of [CrawlOnce]: the crawler, the seeds its loop has not reached, the
    visits, the context and the calls of the sink so far.  [answered] and [failed]
    record the outcomes of the queries; the code does not keep them. *)
Record pass := {
  crawler : Crawler;
  seeds : list CrawlNode;
  waiting : list CrawlNode;
  running : list visit;
  cancelled : bool;
  sunk : list ID;
  answered : list (CrawlNode * SampleInfohashesResult);
  failed : list CrawlNode
}.
Definition CrawlOnce (o : CrawlOptions) (ss : list CrawlNode) : pass :=
  {| crawler := newCrawler o; seeds := ss; waiting := []; running := []; cancelled := false;
     sunk := []; answered := []; failed := [] |}.

Definition set_visits (p : pass) (c : Crawler) (w : list CrawlNode) (r : list visit) : pass :=
  {| crawler := c; seeds := seeds p; waiting := w; running := r; cancelled := cancelled p;
     sunk := sunk p; answered := answered p; failed := failed p |}.

(** [if c.tryEnqueue(n.key()) { wg.Add(1); go visit(n) }] *)
Definition spawn (n : CrawlNode) (c : Crawler) (w : list CrawlNode) : Crawler * list CrawlNode :=
  let '(c, ok) := tryEnqueue (key n) c in (c, if ok then w ++ [n] else w).

(** The loop over [res.Nodes], one neighbour. *)
Definition expand (ni : NodeInfo) (c : Crawler) (w : list CrawlNode) : Crawler * list CrawlNode :=
  match toCrawlNode ni with Some child => spawn child c w | None => (c, w) end.

Inductive step : pass → pass → Prop :=
  | step_seed p s ss c w :
    seeds p = s :: ss → spawn s (crawler p) (waiting p) = (c, w) →
    step p {| crawler := c; seeds := ss; waiting := w; running := running p;
              cancelled := cancelled p; sunk := sunk p; answered := answered p; failed := failed p |}
  | step_acquire p w1 n w2 :
    waiting p = w1 ++ n :: w2 → Z.of_nat (length (running p)) < Workers (opts (crawler p)) →
    step p (set_visits p (crawler p) (w1 ++ w2) (running p ++ [Querying n]))
  | step_cancel p :
    cancelled p = false →
    step p {| crawler := crawler p; seeds := seeds p; waiting := waiting p; running := running p;
              cancelled := true; sunk := sunk p; answered := answered p; failed := failed p |}
  | step_give_up p w1 n w2 :
    waiting p = w1 ++ n :: w2 → cancelled p = true →
    step p (set_visits p (crawler p) (w1 ++ w2) (running p))
  | step_abandon p r1 n r2 :
    running p = r1 ++ Querying n :: r2 → cancelled p = true →
    step p (set_visits p (crawler p) (waiting p) (r1 ++ r2))
  | step_error p r1 n r2 :
    running p = r1 ++ Querying n :: r2 →
    step p {| crawler := recordErr (crawler p); seeds := seeds p; waiting := waiting p;
              running := r1 ++ r2; cancelled := cancelled p; sunk := sunk p;
              answered := answered p; failed := failed p ++ [n] |}
  | step_answer p r1 n r2 res :
    running p = r1 ++ Querying n :: r2 →
    step p {| crawler := recordSampled (crawler p); seeds := seeds p; waiting := waiting p;
              running := r1 ++ Working None (Samples res) (Nodes res) :: r2;
              cancelled := cancelled p; sunk := sunk p; answered := answered p ++ [(n, res)];
              failed := failed p |}
  | step_emit p r1 ih ihs nodes r2 c out :
    running p = r1 ++ Working None (ih :: ihs) nodes :: r2 → emit ih (crawler p) = (c, out) →
    step p (set_visits p c (waiting p) (r1 ++ Working out ihs nodes :: r2))
  | step_sink p r1 ih ihs nodes r2 :
    running p = r1 ++ Working (Some ih) ihs nodes :: r2 →
    step p {| crawler := crawler p; seeds := seeds p; waiting := waiting p;
              running := r1 ++ Working None ihs nodes :: r2;
              cancelled := cancelled p; sunk := sunk p ++ [ih]; answered := answered p;
              failed := failed p |}
  | step_child p r1 ni nodes r2 c w :
    running p = r1 ++ Working None [] (ni :: nodes) :: r2 →
    expand ni (crawler p) (waiting p) = (c, w) →
    step p (set_visits p c w (r1 ++ Working None [] nodes :: r2))
  | step_done p r1 r2 :
    running p = r1 ++ Working None [] [] :: r2 →
    step p (set_visits p (crawler p) (waiting p) (r1 ++ r2)).

(** [wg.Wait()] returns. *)
Definition finished (p : pass) : Prop := seeds p = [] ∧ waiting p = [] ∧ running p = [].

(** ** What is under way *)
Definition querying (r : list visit) : list CrawlNode :=
  omap (λ v, (match v with Querying n => Some n | Working _ _ _ => None end)) r.
Definition sinks (r : list visit) : list ID :=
  omap (λ v, match v with Working s _ _ => s | Querying _ => None end) r.
Definition samples_left (r : list visit) : list ID :=
  r ≫= (λ v, match v with Working _ ihs _ => ihs | Querying _ => [] end).
Definition nodes_left (r : list visit) : list NodeInfo :=
  r ≫= (λ v, match v with Working _ _ nodes => nodes | Querying _ => [] end).

(** Every node that was let into the frontier and not given up. *)
Definition active (p : pass) : list CrawlNode :=
  waiting p ++ querying (running p) ++ (answered p).*1 ++ failed p.

Definition capped (c : Crawler) : Prop := target_met c = true ∨ frontier_full c = true.

(** ** The gates *)
Lemma spawn_spec n c w c' w' :
  spawn n c w = (c', w') →
  (c' = c ∧ w' = w ∧ (key n = [] ∨ key n ∈ queued c ∨ capped c)) ∨
  (key n ≠ [] ∧ (key n ∉ queued c) ∧ frontier_full c = false ∧
   c' = with_queued c ({[ key n ]} ∪ queued c) ∧ w' = w ++ [n]).
Proof.
  unfold spawn, tryEnqueue, capped. case_bool_decide; [intros [= <- <-]; left; tauto |].
  destruct (target_met c) eqn:?; [intros [= <- <-]; left; tauto |].
  destruct (frontier_full c) eqn:?; [intros [= <- <-]; left; tauto |].
  case_bool_decide; intros [= <- <-]; [left; tauto | right; tauto].
Qed.

Lemma expand_spec ni c w c' w' :
  expand ni c w = (c', w') →
  (c' = c ∧ w' = w ∧
   ∀ n, toCrawlNode ni = Some n → key n = [] ∨ key n ∈ queued c ∨ capped c) ∨
  (∃ n, toCrawlNode ni = Some n ∧ key n ≠ [] ∧ (key n ∉ queued c) ∧ frontier_full c = false ∧
   c' = with_queued c ({[ key n ]} ∪ queued c) ∧ w' = w ++ [n]).
Proof.
  unfold expand. destruct (toCrawlNode ni) as [n|]; [|by intros [= <- <-]; left].
  intros [(-> & -> & H)|H]%spawn_spec; [left | right; eauto].
  split; [done |]. split; [done |]. by intros n' [= <-].
Qed.

Lemma emit_spec ih c c' out :
  emit ih c = (c', out) →
  (c' = c ∧ out = None ∧ (ih ∈ seenIH c ∨ target_met c = true)) ∨
  ((ih ∉ seenIH c) ∧ target_met c = false ∧ out = Some ih ∧ opts c' = opts c ∧
   queued c' = queued c ∧ seenIH c' = {[ ih ]} ∪ seenIH c ∧
   sampled c' = sampled c ∧ errored c' = errored c).
Proof.
  unfold emit. case_bool_decide; [intros [= <- <-]; left; tauto |].
  destruct (target_met c) eqn:?; intros [= <- <-]; [left; tauto | right; tauto].
Qed.

(** ** Bounds *)
Definition grows (c c' : Crawler) : Prop :=
  opts c' = opts c ∧ queued c ⊆ queued c' ∧ seenIH c ⊆ seenIH c'.

Lemma grows_refl c : grows c c.
Proof. by split. Qed.
Lemma grows_queue c k : grows c (with_queued c ({[ k ]} ∪ queued c)).
Proof. split; [done |]. split; [|done]. simpl. set_solver. Qed.
Lemma grows_emit ih c c' out : emit ih c = (c', out) → grows c c'.
Proof.
  intros [(-> & _)|(_ & _ & _ & Ho & Hq & Hs & _)]%emit_spec; [apply grows_refl |].
  split; [done |]. rewrite Hq, Hs. set_solver.
Qed.
Lemma grows_spawn n c w c' w' : spawn n c w = (c', w') → grows c c'.
Proof. intros [(-> & _)|(_ & _ & _ & -> & _)]%spawn_spec; [apply grows_refl | apply grows_queue]. Qed.
Lemma grows_expand ni c w c' w' : expand ni c w = (c', w') → grows c c'.
Proof.
  intros [(-> & _)|(n & _ & _ & _ & _ & -> & _)]%expand_spec; [apply grows_refl | apply grows_queue].
Qed.
Lemma step_grows p p' : step p p' → grows (crawler p) (crawler p').
Proof.
  destruct 1; simpl; try apply grows_refl; try by split.
  - by eapply grows_spawn.
  - by eapply grows_emit.
  - by eapply grows_expand.
Qed.

Lemma target_met_grows c c' : grows c c' → target_met c = true → target_met c' = true.
Proof.
  intros (Ho & _ & Hs). unfold target_met. rewrite Ho, !andb_true_iff, !Z.leb_le.
  apply subseteq_size in Hs. lia.
Qed.
Lemma capped_grows c c' : grows c c' → capped c → capped c'.
Proof.
  intros Hg [Ht|Hf]; [left; by eapply target_met_grows | right].
  destruct Hg as (Ho & Hq & _). revert Hf. unfold frontier_full. rewrite Ho, !Z.leb_le.
  apply subseteq_size in Hq. lia.
Qed.

Record within (o : CrawlOptions) (c : Crawler) : Prop := {
  w_opts : opts c = withDefaults o;
  w_frontier : Z.of_nat (size (queued c)) ≤ MaxFrontier (withDefaults o);
  w_target : 0 < MaxInfohashes o → Z.of_nat (size (seenIH c)) ≤ MaxInfohashes o
}.
Definition same_counts (c c' : Crawler) : Prop := sampled c' = sampled c ∧ errored c' = errored c.

Lemma within_queue o c k :
  within o c → k ∉ queued c → frontier_full c = false →
  within o (with_queued c ({[ k ]} ∪ queued c)).
Proof.
  intros [Ho Hf Ht] Hk Hr. split; [done | | done]. unfold frontier_full in Hr. rewrite Ho in Hr.
  apply Z.leb_gt in Hr. cbn [queued with_queued]. rewrite size_union, size_singleton by set_solver. lia.
Qed.
Lemma within_spawn o n c w c' w' :
  spawn n c w = (c', w') → within o c → within o c' ∧ same_counts c c'.
Proof.
  intros [(-> & _)|(_ & Hk & Hr & -> & _)]%spawn_spec Hw; [by split |].
  split; [by apply within_queue | done].
Qed.
Lemma within_expand o ni c w c' w' :
  expand ni c w = (c', w') → within o c → within o c' ∧ same_counts c c'.
Proof.
  unfold expand. destruct (toCrawlNode ni); [apply within_spawn |]. by intros [= <- <-].
Qed.
Lemma within_emit o ih c c' out : emit ih c = (c', out) → within o c → within o c' ∧ same_counts c c'.
Proof.
  intros [(-> & _)|(Hi & Ht & _ & Ho & Hq & Hs & Hsa & Her)]%emit_spec Hw; [by split |].
  split; [|done]. destruct Hw as [Ho' Hf Hb]. split; [congruence | by rewrite Hq |].
  intros Hpos. unfold target_met in Ht. rewrite Ho' in Ht. cbn [MaxInfohashes withDefaults] in Ht.
  apply andb_false_iff in Ht as [Ht%Z.ltb_ge|Ht%Z.leb_gt]; [lia |].
  rewrite Hs, size_union, size_singleton by set_solver. lia.
Qed.

Record bounds (o : CrawlOptions) (p : pass) : Prop := {
  b_within : within o (crawler p);
  b_workers : Z.of_nat (length (running p)) ≤ Workers (withDefaults o);
  b_counts : sampled (crawler p) = Z.of_nat (length (answered p)) ∧
             errored (crawler p) = Z.of_nat (length (failed p))
}.

Lemma step_bounds o p p' : bounds o p → step p p' → bounds o p'.
Proof.
  intros [Hc Hw [Hs He]] Hst.
  assert (Hlen : ∀ r1 (v v' : visit) r2, running p = r1 ++ v :: r2 →
    Z.of_nat (length (r1 ++ v' :: r2)) ≤ Workers (withDefaults o) ∧
    Z.of_nat (length (r1 ++ r2)) ≤ Workers (withDefaults o)).
  { intros r1 v v' r2 E. rewrite E in Hw. rewrite !length_app in *. simpl in *. lia. }
  assert (Hsplit : ∀ c, within o c ∧ same_counts (crawler p) c →
    within o c ∧ sampled c = Z.of_nat (length (answered p)) ∧ errored c = Z.of_nat (length (failed p))).
  { intros c [Hi [-> ->]]. done. }
  destruct Hst as [p s ss c w Hse Hsp|p w1 n w2 Hwt Hroom|p Hcan|p w1 n w2 Hwt Hcan|p r1 n r2 Hr Hcan
    |p r1 n r2 Hr|p r1 n r2 res Hr|p r1 ih ihs nodes r2 c out Hr Hem|p r1 ih ihs nodes r2 Hr
    |p r1 ni nodes r2 c w Hr Hex|p r1 r2 Hr].
  - apply (within_spawn o) in Hsp as (?&?&?)%Hsplit; [|done]. by constructor.
  - constructor; [done | | done]. destruct Hc as [Ho _ _]. rewrite Ho in Hroom.
    cbn [running set_visits]. rewrite length_app.
    cbn [length] in *. lia.
  - by constructor.
  - by constructor.
  - constructor; [done | | done]. exact (proj2 (Hlen r1 _ (Querying n) r2 Hr)).
  - constructor; [by destruct Hc | exact (proj2 (Hlen r1 _ (Querying n) r2 Hr)) |]. simpl. rewrite length_app. simpl. lia.
  - constructor; [by destruct Hc | exact (proj1 (Hlen r1 _ _ r2 Hr)) |]. simpl. rewrite length_app. simpl. lia.
  - apply (within_emit o) in Hem as (?&?&?)%Hsplit; [|done]. constructor; [done | exact (proj1 (Hlen r1 _ _ r2 Hr)) | done].
  - constructor; [done | exact (proj1 (Hlen r1 _ _ r2 Hr)) | done].
  - apply (within_expand o) in Hex as (?&?&?)%Hsplit; [|done]. constructor; [done | exact (proj1 (Hlen r1 _ _ r2 Hr)) | done].
  - constructor; [done | exact (proj2 (Hlen r1 _ (Working None [] []) r2 Hr)) | done].
Qed.

(** ** Each node once *)
Record visits (p : pass) : Prop := {
  v_nodup : NoDup (key <$> active p);
  v_queued : ∀ k, k ∈ key <$> active p → k ∈ queued (crawler p) ∧ k ≠ [];
  v_all : cancelled p = false → ∀ k, k ∈ queued (crawler p) → k ∈ key <$> active p
}.

Lemma querying_app r1 v r2 :
  querying (r1 ++ v :: r2) ≡ₚ querying [v] ++ querying (r1 ++ r2).
Proof.
  unfold querying. rewrite !omap_app. change (v :: r2) with ([v] ++ r2). rewrite omap_app.
  solve_Permutation.
Qed.

Lemma visits_same p p' :
  active p' ≡ₚ active p → queued (crawler p') = queued (crawler p) →
  (cancelled p' = false → cancelled p = false) → visits p → visits p'.
Proof.
  intros Ha Hq Hc [Hn Hi Hall]. split.
  - by rewrite Ha.
  - intros k. rewrite Ha, Hq. apply Hi.
  - intros Hf k. rewrite Ha, Hq. auto.
Qed.
Lemma visits_less p p' n :
  active p ≡ₚ n :: active p' → queued (crawler p') = queued (crawler p) →
  cancelled p' = true → visits p → visits p'.
Proof.
  intros Ha Hq Hc [Hn Hi Hall]. rewrite Ha, fmap_cons in Hn. apply NoDup_cons in Hn as [_ Hn].
  split; [done | | congruence]. intros k Hk. rewrite Hq. apply Hi. rewrite Ha. by right.
Qed.
Lemma visits_more p p' n :
  active p' ≡ₚ n :: active p → queued (crawler p') = {[ key n ]} ∪ queued (crawler p) →
  key n ∉ queued (crawler p) → key n ≠ [] → cancelled p' = cancelled p → visits p → visits p'.
Proof.
  intros Ha Hq Hnew Hne Hc [Hn Hi Hall]. split.
  - rewrite Ha, fmap_cons. constructor; [|done]. intros Hk. by apply Hi in Hk as [? _].
  - intros k. rewrite Ha, Hq, fmap_cons, elem_of_cons, elem_of_union, elem_of_singleton.
    intros [->|Hk]; [by auto |]. apply Hi in Hk as [? ?]. auto.
  - rewrite Hc. intros Hf k. rewrite Ha, Hq, fmap_cons, elem_of_cons, elem_of_union, elem_of_singleton.
    intros [->|Hk]; auto.
Qed.

Lemma step_visits p p' : visits p → step p p' → visits p'.
Proof.
  intros Hv Hst.
  destruct Hst as [p s ss c w Hse Hsp|p w1 n w2 Hwt Hroom|p Hcan|p w1 n w2 Hwt Hcan|p r1 n r2 Hr Hcan
    |p r1 n r2 Hr|p r1 n r2 res Hr|p r1 ih ihs nodes r2 c out Hr Hem|p r1 ih ihs nodes r2 Hr
    |p r1 ni nodes r2 c w Hr Hex|p r1 r2 Hr].
  - apply spawn_spec in Hsp as [(-> & -> & _)|(Hne & Hnew & _ & -> & ->)].
    + by apply (visits_same p).
    + apply (visits_more p _ s); try done. unfold active. simpl. solve_Permutation.
  - apply (visits_same p); try done. unfold active. simpl. rewrite Hwt.
    unfold querying. rewrite omap_app. simpl. solve_Permutation.
  - by apply (visits_same p).
  - apply (visits_less p _ n); try done. unfold active. simpl. rewrite Hwt. solve_Permutation.
  - apply (visits_less p _ n); try done. unfold active. simpl. rewrite Hr, querying_app. simpl.
    solve_Permutation.
  - apply (visits_same p); try done. unfold active. simpl. rewrite Hr, querying_app. simpl.
    solve_Permutation.
  - apply (visits_same p); try done. unfold active. simpl. rewrite Hr, !querying_app, fmap_app. simpl.
    solve_Permutation.
  - apply (visits_same p); try done.
    + unfold active. simpl. by rewrite Hr, !querying_app.
    + simpl. by apply emit_spec in Hem as [(-> & _)|(_ & _ & _ & _ & -> & _)].
  - apply (visits_same p); try done. unfold active. simpl. by rewrite Hr, !querying_app.
  - apply expand_spec in Hex as [(-> & -> & _)|(n & _ & Hne & Hnew & _ & -> & ->)].
    + apply (visits_same p); try done. unfold active. simpl. by rewrite Hr, !querying_app.
    + apply (visits_more p _ n); try done. unfold active. simpl. rewrite Hr, !querying_app. simpl.
      solve_Permutation.
  - apply (visits_same p); try done. unfold active. simpl. by rewrite Hr, !querying_app.
Qed.

(** ** Each infohash once *)
Definition handed (p : pass) : Prop := sunk p ++ sinks (running p) ≡ₚ elements (seenIH (crawler p)).

Lemma sinks_app r1 v r2 : sinks (r1 ++ v :: r2) ≡ₚ sinks [v] ++ sinks (r1 ++ r2).
Proof.
  unfold sinks. rewrite !omap_app. change (v :: r2) with ([v] ++ r2). rewrite omap_app.
  solve_Permutation.
Qed.

Lemma step_handed p p' : handed p → step p p' → handed p'.
Proof.
  unfold handed. intros Hv Hst.
  destruct Hst as [p s ss c w Hse Hsp|p w1 n w2 Hwt Hroom|p Hcan|p w1 n w2 Hwt Hcan|p r1 n r2 Hr Hcan
    |p r1 n r2 Hr|p r1 n r2 res Hr|p r1 ih ihs nodes r2 c out Hr Hem|p r1 ih ihs nodes r2 Hr
    |p r1 ni nodes r2 c w Hr Hex|p r1 r2 Hr]; simpl; try done; try (rewrite Hr, sinks_app in Hv);
    rewrite ?sinks_app; try done.
  - by apply spawn_spec in Hsp as [(-> & _)|(_ & _ & _ & -> & _)].
  - unfold sinks in *. rewrite omap_app. simpl. by rewrite app_nil_r.
  - apply emit_spec in Hem as [(-> & -> & _)|(Hi & _ & -> & _ & _ & -> & _)]; [done |].
    rewrite elements_union_singleton by done. rewrite <-Hv. simpl. solve_Permutation.
  - rewrite <-Hv. simpl. solve_Permutation.
  - by apply expand_spec in Hex as [(-> & _)|(n & _ & _ & _ & _ & -> & _)].
Qed.

(** ** Nothing is overlooked *)
Definition settled (c : Crawler) (n : CrawlNode) : Prop :=
  key n = [] ∨ key n ∈ queued c ∨ capped c.

Lemma settled_grows c c' n : grows c c' → settled c n → settled c' n.
Proof.
  intros Hg [?|[Hq|Hc]]; [by left | right; left | right; right; by eapply capped_grows].
  destruct Hg as (_ & Hs & _). by apply Hs.
Qed.

Record closure (ss : list CrawlNode) (p : pass) : Prop := {
  d_seeds : ∀ s, s ∈ ss → s ∈ seeds p ∨ settled (crawler p) s;
  d_from : ∀ ih, ih ∈ seenIH (crawler p) ∨ ih ∈ samples_left (running p) →
    ∃ n res, (n, res) ∈ answered p ∧ ih ∈ Samples res;
  d_samples : ∀ n res ih, (n, res) ∈ answered p → ih ∈ Samples res →
    ih ∈ seenIH (crawler p) ∨ target_met (crawler p) = true ∨ ih ∈ samples_left (running p);
  d_nodes : ∀ n res ni m, (n, res) ∈ answered p → ni ∈ Nodes res → toCrawlNode ni = Some m →
    settled (crawler p) m ∨ ni ∈ nodes_left (running p)
}.

Lemma closure_keeps ss p p' :
  closure ss p → grows (crawler p) (crawler p') → answered p ⊆ answered p' →
  (∀ s, s ∈ seeds p → s ∈ seeds p' ∨ settled (crawler p') s) →
  (∀ n res, (n, res) ∈ answered p' → (n, res) ∈ answered p ∨
     Samples res ⊆ samples_left (running p') ∧ Nodes res ⊆ nodes_left (running p')) →
  (∀ ih, ih ∈ seenIH (crawler p') ∨ ih ∈ samples_left (running p') →
     (ih ∈ seenIH (crawler p) ∨ ih ∈ samples_left (running p)) ∨
     ∃ n res, (n, res) ∈ answered p' ∧ ih ∈ Samples res) →
  (∀ ih, ih ∈ samples_left (running p) →
     ih ∈ seenIH (crawler p') ∨ target_met (crawler p') = true ∨ ih ∈ samples_left (running p')) →
  (∀ ni, ni ∈ nodes_left (running p) → ni ∈ nodes_left (running p') ∨
     ∀ m, toCrawlNode ni = Some m → settled (crawler p') m) →
  closure ss p'.
Proof.
  intros [Hs Hf Hsa Hno] Hg Ha Hs' Ha' Hf' Hsa' Hno'. split.
  - intros s Hin. destruct (Hs s Hin) as [?|?]; [by apply Hs' | right; by eapply settled_grows].
  - intros ih Hih. destruct (Hf' ih Hih) as [Ho|?]; [|done].
    destruct (Hf ih Ho) as (n & res & Hin & ?). exists n, res. split; [by apply Ha | done].
  - intros n res ih Hin Hih. destruct (Ha' n res Hin) as [Ho|[Hsub _]]; [|by right; right; apply Hsub].
    destruct (Hsa n res ih Ho Hih) as [Hse|[Ht|Hl]]; [left | right; left | by apply Hsa'].
    + destruct Hg as (_ & _ & Hseen). by apply Hseen.
    + by eapply target_met_grows.
  - intros n res ni m Hin Hni Hm. destruct (Ha' n res Hin) as [Ho|[_ Hsub]]; [|by right; apply Hsub].
    destruct (Hno n res ni m Ho Hni Hm) as [Hse|Hl]; [left; by eapply settled_grows |].
    destruct (Hno' ni Hl) as [?|Hset]; [by right | left; by apply Hset].
Qed.

Lemma elem_samples_left r1 v r2 ih :
  ih ∈ samples_left (r1 ++ v :: r2) ↔ ih ∈ samples_left [v] ∨ ih ∈ samples_left (r1 ++ r2).
Proof. unfold samples_left. rewrite !bind_app, bind_cons. set_solver. Qed.
Lemma elem_nodes_left r1 v r2 ni :
  ni ∈ nodes_left (r1 ++ v :: r2) ↔ ni ∈ nodes_left [v] ∨ ni ∈ nodes_left (r1 ++ r2).
Proof. unfold nodes_left. rewrite !bind_app, bind_cons. set_solver. Qed.

Lemma spawn_settles n c w c' w' : spawn n c w = (c', w') → settled c' n.
Proof.
  intros [(-> & _ & H)|(_ & _ & _ & -> & _)]%spawn_spec; [done |].
  right. left. simpl. set_solver.
Qed.
Lemma expand_settles ni c w c' w' m :
  expand ni c w = (c', w') → toCrawlNode ni = Some m → settled c' m.
Proof. unfold expand. intros He Hm. rewrite Hm in He. by eapply spawn_settles. Qed.
Lemma spawn_seen n c w c' w' : spawn n c w = (c', w') → seenIH c' = seenIH c.
Proof. by intros [(-> & _)|(_ & _ & _ & -> & _)]%spawn_spec. Qed.
Lemma expand_seen ni c w c' w' : expand ni c w = (c', w') → seenIH c' = seenIH c.
Proof. unfold expand. destruct (toCrawlNode ni); [apply spawn_seen | by intros [= <- _]]. Qed.

Lemma step_closure ss p p' : closure ss p → step p p' → closure ss p'.
Proof.
  intros Hv Hst. pose proof (step_grows p p' Hst) as Hg.
  destruct Hst as [p s ss' c w Hse Hsp|p w1 n w2 Hwt Hroom|p Hcan|p w1 n w2 Hwt Hcan|p r1 n r2 Hr Hcan
    |p r1 n r2 Hr|p r1 n r2 res Hr|p r1 ih ihs nodes r2 c out Hr Hem|p r1 ih ihs nodes r2 Hr
    |p r1 ni nodes r2 c w Hr Hex|p r1 r2 Hr]; apply (closure_keeps ss p); try done; simpl; auto;
    try (rewrite Hr); intros x; rewrite ?elem_samples_left, ?elem_nodes_left; simpl; try tauto;
    try (unfold samples_left, nodes_left; set_solver).
  - rewrite Hse, elem_of_cons. intros [->|?]; [right; by eapply spawn_settles | by left].
  - rewrite (spawn_seen _ _ _ _ _ Hsp). tauto.
  - intros res0. rewrite elem_of_app, list_elem_of_singleton. intros [?|[= -> ->]]; [by left | right].
    split; intros y Hy; rewrite ?elem_samples_left, ?elem_nodes_left; left; simpl; set_solver.
  - apply emit_spec in Hem as [(-> & _)|(_ & _ & _ & _ & _ & -> & _)]; set_solver.
  - apply emit_spec in Hem as [(-> & _ & Hd)|(_ & _ & _ & _ & _ & -> & _)]; [|set_solver].
    rewrite elem_of_cons. intros [[->|?]|?]; tauto.
  - rewrite (expand_seen _ _ _ _ _ Hex). tauto.
  - rewrite elem_of_cons. intros [[->|?]|?]; [|tauto..]. right. intros m. by eapply expand_settles.
Qed.

(** ** A pass *)
Record pass_inv (o : CrawlOptions) (ss : list CrawlNode) (p : pass) : Prop := {
  p_bounds : bounds o p;
  p_visits : visits p;
  p_handed : handed p;
  p_closure : closure ss p
}.
Lemma workers_pos o : 0 < Workers (withDefaults o).
Proof. simpl. destruct (Z.ltb_spec (Workers o) 1); lia. Qed.
Lemma frontier_pos o : 0 < MaxFrontier (withDefaults o).
Proof. simpl. destruct (Z.ltb_spec (MaxFrontier o) 1); lia. Qed.

Lemma start_inv o ss : pass_inv o ss (CrawlOnce o ss).
Proof.
  pose proof (workers_pos o). pose proof (frontier_pos o). split.
  - split; [split |..]; cbn [crawler CrawlOnce newCrawler queued seenIH running length];
      rewrite ?size_empty; try done; lia.
  - split; [constructor | intros k Hk; by apply elem_of_nil in Hk |].
    intros _ k Hk. by apply elem_of_empty in Hk.
  - unfold handed. simpl. by rewrite elements_empty.
  - split; simpl.
    + intros s Hs. by left.
    + intros ih [Hi|Hi]; [by apply elem_of_empty in Hi | by apply elem_of_nil in Hi].
    + intros n res ih Hi. by apply elem_of_nil in Hi.
    + intros n res ni m Hi. by apply elem_of_nil in Hi.
Qed.
Lemma crawl_step_inv o ss p p' : pass_inv o ss p → step p p' → pass_inv o ss p'.
Proof.
  intros [Hb Hv Hh Hc] Hs.
  split; [by eapply step_bounds | by eapply step_visits | by eapply step_handed | by eapply step_closure].
Qed.
Lemma reachable_inv o ss p : rtc step (CrawlOnce o ss) p → pass_inv o ss p.
Proof.
  intros Hs. assert (H : ∀ q, rtc step q p → pass_inv o ss q → pass_inv o ss p).
  { induction 1 as [|q1 q2 q3 Hq _ IH]; [done |]. intros Hi. by eapply IH, crawl_step_inv. }
  by apply (H _ Hs), start_inv.
Qed.

(** ** A pass ends *)
Definition work (v : visit) : nat :=
  match v with
  | Querying _ => 0
  | Working s ihs nodes =>
    1 + (match s with Some _ => 1 | None => 0 end) + 2 * length ihs + 2 * length nodes
  end.
(** Places left in the frontier, visits not answered yet, the context. *)
Definition room (c : Crawler) : nat :=
  (Z.to_nat (MaxFrontier (opts c)) - size (queued c))%nat.
Definition budget (p : pass) : nat :=
  (room (crawler p) + length (waiting p) + length (querying (running p)) +
   if cancelled p then 0 else 1)%nat.
Definition chores (p : pass) : nat :=
  (2 * length (seeds p) + length (waiting p) + sum_list_with work (running p))%nat.

Lemma sum_work r1 v r2 :
  sum_list_with work (r1 ++ v :: r2) = (work v + sum_list_with work (r1 ++ r2))%nat.
Proof. rewrite !sum_list_with_app. simpl. lia. Qed.
Lemma length_querying r1 v r2 :
  length (querying (r1 ++ v :: r2)) = (length (querying [v]) + length (querying (r1 ++ r2)))%nat.
Proof. by rewrite querying_app, length_app. Qed.

Lemma spawn_budget n c w c' w' :
  spawn n c w = (c', w') →
  (room c' + length w' ≤ room c + length w)%nat ∧ (length w' ≤ S (length w))%nat.
Proof.
  intros [(-> & -> & _)|(_ & Hn & Hf & -> & ->)]%spawn_spec; [lia |].
  unfold frontier_full in Hf. apply Z.leb_gt in Hf. unfold room. simpl.
  rewrite size_union, size_singleton, length_app by set_solver. simpl. lia.
Qed.
Lemma expand_budget ni c w c' w' :
  expand ni c w = (c', w') →
  (room c' + length w' ≤ room c + length w)%nat ∧ (length w' ≤ S (length w))%nat.
Proof. unfold expand. destruct (toCrawlNode ni); [apply spawn_budget | intros [= <- <-]; lia]. Qed.
Lemma emit_budget ih c c' out : emit ih c = (c', out) → room c' = room c.
Proof. intros [(-> & _)|(_ & _ & _ & Ho & Hq & _)]%emit_spec; [done |]. unfold room. by rewrite Ho, Hq. Qed.

Lemma step_decreases p p' :
  step p p' → (budget p' < budget p)%nat ∨ (budget p' ≤ budget p ∧ chores p' < chores p)%nat.
Proof.
  unfold budget, chores. intros Hst.
  destruct Hst as [p s ss c w Hse Hsp|p w1 n w2 Hwt Hroom|p Hcan|p w1 n w2 Hwt Hcan|p r1 n r2 Hr Hcan
    |p r1 n r2 Hr|p r1 n r2 res Hr|p r1 ih ihs nodes r2 c out Hr Hem|p r1 ih ihs nodes r2 Hr
    |p r1 ni nodes r2 c w Hr Hex|p r1 r2 Hr]; simpl;
    try (rewrite Hr, !length_querying, !sum_work); try (rewrite Hwt, !length_app); simpl.
  - apply spawn_budget in Hsp. rewrite Hse. simpl. lia.
  - unfold querying. rewrite omap_app, length_app, sum_list_with_app. simpl. lia.
  - rewrite Hcan. lia.
  - lia.
  - lia.
  - change (room (recordErr (crawler p))) with (room (crawler p)). lia.
  - change (room (recordSampled (crawler p))) with (room (crawler p)). lia.
  - rewrite (emit_budget _ _ _ _ Hem). destruct out; lia.
  - lia.
  - apply expand_budget in Hex. lia.
  - lia.
Qed.

Lemma step_terminates p : Acc (λ q p, step p q) p.
Proof.
  remember (budget p) as b eqn:Hb. revert p Hb.
  induction b as [b IHb] using (well_founded_induction lt_wf). intros p Hb.
  remember (chores p) as c eqn:Hc. revert p Hb Hc.
  induction c as [c IHc] using (well_founded_induction lt_wf). intros p Hb Hc.
  constructor. intros q Hq. destruct (step_decreases p q Hq) as [Hlt|[Hle Hlt]].
  - apply (IHb (budget q)); [lia | done].
  - destruct (decide (budget q = b)) as [He|Hn].
    + apply (IHc (chores q)); [lia | done | done].
    + apply (IHb (budget q)); [lia | done].
Qed.

(** A pass that has not returned can go on without waiting for anything but the
    answer of a query. *)
Lemma step_progress o ss p :
  pass_inv o ss p → ¬ finished p → ∃ p', step p p' ∧ cancelled p' = cancelled p.
Proof.
  intros [[Hw _ _] _ _ _] Hf.
  destruct (seeds p) as [|s ss'] eqn:Es.
  2:{ destruct (spawn s (crawler p) (waiting p)) as [c w] eqn:E.
      eexists. split; [by eapply step_seed | done]. }
  destruct (running p) as [|[n|[ih|] ihs nodes] r2] eqn:Er.
  - destruct (waiting p) as [|n w] eqn:Ew; [exfalso; by apply Hf |].
    eexists. split; [apply (step_acquire p [] n w); [done |] | done].
    rewrite Er. destruct Hw as [-> _ _]. pose proof (workers_pos o). simpl length. lia.
  - eexists. split; [by apply (step_error p [] n r2) | done].
  - eexists. split; [by apply (step_sink p [] ih ihs nodes r2) | done].
  - destruct ihs as [|ih ihs].
    + destruct nodes as [|ni nodes]; [eexists; split; [by apply (step_done p [] r2) | done] |].
      destruct (expand ni (crawler p) (waiting p)) as [c w] eqn:E.
      eexists. split; [by eapply (step_child p [] ni nodes r2) | done].
    + destruct (emit ih (crawler p)) as [c out] eqn:E.
      eexists. split; [by eapply (step_emit p [] ih ihs nodes r2) | done].
Qed.

Lemma length_active p : visits p → (length (active p) ≤ size (queued (crawler p)))%nat.
Proof.
  intros [Hn Hq _]. rewrite <-(length_fmap key), <-(size_list_to_set (C := gset bytes)) by done.
  apply subseteq_size. intros k Hk. by apply elem_of_list_to_set, Hq in Hk as [? _].
Qed.

(** The nodes whose query came back. *)
Definition queried (p : pass) : list CrawlNode := (answered p).*1 ++ failed p.

Lemma active_finished p : finished p → active p = queried p.
Proof. intros (_ & Hw & Hr). unfold active. by rewrite Hw, Hr. Qed.

Lemma queried_once p : visits p → NoDup (key <$> queried p).
Proof.
  intros [Hn _ _]. unfold active in Hn. rewrite app_assoc, fmap_app in Hn. by apply NoDup_app in Hn as (_ & _ & ?).
Qed.

Lemma crawl_ends (o : CrawlOptions) (ss : list CrawlNode) (p : pass) :
  rtc step (CrawlOnce o ss) p →
  Acc (λ q p, step p q) p ∧ (finished p ∨ ∃ p', step p p' ∧ cancelled p' = cancelled p).
Proof.
  intros Hp. split; [apply step_terminates |].
  assert (Hdec : finished p ∨ ¬ finished p).
  { unfold finished. destruct (seeds p), (waiting p), (running p);
      first [by left | right; intros (? & ? & ?); done]. }
  destruct Hdec as [|Hf]; [by left | right]. by apply (step_progress o ss); [apply reachable_inv |].
Qed.

(** [C20] A crawl ends, is polite and finds what it reaches.  From any state it can
    be in, every sequence of steps is finite, however the goroutines interleave,
    whatever the nodes answer and whenever the context is cancelled, and until it
    has returned some goroutine can take a step, so the workers' semaphore never
    blocks them all.  At any moment at most [Workers] visits run, no node is queried twice, at most [MaxFrontier] nodes
    are queried, no infohash is handed to the sink twice or without a node having
    sampled it, and never more than [MaxInfohashes] of them.  When a crawl has
    returned without being cancelled or reaching a cap, every seed with an address
    and every neighbour with an address of a node that answered was queried, and
    the sink has every infohash that was sampled; the statistics count exactly
    that. *)
Theorem crawl_complete (o : CrawlOptions) (ss : list CrawlNode) (p : pass)
    (Hp : rtc step (CrawlOnce o ss) p) :
  (Acc (λ q p, step p q) p ∧ (finished p ∨ ∃ p', step p p' ∧ cancelled p' = cancelled p)) ∧
  (Z.of_nat (length (running p)) ≤ Workers (withDefaults o) ∧
   NoDup (key <$> queried p) ∧ len (queried p) ≤ MaxFrontier (withDefaults o) ∧
   NoDup (sunk p) ∧
   (∀ ih, ih ∈ sunk p → ∃ n res, (n, res) ∈ answered p ∧ ih ∈ Samples res) ∧
   (0 < MaxInfohashes o → len (sunk p) ≤ MaxInfohashes o)) ∧
  (finished p →
   snapshot (crawler p) = {| NodesSampled := len (answered p); NodesErrored := len (failed p);
                             InfohashesSeen := len (sunk p) |} ∧
   (cancelled p = false → ¬ capped (crawler p) →
    (∀ s, s ∈ ss → key s ≠ [] → key s ∈ key <$> queried p) ∧
    (∀ n res, (n, res) ∈ answered p →
       (∀ ih, ih ∈ Samples res → ih ∈ sunk p) ∧
       ∀ ni m, ni ∈ Nodes res → toCrawlNode ni = Some m → key m ≠ [] → key m ∈ key <$> queried p))).
Proof.
  destruct (reachable_inv o ss p Hp) as [[[_ Hfr Htg] Hwk [Hsa Her]] Hv Hh Hc].
  unfold handed in Hh. pose proof (Permutation_length Hh) as Hsize. rewrite length_app in Hsize.
  change (length (elements (seenIH (crawler p)))) with (size (seenIH (crawler p))) in Hsize.
  pose proof (length_active p Hv) as Hact.
  assert (Hq : (length (queried p) ≤ length (active p))%nat).
  { unfold active, queried. rewrite !length_app. lia. }
  split; [by apply (crawl_ends o ss) |]. split.
  - split; [done |]. split; [by apply queried_once |]. split; [unfold len; lia |]. split.
    { assert (Hn : NoDup (sunk p ++ sinks (running p))) by (rewrite Hh; apply NoDup_elements).
      by apply NoDup_app in Hn as [? _]. }
    split; [|unfold len; lia]. intros ih Hih. destruct Hc as [_ Hfrom _ _]. apply Hfrom. left.
    apply elem_of_elements. rewrite <-Hh. set_solver.
  - intros Hf. pose proof (active_finished p Hf) as Ha. destruct Hf as (Hs0 & Hw0 & Hr0).
    rewrite Hr0 in Hh, Hsize. simpl in Hh, Hsize. rewrite app_nil_r in Hh. split.
    { unfold snapshot. rewrite Hsa, Her, <-Hsize, Nat.add_0_r. done. }
    intros Hcan Hcap. destruct Hv as [_ _ Hall]. specialize (Hall Hcan). rewrite Ha in Hall.
    destruct Hc as [Hsd _ Hsam Hno]. split.
    + intros s Hs Hk. destruct (Hsd s Hs) as [Hin|[?|[Hqd|?]]]; [|done | by apply Hall | done].
      rewrite Hs0 in Hin. by apply elem_of_nil in Hin.
    + intros n res Hin. split.
      * intros ih Hih. destruct (Hsam n res ih Hin Hih) as [Hse|[Ht|Hl]].
        -- rewrite Hh. by apply elem_of_elements.
        -- destruct Hcap. by left.
        -- rewrite Hr0 in Hl. by apply elem_of_nil in Hl.
      * intros ni m Hni Hm Hk. destruct (Hno n res ni m Hin Hni Hm) as [[?|[Hqd|?]]|Hl];
          [done | by apply Hall | done |]. rewrite Hr0 in Hl. by apply elem_of_nil in Hl.
Qed.
End crawl.

(** ** A small crawl *)
Module Examples.
#[local] Instance show_port : AddrString := λ u, default [] (IP u) ++ put_le 2 (Port u).
Definition ih (c : byte) : ID := copy_arr 20 [c].
Definition node_a : CrawlNode := {| Addr := Some (str "a"); cn_ID := ih x01 |}.
Definition node_b : NodeInfo := {| ni_ID := ih x02; ni_UDP := Some {| IP := None; Port := 1 |} |}.
Definition answer : SampleInfohashesResult :=
  {| Samples := [ih x09]; Interval := 0; Num := 1; Nodes := [node_b] |}.
Definition defaults : CrawlOptions :=
  {| Workers := 0; MaxFrontier := 0; MaxInfohashes := 0; PerQuery := 0 |}.

(** One seed, which samples one infohash and knows a node without an address. *)
Definition small_end : pass := {|
  crawler := recordSampled {| opts := withDefaults defaults; queued := {[ str "a" ]} ∪ ∅;
    seenIH := {[ ih x09 ]} ∪ ∅; sampled := 0; errored := 0 |};
  seeds := []; waiting := []; running := []; cancelled := false; sunk := [ih x09];
  answered := [(node_a, answer)]; failed := [] |}.

Lemma small_run : rtc step (CrawlOnce defaults [node_a]) small_end.
Proof.
  eapply rtc_l; [by apply (step_seed _ node_a []) |].
  eapply rtc_l; [by apply (step_acquire _ [] node_a []) |].
  eapply rtc_l; [by apply (step_answer _ [] node_a [] answer) |].
  eapply rtc_l; [by apply (step_emit _ [] (ih x09) [] [node_b] []) |].
  eapply rtc_l; [by apply (step_sink _ [] (ih x09) [] [node_b] []) |].
  eapply rtc_l; [by apply (step_child _ [] node_b [] []) |].
  eapply rtc_l; [by apply (step_done _ [] []) |]. apply rtc_refl.
Qed.

Lemma crawl_complete_witness :
  Acc (λ q p, step p q) small_end ∧
  finished small_end ∧ key node_a ∈ key <$> queried small_end ∧ ih x09 ∈ sunk small_end.
Proof.
  destruct (crawl_complete defaults [node_a] small_end small_run) as ([Hacc _] & _ & Hf).
  split; [exact Hacc |].
  assert (Hd : finished small_end) by done. destruct (Hf Hd) as [_ Hr].
  assert (Hcap : ¬ capped (crawler small_end)) by (intros [Hc|Hc]; vm_compute in Hc; discriminate Hc).
  destruct (Hr eq_refl Hcap) as [Hs Ha]. split; [exact Hd |]. split.
  - apply Hs; [by apply list_elem_of_singleton | done].
  - apply (proj1 (Ha node_a answer (proj2 (list_elem_of_singleton _ _) eq_refl))).
    by apply list_elem_of_singleton.
Defined.
End Examples.
End Crawler.
