(* ===== verification/Backend.v ===== *)
(** * The storage seam of the keyword index (internal/dhtindex/backend.go,
      legacy_keyword.go, composite.go, memory.go, publisher.go)

    A [RecordBackend] is what the publisher and the lookup see of a store: it
    publishes a torrent's hit under keywords, refreshes, retracts, and answers
    one token for one indexer.  The legacy backend keeps a manifest and puts one
    DHT item per keyword; the composite writes to two backends and merges what
    they answer.  The DHT itself is a port, with the in-memory store as one
    implementation. *)

From S2P Require Import Prelude GoInt Externals Instances Record Snagg Utf8 Files Sha256 Sha1 Token DhtSchema Manifest.
Open Scope Z_scope.

(** ** The port

    [port_Put now pub salt value] and [port_Get pub salt]: a put or a get through
    the publisher's key, an error being its message. *)
Class DhtPort (W : Type) := {
  port_Put : Z → array 32 → bytes → DhtSchema.KeywordValue → W → W * result bytes unit;
  port_Get : array 32 → bytes → W → W * result bytes DhtSchema.KeywordValue
}.

(** [dhtschema]'s error messages; [marshal_error] is the library's. *)
Class MarshalError := marshal_error : bytes.
Definition error_text `{MarshalError} (e : DhtSchema.error) : bytes :=
  match e with
  | DhtSchema.ErrEmptyKeyword => str "dhtschema: empty keyword"
  | DhtSchema.ErrSaltTooLong n =>
    str "dhtschema: keyword salt " ++ DhtSchema.format_decimal n ++
    str " bytes exceeds BEP-44 cap 64"
  | DhtSchema.ErrOversize n =>
    str "dhtschema: encoded value " ++ DhtSchema.format_decimal n ++
    str " bytes exceeds BEP-44 cap 1000"
  | _ => str "dhtschema: encode value: " ++ marshal_error
  end.

(** ** The in-memory DHT *)
Module Memory.
Import DhtSchema.

Record storedItem := { value : KeywordValue; seq : Z }.
Record SharedMemoryStore := { store : gmap (array 20) storedItem }.
Definition NewSharedMemoryStore : SharedMemoryStore := {| store := ∅ |}.

(** [sha1.Sum(pub || salt)] *)
Definition target (pub : array 32) (salt : bytes) : array 20 := sha1 (sl pub ++ salt).

Section memory.
Context `{Bencode KeywordValue, MarshalError}.

Definition Put (now : Z) (pub : array 32) (salt : bytes) (v : KeywordValue) (s : SharedMemoryStore)
    : SharedMemoryStore * result bytes unit :=
  match EncodeValue now v with
  | Err e => (s, Err (error_text e))
  | Ok _ =>
    let t := target pub salt in
    let prev := match store s !! t with Some it => seq it | None => 0 end in
    ({| store := <[t := {| value := v; seq := i64 (prev + 1) |}]> (store s) |}, Ok tt)
  end.

Definition Get (pub : array 32) (salt : bytes) (s : SharedMemoryStore)
    : SharedMemoryStore * result bytes KeywordValue :=
  match store s !! target pub salt with
  | Some it => (s, Ok (value it))
  | None => (s, Err (str "dhtindex: not found"))
  end.

#[export] Instance port : DhtPort SharedMemoryStore := {| port_Put := Put; port_Get := Get |}.
End memory.
End Memory.

(** ** The interface *)
Module Backend.
Import DhtSchema Manifest.

(** What an operation reads of its surroundings: the clock, by the index of the
    keyword it works on, before and after the put; the system calls of its save;
    for a refresh, the order in which the map is walked and how many keywords it
    reaches before its context ends; the order in which records are collected. *)
Record env := {
  started : nat → Z; finished : nat → Z;   (** nanoseconds *)
  saving : Files.outcome;
  order : list bytes;
  reached : option nat;
  shuffle : list Record.Record.Record → list Record.Record.Record;
  shuffle_perm l : shuffle l ≡ₚ l
}.

Inductive error : Type :=
  | ErrManifest (e : Manifest.error) | ErrSchema (e : DhtSchema.error) | ErrDht (text : bytes)
  | ErrCanceled
  | ErrTree (e : Snagg.error).

Record PublisherKeywordStatus := {
  Keyword : bytes; HitsCount : Z; s_LastPublished : option Z; s_PublishCount : Z; s_LastError : bytes
}.
Record PublisherStatus := {
  PubKey : array 32; TotalKeywords : Z; TotalHits : Z; Keywords_ : list PublisherKeywordStatus
}.

Class RecordBackend (S : Type) := {
  Publish : env → list bytes → KeywordHit → S → S * result error unit;
  Refresh : env → S → S * result error unit;
  Retract : env → array 20 → S → S * result error unit;
  Lookup : env → array 32 → bytes → S → S * result error (list KeywordHit);
  Status : S → PublisherStatus;
  Close : env → S → S * result error unit
}.

(** ** The legacy backend *)
Record PublisherOptions := {
  RefreshInterval : Z; PutTimeout : Z; QueueSize : Z; MinPutInterval : Z
}.
Definition DefaultPublisherOptions : PublisherOptions := {|
  RefreshInterval := 1 * Hour; PutTimeout := 30 * Second; QueueSize := 64;
  MinPutInterval := 55 * Minute
|}.
Definition RegtestPublisherOptions : PublisherOptions := {|
  RefreshInterval := 5 * Second; PutTimeout := 5 * Second; QueueSize := 64;
  MinPutInterval := Second / 10
|}.

Record legacyKeyword := {
  put : array 32;            (** the key the putter signs as *)
  manifest : Manifest.Manifest;
  putTimeout : Z; minPutInterval : Z
}.
(** The backend with the DHT and the disk it works on. *)
Record legacy (W : Type) := { lk : legacyKeyword; dht : W; disk : gmap bytes bytes }.
Arguments lk {W} _.
Arguments dht {W} _.
Arguments disk {W} _.

Definition NewLegacyKeyword (pub : array 32) (m : Manifest.Manifest) (opts : PublisherOptions)
    : legacyKeyword :=
  {| put := pub; manifest := m; putTimeout := PutTimeout opts; minPutInterval := MinPutInterval opts |}.

Section legacy.
Context {W : Type} `{DhtPort W, Bencode KeywordValue, ManifestJson, MarshalError}.
Implicit Types (s : legacy W).

Definition set_manifest (m : Manifest.Manifest) (s : legacy W) : legacy W :=
  {| lk := {| put := put (lk s); manifest := m; putTimeout := putTimeout (lk s);
              minPutInterval := minPutInterval (lk s) |}; dht := dht s; disk := disk s |}.
Definition set_dht (w : W) (s : legacy W) : legacy W := {| lk := lk s; dht := w; disk := disk s |}.

(** [time.Now().Unix()] *)
Definition unix (t : Z) : Z := t / Second.

Definition throttled (now : Z) (b : legacyKeyword) (e : ManifestEntry) : bool :=
  (0 <? minPutInterval b) &&
  match LastPublished e with Some l => time_sub now l <? minPutInterval b | None => false end.

(** [before] is read by [time.Since], [after] by [time.Now] once the put is done;
    the put stamps its value in between. *)
Definition publishOne (before after : Z) (keyword : bytes) (s : legacy W) : legacy W :=
  let m := manifest (lk s) in
  match Snapshot m !! keyword with
  | None => s
  | Some entry =>
    if throttled before (lk s) entry then s
    else match SaltForKeyword keyword with
    | Err e => set_manifest (MarkFailed m keyword (Some (error_text e))) s
    | Ok salt =>
      let '(w, r) := port_Put (unix before) (put (lk s)) salt (value_of (e_Hits entry)) (dht s) in
      let s := set_dht w s in
      match r with
      | Err text => set_manifest (MarkFailed m keyword (Some text)) s
      | Ok _ => set_manifest (MarkPublished m keyword after) s
      end
    end
  end.

Definition save (e : env) (s : legacy W) : legacy W * result error unit :=
  let '(f, r) := Save (saving e) (manifest (lk s)) (disk s) in
  ({| lk := lk s; dht := dht s; disk := f |},
   match r with Ok _ => Ok tt | Err e => Err (ErrManifest e) end).

(** One round of [Publish]: a keyword that is refused is skipped. *)
Definition publish_keyword (e : env) (hit : KeywordHit) (s : legacy W) (ikw : nat * bytes) : legacy W :=
  let '(i, kw) := ikw in
  match AddHit (unix (started e i)) (manifest (lk s)) kw hit with
  | Err _ => s
  | Ok (m, _) => publishOne (started e i) (finished e i) kw (set_manifest m s)
  end.
Definition legacy_Publish (e : env) (keywords : list bytes) (hit : KeywordHit) (s : legacy W)
    : legacy W * result error unit :=
  save e (foldl (publish_keyword e hit) s (imap pair keywords)).

Definition refresh_keyword (e : env) (s : legacy W) (ikw : nat * bytes) : legacy W :=
  publishOne (started e ikw.1) (finished e ikw.1) ikw.2 s.
Definition legacy_Refresh (e : env) (s : legacy W) : legacy W * result error unit :=
  match reached e with
  | Some n => (foldl (refresh_keyword e) s (imap pair (take n (order e))), Err ErrCanceled)
  | None => save e (foldl (refresh_keyword e) s (imap pair (order e)))
  end.

Definition legacy_Retract (e : env) (ih : array 20) (s : legacy W) : legacy W * result error unit :=
  let '(m, touched) := RemoveAllHits (manifest (lk s)) (sl ih) in
  let s := set_manifest m s in
  if 0 <? touched then save e s else (s, Ok tt).

Definition legacy_Lookup (e : env) (indexerPub : array 32) (token : bytes) (s : legacy W)
    : legacy W * result error (list KeywordHit) :=
  match SaltForKeyword token with
  | Err err => (s, Err (ErrSchema err))
  | Ok salt =>
    let '(w, r) := port_Get indexerPub salt (dht s) in
    (set_dht w s, match r with Ok v => Ok (default [] (Hits v)) | Err text => Err (ErrDht text) end)
  end.

(** The rows come in the map's order. *)
Definition legacy_Status (s : legacy W) : PublisherStatus :=
  let snap := map_to_list (Snapshot (manifest (lk s))) in
  {| PubKey := put (lk s); TotalKeywords := len snap;
     TotalHits := foldr (λ ke n, len (e_Hits ke.2) + n) 0 snap;
     Keywords_ := (λ ke, {| Keyword := ke.1; HitsCount := len (e_Hits ke.2);
       s_LastPublished := LastPublished ke.2; s_PublishCount := PublishCount ke.2;
       s_LastError := LastError ke.2 |}) <$> snap |}.

#[export] Instance legacy_backend : RecordBackend (legacy W) := {|
  Publish := legacy_Publish; Refresh := legacy_Refresh; Retract := legacy_Retract;
  Lookup := legacy_Lookup; Status := legacy_Status; Close := save
|}.
End legacy.

(** ** The composite backend *)
Section composite.
Context {P S : Type} `{RecordBackend P, RecordBackend S}.

(** Both are written; the primary's error counts. *)
Definition both {A} (f : P → P * result error A) (g : S → S * result error A) (c : P * S)
    : (P * S) * result error A :=
  let '(p, r) := f c.1 in let '(s, _) := g c.2 in ((p, s), r).

(** One hit of the merge. *)
Definition merge_hit (out : list KeywordHit) (h : KeywordHit) : list KeywordHit :=
  if bool_decide (IH h ∈ IH <$> out) then out else out ++ [h].
Definition composite_Lookup (e : env) (pub : array 32) (token : bytes) (c : P * S)
    : (P * S) * result error (list KeywordHit) :=
  let '(p, r1) := Lookup e pub token c.1 in
  let '(s, r2) := Lookup e pub token c.2 in
  ((p, s),
   match r1, r2 with
   | Err e1, Err _ => Err e1
   | _, _ =>
     let hits r := match r with Ok hs => hs | Err _ => [] end in
     Ok (foldl merge_hit (foldl merge_hit [] (hits r1)) (hits r2))
   end).

Definition composite_Close (e : env) (c : P * S) : (P * S) * result error unit :=
  let '(p, r1) := Close e c.1 in let '(s, r2) := Close e c.2 in
  ((p, s), match r1 with Ok _ => r2 | Err _ => r1 end).

#[export] Instance composite : RecordBackend (P * S) := {|
  Publish e kws hit := both (Publish e kws hit) (Publish e kws hit);
  Refresh e := both (Refresh e) (Refresh e);
  Retract e ih := both (Retract e ih) (Retract e ih);
  Lookup := composite_Lookup;
  Status c := Status c.1;
  Close := composite_Close
|}.
End composite.

(** ** What a backend promises

    [listed s kw ih]: what the backend would announce.  Publishing adds the hit
    under the keywords (a backend may lower their case) and may evict others;
    retracting removes exactly one infohash; nothing else changes what is listed. *)
Class BackendSpec (S : Type) `{RecordBackend S, Utf8.Unicode} := {
  listed : S → bytes → bytes → Prop;
  publish_listed e kws hit s kw ih : listed (Publish e kws hit s).1 kw ih →
    listed s kw ih ∨ (ih = IH hit ∧ ∃ kw0, kw0 ∈ kws ∧ (kw = kw0 ∨ kw = Utf8.strings_ToLower kw0));
  refresh_listed e s kw ih : listed (Refresh e s).1 kw ih ↔ listed s kw ih;
  retract_listed e ih0 s kw ih : listed (Retract e ih0 s).1 kw ih ↔ listed s kw ih ∧ ih ≠ sl ih0;
  lookup_listed e pub tok s kw ih : listed (Lookup e pub tok s).1 kw ih ↔ listed s kw ih;
  close_listed e s kw ih : listed (Close e s).1 kw ih ↔ listed s kw ih
}.

(** ** The publisher's worker *)
Record PublishTask := {
  InfoHash : bytes; Name : bytes; Seeders : Z; FileCount : Z; SizeBytes : Z
}.
Definition task_hit (t : PublishTask) : KeywordHit :=
  {| IH := InfoHash t; N := Name t; S_ := Seeders t; F := FileCount t; Sz := SizeBytes t |}.

(** The channel holds the tasks that wait; [stopped] is the closed stop channel. *)
Record Publisher (S : Type) := {
  backend : S; opts : PublisherOptions; tasks : list PublishTask; stopped : bool
}.
Arguments backend {S} _.
Arguments opts {S} _.
Arguments tasks {S} _.
Arguments stopped {S} _.

Section publisher.
Context {S : Type} `{RecordBackend S, Utf8.Unicode}.

Definition NewPublisher (b : S) (o : PublisherOptions) : Publisher S := {|
  backend := b;
  opts := {|
    RefreshInterval := if RefreshInterval o <=? 0 then 1 * Hour else RefreshInterval o;
    PutTimeout := PutTimeout o;
    QueueSize := if QueueSize o <=? 0 then 64 else QueueSize o;
    MinPutInterval := MinPutInterval o |};
  tasks := []; stopped := false
|}.

Definition with_backend (p : Publisher S) (b : S) : Publisher S :=
  {| backend := b; opts := opts p; tasks := tasks p; stopped := stopped p |}.

Definition Submit (t : PublishTask) (p : Publisher S) : Publisher S :=
  if len (tasks p) <? QueueSize (opts p)
  then {| backend := backend p; opts := opts p; tasks := tasks p ++ [t]; stopped := stopped p |}
  else p.

Definition handleTask (e : env) (t : PublishTask) (b : S) : S :=
  if negb (len (InfoHash t) =? 20) then b
  else match Token.Tokenize (Name t) with
  | [] => b
  | keywords => (Publish e keywords (task_hit t) b).1
  end.

(** What the worker does next: a task, a tick of the refresh ticker, or nothing
    more once [Stop], which waits for it, has returned.  A step is a whole task: a
    retraction that runs inside one is not described. *)
Inductive work : Publisher S → Publisher S → Prop :=
  | work_task e t ts p :
    stopped p = false → tasks p = t :: ts →
    work p {| backend := handleTask e t (backend p); opts := opts p; tasks := ts; stopped := stopped p |}
  | work_refresh e p : stopped p = false → work p (with_backend p (Refresh e (backend p)).1).

Definition Publisher_Retract (e : env) (ih : array 20) (p : Publisher S) : Publisher S :=
  with_backend p (Retract e ih (backend p)).1.
Definition Stop (e : env) (p : Publisher S) : Publisher S :=
  {| backend := (Close e (backend p)).1; opts := opts p; tasks := tasks p; stopped := true |}.
End publisher.

(** ** The composite keeps the promise when its parts do *)
Section composite_spec.
Context {P S : Type} `{Utf8.Unicode} {BP : RecordBackend P} {BS : RecordBackend S}.
Context {SP : BackendSpec P} {SS : BackendSpec S}.

Lemma both_state {A} (f : P → P * result error A) (g : S → S * result error A) c :
  (both f g c).1 = ((f c.1).1, (g c.2).1).
Proof. unfold both. by destruct (f c.1), (g c.2). Qed.

#[export] Program Instance composite_spec : BackendSpec (P * S) := {|
  listed c kw ih := listed c.1 kw ih ∨ listed c.2 kw ih
|}.
Next Obligation.
  intros e kws hit c kw ih. simpl. rewrite both_state. simpl.
  intros [[?|?]%publish_listed|[?|?]%publish_listed]; auto.
Qed.
Next Obligation. intros e c kw ih. simpl. rewrite both_state. simpl. by rewrite !refresh_listed. Qed.
Next Obligation.
  intros e ih0 c kw ih. simpl. rewrite both_state. simpl. rewrite !retract_listed. tauto.
Qed.
Next Obligation.
  intros e pub tok c kw ih. simpl. unfold composite_Lookup.
  destruct (Lookup e pub tok c.1) as [p r1] eqn:E1, (Lookup e pub tok c.2) as [s r2] eqn:E2. simpl.
  replace p with (Lookup e pub tok c.1).1 by by rewrite E1.
  replace s with (Lookup e pub tok c.2).1 by by rewrite E2. by rewrite !lookup_listed.
Qed.
Next Obligation.
  intros e c kw ih. simpl. unfold composite_Close.
  destruct (Close e c.1) as [p r1] eqn:E1, (Close e c.2) as [s r2] eqn:E2. simpl.
  replace p with (Close e c.1).1 by by rewrite E1.
  replace s with (Close e c.2).1 by by rewrite E2. by rewrite !close_listed.
Qed.
End composite_spec.

(** ** The legacy backend keeps it *)
Section legacy_spec.
Context {W : Type} `{DhtPort W, Bencode KeywordValue, ManifestJson, MarshalError}.
Implicit Types (s : legacy W).

(** [kw] lists [ih] in the manifest. *)
Definition lists (m : Manifest.Manifest) (kw ih : bytes) : Prop := ih ∈ IH <$> entry_of m kw.

Lemma lists_set m k e kw ih :
  lists (set_entry m k e) kw ih ↔ if decide (kw = k) then ih ∈ IH <$> e_Hits e else lists m kw ih.
Proof.
  unfold lists, entry_of. simpl. case_decide; [subst; by rewrite lookup_insert_eq |].
  by rewrite lookup_insert_ne.
Qed.
Lemma lists_mark m k e e' kw ih :
  Entries m !! k = Some e → e_Hits e' = e_Hits e → lists (set_entry m k e') kw ih ↔ lists m kw ih.
Proof.
  intros Hk He. rewrite lists_set. case_decide; [subst | done]. unfold lists, entry_of. by rewrite Hk, He.
Qed.
Lemma lists_published m k t kw ih : lists (MarkPublished m k t) kw ih ↔ lists m kw ih.
Proof. unfold MarkPublished. destruct (Entries m !! k) eqn:E; [by eapply lists_mark | done]. Qed.
Lemma lists_failed m k err kw ih : lists (MarkFailed m k err) kw ih ↔ lists m kw ih.
Proof.
  unfold MarkFailed. destruct (Entries m !! k) eqn:E; [|done]. destruct err; [by eapply lists_mark | done].
Qed.

Lemma publishOne_lists b a k s kw ih :
  lists (manifest (lk (publishOne b a k s))) kw ih ↔ lists (manifest (lk s)) kw ih.
Proof.
  unfold publishOne. destruct (Snapshot _ !! k) as [entry|]; [|done].
  destruct (throttled _ _ _); [done |].
  destruct (SaltForKeyword k) as [salt|e]; [|apply lists_failed].
  destruct (port_Put _ _ _ _ _) as [w [[]|text]]; [apply lists_published | apply lists_failed].
Qed.

Lemma evicted_sublist now hits : evict now hits `sublist_of` hits.
Proof.
  induction hits as [|h [|h2 hits] IH]; [done | done |]. cbn [evict]. destruct (over_cap _ _); [|done].
  by apply sublist_cons.
Qed.
Lemma fit_keeps now h : IH (fitHitToCap now h) = IH h.
Proof.
  unfold fitHitToCap. apply (iter_nat_inv (fit_step now) (λ x, IH x = IH h)); [done |].
  intros x y Hx Hy. unfold fit_step in Hy. destruct (_ && _); [|done]. injection Hy as <-. done.
Qed.
Lemma fit_single_keys now hits : IH <$> fit_single now hits = IH <$> hits.
Proof. destruct hits as [|h [|]]; try done. simpl. by rewrite fit_keeps. Qed.

Lemma AddHit_lists now m k hit m' n kw ih :
  AddHit now m k hit = Ok (m', n) → lists m' kw ih →
  lists m kw ih ∨ (kw = k ∧ ih = IH hit).
Proof.
  unfold AddHit. case_bool_decide as Hk; [done |]. intros Ha. apply Ok_inj in Ha. injection Ha as <- _.
  rewrite lists_set. case_decide as Hkw; [subst | by left]. cbn [e_Hits with_hits].
  rewrite fit_single_keys. fold (entry_of m k). intros Hin.
  assert (Hi : ih ∈ IH <$> upsert (entry_of m k) hit).
  { eapply elem_of_sublist; [exact Hin | apply fmap_sublist, evicted_sublist]. }
  rewrite upsert_keys in Hi. unfold add_new in Hi. case_bool_decide; [by left |].
  apply elem_of_app in Hi as [?| ->%list_elem_of_singleton]; [by left | by right].
Qed.

Lemma lists_listed m kw ih : lists m kw ih ↔ ∃ h, Manifest.listed m kw h ∧ IH h = ih.
Proof.
  unfold lists, entry_of, Manifest.listed. rewrite list_elem_of_fmap. split.
  - intros (h & -> & Hh). destruct (Entries m !! kw) as [e|] eqn:E; [|by apply elem_of_nil in Hh].
    exists h. split; [by exists e | done].
  - intros (h & (e & He & Hh) & <-). exists h. by rewrite He.
Qed.
Lemma RemoveAllHits_lists m ih0 kw ih :
  len ih0 ≠ 0 → lists (RemoveAllHits m ih0).1 kw ih ↔ lists m kw ih ∧ ih ≠ ih0.
Proof.
  intros Hl. rewrite !lists_listed. split.
  - intros (h & Hh & <-). apply RemoveAllHits_listed in Hh as [Hh Hn]; [|done]. split; [by exists h | done].
  - intros [(h & Hh & <-) Hn]. exists h. split; [by apply RemoveAllHits_listed | done].
Qed.

Lemma save_lk e s : lk (save e s).1 = lk s.
Proof. unfold save. by destruct (Save _ _ _). Qed.

Lemma publish_keyword_lists e hit s i k kw ih :
  lists (manifest (lk (publish_keyword e hit s (i, k)))) kw ih →
  lists (manifest (lk s)) kw ih ∨ (kw = k ∧ ih = IH hit).
Proof.
  unfold publish_keyword. destruct (AddHit _ _ _ _) as [[m n]|] eqn:E; [|by left].
  rewrite publishOne_lists. simpl. by apply (AddHit_lists _ _ _ _ _ _ _ _ E).
Qed.
Lemma publish_all_lists e hit l s kw ih :
  lists (manifest (lk (foldl (publish_keyword e hit) s l))) kw ih →
  lists (manifest (lk s)) kw ih ∨ (kw ∈ l.*2 ∧ ih = IH hit).
Proof.
  revert s. induction l as [|[i k] l IHl]; intros s; [by left |]. cbn [foldl].
  intros [Hk|[Hin ->]]%IHl; [|by right; split; [right |]].
  apply publish_keyword_lists in Hk as [?|[-> ->]]; [by left | right]. split; [by left | done].
Qed.
Lemma refresh_all_lists e l s kw ih :
  lists (manifest (lk (foldl (refresh_keyword e) s l))) kw ih ↔ lists (manifest (lk s)) kw ih.
Proof.
  revert s. induction l as [|ik l IHl]; intros s; [done |]. cbn [foldl]. rewrite IHl.
  apply publishOne_lists.
Qed.
Lemma imap_pair_snd {A} (l : list A) : (imap pair l).*2 = l.
Proof. rewrite <-list_fmap_id, fmap_imap. rewrite list_fmap_id. apply list_eq. intros i. rewrite list_lookup_imap. by destruct (l !! i). Qed.

#[export] Program Instance legacy_spec `{Utf8.Unicode} : BackendSpec (legacy W) := {|
  listed s kw ih := lists (manifest (lk s)) kw ih
|}.
Next Obligation.
  intros U e kws hit s kw ih. cbn [Publish legacy_backend]. unfold legacy_Publish. rewrite save_lk.
  intros [?|[Hin ->]]%publish_all_lists; [by left | right]. rewrite imap_pair_snd in Hin.
  split; [done | exists kw; auto].
Qed.
Next Obligation.
  intros U e s kw ih. cbn [Refresh legacy_backend]. unfold legacy_Refresh.
  destruct (reached e); rewrite ?save_lk; apply refresh_all_lists.
Qed.
Next Obligation.
  intros U e ih0 s kw ih. cbn [Retract legacy_backend]. unfold legacy_Retract.
  destruct (RemoveAllHits _ _) as [m touched] eqn:E.
  replace m with (RemoveAllHits (manifest (lk s)) (sl ih0)).1 by by rewrite E.
  rewrite <-RemoveAllHits_lists by by rewrite len_sl. by destruct (0 <? touched); rewrite ?save_lk.
Qed.
Next Obligation.
  intros U e pub tok s kw ih. cbn [Lookup legacy_backend]. unfold legacy_Lookup.
  destruct (SaltForKeyword tok); [|done]. by destruct (port_Get _ _ _).
Qed.
Next Obligation. intros U e s kw ih. cbn [Close legacy_backend]. by rewrite save_lk. Qed.
End legacy_spec.

(** ** The worker over any backend *)
Section worker.
Context {S : Type} `{Utf8.Unicode} {BE : RecordBackend S} {SP : BackendSpec S}.

(** A task for the infohash is waiting. *)
Definition pending (ih : bytes) (p : Publisher S) : Prop := ih ∈ InfoHash <$> tasks p.

Lemma handleTask_listed e t b kw ih :
  listed (handleTask e t b) kw ih → listed b kw ih ∨ ih = InfoHash t.
Proof.
  unfold handleTask. destruct (negb _); [by left |].
  destruct (Token.Tokenize (Name t)) as [|k kws]; [by left |].
  intros [?|[-> _]]%publish_listed; [by left | by right].
Qed.

Lemma work_gone p p' ih :
  work p p' → ¬ pending ih p → (∀ kw, ¬ listed (backend p) kw ih) →
  ¬ pending ih p' ∧ ∀ kw, ¬ listed (backend p') kw ih.
Proof.
  intros [e t ts q _ Ht|e q _]; intros Hp Hl.
  - unfold pending in Hp. rewrite Ht, fmap_cons, not_elem_of_cons in Hp. destruct Hp as [Hne Hp].
    split; [done |]. simpl. intros kw [?| ->]%handleTask_listed; [by apply (Hl kw) | done].
  - split; [done |]. simpl. intros kw. rewrite refresh_listed. apply Hl.
Qed.

(** What may happen after a retraction: the worker's steps, tasks for other
    infohashes, other retractions, the stop. *)
Inductive later (ih : bytes) : Publisher S → Publisher S → Prop :=
  | later_work p p' : work p p' → later ih p p'
  | later_submit t p : InfoHash t ≠ ih → later ih p (Submit t p)
  | later_retract e ih' p : later ih p (Publisher_Retract e ih' p)
  | later_stop e p : later ih p (Stop e p).

Lemma later_gone p p' ih :
  later ih p p' → ¬ pending ih p → (∀ kw, ¬ listed (backend p) kw ih) →
  ¬ pending ih p' ∧ ∀ kw, ¬ listed (backend p') kw ih.
Proof.
  intros [q q' Hw|t q Ht|e ih' q|e q] Hp Hl.
  - by eapply work_gone.
  - unfold Submit. destruct (_ <? _); [|done]. split; [|done]. unfold pending. simpl.
    rewrite fmap_app. unfold pending in Hp. set_solver.
  - split; [done |]. simpl. intros kw [? _]%retract_listed. by apply (Hl kw).
  - split; [done |]. simpl. intros kw ?%close_listed. by apply (Hl kw).
Qed.

End worker.

(** ** Publishing into the in-memory DHT *)
Section found.
Context {B : Bencode KeywordValue} {MB : MarshalBytes} `{ManifestJson, MarshalError}.
Implicit Types (s : legacy Memory.SharedMemoryStore).
Import Memory Utf8.

Definition same_config (b b' : legacyKeyword) : Prop :=
  put b' = put b ∧ minPutInterval b' = minPutInterval b.

(** The keyword may be put now. *)
Definition due (t : Z) (b : legacyKeyword) (kw : bytes) : bool :=
  match Entries (manifest b) !! kw with Some e => negb (throttled t b e) | None => true end.

(** What one keyword's publication touches: its entry and its target. *)
Record touches (kw : bytes) s s' : Prop := {
  t_config : same_config (lk s) (lk s');
  t_wf : wf (manifest (lk s'));
  t_entries kw' : kw' ≠ kw → Entries (manifest (lk s')) !! kw' = Entries (manifest (lk s)) !! kw';
  t_store t : t ≠ target (put (lk s)) kw → store (dht s') !! t = store (dht s) !! t
}.

(** The hits of the keyword and what the DHT holds under it. *)
Definition outcome (e : env) (i : nat) (kw : bytes) (hit : KeywordHit) (old : option ManifestEntry) s' : Prop :=
  ∃ entry,
    Entries (manifest (lk s')) !! kw = Some entry ∧ hits_ok (e_Hits entry) ∧
    e_Hits entry = fit_single (unix (started e i))
      (evict (unix (started e i)) (upsert (e_Hits (default empty_entry old)) hit)) ∧
    LastPublished entry = Some (finished e i) ∧ LastError entry = [] ∧
    ∃ it, store (dht s') !! target (put (lk s')) kw = Some it ∧ value it = value_of (e_Hits entry).

Lemma publish_keyword_spec e i kw hit s :
  wf (manifest (lk s)) → wf_hit hit → era (unix (started e i)) → 1 ≤ len kw ≤ MaxSaltBytes →
  let s' := publish_keyword e hit s (i, kw) in
  touches kw s s' ∧
  (if due (started e i) (lk s) kw then outcome e i kw hit (Entries (manifest (lk s)) !! kw) s'
   else dht s' = dht s ∧
        (LastPublished <$> Entries (manifest (lk s')) !! kw =
         LastPublished <$> Entries (manifest (lk s)) !! kw)).
Proof.
  intros Hm Hh Hn Hlen. unfold publish_keyword.
  set (now := unix (started e i)). set (old := Entries (manifest (lk s)) !! kw).
  assert (Hkw : kw ≠ []) by (intros ->; rewrite len_nil in Hlen; lia).
  set (kept := fit_single now (evict now (upsert (e_Hits (default empty_entry old)) hit))).
  set (entry := with_hits (default empty_entry old) kept).
  assert (Ha : AddHit now (manifest (lk s)) kw hit = Ok (set_entry (manifest (lk s)) kw entry, len kept)).
  { unfold AddHit. by rewrite bool_decide_eq_false_2. }
  rewrite Ha. pose proof (AddHit_wf _ _ _ _ _ _ Hn Hm Hh Ha) as Hm'.
  set (m := set_entry (manifest (lk s)) kw entry) in *.
  assert (Hek : Entries m !! kw = Some entry) by apply lookup_insert_eq.
  assert (Hother : ∀ kw', kw' ≠ kw → Entries m !! kw' = Entries (manifest (lk s)) !! kw').
  { intros kw' Hne. by apply lookup_insert_ne. }
  destruct (wf_lookup m kw entry Hm' Hek) as (Hne & Hnd & Hw & Hf).
  assert (Hdue : due (started e i) (lk s) kw =
                 negb (throttled (started e i) (lk (set_manifest m s)) entry)).
  { unfold due. fold old. unfold entry, throttled. simpl. destruct old as [e0|]; [done |]. simpl.
    by rewrite andb_false_r. }
  unfold publishOne. unfold Snapshot. change (manifest (lk (set_manifest m s))) with m. rewrite Hek, Hdue.
  destruct (throttled _ _ _) eqn:Et; cbn [negb].
  { split; [by split |]. split; [done |]. change (manifest (lk (set_manifest m s))) with m.
    rewrite Hek. unfold entry in Et |- *. destruct old as [e0|]; [done |].
    unfold throttled in Et. simpl in Et. by rewrite andb_false_r in Et. }
  unfold SaltForKeyword. destruct (Z.eqb_spec (len kw) 0) as [|_]; [lia |].
  destruct (Z.ltb_spec MaxSaltBytes (len kw)) as [|_]; [lia |]. cbn [negb].
  unfold port_Put, port, Put. fold now.
  destruct (proj1 (encode_fits now kept Hn (hits_ok_wire _ Hw)) Hf) as [b Hb].
  change (e_Hits entry) with kept. rewrite Hb. cbn [set_dht lk dht].
  unfold MarkPublished. change (manifest (lk (set_manifest m s))) with m. rewrite Hek.
  split; [split |].
  - done.
  - simpl. apply wf_set; [done | done | by split].
  - intros kw' Hne'. simpl. rewrite lookup_insert_ne by done. by apply Hother.
  - intros t Ht. simpl. by rewrite lookup_insert_ne.
  - eexists. simpl. rewrite !lookup_insert_eq. split; [done |]. simpl.
    split; [by split |]. do 3 (split; [done |]). eexists. split; [done | done].
Qed.

(** Publishing keywords that are all others leaves a keyword alone. *)
Lemma publish_others e hit l s kw :
  wf (manifest (lk s)) → wf_hit hit →
  Forall (λ ik : nat * bytes, era (unix (started e ik.1)) ∧ 1 ≤ len ik.2 ≤ MaxSaltBytes ∧
            ik.2 ≠ kw ∧ target (put (lk s)) ik.2 ≠ target (put (lk s)) kw) l →
  let s' := foldl (publish_keyword e hit) s l in
  same_config (lk s) (lk s') ∧ wf (manifest (lk s')) ∧
  Entries (manifest (lk s')) !! kw = Entries (manifest (lk s)) !! kw ∧
  store (dht s') !! target (put (lk s)) kw = store (dht s) !! target (put (lk s)) kw.
Proof.
  revert s. induction l as [|[i k] l IHl]; intros s Hm Hh Hl; [done |].
  apply Forall_cons in Hl as [(Hn & Hlen & Hne & Htg) Hl]. cbn [foldl].
  destruct (publish_keyword_spec e i k hit s Hm Hh Hn Hlen) as [[[Hp Hmi] Hm1 He Hst] _].
  set (s1 := publish_keyword e hit s (i, k)) in *.
  destruct (IHl s1 Hm1 Hh) as ([Hp2 Hmi2] & Hm2 & He2 & Hst2); [by rewrite Hp |].
  rewrite Hp in Hst2. split; [split; congruence |]. split; [done |]. split.
  - rewrite He2. by apply He.
  - rewrite Hst2. by apply Hst.
Qed.

Lemma legacy_Lookup_eq e kw s :
  1 ≤ len kw ≤ MaxSaltBytes →
  (legacy_Lookup e (put (lk s)) kw s).2 =
    match store (dht s) !! target (put (lk s)) kw with
    | Some it => Ok (default [] (Hits (value it)))
    | None => Err (ErrDht (str "dhtindex: not found"))
    end.
Proof.
  intros Hlen. unfold legacy_Lookup, SaltForKeyword.
  destruct (Z.eqb_spec (len kw) 0) as [|_]; [lia |].
  destruct (Z.ltb_spec MaxSaltBytes (len kw)) as [|_]; [lia |]. cbn [negb].
  unfold port_Get, port, Get. by destruct (store _ !! _).
Qed.

Lemma Forall_imap_pair {A} (P : nat * A → Prop) (g : nat → nat) l :
  (∀ j x, x ∈ l → P (g j, x)) → Forall P (imap (λ j x, (g j, x)) l).
Proof.
  intros HP. apply Forall_lookup_2. intros j [n x] Hx. rewrite list_lookup_imap in Hx.
  destruct (l !! j) as [y|] eqn:Hy; [|done]. injection Hx as <- <-. apply HP.
  by eapply list_elem_of_lookup_2.
Qed.
Lemma imap_pair_split {A} (l1 l2 : list A) x :
  imap pair (l1 ++ x :: l2) =
    imap (λ j y, (j, y)) l1 ++ (length l1, x) :: imap (λ j y, (S (length l1 + j), y)) l2.
Proof.
  rewrite imap_app. cbn [imap]. rewrite Nat.add_0_r. do 2 f_equal. apply imap_ext.
  intros j y _. simpl. by rewrite Nat.add_succ_r.
Qed.

(** The publication of [kw] among the other keywords. *)
Lemma publish_among e hit s l1 kw l2 :
  wf (manifest (lk s)) → wf_hit hit → (∀ i, era (unix (started e i))) →
  (∀ x, x ∈ l1 ++ kw :: l2 → 1 ≤ len x ≤ MaxSaltBytes) →
  (∀ x, x ∈ l1 ++ l2 → x ≠ kw ∧ target (put (lk s)) x ≠ target (put (lk s)) kw) →
  let s' := foldl (publish_keyword e hit) s (imap pair (l1 ++ kw :: l2)) in
  put (lk s') = put (lk s) ∧
  (if due (started e (length l1)) (lk s) kw
   then outcome e (length l1) kw hit (Entries (manifest (lk s)) !! kw) s'
   else store (dht s') !! target (put (lk s)) kw = store (dht s) !! target (put (lk s)) kw ∧
        LastPublished <$> Entries (manifest (lk s')) !! kw =
          LastPublished <$> Entries (manifest (lk s)) !! kw).
Proof.
  intros Hm Hh Hclock Hlen Hother. cbv zeta. rewrite imap_pair_split, foldl_app. cbn [foldl].
  destruct (publish_others e hit (imap (λ j y, (j, y)) l1) s kw Hm Hh) as ([Hp1 Hi1] & Hm1 & He1 & Hs1).
  { apply (Forall_imap_pair _ (λ j, j)). intros j x Hx. split; [apply Hclock |].
    split; [apply Hlen; set_solver | apply Hother; set_solver]. }
  set (s1 := foldl _ s _) in *. set (n := length l1).
  destruct (publish_keyword_spec e n kw hit s1 Hm1 Hh (Hclock n)) as [[[Hp2 Hi2] Hm2 _ Hst2] Hout].
  { apply Hlen. set_solver. }
  set (s2 := publish_keyword e hit s1 (n, kw)) in *.
  destruct (publish_others e hit (imap (λ j y, (S (n + j), y)) l2) s2 kw Hm2 Hh) as ([Hp3 Hi3] & Hm3 & He3 & Hs3).
  { apply (Forall_imap_pair _ (λ j, S (n + j))). intros j x Hx. split; [apply Hclock |].
    split; [apply Hlen; set_solver |]. cbn [snd]. rewrite Hp2, Hp1. apply Hother. set_solver. }
  set (s3 := foldl _ s2 _) in *. rewrite Hp2, Hp1 in Hs3. rewrite Hp1 in Hst2.
  assert (Hd : due (started e n) (lk s1) kw = due (started e n) (lk s) kw).
  { unfold due, throttled. by rewrite He1, Hi1. }
  rewrite Hd in Hout. split; [congruence |]. destruct (due _ _ _).
  - destruct Hout as (entry & He & Hok & Hhits & Hlp & Hle & it & Hit & Hval).
    exists entry. rewrite He3. split; [done |]. split; [done |]. rewrite <-He1. split; [done |].
    split; [done |]. split; [done |]. exists it. rewrite Hp3. split; [|done].
    rewrite Hp2, Hp1 in Hit |- *. by rewrite Hs3.
  - destruct Hout as [Hdht Hlp]. split; [by rewrite Hs3, Hdht, Hs1 | by rewrite He3, Hlp, He1].
Qed.

(** [C21] What is published is found.  After a torrent's hit has been published
    under its keywords, a lookup of each keyword through the publisher's key
    answers exactly the hits the manifest has for it, the new torrent last among
    them, provided no two of the keywords share a DHT target; the keyword's
    publication time is then the end of its put.  A keyword that was put less than
    the minimal interval ago is not put again: what the DHT answers for it is
    unchanged and so is its publication time. *)
Theorem published_is_found (e : env) (keywords : list bytes) (hit : KeywordHit)
    (s : legacy SharedMemoryStore) (Hm : wf (manifest (lk s))) (Hh : wf_hit hit)
    (Hnd : NoDup keywords) (Hclock : ∀ i, era (unix (started e i)))
    (Hlen : ∀ kw, kw ∈ keywords → 1 ≤ len kw ≤ MaxSaltBytes)
    (Hcol : ∀ kw kw', kw ∈ keywords → kw' ∈ keywords →
       target (put (lk s)) kw = target (put (lk s)) kw' → kw = kw') :
  let s' := (Publish e keywords hit s).1 in
  ∀ i kw, keywords !! i = Some kw →
    let old := entry_of (manifest (lk s)) kw in
    if due (started e i) (lk s) kw then
      ∃ entry, Entries (manifest (lk s')) !! kw = Some entry ∧
        (Lookup e (put (lk s)) kw s').2 = Ok (e_Hits entry) ∧
        e_Hits entry ≠ [] ∧ NoDup (IH <$> e_Hits entry) ∧
        LastPublished entry = Some (finished e i) ∧
        (IH hit ∉ IH <$> old →
           ∃ older n, e_Hits entry = older ++ [with_N hit n] ∧ n `prefix_of` N hit)
    else
      (Lookup e (put (lk s)) kw s').2 = (Lookup e (put (lk s)) kw s).2 ∧
      LastPublished <$> Entries (manifest (lk s')) !! kw =
        LastPublished <$> Entries (manifest (lk s)) !! kw.
Proof.
  intros s' i kw Hi old. assert (Hkw : kw ∈ keywords) by by eapply list_elem_of_lookup_2.
  pose proof (take_drop_middle _ _ _ Hi) as Hsplit.
  assert (Hl : length (take i keywords) = i).
  { rewrite length_take. apply lookup_lt_Some in Hi. lia. }
  set (l1 := take i keywords) in *. set (l2 := drop (S i) keywords) in *. rewrite <-Hsplit in Hnd.
  assert (Hother : ∀ x, x ∈ l1 ++ l2 → x ≠ kw ∧ target (put (lk s)) x ≠ target (put (lk s)) kw).
  { intros x Hx. rewrite <-Permutation_middle in Hnd. apply NoDup_cons in Hnd as [Hnin _].
    assert (Hne : x ≠ kw) by (intros ->; done). split; [done |]. intros Ht. apply Hne.
    apply Hcol; [rewrite <-Hsplit; set_solver | done | done]. }
  destruct (publish_among e hit s l1 kw l2 Hm Hh Hclock) as [Hput Hres];
    [intros x; rewrite Hsplit; apply Hlen | done |].
  rewrite Hsplit in Hput, Hres. rewrite Hl in Hres.
  set (s1 := foldl _ s _) in *.
  assert (Hs' : s' = {| lk := lk s1; dht := dht s1; disk := disk s' |}).
  { unfold s', Publish, legacy_backend, legacy_Publish, save. fold s1. by destruct (Save _ _ _). }
  assert (Hlook : (Lookup e (put (lk s)) kw s').2 = (legacy_Lookup e (put (lk s1)) kw s1).2).
  { rewrite Hs', Hput. unfold Lookup, legacy_backend, legacy_Lookup. cbn [dht].
    destruct (SaltForKeyword kw); [|done]. by destruct (port_Get _ _ (dht s1)). }
  rewrite Hlook, legacy_Lookup_eq by by apply Hlen.
  replace (Entries (manifest (lk s')) !! kw) with (Entries (manifest (lk s1)) !! kw) by by rewrite Hs'.
  destruct (due _ _ _).
  - destruct Hres as (entry & He & (Hne & Hnd' & _) & Hhits & Hlp & _ & it & Hit & Hval).
    exists entry. rewrite Hit, Hval. split; [done |]. split; [done |]. split; [done |].
    split; [done |]. split; [done |]. intros Hnew. rewrite Hhits.
    apply new_hit_kept; [apply Hclock | by apply entry_of_ok | done | done].
  - destruct Hres as [Hst Hlp]. split; [|done]. rewrite Hput, Hst. symmetry.
    by apply legacy_Lookup_eq, Hlen.
Qed.
End found.

(** ** Concrete nodes *)
Module Examples.
Import Memory Utf8.
#[local] Existing Instance byte_codec.
#[local] Existing Instance toy_json.
#[local] Instance some_error : MarshalError := [].

Definition now : Z := 1700000000 * Second.
Definition quiet : env := {|
  started := λ _, now; finished := λ i, now + (Z.of_nat i + 1) * Second;
  saving := Files.no_failure; order := []; reached := None; shuffle := id; shuffle_perm l := Permutation_refl l
|}.
Definition fresh : legacy Memory.SharedMemoryStore := {|
  lk := NewLegacyKeyword (copy_arr 32 [x07]) (new_manifest []) DefaultPublisherOptions;
  dht := Memory.NewSharedMemoryStore; disk := ∅
|}.
Definition hit : KeywordHit := plain_hit x01 (str "Ubuntu Linux").
Definition words : list bytes := [str "ubuntu"; str "linux"].


Lemma quiet_clock i : era (unix (started quiet i)).
Proof. split; vm_compute; congruence. Qed.

Lemma published_is_found_witness :
  ∃ entry, (Lookup quiet (put (lk fresh)) (str "linux") (Publish quiet words hit fresh).1).2
             = Ok (e_Hits entry) ∧
    ∃ older n, e_Hits entry = older ++ [with_N hit n] ∧ n `prefix_of` N hit.
Proof.
  assert (Hw : wf (manifest (lk fresh))) by apply map_Forall_empty.
  assert (Hn : NoDup words) by (apply (bool_decide_unpack _); vm_compute; exact I).
  destruct (@published_is_found byte_codec byte_codec_bytes toy_json some_error quiet words hit fresh
    Hw (sample_hit_ok _ _) Hn quiet_clock) with (i := 1%nat) (kw := str "linux")
    as (entry & _ & Hl & _ & _ & _ & Hnew).
  - intros kw Hkw. apply elem_of_cons in Hkw as [->|Hkw%list_elem_of_singleton];
      [split; vm_compute; discriminate | subst kw; split; vm_compute; discriminate].
  - intros kw kw' Hkw Hkw' Ht. apply (f_equal sl) in Ht.
    apply elem_of_cons in Hkw as [->|Hkw%list_elem_of_singleton];
      apply elem_of_cons in Hkw' as [->|Hkw'%list_elem_of_singleton]; subst; try reflexivity;
      vm_compute in Ht; discriminate Ht.
  - reflexivity.
  - exists entry. split; [exact Hl |]. apply Hnew. intros Hin. by apply elem_of_nil in Hin.
Defined.

(** ** The queue is not searched *)
Definition task : PublishTask :=
  {| InfoHash := replicate 20 x01; Name := str "Ubuntu Linux"; Seeders := 0; FileCount := 1; SizeBytes := 9 |}.
Definition worker : Publisher (legacy Memory.SharedMemoryStore) :=
  Submit task (NewPublisher fresh DefaultPublisherOptions).
Definition listed_keywords (p : Publisher (legacy Memory.SharedMemoryStore)) : list bytes :=
  Keywords (manifest (lk (backend p))).

(** A torrent that is removed while its task still waits is published afterwards,
    and nothing will retract it again. *)
Example retract_misses_the_queue :
  let p := Publisher_Retract quiet (copy_arr 20 (replicate 20 x01)) worker in
  tasks p = [task] ∧
  listed_keywords (with_backend p (handleTask quiet task (backend p))) = [str "linux"; str "ubuntu"].
Proof. split; [reflexivity | vm_compute; reflexivity]. Qed.

(** ** The budget of a keyword is forgotten with its entry *)
Definition soon : env := {|
  started := λ _, now + 60 * Second; finished := λ i, now + (Z.of_nat i + 61) * Second;
  saving := Files.no_failure; order := []; reached := None; shuffle := id; shuffle_perm l := Permutation_refl l
|}.
Definition puts (s : legacy Memory.SharedMemoryStore) : option Z :=
  seq <$> store (dht s) !! target (put (lk s)) (str "linux").

(** A keyword is put twice within a minute when its only torrent is retracted in
    between, once when it is not. *)
Example retract_resets_the_budget :
  let s1 := (Publish quiet words hit fresh).1 in
  let s2 := (Publish soon words hit (Retract soon (copy_arr 20 (IH hit)) s1).1).1 in
  (puts s1, puts (Publish soon words hit s1).1, puts s2) = (Some 1, Some 1, Some 2).
Proof. vm_compute. reflexivity. Qed.

End Examples.
End Backend.
