(* ===== verification/Aggregate.v ===== *)
(** * The aggregate backend (internal/dhtindex/aggregate.go, aggregate_torrent.go)

    The other implementation of [RecordBackend]: a publisher's own hits as signed
    records, packed into a signed SNAGG tree that answers its own lookups and is
    handed to a distribution port.  The file composes the contracts record and
    snagg with the seam of [Backend]; what a lookup answers is compared with a
    set of pairs of keyword and infohash. *)

From S2P Require Import Prelude GoInt Sha256 Externals Instances Record Snagg SnaggTree SnaggBuild SnaggFind Utf8 Hex Files DhtSchema Manifest Backend.
Open Scope Z_scope.

(** ** The ports

    [TreePublisher] and [TreeResolver], an error being its message. *)
Class TreePort (W : Type) := {
  port_PublishTree : bytes → bytes → array 32 → W → W * result bytes unit;
  port_RetractTree : W → W * result bytes unit;
  port_ResolveTree : array 32 → W → W * result bytes (option SnaggTree.Tree)
}.

Module Aggregate.
Import Record.Record Snagg SnaggTree SnaggBuild SnaggFind Backend.

(** ** Wrapping a tree as a torrent (aggregate_torrent.go) *)
Definition SnaggPieceLength : Z := MinPieceSize.

(** [metainfo.GeneratePieces] and the marshalling of the info dictionary. *)
Class Metainfo := {
  GeneratePieces : bytes → Z → option bytes;
  marshal_info : bytes → Z → Z → bytes → option bytes   (** name, length, piece length, pieces *)
}.
Inductive wrap_error : Type := ErrEmptyPayload | ErrNotAligned | ErrPieces | ErrInfo | ErrCommit | ErrOpen (e : Snagg.error).

Definition WrapSnaggTorrent `{Metainfo} (name snaggBytes : bytes) : result wrap_error bytes :=
  check (negb (len snaggBytes =? 0)) ! ErrEmptyPayload;
  check (Z.rem (len snaggBytes) SnaggPieceLength =? 0) ! ErrNotAligned;
  match GeneratePieces snaggBytes SnaggPieceLength with
  | None => Err ErrPieces
  | Some pieces =>
    match marshal_info name (len snaggBytes) SnaggPieceLength pieces with
    | None => Err ErrInfo
    | Some infoBytes => Ok infoBytes
    end
  end.

Section verified.
Context `{Bencode recordWire, Ed25519}.

Definition OpenVerifiedTree (data expectedCommit : bytes) : result wrap_error Tree :=
  match OpenBTree (BytesPageSource data SnaggPieceLength) with
  | Err e => Err (ErrOpen e)
  | Ok tree =>
    if (len expectedCommit =? 32) && negb (bool_decide (sl (Fingerprint (trailer tree)) = expectedCommit))
    then Err ErrCommit else Ok tree
  end.

(** Only the last page is read: opening compares the commit with the fingerprint
    the trailer claims, and says nothing of the records. *)
Lemma OpenVerifiedTree_last_page d d' c :
  len d = len d' →
  let last := Z.to_nat ((len d / SnaggPieceLength - 1) * SnaggPieceLength) in
  drop last d = drop last d' →
  is_ok (OpenVerifiedTree d c) = is_ok (OpenVerifiedTree d' c).
Proof.
  intros Hl last Hd. unfold OpenVerifiedTree, OpenBTree. cbn [NumPieces Piece BytesPageSource].
  assert (Hn : BytesNumPieces d' SnaggPieceLength = BytesNumPieces d SnaggPieceLength)
    by (unfold BytesNumPieces; by rewrite Hl).
  rewrite Hn. set (n := BytesNumPieces d SnaggPieceLength).
  destruct (3 <=? n) eqn:E3; [|done]. apply Z.leb_le in E3.
  assert (Hp : BytesPiece d' SnaggPieceLength (n - 1) = BytesPiece d SnaggPieceLength (n - 1)).
  { unfold BytesPiece. rewrite Hn. fold n. destruct (negb _); [|done]. f_equal. unfold slice. f_equal.
    symmetry. exact Hd. }
  rewrite Hp. destruct (BytesPiece d SnaggPieceLength (n - 1)) as [pg|]; [|done]. rewrite !bind_ok.
  destruct (DecodeTrailer pg) as [tr|]; [|done]. rewrite !bind_ok.
  destruct (VerifyTrailerSig tr); [|done]. rewrite !bind_ok.
  destruct (NumPages tr =? n); [|done]. destruct (RootPieceIndex tr =? 0); [|done].
  cbn [trailer]. by destruct (_ && _).
Qed.
End verified.

(** ** The backend *)
Record aggregatePPMI := {
  priv : option bytes;              (** [None]: read-only *)
  pub : array 32;
  records : gmap (array 32) Record; (** by [ElementID] *)
  tree : option bytes;
  fp : array 32;
  dirty : bool;
  gen : Z;
  publisher : bool; resolver : bool (** whether the ports are wired *)
}.
Definition newAggregatePPMI (priv : option bytes) (pub : array 32) : aggregatePPMI := {|
  priv := priv; pub := pub; records := ∅; tree := None; fp := zero_arr 32; dirty := false;
  gen := 0; publisher := false; resolver := false
|}.

(** The backend with what its ports work on. *)
Record aggregate (W : Type) := { ag : aggregatePPMI; world : W }.
Arguments ag {W} _.
Arguments world {W} _.

Definition SetDistribution (p r : bool) (a : aggregatePPMI) : aggregatePPMI := {|
  priv := priv a; pub := pub a; records := records a; tree := tree a; fp := fp a; dirty := dirty a;
  gen := gen a; publisher := p || publisher a; resolver := r || resolver a
|}.

Definition treeName (a : aggregatePPMI) : bytes :=
  str "swartznet-aggregate-" ++ Hex.EncodeToString (take 8 (sl (pub a))) ++ str ".snagg".

Definition with_records (a : aggregatePPMI) (rs : gmap (array 32) Record) : aggregatePPMI := {|
  priv := priv a; pub := pub a; records := rs; tree := tree a; fp := fp a; dirty := true;
  gen := gen a; publisher := publisher a; resolver := resolver a
|}.
Definition rebuilt (a : aggregatePPMI) (t : option bytes) (f : array 32) : aggregatePPMI := {|
  priv := priv a; pub := pub a; records := records a; tree := t; fp := f; dirty := false;
  gen := u64 (gen a + 1); publisher := publisher a; resolver := resolver a
|}.

Section aggregate.
Context `{Utf8.Unicode, Bencode recordWire, Ed25519}.

(** The record of one keyword, when it gets one. *)
Definition signed (key : bytes) (pub : array 32) (ih : array 20) (now : Z) (kw : bytes)
    : option Record :=
  let kw := Utf8.strings_ToLower kw in
  if (len kw =? 0) || (Snagg.MaxKeywordBytes <? len kw) then None
  else match SignAndMine key pub kw ih now 0 with Some (Ok r) => Some r | _ => None end.
Definition insert_record (rs : gmap (array 32) Record) (r : Record) : gmap (array 32) Record :=
  <[ElementID r := r]> rs.

Definition publish_local (e : env) (keywords : list bytes) (hit : DhtSchema.KeywordHit)
    (a : aggregatePPMI) : aggregatePPMI :=
  match priv a with
  | None => a
  | Some key =>
    if negb (len (DhtSchema.IH hit) =? 20) then a
    else
      let ih := copy_arr 20 (DhtSchema.IH hit) in
      with_records a (foldl insert_record (records a)
        (omap (signed key (pub a) ih (unix (started e 0))) keywords))
  end.

Definition build_input (a : aggregatePPMI) (recs : list Record) : BuildInput := {|
  inRecords := recs; inPubKey := pub a; inPrivKey := priv a; inSeq := 1; inCreatedTs := 0;
  inMinPoWBits := 0; inPieceSize := MinPieceSize
|}.
Definition rebuildLocked (e : env) (a : aggregatePPMI) : aggregatePPMI :=
  if negb (dirty a) then a
  else
    let none := rebuilt a None (zero_arr 32) in
    if bool_decide (records a = ∅) then none
    else match priv a with
    | None => none
    | Some _ =>
      match BuildBTree (unix (started e 0)) (build_input a (shuffle e (map_to_list (records a)).*2)) with
      | Err _ => none
      | Ok built => rebuilt a (Some (outBytes built)) (outFingerprint built)
      end
    end.

Definition retract_local (e : env) (ih : array 20) (a : aggregatePPMI) : aggregatePPMI :=
  let rs := filter (λ kr, Ih kr.2 ≠ ih) (records a) in
  if bool_decide (rs = records a) then a else rebuildLocked e (with_records a rs).

(** A prefix query keeps the exact matches. *)
Definition hit_of (r : Record) : DhtSchema.KeywordHit :=
  {| DhtSchema.IH := sl (Ih r); DhtSchema.N := []; DhtSchema.S_ := 0; DhtSchema.F := 0;
     DhtSchema.Sz := 0 |}.
Definition exactHits (t : Tree) (token : bytes) : result error (list DhtSchema.KeywordHit) :=
  match Find t token with
  | Err e => Err (ErrTree e)
  | Ok recs => Ok (hit_of <$> List.filter (λ r, bool_decide (Kw r = token)) recs)
  end.

(** What another goroutine may do to the backend while the lock is free. *)
Inductive local : Type :=
  | LPublish (e : env) (keywords : list bytes) (hit : DhtSchema.KeywordHit)
  | LRetract (e : env) (ih : array 20)
  | LRebuild (e : env).     (** a self-lookup, or another refresh *)
Definition run_local (a : aggregatePPMI) (l : local) : aggregatePPMI :=
  match l with
  | LPublish e kws hit => publish_local e kws hit a
  | LRetract e ih => retract_local e ih a
  | LRebuild e => rebuildLocked e a
  end.

Section ports.
Context {W : Type} `{TreePort W}.
Implicit Types (s : aggregate W).

Definition set_ag (a : aggregatePPMI) s : aggregate W := {| ag := a; world := world s |}.

Definition distribute (name : bytes) (t : option bytes) (f : array 32) (w : W)
    : W * result bytes unit :=
  match t with
  | None => port_RetractTree w
  | Some b => port_PublishTree name b f w
  end.
Definition port_error {A} (r : result bytes A) : result error A :=
  match r with Ok a => Ok a | Err text => Err (ErrDht text) end.

(** [Refresh]: [during] is what happens while the tree is being distributed. *)
Definition agg_Refresh (e : env) (during : list local) s : aggregate W * result error unit :=
  let a1 := rebuildLocked e (ag s) in
  if negb (publisher a1) then (set_ag a1 s, Ok tt)
  else
    let '(w1, r1) := distribute (treeName a1) (tree a1) (fp a1) (world s) in
    let a2 := foldl run_local a1 during in
    match r1 with
    | Err text => ({| ag := a2; world := w1 |}, Err (ErrDht text))
    | Ok _ =>
      if negb (gen a2 =? gen a1) then
        let '(w2, r2) := distribute (treeName a1) (tree a2) (fp a2) w1 in
        ({| ag := a2; world := w2 |}, port_error r2)
      else ({| ag := a2; world := w1 |}, Ok tt)
    end.

Definition agg_Lookup (e : env) (indexerPub : array 32) (token : bytes) s
    : aggregate W * result error (list DhtSchema.KeywordHit) :=
  if negb (bool_decide (indexerPub = pub (ag s))) then
    if negb (resolver (ag s)) then (s, Ok [])
    else
      let '(w, r) := port_ResolveTree indexerPub (world s) in
      ({| ag := ag s; world := w |},
       match r with
       | Err _ | Ok None => Ok []
       | Ok (Some t) => exactHits t token
       end)
  else
    let a := rebuildLocked e (ag s) in
    (set_ag a s,
     match tree a with
     | None => Ok []
     | Some b =>
       match OpenBTree (BytesPageSource b MinPieceSize) with
       | Err err => Err (ErrTree err)
       | Ok t => exactHits t token
       end
     end).

Definition agg_Status s : PublisherStatus := {|
  PubKey := pub (ag s);
  TotalKeywords := Z.of_nat (size (list_to_set (Kw <$> (map_to_list (records (ag s))).*2) : gset bytes));
  TotalHits := Z.of_nat (size (records (ag s)));
  Keywords_ := []
|}.

#[export] Instance aggregate_backend : RecordBackend (aggregate W) := {|
  Publish e kws hit s := (set_ag (publish_local e kws hit (ag s)) s, Ok tt);
  Refresh e s := agg_Refresh e [] s;
  Retract e ih s := (set_ag (retract_local e ih (ag s)) s, Ok tt);
  Lookup := agg_Lookup;
  Status := agg_Status;
  Close e s := (s, Ok tt)
|}.
End ports.
End aggregate.


(** ** What is listed *)
Definition records_list (a : aggregatePPMI) : list Record := (map_to_list (records a)).*2.
Definition held (a : aggregatePPMI) (kw ih : bytes) : Prop :=
  ∃ r, r ∈ records_list a ∧ Kw r = kw ∧ sl (Ih r) = ih.

Lemma in_records a r : r ∈ records_list a ↔ ∃ id, records a !! id = Some r.
Proof.
  unfold records_list. rewrite list_elem_of_fmap. split.
  - intros ([id r'] & -> & Hin). apply elem_of_map_to_list in Hin. by exists id.
  - intros [id Hid]. exists (id, r). split; [done |]. by apply elem_of_map_to_list.
Qed.

Section listing.
Context `{Utf8.Unicode, Bencode recordWire, Ed25519}.

Lemma rebuild_records e a : records (rebuildLocked e a) = records a.
Proof. unfold rebuildLocked. by repeat case_match. Qed.

Lemma signed_fields key p ih now kw r :
  signed key p ih now kw = Some r →
  Kw r = Utf8.strings_ToLower kw ∧ Ih r = ih ∧ Pk r = p ∧ T r = now ∧ Pow r = 0 ∧
  1 ≤ len (Kw r) ≤ MaxKeywordBytes ∧ Sig r = ed25519_sign key (SigMessage r).
Proof.
  unfold signed. set (k := Utf8.strings_ToLower kw). pose proof (len_nonneg k).
  destruct ((len k =? 0) || _) eqn:E; [done |]. apply orb_false_iff in E as [E1 E2].
  apply Z.eqb_neq in E1. apply Z.ltb_ge in E2.
  unfold SignAndMine. change Record.Record.MaxKeywordBytes with MaxKeywordBytes.
  rewrite (proj2 (Z.ltb_ge (len k) 1)) by lia.
  rewrite (proj2 (Z.ltb_ge MaxKeywordBytes (len k))) by done. simpl. intros [= <-]. simpl.
  split_and!; try done; lia.
Qed.

Lemma insert_records_in rs m r :
  (∃ id, foldl insert_record m rs !! id = Some r) → (∃ id, m !! id = Some r) ∨ r ∈ rs.
Proof.
  revert m. induction rs as [|r0 rs IH]; intros m; [by left |]. cbn [foldl].
  intros [[id Hid]|Hin]%IH; [|right; by right]. unfold insert_record in Hid.
  apply lookup_insert_Some in Hid as [[_ <-]|[_ Hid]]; [right; by left | left; by exists id].
Qed.

Lemma publish_held e kws hit a kw ih :
  held (publish_local e kws hit a) kw ih →
  held a kw ih ∨ (ih = DhtSchema.IH hit ∧ ∃ kw0, kw0 ∈ kws ∧ kw = Utf8.strings_ToLower kw0).
Proof.
  unfold publish_local. destruct (priv a) as [key|]; [|by left].
  destruct (Z.eqb_spec (len (DhtSchema.IH hit)) 20) as [Hl|]; [|by left]. simpl.
  intros (r & Hr & <- & <-). apply in_records in Hr. cbn [records with_records] in Hr.
  apply insert_records_in in Hr as [Hr|Hr].
  - left. exists r. by rewrite in_records.
  - right. apply list_elem_of_omap in Hr as (kw0 & Hk0 & Hs). apply signed_fields in Hs as (-> & -> & _).
    split; [|by exists kw0]. apply sl_copy_arr. unfold len in Hl. lia.
Qed.

Lemma retract_held e ih0 a kw ih :
  held (retract_local e ih0 a) kw ih ↔ held a kw ih ∧ ih ≠ sl ih0.
Proof.
  unfold retract_local. set (rs := filter _ _).
  assert (Hrs : ∀ id r, rs !! id = Some r ↔ records a !! id = Some r ∧ Ih r ≠ ih0)
    by (intros; apply map_lookup_filter_Some).
  assert (Hiff : (∃ r, (∃ id, rs !! id = Some r) ∧ Kw r = kw ∧ sl (Ih r) = ih) ↔ held a kw ih ∧ ih ≠ sl ih0).
  { split.
    - intros (r & (id & [Hid Hn]%Hrs) & <- & <-). split.
      + exists r. rewrite in_records. split; [by exists id | done].
      + intros E%sl_inj. done.
    - intros ((r & Hr & <- & <-) & Hn). apply in_records in Hr as [id Hid]. exists r. split; [|done].
      exists id. apply Hrs. split; [done |]. by intros <-. }
  rewrite <-Hiff. unfold held. case_bool_decide as E.
  - rewrite E. by setoid_rewrite in_records.
  - setoid_rewrite in_records. by rewrite rebuild_records.
Qed.

Lemma held_rebuild e a kw ih : held (rebuildLocked e a) kw ih ↔ held a kw ih.
Proof. unfold held, records_list. by rewrite rebuild_records. Qed.

Context {W : Type} {TP : TreePort W}.

Lemma Refresh_ag e during (s : aggregate W) :
  publisher (ag s) = true → ag (agg_Refresh e during s).1 = foldl run_local (rebuildLocked e (ag s)) during.
Proof.
  intros Hp. unfold agg_Refresh. assert (Hpub : publisher (rebuildLocked e (ag s)) = true).
  { rewrite <-Hp. unfold rebuildLocked. by repeat case_match. }
  rewrite Hpub. cbn [negb]. destruct (distribute _ _ _ _) as [w1 [[]|]]; [|done].
  destruct (negb _); [|done]. by destruct (distribute _ _ _ _) as [w2 r2].
Qed.
Lemma Refresh_ag_alone e (s : aggregate W) :
  ag (agg_Refresh e [] s).1 = rebuildLocked e (ag s).
Proof.
  unfold agg_Refresh. destruct (negb (publisher _)); [done |].
  destruct (distribute _ _ _ _) as [w1 [[]|]]; [|done]. by rewrite Z.eqb_refl.
Qed.
Lemma Lookup_ag e p tok (s : aggregate W) :
  ag (agg_Lookup e p tok s).1 =
    if bool_decide (p = pub (ag s)) then rebuildLocked e (ag s) else ag s.
Proof.
  unfold agg_Lookup. case_bool_decide; [done |]. simpl. destruct (resolver _); [|done]. simpl.
  by destruct (port_ResolveTree _ _).
Qed.

#[export] Program Instance aggregate_spec : BackendSpec (aggregate W) := {|
  listed s kw ih := held (ag s) kw ih
|}.
Next Obligation.
  intros e kws hit s kw ih [?|(? & kw0 & ? & ?)]%publish_held; [by left | right].
  split; [done |]. exists kw0. auto.
Qed.
Next Obligation. intros e s kw ih. cbn [Refresh aggregate_backend]. by rewrite Refresh_ag_alone, held_rebuild. Qed.
Next Obligation. intros e ih0 s kw ih. apply retract_held. Qed.
Next Obligation.
  intros e p tok s kw ih. cbn [Lookup aggregate_backend]. rewrite Lookup_ag.
  case_bool_decide; [apply held_rebuild | done].
Qed.
Next Obligation. done. Qed.
End listing.

(** ** What a history publishes

    Bencode writes a record of a 64-byte keyword within 256 bytes: the fixed
    fields, the length prefixes and a ten-digit time take 170 bytes beside the
    keyword. *)
Class RecordFits `{Bencode recordWire} : Prop :=
  record_fits w b : len (wIH w) = 20 → len (wPk w) = 32 → len (wSig w) = 64 → wPow w = 0 →
    Manifest.era (wT w) → marshal w = Some b → len b ≤ 170 + len (wKw w).

Section history.
Context `{Utf8.Unicode} {B : Bencode recordWire} {BL : BencodeLaws recordWire} {RF : RecordFits}.
Context {Ed : Ed25519} {EdL : Ed25519Laws}.
Context (key : bytes) (p : array 32) (Hkey : ed25519_keypair key p).

(** The pairs of keyword and infohash a history leaves published. *)
Definition publishable (kw : bytes) : Prop := 1 ≤ len kw ≤ Snagg.MaxKeywordBytes.
#[export] Instance publishable_dec kw : Decision (publishable kw).
Proof. unfold publishable. apply _. Defined.
Definition abs (P : gset (bytes * bytes)) (l : local) : gset (bytes * bytes) :=
  match l with
  | LPublish _ kws hit =>
    if len (DhtSchema.IH hit) =? 20 then
      P ∪ list_to_set ((., DhtSchema.IH hit) <$> filter publishable (Utf8.strings_ToLower <$> kws))
    else P
  | LRetract _ ih => filter (λ q, q.2 ≠ sl ih) P
  | LRebuild _ => P
  end.

(** The records a history signs. *)
Definition made (l : local) : list Record :=
  match l with
  | LPublish e kws hit =>
    if len (DhtSchema.IH hit) =? 20
    then omap (signed key p (copy_arr 20 (DhtSchema.IH hit)) (unix (started e 0))) kws else []
  | _ => []
  end.
Definition all_made (ls : list local) : list Record := ls ≫= made.
Definition clock_ok (l : local) : Prop :=
  match l with LPublish e _ _ => Manifest.era (unix (started e 0)) | _ => True end.

Definition good (r : Record) : Prop := wf r ∧ Verify r = Ok tt ∧ encodable r.

Lemma signed_good ih now kw r : Manifest.era now → signed key p ih now kw = Some r → good r.
Proof.
  intros Hn Hs. apply signed_fields in Hs as (_ & _ & Hpk & Ht & Hpow & Hlen & Hsig).
  assert (Hwf : wf r).
  { unfold wf, is_i64, is_u64. rewrite Ht, Hpow. unfold Manifest.era in Hn. lia. }
  split; [done |]. split.
  - unfold Verify. by rewrite Hsig, Hpk, ed25519_verify_sign.
  - unfold encodable, EncodeRecord. rewrite (proj2 (Z.eqb_neq (len (Kw r)) 0)) by lia.
    rewrite (proj2 (Z.leb_le (len (Kw r)) MaxKeywordBytes)) by apply Hlen. simpl negb. cbn iota.
    destruct (marshal_total (to_wire r)) as [b Hb]; [by split; apply Hwf |]. rewrite Hb.
    assert (Hera : Manifest.era (wT (to_wire r))) by (simpl; by rewrite Ht).
    pose proof (record_fits (to_wire r) b (len_sl _) (len_sl _) (len_sl _) Hpow Hera Hb) as Hf.
    cbn [wKw to_wire] in Hf.
    rewrite (proj2 (Z.leb_le (len b) MaxRecordBytes)); [done |]. change MaxRecordBytes with 256.
    change MaxKeywordBytes with 64 in Hlen. lia.
Qed.

(** Distinct records of a history have distinct identities. *)
Definition identified (all : list Record) : Prop :=
  ∀ r1 r2, r1 ∈ all → r2 ∈ all → ElementID r1 = ElementID r2 → idPreimage r1 = idPreimage r2.

Definition built_from (a : aggregatePPMI) : Prop :=
  dirty a = false → len (records_list a) ≤ 2 ^ 30 →
  if bool_decide (records a = ∅) then tree a = None
  else ∃ now recs built, recs ≡ₚ records_list a ∧
    BuildBTree now (build_input a recs) = Ok built ∧
    tree a = Some (outBytes built) ∧ fp a = outFingerprint built.

Record inv (all : list Record) (P : gset (bytes * bytes)) (a : aggregatePPMI) : Prop := {
  i_priv : priv a = Some key;
  i_pub : pub a = p;
  i_ids id r : records a !! id = Some r → id = ElementID r ∧ r ∈ all;
  i_held kw ih : held a kw ih ↔ (kw, ih) ∈ P;
  i_built : built_from a
}.

Section all.
Context (all : list Record) (Hgood : ∀ r, r ∈ all → good r) (Hid : identified all).

Lemma rebuild_inv e P a : inv all P a → inv all P (rebuildLocked e a) ∧ dirty (rebuildLocked e a) = false.
Proof.
  intros [Hp Hpub Hids Hheld Hb]. unfold rebuildLocked.
  destruct (dirty a) eqn:Hd; [|by split]. simpl.
  case_bool_decide as He.
  { split; [|done]. split; try done. intros _ _. cbn [records rebuilt tree].
    by rewrite bool_decide_eq_true_2. }
  rewrite Hp. set (recs := shuffle e _).
  assert (Hperm : recs ≡ₚ records_list a) by apply shuffle_perm.
  destruct (BuildBTree _ _) as [built|err] eqn:Eb.
  - split; [|done]. split; try done. intros _ _. cbn [records rebuilt tree fp].
    rewrite bool_decide_eq_false_2 by done. by eexists _, recs, built.
  - exfalso. assert (Hok : is_ok (BuildBTree (unix (started e 0)) (build_input a recs)) = true).
    { apply BuildBTree_ok; [by vm_compute | |].
      - cbn [inRecords build_input]. intros Hn. rewrite Hn in Hperm. apply Permutation_nil in Hperm.
        apply He. apply map_empty. intros id. destruct (records a !! id) as [r|] eqn:E; [|done].
        assert (Hin : r ∈ records_list a) by (apply in_records; by exists id).
        rewrite Hperm in Hin. by apply elem_of_nil in Hin.
      - cbn [inRecords build_input]. apply Forall_forall. intros r Hr. rewrite Hperm, in_records in Hr.
        destruct Hr as [id Hr]. by apply Hgood, (Hids id). }
    by rewrite Eb in Hok.
Qed.

(** Records added to a map of records. *)
Definition heldm (m : gmap (array 32) Record) (kw ih : bytes) : Prop :=
  ∃ id r, m !! id = Some r ∧ Kw r = kw ∧ sl (Ih r) = ih.
Definition ids_ok (m : gmap (array 32) Record) : Prop :=
  ∀ id r, m !! id = Some r → id = ElementID r ∧ r ∈ all.

Lemma held_heldm a kw ih : held a kw ih ↔ heldm (records a) kw ih.
Proof.
  unfold held, heldm. setoid_rewrite in_records. split.
  - intros (r & [id Hr] & ?). by exists id, r.
  - intros (id & r & Hr & ?). exists r. split; [by exists id | done].
Qed.

Lemma insert_held m r kw ih :
  ids_ok m → r ∈ all →
  ids_ok (insert_record m r) ∧
  (heldm (insert_record m r) kw ih ↔ heldm m kw ih ∨ (Kw r = kw ∧ sl (Ih r) = ih)).
Proof.
  intros Hm Hr. unfold insert_record. split.
  { intros id x [[<- <-]|[_ Hx]]%lookup_insert_Some; [done | by apply Hm]. }
  split.
  - intros (id & x & [[<- <-]|[_ Hx]]%lookup_insert_Some & Hk); [by right | left; by exists id, x].
  - intros [(id & x & Hx & Hk)|Hk].
    + destruct (decide (id = ElementID r)) as [->|Hne].
      * exists (ElementID r), r. rewrite lookup_insert_eq. split; [done |].
        destruct (Hm _ _ Hx) as [E Hin]. apply Hid in E; [|done | done].
        destruct (Hgood _ Hr) as [Hw _], (Hgood _ Hin) as [Hw' _].
        apply idPreimage_inj in E as (_ & EK & EI & _); [|done | done]. by rewrite EK, EI.
      * exists id, x. by rewrite lookup_insert_ne.
    + exists (ElementID r), r. by rewrite lookup_insert_eq.
Qed.

Lemma inserts_held rs m kw ih :
  ids_ok m → (∀ r, r ∈ rs → r ∈ all) →
  ids_ok (foldl insert_record m rs) ∧
  (heldm (foldl insert_record m rs) kw ih ↔
     heldm m kw ih ∨ ∃ r, r ∈ rs ∧ Kw r = kw ∧ sl (Ih r) = ih).
Proof.
  revert m. induction rs as [|r rs IH]; intros m Hm Hrs.
  { split; [done |]. split; [by left |]. intros [?|(r & Hr & _)]; [done | by apply elem_of_nil in Hr]. }
  cbn [foldl]. destruct (insert_held m r kw ih Hm) as [Hm' Hi]; [apply Hrs; by left |].
  destruct (IH (insert_record m r)) as [Hm2 Hh]; [done | intros x Hx; apply Hrs; by right |].
  split; [done |]. rewrite Hh, Hi. setoid_rewrite elem_of_cons. naive_solver.
Qed.

Lemma signed_some ih now kw :
  publishable (Utf8.strings_ToLower kw) → ∃ r, signed key p ih now kw = Some r.
Proof.
  unfold publishable, signed, SignAndMine. set (k := Utf8.strings_ToLower kw). intros Hk.
  change Record.Record.MaxKeywordBytes with MaxKeywordBytes.
  rewrite (proj2 (Z.eqb_neq (len k) 0)), (proj2 (Z.ltb_ge (len k) 1)),
    (proj2 (Z.ltb_ge MaxKeywordBytes (len k))) by lia. simpl. by eexists.
Qed.

Lemma made_pairs ihb now kws kw ih :
  len ihb = 20 →
  (∃ r, r ∈ omap (signed key p (copy_arr 20 ihb) now) kws ∧ Kw r = kw ∧ sl (Ih r) = ih) ↔
  (kw, ih) ∈ (list_to_set ((., ihb) <$> filter publishable (Utf8.strings_ToLower <$> kws))
              : gset (bytes * bytes)).
Proof.
  intros Hl. assert (Hsl : sl (copy_arr 20 ihb) = ihb).
  { apply sl_copy_arr. unfold len in Hl. lia. }
  rewrite elem_of_list_to_set, list_elem_of_fmap. split.
  - intros (r & Hr & <- & <-). apply list_elem_of_omap in Hr as (kw0 & Hk0 & Hs).
    apply signed_fields in Hs as (HK & HI & _ & _ & _ & Hlen & _).
    exists (Kw r). rewrite HI, Hsl. split; [done |]. apply list_elem_of_filter.
    split; [done |]. rewrite HK. by apply list_elem_of_fmap_2.
  - intros (k & [= -> ->] & Hk). apply list_elem_of_filter in Hk as [Hpub Hk].
    apply list_elem_of_fmap in Hk as (kw0 & -> & Hk0).
    destruct (signed_some (copy_arr 20 ihb) now kw0 Hpub) as [r Hr]. exists r.
    split; [apply list_elem_of_omap; by exists kw0 |].
    apply signed_fields in Hr as (-> & -> & _). by rewrite Hsl.
Qed.

Lemma run_inv P a l :
  (∀ r, r ∈ made l → r ∈ all) → inv all P a → inv all (abs P l) (run_local a l).
Proof.
  intros Hmade Hi. destruct l as [e kws hit|e ih|e]; simpl.
  - destruct Hi as [Hp Hpub Hids Hheld Hb]. unfold publish_local. rewrite Hp. simpl in Hmade.
    destruct (Z.eqb_spec (len (DhtSchema.IH hit)) 20) as [Hl|Hl]; simpl; [|by split].
    rewrite Hpub. set (rs := omap _ kws) in *.
    assert (Hins : ∀ kw ih, ids_ok (foldl insert_record (records a) rs) ∧
      (heldm (foldl insert_record (records a) rs) kw ih ↔ _)) by (intros; by apply inserts_held).
    split; try done; cbn [records with_records].
    + intros id r Hr. by apply (proj1 (Hins [] [])).
    + intros kw ih. rewrite held_heldm. cbn [records with_records]. rewrite (proj2 (Hins kw ih)).
      rewrite <-held_heldm, Hheld, elem_of_union. unfold rs. by rewrite made_pairs.
  - pose proof (retract_held e ih a) as Hrh. destruct Hi as [Hp Hpub Hids Hheld Hb].
    unfold retract_local in *. set (rs := filter _ (records a)) in *.
    case_bool_decide as E.
    + split; try done. intros kw x. rewrite elem_of_filter. simpl. rewrite Hrh, Hheld. tauto.
    + assert (Hi : inv all (filter (λ q, q.2 ≠ sl ih) P) (with_records a rs)).
      { split; try done; cbn [records with_records].
        - intros id r [Hr _]%map_lookup_filter_Some. by apply Hids.
        - intros kw x. rewrite elem_of_filter. simpl. specialize (Hrh kw x).
          rewrite held_rebuild in Hrh. rewrite Hrh, Hheld. tauto. }
      by apply rebuild_inv.
  - by apply rebuild_inv.
Qed.

Lemma runs_inv ls P a :
  (∀ r, r ∈ all_made ls → r ∈ all) → inv all P a →
  inv all (foldl abs P ls) (foldl run_local a ls).
Proof.
  revert P a. induction ls as [|l ls IH]; intros P a Hm Hi; [done |]. cbn [foldl].
  apply IH; [|apply run_inv; [|done]]; intros r Hr; apply Hm; simpl; apply elem_of_app; first [by left | by right].
Qed.

(** The exact hits of an up-to-date tree: one for each record of the keyword. *)
Definition exact (a : aggregatePPMI) (tok : bytes) : list Record :=
  List.filter (λ r, bool_decide (Kw r = tok)) (records_list a).

Lemma exact_accepted tok l :
  (∀ r, r ∈ l → good r) →
  List.filter (λ r, bool_decide (Kw r = tok)) (List.filter (accepts 0 tok) l) =
  List.filter (λ r, bool_decide (Kw r = tok)) l.
Proof.
  induction l as [|r l IH]; intros Hl; [done |]. simpl.
  destruct (Hl r) as (_ & Hv & _); [by left |].
  assert (Hl' : ∀ x, x ∈ l → good x) by (intros x Hx; apply Hl; by right).
  destruct (accepts 0 tok r) eqn:Ea; simpl; [by rewrite IH |].
  rewrite IH by done. case_bool_decide as Hk; [|done]. exfalso.
  unfold accepts in Ea. rewrite Hv, Hk in Ea. unfold has_prefix in Ea.
  by rewrite bool_decide_eq_true_2 in Ea.
Qed.

(** An up-to-date tree opens, also against its fingerprint, and answers. *)
Definition tree_answers (a : aggregatePPMI) : Prop :=
  match tree a with
  | None => records a = ∅
  | Some b => ∃ t, OpenBTree (BytesPageSource b MinPieceSize) = Ok t ∧
      OpenVerifiedTree b (sl (fp a)) = Ok t ∧
      ∀ tok, ∃ hits, exactHits t tok = Ok hits ∧ hits ≡ₚ hit_of <$> exact a tok
  end.

Lemma built_answers P a :
  inv all P a → dirty a = false → len (records_list a) ≤ 2 ^ 30 → tree_answers a.
Proof.
  intros [Hp Hpub Hids Hheld Hb] Hd Hsize. specialize (Hb Hd Hsize). unfold tree_answers.
  case_bool_decide as He; [by rewrite Hb |].
  destruct Hb as (now & recs & built & Hperm & Hbuild & -> & Hfp).
  assert (Hrec : ∀ r, r ∈ recs → good r).
  { intros r Hr. rewrite Hperm, in_records in Hr. destruct Hr as [id Hr]. by apply Hgood, (Hids id). }
  assert (Hin : input_ok (build_input a recs)).
  { split; [|split; [|split; [by split |split; [by split |]]]];
      cbn [inRecords inPrivKey inPubKey build_input].
    - apply Forall_forall. intros r Hr. by apply Hrec.
    - unfold len in *. by rewrite Hperm.
    - exists key. by rewrite Hpub. }
  destruct (Find_of_built now _ built Hin Hbuild) as (t & Ho & Hf).
  destruct (built_open now _ built Hin Hbuild)
    as (t' & lv & m & pages & Ho' & _ & _ & _ & _ & _ & _ & _ & _ & Hfp').
  rewrite Ho in Ho'. apply Ok_inj in Ho' as <-.
  assert (Hps : outPieceSize built = MinPieceSize).
  { apply BuildBTree_inv in Hbuild as (_ & _ & _ & lv' & m' & pages' & f & tp & _ & _ & _ & ->); [done |].
    apply Hin. }
  rewrite Hps in Ho. exists t. split; [done |]. split.
  { unfold OpenVerifiedTree, SnaggPieceLength. rewrite Ho, Hfp', Hfp, len_sl.
    by rewrite bool_decide_eq_true_2. }
  intros tok. unfold exactHits. rewrite Hf. eexists. split; [done |].
  apply fmap_Permutation. cbn [inMinPoWBits inRecords build_input].
  assert (Hsorted : sort_records recs ≡ₚ records_list a) by (by rewrite sort_records_perm).
  rewrite exact_accepted; [by apply List_filter_perm |].
  intros r Hr. apply Hrec. by rewrite sort_records_perm in Hr.
Qed.

Lemma exact_held a tok ih :
  ih ∈ DhtSchema.IH <$> (hit_of <$> exact a tok) ↔ held a tok ih.
Proof.
  rewrite list_elem_of_fmap. unfold held. split.
  - intros (h & -> & Hh). apply list_elem_of_fmap in Hh as (r & -> & Hr).
    apply list_elem_of_In, List.filter_In in Hr as [Hr Hk]. apply bool_decide_eq_true in Hk.
    exists r. by rewrite list_elem_of_In.
  - intros (r & Hr & Hk & <-). exists (hit_of r). split; [done |]. apply list_elem_of_fmap_2.
    apply list_elem_of_In, List.filter_In. split; [by apply list_elem_of_In |].
    by apply bool_decide_eq_true.
Qed.
End all.

(** ** Histories *)
Section calls.
Context {W : Type} {TP : TreePort W}.
Implicit Types (s : aggregate W).

(** A call of the backend; a refresh with what happens during its distribution. *)
Inductive call : Type :=
  | CPublish (e : env) (keywords : list bytes) (hit : DhtSchema.KeywordHit)
  | CRetract (e : env) (ih : array 20)
  | CRefresh (e : env) (during : list local)
  | CLookup (e : env) (indexerPub : array 32) (token : bytes).
Definition run_call s (c : call) : aggregate W :=
  match c with
  | CPublish e kws hit => (Publish e kws hit s).1
  | CRetract e ih => (Retract e ih s).1
  | CRefresh e during => (agg_Refresh e during s).1
  | CLookup e pk tok => (Lookup e pk tok s).1
  end.

(** What a call does while it holds the lock, in order. *)
Definition locals (wired : bool) (c : call) : list local :=
  match c with
  | CPublish e kws hit => [LPublish e kws hit]
  | CRetract e ih => [LRetract e ih]
  | CRefresh e during => LRebuild e :: if wired then during else []
  | CLookup e pk _ => if bool_decide (pk = p) then [LRebuild e] else []
  end.

Definition all_locals (wired : bool) (cs : list call) : list local := cs ≫= locals wired.

Lemma run_local_wired a l : publisher (run_local a l) = publisher a ∧ pub (run_local a l) = pub a.
Proof.
  destruct l as [e kws hit|e ih|e]; simpl.
  - unfold publish_local. by repeat case_match.
  - unfold retract_local, rebuildLocked. by repeat case_match.
  - unfold rebuildLocked. by repeat case_match.
Qed.
Lemma run_locals_wired ls a :
  publisher (foldl run_local a ls) = publisher a ∧ pub (foldl run_local a ls) = pub a.
Proof.
  revert a. induction ls as [|l ls IH]; intros a; [done |]. cbn [foldl].
  destruct (IH (run_local a l)) as [-> ->]. apply run_local_wired.
Qed.

Lemma run_call_ag s c :
  pub (ag s) = p → ag (run_call s c) = foldl run_local (ag s) (locals (publisher (ag s)) c).
Proof.
  intros Hp. destruct c as [e kws hit|e ih|e during|e pk tok]; [done | done | |]; simpl.
  - destruct (publisher (ag s)) eqn:E; [by apply Refresh_ag |]. unfold agg_Refresh.
    assert (Hn : publisher (rebuildLocked e (ag s)) = false)
      by (rewrite <-E; apply (run_local_wired _ (LRebuild e))).
    by rewrite Hn.
  - rewrite Lookup_ag, Hp. by case_bool_decide.
Qed.
Lemma run_calls_ag cs s :
  pub (ag s) = p →
  ag (foldl run_call s cs) = foldl run_local (ag s) (all_locals (publisher (ag s)) cs).
Proof.
  revert s. induction cs as [|c cs IH]; intros s Hp; [done |]. unfold all_locals in *. cbn [foldl mbind list_bind].
  rewrite foldl_app. pose proof (run_call_ag s c Hp) as Hc.
  destruct (run_locals_wired (locals (publisher (ag s)) c) (ag s)) as [H1 H2].
  rewrite IH by by rewrite Hc, H2. by rewrite Hc, H1.
Qed.

Definition fresh (pb rs : bool) (w : W) : aggregate W :=
  {| ag := SetDistribution pb rs (newAggregatePPMI (Some key) p); world := w |}.

Lemma fresh_inv all pb rs w : inv all ∅ (ag (fresh pb rs w)).
Proof.
  split; try done.
  - intros kw ih. split; [intros (r & Hr & _); by apply elem_of_nil in Hr | done].
Qed.

Lemma made_good ls : Forall clock_ok ls → ∀ r, r ∈ all_made ls → good r.
Proof.
  intros Hc r Hr. apply list_elem_of_bind in Hr as (l & Hr & Hl).
  rewrite Forall_forall in Hc. specialize (Hc l Hl). destruct l as [e kws hit| |]; simpl in *;
    [|by apply elem_of_nil in Hr..].
  destruct (_ =? 20); [|by apply elem_of_nil in Hr].
  apply list_elem_of_omap in Hr as (kw & _ & Hs). by eapply signed_good.
Qed.

(** The state after a history from a fresh backend. *)
Lemma history_inv pb rs w cs :
  Forall clock_ok (all_locals pb cs) → identified (all_made (all_locals pb cs)) →
  let s := foldl run_call (fresh pb rs w) cs in
  inv (all_made (all_locals pb cs)) (foldl abs ∅ (all_locals pb cs)) (ag s) ∧ publisher (ag s) = pb.
Proof.
  intros Hclock Hid s. set (ls := all_locals pb cs) in *.
  assert (Hgood := made_good ls Hclock).
  assert (Hs : ag s = foldl run_local (ag (fresh pb rs w)) ls).
  { unfold s. rewrite run_calls_ag by done. cbn [ag fresh SetDistribution publisher newAggregatePPMI].
    by rewrite orb_false_r. }
  rewrite Hs. split; [by apply runs_inv, fresh_inv |].
  rewrite (proj1 (run_locals_wired _ _)). simpl. apply orb_false_r.
Qed.

(** [C23] The aggregate backend answers its own lookups with exactly what it has
    published.  After any history of publications, retractions, refreshes and
    lookups, with anything happening while a refresh distributes its tree, a
    lookup of a keyword under the publisher's own key opens the tree that was
    built, finds the keyword in it, and answers the infohashes published under
    that keyword (in lower case, of 1 to 64 bytes) and not retracted since: one hit
    for each record, no error, whatever order the records were collected in.  The
    hypotheses: ten-digit clocks, no SHA-256 collision among the records signed, and
    at most [2 ^ 30] of them held. *)
Theorem aggregate_answers (pb rs : bool) (w : W) (cs : list call) (e : env) (token : bytes)
    (Hclock : Forall clock_ok (all_locals pb cs))
    (Hid : identified (all_made (all_locals pb cs))) :
  let s := foldl run_call (fresh pb rs w) cs in
  len (records_list (ag s)) ≤ 2 ^ 30 →
  ∃ hits, (Lookup e p token s).2 = Ok hits ∧
    len hits = len (exact (ag s) token) ∧
    ∀ ih, ih ∈ DhtSchema.IH <$> hits ↔ (token, ih) ∈ foldl abs ∅ (all_locals pb cs).
Proof.
  intros s Hsize. destruct (history_inv pb rs w cs Hclock Hid) as [Hi _]. fold s in Hi.
  assert (Hgood := made_good _ Hclock).
  destruct (rebuild_inv _ Hgood e _ _ Hi) as [Hi' Hd].
  assert (Hrl : records_list (rebuildLocked e (ag s)) = records_list (ag s))
    by (unfold records_list; by rewrite rebuild_records).
  assert (Hex : exact (rebuildLocked e (ag s)) token = exact (ag s) token) by (unfold exact; by rewrite Hrl).
  rewrite <-Hrl in Hsize. pose proof (built_answers _ Hgood _ _ Hi' Hd Hsize) as Ht.
  cbn [Lookup aggregate_backend]. unfold agg_Lookup.
  rewrite (i_pub _ _ _ Hi), bool_decide_eq_true_2 by done. cbn [negb snd].
  assert (Hall : ∀ hits : list DhtSchema.KeywordHit, hits ≡ₚ hit_of <$> exact (rebuildLocked e (ag s)) token →
    len hits = len (exact (ag s) token) ∧
    ∀ ih, ih ∈ DhtSchema.IH <$> hits ↔ (token, ih) ∈ foldl abs ∅ (all_locals pb cs)).
  { intros hits Hp. split; [unfold len; by rewrite Hp, length_fmap, Hex |].
    intros ih. by rewrite Hp, exact_held, (i_held _ _ _ Hi'). }
  unfold tree_answers in Ht. destruct (tree (rebuildLocked e (ag s))) as [b|].
  - destruct Ht as (t & Ho & _ & Hh). destruct (Hh token) as (hits & He & Hp).
    exists hits. rewrite Ho. split; [done |]. by apply Hall.
  - exists []. split; [done |]. apply Hall. unfold exact, records_list. by rewrite Ht, map_to_list_empty.
Qed.

(** *** Distribution *)

(** The generation counts the rebuilds; without one the tree is the same. *)
Lemma run_local_gen a l :
  is_u64 (gen a) →
  (gen (run_local a l) = gen a ∧ tree (run_local a l) = tree a ∧ fp (run_local a l) = fp a) ∨
  gen (run_local a l) = u64 (gen a + 1).
Proof.
  intros Hg. destruct l as [e kws hit|e ih|e]; simpl.
  - left. unfold publish_local. by repeat case_match.
  - unfold retract_local, rebuildLocked. repeat case_match; auto.
  - unfold rebuildLocked. repeat case_match; auto.
Qed.
Lemma run_locals_gen ls a :
  is_u64 (gen a) →
  ∃ k, 0 ≤ k ≤ len ls ∧ gen (foldl run_local a ls) = u64 (gen a + k) ∧
    (k = 0 → tree (foldl run_local a ls) = tree a ∧ fp (foldl run_local a ls) = fp a).
Proof.
  revert a. induction ls as [|l ls IH]; intros a Hg.
  { exists 0. rewrite Z.add_0_r, u64_small by done. split; [unfold len; simpl; lia | done]. }
  cbn [foldl]. rewrite len_cons.
  destruct (run_local_gen a l Hg) as [(E & Et & Ef)|E].
  - destruct (IH (run_local a l)) as (k & Hk & Hgen & H0); [by rewrite E |].
    exists k. rewrite Hgen, E. split; [lia |]. split; [done |]. rewrite <-Et, <-Ef. done.
  - destruct (IH (run_local a l)) as (k & Hk & Hgen & _); [rewrite E; apply u64_range |].
    exists (k + 1). rewrite Hgen, E. split; [lia |]. split; [|lia].
    unfold u64. rewrite Zplus_mod_idemp_l. f_equal. lia.
Qed.

Lemma refresh_hands_over e during (s s' : aggregate W) :
  publisher (ag s) = true → is_u64 (gen (ag s)) → len during < 2 ^ 64 →
  agg_Refresh e during s = (s', Ok tt) →
  ∃ w', distribute (treeName (ag s)) (tree (ag s')) (fp (ag s')) w' = (world s', Ok tt).
Proof.
  intros Hp Hg Hd. unfold agg_Refresh. set (a1 := rebuildLocked e (ag s)).
  destruct (run_local_wired (ag s) (LRebuild e)) as [Hp1 Hpub1]. simpl in Hp1, Hpub1. fold a1 in Hp1, Hpub1.
  rewrite Hp1, Hp. cbn [negb].
  assert (Hn : treeName a1 = treeName (ag s)) by (unfold treeName; by rewrite Hpub1). rewrite Hn.
  assert (Hg1 : is_u64 (gen a1)).
  { destruct (run_local_gen (ag s) (LRebuild e) Hg) as [(E & _)|E]; simpl in E; fold a1 in E; rewrite E;
      [done | apply u64_range]. }
  destruct (distribute _ (tree a1) _ _) as [w1 [[]|]] eqn:E1; [|done].
  destruct (run_locals_gen during a1 Hg1) as (k & Hk & Hgen & H0).
  destruct (Z.eqb_spec (gen (foldl run_local a1 during)) (gen a1)) as [Heq|_]; simpl.
  - intros [= <-]. cbn [ag world]. assert (k = 0) as Hk0.
    { rewrite Hgen in Heq. unfold u64, is_u64 in *.
      destruct (decide (gen a1 + k < 2 ^ 64)); [rewrite Z.mod_small in Heq by lia; lia |].
      rewrite <-(Z.mod_unique (gen a1 + k) (2 ^ 64) 1 (gen a1 + k - 2 ^ 64)) in Heq by lia. lia. }
    destruct (H0 Hk0) as [-> ->]. by exists (world s).
  - destruct (distribute _ (tree (foldl run_local a1 during)) _ _) as [w2 [[]|]] eqn:E2; [|done].
    intros [= <-]. by exists w1.
Qed.

(** What a refresh leaves distributed is the tree of that moment.  When a
    refresh of a wired backend succeeds, the last tree its port was handed (or the
    retraction it was asked for) is the one the backend holds when the refresh
    returns, with its fingerprint and its stable name, whatever publications,
    retractions and rebuilds ran while the port was busy, up to [2 ^ 64] of them.
    If nothing was published since the tree was built, a subscriber who opens the
    bytes against the fingerprint succeeds and reads for every keyword exactly the
    infohashes published and not retracted. *)
Lemma refresh_distributes (rs : bool) (w : W) (cs : list call) (e : env) (during : list local)
    (Hclock : Forall clock_ok (all_locals true (cs ++ [CRefresh e during])))
    (Hid : identified (all_made (all_locals true (cs ++ [CRefresh e during]))))
    (Hd : len during < 2 ^ 64) (s' : aggregate W) :
  let s := foldl run_call (fresh true rs w) cs in
  agg_Refresh e during s = (s', Ok tt) →
  (∃ w', distribute (treeName (ag (fresh true rs w))) (tree (ag s')) (fp (ag s')) w' = (world s', Ok tt)) ∧
  (dirty (ag s') = false → len (records_list (ag s')) ≤ 2 ^ 30 →
   match tree (ag s') with
   | None => foldl abs ∅ (all_locals true (cs ++ [CRefresh e during])) = ∅
   | Some b => ∃ t, OpenVerifiedTree b (sl (fp (ag s'))) = Ok t ∧
       ∀ tok, ∃ hits, exactHits t tok = Ok hits ∧
         ∀ ih, ih ∈ DhtSchema.IH <$> hits ↔
           (tok, ih) ∈ foldl abs ∅ (all_locals true (cs ++ [CRefresh e during]))
   end).
Proof.
  intros s Hr. set (ls := all_locals true _) in *.
  destruct (history_inv true rs w (cs ++ [CRefresh e during]) Hclock Hid) as [Hi Hw].
  rewrite foldl_app in Hi, Hw. cbn [foldl run_call] in Hi, Hw. fold s in Hi, Hw.
  rewrite Hr in Hi, Hw. cbn [fst] in Hi, Hw. fold ls in Hi.
  split.
  - assert (Hs : ag s = foldl run_local (ag (fresh true rs w)) (all_locals true cs)) by by apply run_calls_ag.
    destruct (run_locals_wired (all_locals true cs) (ag (fresh true rs w))) as [Hw' Hpub].
    destruct (run_locals_gen (all_locals true cs) (ag (fresh true rs w))) as (k & _ & Hgen & _); [done |].
    rewrite <-Hs in Hw', Hpub, Hgen.
    replace (treeName (ag (fresh true rs w))) with (treeName (ag s)) by (unfold treeName; by rewrite Hpub).
    apply (refresh_hands_over e during); [done | rewrite Hgen; apply u64_range | done | done].
  - intros Hdirty Hsize. pose proof (built_answers _ (made_good _ Hclock) _ _ Hi Hdirty Hsize) as Ht.
    unfold tree_answers in Ht. destruct (tree (ag s')) as [b|].
    + destruct Ht as (t & _ & Ho & Hh). exists t. split; [done |]. intros tok.
      destruct (Hh tok) as (hits & He & Hp). exists hits. split; [done |].
      intros ih. by rewrite Hp, exact_held, (i_held _ _ _ Hi).
    + apply set_eq. intros [kw ih]. rewrite <-(i_held _ _ _ Hi).
      split; [|done]. intros (r & Hin & _). unfold records_list in Hin.
      rewrite Ht, map_to_list_empty in Hin. by apply elem_of_nil in Hin.
Qed.
End calls.
End history.


(** ** Concrete nodes *)
Module Examples.
Import ToySig ToyCodec Utf8.

(** A codec that keeps within the bound: fixed fields without lengths. *)
Definition shaped (w : recordWire) : bool :=
  (length (wIH w) =? 20)%nat && (length (wPk w) =? 32)%nat && (length (wSig w) =? 64)%nat.
Definition compact (w : recordWire) : bytes :=
  if shaped w then x01 :: wIH w ++ wPk w ++ wSig w ++ put_int (wPow w) ++ put_int (wT w) ++ wKw w
  else x00 :: enc (wire_fields w).
Definition expand (b : bytes) : option recordWire :=
  match b with
  | x01 :: b =>
    Some (mkWire (take 20 b) (drop 132 b) (take 32 (drop 20 b)) (get_u (take 8 (drop 116 b)))
            (take 64 (drop 52 b)) (get_i (take 8 (drop 124 b))))
  | x00 :: b => dec [] b ≫= wire_of_fields
  | _ => None
  end.
Definition compact_codec : Bencode recordWire := {|
  marshal w := Some (compact w);
  unmarshal n b := if len b <=? n then expand b else None
|}.

Lemma expand_compact w : wire_ok w → expand (compact w) = Some w.
Proof.
  intros [Hu Ht]. unfold compact. destruct (shaped w) eqn:E.
  - unfold shaped in E. rewrite !andb_true_iff, !Nat.eqb_eq in E. destruct E as [[H1 H2] H3].
    destruct w as [ih kw pk pow sig t]. cbn [wIH wPk wSig wKw wPow wT expand] in *.
    assert (Hi : ∀ z, length (put_int z) = 8%nat) by (intros; apply length_put_le).
    assert (D1 : ∀ n (a b : bytes), length a = n → take n (a ++ b) = a) by (intros; by rewrite take_app_length').
    assert (D2 : ∀ n m (a b : bytes), length a = n → drop (n + m) (a ++ b) = drop m b).
    { intros n m a b <-. rewrite <-drop_drop. by rewrite drop_app_length. }
    f_equal. f_equal.
    + by apply D1.
    + rewrite (D2 20 112)%nat, (D2 32 80)%nat, (D2 64 16)%nat, (D2 8 8)%nat, (D2 8 0)%nat by done. done.
    + rewrite (D2 20 0)%nat by done. by apply D1.
    + rewrite (D2 20 96)%nat, (D2 32 64)%nat, (D2 64 0)%nat by done. rewrite drop_0, D1 by done.
      by apply get_put_u.
    + rewrite (D2 20 32)%nat, (D2 32 0)%nat by done. by apply D1.
    + rewrite (D2 20 104)%nat, (D2 32 72)%nat, (D2 64 8)%nat, (D2 8 0)%nat by done. rewrite drop_0, D1 by done.
      by apply get_put_i.
  - cbn [expand]. rewrite dec_enc. destruct w as [a b c d e f]. simpl in *.
    by rewrite get_put_u, get_put_i.
Qed.
#[export] Instance compact_laws : @BencodeLaws recordWire _ compact_codec.
Proof.
  split; simpl; [done | |].
  - intros w b [= <-]. unfold compact. by destruct (shaped w).
  - intros w b n Hw [= <-] Hn. rewrite (proj2 (Z.leb_le _ _) Hn). by apply expand_compact.
Qed.
#[export] Instance compact_fits : @RecordFits compact_codec.
Proof.
  intros w b H1 H2 H3 _ _ [= <-]. unfold compact.
  assert (Hs : shaped w = true).
  { unfold shaped, len in *. rewrite !andb_true_iff, !Nat.eqb_eq. lia. }
  rewrite Hs, len_cons, !len_app, H1, H2, H3. unfold put_int. rewrite !len_put_le. lia.
Qed.

(** A port that keeps what it is handed. *)
Definition shelf : Type := list (bytes * array 32).
#[export] Instance shelf_port : TreePort shelf := {|
  port_PublishTree _ b f w := ((b, f) :: w, Ok tt);
  port_RetractTree w := ([], Ok tt);
  port_ResolveTree _ w := (w, Ok None)
|}.

Definition self : array 32 := toy_pub.
Definition at_time (t : Z) : env := {|
  started := λ _, t * Second; finished := λ _, t * Second;
  saving := Files.no_failure; order := []; reached := None; shuffle := id;
  shuffle_perm l := Permutation_refl l
|}.
#[local] Existing Instance compact_codec.
Definition hit (c : byte) : DhtSchema.KeywordHit := Manifest.plain_hit c (str "Ubuntu Linux").
Definition t0 : Z := 1700000000.
Definition again (t : Z) : call := CPublish (at_time t) [str "Linux"] (hit x01).

(** A torrent is published, then retracted while a refresh hands over its tree. *)
Definition story : list call := [again t0].
Definition meanwhile : list local := [LRetract (at_time (t0 + 60)) (copy_arr 20 (replicate 20 x01))].
Definition start : aggregate shelf := fresh (sl self) self true false [].
Definition told : aggregate shelf := foldl run_call start story.

Lemma identified_one r : identified [r].
Proof. intros r1 r2 ->%list_elem_of_singleton ->%list_elem_of_singleton _. done. Qed.
Lemma story_records during :
  all_made (sl self) self during = [] →
  ∃ r, all_made (sl self) self (all_locals self true story ++ during) = [r].
Proof.
  unfold all_made. intros Hd. rewrite bind_app, Hd. eexists. vm_compute. reflexivity.
Qed.

Lemma aggregate_answers_witness :
  ∃ hits, (Lookup (at_time (t0 + 60)) self (str "linux") told).2 = Ok hits ∧
    ∀ ih, ih ∈ DhtSchema.IH <$> hits ↔ ih = replicate 20 x01.
Proof.
  assert (Hk : ed25519_keypair (sl self) self) by done.
  destruct (aggregate_answers (sl self) self Hk true false ([] : shelf) story (at_time (t0 + 60)) (str "linux"))
    as (hits & Hl & _ & Hh).
  - repeat constructor; vm_compute; congruence.
  - destruct (story_records []) as [r Hr]; [reflexivity |]. rewrite app_nil_r in Hr. rewrite Hr. apply identified_one.
  - vm_compute. discriminate.
  - exists hits. split; [exact Hl |]. intros ih. rewrite Hh, <-elem_of_elements.
    replace (elements (foldl abs ∅ (all_locals self true story)))
      with [(str "linux", replicate 20 x01)] by (vm_compute; reflexivity).
    rewrite list_elem_of_singleton. clear. split; [by intros [= ->] | by intros ->].
Defined.

(** The retraction reaches the port before the refresh returns. *)
Lemma refresh_distributes_witness :
  ∃ s' w', agg_Refresh (at_time t0) meanwhile told = (s', Ok tt) ∧ tree (ag s') = None ∧
    port_RetractTree w' = (world s', Ok tt) ∧
    foldl abs ∅ (all_locals self true (story ++ [CRefresh (at_time t0) meanwhile])) = ∅.
Proof.
  assert (Hk : ed25519_keypair (sl self) self) by done.
  remember (agg_Refresh (at_time t0) meanwhile told) as r eqn:Hdef.
  assert (E : (r.2, tree (ag r.1), dirty (ag r.1), records (ag r.1)) = (Ok tt, None, false, ∅))
    by (rewrite Hdef; vm_compute; reflexivity).
  pose proof (f_equal (λ x, x.1.1.1) E) as Er. pose proof (f_equal (λ x, x.1.1.2) E) as Et.
  pose proof (f_equal (λ x, x.1.2) E) as Ed. pose proof (f_equal snd E) as Em.
  cbn [fst snd] in Er, Et, Ed, Em. clear E.
  assert (Hr : r = (r.1, Ok tt)) by (rewrite <-Er; apply surjective_pairing).
  destruct (refresh_distributes (sl self) self Hk false ([] : shelf) story (at_time t0) meanwhile) with (s' := r.1)
    as [[w' Hw] Ht].
  - repeat constructor; vm_compute; congruence.
  - destruct (story_records (LRebuild (at_time t0) :: meanwhile)) as [x Hx]; [reflexivity |].
    change (identified (all_made (sl self) self (all_locals self true story ++ LRebuild (at_time t0) :: meanwhile))).
    rewrite Hx. apply identified_one.
  - reflexivity.
  - rewrite <-Hr. symmetry. exact Hdef.
  - exists r.1, w'. rewrite Et in Hw, Ht. split; [exact Hr |]. split; [exact Et |]. split; [exact Hw |].
    apply Ht; [exact Ed |]. unfold records_list. rewrite Em, map_to_list_empty. discriminate.
Defined.

(** The identity of a record contains its time: publishing the same torrent a
    second later adds a record. *)
Example republished_twice :
  TotalHits (Status (foldl run_call start [again t0; again (t0 + 1)])) = 2.
Proof. vm_compute. reflexivity. Qed.
End Examples.
End Aggregate.
