(* ===== verification/Lookup.v ===== *)
(** * The keyword lookup (internal/dhtindex/lookup.go)

    The read side of the keyword index: the set of known indexers, with its cap on
    those learnt from gossip, and [Query], which asks every indexer for one
    keyword, merges what they answer infohash by infohash and scores it by the
    reputation of its sources. *)

From Stdlib Require Import SpecFloat.
From S2P Require Import Prelude GoInt Utf8 GoFloat Hex Token DhtSchema Bloom Sources Reputation.
Open Scope Z_scope.

Module Lookup.
Import GoFloat.

(** ** Data *)
Record IndexerInfo := {
  PubKey : array 32; Label : bytes;
  AddedAt : Z;                       (** nanoseconds *)
  Auto : bool
}.
Definition maxAutoIndexers : Z := 128.

(** The optional helpers are shared objects; [None] is the nil pointer. *)
Record Lookup := {
  indexers : gmap (array 32) IndexerInfo;
  tracker : option Reputation.Tracker;
  bloom : option Bloom.BloomFilter;
  sources : option Sources.SourceTracker;
  minScore : float64
}.
Record LookupHit := {
  InfoHash : bytes; Name : bytes; Seeders : Z; Size : Z; Files : Z;
  Sources_ : list bytes; Score : float64; BloomHit : bool
}.
Record LookupResponse := {
  IndexersAsked : Z; IndexersResponded : Z; Hits : list LookupHit
}.

Definition NewLookup : Lookup :=
  {| indexers := ∅; tracker := None; bloom := None; sources := None; minScore := of_int 0 |}.
Definition SetTracker (t : option Reputation.Tracker) (l : Lookup) : Lookup :=
  {| indexers := indexers l; tracker := t; bloom := bloom l; sources := sources l; minScore := minScore l |}.
Definition SetBloom (b : option Bloom.BloomFilter) (l : Lookup) : Lookup :=
  {| indexers := indexers l; tracker := tracker l; bloom := b; sources := sources l; minScore := minScore l |}.
Definition SetSourceTracker (s : option Sources.SourceTracker) (l : Lookup) : Lookup :=
  {| indexers := indexers l; tracker := tracker l; bloom := bloom l; sources := s; minScore := minScore l |}.
Definition SetMinIndexerScore (s : float64) (l : Lookup) : Lookup :=
  {| indexers := indexers l; tracker := tracker l; bloom := bloom l; sources := sources l; minScore := s |}.
Definition with_indexers (m : gmap (array 32) IndexerInfo) (l : Lookup) : Lookup :=
  {| indexers := m; tracker := tracker l; bloom := bloom l; sources := sources l; minScore := minScore l |}.

(** ** The indexer set *)

(** One entry of the walk over the map: the count of automatic entries and the
    oldest of them. *)
Definition oldest_step (s : Z * option (array 32 * Z)) (kv : array 32 * IndexerInfo)
    : Z * option (array 32 * Z) :=
  let '(k, info) := kv in
  if negb (Auto info) then s
  else
    (s.1 + 1,
     match s.2 with
     | None => Some (k, AddedAt info)
     | Some (_, oldest) => if AddedAt info <? oldest then Some (k, AddedAt info) else s.2
     end).

(** [walk] is the order in which the map is ranged over. *)
Definition evictOldestAutoIfFullLocked (walk : list (array 32 * IndexerInfo))
    (m : gmap (array 32) IndexerInfo) : gmap (array 32) IndexerInfo :=
  match foldl oldest_step (0, None) walk with
  | (autoCount, Some (oldestKey, _)) =>
    if maxAutoIndexers <=? autoCount then delete oldestKey m else m
  | (_, None) => m
  end.

Definition addIndexerLocked (now : Z) (walk : list (array 32 * IndexerInfo)) (pubkey : array 32)
    (label : bytes) (auto : bool) (m : gmap (array 32) IndexerInfo) : gmap (array 32) IndexerInfo :=
  match m !! pubkey with
  | Some existing =>
    if negb auto
    then <[pubkey := {| PubKey := PubKey existing; Label := label; AddedAt := AddedAt existing; Auto := false |}]> m
    else m
  | None =>
    let m := if auto then evictOldestAutoIfFullLocked walk m else m in
    <[pubkey := {| PubKey := pubkey; Label := label; AddedAt := now; Auto := auto |}]> m
  end.

Definition AddIndexer (now : Z) (pubkey : array 32) (label : bytes) (l : Lookup) : Lookup :=
  with_indexers (addIndexerLocked now [] pubkey label false (indexers l)) l.

Inductive error : Type := ErrKeyLength | ErrKeyHex | ErrNoTokens.

Definition AddIndexerHex (now : Z) (hexKey label : bytes) (l : Lookup)
    : Lookup * result error unit :=
  if negb (len hexKey =? 64) then (l, Err ErrKeyLength)
  else match Hex.DecodeString hexKey with
  | None => (l, Err ErrKeyHex)
  | Some raw => (AddIndexer now (copy_arr 32 raw) label l, Ok tt)
  end.
Definition RemoveIndexer (pubkey : array 32) (l : Lookup) : Lookup :=
  with_indexers (delete pubkey (indexers l)) l.
Definition NotePublisherSeen (now : Z) (walk : list (array 32 * IndexerInfo)) (pubkey : array 32)
    (l : Lookup) : Lookup :=
  with_indexers (addIndexerLocked now walk pubkey [] true (indexers l)) l.
(** In the map's order. *)
Definition Indexers (l : Lookup) : list IndexerInfo := (map_to_list (indexers l)).*2.

(** ** The query *)
Record fetchResult := { info : IndexerInfo; f_hits : result bytes (list DhtSchema.KeywordHit) }.

(** What a query leaves to the scheduler and to map iteration, and the clock where
    it reads it: the order of the indexers, what the backend answers for each, the
    order in which the answers arrive, the orders of the merged maps, and the times
    at which an indexer is filtered, recorded and scored. *)
Record run := {
  q_walk : list IndexerInfo → list IndexerInfo;
  q_answer : array 32 → bytes → result bytes (list DhtSchema.KeywordHit);
  q_arrive : list fetchResult → list fetchResult;
  q_merged : list LookupHit → list LookupHit;
  q_sources : list (bytes * list (array 32)) → list (bytes * list (array 32));
  t_filter : array 32 → Z; t_returned : array 32 → Z; t_score : bytes → array 32 → Z;
  q_walk_perm l : q_walk l ≡ₚ l; q_arrive_perm l : q_arrive l ≡ₚ l;
  q_merged_perm l : q_merged l ≡ₚ l; q_sources_perm l : q_sources l ≡ₚ l
}.

Definition label_of (i : IndexerInfo) : bytes :=
  if bool_decide (Label i = []) then take 16 (Hex.EncodeToString (sl (PubKey i))) else Label i.

Section query.
Context `{Math, Utf8.Unicode}.

Definition asked (q : run) (l : Lookup) : list IndexerInfo :=
  let all := q_walk q (Indexers l) in
  match tracker l with
  | Some t =>
    if flt (of_int 0) (minScore l)
    then List.filter (λ i, Reputation.Threshold (t_filter q (PubKey i)) (Reputation.PubKey (PubKey i)) (minScore l) t) all
    else all
  | None => all
  end.

Definition hit_key (h : DhtSchema.KeywordHit) : bytes := Hex.EncodeToString (DhtSchema.IH h).
Definition new_hit (h : DhtSchema.KeywordHit) : LookupHit := {|
  InfoHash := hit_key h; Name := DhtSchema.N h; Seeders := DhtSchema.S_ h; Size := DhtSchema.Sz h;
  Files := DhtSchema.F h; Sources_ := []; Score := of_int 0; BloomHit := false
|}.
(** What a further hit of an infohash adds to the entry. *)
Definition refine (h : DhtSchema.KeywordHit) (lh : LookupHit) : LookupHit := {|
  InfoHash := InfoHash lh;
  Name := if bool_decide (Name lh = []) && negb (bool_decide (DhtSchema.N h = [])) then DhtSchema.N h else Name lh;
  Seeders := if Seeders lh <? DhtSchema.S_ h then DhtSchema.S_ h else Seeders lh;
  Size := if (Size lh =? 0) && (0 <? DhtSchema.Sz h) then DhtSchema.Sz h else Size lh;
  Files := if (Files lh =? 0) && (0 <? DhtSchema.F h) then DhtSchema.F h else Files lh;
  Sources_ := Sources_ lh; Score := Score lh; BloomHit := BloomHit lh
|}.
Definition add_source (bloom : option Bloom.BloomFilter) (label : bytes) (h : DhtSchema.KeywordHit)
    (lh : LookupHit) : LookupHit := {|
  InfoHash := InfoHash lh; Name := Name lh; Seeders := Seeders lh; Size := Size lh; Files := Files lh;
  Sources_ := Sources_ lh ++ [label]; Score := Score lh;
  BloomHit := match bloom with
              | Some b => if Bloom.Test b (DhtSchema.IH h) then true else BloomHit lh
              | None => BloomHit lh
              end
|}.

(** The merged entries, and the indexers each infohash came from. *)
Record merge_state := {
  merged : gmap bytes LookupHit; hitSources : gmap bytes (list (array 32));
  seenFromIndexer : gset bytes
}.
Definition merge_hit (bloom : option Bloom.BloomFilter) (i : IndexerInfo) (s : merge_state)
    (h : DhtSchema.KeywordHit) : merge_state :=
  let ih := hit_key h in
  if negb (len ih =? 40) then s
  else if bool_decide (ih ∈ seenFromIndexer s) then s
  else
    let lh := match merged s !! ih with Some lh => refine h lh | None => new_hit h end in
    {| merged := <[ih := add_source bloom (label_of i) h lh]> (merged s);
       hitSources := <[ih := default [] (hitSources s !! ih) ++ [PubKey i]]> (hitSources s);
       seenFromIndexer := {[ih]} ∪ seenFromIndexer s |}.

(** One answer: the tracker counts its hits, and its hits are merged. *)
Definition merge_answer (q : run) (bloom : option Bloom.BloomFilter)
    (st : Z * option Reputation.Tracker * merge_state) (r : fetchResult)
    : Z * option Reputation.Tracker * merge_state :=
  let '(n, t, s) := st in
  match f_hits r with
  | Err _ => (n, t, s)
  | Ok hits =>
    let pk := PubKey (info r) in
    (n + 1, Reputation.RecordReturned (t_returned q pk) (Reputation.PubKey pk) (len hits) <$> t,
     foldl (merge_hit bloom (info r))
       {| merged := merged s; hitSources := hitSources s; seenFromIndexer := ∅ |} hits)
  end.

Definition clampScore (score : float64) : float64 :=
  let score := if flt (of_int 1) score then of_int 1 else score in
  if flt score (of_int 0) then of_int 0 else score.
Definition scoreLookupHit (score_of : array 32 → option float64) (lh : LookupHit)
    (sources : list (array 32)) : float64 :=
  if len sources =? 0 then of_int 0
  else
    let sum := foldl (λ sum pk, fadd sum (default (of_ratio 1 2) (score_of pk))) (of_int 0) sources in
    let score := fdiv sum (of_int (len sources)) in
    let bonus := fmul (of_ratio 5 100) (of_int (len sources - 1)) in
    let score :=
      if flt (of_int 0) bonus
      then fadd score (if flt (of_ratio 2 10) bonus then of_ratio 2 10 else bonus) else score in
    let score := if BloomHit lh then fadd score (of_ratio 1 4) else score in
    clampScore score.
Definition set_score (lh : LookupHit) (f : float64) : LookupHit := {|
  InfoHash := InfoHash lh; Name := Name lh; Seeders := Seeders lh; Size := Size lh; Files := Files lh;
  Sources_ := Sources_ lh; Score := f; BloomHit := BloomHit lh
|}.

(** [sort.Slice]'s order: good hits first, then score, sources and name. *)
Definition hit_less (a b : LookupHit) : bool :=
  if negb (Bool.eqb (BloomHit a) (BloomHit b)) then BloomHit a
  else if negb (feq (Score a) (Score b)) then flt (Score b) (Score a)
  else if negb (len (Sources_ a) =? len (Sources_ b)) then len (Sources_ b) <? len (Sources_ a)
  else match bytes_compare (Name a) (Name b) with Lt => true | _ => false end.

(** The answers in the order they arrive, merged. *)
Definition collect (q : run) (l : Lookup) (rs : list fetchResult)
    : Z * option Reputation.Tracker * merge_state :=
  foldl (merge_answer q (bloom l)) (0, tracker l, {| merged := ∅; hitSources := ∅; seenFromIndexer := ∅ |}) rs.
Definition scored (q : run) (t : option Reputation.Tracker) (s : merge_state) (ih : bytes)
    (lh : LookupHit) : LookupHit :=
  set_score lh (scoreLookupHit
    (λ pk, Reputation.Score (t_score q ih pk) (Reputation.PubKey pk) <$> t)
    lh (default [] (hitSources s !! ih))).
Definition record_sources (q : run) (s : merge_state) (src : Sources.SourceTracker) : Sources.SourceTracker :=
  foldl (λ src '(ih, pks), Sources.RecordMany src ih (Reputation.PubKey <$> pks)) src
    (q_sources q (map_to_list (hitSources s))).

Definition fetch (q : run) (keyword : bytes) (i : IndexerInfo) : fetchResult :=
  {| info := i; f_hits := q_answer q (PubKey i) keyword |}.

(** [sort.Slice] is not stable and the map is ranged over in any order, so any
    sorted arrangement of the entries may come out: that is a stable sort of
    [q_merged]. *)
Definition Query (q : run) (query : bytes) (l : Lookup) : Lookup * result error LookupResponse :=
  let keyword := Token.MostDistinctive (Token.Tokenize query) in
  if bool_decide (keyword = []) then (l, Err ErrNoTokens)
  else
    let indexers_ := asked q l in
    if len indexers_ =? 0
    then (l, Ok {| IndexersAsked := 0; IndexersResponded := 0; Hits := [] |})
    else
      let '(responded, t, s) := collect q l (q_arrive q (fetch q keyword <$> indexers_)) in
      let hits := (λ kv, scored q t s kv.1 kv.2) <$> map_to_list (merged s) in
      ({| indexers := indexers l; tracker := t; bloom := bloom l;
          sources := record_sources q s <$> sources l; minScore := minScore l |},
       Ok {| IndexersAsked := len indexers_; IndexersResponded := responded;
             Hits := stable_sort hit_less (q_merged q hits) |}).
End query.

(** ** The indexer set *)
Definition autos (m : gmap (array 32) IndexerInfo) : gmap (array 32) IndexerInfo :=
  filter (λ kv, Auto kv.2 = true) m.
Definition explicits (m : gmap (array 32) IndexerInfo) : gmap (array 32) IndexerInfo :=
  filter (λ kv, Auto kv.2 = false) m.

(** What the walk finds: the number of automatic entries and one of the oldest. *)
Lemma oldest_walk walk :
  let r := foldl oldest_step (0, None) walk in
  r.1 = len (filter (λ kv, Auto kv.2 = true) walk) ∧
  match r.2 with
  | None => filter (λ kv, Auto kv.2 = true) walk = []
  | Some (k, t) => ∃ i, (k, i) ∈ walk ∧ Auto i = true ∧ AddedAt i = t ∧
      ∀ k' i', (k', i') ∈ walk → Auto i' = true → t ≤ AddedAt i'
  end.
Proof.
  induction walk as [|[k i] walk IH] using rev_ind; [done |]. cbv zeta in *.
  rewrite foldl_app, filter_app. cbn [foldl].
  destruct (foldl oldest_step (0, None) walk) as [n o]. simpl in IH. destruct IH as [-> Ho].
  unfold oldest_step. destruct (Auto i) eqn:Ea; simpl.
  - rewrite filter_cons_True, filter_nil by done. rewrite len_app. split; [done |].
    destruct o as [[k0 t0]|].
    + destruct Ho as (i0 & Hin & Ha & Ht & Hmin). destruct (Z.ltb_spec (AddedAt i) t0) as [Hlt|Hge].
      * exists i. split; [apply elem_of_app; right; by left |]. split; [done |]. split; [done |].
        intros k' i' Hin' Ha'. apply elem_of_app in Hin' as [Hin'|Hin'].
        -- specialize (Hmin _ _ Hin' Ha'). lia.
        -- apply list_elem_of_singleton in Hin' as [= -> ->]. lia.
      * exists i0. split; [apply elem_of_app; by left |]. split; [done |]. split; [done |].
        intros k' i' Hin' Ha'. apply elem_of_app in Hin' as [Hin'|Hin'].
        -- by apply (Hmin _ _ Hin').
        -- apply list_elem_of_singleton in Hin' as [= -> ->]. lia.
    + exists i. split; [apply elem_of_app; right; by left |]. split; [done |]. split; [done |].
      intros k' i' Hin' Ha'. apply elem_of_app in Hin' as [Hin'|Hin'].
      * assert (Hf : (k', i') ∈ filter (λ kv, Auto kv.2 = true) walk) by (by apply list_elem_of_filter).
        rewrite Ho in Hf. by apply elem_of_nil in Hf.
      * apply list_elem_of_singleton in Hin' as [= -> ->]. lia.
  - rewrite filter_cons_False, filter_nil, app_nil_r by (simpl; by rewrite Ea). split; [done |].
    destruct o as [[k0 t0]|]; [|done]. destruct Ho as (i0 & Hin & Ha & Ht & Hmin). exists i0.
    split; [apply elem_of_app; by left |]. split; [done |]. split; [done |].
    intros k' i' Hin' Ha'. apply elem_of_app in Hin' as [Hin'|Hin']; [by apply (Hmin _ _ Hin') |].
    apply list_elem_of_singleton in Hin' as [= -> ->]. by rewrite Ea in Ha'.
Qed.

Lemma autos_walk walk m :
  walk ≡ₚ map_to_list m → len (filter (λ kv, Auto kv.2 = true) walk) = Z.of_nat (size (autos m)).
Proof.
  intros Hp. unfold autos, len. rewrite Hp, map_filter_alt, <-length_map_to_list.
  rewrite map_to_list_to_map; [done |]. eapply sublist_NoDup; [|apply fmap_sublist, sublist_filter]. apply NoDup_fst_map_to_list.
Qed.

(** What the eviction removes: nothing below the cap, and at the cap one of the
    oldest automatic entries. *)
Lemma evict_oldest_spec walk m :
  walk ≡ₚ map_to_list m →
  let m' := evictOldestAutoIfFullLocked walk m in
  (Z.of_nat (size (autos m)) < maxAutoIndexers → m' = m) ∧
  (maxAutoIndexers ≤ Z.of_nat (size (autos m)) →
   ∃ k i, m !! k = Some i ∧ Auto i = true ∧ m' = delete k m ∧
     ∀ k' i', m !! k' = Some i' → Auto i' = true → AddedAt i ≤ AddedAt i').
Proof.
  intros Hp m'. unfold m', evictOldestAutoIfFullLocked. pose proof (oldest_walk walk) as Hw. cbv zeta in Hw.
  pose proof (autos_walk walk m Hp) as Hn. destruct (foldl oldest_step (0, None) walk) as [n o].
  simpl in Hw. destruct Hw as [-> Ho]. rewrite Hn in *.
  assert (Hin : ∀ k i, (k, i) ∈ walk ↔ m !! k = Some i) by (intros; rewrite Hp; apply elem_of_map_to_list).
  destruct o as [[k t]|].
  - destruct Ho as (i & Hi & Ha & Ht & Hmin). split; intros Hc.
    + by rewrite (proj2 (Z.leb_gt _ _) Hc).
    + rewrite (proj2 (Z.leb_le _ _) Hc). exists k, i. rewrite Hin in Hi. split; [done |]. split; [done |].
      split; [done |]. intros k' i' Hk' Ha'. subst t. by apply (Hmin k'); [apply Hin |].
  - split; [done |]. rewrite Ho in Hn. unfold maxAutoIndexers. rewrite <-Hn. by intros [].
Qed.

(** ** Histories of the set *)
Inductive op : Type :=
  | OAdd (now : Z) (pk : array 32) (label : bytes)
  | ORemove (pk : array 32)
  | ONote (now : Z) (order : list (array 32 * IndexerInfo) → list (array 32 * IndexerInfo))
          (Ho : ∀ l, order l ≡ₚ l) (pk : array 32).
Definition run_op (l : Lookup) (o : op) : Lookup :=
  match o with
  | OAdd now pk label => AddIndexer now pk label l
  | ORemove pk => RemoveIndexer pk l
  | ONote now order _ pk => NotePublisherSeen now (order (map_to_list (indexers l))) pk l
  end.
(** What the operator asked for: keys with their last label. *)
Definition wanted (w : gmap (array 32) bytes) (o : op) : gmap (array 32) bytes :=
  match o with OAdd _ pk label => <[pk := label]> w | ORemove pk => delete pk w | ONote _ _ _ _ => w end.

Record set_ok (w : gmap (array 32) bytes) (m : gmap (array 32) IndexerInfo) : Prop := {
  so_keys k i : m !! k = Some i → PubKey i = k;
  so_cap : Z.of_nat (size (autos m)) ≤ maxAutoIndexers;
  so_wanted : Label <$> explicits m = w
}.

Lemma size_autos_insert m k i :
  Z.of_nat (size (autos (<[k := i]> m))) ≤ Z.of_nat (size (autos m)) + (if Auto i then 1 else 0).
Proof.
  unfold autos. destruct (Auto i) eqn:E.
  - rewrite map_filter_insert_True by done. rewrite map_size_insert. destruct (_ !! k); unfold id; lia.
  - rewrite map_filter_insert_False by (simpl; by rewrite E). rewrite map_filter_delete.
    rewrite map_size_delete. destruct (_ !! k); unfold id; lia.
Qed.

Lemma explicits_insert m k i :
  explicits (<[k := i]> m) = if Auto i then delete k (explicits m) else <[k := i]> (explicits m).
Proof.
  unfold explicits. destruct (Auto i) eqn:E.
  - by rewrite map_filter_insert_False, map_filter_delete by (simpl; by rewrite E).
  - by rewrite map_filter_insert_True.
Qed.

Lemma run_op_ok w l o : set_ok w (indexers l) → set_ok (wanted w o) (indexers (run_op l o)).
Proof.
  intros [Hk Hc Hw]. destruct o as [now pk label|pk|now order Ho pk]; simpl.
  - unfold addIndexerLocked. destruct (indexers l !! pk) as [i|] eqn:E; simpl; split.
    + intros k j [[<- <-]|[_ Hj]]%lookup_insert_Some; [by apply Hk in E | by apply Hk].
    + etrans; [apply size_autos_insert |]. simpl. lia.
    + rewrite explicits_insert. cbn [Auto]. by rewrite fmap_insert, Hw.
    + intros k j [[<- <-]|[_ Hj]]%lookup_insert_Some; [done | by apply Hk].
    + etrans; [apply size_autos_insert |]. simpl. lia.
    + rewrite explicits_insert. cbn [Auto]. by rewrite fmap_insert, Hw.
  - split.
    + intros k j [_ Hj]%lookup_delete_Some. by apply Hk.
    + unfold autos. rewrite map_filter_delete.
      rewrite map_size_delete. unfold autos in Hc. destruct (_ !! pk); unfold id; lia.
    + unfold explicits. rewrite map_filter_delete, fmap_delete. unfold explicits in Hw. by rewrite Hw.
  - unfold addIndexerLocked. destruct (indexers l !! pk) as [i|] eqn:E; [by split |]. simpl.
    destruct (evict_oldest_spec (order (map_to_list (indexers l))) (indexers l) (Ho _)) as [Hlow Hfull].
    set (m' := evictOldestAutoIfFullLocked _ _) in *.
    assert (Hm' : (∀ k i, m' !! k = Some i → indexers l !! k = Some i) ∧
      Z.of_nat (size (autos m')) + 1 ≤ maxAutoIndexers ∧ explicits m' = explicits (indexers l)).
    { destruct (decide (Z.of_nat (size (autos (indexers l))) < maxAutoIndexers)) as [Hlt|Hge].
      - rewrite Hlow by done. split; [done |]. split; [lia | done].
      - destruct Hfull as (k & i & Hi & Ha & -> & _); [lia |]. split.
        + by intros k' i' [_ ?]%lookup_delete_Some.
        + unfold autos, explicits. rewrite !map_filter_delete.
          assert (Hin : filter (λ kv, Auto kv.2 = true) (indexers l) !! k = Some i)
            by by apply map_lookup_filter_Some.
          unfold autos in Hc, Hge. rewrite map_size_delete_Some by done. split; [unfold maxAutoIndexers in *; lia |].
          apply delete_id, map_lookup_filter_None. right. intros x Hx. simplify_eq. simpl. by rewrite Ha. }
    destruct Hm' as (Hsub & Hsize & Hexp). split.
    + intros k j [[<- <-]|[_ Hj]]%lookup_insert_Some; [done | by apply Hk, Hsub].
    + etrans; [apply size_autos_insert |]. simpl. lia.
    + rewrite explicits_insert. cbn [Auto]. rewrite delete_id; [by rewrite Hexp |].
      rewrite Hexp. apply map_lookup_filter_None. by left.
Qed.

(** The set of known indexers.  After any additions and removals by the
    operator and any publishers seen in gossip, at most 128 entries are automatic,
    and the others are exactly the keys the operator added and did not remove, each
    with its last label: gossip never evicts, relabels or resurrects one.  A
    publisher seen again changes nothing, not even its age; a new one is entered,
    and displaces another only when the automatic entries are 128, then one of the
    oldest of them, whatever order the map is walked in. *)
Lemma known_indexers (ops : list op) :
  let l := foldl run_op NewLookup ops in
  (∀ k i, indexers l !! k = Some i → PubKey i = k) ∧
  Z.of_nat (size (autos (indexers l))) ≤ maxAutoIndexers ∧
  Label <$> explicits (indexers l) = foldl wanted ∅ ops ∧
  ∀ now order Ho pk,
    let m' := indexers (run_op l (ONote now order Ho pk)) in
    let new := {| PubKey := pk; Label := []; AddedAt := now; Auto := true |} in
    match indexers l !! pk with
    | Some _ => m' = indexers l
    | None =>
      (Z.of_nat (size (autos (indexers l))) < maxAutoIndexers → m' = <[pk := new]> (indexers l)) ∧
      (Z.of_nat (size (autos (indexers l))) = maxAutoIndexers →
       ∃ k i, indexers l !! k = Some i ∧ Auto i = true ∧ m' = <[pk := new]> (delete k (indexers l)) ∧
         ∀ k' i', indexers l !! k' = Some i' → Auto i' = true → AddedAt i ≤ AddedAt i')
    end.
Proof.
  intros l. assert (Hok : set_ok (foldl wanted ∅ ops) (indexers l)).
  { unfold l. assert (H0 : set_ok ∅ (indexers NewLookup)) by by split.
    revert H0. generalize (∅ : gmap (array 32) bytes) as w, NewLookup.
    induction ops as [|o ops IH]; intros w l0 H0; [done |]. simpl. by apply IH, run_op_ok. }
  destruct Hok as [Hk Hc Hw]. split; [done |]. split; [done |]. split; [done |].
  intros now order Ho pk m' new. unfold m'. simpl. unfold addIndexerLocked.
  destruct (indexers l !! pk); [done |].
  destruct (evict_oldest_spec (order (map_to_list (indexers l))) (indexers l) (Ho _)) as [Hlow Hfull].
  split; [intros Hlt; by rewrite Hlow | intros He].
  destruct Hfull as (k & i & Hi & Ha & -> & Hmin); [lia |]. by exists k, i.
Qed.

(** ** The merge, infohash by infohash

    A contribution is the first hit of an infohash in one indexer's answer. *)
Abbreviation contribution := (IndexerInfo * DhtSchema.KeywordHit)%type.
Definition proper (hits : list DhtSchema.KeywordHit) : list DhtSchema.KeywordHit :=
  filter (λ h, len (DhtSchema.IH h) = 20) hits.
Definition contributions (rs : list fetchResult) : list contribution :=
  rs ≫= λ r, match f_hits r with Ok hits => pair (info r) <$> firsts hit_key (proper hits) | Err _ => [] end.
Definition key_of (c : contribution) : bytes := hit_key c.2.
Definition of_key (rs : list fetchResult) (k : bytes) : list contribution :=
  filter (λ c, key_of c = k) (contributions rs).

Lemma hit_key_len h : len (hit_key h) = 40 ↔ len (DhtSchema.IH h) = 20.
Proof. unfold hit_key, len. rewrite Hex.length_encode. lia. Qed.
Lemma hit_key_inj h h' : hit_key h = hit_key h' → DhtSchema.IH h = DhtSchema.IH h'.
Proof.
  intros E. apply (f_equal Hex.DecodeString) in E. unfold hit_key in E. rewrite !Hex.decode_encode in E.
  by injection E.
Qed.

Lemma firsts_snoc {A K} `{EqDecision K} (key : A → K) l x :
  firsts key (l ++ [x]) = add_first key (firsts key l) x.
Proof. unfold firsts. by rewrite foldl_app. Qed.

Section merging.
Context (bloom : option Bloom.BloomFilter).

Definition init (c : contribution) : LookupHit * list (array 32) := (new_hit c.2, []).
Definition upd (c : contribution) (e : LookupHit * list (array 32)) : LookupHit * list (array 32) :=
  (add_source bloom (label_of c.1) c.2 (refine c.2 e.1), e.2 ++ [PubKey c.1]).
Abbreviation gstep := (group_step key_of init upd).

(** The two maps of the code are the components of one map of groups. *)
Record simulates (s : merge_state) (g : gmap bytes (LookupHit * list (array 32))) : Prop := {
  sim_merged : merged s = fst <$> g; sim_sources : hitSources s = snd <$> g
}.

Lemma refine_new h : refine h (new_hit h) = new_hit h.
Proof.
  unfold refine, new_hit. cbn [Name Seeders Size Files InfoHash Sources_ Score BloomHit].
  rewrite Z.ltb_irrefl. f_equal.
  - by destruct (bool_decide (DhtSchema.N h = [])).
  - by destruct (_ && _).
  - by destruct (_ && _).
Qed.

Lemma merge_hit_sim i h s g :
  len (DhtSchema.IH h) = 20 → hit_key h ∉ seenFromIndexer s → simulates s g.1 →
  let s' := merge_hit bloom i s h in
  simulates s' (gstep g (i, h)).1 ∧ seenFromIndexer s' = {[hit_key h]} ∪ seenFromIndexer s.
Proof.
  intros Hl Hseen [Hm Hs]. unfold merge_hit. rewrite (proj2 (hit_key_len h) Hl). cbn [Z.eqb Pos.eqb negb].
  rewrite bool_decide_eq_false_2 by done. cbv zeta. split; [|done].
  unfold group_step. change (key_of (i, h)) with (hit_key h). rewrite Hm, Hs, !lookup_fmap.
  unfold upd, init. cbn [fst snd]. rewrite refine_new.
  destruct (g.1 !! hit_key h) as [[lh pks]|]; split; cbn [fmap option_fmap option_map default merged hitSources fst snd];
    by rewrite fmap_insert, ?Hm, ?Hs.
Qed.

Lemma merge_hits_sim i hits s g :
  simulates s g.1 → seenFromIndexer s = ∅ →
  let fs := firsts hit_key (proper hits) in
  let s' := foldl (merge_hit bloom i) s hits in
  simulates s' (foldl gstep g (pair i <$> fs)).1 ∧
  ∀ k, k ∈ seenFromIndexer s' ↔ k ∈ hit_key <$> fs.
Proof.
  intros Hsim Hs. induction hits as [|h hits IH] using rev_ind.
  { split; [done |]. intros k. simpl. rewrite Hs. by rewrite elem_of_empty, elem_of_nil. }
  cbv zeta in *. unfold proper. rewrite filter_app, foldl_app. fold (proper hits).
  set (s1 := foldl (merge_hit bloom i) s hits) in *. destruct IH as [Hsim1 Hseen1]. cbn [foldl].
  destruct (decide (len (DhtSchema.IH h) = 20)) as [Hl|Hl].
  - rewrite filter_cons_True, filter_nil, firsts_snoc by done.
    set (fs := firsts hit_key (proper hits)) in *. unfold add_first.
    destruct (decide (hit_key h ∈ hit_key <$> fs)) as [Hin|Hin].
    + rewrite bool_decide_eq_true_2 by done. unfold merge_hit.
      rewrite (proj2 (hit_key_len h) Hl). cbn [Z.eqb Pos.eqb negb].
      by rewrite bool_decide_eq_true_2 by by apply Hseen1.
    + rewrite bool_decide_eq_false_2 by done. rewrite !fmap_app, foldl_app. cbn [fmap list_fmap foldl].
      destruct (merge_hit_sim i h s1 (foldl gstep g (pair i <$> fs)) Hl) as [Hm Hn].
      { by rewrite Hseen1. }
      { done. }
      split; [done |]. intros k. rewrite Hn, elem_of_union, elem_of_singleton, Hseen1, elem_of_app,
        list_elem_of_singleton. tauto.
  - rewrite filter_cons_False, filter_nil, app_nil_r by done. unfold merge_hit.
    assert (Hk : len (hit_key h) ≠ 40) by by rewrite hit_key_len.
    by rewrite (proj2 (Z.eqb_neq _ _) Hk).
Qed.

(** What the answers say of the infohash [k], whose contributions are [cs]. *)
Definition maximum (l : list Z) : Z := match l with [] => 0 | x :: l => foldl Z.max x l end.
Definition keep_positive (a z : Z) : Z := if (a =? 0) && (0 <? z) then z else a.
Definition first_positive (l : list Z) : Z := match l with [] => 0 | x :: l => foldl keep_positive x l end.
Definition good_hit (cs : list contribution) : bool :=
  match bloom with Some b => existsb (λ c, Bloom.Test b (DhtSchema.IH c.2)) cs | None => false end.
Definition reference (k : bytes) (cs : list contribution) : LookupHit := {|
  InfoHash := k;
  Name := default [] (head (filter (λ n, n ≠ []) ((λ c, DhtSchema.N c.2) <$> cs)));
  Seeders := maximum ((λ c, DhtSchema.S_ c.2) <$> cs);
  Size := first_positive ((λ c, DhtSchema.Sz c.2) <$> cs);
  Files := first_positive ((λ c, DhtSchema.F c.2) <$> cs);
  Sources_ := (λ c, label_of c.1) <$> cs;
  Score := of_int 0;
  BloomHit := good_hit cs
|}.

Lemma good_hit_snoc cs c :
  good_hit (cs ++ [c]) =
    match bloom with Some b => if Bloom.Test b (DhtSchema.IH c.2) then true else good_hit cs | None => good_hit cs end.
Proof.
  unfold good_hit. destruct bloom as [b|]; [|done]. rewrite existsb_app. simpl. rewrite orb_false_r, orb_comm.
  by destruct (Bloom.Test b (DhtSchema.IH c.2)).
Qed.

Lemma name_snoc l (n : bytes) :
  default [] (head (filter (λ n, n ≠ []) (l ++ [n]))) =
    let d := default [] (head (filter (λ n, n ≠ []) l)) in
    if bool_decide (d = []) && negb (bool_decide (n = [])) then n else d.
Proof.
  rewrite filter_app. cbv zeta. destruct (filter (λ n, n ≠ []) l) as [|y k] eqn:E; simpl.
  - destruct (decide (n = [])) as [->|Hn].
    + rewrite filter_cons_False by tauto. done.
    + rewrite filter_cons_True by done. by rewrite bool_decide_eq_false_2.
  - assert (Hy : y ∈ filter (λ n, n ≠ []) l) by (rewrite E; by left).
    apply list_elem_of_filter in Hy as [Hy _]. by rewrite bool_decide_eq_false_2.
Qed.

Lemma maximum_snoc l x : l ≠ [] → maximum (l ++ [x]) = if maximum l <? x then x else maximum l.
Proof.
  destruct l as [|y l]; [done |]. intros _. simpl. rewrite foldl_app. simpl.
  destruct (Z.ltb_spec (foldl Z.max y l) x); lia.
Qed.
Lemma first_positive_snoc l x : l ≠ [] → first_positive (l ++ [x]) = keep_positive (first_positive l) x.
Proof. destruct l as [|y l]; [done |]. intros _. simpl. by rewrite foldl_app. Qed.

Definition entry (k : bytes) (cs : list contribution) : LookupHit * list (array 32) :=
  (reference k cs, (λ c, PubKey c.1) <$> cs).

Lemma entry_one k c : key_of c = k → upd c (init c) = entry k [c].
Proof.
  intros <-. unfold upd, init, entry. cbn [fst snd]. rewrite refine_new. unfold add_source, new_hit, reference.
  cbn [InfoHash Name Seeders Size Files Sources_ Score BloomHit fmap list_fmap app maximum first_positive foldl].
  unfold good_hit. f_equal. f_equal.
  destruct (decide (DhtSchema.N c.2 = [])) as [E|E].
  - rewrite filter_cons_False by tauto. by rewrite E.
  - by rewrite filter_cons_True.
Qed.
Lemma entry_snoc k cs c : cs ≠ [] → upd c (entry k cs) = entry k (cs ++ [c]).
Proof.
  intros Hne. assert (Hf : ∀ (f : contribution → Z), f <$> cs ≠ []) by (intros f E; by apply fmap_nil_inv in E).
  unfold upd, entry. cbn [fst snd]. rewrite !fmap_app. unfold add_source, refine, reference.
  cbn [InfoHash Name Seeders Size Files Sources_ Score BloomHit].
  rewrite !fmap_app, good_hit_snoc. cbn [fmap list_fmap].
  rewrite name_snoc, maximum_snoc, !first_positive_snoc by apply Hf. done.
Qed.

Lemma group_of_entry k cs :
  Forall (λ c, key_of c = k) cs →
  group_of init upd cs = match cs with [] => None | _ => Some (entry k cs) end.
Proof.
  induction cs as [|c cs IH] using rev_ind; [done |].
  rewrite Forall_app, Forall_singleton. intros [Hcs Hc]. rewrite group_of_snoc, (IH Hcs).
  destruct cs as [|c0 cs]; [by rewrite (entry_one k) |]. by rewrite entry_snoc.
Qed.

Definition responders (rs : list fetchResult) : list (IndexerInfo * list DhtSchema.KeywordHit) :=
  omap (λ r, match f_hits r with Ok hits => Some (info r, hits) | Err _ => None end) rs.
Definition count_returned (q : run) (t : Reputation.Tracker) (r : IndexerInfo * list DhtSchema.KeywordHit)
    : Reputation.Tracker :=
  Reputation.RecordReturned (t_returned q (PubKey r.1)) (Reputation.PubKey (PubKey r.1)) (len r.2) t.

(** The loop over the answers computes the groups. *)
Lemma answers_sim q rs n t s g :
  simulates s g.1 →
  let st := foldl (merge_answer q bloom) (n, t, s) rs in
  st.1.1 = n + len (responders rs) ∧
  st.1.2 = (λ t, foldl (count_returned q) t (responders rs)) <$> t ∧
  simulates st.2 (foldl (group_step key_of init upd) g (contributions rs)).1.
Proof.
  revert n t s g. induction rs as [|r rs IH]; intros n t s g Hs.
  { simpl. rewrite Z.add_0_r. split; [done |]. split; [by destruct t | done]. }
  cbn [foldl]. cbv zeta. unfold responders, contributions. cbn [omap list_omap mbind list_bind].
  fold (responders rs). fold (contributions rs). unfold merge_answer at 2 4 6.
  destruct (f_hits r) as [hits|e] eqn:Er; [|by apply IH].
  rewrite foldl_app.
  destruct (merge_hits_sim (info r) hits
    {| merged := merged s; hitSources := hitSources s; seenFromIndexer := ∅ |} g) as [Hm _]; [|done|].
  { destruct Hs. by split. }
  edestruct IH as (H1 & H2 & H3); [exact Hm |]. cbv zeta in H1, H2, H3. rewrite H1, H2. split; [|split].
  - rewrite len_cons. lia.
  - by destruct t.
  - exact H3.
Qed.
End merging.

(** ** The order of the answer *)

(** A stable sort, for a comparison that behaves on the elements at hand. *)
Lemma stable_sort_sorted_on {A} (P : A → Prop) (less : A → A → bool) (l : list A) :
  (∀ x y, P x → P y → less x y = true → less y x = false) →
  (∀ x y z, P x → P y → P z → less y x = false → less z y = false → less z x = false) →
  Forall P l → StronglySorted (λ x y, less y x = false) (stable_sort less l).
Proof.
  intros Hasym Htrans Hl. induction Hl as [|x l Hx Hl IH]; simpl; [constructor |].
  assert (Hk : Forall P (stable_sort less l)) by by rewrite stable_sort_perm. revert Hk.
  induction IH as [|y k Hk IHk Hy]; simpl; [by repeat constructor |]. intros [Py Pk]%Forall_cons.
  destruct (less y x) eqn:E.
  - constructor; [by apply IHk |]. rewrite sort_insert_perm. constructor; [by apply Hasym | done].
  - constructor; [by constructor |]. constructor; [done |].
    apply Forall_forall. intros z Hz. rewrite Forall_forall in Hy, Pk.
    by apply (Htrans x y z); auto.
Qed.

(** All but the names: good hits, then scores, then sources. *)
Definition rank (a : LookupHit) : Z * (Z * Z * Z) * Z :=
  (Z.b2z (BloomHit a), fkey (Score a), len (Sources_ a)).
Definition rank_lt (a b : Z * (Z * Z * Z) * Z) : Prop :=
  a.1.1 < b.1.1 ∨ (a.1.1 = b.1.1 ∧ (key_lt a.1.2 b.1.2 ∨ (a.1.2 = b.1.2 ∧ a.2 < b.2))).
Lemma rank_trans a b c : rank_lt a b → rank_lt b c → rank_lt a c.
Proof.
  destruct a as [[? [[??]?]]?], b as [[? [[??]?]]?], c as [[? [[??]?]]?]. unfold rank_lt, key_lt. simpl.
  rewrite !pair_eq. lia.
Qed.
Lemma rank_total a b : rank_lt a b ∨ a = b ∨ rank_lt b a.
Proof.
  destruct a as [[? [[??]?]]?], b as [[? [[??]?]]?]. unfold rank_lt, key_lt. simpl. rewrite !pair_eq. lia.
Qed.
Lemma rank_irrefl a : ¬ rank_lt a a.
Proof. destruct a as [[? [[??]?]]?]. unfold rank_lt, key_lt. simpl. lia. Qed.

Definition numeric (a : LookupHit) : Prop := is_nan (Score a) = false.
Lemma hit_less_rank a b :
  numeric a → numeric b →
  hit_less a b = true ↔ rank_lt (rank b) (rank a) ∨ (rank a = rank b ∧ bytes_lt (Name a) (Name b)).
Proof.
  intros Ha Hb. unfold hit_less, rank, rank_lt. cbn [fst snd]. rewrite !pair_eq.
  pose proof (flt_key (Score b) (Score a) Hb Ha) as Hlt. pose proof (feq_key (Score a) (Score b) Ha Hb) as Heq.
  assert (Hirr : ∀ k, ¬ key_lt k k) by (intros [[??]?]; unfold key_lt; simpl; lia).
  destruct (BloomHit a), (BloomHit b); simpl; try (split; [intros _ | done]; lia);
    try (split; [done |]; intros [[?|[? _]]|[[[? _] _] _]]; done).
  all: destruct (feq (Score a) (Score b)); simpl.
  all: try (rewrite Hlt; assert (fkey (Score a) ≠ fkey (Score b)) by (intros E%Heq; done);
    split; [intros; left; right; by split; [|left] |
            intros [[?|[_ [?|[E _]]]]|[[[_ E] _] _]]; [lia | done | by symmetry in E | done]]).
  all: assert (E : fkey (Score a) = fkey (Score b)) by by apply Heq.
  all: rewrite E; destruct (Z.eqb_spec (len (Sources_ a)) (len (Sources_ b))) as [El|El]; simpl.
  all: try (rewrite Z.ltb_lt; split; [intros; left; right; split; [done |]; by right |
    intros [[?|[_ [?|[_ ?]]]]|[[_ ?] _]]; [lia | by destruct (Hirr (fkey (Score b))) | done | done]]).
  all: rewrite El; unfold bytes_lt; destruct (bytes_compare _ _); split; try done; try (intros _; by right);
    intros [[?|[_ [?|[_ ?]]]]|[_ ?]]; try done; try lia; by destruct (Hirr (fkey (Score b))).
Qed.

Lemma hit_less_asym a b : numeric a → numeric b → hit_less a b = true → hit_less b a = false.
Proof.
  intros Ha Hb H. apply not_true_iff_false. rewrite hit_less_rank in * by done.
  destruct H as [H|[Hr H]]; intros [H'|[Hr' H']].
  - by apply (rank_irrefl (rank a)), (rank_trans _ (rank b)).
  - rewrite Hr' in H. by apply rank_irrefl in H.
  - rewrite Hr in H'. by apply rank_irrefl in H'.
  - by apply (bytes_lt_irrefl (Name a)), (bytes_lt_trans _ (Name b)).
Qed.
Lemma hit_less_negtrans a b c :
  numeric a → numeric b → numeric c → hit_less b a = false → hit_less c b = false → hit_less c a = false.
Proof.
  intros Ha Hb Hc. rewrite <-!not_true_iff_false, !hit_less_rank by done. intros H1 H2 [H|[Hr H]].
  - destruct (rank_total (rank a) (rank b)) as [H3|[H3|H3]]; [by apply H1; left | |].
    + apply H2. left. by rewrite <-H3.
    + apply H2. left. by apply (rank_trans _ (rank a)).
  - destruct (rank_total (rank a) (rank b)) as [H3|[H3|H3]]; [by apply H1; left | |].
    + destruct (decide (bytes_lt (Name c) (Name b))) as [Hn|Hn].
      * apply H2. right. by rewrite Hr, H3.
      * apply H1. right. split; [done |]. apply bytes_nlt_le in Hn.
        by eapply bytes_le_lt_trans.
    + apply H2. left. by rewrite Hr.
Qed.

(** ** The answer *)
Section answer.
Context `{Math, Utf8.Unicode}.

Lemma clampScore_bounds x :
  is_nan (clampScore x) = false →
  fle (of_int 0) (clampScore x) = true ∧ fle (clampScore x) (of_int 1) = true.
Proof.
  unfold clampScore. set (y := if flt (of_int 1) x then of_int 1 else x).
  intros Hn. destruct (flt y (of_int 0)) eqn:E0; [done |].
  split; [by apply flt_false_fle |]. subst y. destruct (flt (of_int 1) x) eqn:E1; [done |].
  by apply flt_false_fle.
Qed.

Lemma filter_one {A K} `{EqDecision K} (f : A → K) k l :
  NoDup (f <$> l) → filter (λ x, f x = k) l = [] ∨ ∃ x, filter (λ x, f x = k) l = [x].
Proof.
  induction l as [|x l IH]; [by left |]. cbn [fmap list_fmap]. intros [Hx Hl]%NoDup_cons.
  destruct (decide (f x = k)) as [<-|Hne]; [|rewrite filter_cons_False by done; by apply IH].
  rewrite filter_cons_True by done. right. exists x. f_equal.
  apply elem_of_nil_inv. intros y [Hy Hin]%list_elem_of_filter. apply Hx. rewrite <-Hy.
  by apply list_elem_of_fmap_2.
Qed.

(** One indexer contributes an infohash at most once. *)
Lemma of_key_sublist rs k :
  (λ c, PubKey c.1) <$> of_key rs k `sublist_of` (λ r, PubKey (info r)) <$> rs.
Proof.
  unfold of_key, contributions. induction rs as [|r rs IH]; [done |]. cbn [mbind list_bind].
  rewrite filter_app, fmap_app. cbn [fmap list_fmap].
  destruct (f_hits r) as [hits|e]; [|by apply sublist_cons].
  set (fs := firsts hit_key (proper hits)).
  assert (Hone : filter (λ c, key_of c = k) (pair (info r) <$> fs) = [] ∨
    ∃ h, filter (λ c, key_of c = k) (pair (info r) <$> fs) = [(info r, h)]).
  { destruct (filter_one (λ c : contribution, key_of c) k (pair (info r) <$> fs)) as [E|[c E]].
    - rewrite <-list_fmap_compose. apply (firsts_NoDup hit_key (proper hits)).
    - by left.
    - right. assert (Hc : c ∈ filter (λ c, key_of c = k) (pair (info r) <$> fs)) by (rewrite E; by left).
      apply list_elem_of_filter in Hc as [_ (h & -> & _)%list_elem_of_fmap]. by exists h. }
  destruct Hone as [->|[h ->]]; [by apply sublist_cons | by apply sublist_skip].
Qed.

Lemma of_key_members rs k i :
  i ∈ (of_key rs k).*1 ↔ ∃ hits, (i, hits) ∈ responders rs ∧ k ∈ hit_key <$> proper hits.
Proof.
  unfold of_key, contributions, responders. rewrite list_elem_of_fmap. split.
  - intros ([j h] & -> & [Hk Hin]%list_elem_of_filter). apply list_elem_of_bind in Hin as (r & Hin & Hr).
    destruct (f_hits r) as [hits|] eqn:E; [|by apply elem_of_nil in Hin].
    apply list_elem_of_fmap in Hin as (h' & [= -> ->] & Hh'). exists hits. split.
    + apply list_elem_of_omap. exists r. by rewrite E.
    + apply firsts_incl in Hh'. rewrite <-Hk. by apply (list_elem_of_fmap_2 hit_key).
  - intros (hits & Hr & Hk). apply list_elem_of_omap in Hr as (r & Hr & E).
    destruct (f_hits r) as [hits'|] eqn:Ef; [|done]. injection E as <- <-.
    rewrite <-(proj2 (distinct_spec _)), <-firsts_keys in Hk.
    apply list_elem_of_fmap in Hk as (h & -> & Hh). exists (info r, h). split; [done |].
    apply list_elem_of_filter. split; [done |]. apply list_elem_of_bind. exists r.
    rewrite Ef. split; [by apply list_elem_of_fmap_2 | done].
Qed.

(** The entry of one infohash, scored. *)
Definition answer_for (q : run) (l : Lookup) (t : option Reputation.Tracker) (rs : list fetchResult)
    (k : bytes) : LookupHit :=
  let lh := reference (bloom l) k (of_key rs k) in
  set_score lh (scoreLookupHit (λ pk, Reputation.Score (t_score q k pk) (Reputation.PubKey pk) <$> t)
    lh ((λ c, PubKey c.1) <$> of_key rs k)).

Lemma collected q l rs :
  let '(n, t, s) := collect q l rs in
  n = len (responders rs) ∧
  t = (λ t, foldl (count_returned q) t (responders rs)) <$> tracker l ∧
  ((λ kv, scored q t s kv.1 kv.2) <$> map_to_list (merged s)) ≡ₚ
    answer_for q l t rs <$> distinct (key_of <$> contributions rs).
Proof.
  unfold collect. set (s0 := {| merged := ∅; hitSources := ∅; seenFromIndexer := ∅ |}).
  destruct (answers_sim (bloom l) q rs 0 (tracker l) s0 (∅, [])) as (Hn & Ht & [Hm Hs]); [by split |].
  destruct (foldl (merge_answer q (bloom l)) (0, tracker l, s0) rs) as [[n t] s]. simpl in Hn, Ht, Hm, Hs.
  split; [done |]. split; [done |].
  pose proof (group_spec key_of init (upd (bloom l)) (contributions rs)) as [Hk Hg]. unfold group in Hk, Hg.
  set (g := foldl _ _ (contributions rs)) in *.
  assert (Hentry : ∀ k, g.1 !! k = match of_key rs k with [] => None | cs => Some (entry (bloom l) k cs) end).
  { intros k. rewrite Hg, (group_of_entry (bloom l) k); [by unfold of_key; destruct (filter _ _) |]. apply Forall_forall.
    by intros c [Hc _]%list_elem_of_filter. }
  apply NoDup_Permutation.
  - apply (NoDup_fmap_1 InfoHash). rewrite <-list_fmap_compose.
    assert (Hids : InfoHash ∘ (λ kv, scored q t s kv.1 kv.2) <$> map_to_list (merged s) = (map_to_list (merged s)).*1).
    { apply list_fmap_ext. intros i [k lh] Hi. simpl. apply list_elem_of_lookup_2, elem_of_map_to_list in Hi.
      rewrite Hm, lookup_fmap, Hentry in Hi. by destruct (of_key rs k); simplify_eq/=. }
    rewrite Hids. apply NoDup_fst_map_to_list.
  - apply (NoDup_fmap_1 InfoHash). rewrite <-list_fmap_compose.
    assert (E : ∀ ks : list bytes, InfoHash ∘ answer_for q l t rs <$> ks = ks)
      by (intros ks; induction ks as [|k ks IH]; [done | by cbn; rewrite IH]).
    rewrite E. apply distinct_spec.
  - intros lh. rewrite !list_elem_of_fmap.
    assert (Hmem : ∀ k, k ∈ distinct (key_of <$> contributions rs) ↔ of_key rs k ≠ []).
    { intros k. rewrite (proj2 (distinct_spec _)), list_elem_of_fmap. unfold of_key. split.
      - intros (c & -> & Hc) E. assert (Hin : c ∈ filter (λ c', key_of c' = key_of c) (contributions rs))
          by by apply list_elem_of_filter. rewrite E in Hin. by apply elem_of_nil in Hin.
      - intros Hne. destruct (filter _ _) as [|c cs] eqn:E; [done |]. exists c.
        assert (Hin : c ∈ filter (λ c', key_of c' = k) (contributions rs)) by (rewrite E; by left).
        by apply list_elem_of_filter in Hin as [<- ?]. }
    assert (Hval : ∀ k cs, of_key rs k = cs → cs ≠ [] →
      merged s !! k = Some (reference (bloom l) k cs) ∧ hitSources s !! k = Some ((λ c, PubKey c.1) <$> cs)).
    { intros k cs Hcs Hne. rewrite Hm, Hs, !lookup_fmap, Hentry, Hcs. by destruct cs. }
    split.
    + intros ([k m] & -> & Hin%elem_of_map_to_list). exists k. simpl.
      assert (Hne : of_key rs k ≠ []).
      { intros E. rewrite Hm, lookup_fmap, Hentry, E in Hin. done. }
      destruct (Hval k _ eq_refl Hne) as [H1 H2]. rewrite H1 in Hin. injection Hin as <-.
      split; [|by apply Hmem]. unfold scored, answer_for. by rewrite H2.
    + intros (k & -> & Hin%Hmem). destruct (Hval k _ eq_refl Hin) as [H1 H2].
      exists (k, reference (bloom l) k (of_key rs k)). simpl. split; [|by apply elem_of_map_to_list].
      unfold scored, answer_for. by rewrite H2.
Qed.

(** [C24] What a query answers.  A text without a keyword is an error, and nothing is
    asked when the reputation cutoff leaves no indexer.  Otherwise, in whatever
    order indexers are walked, answers arrive and maps are ranged over: every
    indexer that passes is asked, each that answers counts once and has its hits
    counted; the answer has exactly one entry for each 20-byte infohash some
    indexer listed, the reference computed from the first such hit of each indexer,
    so repeating a hit gives an indexer no second source; every score that is a
    number lies in [0, 1], and entries are sorted by good hit, score, number of
    sources and name. *)
Theorem lookup_answers (q : run) (query : bytes) (l : Lookup)
    (Hkeys : ∀ k i, indexers l !! k = Some i → PubKey i = k) :
  let keyword := Token.MostDistinctive (Token.Tokenize query) in
  (keyword = [] → Query q query l = (l, Err ErrNoTokens)) ∧
  (keyword ≠ [] → asked q l = [] →
     Query q query l = (l, Ok {| IndexersAsked := 0; IndexersResponded := 0; Hits := [] |})) ∧
  (keyword ≠ [] → asked q l ≠ [] →
   let rs := q_arrive q (fetch q keyword <$> asked q l) in
   ∃ l' resp, Query q query l = (l', Ok resp) ∧
     indexers l' = indexers l ∧
     tracker l' = (λ t, foldl (count_returned q) t (responders rs)) <$> tracker l ∧
     IndexersAsked resp = len (asked q l) ∧ IndexersResponded resp = len (responders rs) ∧
     Hits resp ≡ₚ answer_for q l (tracker l') rs <$> distinct (key_of <$> contributions rs) ∧
     NoDup (InfoHash <$> Hits resp) ∧
     (Forall numeric (Hits resp) → StronglySorted (λ a b, hit_less b a = false) (Hits resp)) ∧
     ∀ lh, lh ∈ Hits resp →
       let cs := of_key rs (InfoHash lh) in
       lh = answer_for q l (tracker l') rs (InfoHash lh) ∧ cs ≠ [] ∧
       NoDup ((λ c, PubKey c.1) <$> cs) ∧
       (∀ i, i ∈ cs.*1 ↔ ∃ hits, (i, hits) ∈ responders rs ∧ InfoHash lh ∈ hit_key <$> proper hits) ∧
       (numeric lh → fle (of_int 0) (Score lh) = true ∧ fle (Score lh) (of_int 1) = true)).
Proof.
  intros keyword. unfold Query. fold keyword. split; [|split].
  { intros ->. by rewrite bool_decide_eq_true_2. }
  { intros Hk ->. by rewrite bool_decide_eq_false_2. }
  intros Hk Ha. set (rs := q_arrive q (fetch q keyword <$> asked q l)). rewrite bool_decide_eq_false_2 by done.
  rewrite (proj2 (Z.eqb_neq (len (asked q l)) 0)) by (intros E; apply Ha; destruct (asked q l); [done | unfold len in E; simpl in E; lia]).
  pose proof (collected q l rs) as Hc. destruct (collect q l rs) as [[n t] s].
  destruct Hc as (-> & Ht & Hp). eexists _, _. split; [reflexivity |]. cbn [indexers tracker IndexersAsked IndexersResponded Hits].
  set (out := stable_sort hit_less _). assert (Hout : out ≡ₚ answer_for q l t rs <$> distinct (key_of <$> contributions rs)).
  { unfold out. by rewrite stable_sort_perm, q_merged_perm. }
  assert (Hids : ∀ ks : list bytes, InfoHash ∘ answer_for q l t rs <$> ks = ks)
    by (intros ks; induction ks as [|k ks IH]; [done | by cbn; rewrite IH]).
  split; [done |]. split; [done |]. split; [done |]. split; [done |]. split; [done |]. split; [|split].
  - rewrite Hout, <-list_fmap_compose, Hids. apply distinct_spec.
  - intros Hn. apply (stable_sort_sorted_on numeric); [apply hit_less_asym | apply hit_less_negtrans |].
    unfold out in Hn. by rewrite stable_sort_perm in Hn.
  - intros lh Hlh. rewrite Hout in Hlh. apply list_elem_of_fmap in Hlh as (k & Hlh & Hin).
    assert (Hih : InfoHash lh = k) by by rewrite Hlh. rewrite Hih. split; [done |].
    rewrite (proj2 (distinct_spec _)) in Hin. apply list_elem_of_fmap in Hin as (c & -> & Hc).
    split; [|split; [|split]].
    + intros E. assert (Hc' : c ∈ of_key rs (key_of c)) by by apply list_elem_of_filter.
      rewrite E in Hc'. by apply elem_of_nil in Hc'.
    + eapply sublist_NoDup; [|apply of_key_sublist].
      assert (Hpk : (λ r, PubKey (info r)) <$> rs ≡ₚ PubKey <$> asked q l).
      { unfold rs. rewrite q_arrive_perm, <-list_fmap_compose. done. }
      rewrite Hpk.
      assert (Hall : NoDup (PubKey <$> q_walk q (Indexers l))).
      { rewrite q_walk_perm. unfold Indexers. rewrite <-list_fmap_compose.
        rewrite (list_fmap_ext _ fst); [apply NoDup_fst_map_to_list |].
        intros i [k j] Hi%list_elem_of_lookup_2%elem_of_map_to_list. by apply Hkeys. }
      unfold asked. destruct (tracker l); [|done]. destruct (flt _ _); [|done].
      clear -Hall. induction (q_walk q (Indexers l)) as [|x xs IH]; [constructor |].
      cbn [fmap list_fmap] in Hall. apply NoDup_cons in Hall as [Hx Hxs]. simpl.
      destruct (Reputation.Threshold _ _ _ _); [|by apply IH]. cbn [fmap list_fmap].
      apply NoDup_cons. split; [|by apply IH]. intros Hin. apply Hx.
      apply list_elem_of_fmap in Hin as (y & Hy & Hin). rewrite Hy. apply list_elem_of_fmap_2.
      apply list_elem_of_In. apply list_elem_of_In, List.filter_In in Hin. tauto.
    + intros i. apply of_key_members.
    + rewrite Hlh. unfold numeric, answer_for. cbn [Score set_score]. unfold scoreLookupHit.
      destruct (_ =? 0); [done |]. apply clampScore_bounds.
Qed.
End answer.

(** ** Concrete queries *)
Module Examples.
#[local] Existing Instance Bloom.zero_math.
#[local] Existing Instance Utf8.ascii_unicode.

Definition key (c : byte) : array 32 := copy_arr 32 [c].
Definition listed_hit (c : byte) (seeders : Z) : DhtSchema.KeywordHit :=
  {| DhtSchema.IH := replicate 20 c; DhtSchema.N := str "Ubuntu"; DhtSchema.S_ := seeders;
     DhtSchema.F := 1; DhtSchema.Sz := 9 |}.
(** The first indexer lists one torrent three times, the second lists it once next
    to another, the third does not answer. *)
Definition answers (pk : array 32) (keyword : bytes) : result bytes (list DhtSchema.KeywordHit) :=
  if bool_decide (pk = key x01) then Ok [listed_hit x0a 3; listed_hit x0a 90; listed_hit x0a 91]
  else if bool_decide (pk = key x02) then Ok [listed_hit x0a 7; listed_hit x0b 1]
  else Err (str "timeout").
Definition plain : run := {|
  q_walk := id; q_answer := answers; q_arrive := id; q_merged := id; q_sources := id;
  t_filter := λ _, 0; t_returned := λ _, 0; t_score := λ _ _, 0;
  q_walk_perm := @Permutation_refl _; q_arrive_perm := @Permutation_refl _;
  q_merged_perm := @Permutation_refl _; q_sources_perm := @Permutation_refl _
|}.
Definition known : Lookup :=
  AddIndexer 3 (key x03) (str "c") (AddIndexer 2 (key x02) (str "b") (AddIndexer 1 (key x01) (str "a") NewLookup)).

(** The repetition earns no source and its higher seeder counts are not read. *)
Example repetition_is_ignored :
  match (Query plain (str "an ubuntu") known).2 with
  | Ok resp => (λ h, (Sources_ h, Seeders h)) <$> Hits resp = [([str "a"; str "b"], 7); ([str "b"], 1)]
               ∨ (λ h, (Sources_ h, Seeders h)) <$> Hits resp = [([str "b"; str "a"], 7); ([str "b"], 1)]
  | Err _ => False
  end.
Proof. vm_compute. (left; reflexivity) || (right; reflexivity). Qed.

Lemma lookup_answers_witness :
  ∃ resp, (Query plain (str "an ubuntu") known).2 = Ok resp ∧ IndexersAsked resp = 3 ∧
    IndexersResponded resp = 2 ∧ NoDup (InfoHash <$> Hits resp).
Proof.
  destruct (lookup_answers plain (str "an ubuntu") known) as (_ & _ & Hq).
  - intros k i Hi. unfold known, AddIndexer, with_indexers in Hi. cbn [indexers NewLookup] in Hi.
    assert (Hall : map_Forall (λ k i, PubKey i = k) (indexers known))
      by (apply (bool_decide_unpack _); vm_compute; exact I).
    by apply Hall in Hi.
  - destruct Hq as (l' & resp & Hr & _ & _ & Ha & Hn & _ & Hd & _).
    + vm_compute. discriminate.
    + vm_compute. discriminate.
    + exists resp. rewrite Hr. split; [reflexivity |]. rewrite Ha, Hn. split; [vm_compute; reflexivity |].
      split; [vm_compute; reflexivity | exact Hd].
Defined.
End Examples.
End Lookup.
