(* ===== verification/Indexer.v ===== *)
(** * The local index (internal/indexer: indexer.go, content.go, schema.go)

    Torrent documents and content documents in one bleve index: the two upserts
    with their provenance rules, the paginated walks and the batched deletion.
    bleve itself is a parameter, the class [Bleve]; what the code relies on is
    [BleveLaws]. *)

From Stdlib Require Import SpecFloat.
From S2P Require Import Prelude GoInt Utf8 GoFloat DhtSchema.
Open Scope Z_scope.

Module Indexer.
Import GoFloat.

(** ** Documents

    What [toBleve] builds and what [SearchHit.Fields] holds: a [map[string]any].
    Integers come back as [float64], times as RFC 3339 strings, a slice of one
    string as that string. *)
Inductive value : Type :=
  | VString (s : bytes) | VInt (z : Z) | VTime (t : Z) | VStrings (l : list bytes)
  | VFloat (f : float64).
Abbreviation document := (gmap bytes value).
#[export] Instance spec_float_eq_dec : EqDecision spec_float.
Proof. solve_decision. Defined.
#[export] Instance value_eq_dec : EqDecision value.
Proof. solve_decision. Defined.

Definition fieldType := str "type".
Definition fieldInfoHash := str "infohash".
Definition fieldName := str "name".
Definition fieldFilePaths := str "files".
Definition fieldTrackers := str "trackers".
Definition fieldSizeBytes := str "size_bytes".
Definition fieldAddedAt := str "added_at".
Definition fieldFileCount := str "file_count".
Definition fieldSignedBy := str "signed_by".
Definition fieldFileIndex := str "file_index".
Definition fieldFilePath := str "file_path".
Definition fieldFileSize := str "file_size".
Definition fieldMime := str "mime".
Definition fieldText := str "text".
Definition fieldExtractor := str "extractor".
Definition fieldIndexedAt := str "indexed_at".
Definition typeTorrent := str "torrent".
Definition typeContent := str "content".

(** The queries the code builds. *)
Inductive query : Type :=
  | DocIDQuery (ids : list bytes)
  | QueryStringQuery (s : bytes)
  | TermQuery (field term : bytes)
  | ConjunctionQuery (p q : query).

(** An error of bleve is its message. *)
Class Bleve (B : Type) := {
  bleve_Document : bytes → B → result bytes bool;      (** whether there is one *)
  bleve_Index : bytes → document → B → B * result bytes unit;
  bleve_Delete : bytes → B → B * result bytes unit;
  bleve_Batch : list bytes → B → B * result bytes unit;   (** of deletions *)
  bleve_Search : query → Z → Z → list bytes → B → result bytes (Z * list (bytes * document));
  bleve_DocCount : B → result bytes Z;
  query_string : bytes → document → bool;              (** the query-string grammar *)
  format_time : Z → bytes;                             (** RFC 3339 *)
  parse_time : bytes → option Z
}.

Fixpoint matches `{Bleve B} (q : query) (id : bytes) (d : document) : bool :=
  match q with
  | DocIDQuery ids => bool_decide (id ∈ ids)
  | QueryStringQuery s => query_string s d
  | TermQuery field term => bool_decide (d !! field = Some (VString term))
  | ConjunctionQuery p q => matches p id d && matches q id d
  end.

Definition project_value `{Bleve B} (v : value) : option value :=
  match v with
  | VInt z => Some (VFloat (of_int z))
  | VTime t => Some (VString (format_time t))
  | VStrings [] => None
  | VStrings [s] => Some (VString s)
  | v => Some v
  end.
(** The stored fields a search returns. *)
Definition project `{Bleve B} (names : list bytes) (d : document) : document :=
  omap project_value (filter (λ kv, kv.1 ∈ names) d).

(** What bleve documents: an index holds documents by ID, a search without an
    error counts all matches and returns one window of them in an order that
    does not change, a write that fails changes nothing. *)
Class BleveLaws (B : Type) `{Bleve B} := {
  docs : B → gmap bytes document;
  ranked : query → B → list bytes;
  ranked_spec q b id : id ∈ ranked q b ↔ ∃ d, docs b !! id = Some d ∧ matches q id d = true;
  ranked_NoDup q b : NoDup (ranked q b);
  Search_window q size from names b n hits :
    bleve_Search q size from names b = Ok (n, hits) → 0 ≤ size → 0 ≤ from →
    n = len (ranked q b) ∧
    hits = (λ id, (id, project names (default ∅ (docs b !! id)))) <$>
             take (Z.to_nat size) (drop (Z.to_nat from) (ranked q b));
  Document_docs id b o : bleve_Document id b = Ok o → o = bool_decide (is_Some (docs b !! id));
  Index_docs id d b : let '(b', r) := bleve_Index id d b in
    docs b' = match r with Ok _ => <[id := d]> (docs b) | Err _ => docs b end;
  Delete_docs id b : let '(b', r) := bleve_Delete id b in
    docs b' = match r with Ok _ => delete id (docs b) | Err _ => docs b end;
  Batch_docs ids b : let '(b', r) := bleve_Batch ids b in
    docs b' = match r with Ok _ => filter (λ kv, kv.1 ∉ ids) (docs b) | Err _ => docs b end;
  query_string_type d : query_string (str "+type:torrent") d =
    bool_decide (d !! fieldType = Some (VString typeTorrent));
  parse_format_time t : format_time t ≠ [] ∧ parse_time (format_time t) = Some t
}.

(** ** Torrent and content documents *)
Record TorrentDoc := {
  t_InfoHash : bytes; t_Name : bytes; t_FilePaths : list bytes; t_Trackers : list bytes;
  t_SizeBytes : Z; t_FileCount : Z; t_AddedAt : Z; t_SignedBy : bytes;
  PreserveExistingSigner : bool
}.
Record ContentDoc := {
  c_InfoHash : bytes; c_FileIndex : Z; c_FilePath : bytes; c_FileSize : Z; c_Mime : bytes;
  c_Text : bytes; c_Extractor : bytes; c_IndexedAt : Z; c_ChunkIndex : Z;
  PreserveExisting : bool
}.

(** [strings.Join(_, "\n")] and [strings.Split(_, "\n")]. *)
Definition newline : byte := x0a.
Fixpoint join_lines (l : list bytes) : bytes :=
  match l with [] => [] | [s] => s | s :: l => s ++ newline :: join_lines l end.
Fixpoint split_lines (s : bytes) : list bytes :=
  match s with
  | [] => [[]]
  | c :: s =>
    if bool_decide (c = newline) then [] :: split_lines s
    else match split_lines s with [] => [[c]] | l :: ls => (c :: l) :: ls end
  end.

Definition with_SignedBy (d : TorrentDoc) (s : bytes) : TorrentDoc := {|
  t_InfoHash := t_InfoHash d; t_Name := t_Name d; t_FilePaths := t_FilePaths d;
  t_Trackers := t_Trackers d; t_SizeBytes := t_SizeBytes d; t_FileCount := t_FileCount d;
  t_AddedAt := t_AddedAt d; t_SignedBy := s; PreserveExistingSigner := PreserveExistingSigner d
|}.

(** [int64(f)]: truncation, and the least integer for what does not fit. *)
Definition int64_of_float (f : float64) : Z :=
  match f with
  | S754_finite s m e =>
    let z := if 0 <=? e then Zpos m * 2 ^ e else Zpos m / 2 ^ (- e) in
    let z := if s then - z else z in
    if (- 2 ^ 63 <=? z) && (z <? 2 ^ 63) then z else - 2 ^ 63
  | S754_zero _ => 0
  | _ => - 2 ^ 63
  end.

Section indexer.
Context `{Utf8.Unicode} {B : Type} `{Bleve B}.
Implicit Types (now : Z) (b : B).

Definition torrent_docID (ih : bytes) : bytes := str "t:" ++ Utf8.strings_ToLower ih.
Definition content_docID (d : ContentDoc) : bytes :=
  str "c:" ++ Utf8.strings_ToLower (c_InfoHash d) ++ str ":" ++
  DhtSchema.format_decimal (c_FileIndex d) ++ str ":" ++ DhtSchema.format_decimal (c_ChunkIndex d).

Definition torrent_toBleve now (d : TorrentDoc) : document := list_to_map [
  (fieldType, VString typeTorrent);
  (fieldInfoHash, VString (Utf8.strings_ToLower (t_InfoHash d)));
  (fieldName, VString (t_Name d));
  (fieldFilePaths, VString (join_lines (t_FilePaths d)));
  (fieldTrackers, VStrings (t_Trackers d));
  (fieldSizeBytes, VInt (t_SizeBytes d));
  (fieldAddedAt, VTime (if t_AddedAt d =? 0 then now else t_AddedAt d));
  (fieldFileCount, VInt (if t_FileCount d =? 0 then len (t_FilePaths d) else t_FileCount d));
  (fieldSignedBy, VString (Utf8.strings_ToLower (t_SignedBy d)))].

Definition content_toBleve now (d : ContentDoc) : document := list_to_map [
  (fieldType, VString typeContent);
  (fieldInfoHash, VString (Utf8.strings_ToLower (c_InfoHash d)));
  (fieldFileIndex, VInt (c_FileIndex d));
  (fieldFilePath, VString (c_FilePath d));
  (fieldFileSize, VInt (c_FileSize d));
  (fieldMime, VString (c_Mime d));
  (fieldText, VString (c_Text d));
  (fieldExtractor, VString (c_Extractor d));
  (fieldIndexedAt, VTime (if c_IndexedAt d =? 0 then now else c_IndexedAt d))].

(** [v, ok := fields[f].(string)], and the same for a number and a time. *)
Definition get_string (f : bytes) (m : document) : bytes :=
  match m !! f with Some (VString s) => s | _ => [] end.
Definition get_int (f : bytes) (m : document) : Z :=
  match m !! f with Some (VFloat x) => int64_of_float x | _ => 0 end.
Definition get_time (f : bytes) (m : document) : Z :=
  match m !! f with
  | Some (VString s) => if bool_decide (s = []) then 0 else default 0 (parse_time s)
  | _ => 0
  end.

Definition torrentDocFromFields (m : document) : TorrentDoc := {|
  t_InfoHash := get_string fieldInfoHash m;
  t_Name := get_string fieldName m;
  t_FilePaths := let v := get_string fieldFilePaths m in
                 if bool_decide (v = []) then [] else split_lines v;
  t_Trackers := match m !! fieldTrackers with
                | Some (VString v) => if bool_decide (v = []) then [] else [v]
                | Some (VStrings l) => l
                | _ => []
                end;
  t_SizeBytes := get_int fieldSizeBytes m; t_FileCount := get_int fieldFileCount m;
  t_AddedAt := get_time fieldAddedAt m; t_SignedBy := get_string fieldSignedBy m;
  PreserveExistingSigner := false
|}.
Definition contentDocFromFields (m : document) : ContentDoc := {|
  c_InfoHash := get_string fieldInfoHash m; c_FileIndex := get_int fieldFileIndex m;
  c_FilePath := get_string fieldFilePath m; c_FileSize := get_int fieldFileSize m;
  c_Mime := get_string fieldMime m; c_Text := get_string fieldText m;
  c_Extractor := get_string fieldExtractor m; c_IndexedAt := get_time fieldIndexedAt m;
  c_ChunkIndex := 0; PreserveExisting := false
|}.

(** ** The index: [None] once closed *)
Inductive error : Type :=
  | ErrNoInfoHash | ErrNoText | ErrClosed | ErrForeignTorrent | ErrBleve (text : bytes)
  | ErrNoProgress | ErrFuel.

Definition wrap {A} (r : result bytes A) : result error A :=
  match r with Ok a => Ok a | Err text => Err (ErrBleve text) end.

Definition storedSignedByLocked (id : bytes) b : bytes :=
  match bleve_Search (DocIDQuery [id]) 1 0 [fieldSignedBy] b with
  | Ok (_, (_, fields) :: _) => get_string fieldSignedBy fields
  | _ => []
  end.

Definition IndexTorrent now (doc : TorrentDoc) (i : option B) : option B * result error unit :=
  if bool_decide (t_InfoHash doc = []) then (i, Err ErrNoInfoHash)
  else match i with
  | None => (i, Err ErrClosed)
  | Some b =>
    let id := torrent_docID (t_InfoHash doc) in
    let index doc := let '(b, r) := bleve_Index id (torrent_toBleve now doc) b in (Some b, wrap r) in
    if bool_decide (t_SignedBy doc = []) then
      let stored := storedSignedByLocked id b in
      index (if bool_decide (stored = []) then doc else with_SignedBy doc stored)
    else if PreserveExistingSigner doc then
      match bleve_Document id b with
      | Ok true =>
        if bool_decide (storedSignedByLocked id b = Utf8.strings_ToLower (t_SignedBy doc))
        then index doc else (i, Err ErrForeignTorrent)
      | _ => index doc
      end
    else index doc
  end.

Definition IndexContent now (doc : ContentDoc) (i : option B) : option B * result error unit :=
  if bool_decide (c_InfoHash doc = []) then (i, Err ErrNoInfoHash)
  else if bool_decide (c_Text doc = []) then (i, Err ErrNoText)
  else match i with
  | None => (i, Err ErrClosed)
  | Some b =>
    let index := let '(b, r) := bleve_Index (content_docID doc) (content_toBleve now doc) b in
                 (Some b, wrap r) in
    if PreserveExisting doc then
      match bleve_Document (content_docID doc) b with Ok true => (i, Ok tt) | _ => index end
    else index
  end.

Definition DeleteTorrent (ih : bytes) (i : option B) : option B * result error unit :=
  match i with
  | None => (i, Err ErrClosed)
  | Some b => let '(b, r) := bleve_Delete (torrent_docID ih) b in (Some b, wrap r)
  end.
Definition DocCount (i : option B) : result error Z :=
  match i with None => Err ErrClosed | Some b => wrap (bleve_DocCount b) end.

(** ** The walks

    Pages of [batch] documents, at most [fuel] of them. *)
Definition batch : Z := 1000.
Fixpoint walk {A} (f : document → A) (q : query) (names : list bytes) (b : B) (fuel : nat)
    (from : Z) (out : list A) : result error (list A) :=
  match fuel with
  | O => Ok out
  | S fuel =>
    match bleve_Search q batch from names b with
    | Err e => Err (ErrBleve e)
    | Ok (_, hits) =>
      if len hits =? 0 then Ok out
      else
        let out := out ++ (f <$> hits.*2) in
        if len hits <? batch then Ok out else walk f q names b fuel (from + batch) out
    end
  end.
Definition walk_all {A} (f : document → A) (q : query) (names : list bytes) (i : option B)
    : result error (list A) :=
  match i with
  | None => Err ErrClosed
  | Some b =>
    match bleve_Search q 0 0 [] b with
    | Err e => Err (ErrBleve e)
    | Ok (total, _) => walk f q names b (Z.to_nat (total / batch + 2)) 0 []
    end
  end.

Definition allTorrentsQuery : query :=
  QueryStringQuery (str "+" ++ fieldType ++ str ":" ++ typeTorrent).
Definition contentForInfoHashQuery (ih : bytes) : query :=
  ConjunctionQuery (TermQuery fieldType typeContent)
                   (TermQuery fieldInfoHash (Utf8.strings_ToLower ih)).
Definition torrent_fields : list bytes := [fieldInfoHash; fieldName; fieldFilePaths; fieldTrackers;
  fieldSizeBytes; fieldFileCount; fieldAddedAt; fieldSignedBy].
Definition content_fields : list bytes := [fieldInfoHash; fieldFileIndex; fieldFilePath;
  fieldFileSize; fieldMime; fieldText; fieldExtractor; fieldIndexedAt].

Definition AllTorrentDocs (i : option B) : result error (list TorrentDoc) :=
  walk_all torrentDocFromFields allTorrentsQuery torrent_fields i.
Definition ContentDocsForInfoHash (ih : bytes) (i : option B) : result error (list ContentDoc) :=
  walk_all contentDocFromFields (contentForInfoHashQuery ih) content_fields i.

(** ** Deletion by query

    [maxIters] is set from the first search; the result is the number deleted and
    the error. *)
Fixpoint delete_loop (q : query) (fuel : nat) (iter deleted maxIters : Z) (b : B)
    : B * (Z * option error) :=
  match fuel with
  | O => (b, (deleted, Some ErrFuel))
  | S fuel =>
    match bleve_Search q batch 0 [] b with
    | Err e => (b, (deleted, Some (ErrBleve e)))
    | Ok (total, hits) =>
      let maxIters := if iter =? 0 then total / batch * 2 + 4 else maxIters in
      if maxIters <=? iter then (b, (deleted, Some ErrNoProgress))
      else if len hits =? 0 then (b, (deleted, None))
      else match bleve_Batch hits.*1 b with
      | (b, Err e) => (b, (deleted, Some (ErrBleve e)))
      | (b, Ok _) =>
        let deleted := deleted + len hits in
        if len hits <? batch then (b, (deleted, None))
        else delete_loop q fuel (iter + 1) deleted maxIters b
      end
    end
  end.
(** Rounds [0] to [maxIters], the last of which gives up. *)
Definition delete_rounds (q : query) (b : B) : nat :=
  match bleve_Search q batch 0 [] b with
  | Ok (total, _) => S (Z.to_nat (total / batch * 2 + 4))
  | Err _ => 1
  end.
Definition deleteByQueryLocked (q : query) (b : B) : B * (Z * option error) :=
  delete_loop q (delete_rounds q b) 0 0 0 b.
Definition DeleteContentForTorrent (ih : bytes) (i : option B) : option B * (Z * option error) :=
  match i with
  | None => (i, (0, Some ErrClosed))
  | Some b => let '(b, r) := deleteByQueryLocked (contentForInfoHashQuery ih) b in (Some b, r)
  end.
End indexer.

(** ** The walks return every document once *)
Section walks.
Context `{Utf8.Unicode} {B : Type} `{BleveLaws B}.
Implicit Types (b : B) (q : query).

Definition matching q b : gmap bytes document := filter (λ kv, matches q kv.1 kv.2 = true) (docs b).

Lemma ranked_matching q b : ranked q b ≡ₚ (map_to_list (matching q b)).*1.
Proof.
  apply NoDup_Permutation; [apply ranked_NoDup | apply NoDup_fst_map_to_list |]. intros id.
  rewrite ranked_spec, list_elem_of_fmap. split.
  - intros (d & Hd & Hm). exists (id, d). split; [done |].
    by apply elem_of_map_to_list, map_lookup_filter_Some.
  - intros ([id' d] & -> & Hd). apply elem_of_map_to_list, map_lookup_filter_Some in Hd as [Hd Hm].
    by exists d.
Qed.

Lemma len_ranked q b : len (ranked q b) = Z.of_nat (size (matching q b)).
Proof. unfold len. by rewrite ranked_matching, length_fmap, length_map_to_list. Qed.

(** The documents of the match, with their IDs. *)
Definition seen (names : list bytes) b (id : bytes) : document := project names (default ∅ (docs b !! id)).

Lemma seen_matching names q b :
  seen names b <$> ranked q b ≡ₚ project names <$> (map_to_list (matching q b)).*2.
Proof.
  rewrite ranked_matching, <-!list_fmap_compose. apply Permutation_refl', list_fmap_ext.
  intros k [id d] Hk. apply list_elem_of_lookup_2, elem_of_map_to_list in Hk.
  apply map_lookup_filter_Some in Hk as [Hk _]. simpl. unfold seen. by rewrite Hk.
Qed.

Lemma Search_page q from names b n hits :
  0 ≤ from → bleve_Search q batch from names b = Ok (n, hits) →
  n = len (ranked q b) ∧
  hits = (λ id, (id, seen names b id)) <$> take 1000 (drop (Z.to_nat from) (ranked q b)).
Proof. intros Hf Hs. by apply Search_window in Hs. Qed.

Lemma walk_spec {A} (f : document → A) q names b fuel from out r :
  0 ≤ from ≤ len (ranked q b) → len (ranked q b) - from < batch * Z.of_nat fuel →
  walk f q names b fuel from out = Ok r →
  r = out ++ (f ∘ seen names b <$> drop (Z.to_nat from) (ranked q b)).
Proof.
  revert from out. induction fuel as [|fuel IH]; intros from out Hf Hl; [lia |]. cbn [walk].
  destruct (bleve_Search q batch from names b) as [[n hits]|] eqn:Hs; [|done].
  apply Search_page in Hs as [_ ->]; [|lia]. set (rest := drop (Z.to_nat from) (ranked q b)).
  assert (Hr : len rest = len (ranked q b) - from) by (unfold rest, len in *; rewrite length_drop; lia).
  assert (Hn : len ((λ id, (id, seen names b id)) <$> take 1000 rest) = Z.min batch (len rest)).
  { unfold len in *. rewrite length_fmap, length_take. unfold batch. lia. }
  assert (Hd : f <$> ((λ id, (id, seen names b id)) <$> take 1000 rest).*2 =
               f ∘ seen names b <$> take 1000 rest) by by rewrite <-!list_fmap_compose.
  rewrite Hn, Hd. destruct (Z.eqb_spec (Z.min batch (len rest)) 0) as [E|E].
  { intros [= <-]. destruct rest; [|rewrite len_cons in E; pose proof (len_nonneg rest); unfold batch in *; lia].
    by rewrite app_nil_r. }
  destruct (Z.ltb_spec (Z.min batch (len rest)) batch) as [Hs|Hs].
  - intros [= <-]. rewrite take_ge by (unfold len, batch in *; lia). done.
  - intros Hw. apply IH in Hw as ->; [|unfold batch in *; lia..].
    rewrite <-app_assoc, <-fmap_app. do 2 f_equal. unfold rest.
    rewrite Z2Nat.inj_add by (unfold batch; lia). change (Z.to_nat batch) with 1000%nat.
    rewrite <-drop_drop. by rewrite take_drop.
Qed.

Lemma walk_all_spec {A} (f : document → A) q names b r :
  walk_all f q names (Some b) = Ok r → r ≡ₚ f ∘ project names <$> (map_to_list (matching q b)).*2.
Proof.
  unfold walk_all. destruct (bleve_Search q 0 0 [] b) as [[n hits]|] eqn:Hs; [|done].
  apply Search_window in Hs as [-> _]; [|lia..]. pose proof (len_nonneg (ranked q b)) as Hn.
  pose proof (Z.div_mod (len (ranked q b)) batch ltac:(done)).
  pose proof (Z.mod_pos_bound (len (ranked q b)) batch ltac:(done)).
  assert (0 ≤ len (ranked q b) / batch) by (by apply Z.div_pos).
  intros ->%walk_spec; [|unfold batch in *; lia..]. rewrite drop_0. simpl.
  rewrite list_fmap_compose, seen_matching, <-list_fmap_compose. done.
Qed.

Lemma walk_total {A} (f : document → A) q names b fuel from out :
  0 ≤ from → (∀ from, 0 ≤ from → is_ok (bleve_Search q batch from names b) = true) →
  is_ok (walk f q names b fuel from out) = true.
Proof.
  intros Hf Hok. revert from out Hf. induction fuel as [|fuel IH]; intros from out Hf; [done |].
  cbn [walk]. specialize (Hok from Hf) as Hs. destruct (bleve_Search q batch from names b) as [[n hits]|]; [|done].
  destruct (_ =? 0); [done |]. destruct (_ <? _); [done |]. apply IH. unfold batch. lia.
Qed.
(** ** What is written is read back *)
Lemma split_join_lines l :
  l ≠ [] → Forall (λ s, newline ∉ s) l → split_lines (join_lines l) = l.
Proof.
  assert (Hs : ∀ s rest, newline ∉ s → split_lines (s ++ newline :: rest) = s :: split_lines rest).
  { induction s as [|c s IH]; intros rest Hn; [done |].
    apply not_elem_of_cons in Hn as [Hc Hn]. simpl. rewrite bool_decide_false by done.
    by rewrite IH. }
  assert (Hone : ∀ s, newline ∉ s → split_lines s = [s]).
  { induction s as [|c s IH]; intros Hn; [done |].
    apply not_elem_of_cons in Hn as [Hc Hn]. simpl. rewrite bool_decide_false by done.
    by rewrite IH. }
  intros Hne Hl. induction Hl as [|s l Hn Hl IH]; [done |]. destruct l as [|s' l]; [by apply Hone |].
  change (join_lines (s :: s' :: l)) with (s ++ newline :: join_lines (s' :: l)).
  rewrite Hs by done. by rewrite IH.
Qed.

Lemma project_lookup (names : list bytes) (d : document) (f : bytes) :
  f ∈ names → project names d !! f = d !! f ≫= project_value.
Proof.
  intros Hf. unfold project. rewrite lookup_omap. destruct (d !! f) as [v|] eqn:E.
  - by rewrite (map_lookup_filter_Some_2 _ _ _ v).
  - by rewrite map_lookup_filter_None_2 by by left.
Qed.

(** A document as a walk returns it: keys in lower case, numbers through
    [float64], the chunk index lost. *)
Definition via_float (z : Z) : Z := int64_of_float (of_int z).
Definition stored_torrent (now : Z) (d : TorrentDoc) : TorrentDoc := {|
  t_InfoHash := Utf8.strings_ToLower (t_InfoHash d); t_Name := t_Name d;
  t_FilePaths := t_FilePaths d; t_Trackers := t_Trackers d;
  t_SizeBytes := via_float (t_SizeBytes d);
  t_FileCount := via_float (if t_FileCount d =? 0 then len (t_FilePaths d) else t_FileCount d);
  t_AddedAt := if t_AddedAt d =? 0 then now else t_AddedAt d;
  t_SignedBy := Utf8.strings_ToLower (t_SignedBy d); PreserveExistingSigner := false
|}.
Definition stored_content (now : Z) (d : ContentDoc) : ContentDoc := {|
  c_InfoHash := Utf8.strings_ToLower (c_InfoHash d); c_FileIndex := via_float (c_FileIndex d);
  c_FilePath := c_FilePath d; c_FileSize := via_float (c_FileSize d); c_Mime := c_Mime d;
  c_Text := c_Text d; c_Extractor := c_Extractor d;
  c_IndexedAt := if c_IndexedAt d =? 0 then now else c_IndexedAt d;
  c_ChunkIndex := 0; PreserveExisting := false
|}.
(** Paths that survive [join_lines], trackers that survive the projection. *)
Definition clean (d : TorrentDoc) : Prop :=
  Forall (λ s, newline ∉ s) (t_FilePaths d) ∧ t_FilePaths d ≠ [[]] ∧ t_Trackers d ≠ [[]].

Lemma get_time_format (names : list bytes) (f : bytes) (t : Z) (d : document) :
  f ∈ names → d !! f = Some (VTime t) → get_time f (project names d) = t.
Proof.
  intros Hf Hd. unfold get_time. rewrite project_lookup, Hd by done. simpl.
  destruct (parse_format_time t) as [Hn Hp]. by rewrite bool_decide_false, Hp.
Qed.

Lemma torrent_stored now d :
  clean d →
  torrentDocFromFields (project torrent_fields (torrent_toBleve now d)) = stored_torrent now d.
Proof.
  intros (Hp & Hp1 & Ht1). unfold torrentDocFromFields, stored_torrent, get_string, get_int.
  rewrite (get_time_format _ _ (if t_AddedAt d =? 0 then now else t_AddedAt d)) by (done || set_solver).
  rewrite !project_lookup by set_solver.
  f_equal.
  - change (torrent_toBleve now d !! fieldFilePaths) with (Some (VString (join_lines (t_FilePaths d)))).
    simpl. case_bool_decide as E.
    + destruct (t_FilePaths d) as [|s [|s' l]]; [done | simpl in E; by subst | by destruct s].
    + apply split_join_lines; [|done]. intros E'. by rewrite E' in E.
  - change (torrent_toBleve now d !! fieldTrackers) with (Some (VStrings (t_Trackers d))). simpl.
    destruct (t_Trackers d) as [|v [|v' l]]; [done | | done]. simpl.
    case_bool_decide; [by subst | done].
Qed.

Lemma content_stored now d :
  contentDocFromFields (project content_fields (content_toBleve now d)) = stored_content now d.
Proof.
  unfold contentDocFromFields, stored_content, get_string, get_int.
  rewrite (get_time_format _ _ (if c_IndexedAt d =? 0 then now else c_IndexedAt d)) by (done || set_solver).
  by rewrite !project_lookup by set_solver.
Qed.

Lemma walk_after_write {A} (f : document → A) q names id d b b' l :
  (let '(b0, r) := bleve_Index id d b in (Some b0, wrap r)) = (Some b', Ok tt) →
  matches q id d = true → walk_all f q names (Some b') = Ok l →
  l ≡ₚ f (project names d) :: (f ∘ project names <$> (map_to_list (delete id (matching q b))).*2).
Proof.
  intros Hi Hm Hw. pose proof (Index_docs id d b) as Hd. destruct (bleve_Index id d b) as [b0 [u|]]; [|done].
  injection Hi as -> _. apply walk_all_spec in Hw as ->. unfold matching. rewrite Hd.
  rewrite map_filter_insert_True by done. rewrite <-insert_delete_eq.
  rewrite map_to_list_insert by apply lookup_delete_eq. done.
Qed.

(** ** Deletion *)
Lemma ranked_Batch q ids b b' :
  bleve_Batch ids b = (b', Ok tt) →
  docs b' = filter (λ kv, kv.1 ∉ ids) (docs b) ∧
  ∀ id, id ∈ ranked q b' ↔ id ∈ ranked q b ∧ id ∉ ids.
Proof.
  intros Hb. pose proof (Batch_docs ids b) as Hd. rewrite Hb in Hd. split; [done |]. intros id.
  rewrite !ranked_spec, Hd. setoid_rewrite map_lookup_filter_Some. naive_solver.
Qed.

Lemma delete_loop_spec q fuel iter deleted maxIters b :
  let total := len (ranked q b) in
  let m := if iter =? 0 then total / batch * 2 + 4 else maxIters in
  0 ≤ iter → total / batch + 2 ≤ m - iter → m - iter < Z.of_nat fuel →
  ∃ b' gone e, delete_loop q fuel iter deleted maxIters b = (b', (deleted + len gone, e)) ∧
    NoDup gone ∧ gone ⊆ ranked q b ∧ docs b' = filter (λ kv, kv.1 ∉ gone) (docs b) ∧
    match e with None => ranked q b ⊆ gone | Some (ErrBleve _) => True | Some _ => False end.
Proof.
  assert (Hnil : ∀ (b : B), docs b = filter (λ kv, kv.1 ∉ @nil bytes) (docs b)).
  { intros b0. symmetry. apply map_filter_id. intros id d _. apply not_elem_of_nil. }
  revert iter deleted maxIters b. induction fuel as [|fuel IH]; intros iter deleted maxIters b total m Hi Hm Hf;
    [pose proof (Z.div_pos total batch (len_nonneg _) ltac:(done)); lia |].
  assert (Hstop : ∀ e : option error, match e with None => ranked q b ⊆ [] | Some (ErrBleve _) => True | Some _ => False end →
    ∃ b' gone e', (b, (deleted, e)) = (b', (deleted + len gone, e')) ∧
    NoDup gone ∧ gone ⊆ ranked q b ∧ docs b' = filter (λ kv, kv.1 ∉ gone) (docs b) ∧
    match e' with None => ranked q b ⊆ gone | Some (ErrBleve _) => True | Some _ => False end).
  { intros e He. exists b, [], e. rewrite len_nil, Z.add_0_r. split_and!; try done; [constructor | apply list_subseteq_nil]. }
  cbn [delete_loop]. destruct (bleve_Search q batch 0 [] b) as [[n hits]|] eqn:Hs; [|by apply Hstop].
  apply Search_page in Hs as [-> ->]; [|lia]. fold total. fold m.
  pose proof (Z.div_pos total batch (len_nonneg _) ltac:(done)) as Hp.
  rewrite (proj2 (Z.leb_gt m iter)) by lia. rewrite drop_0. set (ids := take 1000 (ranked q b)).
  assert (Hl : len ids = Z.min batch total) by (unfold ids, total, len, batch; rewrite length_take; lia).
  assert (Hids : ((λ id, (id, seen [] b id)) <$> ids).*1 = ids)
    by (rewrite <-list_fmap_compose; apply list_fmap_id).
  assert (Hlh : len ((λ id, (id, seen [] b id)) <$> ids) = Z.min batch total)
    by (unfold len in *; by rewrite length_fmap).
  rewrite Hids, Hlh.
  destruct (Z.eqb_spec (Z.min batch total) 0) as [E|E].
  { apply Hstop. unfold total in E. destruct (ranked q b) as [|x r]; [done |].
    rewrite len_cons in E. pose proof (len_nonneg r). unfold batch in E. lia. }
  destruct (bleve_Batch ids b) as [b1 [[]|]] eqn:Hb.
  2:{ pose proof (Batch_docs ids b) as Hd. rewrite Hb in Hd. exists b1, [], (Some (ErrBleve e)).
      rewrite len_nil, Z.add_0_r. split_and!; try done; [constructor | apply list_subseteq_nil | by rewrite Hd]. }
  apply (ranked_Batch q) in Hb as [Hd Hr]. pose proof (ranked_NoDup q b) as Hnd.
  assert (Hnids : NoDup ids) by (eapply sublist_NoDup; [exact Hnd | apply sublist_take]).
  assert (Hsub : ids ⊆ ranked q b) by (intros x Hx; by eapply subseteq_take).
  destruct (Z.ltb_spec (Z.min batch total) batch) as [Hlt|Hge].
  { exists b1, ids, None. rewrite Hl. split_and!; try done.
    unfold ids. rewrite take_ge; [done |]. unfold total, len, batch in *. lia. }
  assert (Hp1 : ranked q b1 ≡ₚ drop 1000 (ranked q b)).
  { apply NoDup_Permutation; [apply ranked_NoDup | eapply sublist_NoDup; [exact Hnd | apply sublist_drop] |].
    intros id. rewrite Hr. rewrite <-(take_drop 1000 (ranked q b)) at 1. fold ids. rewrite elem_of_app.
    rewrite <-(take_drop 1000 (ranked q b)) in Hnd. apply NoDup_app in Hnd as (_ & Hdis & _).
    split; [naive_solver |]. intros Hx. split; [by right |]. intros Hi'. by apply (Hdis id). }
  assert (Ht1 : len (ranked q b1) = total - batch).
  { unfold len, total in *. rewrite Hp1, length_drop. unfold len, batch in *. lia. }
  assert (Hdiv : (total - batch) / batch = total / batch - 1)
    by (replace (total - batch) with (total + (-1) * batch) by lia; rewrite Z.div_add by done; lia).
  destruct (IH (iter + 1) (deleted + Z.min batch total) m b1) as (b' & gone & e & -> & Hng & Hgs & Hdg & He);
    [lia | | |].
  1,2: rewrite (proj2 (Z.eqb_neq (iter + 1) 0)), ?Ht1, ?Hdiv by lia; lia.
  exists b', (ids ++ gone), e. rewrite len_app, Hl, Z.add_assoc. split_and!; [done | | | |].
  - apply NoDup_app. split; [done |]. split; [|done]. intros id Hi1 Hi2. apply Hgs in Hi2.
    by apply Hr in Hi2 as [_ Hi2].
  - intros id [Hid|Hid]%elem_of_app; [by apply Hsub |]. apply Hgs in Hid. by apply Hr in Hid as [? _].
  - rewrite Hdg, Hd, map_filter_filter. apply map_filter_ext. intros id d _. simpl.
    rewrite not_elem_of_app. naive_solver.
  - destruct e as [[]|]; try done. intros id Hid. apply elem_of_app.
    destruct (decide (id ∈ ids)); [by left | right]. by apply He, Hr.
Qed.

Lemma delete_rounds_spec q b n hits :
  bleve_Search q batch 0 [] b = Ok (n, hits) →
  delete_rounds q b = S (Z.to_nat (len (ranked q b) / batch * 2 + 4)).
Proof. intros Hs. unfold delete_rounds. rewrite Hs. by apply Search_page in Hs as [-> _]. Qed.

Lemma deleteByQueryLocked_spec q b :
  ∃ b' gone e, deleteByQueryLocked q b = (b', (len gone, e)) ∧
    NoDup gone ∧ gone ⊆ ranked q b ∧ docs b' = filter (λ kv, kv.1 ∉ gone) (docs b) ∧
    match e with None => ranked q b ⊆ gone | Some (ErrBleve _) => True | Some _ => False end.
Proof.
  unfold deleteByQueryLocked. destruct (bleve_Search q batch 0 [] b) as [[n hits]|text] eqn:Hs.
  - erewrite delete_rounds_spec by done. apply (delete_loop_spec q _ 0 0 0 b); [lia | |].
    1,2: pose proof (Z.div_pos (len (ranked q b)) batch (len_nonneg _) ltac:(done)); simpl Z.eqb; cbv iota; lia.
  - unfold delete_rounds. rewrite Hs. cbn [delete_loop]. rewrite Hs. exists b, [], (Some (ErrBleve text)).
    split_and!; try done; [constructor | apply list_subseteq_nil |].
    symmetry. apply map_filter_id. intros id d _. apply not_elem_of_nil.
Qed.


(** Deleting the content of a torrent ends, removes content of that torrent
    only, counts what it removed, and stops early only on an error of bleve: its
    guard against deletions without effect never fires. *)
Lemma delete_content ih b :
  ∃ b' gone e, DeleteContentForTorrent ih (Some b) = (Some b', (len gone, e)) ∧ NoDup gone ∧
    (∀ id, id ∈ gone → ∃ d, docs b !! id = Some d ∧ d !! fieldType = Some (VString typeContent) ∧
                            d !! fieldInfoHash = Some (VString (Utf8.strings_ToLower ih))) ∧
    docs b' = filter (λ kv, kv.1 ∉ gone) (docs b) ∧
    match e with
    | None => ∀ id d, docs b' !! id = Some d → d !! fieldType = Some (VString typeContent) →
                      d !! fieldInfoHash ≠ Some (VString (Utf8.strings_ToLower ih))
    | Some (ErrBleve _) => True
    | Some _ => False
    end.
Proof.
  unfold DeleteContentForTorrent.
  destruct (deleteByQueryLocked_spec (contentForInfoHashQuery ih) b) as (b' & gone & e & -> & Hn & Hg & Hd & He).
  exists b', gone, e. split_and!; [done.. | | done |].
  - intros id Hid%Hg. apply ranked_spec in Hid as (d & Hid & Hm). exists d. split; [done |].
    by apply andb_true_iff in Hm as [Ha%bool_decide_eq_true Hb%bool_decide_eq_true].
  - destruct e as [[]|]; try done. intros id d Hid Ht Hi. rewrite Hd in Hid.
    apply map_lookup_filter_Some in Hid as [Hid Hng]. apply Hng, He, ranked_spec. exists d.
    split; [done |]. simpl. by rewrite !bool_decide_true.
Qed.

(** ** Imports

    What another node's snapshot may do to the index: writes that carry the two
    preserve flags. *)
Inductive import : Type :=
  | ImportTorrent (now : Z) (d : TorrentDoc)
  | ImportContent (now : Z) (d : ContentDoc).
Definition run_import (i : option B) (m : import) : option B :=
  match m with
  | ImportTorrent now d => (IndexTorrent now d i).1
  | ImportContent now d => (IndexContent now d i).1
  end.
Definition preserving (m : import) : Prop :=
  match m with
  | ImportTorrent _ d => t_SignedBy d ≠ [] ∧ PreserveExistingSigner d = true
  | ImportContent _ d => PreserveExisting d = true
  end.

(** The signer of a document, as the point read sees it. *)
Definition signer (d : document) : bytes := get_string fieldSignedBy (project [fieldSignedBy] d).
(** The document an import writes, and where. *)
Definition target (m : import) : bytes :=
  match m with ImportTorrent _ d => torrent_docID (t_InfoHash d) | ImportContent _ d => content_docID d end.
Definition written (m : import) : document :=
  match m with ImportTorrent now d => torrent_toBleve now d | ImportContent now d => content_toBleve now d end.
Definition claimed (m : import) : option bytes :=
  match m with ImportTorrent _ d => Some (Utf8.strings_ToLower (t_SignedBy d)) | ImportContent _ _ => None end.

Lemma encode_rune_nonempty r : Utf8.encode_rune r ≠ [].
Proof. unfold Utf8.encode_rune. by repeat case_match. Qed.
Lemma ToLower_nonempty s : s ≠ [] → Utf8.strings_ToLower s ≠ [].
Proof.
  intros Hs. unfold Utf8.strings_ToLower. rewrite Utf8.runes_unfold by done. cbn [mbind list_bind].
  intros [E _]%app_eq_nil. by apply encode_rune_nonempty in E.
Qed.

Lemma storedSignedByLocked_spec id b :
  storedSignedByLocked id b ≠ [] →
  ∃ d, docs b !! id = Some d ∧ storedSignedByLocked id b = signer d.
Proof.
  unfold storedSignedByLocked. destruct (bleve_Search _ _ _ _ _) as [[n [|[id' fields] hits]]|] eqn:Hs; try done.
  intros _. apply Search_window in Hs as [_ Hs]; [|lia..]. rewrite drop_0 in Hs.
  destruct (ranked (DocIDQuery [id]) b) as [|x r] eqn:Hr; [done |]. injection Hs as -> -> _.
  assert (Hx : x ∈ ranked (DocIDQuery [id]) b) by (rewrite Hr; by left).
  apply ranked_spec in Hx as (d & Hd & Hm). simpl in Hm.
  apply bool_decide_eq_true, list_elem_of_singleton in Hm as ->. exists d. by rewrite Hd.
Qed.

Lemma signer_written now d : signer (torrent_toBleve now d) = Utf8.strings_ToLower (t_SignedBy d).
Proof. unfold signer, get_string. by rewrite project_lookup by set_solver. Qed.

(** One import: nothing, or its document where there was none or where the same
    publisher is the signer. *)
Lemma run_import_spec b m :
  preserving m → (∀ id, is_ok (bleve_Document id b) = true) →
  ∃ b', run_import (Some b) m = Some b' ∧
    (docs b' = docs b ∨ docs b' = <[target m := written m]> (docs b) ∧
      (docs b !! target m = None ∨ ∃ d, docs b !! target m = Some d ∧ claimed m = Some (signer d))).
Proof.
  intros Hp Hok.
  assert (Hw : ∃ b', (let '(b, r) := bleve_Index (target m) (written m) b in
       (Some b, wrap r : result error unit)).1 = Some b' ∧ (docs b' = docs b ∨ docs b' = <[target m := written m]> (docs b))).
  { pose proof (Index_docs (target m) (written m) b) as Hi.
    destruct (bleve_Index (target m) (written m) b) as [b' [u|]]; exists b'; (split; [done |]); [by right | by left]. }
  destruct Hw as (b' & Hb' & Hd'). specialize (Hok (target m)).
  destruct (bleve_Document (target m) b) as [o|] eqn:Ho; [|done]. pose proof (Document_docs _ _ _ Ho) as Hdoc.
  assert (Habs : o = false → docs b !! target m = None).
  { intros ->. symmetry in Hdoc. apply bool_decide_eq_false in Hdoc. by apply eq_None_not_Some. }
  clear Hdoc. destruct m as [now d|now c]; simpl in *.
  - destruct Hp as [Hs Hp]. unfold IndexTorrent. case_bool_decide; [exists b; split; [done | by left] |].
    rewrite bool_decide_false by done. rewrite Hp, Ho. destruct o; [|exists b'; split; [done |]; destruct Hd' as [?|?]; [by left | right; split; [done | left; by apply Habs]]].
    case_bool_decide as E; [|exists b; split; [done | by left]].
    exists b'. split; [done |]. destruct Hd' as [?|Hd']; [by left | right]. split; [done |]. right.
    destruct (storedSignedByLocked_spec (torrent_docID (t_InfoHash d)) b) as (d0 & Hd0 & Es).
    { rewrite E. by apply ToLower_nonempty. }
    exists d0. split; [done |]. by rewrite <-E, Es.
  - unfold IndexContent. case_bool_decide; [exists b; split; [done | by left] |].
    case_bool_decide; [exists b; split; [done | by left] |]. rewrite Hp, Ho.
    destruct o; [exists b; split; [done | by left] |]. exists b'. split; [done |].
    destruct Hd' as [?|?]; [by left | right; split; [done | left; by apply Habs]].
Qed.

(** Whatever snapshots are imported, a document the index held stays as it was,
    except a torrent that a snapshot of the very publisher it is attributed to
    describes again; every other document that appears was written where there
    was none. *)
Lemma imports_keep_provenance ms b :
  Forall preserving ms → (∀ id b, is_ok (bleve_Document id b) = true) →
  ∃ b', foldl run_import (Some b) ms = Some b' ∧
    (∀ id d, docs b !! id = Some d → docs b' !! id = Some d ∨
       ∃ m, m ∈ ms ∧ target m = id ∧ claimed m = Some (signer d) ∧ docs b' !! id = Some (written m)) ∧
    (∀ id d', docs b' !! id = Some d' → docs b !! id = Some d' ∨
       ∃ m, m ∈ ms ∧ target m = id ∧ d' = written m ∧
            (docs b !! id = None ∨ ∃ d, docs b !! id = Some d ∧ claimed m = Some (signer d))).
Proof.
  intros Hms Hok. revert b. induction Hms as [|m ms Hm Hms IH]; intros b; [exists b; naive_solver |].
  destruct (run_import_spec b m Hm (λ id, Hok id b)) as (b1 & Hb1 & Hd1). cbn [foldl]. rewrite Hb1.
  destruct (IH b1) as (b' & Hb' & Hold & Hnew). exists b'. split; [done |].
  assert (Hstep : ∀ id d, docs b !! id = Some d → docs b1 !! id = Some d ∨
    target m = id ∧ claimed m = Some (signer d) ∧ docs b1 !! id = Some (written m) ∧ signer (written m) = signer d).
  { intros id d Hd. destruct Hd1 as [->|[-> Hwhy]]; [by left |].
    destruct (decide (target m = id)) as [<-|Hne]; [|left; by rewrite lookup_insert_ne].
    destruct Hwhy as [Hn|(d0 & Hd0 & Hc)]; [congruence |]. rewrite Hd in Hd0. injection Hd0 as <-.
    right. rewrite lookup_insert_eq. split_and!; try done. destruct m as [now t|]; [|done].
    injection Hc as <-. apply signer_written. }
  split.
  - intros id d Hd. destruct (Hstep id d Hd) as [H1d|(Ht & Hc & H1d & Hsg)].
    + destruct (Hold id d H1d) as [?|(m' & Hin & ?)]; [by left |]. right. exists m'.
      split; [by apply elem_of_cons; right | done].
    + right. destruct (Hold id _ H1d) as [Hb|(m' & Hin & Ht' & Hc' & Hb)].
      * exists m. split; [by apply elem_of_cons; left | done].
      * exists m'. split; [by apply elem_of_cons; right |]. by rewrite <-Hsg.
  - intros id d' Hd'. destruct (Hnew id d' Hd') as [H1d|(m' & Hin & Ht & -> & Hwhy)].
    + destruct Hd1 as [E|[E Hwhy]]; [left; by rewrite <-E |]. rewrite E in H1d.
      apply lookup_insert_Some in H1d as [[<- <-]|[_ ?]]; [|by left].
      right. exists m. split; [by apply elem_of_cons; left |]. done.
    + right. exists m'. split; [by apply elem_of_cons; right |]. split; [done |]. split; [done |].
      destruct (docs b !! id) as [d|] eqn:Hd; [|by left]. right. exists d. split; [done |].
      destruct (Hstep id d Hd) as [H1d|(_ & _ & H1d & Hsg)]; destruct Hwhy as [Hn|(d0 & Hd0 & Hc0)].
      1,3: congruence.
      * rewrite H1d in Hd0. by injection Hd0 as <-.
      * rewrite H1d in Hd0. injection Hd0 as <-. by rewrite <-Hsg.
Qed.
End walks.

(** ** An index in memory *)
Module Examples.
#[local] Existing Instance Utf8.ascii_unicode.
Fixpoint bits (p : positive) : bytes :=
  match p with xH => [] | xO p => x30 :: bits p | xI p => x31 :: bits p end.
Fixpoint of_bits (s : bytes) : positive :=
  match s with [] => xH | x30 :: s => xO (of_bits s) | _ :: s => xI (of_bits s) end.
Definition toy_format (t : Z) : bytes := str "t" ++ bits (encode t).
Lemma of_bits_bits p : of_bits (bits p) = p.
Proof. by induction p as [p IH|p IH|]; simpl; rewrite ?IH. Qed.

Definition toy_ranked (q_matches : bytes → document → bool) (b : gmap bytes document) : list bytes :=
  (map_to_list (filter (λ kv, q_matches kv.1 kv.2 = true) b)).*1.
Definition toy_string (s : bytes) (d : document) : bool :=
  bool_decide (s = str "+type:torrent") && bool_decide (d !! fieldType = Some (VString typeTorrent)).
Fixpoint toy_matches (q : query) (id : bytes) (d : document) : bool :=
  match q with
  | DocIDQuery ids => bool_decide (id ∈ ids)
  | QueryStringQuery s => toy_string s d
  | TermQuery field term => bool_decide (d !! field = Some (VString term))
  | ConjunctionQuery p q => toy_matches p id d && toy_matches q id d
  end.
Definition toy_project (names : list bytes) (d : document) : document :=
  omap (λ v, match v with
             | VInt z => Some (VFloat (of_int z))
             | VTime t => Some (VString (toy_format t))
             | VStrings [] => None
             | VStrings [s] => Some (VString s)
             | v => Some v
             end) (filter (λ kv, kv.1 ∈ names) d).
#[export] Instance toy_bleve : Bleve (gmap bytes document) := {|
  bleve_Document id b := Ok (bool_decide (is_Some (b !! id)));
  bleve_Index id d b := (<[id := d]> b, Ok tt);
  bleve_Delete id b := (delete id b, Ok tt);
  bleve_Batch ids b := (filter (λ kv, kv.1 ∉ ids) b, Ok tt);
  bleve_Search q size from names b :=
    Ok (len (toy_ranked (toy_matches q) b),
        (λ id, (id, toy_project names (default ∅ (b !! id)))) <$>
          take (Z.to_nat size) (drop (Z.to_nat from) (toy_ranked (toy_matches q) b)));
  bleve_DocCount b := Ok (Z.of_nat (size b));
  query_string := toy_string;
  format_time := toy_format;
  parse_time s := match s with [] => None | _ :: s => decode (of_bits s) end
|}.
Lemma toy_matches_eq q id d : matches q id d = toy_matches q id d.
Proof. induction q as [| | |p IHp q IHq]; simpl; [done.. |]. by rewrite IHp, IHq. Qed.

#[export, refine] Instance toy_bleve_laws : BleveLaws (gmap bytes document) := {|
  docs b := b; ranked q b := toy_ranked (toy_matches q) b
|}.
Proof.
  - intros q b id. unfold toy_ranked. rewrite list_elem_of_fmap. setoid_rewrite toy_matches_eq. split.
    + intros ([id' d] & -> & Hd). apply elem_of_map_to_list, map_lookup_filter_Some in Hd. by exists d.
    + intros (d & Hd). exists (id, d). split; [done |]. by apply elem_of_map_to_list, map_lookup_filter_Some.
  - intros q b. apply NoDup_fst_map_to_list.
  - by intros q size from names b n hits [= <- <-] _ _.
  - by intros id b o [= <-].
  - done.
  - done.
  - done.
  - intros d. simpl. unfold toy_string. by rewrite bool_decide_true.
  - intros t. split; [done |]. simpl. rewrite of_bits_bits. apply decode_encode.
Defined.

Definition book : TorrentDoc := {|
  t_InfoHash := str "AB12"; t_Name := str "Book"; t_FilePaths := [str "a.txt"; str "b.txt"];
  t_Trackers := []; t_SizeBytes := 2000; t_FileCount := 0; t_AddedAt := 0; t_SignedBy := str "alice";
  PreserveExistingSigner := false
|}.
Definition chapter : ContentDoc := {|
  c_InfoHash := str "AB12"; c_FileIndex := 1; c_FilePath := str "b.txt"; c_FileSize := 900;
  c_Mime := str "text/plain"; c_Text := str "chapter one"; c_Extractor := str "plaintext";
  c_IndexedAt := 0; c_ChunkIndex := 0; PreserveExisting := false
|}.
Definition imported (by_ : bytes) : TorrentDoc := {|
  t_InfoHash := str "ab12"; t_Name := str "Stolen"; t_FilePaths := []; t_Trackers := [];
  t_SizeBytes := 0; t_FileCount := 0; t_AddedAt := 0; t_SignedBy := by_;
  PreserveExistingSigner := true
|}.
Definition index1 : gmap bytes document := default ∅ (IndexTorrent 7 book (Some ∅)).1.
Definition index2 : gmap bytes document := default ∅ (IndexContent 8 chapter (Some index1)).1.

(** An unsigned re-add of the torrent keeps its signer. *)
Example readd_keeps_signer :
  AllTorrentDocs (IndexTorrent 9 (with_SignedBy book []) (Some index1)).1 =
    Ok [stored_torrent 9 book].
Proof. by vm_compute. Qed.
(** Another publisher's snapshot is refused, the signer's own is not. *)
Example foreign_refused :
  (IndexTorrent 9 (imported (str "mallory")) (Some index1)).2 = Err ErrForeignTorrent ∧
  (IndexTorrent 9 (imported (str "ALICE")) (Some index1)).2 = Ok tt.
Proof. by vm_compute. Qed.
(** A file path with a newline comes back as two, and a size above 2^53 rounded. *)
Example newline_splits : split_lines (join_lines [str "a" ++ [newline] ++ str "b"]) = [str "a"; str "b"].
Proof. by vm_compute. Qed.
Example sizes_are_floats : via_float (2 ^ 53) = 2 ^ 53 ∧ via_float (2 ^ 53 + 1) = 2 ^ 53.
Proof. by vm_compute. Qed.


Lemma imports_keep_provenance_witness :
  signer <$> index2 !! torrent_docID (str "ab12") = Some (str "alice") ∧
  ∃ b', foldl run_import (Some index2) [ImportTorrent 9 (imported (str "mallory"))] = Some b' ∧
    b' !! torrent_docID (str "ab12") = index2 !! torrent_docID (str "ab12").
Proof.
  assert (Hs : signer <$> index2 !! torrent_docID (str "ab12") = Some (str "alice")) by by vm_compute.
  split; [exact Hs |].
  destruct (imports_keep_provenance [ImportTorrent 9 (imported (str "mallory"))] index2)
    as (b' & Hb & Hold & _).
  - constructor; [split; [done | reflexivity] | constructor].
  - reflexivity.
  - exists b'. split; [exact Hb |].
    destruct (index2 !! torrent_docID (str "ab12")) as [d|] eqn:Hd; [|discriminate Hs].
    injection Hs as Hs. destruct (Hold (torrent_docID (str "ab12")) d Hd) as [H|(m & Hm & _ & Hc & _)]; [exact H |].
    apply list_elem_of_singleton in Hm as ->. rewrite Hs in Hc. discriminate Hc.
Defined.
End Examples.
End Indexer.
