(* ===== verification/Companion.v ===== *)
(** * The companion index: building and publishing (internal/companion: types.go,
      serialize.go, torrent.go, build.go, publisher.go)

    A node turns its local corpus into one compressed JSON snapshot, wraps it as a
    single-file torrent, seeds it and points to it from the DHT.  The order of
    seeding, pointing and dropping decides whether the advertised snapshot can
    always be fetched; the timestamp it carries decides whether followers take it
    for new. *)

From S2P Require Import Prelude GoInt Utf8 Sha256 Sha1 Externals Hex Files Snagg DhtSchema Manifest Backend Aggregate Indexer.
Open Scope Z_scope.

Module Companion.
Import Indexer Aggregate.

(** ** The document (types.go) *)
Definition FormatVersion : Z := 1.
Definition FormatName : bytes := str "swartznet-content-index".
Definition FormatFileName : bytes := str "swartznet-content-index-v1.json.gz".
Definition SaltContentIndex : bytes := str "_sn_content_index".

Definition CompanionFileName (pubkeyHex : bytes) : bytes :=
  if bool_decide (pubkeyHex = []) then FormatFileName
  else
    let prefix := if 12 <? len pubkeyHex then take 12 pubkeyHex else pubkeyHex in
    str "swartznet-content-index-" ++ prefix ++ str "-v1.json.gz".

Record ContentChunk := { Text : bytes; Offset : Z }.
Record FileRecord := {
  Index_ : Z; Path : bytes; Size : Z; Mime : bytes; Extractor : bytes; Chunks : list ContentChunk
}.
Record TorrentRecord := {
  InfoHash : bytes; Name : bytes; r_Size : Z; AddedAt : Z; Files_ : list FileRecord
}.
(** [None]: a nil slice. *)
Record CompanionIndex := {
  Version : Z; Format : bytes; Publisher_ : bytes; GeneratedAt : Z;
  Torrents : option (list TorrentRecord)
}.
Definition torrents (idx : CompanionIndex) : list TorrentRecord := default [] (Torrents idx).
Definition with_GeneratedAt (g : Z) (idx : CompanionIndex) : CompanionIndex := {|
  Version := Version idx; Format := Format idx; Publisher_ := Publisher_ idx; GeneratedAt := g;
  Torrents := Torrents idx
|}.

(** ** Serialization (serialize.go)

    [encoding/json] on the two structs the code marshals, and [compress/gzip]:
    [gzip_open] reads the header, [gzip_read n] the first [n] decompressed bytes. *)
Class CompanionCodec := {
  json_index : CompanionIndex → option bytes;
  json_parse_index : bytes → option CompanionIndex;
  json_record : TorrentRecord → option bytes;
  gzip : bytes → bytes;
  gzip_open : bytes → bool;
  gzip_read : Z → bytes → option bytes
}.

(** Text is written as valid UTF-8. *)
Definition valid_chunk (c : ContentChunk) : ContentChunk :=
  {| Text := Utf8.to_valid (Text c); Offset := Offset c |}.
Definition valid_file (f : FileRecord) : FileRecord := {|
  Index_ := Index_ f; Path := Utf8.to_valid (Path f); Size := Size f; Mime := Utf8.to_valid (Mime f);
  Extractor := Utf8.to_valid (Extractor f); Chunks := valid_chunk <$> Chunks f
|}.
Definition valid_torrent (t : TorrentRecord) : TorrentRecord := {|
  InfoHash := Utf8.to_valid (InfoHash t); Name := Utf8.to_valid (Name t); r_Size := r_Size t;
  AddedAt := AddedAt t; Files_ := valid_file <$> Files_ t
|}.
Definition valid_index (idx : CompanionIndex) : CompanionIndex := {|
  Version := Version idx; Format := Utf8.to_valid (Format idx); Publisher_ := Utf8.to_valid (Publisher_ idx);
  GeneratedAt := GeneratedAt idx; Torrents := (λ l : list TorrentRecord, valid_torrent <$> l) <$> Torrents idx
|}.

Class CompanionCodecLaws `{CompanionCodec} : Prop := {
  json_index_parse idx b : json_index idx = Some b → json_parse_index b = Some (valid_index idx);
  gzip_opens b : gzip_open (gzip b) = true;
  gzip_reads n b : gzip_read n (gzip b) = Some (take (Z.to_nat n) b)
}.

Definition maxDecompressed : Z := 2 ^ 30.

Inductive codec_error : Type :=
  | ErrJson | ErrOpenGzip | ErrReadGzip | ErrTooLarge | ErrParse | ErrFormat | ErrVersion (v : Z).

Definition normalize (idx : CompanionIndex) : CompanionIndex := {|
  Version := Version idx; Format := Format idx; Publisher_ := Publisher_ idx;
  GeneratedAt := GeneratedAt idx; Torrents := Some (torrents idx)
|}.
Definition stamped (idx : CompanionIndex) : CompanionIndex := {|
  Version := FormatVersion; Format := FormatName; Publisher_ := Publisher_ idx;
  GeneratedAt := GeneratedAt idx; Torrents := Some (torrents idx)
|}.

Section codec.
Context `{CompanionCodec}.

Definition Encode (idx : CompanionIndex) : result codec_error bytes :=
  match json_index (stamped idx) with
  | None => Err ErrJson
  | Some raw => Ok (gzip raw)
  end.

Definition Decode (r : bytes) : result codec_error CompanionIndex :=
  check gzip_open r ! ErrOpenGzip;
  match gzip_read (maxDecompressed + 1) r with
  | None => Err ErrReadGzip
  | Some raw =>
    check (negb (maxDecompressed <? len raw)) ! ErrTooLarge;
    match json_parse_index raw with
    | None => Err ErrParse
    | Some out =>
      check bool_decide (Format out = FormatName) ! ErrFormat;
      check (Version out =? FormatVersion) ! (ErrVersion (Version out));
      Ok (normalize out)
    end
  end.
End codec.

(** ** Building (build.go)

    [CorpusSource] is the read side of the local index. *)
Class CorpusSource (S : Type) := {
  src_AllTorrentDocs : S → result Indexer.error (list TorrentDoc);
  src_ContentDocsForInfoHash : bytes → S → result Indexer.error (list ContentDoc)
}.
#[export] Instance indexer_source `{Utf8.Unicode, Bleve B} : CorpusSource (option B) := {|
  src_AllTorrentDocs := AllTorrentDocs; src_ContentDocsForInfoHash := ContentDocsForInfoHash
|}.

Record BuildOptions := {
  IncludeContent : bool; IncludeTorrentNames : bool;
  MaxChunksPerFile : Z; MaxFilesPerTorrent : Z      (** 0: no cap *)
}.
Definition DefaultBuildOptions : BuildOptions := {|
  IncludeContent := true; IncludeTorrentNames := true; MaxChunksPerFile := 0; MaxFilesPerTorrent := 0
|}.

(** Seconds from the zero time to the Unix epoch. *)
Definition unix_epoch : Z := 62135596800.
Definition to_unix (t : Z) : Z := t / Second - unix_epoch.
Definition from_unix (s : Z) : Z := (s + unix_epoch) * Second.

Record fileBucket := {
  b_path : bytes; b_size : Z; b_mime : bytes; b_extractor : bytes; b_chunks : list ContentChunk
}.
Definition add_content (m : gmap Z fileBucket) (c : ContentDoc) : gmap Z fileBucket :=
  let b := default {| b_path := c_FilePath c; b_size := c_FileSize c; b_mime := []; b_extractor := [];
                      b_chunks := [] |} (m !! c_FileIndex c) in
  <[c_FileIndex c := {|
      b_path := if bool_decide (b_path b = []) then c_FilePath c else b_path b;
      b_size := b_size b;
      b_mime := if bool_decide (b_mime b = []) then c_Mime c else b_mime b;
      b_extractor := if bool_decide (b_extractor b = []) then c_Extractor c else b_extractor b;
      b_chunks := b_chunks b ++ [{| Text := c_Text c; Offset := 0 |}]
    |}]> m.

Definition file_record (opts : BuildOptions) (byIndex : gmap Z fileBucket) (i : Z) (p : bytes)
    : FileRecord :=
  match byIndex !! i with
  | None => {| Index_ := i; Path := p; Size := 0; Mime := []; Extractor := []; Chunks := [] |}
  | Some b =>
    let chunks := b_chunks b in
    {| Index_ := i; Path := p; Size := b_size b; Mime := b_mime b; Extractor := b_extractor b;
       Chunks := if (0 <? MaxChunksPerFile opts) && (MaxChunksPerFile opts <? len chunks)
                 then take (Z.to_nat (MaxChunksPerFile opts)) chunks else chunks |}
  end.

(** [out] grows by one record per path until the cap. *)
Fixpoint emit_records (opts : BuildOptions) (byIndex : gmap Z fileBucket) (i : Z) (paths : list bytes)
    (out : list FileRecord) : list FileRecord :=
  match paths with
  | [] => out
  | p :: paths =>
    let out := out ++ [file_record opts byIndex i p] in
    if (0 <? MaxFilesPerTorrent opts) && (MaxFilesPerTorrent opts <=? len out) then out
    else emit_records opts byIndex (i + 1) paths out
  end.
Definition collectFileRecords (filePaths : list bytes) (contentDocs : list ContentDoc)
    (opts : BuildOptions) : list FileRecord :=
  emit_records opts (foldl add_content ∅ contentDocs) 0 filePaths [].

Section build.
Context `{Utf8.Unicode} {C : Type} `{CorpusSource C}.

Definition build_record (src : C) (opts : BuildOptions) (t : TorrentDoc)
    : result Indexer.error TorrentRecord :=
  let rec_ files := {|
    InfoHash := Utf8.strings_ToLower (t_InfoHash t);
    Name := if IncludeTorrentNames opts then t_Name t else [];
    r_Size := t_SizeBytes t;
    AddedAt := if t_AddedAt t =? 0 then 0 else to_unix (t_AddedAt t);
    Files_ := files |} in
  if IncludeContent opts then
    contentDocs ← src_ContentDocsForInfoHash (t_InfoHash t) src;
    Ok (rec_ (collectFileRecords (t_FilePaths t) contentDocs opts))
  else Ok (rec_ []).

(** [now] in Unix seconds. *)
Definition BuildFromIndex (now : Z) (src : C) (publisherHex : bytes) (opts : BuildOptions)
    : result Indexer.error CompanionIndex :=
  docs ← src_AllTorrentDocs src;
  recs ← map_result (build_record src opts) docs;
  Ok {| Version := 0; Format := []; Publisher_ := publisherHex; GeneratedAt := now; Torrents := Some recs |}.
End build.

(** ** Writing (torrent.go) *)
Definition CompanionPieceLength : Z := 256 * 1024.
Definition join_path (dir name : bytes) : bytes := dir ++ str "/" ++ name.

Inductive write_error : Type :=
  | ErrMkdir | ErrEncode (e : codec_error) | ErrWriteTmp | ErrRename | ErrPieces | ErrInfo | ErrMetainfo.

(** [os.WriteFile] to the temporary file, [os.Rename], and [os.Remove] when the
    rename fails. *)
Definition atomicWrite (o : Files.outcome) (path data : bytes) (f : gmap bytes bytes)
    : gmap bytes bytes * result write_error unit :=
  let tmp := path ++ str ".tmp" in
  if negb (Files.o_create o) then (f, Err ErrWriteTmp)
  else if negb (Files.o_write o && Files.o_close o) then
    (<[tmp := take (Files.o_written o) data]> f, Err ErrWriteTmp)
  else
    let f := <[tmp := data]> f in
    if negb (Files.o_rename o) then (Files.remove o tmp f, Err ErrRename)
    else (<[path := data]> (delete tmp f), Ok tt).

(** [bencode.Marshal] of a metainfo with these info bytes. *)
Class MarshalMetainfo := marshal_metainfo : bytes → option bytes.

Definition buildMetaInfoForFile `{Metainfo} (name payload : bytes) : result write_error bytes :=
  match GeneratePieces payload CompanionPieceLength with
  | None => Err ErrPieces
  | Some pieces =>
    match marshal_info name (len payload) CompanionPieceLength pieces with
    | None => Err ErrInfo
    | Some infoBytes => Ok infoBytes
    end
  end.

Section write.
Context `{CompanionCodec, Metainfo, MarshalMetainfo}.

(** The path of the payload and the info bytes of its torrent. *)
Definition WriteCompanionFiles (mkdir : bool) (o1 o2 : Files.outcome) (dir : bytes) (idx : CompanionIndex)
    (f : gmap bytes bytes) : gmap bytes bytes * result write_error (bytes * bytes) :=
  if negb mkdir then (f, Err ErrMkdir)
  else match Encode idx with
  | Err e => (f, Err (ErrEncode e))
  | Ok payload =>
    let name := CompanionFileName (Publisher_ idx) in
    let jsonPath := join_path dir name in
    match atomicWrite o1 jsonPath payload f with
    | (f, Err e) => (f, Err e)
    | (f, Ok _) =>
      match buildMetaInfoForFile name payload with
      | Err e => (f, Err e)
      | Ok mi =>
        match marshal_metainfo mi with
        | None => (f, Err ErrMetainfo)
        | Some miBytes =>
          match atomicWrite o2 (join_path dir (str "companion.torrent")) miBytes f with
          | (f, Err e) => (f, Err e)
          | (f, Ok _) => (f, Ok (jsonPath, mi))
          end
        end
      end
    end
  end.
End write.

(** ** The publisher (publisher.go) *)
Definition contentFingerprint `{CompanionCodec} (idx : CompanionIndex) : array 32 :=
  foldl (λ fp tr, match json_record tr with None => fp | Some raw => axor fp (sha256 raw) end)
    (zero_arr 32) (torrents idx).

Record PublisherOptions := {
  Dir : bytes; PublisherKey : array 32;
  Interval : Z; MinInterval : Z; PutTimeout : Z; Build : BuildOptions
}.
Definition DefaultPublisherOptions : PublisherOptions := {|
  Dir := []; PublisherKey := zero_arr 32; Interval := 1 * Hour; MinInterval := 1 * Minute;
  PutTimeout := 30 * Second; Build := DefaultBuildOptions
|}.

(** Why a refresh failed. *)
Inductive failure : Type :=
  | FBuild (e : Indexer.error) | FEmpty | FWrite (e : write_error) | FPut (text : bytes).

(** Times are nanoseconds, [0] the zero time. *)
Record Publisher := {
  opts : PublisherOptions; pubkeyHex : bytes;
  lastRefresh : Z; lastAttempt : Z; lastInfoHash : bytes; lastError : option failure;
  publishedCount : Z; lastSeededIH : array 20;
  lastContentFP : array 32; lastGeneratedAt : Z
}.

Inductive new_error : Type := ErrNilSource | ErrNilPutter | ErrNilSeeder | ErrEmptyDir.
Definition defaulted (o : PublisherOptions) : PublisherOptions := {|
  Dir := Dir o; PublisherKey := PublisherKey o;
  Interval := if Interval o <=? 0 then 1 * Hour else Interval o;
  MinInterval := if MinInterval o <=? 0 then 1 * Minute else MinInterval o;
  PutTimeout := if PutTimeout o <=? 0 then 30 * Second else PutTimeout o;
  Build := Build o
|}.
Definition fresh_publisher (o : PublisherOptions) : Publisher := {|
  opts := defaulted o; pubkeyHex := Hex.EncodeToString (sl (PublisherKey o));
  lastRefresh := 0; lastAttempt := 0; lastInfoHash := []; lastError := None; publishedCount := 0;
  lastSeededIH := zero_arr 20; lastContentFP := zero_arr 32; lastGeneratedAt := 0
|}.
(** [src], [putter], [seeder]: whether the port is not nil. *)
Definition NewPublisher (src putter seeder : bool) (o : PublisherOptions) : result new_error Publisher :=
  check src ! ErrNilSource;
  check putter ! ErrNilPutter;
  check seeder ! ErrNilSeeder;
  check negb (bool_decide (Dir o = [])) ! ErrEmptyDir;
  Ok (fresh_publisher o).

(** Whether a manual refresh is let through (it then fills the trigger). *)
Definition RefreshNow (now : Z) (p : Publisher) : bool :=
  negb (negb (lastAttempt p =? 0) && (time_sub now (lastAttempt p) <? MinInterval (opts p))).

Definition recordSuccess (now : Z) (infoHashHex : bytes) (p : Publisher) : Publisher := {|
  opts := opts p; pubkeyHex := pubkeyHex p; lastRefresh := now; lastAttempt := now;
  lastInfoHash := infoHashHex; lastError := None; publishedCount := i64 (publishedCount p + 1);
  lastSeededIH := lastSeededIH p; lastContentFP := lastContentFP p; lastGeneratedAt := lastGeneratedAt p
|}.
Definition recordFailure (now : Z) (e : failure) (p : Publisher) : Publisher := {|
  opts := opts p; pubkeyHex := pubkeyHex p; lastRefresh := lastRefresh p; lastAttempt := now;
  lastInfoHash := lastInfoHash p; lastError := Some e; publishedCount := publishedCount p;
  lastSeededIH := lastSeededIH p; lastContentFP := lastContentFP p; lastGeneratedAt := lastGeneratedAt p
|}.
Definition with_seeded (ih : array 20) (p : Publisher) : Publisher := {|
  opts := opts p; pubkeyHex := pubkeyHex p; lastRefresh := lastRefresh p; lastAttempt := lastAttempt p;
  lastInfoHash := lastInfoHash p; lastError := lastError p; publishedCount := publishedCount p;
  lastSeededIH := ih; lastContentFP := lastContentFP p; lastGeneratedAt := lastGeneratedAt p
|}.
Definition with_stamp (fp : array 32) (g : Z) (p : Publisher) : Publisher := {|
  opts := opts p; pubkeyHex := pubkeyHex p; lastRefresh := lastRefresh p; lastAttempt := lastAttempt p;
  lastInfoHash := lastInfoHash p; lastError := lastError p; publishedCount := publishedCount p;
  lastSeededIH := lastSeededIH p; lastContentFP := fp; lastGeneratedAt := g
|}.

(** The timestamp of a snapshot: kept while the corpus is, otherwise above the last one. *)
Definition stamp (fp : array 32) (now : Z) (p : Publisher) : Z * Publisher :=
  if bool_decide (fp = lastContentFP p) && negb (lastGeneratedAt p =? 0) then (lastGeneratedAt p, p)
  else
    let g := if negb (lastGeneratedAt p =? 0) && (now <=? lastGeneratedAt p)
             then i64 (lastGeneratedAt p + 1) else now in
    (g, with_stamp fp g p).

(** What a refresh asks of its ports, in order, with the answers. *)
Inductive call : Type :=
  | CSeed (ih : array 20) (contentPath : bytes) (ok : bool)
  | CPut (salt : bytes) (ih : array 20) (ok : bool)
  | CDrop (ih : array 20) (ok : bool).

(** What one refresh meets: the clock (Unix seconds at the build, nanoseconds at
    the end), the corpus, the system calls, the answers of seeder and putter. *)
Record refresh (S : Type) := {
  at_build : Z; corpus : S; mkdir_ok : bool; save_payload : Files.outcome; save_torrent : Files.outcome;
  seed_ok : bool; put_answer : result bytes unit; drop_ok : bool; at_end : Z
}.
Arguments at_build {S}. Arguments corpus {S}. Arguments mkdir_ok {S}. Arguments save_payload {S}.
Arguments save_torrent {S}. Arguments seed_ok {S}. Arguments put_answer {S}. Arguments drop_ok {S}.
Arguments at_end {S}.

Section publisher.
Context `{Utf8.Unicode, CompanionCodec, Metainfo, MarshalMetainfo} {C : Type} `{CorpusSource C}.
Implicit Types (e : refresh C) (p : Publisher) (f : gmap bytes bytes).

(** Build, stamp and write: the snapshot with its path and info bytes. *)
Definition prepare e p f : Publisher * gmap bytes bytes * result failure (CompanionIndex * bytes * bytes) :=
  match BuildFromIndex (at_build e) (corpus e) (pubkeyHex p) (Build (opts p)) with
  | Err err => (p, f, Err (FBuild err))
  | Ok idx =>
    if len (torrents idx) =? 0 then (p, f, Err FEmpty)
    else
      let '(g, p) := stamp (contentFingerprint idx) (GeneratedAt idx) p in
      let idx := with_GeneratedAt g idx in
      let '(f, r) := WriteCompanionFiles (mkdir_ok e) (save_payload e) (save_torrent e) (Dir (opts p)) idx f in
      (p, f, match r with Err err => Err (FWrite err) | Ok (jsonPath, mi) => Ok (idx, jsonPath, mi) end)
  end.

Definition refreshOnce e p f : Publisher * gmap bytes bytes * list call :=
  match prepare e p f with
  | (p, f, Err err) => (recordFailure (at_end e) err p, f, [])
  | (p, f, Ok (idx, jsonPath, mi)) =>
    let infoHash := sha1 mi in
    let seed := CSeed infoHash jsonPath (seed_ok e) in
    match put_answer e with
    | Err text =>
      (recordFailure (at_end e) (FPut text) p, f,
       [seed; CPut SaltContentIndex infoHash false] ++
       if bool_decide (infoHash = lastSeededIH p) then [] else [CDrop infoHash (drop_ok e)])
    | Ok _ =>
      let prev := lastSeededIH p in
      (recordSuccess (at_end e) (Hex.EncodeToString (sl infoHash)) (with_seeded infoHash p), f,
       [seed; CPut SaltContentIndex infoHash true] ++
       if negb (bool_decide (prev = zero_arr 20)) && negb (bool_decide (prev = infoHash))
       then [CDrop prev (drop_ok e)] else [])
    end
  end.

(** A run of the worker: every tick and trigger is one refresh. *)
Fixpoint run_refreshes (es : list (refresh C)) p f : Publisher * gmap bytes bytes * list call :=
  match es with
  | [] => (p, f, [])
  | e :: es =>
    let '(p, f, cs) := refreshOnce e p f in
    let '(p, f, cs') := run_refreshes es p f in
    (p, f, cs ++ cs')
  end.
End publisher.

(** ** Codec *)
Lemma Decode_Encode `{CompanionCodecLaws} idx b :
  Encode idx = Ok b →
  ∃ raw, json_index (stamped idx) = Some raw ∧
    Decode b = if len raw <=? maxDecompressed then Ok (normalize (valid_index (stamped idx))) else Err ErrTooLarge.
Proof.
  unfold Encode. destruct (json_index (stamped idx)) as [raw|] eqn:Ej; [|done]. intros [= <-].
  exists raw. split; [done |]. unfold Decode. rewrite gzip_opens, gzip_reads.
  assert (Hl : len (take (Z.to_nat (maxDecompressed + 1)) raw) = Z.min (maxDecompressed + 1) (len raw)).
  { unfold len. rewrite length_take. unfold maxDecompressed. lia. }
  rewrite Hl. destruct (Z.leb_spec (len raw) maxDecompressed) as [Hle|Hgt].
  - rewrite (proj2 (Z.ltb_ge maxDecompressed _)) by lia. simpl negb.
    rewrite take_ge by (unfold len, maxDecompressed in *; lia).
    by rewrite (json_index_parse _ _ Ej), bool_decide_true by by vm_compute.
  - by rewrite (proj2 (Z.ltb_lt maxDecompressed _)) by lia.
Qed.

(** ** What is built

    The files of a record against a reference: for each path, the chunks of that
    index in source order, and the first of the other attributes that is set. *)
Definition first_set (l : list bytes) : bytes := default [] (head (List.filter (λ s, negb (bool_decide (s = []))) l)).
Definition of_file (i : Z) (docs : list ContentDoc) : list ContentDoc :=
  List.filter (λ c, c_FileIndex c =? i) docs.
Definition reference_file (o : BuildOptions) (docs : list ContentDoc) (i : Z) (p : bytes) : FileRecord :=
  let cs := of_file i docs in
  let chunks := (λ c, {| Text := c_Text c; Offset := 0 |}) <$> cs in
  {| Index_ := i; Path := p;
     Size := match cs with [] => 0 | c :: _ => c_FileSize c end;
     Mime := first_set (c_Mime <$> cs); Extractor := first_set (c_Extractor <$> cs);
     Chunks := if 0 <? MaxChunksPerFile o then take (Z.to_nat (MaxChunksPerFile o)) chunks else chunks |}.
Definition reference_files (o : BuildOptions) (docs : list ContentDoc) (paths : list bytes) : list FileRecord :=
  let all := imap (λ i, reference_file o docs (Z.of_nat i)) paths in
  if 0 <? MaxFilesPerTorrent o then take (Z.to_nat (MaxFilesPerTorrent o)) all else all.

Definition reference_bucket (cs : list ContentDoc) : option fileBucket :=
  match cs with
  | [] => None
  | c :: _ => Some {| b_path := first_set (c_FilePath <$> cs); b_size := c_FileSize c;
                      b_mime := first_set (c_Mime <$> cs); b_extractor := first_set (c_Extractor <$> cs);
                      b_chunks := (λ c, {| Text := c_Text c; Offset := 0 |}) <$> cs |}
  end.

Lemma first_set_snoc l s : first_set (l ++ [s]) = if bool_decide (first_set l = []) then s else first_set l.
Proof.
  unfold first_set. rewrite List.filter_app. induction l as [|x l IH]; simpl.
  - by destruct s.
  - destruct (bool_decide (x = [])) eqn:E; simpl; [done |].
    apply bool_decide_eq_false in E. by rewrite bool_decide_false.
Qed.

Lemma buckets_spec docs i :
  foldl add_content ∅ docs !! i = reference_bucket (of_file i docs).
Proof.
  induction docs as [|c docs IH] using rev_ind; [done |]. rewrite foldl_app. cbn [foldl].
  unfold of_file in *. rewrite List.filter_app. simpl List.filter. unfold add_content at 1.
  destruct (Z.eqb_spec (c_FileIndex c) i) as [<-|Hne].
  - rewrite lookup_insert_eq, IH. clear IH.
    destruct (List.filter (λ c0, c_FileIndex c0 =? c_FileIndex c) docs) as [|c0 cs] eqn:E; simpl.
    + unfold first_set. simpl. by destruct (c_FilePath c), (c_Mime c), (c_Extractor c).
    + rewrite !fmap_app, !app_comm_cons. simpl. change (?a :: ?l ++ [?b]) with ((a :: l) ++ [b]).
      by rewrite !first_set_snoc.
  - rewrite lookup_insert_ne by done. by rewrite IH, app_nil_r.
Qed.

Lemma file_record_spec o docs i p :
  file_record o (foldl add_content ∅ docs) i p = reference_file o docs i p.
Proof.
  unfold file_record, reference_file. rewrite buckets_spec. destruct (of_file i docs) as [|c cs].
  - simpl. destruct (0 <? _); [by rewrite take_nil | done].
  - cbn [reference_bucket b_chunks b_size b_mime b_extractor]. f_equal.
    generalize ((λ c, {| Text := c_Text c; Offset := 0 |}) <$> (c :: cs)). intros chunks.
    destruct (0 <? MaxChunksPerFile o) eqn:E0; simpl; [|done]. apply Z.ltb_lt in E0.
    destruct (Z.ltb_spec (MaxChunksPerFile o) (len chunks)); [done |].
    by rewrite take_ge by (unfold len in *; lia).
Qed.

Lemma emit_records_spec o docs paths i out :
  (0 < MaxFilesPerTorrent o → len out < MaxFilesPerTorrent o) →
  emit_records o (foldl add_content ∅ docs) i paths out =
    out ++ (let all := imap (λ k, reference_file o docs (i + Z.of_nat k)) paths in
            if 0 <? MaxFilesPerTorrent o then take (Z.to_nat (MaxFilesPerTorrent o - len out)) all else all).
Proof.
  revert i out. induction paths as [|p paths IH]; intros i out Hout.
  { simpl. destruct (0 <? _); rewrite ?take_nil; by rewrite app_nil_r. }
  assert (Hi : imap (λ k, reference_file o docs (i + Z.of_nat k)) (p :: paths) =
               reference_file o docs i p :: imap (λ k, reference_file o docs (i + 1 + Z.of_nat k)) paths).
  { rewrite imap_cons. f_equal; [f_equal; lia |]. apply imap_ext. intros. simpl. f_equal. lia. }
  cbn [emit_records]. rewrite Hi, file_record_spec. cbv zeta in *. clear Hi.
  set (x := reference_file o docs i p).
  assert (Hl : len (out ++ [x]) = len out + 1) by by rewrite len_app. rewrite Hl.
  destruct (Z.ltb_spec 0 (MaxFilesPerTorrent o)) as [H|H]; simpl andb; cbv iota.
  - specialize (Hout H). destruct (Z.leb_spec (MaxFilesPerTorrent o) (len out + 1)) as [Hc|Hc].
    + by replace (Z.to_nat (MaxFilesPerTorrent o - len out)) with 1%nat by lia.
    + rewrite IH by lia. rewrite Hl, <-app_assoc.
      by replace (Z.to_nat (MaxFilesPerTorrent o - len out))
        with (S (Z.to_nat (MaxFilesPerTorrent o - (len out + 1)))) by lia.
  - rewrite IH by lia. by rewrite <-app_assoc.
Qed.

Lemma collectFileRecords_spec o docs paths :
  collectFileRecords paths docs o = reference_files o docs paths.
Proof.
  unfold collectFileRecords. rewrite emit_records_spec by done. unfold reference_files.
  change (len (@nil FileRecord)) with 0. by rewrite Z.sub_0_r.
Qed.

Section snapshot.
Context `{Utf8.Unicode} {C : Type} `{CorpusSource C}.

(** The record of a torrent, from its document and its chunks. *)
Definition reference_record (o : BuildOptions) (t : TorrentDoc) (chunks : list ContentDoc) : TorrentRecord := {|
  InfoHash := Utf8.strings_ToLower (t_InfoHash t);
  Name := if IncludeTorrentNames o then t_Name t else [];
  r_Size := t_SizeBytes t;
  AddedAt := if t_AddedAt t =? 0 then 0 else to_unix (t_AddedAt t);
  Files_ := if IncludeContent o then reference_files o chunks (t_FilePaths t) else []
|}.
Definition chunks_of (src : C) (o : BuildOptions) (t : TorrentDoc) : result Indexer.error (list ContentDoc) :=
  if IncludeContent o then src_ContentDocsForInfoHash (t_InfoHash t) src else Ok [].

Lemma map_result_Forall2 {E A B} (f : A → result E B) l ys :
  map_result f l = Ok ys → Forall2 (λ x y, f x = Ok y) l ys.
Proof.
  revert ys. induction l as [|x l IH]; intros ys Hm; simpl in Hm; [by injection Hm as <- |].
  destruct (f x) as [y|] eqn:E1; [|done]. destruct (map_result f l) as [zs|]; [|done].
  injection Hm as <-. constructor; [done | by apply IH].
Qed.

Lemma BuildFromIndex_spec now src pub o idx :
  BuildFromIndex now src pub o = Ok idx →
  Publisher_ idx = pub ∧ GeneratedAt idx = now ∧
  ∃ docs, src_AllTorrentDocs src = Ok docs ∧
    Forall2 (λ t r, ∃ cs, chunks_of src o t = Ok cs ∧ r = reference_record o t cs) docs (torrents idx).
Proof.
  unfold BuildFromIndex. destruct (src_AllTorrentDocs src) as [docs|]; [|done]. rewrite bind_ok.
  destruct (map_result (build_record src o) docs) as [recs|] eqn:Hm; [|done]. rewrite bind_ok.
  intros [= <-]. split; [done |]. split; [done |]. exists docs. split; [done |].
  apply map_result_Forall2 in Hm. eapply Forall2_impl; [exact Hm |]. intros t r.
  unfold build_record, chunks_of, reference_record. destruct (IncludeContent o).
  - destruct (src_ContentDocsForInfoHash (t_InfoHash t) src) as [cs|]; [|done]. rewrite bind_ok.
    intros [= <-]. exists cs. split; [done |]. by rewrite collectFileRecords_spec.
  - intros [= <-]. by exists [].
Qed.

End snapshot.

(** ** Timestamps *)
Section timestamps.
Context `{Utf8.Unicode, CompanionCodec, Metainfo, MarshalMetainfo} {C : Type} `{CorpusSource C}.
Implicit Types (e : refresh C) (p : Publisher) (f : gmap bytes bytes).

(** The fingerprint and the timestamp a refresh gives its snapshot. *)
Definition stamping e p : option (array 32 * Z) :=
  match BuildFromIndex (at_build e) (corpus e) (pubkeyHex p) (Build (opts p)) with
  | Ok idx =>
    if len (torrents idx) =? 0 then None
    else Some (contentFingerprint idx, (stamp (contentFingerprint idx) (GeneratedAt idx) p).1)
  | Err _ => None
  end.
Fixpoint stampings (es : list (refresh C)) p f : list (array 32 * Z) :=
  match es with
  | [] => []
  | e :: es =>
    let '(p', f', _) := refreshOnce e p f in
    match stamping e p with Some x => x :: stampings es p' f' | None => stampings es p' f' end
  end.

Lemma stamp_spec fp now p :
  0 < now → 0 ≤ lastGeneratedAt p < 2 ^ 63 - 1 →
  let '(g, p') := stamp fp now p in
  lastContentFP p' = fp ∧ lastGeneratedAt p' = g ∧ 0 < g ∧ lastGeneratedAt p ≤ g ∧
  g ≤ Z.max now (lastGeneratedAt p + 1) ∧
  (lastGeneratedAt p ≠ 0 → (fp = lastContentFP p → g = lastGeneratedAt p) ∧
                           (fp ≠ lastContentFP p → lastGeneratedAt p < g)).
Proof.
  intros Hn Hg. unfold stamp. destruct (Z.eqb_spec (lastGeneratedAt p) 0) as [E|E]; simpl.
  - rewrite andb_false_r. simpl. split_and!; try done; lia.
  - rewrite andb_true_r. case_bool_decide as Ef; simpl.
    + split_and!; try done; lia.
    + destruct (Z.leb_spec now (lastGeneratedAt p)); simpl; rewrite ?i64_small by (unfold is_i64; lia);
        (split_and!; try done; try lia; try (intros _; split; [done | intros; lia])).
Qed.

(** A refresh changes the stamp state through [stamp] only. *)
Lemma refreshOnce_stamp e p f :
  let '(p', f', _) := refreshOnce e p f in
  match stamping e p with
  | Some (fp, g) => lastContentFP p' = lastContentFP (stamp fp (at_build e) p).2 ∧
                    lastGeneratedAt p' = lastGeneratedAt (stamp fp (at_build e) p).2 ∧
                    g = (stamp fp (at_build e) p).1
  | None => lastContentFP p' = lastContentFP p ∧ lastGeneratedAt p' = lastGeneratedAt p
  end.
Proof.
  unfold refreshOnce, prepare, stamping.
  destruct (BuildFromIndex _ _ _ _) as [idx|err] eqn:Hb; [|done].
  apply BuildFromIndex_spec in Hb as (_ & -> & _).
  destruct (len (torrents idx) =? 0); [done |].
  destruct (stamp (contentFingerprint idx) (at_build e) p) as [g p1] eqn:Es. simpl.
  destruct (WriteCompanionFiles _ _ _ _ _ _) as [f1 [[path mi]|]]; [|by rewrite ?Es].
  destruct (put_answer e); simpl; by rewrite ?Es.
Qed.

Lemma stampings_step M e p f :
  0 < at_build e ≤ M → 0 ≤ lastGeneratedAt p < 2 ^ 63 - 1 →
  let '(p', _, _) := refreshOnce e p f in
  match stamping e p with
  | Some (fp, g) =>
    lastContentFP p' = fp ∧ lastGeneratedAt p' = g ∧ 0 < g ∧ g ≤ Z.max M (lastGeneratedAt p + 1) ∧
    (lastGeneratedAt p ≠ 0 → (fp = lastContentFP p → g = lastGeneratedAt p) ∧
                             (fp ≠ lastContentFP p → lastGeneratedAt p < g))
  | None => lastContentFP p' = lastContentFP p ∧ lastGeneratedAt p' = lastGeneratedAt p
  end.
Proof.
  intros He Hg. pose proof (refreshOnce_stamp e p f) as Hr. destruct (refreshOnce e p f) as [[p' f'] cs].
  destruct (stamping e p) as [[fp g]|]; [|done]. destruct Hr as (-> & -> & ->).
  pose proof (stamp_spec fp (at_build e) p ltac:(lia) Hg) as Hs.
  destruct (stamp fp (at_build e) p) as [g0 p0]. simpl. destruct Hs as (-> & -> & ? & ? & ? & ?).
  split_and!; try done; lia.
Qed.

Definition ordered (x y : array 32 * Z) : Prop := if bool_decide (x.1 = y.1) then x.2 = y.2 else x.2 < y.2.
Fixpoint chain (last : option (array 32 * Z)) (log : list (array 32 * Z)) : Prop :=
  match log with
  | [] => True
  | y :: log => match last with Some x => ordered x y | None => True end ∧ chain (Some y) log
  end.

(** Every further entry of the log follows from the one before. *)
Lemma stampings_chain es p f M :
  Forall (λ e, 0 < at_build e ≤ M) es → 0 ≤ lastGeneratedAt p →
  Z.max M (lastGeneratedAt p) + len es < 2 ^ 63 - 1 →
  chain (if lastGeneratedAt p =? 0 then None else Some (lastContentFP p, lastGeneratedAt p)) (stampings es p f).
Proof.
  intros Hes. revert p f. induction Hes as [|e es He Hes IH]; intros p f Hg Hb; [done |].
  rewrite len_cons in Hb. pose proof (len_nonneg es). cbn [stampings].
  pose proof (stampings_step M e p f He ltac:(lia)) as Hs.
  destruct (refreshOnce e p f) as [[p' f'] cs]. destruct (stamping e p) as [[fp g]|].
  - destruct Hs as (Hfp & Hgp & Hpos & Hmax & Hord). specialize (IH p' f'). rewrite Hfp, Hgp in IH.
    rewrite (proj2 (Z.eqb_neq g 0)) in IH by lia. cbn [chain]. split; [|apply IH; lia].
    destruct (Z.eqb_spec (lastGeneratedAt p) 0) as [|Hne]; [done |]. unfold ordered. simpl.
    destruct (Hord Hne) as [Hsame Hdiff]. case_bool_decide as E; [by rewrite Hsame |]. apply Hdiff. congruence.
  - destruct Hs as [Hfp Hgp]. rewrite <-Hfp, <-Hgp. apply IH; rewrite Hgp; lia.
Qed.

Lemma chain_lookup o log :
  chain o log → ∀ i x y, log !! i = Some x → log !! S i = Some y → ordered x y.
Proof.
  revert o. induction log as [|z log IH]; intros o; [done |]. intros [_ Hc] [|i] x y Hx Hy.
  - injection Hx as ->. destruct log as [|w log]; [done |]. injection Hy as ->. by destruct Hc.
  - by eapply IH.
Qed.

Lemma adjacent_le (log : list (array 32 * Z)) :
  (∀ i x y, log !! i = Some x → log !! S i = Some y → ordered x y) →
  ∀ i j x y, (i ≤ j)%nat → log !! i = Some x → log !! j = Some y → x.2 ≤ y.2.
Proof.
  intros Ho i j x y Hij Hx. revert y. induction Hij as [|j Hij IH]; intros y Hy; [by simplify_eq |].
  destruct (log !! j) as [z|] eqn:Hz; [|apply lookup_ge_None in Hz; apply lookup_lt_Some in Hy; lia].
  specialize (IH z eq_refl). specialize (Ho j z y Hz Hy). unfold ordered in Ho. case_bool_decide; lia.
Qed.

Lemma fingerprint_step (a b : TorrentRecord) (fp : array 32) :
  let step fp tr := match json_record tr with None => fp | Some raw => axor fp (sha256 raw) end in
  step (step fp a) b = step (step fp b) a.
Proof.
  simpl. destruct (json_record a), (json_record b); try done.
  rewrite <-!(assoc axor). f_equal. apply (comm axor).
Qed.
Lemma contentFingerprint_perm idx idx' :
  torrents idx ≡ₚ torrents idx' → contentFingerprint idx = contentFingerprint idx'.
Proof.
  unfold contentFingerprint. generalize (zero_arr 32). generalize (torrents idx), (torrents idx').
  intros l k fp Hp. revert fp. induction Hp as [|x l k Hp IH|x y l|l1 l2 l3 Ha IHa Hb IHb]; intros fp; cbn [foldl].
  - done.
  - apply IH.
  - f_equal. apply (fingerprint_step y x fp).
  - by rewrite IHa.
Qed.

(** The snapshot a refresh writes carries the logged stamp. *)
Lemma prepare_snapshot e p f p' f' idx path mi :
  prepare e p f = (p', f', Ok (idx, path, mi)) →
  stamping e p = Some (contentFingerprint idx, GeneratedAt idx) ∧ Publisher_ idx = pubkeyHex p.
Proof.
  unfold prepare, stamping. destruct (BuildFromIndex _ _ _ _) as [idx0|] eqn:Hb; [|done].
  apply BuildFromIndex_spec in Hb as (Hp & _). destruct (len (torrents idx0) =? 0); [done |].
  destruct (stamp _ _ _) as [g p1]. destruct (WriteCompanionFiles _ _ _ _ _ _) as [f1 [[path' mi']|]]; [|done].
  intros [= _ _ <- _ _]. split; [done | exact Hp].
Qed.

(** The timestamps of a publisher's snapshots: whatever the clock does, a
    snapshot whose corpus has the fingerprint of the last one keeps its timestamp
    and any other gets a larger one, so no follower of the sequence ever sees it
    go back; the fingerprint does not depend on the order of the torrents. *)
Lemma publisher_timestamps es o f M :
  Forall (λ e, 0 < at_build e ≤ M) es → 0 ≤ M → M + len es < 2 ^ 63 - 1 →
  let log := stampings es (fresh_publisher o) f in
  (∀ i x y, log !! i = Some x → log !! S i = Some y →
     if bool_decide (x.1 = y.1) then x.2 = y.2 else x.2 < y.2) ∧
  (∀ i j x y, (i ≤ j)%nat → log !! i = Some x → log !! j = Some y → x.2 ≤ y.2) ∧
  (∀ idx idx', torrents idx ≡ₚ torrents idx' → contentFingerprint idx = contentFingerprint idx').
Proof.
  intros Hes HM Hb log. assert (Ho : ∀ i x y, log !! i = Some x → log !! S i = Some y → ordered x y).
  { eapply chain_lookup, (stampings_chain es (fresh_publisher o) f M Hes); simpl; lia. }
  split; [exact Ho |]. split; [by apply adjacent_le | apply contentFingerprint_perm].
Qed.

(** ** Seeds *)
Definition effect (s : gset (array 20) * option (array 20)) (c : call) : gset (array 20) * option (array 20) :=
  match c with
  | CSeed ih _ true => ({[ih]} ∪ s.1, s.2)
  | CPut _ ih true => (s.1, Some ih)
  | CDrop ih true => (s.1 ∖ {[ih]}, s.2)
  | _ => s
  end.
Definition covered (s : gset (array 20) * option (array 20)) : Prop := ∀ ih, s.2 = Some ih → ih ∈ s.1.
Definition exact_seeds (s : gset (array 20) * option (array 20)) : Prop :=
  s.1 = match s.2 with Some ih => {[ih]} | None => ∅ end.
(** The publisher's field is the pointer that is out. *)
Definition tracks p (s : gset (array 20) * option (array 20)) : Prop :=
  s.2 = if bool_decide (lastSeededIH p = zero_arr 20) then None else Some (lastSeededIH p).
Definition seeds_ok (cs : list call) : Prop :=
  ∀ ih path ok, CSeed ih path ok ∈ cs → ok = true ∧ ih ≠ zero_arr 20.
Definition drops_ok (cs : list call) : Prop := ∀ ih ok, CDrop ih ok ∈ cs → ok = true.

Lemma prepare_seeded e p f : lastSeededIH (prepare e p f).1.1 = lastSeededIH p.
Proof.
  unfold prepare. destruct (BuildFromIndex _ _ _ _); [|done]. destruct (_ =? 0); [done |].
  unfold stamp. destruct (_ && _).
  - by destruct (WriteCompanionFiles _ _ _ _ _ _).
  - by destruct (WriteCompanionFiles _ _ _ _ _ _).
Qed.

Lemma refresh_seeds e p f s :
  let '(p', f', cs) := refreshOnce e p f in
  tracks p s → covered s → seeds_ok cs →
  tracks p' (foldl effect s cs) ∧ (∀ k, covered (foldl effect s (take k cs))) ∧
  (exact_seeds s → drops_ok cs → exact_seeds (foldl effect s cs)).
Proof.
  unfold refreshOnce. pose proof (prepare_seeded e p f) as Hp.
  destruct (prepare e p f) as [[p1 f1] [[[idx path] mi]|err]]; simpl in Hp.
  2:{ intros Ht Hc _. unfold tracks in *. simpl. rewrite Hp. split; [done |]. split; [|done].
      intros k. by rewrite take_nil. }
  set (ih := sha1 mi). rewrite Hp. set (last := lastSeededIH p) in *.
  destruct s as [sd adv]. unfold tracks, covered, exact_seeds. simpl fst. simpl snd. fold last.
  destruct (put_answer e) as [u|text]; intros Ht Hc Hs.
  all: destruct (Hs ih path (seed_ok e)) as [Hok Hz]; [by left |]; rewrite Hok in *.
  - cbn [lastSeededIH recordSuccess with_seeded]. rewrite (bool_decide_false (ih = zero_arr 20)) by done.
    destruct (bool_decide (last = zero_arr 20)) eqn:El; simpl negb; simpl andb; cbv iota.
    + split; [done |]. split; [|intros ->; subst adv; simpl; intros _; set_solver].
      intros [|[|[|k]]] x; simpl; rewrite ?take_nil; simpl; try (intros Hx; apply Hc in Hx; set_solver);
        intros [= <-]; set_solver.
    + destruct (bool_decide (last = ih)) eqn:Ei; simpl.
      * apply bool_decide_eq_true in Ei. subst adv. split; [done |]. split; [|intros ->; rewrite Ei; set_solver].
        intros [|[|[|k]]] x; simpl; rewrite ?take_nil; simpl; try (intros Hx; apply Hc in Hx; set_solver);
          intros [= <-]; set_solver.
      * apply bool_decide_eq_false in Ei. subst adv. destruct (drop_ok e) eqn:Ed; simpl.
        -- split; [done |]. split; [|intros ->; set_solver].
           intros [|[|[|[|k]]]] x; simpl; rewrite ?take_nil; simpl; try (intros Hx; apply Hc in Hx; set_solver);
             intros [= <-]; set_solver.
        -- split; [done |]. split.
           ++ intros [|[|[|[|k]]]] x; simpl; rewrite ?take_nil; simpl; try (intros Hx; apply Hc in Hx; set_solver);
                intros [= <-]; set_solver.
           ++ intros _ Hd. specialize (Hd last false ltac:(set_solver)). done.
  - cbn [lastSeededIH recordFailure]. rewrite Hp. fold last.
    destruct (bool_decide (ih = last)) eqn:Ei; simpl.
    + apply bool_decide_eq_true in Ei. split; [done |]. split.
      * intros [|[|[|k]]] x; simpl; rewrite ?take_nil; simpl; intros Hx; apply Hc in Hx; set_solver.
      * intros ->. rewrite Ht, <-Ei. rewrite bool_decide_false by done. set_solver.
    + apply bool_decide_eq_false in Ei. destruct (drop_ok e) eqn:Ed; simpl.
      * split; [done |]. split.
        -- assert (Hne : ∀ x, adv = Some x → x ≠ ih).
           { intros x Hx. rewrite Ht in Hx. destruct (bool_decide _); [done |]. by injection Hx as <-. }
           intros [|[|[|[|k]]]] x; simpl; rewrite ?take_nil; simpl; intros Hx; pose proof (Hc x Hx) as Hin;
             specialize (Hne x Hx); clear Ht Hs Hc Hx; set_solver.
        -- intros ->. rewrite Ht. destruct (bool_decide (last = zero_arr 20)); set_solver.
      * split; [done |]. split.
        -- intros [|[|[|[|k]]]] x; simpl; rewrite ?take_nil; simpl; intros Hx; pose proof (Hc x Hx); set_solver.
        -- intros _ Hd. specialize (Hd ih false ltac:(set_solver)). done.
Qed.

Lemma run_seeds es p f s :
  let '(p', f', cs) := run_refreshes es p f in
  tracks p s → covered s → seeds_ok cs →
  (∀ k, covered (foldl effect s (take k cs))) ∧
  (exact_seeds s → drops_ok cs → exact_seeds (foldl effect s cs)).
Proof.
  revert p f s. induction es as [|e es IH]; intros p f s; cbn [run_refreshes].
  { intros _ Hc _. split; [intros k; by rewrite take_nil | done]. }
  pose proof (refresh_seeds e p f s) as Hrun. destruct (refreshOnce e p f) as [[p1 f1] cs1].
  specialize (IH p1 f1 (foldl effect s cs1)). destruct (run_refreshes es p1 f1) as [[p2 f2] cs2].
  intros Ht Hc Hs.
  destruct Hrun as (Ht1 & Hk1 & He1); [done | done | intros ih path ok Hin; apply (Hs ih path ok), elem_of_app; by left |].
  destruct IH as [Hk2 He2].
  { done. }
  { specialize (Hk1 (length cs1)). by rewrite firstn_all in Hk1. }
  { intros ih path ok Hin. apply (Hs ih path ok), elem_of_app. by right. }
  split.
  - intros k. destruct (decide (k ≤ length cs1)%nat) as [Hle|Hgt].
    + rewrite take_app_le by done. apply Hk1.
    + rewrite take_app_ge by lia. rewrite foldl_app. apply Hk2.
  - intros He Hd. rewrite foldl_app. apply He2; [|intros ih ok Hin; apply (Hd ih ok), elem_of_app; by right].
    apply He1; [done |]. intros ih ok Hin. apply (Hd ih ok), elem_of_app. by left.
Qed.

(** [C27] At every moment of every run of the publisher the snapshot the DHT
    points to is being seeded, whichever puts fail; and when no drop fails it is,
    after each refresh, the only one that is. *)
Theorem advertised_is_seeded es o f :
  let '(p, f', cs) := run_refreshes es (fresh_publisher o) f in
  let after k := foldl effect (∅, None) (take k cs) in
  seeds_ok cs →
  (∀ k ih, (after k).2 = Some ih → ih ∈ (after k).1) ∧
  (drops_ok cs →
   (after (length cs)).1 = match (after (length cs)).2 with Some ih => {[ih]} | None => ∅ end).
Proof.
  pose proof (run_seeds es (fresh_publisher o) f (∅, None)) as Hrun.
  destruct (run_refreshes es (fresh_publisher o) f) as [[p f'] cs]. intros after Hs.
  destruct Hrun as [Hk He]; [by unfold tracks; rewrite bool_decide_true | by intros ih Hih | done |].
  split; [exact Hk |]. intros Hd. unfold after. rewrite firstn_all. by apply He.
Qed.
End timestamps.

(** ** A publisher of two torrents *)
Module Examples.
#[local] Existing Instance Utf8.ascii_unicode.
#[export] Instance chunk_eq_dec : EqDecision ContentChunk. Proof. solve_decision. Defined.
#[export] Instance file_eq_dec : EqDecision FileRecord. Proof. solve_decision. Defined.
#[export] Instance record_eq_dec : EqDecision TorrentRecord. Proof. solve_decision. Defined.
#[export] Instance index_eq_dec : EqDecision CompanionIndex. Proof. solve_decision. Defined.

Definition alpha : TorrentDoc := {|
  t_InfoHash := str "AA"; t_Name := str "alpha"; t_FilePaths := [str "a"; str "b"]; t_Trackers := [];
  t_SizeBytes := 3; t_FileCount := 2; t_AddedAt := 0; t_SignedBy := []; PreserveExistingSigner := false
|}.
Definition beta : TorrentDoc := {|
  t_InfoHash := str "BB"; t_Name := str "beta"; t_FilePaths := []; t_Trackers := [];
  t_SizeBytes := 4; t_FileCount := 0; t_AddedAt := 0; t_SignedBy := []; PreserveExistingSigner := false
|}.
Definition page (i : Z) (text : bytes) : ContentDoc := {|
  c_InfoHash := str "aa"; c_FileIndex := i; c_FilePath := []; c_FileSize := 9; c_Mime := str "text/plain";
  c_Text := text; c_Extractor := str "plaintext"; c_IndexedAt := 0; c_ChunkIndex := 0; PreserveExisting := false
|}.
(** A corpus is a list of torrents; [alpha] has three chunks. *)
#[export] Instance toy_source : CorpusSource (list TorrentDoc) := {|
  src_AllTorrentDocs l := Ok l;
  src_ContentDocsForInfoHash ih _ :=
    Ok (if bool_decide (ih = str "AA") then [page 1 (str "x"); page 0 (str "y"); page 1 (str "z")] else [])
|}.
Definition built : CompanionIndex :=
  match BuildFromIndex 100 [alpha; beta] (str "pub") DefaultBuildOptions with
  | Ok idx => idx
  | Err _ => {| Version := 0; Format := []; Publisher_ := []; GeneratedAt := 0; Torrents := None |}
  end.
Definition sample : CompanionIndex := stamped built.
(** Enough of an encoder for the publisher: names and time. *)
#[export] Instance toy_codec : CompanionCodec := {|
  json_index idx := Some (str "index" ++ [z2b (GeneratedAt idx)] ++ (torrents idx ≫= Name));
  json_parse_index _ := None;
  json_record tr := Some (Name tr);
  gzip b := b; gzip_open b := true; gzip_read n b := Some (take (Z.to_nat n) b)
|}.
#[export] Instance toy_metainfo : Metainfo := {|
  GeneratePieces b _ := Some (drop 5 b);
  marshal_info name n _ pieces := Some (name ++ pieces)
|}.
#[export] Instance toy_marshal_metainfo : MarshalMetainfo := λ b, Some b.

Definition tick (now : Z) (docs : list TorrentDoc) (put : result bytes unit) : refresh (list TorrentDoc) := {|
  at_build := now; corpus := docs; mkdir_ok := true; save_payload := Files.no_failure;
  save_torrent := Files.no_failure; seed_ok := true; put_answer := put; drop_ok := true; at_end := now * Second
|}.
Definition options : PublisherOptions := {|
  Dir := str "/c"; PublisherKey := zero_arr 32; Interval := 0; MinInterval := 0; PutTimeout := 0;
  Build := DefaultBuildOptions
|}.
(** The clock steps back while the corpus changes, a put fails, and the corpus
    comes back; and a corpus listed in another order. *)
Definition history : list (refresh (list TorrentDoc)) := [
  tick 100 [alpha] (Ok tt); tick 40 [beta] (Err []); tick 50 [alpha] (Ok tt)].
Definition reordered : list (refresh (list TorrentDoc)) := [
  tick 60 [alpha; beta] (Ok tt); tick 70 [beta; alpha] (Ok tt)].

Example history_stamps :
  (stampings history (fresh_publisher options) ∅).*2 = [100; 101; 102].
Proof. by vm_compute. Qed.

Lemma publisher_timestamps_witness :
  len history < 10 ∧
  ∀ i j x y, (i ≤ j)%nat → stampings history (fresh_publisher options) ∅ !! i = Some x →
    stampings history (fresh_publisher options) ∅ !! j = Some y → x.2 ≤ y.2.
Proof.
  split; [by vm_compute |]. apply (publisher_timestamps history options ∅ 100); [|by vm_compute..].
  repeat constructor; by vm_compute.
Defined.

(** An unchanged corpus that the index lists in another order keeps its timestamp
    but not its infohash: the payload follows the order, the fingerprint does not. *)
Definition puts (cs : list call) : list (array 20) :=
  omap (λ c, match c with CPut _ ih true => Some ih | _ => None end) cs.
Definition same (l : list (array 20)) (i j : nat) : bool := bool_decide (l !! i = l !! j).
Example reordered_corpus_moves :
  same (puts (run_refreshes reordered (fresh_publisher options) ∅).2) 0 1 = false.
Proof. by vm_compute. Qed.

Definition seed_check (c : call) : bool :=
  match c with CSeed ih _ ok => ok && negb (bool_decide (ih = zero_arr 20)) | _ => true end.
Lemma seed_check_ok cs : forallb seed_check cs = true → seeds_ok cs.
Proof.
  intros Hc ih path ok Hin. apply forallb_forall with (x := CSeed ih path ok) in Hc; [|by apply list_elem_of_In].
  simpl in Hc. apply andb_true_iff in Hc as [-> Hz]. split; [done |].
  by apply negb_true_iff, bool_decide_eq_false in Hz.
Qed.

Lemma advertised_is_seeded_witness :
  let cs := (run_refreshes reordered (fresh_publisher options) ∅).2 in
  forallb seed_check cs = true ∧
  ∀ k ih, (foldl effect (∅, None) (take k cs)).2 = Some ih → ih ∈ (foldl effect (∅, None) (take k cs)).1.
Proof.
  assert (Hc : forallb seed_check (run_refreshes reordered (fresh_publisher options) ∅).2 = true) by by vm_compute.
  intros cs. split; [exact Hc |].
  pose proof (advertised_is_seeded reordered options ∅) as H. unfold cs. clear cs.
  destruct (run_refreshes reordered (fresh_publisher options) ∅) as [[p f] cs].
  exact (proj1 (H (seed_check_ok cs Hc))).
Defined.


(** An encoder of one document, and what its follower reads. *)
Definition sample_codec : CompanionCodec := {|
  json_index idx := if bool_decide (idx = sample) then Some (str "sample") else None;
  json_parse_index b := if bool_decide (b = str "sample") then Some (valid_index sample) else None;
  json_record tr := Some (Name tr);
  gzip b := b; gzip_open b := true; gzip_read n b := Some (if len b <=? n then b else take (Z.to_nat n) b)
|}.
Lemma sample_codec_laws : @CompanionCodecLaws sample_codec.
Proof.
  split; [|done|].
  2:{ intros n b. simpl. destruct (Z.leb_spec (len b) n); [|done]. by rewrite take_ge by (unfold len in *; lia). }
  intros idx b. unfold json_index, json_parse_index, sample_codec.
  destruct (bool_decide (idx = sample)) eqn:E; [|done]. apply bool_decide_eq_true in E as ->.
  by intros [= <-].
Qed.

End Examples.
End Companion.
