(* ===== verification/Subscriber.v ===== *)
(** * The companion index: following (internal/companion: subscriber.go, worker.go)

    A follower resolves the pointer of a publisher, fetches the snapshot, checks
    who wrote it and when, and imports it into the local index.  [Forget], which
    an unfollow performs, may run between any two of its steps; the file states
    what a sync leaves behind then, what it can do to the index, and that a
    follower keeps up with a publisher of [Companion]. *)

From S2P Require Import Prelude GoInt Utf8 Hex Files DhtSchema Backend Aggregate Indexer Companion.
Open Scope Z_scope.

Module Subscriber.
Import Indexer Companion.

(** ** Ports

    [Ingester] is the write side of the local index. *)
Class Ingester (W : Type) := {
  ing_IndexTorrent : Z → TorrentDoc → W → W * result Indexer.error unit;
  ing_IndexContent : Z → ContentDoc → W → W * result Indexer.error unit
}.
#[export] Instance indexer_ingester `{Utf8.Unicode, Bleve B} : Ingester (option B) := {|
  ing_IndexTorrent := IndexTorrent; ing_IndexContent := IndexContent
|}.

(** ** Data *)
Record SubscriberOptions := { FetchTimeout : Z; PointerTimeout : Z; s_Interval : Z }.
Definition DefaultSubscriberOptions : SubscriberOptions :=
  {| FetchTimeout := 5 * Minute; PointerTimeout := 30 * Second; s_Interval := 1 * Hour |}.

Inductive sync_error : Type :=
  | EPointer (text : bytes) | EFetch (text : bytes) | EOpen | EDecode (e : codec_error)
  | EMismatch (claimed : bytes) | EIngest (e : Indexer.error).

Record SyncResult := {
  res_Publisher : bytes; PointerInfoHash : array 20; TorrentsImported : Z; ContentImported : Z;
  res_GeneratedAt : Z; Deduped : bool; res_Err : option sync_error
}.

Record Subscriber := {
  imported : gmap (array 32) Z;
  lastIH : gmap (array 32) (array 20);
  epoch : gmap (array 32) Z            (** uint64; absent: 0 *)
}.
Definition fresh_subscriber : Subscriber := {| imported := ∅; lastIH := ∅; epoch := ∅ |}.
Inductive subscriber_error : Type := ErrNilGetter | ErrNilFetcher | ErrNilIngester.
(** The flags: whether each port is not nil.  The options are kept beside the state. *)
Definition NewSubscriber (getter fetcher ingester : bool) (o : SubscriberOptions)
    : result subscriber_error (SubscriberOptions * Subscriber) :=
  check getter ! ErrNilGetter;
  check fetcher ! ErrNilFetcher;
  check ingester ! ErrNilIngester;
  Ok ({| FetchTimeout := if FetchTimeout o <=? 0 then 5 * Minute else FetchTimeout o;
         PointerTimeout := if PointerTimeout o <=? 0 then 30 * Second else PointerTimeout o;
         s_Interval := if s_Interval o <=? 0 then 1 * Hour else s_Interval o |}, fresh_subscriber).
Definition epoch_of (s : Subscriber) (pk : array 32) : Z := default 0 (epoch s !! pk).

Definition Forget (pk : array 32) (s : Subscriber) : Subscriber := {|
  imported := delete pk (imported s); lastIH := delete pk (lastIH s);
  epoch := <[pk := u64 (epoch_of s pk + 1)]> (epoch s)
|}.
Definition forgets (pks : list (array 32)) (s : Subscriber) : Subscriber :=
  foldl (λ s pk, Forget pk s) s pks.

(** [generatedAt]: [None] when only the pointer is committed. *)
Definition commit (pk : array 32) (generatedAt : option Z) (ih : array 20) (s : Subscriber) : Subscriber := {|
  imported := match generatedAt with Some g => <[pk := g]> (imported s) | None => imported s end;
  lastIH := <[pk := ih]> (lastIH s); epoch := epoch s
|}.
Definition commitDedup (pk : array 32) (startEpoch : Z) (generatedAt : option Z) (ih : array 20)
    (s : Subscriber) : Subscriber * bool :=
  if negb (epoch_of s pk =? startEpoch) then (s, false) else (commit pk generatedAt ih s, true).

(** ** Importing *)
Section ingest.
Context `{Utf8.Unicode} {W : Type} `{Ingester W}.

Definition torrent_doc (pubHex ih : bytes) (tr : TorrentRecord) : TorrentDoc :=
  let paths := List.filter (λ p, negb (bool_decide (p = []))) (Path <$> Files_ tr) in {|
  t_InfoHash := ih; t_Name := Name tr; t_FilePaths := paths; t_Trackers := [];
  t_SizeBytes := r_Size tr; t_FileCount := len paths;
  t_AddedAt := if 0 <? AddedAt tr then from_unix (AddedAt tr) else 0;
  t_SignedBy := pubHex; PreserveExistingSigner := true
|}.
Definition content_doc (ih : bytes) (fr : FileRecord) (ci : Z) (text : bytes) : ContentDoc := {|
  c_InfoHash := ih; c_FileIndex := Index_ fr; c_FilePath := Path fr; c_FileSize := Size fr;
  c_Mime := Mime fr; c_Text := text; c_Extractor := Extractor fr; c_IndexedAt := 0;
  c_ChunkIndex := ci; PreserveExisting := true
|}.

(** The three nested loops; a hard error ends them with what was counted. *)
Definition progress : Type := W * (Z * Z) * option Indexer.error.
Fixpoint ingest_chunks (now : Z) (ih : bytes) (fr : FileRecord) (ci : Z) (chunks : list ContentChunk)
    (w : W) (n : Z * Z) : progress :=
  match chunks with
  | [] => (w, n, None)
  | ch :: chunks =>
    if bool_decide (Text ch = []) then ingest_chunks now ih fr (ci + 1) chunks w n
    else match ing_IndexContent now (content_doc ih fr ci (Text ch)) w with
    | (w, Err e) => (w, n, Some e)
    | (w, Ok _) => ingest_chunks now ih fr (ci + 1) chunks w (n.1, n.2 + 1)
    end
  end.
Fixpoint ingest_files (now : Z) (ih : bytes) (files : list FileRecord) (w : W) (n : Z * Z) : progress :=
  match files with
  | [] => (w, n, None)
  | fr :: files =>
    match ingest_chunks now ih fr 0 (Chunks fr) w n with
    | (w, n, Some e) => (w, n, Some e)
    | (w, n, None) => ingest_files now ih files w n
    end
  end.
Fixpoint ingest_torrents (now : Z) (pubHex : bytes) (trs : list TorrentRecord) (w : W) (n : Z * Z) : progress :=
  match trs with
  | [] => (w, n, None)
  | tr :: trs =>
    let ih := Utf8.strings_ToLower (InfoHash tr) in
    if negb (len ih =? 40) then ingest_torrents now pubHex trs w n
    else match ing_IndexTorrent now (torrent_doc pubHex ih tr) w with
    | (w, Err ErrForeignTorrent) => ingest_torrents now pubHex trs w n
    | (w, Err e) => (w, n, Some e)
    | (w, Ok _) =>
      match ingest_files now ih (Files_ tr) w (n.1 + 1, n.2) with
      | (w, n, Some e) => (w, n, Some e)
      | (w, n, None) => ingest_torrents now pubHex trs w n
      end
    end
  end.
Definition ingest (now : Z) (pubHex : bytes) (idx : CompanionIndex) (w : W) : progress :=
  ingest_torrents now pubHex (torrents idx) w (0, 0).

(** [IngestReader]: decode, then ingest, with no check of the publisher. *)
Definition IngestReader `{CompanionCodec} (now : Z) (pubHex r : bytes) (w : W)
    : W * (Z * Z) * result sync_error CompanionIndex :=
  match Decode r with
  | Err e => (w, (0, 0), Err (EDecode e))
  | Ok idx =>
    let '(w, n, err) := ingest now pubHex idx w in
    (w, n, match err with None => Ok idx | Some e => Err (EIngest e) end)
  end.
End ingest.

(** ** Sync

    What a sync meets: the pointer, the fetched path and its content ([None]: it
    cannot be opened), the clock, and the publishers forgotten while it resolves
    the pointer, while it fetches and decodes, and while it imports.  When it
    returns early those of the later lists are forgotten after it returned. *)
Record surroundings := {
  pointer : result bytes (array 20); fetched : result bytes bytes; content : bytes → option bytes;
  at_import : Z;
  while_resolving : list (array 32); while_fetching : list (array 32); while_importing : list (array 32)
}.

Section sync.
Context `{Utf8.Unicode, CompanionCodec} {W : Type} `{Ingester W}.

Definition decodeFile (e : surroundings) (path : bytes) : result sync_error CompanionIndex :=
  match content e path with
  | None => Err EOpen
  | Some raw => match Decode raw with Err err => Err (EDecode err) | Ok idx => Ok idx end
  end.

Definition failed (pubHex : bytes) (ih : array 20) (g : Z) (err : sync_error) : SyncResult := {|
  res_Publisher := pubHex; PointerInfoHash := ih; TorrentsImported := 0; ContentImported := 0;
  res_GeneratedAt := g; Deduped := false; res_Err := Some err
|}.
Definition deduped (pubHex : bytes) (ih : array 20) (g : Z) : SyncResult := {|
  res_Publisher := pubHex; PointerInfoHash := ih; TorrentsImported := 0; ContentImported := 0;
  res_GeneratedAt := g; Deduped := true; res_Err := None
|}.

Definition Sync (e : surroundings) (pk : array 32) (s : Subscriber) (w : W)
    : Subscriber * W * SyncResult :=
  let pubHex := Hex.EncodeToString (sl pk) in
  let startEpoch := epoch_of s pk in
  let s := forgets (while_resolving e) s in
  match pointer e with
  | Err text => (forgets (while_importing e) (forgets (while_fetching e) s), w, failed pubHex (zero_arr 20) 0 (EPointer text))
  | Ok ih =>
    if bool_decide (lastIH s !! pk = Some ih)
    then (forgets (while_importing e) (forgets (while_fetching e) s), w, deduped pubHex ih 0)
    else
      let s := forgets (while_fetching e) s in
      match fetched e with
      | Err text => (forgets (while_importing e) s, w, failed pubHex ih 0 (EFetch text))
      | Ok path =>
        match decodeFile e path with
        | Err err => (forgets (while_importing e) s, w, failed pubHex ih 0 err)
        | Ok idx =>
          let g := GeneratedAt idx in
          if negb (bool_decide (Utf8.strings_ToLower (Publisher_ idx) = pubHex))
          then (forgets (while_importing e) s, w, failed pubHex ih g (EMismatch (Publisher_ idx)))
          else
            let rollback := match imported s !! pk with
                            | Some prev => negb (g =? 0) && (g <? prev)
                            | None => false
                            end in
            if rollback then
              ((commitDedup pk startEpoch None ih (forgets (while_importing e) s)).1, w, deduped pubHex ih g)
            else match ingest (at_import e) pubHex idx w with
            | (w, (t, c), err) =>
              let s := forgets (while_importing e) s in
              let res := {|
                res_Publisher := pubHex; PointerInfoHash := ih; TorrentsImported := t;
                ContentImported := c; res_GeneratedAt := g; Deduped := false;
                res_Err := EIngest <$> err |} in
              match err with
              | Some _ => (s, w, res)
              | None => ((commitDedup pk startEpoch (Some g) ih s).1, w, res)
              end
            end
        end
      end
  end.
End sync.

(** ** The worker (worker.go) *)
Record SubscriberWorker := {
  sub : Subscriber; follows : gmap (array 32) bytes; lastSync : gmap (array 32) SyncResult;
  totalRuns : Z
}.
Definition NewSubscriberWorker (s : Subscriber) : SubscriberWorker :=
  {| sub := s; follows := ∅; lastSync := ∅; totalRuns := 0 |}.

Definition Follow (pk : array 32) (label : bytes) (k : SubscriberWorker) : SubscriberWorker :=
  {| sub := sub k; follows := <[pk := label]> (follows k); lastSync := lastSync k; totalRuns := totalRuns k |}.
Definition Unfollow (pk : array 32) (k : SubscriberWorker) : SubscriberWorker := {|
  sub := Forget pk (sub k); follows := delete pk (follows k); lastSync := delete pk (lastSync k);
  totalRuns := totalRuns k
|}.
Definition LastSync (pk : array 32) (k : SubscriberWorker) : option SyncResult := lastSync k !! pk.

(** What the user does during a sync, phase by phase. *)
Inductive op : Type := OFollow (pk : array 32) (label : bytes) | OUnfollow (pk : array 32).
Definition run_op (k : SubscriberWorker) (o : op) : SubscriberWorker :=
  match o with OFollow pk label => Follow pk label k | OUnfollow pk => Unfollow pk k end.
Definition forgotten (os : list op) : list (array 32) :=
  omap (λ o, match o with OUnfollow pk => Some pk | OFollow _ _ => None end) os.

(** One sync of the sweep: the answers and the operations of its three phases. *)
Record visit := {
  answers : surroundings;    (** its lists of forgotten publishers are not used *)
  resolving : list op; fetching : list op; importing : list op
}.
Definition with_forgets (v : visit) : surroundings := {|
  pointer := pointer (answers v); fetched := fetched (answers v); content := content (answers v);
  at_import := at_import (answers v);
  while_resolving := forgotten (resolving v); while_fetching := forgotten (fetching v);
  while_importing := forgotten (importing v)
|}.

Section worker.
Context `{Utf8.Unicode, CompanionCodec} {W : Type} `{Ingester W}.

(** [stopCh] is polled before each publisher: [None] when it is closed. *)
Definition visit_one (pk : array 32) (v : visit) (k : SubscriberWorker) (w : W) : SubscriberWorker * W :=
  let '(s, w, res) := Sync (with_forgets v) pk (sub k) w in
  let k := foldl run_op k (resolving v ++ fetching v ++ importing v) in
  ({| sub := s; follows := follows k;
      lastSync := if bool_decide (is_Some (follows k !! pk)) then <[pk := res]> (lastSync k) else lastSync k;
      totalRuns := totalRuns k |}, w).
Fixpoint sweep (pubs : list (array 32)) (vs : list (option visit)) (k : SubscriberWorker) (w : W)
    : SubscriberWorker * W * bool :=
  match pubs, vs with
  | [], _ => (k, w, true)
  | pk :: pubs, Some v :: vs => let '(k, w) := visit_one pk v k w in sweep pubs vs k w
  | _ :: _, _ => (k, w, false)
  end.
(** [pubs]: the followed publishers, in the order of the map. *)
Definition runOnce (pubs : list (array 32)) (vs : list (option visit)) (k : SubscriberWorker) (w : W)
    : SubscriberWorker * W :=
  match sweep pubs vs k w with
  | (k, w, false) => (k, w)
  | (k, w, true) =>
    ({| sub := sub k; follows := follows k; lastSync := lastSync k; totalRuns := totalRuns k + 1 |}, w)
  end.
End worker.

(** ** Forgetting *)
Lemma forgets_app a b s : forgets (a ++ b) s = forgets b (forgets a s).
Proof. apply foldl_app. Qed.

Lemma forgets_imported pks s pk :
  imported (forgets pks s) !! pk = if bool_decide (pk ∈ pks) then None else imported s !! pk.
Proof.
  revert s. induction pks as [|x pks IH]; intros s; [done |]. cbn [forgets foldl].
  change (foldl (λ s pk, Forget pk s) (Forget x s) pks) with (forgets pks (Forget x s)).
  rewrite IH. simpl. case_bool_decide as E1; case_bool_decide as E2; try done.
  - exfalso. apply E2, elem_of_cons. by right.
  - apply elem_of_cons in E2 as [->|]; [apply lookup_delete_eq | done].
  - rewrite lookup_delete_ne; [done |]. intros ->. apply E2, elem_of_cons. by left.
Qed.
Lemma forgets_lastIH pks s pk :
  lastIH (forgets pks s) !! pk = if bool_decide (pk ∈ pks) then None else lastIH s !! pk.
Proof.
  revert s. induction pks as [|x pks IH]; intros s; [done |]. cbn [forgets foldl].
  change (foldl (λ s pk, Forget pk s) (Forget x s) pks) with (forgets pks (Forget x s)).
  rewrite IH. simpl. case_bool_decide as E1; case_bool_decide as E2; try done.
  - exfalso. apply E2, elem_of_cons. by right.
  - apply elem_of_cons in E2 as [->|]; [apply lookup_delete_eq | done].
  - rewrite lookup_delete_ne; [done |]. intros ->. apply E2, elem_of_cons. by left.
Qed.

(** The epoch counts the forgets, modulo 2^64. *)
Definition count (pk : array 32) (pks : list (array 32)) : Z := len (List.filter (λ x, bool_decide (x = pk)) pks).
Lemma forgets_epoch pks s pk :
  is_u64 (epoch_of s pk) → epoch_of (forgets pks s) pk = u64 (epoch_of s pk + count pk pks).
Proof.
  revert s. induction pks as [|x pks IH]; intros s Hs.
  { unfold count. simpl. by rewrite len_nil, Z.add_0_r, u64_small. }
  cbn [forgets foldl]. change (foldl (λ s pk, Forget pk s) (Forget x s) pks) with (forgets pks (Forget x s)).
  assert (He : epoch_of (Forget x s) pk = if bool_decide (x = pk) then u64 (epoch_of s pk + 1) else epoch_of s pk).
  { unfold epoch_of at 1, Forget. simpl. case_bool_decide as E; [by subst; rewrite lookup_insert_eq |].
    by rewrite lookup_insert_ne. }
  unfold count. cbn [List.filter]. rewrite IH by (rewrite He; destruct (bool_decide _); [apply u64_range | done]).
  rewrite He. case_bool_decide; [|done]. unfold u64 at 2. rewrite len_cons. unfold u64, count.
  rewrite Zplus_mod_idemp_l. f_equal. lia.
Qed.

Lemma count_bounds pk pks : 0 ≤ count pk pks ≤ len pks ∧ (pk ∈ pks → 0 < count pk pks) ∧ (pk ∉ pks → count pk pks = 0).
Proof.
  unfold count. induction pks as [|x pks (IH1 & IH2 & IH3)].
  { split; [done |]. split; [by intros ?%elem_of_nil | done]. }
  cbn [List.filter]. rewrite !len_cons. split_and!.
  - case_bool_decide; rewrite ?len_cons; lia.
  - case_bool_decide; rewrite ?len_cons; lia.
  - intros [->|Hin]%elem_of_cons; [rewrite bool_decide_true by done; rewrite len_cons; lia |].
    specialize (IH2 Hin). case_bool_decide; rewrite ?len_cons; lia.
  - intros [Hx Hn]%not_elem_of_cons. rewrite bool_decide_false by done. by apply IH3.
Qed.

(** The epoch is back at its value only when nothing was forgotten. *)
Lemma forgets_epoch_same pks s pk :
  is_u64 (epoch_of s pk) → len pks < 2 ^ 64 →
  (epoch_of (forgets pks s) pk =? epoch_of s pk) = negb (bool_decide (pk ∈ pks)).
Proof.
  intros He Hl. rewrite forgets_epoch by done. destruct (count_bounds pk pks) as (Hb & Hin & Hout).
  case_bool_decide as E; simpl.
  - specialize (Hin E). apply Z.eqb_neq. unfold u64, is_u64 in *.
    destruct (Z.ltb_spec (epoch_of s pk + count pk pks) (2 ^ 64)).
    + rewrite Z.mod_small by lia. lia.
    + replace (epoch_of s pk + count pk pks) with (epoch_of s pk + count pk pks - 2 ^ 64 + 1 * 2 ^ 64) by lia.
      rewrite Z_mod_plus_full, Z.mod_small by lia. lia.
  - rewrite Hout by done. by rewrite Z.add_0_r, u64_small, Z.eqb_refl.
Qed.

(** A commit and forgets, in either order. *)
Lemma Forget_commit pk x g ih s :
  Forget x (commit pk g ih s) = if bool_decide (x = pk) then Forget x s else commit pk g ih (Forget x s).
Proof.
  unfold Forget, commit, epoch_of. simpl. case_bool_decide as E; f_equal.
  - subst. destruct g; [apply delete_insert_eq | done].
  - subst. apply delete_insert_eq.
  - destruct g; [by rewrite delete_insert_ne | done].
  - by rewrite delete_insert_ne.
Qed.
Lemma forgets_commit pks pk g ih s :
  forgets pks (commit pk g ih s) = if bool_decide (pk ∈ pks) then forgets pks s else commit pk g ih (forgets pks s).
Proof.
  revert s. induction pks as [|x pks IH]; intros s; [done |]. cbn [forgets foldl].
  change (foldl (λ s pk, Forget pk s) ?a pks) with (forgets pks a). rewrite Forget_commit.
  destruct (decide (x = pk)) as [->|Hne].
  - rewrite bool_decide_true by done. rewrite bool_decide_true by (apply elem_of_cons; by left). done.
  - rewrite bool_decide_false by done. rewrite IH.
    destruct (decide (pk ∈ pks)); [rewrite !bool_decide_true; try done; apply elem_of_cons; by right |].
    rewrite !bool_decide_false; try done. intros [?|?]%elem_of_cons; by subst.
Qed.

(** ** A sync among forgets is a sync before them *)
Section linear.
Context `{Utf8.Unicode, CompanionCodec} {W : Type} `{Ingester W}.

Definition quiet (e : surroundings) : surroundings := {|
  pointer := pointer e; fetched := fetched e; content := content e; at_import := at_import e;
  while_resolving := []; while_fetching := []; while_importing := []
|}.
Definition all_forgotten (e : surroundings) : list (array 32) :=
  while_resolving e ++ while_fetching e ++ while_importing e.

Lemma all_forgets e s :
  forgets (while_importing e) (forgets (while_fetching e) (forgets (while_resolving e) s)) =
  forgets (all_forgotten e) s.
Proof. unfold all_forgotten. by rewrite !forgets_app. Qed.

Lemma commitDedup_late e pk g ih s :
  is_u64 (epoch_of s pk) → len (all_forgotten e) < 2 ^ 64 →
  (commitDedup pk (epoch_of s pk) g ih (forgets (all_forgotten e) s)).1 =
    forgets (all_forgotten e) (commit pk g ih s).
Proof.
  intros Hu Hl. unfold commitDedup. rewrite forgets_epoch_same by done. rewrite forgets_commit.
  by destruct (bool_decide (pk ∈ all_forgotten e)).
Qed.

(** What is left: the forgets, over a commit or over nothing. *)
Lemma Sync_state e pk s w :
  is_u64 (epoch_of s pk) → len (all_forgotten e) < 2 ^ 64 →
  let s' := (Sync e pk s w).1.1 in
  s' = forgets (all_forgotten e) s ∨ ∃ g ih, s' = forgets (all_forgotten e) (commit pk g ih s).
Proof.
  intros Hu Hl. pose proof (commitDedup_late e pk) as Hc. unfold Sync. rewrite <-all_forgets in *.
  destruct (pointer e) as [ih|]; [|by left]. destruct (bool_decide _); [by left |].
  destruct (fetched e) as [path|]; [|by left]. destruct (decodeFile e path) as [idx|]; [|by left].
  destruct (negb (bool_decide _)); [by left |].
  set (s2 := forgets (while_fetching e) _). destruct (match imported s2 !! pk with Some _ => _ | None => _ end).
  - right. exists None, ih. unfold s2. rewrite !all_forgets. by apply Hc.
  - destruct (ingest (at_import e) _ idx w) as [[w' [t c]] [err|]]; [by left |].
    right. exists (Some (GeneratedAt idx)), ih. unfold s2. rewrite !all_forgets. by apply Hc.
Qed.

Lemma all_forgotten_quiet e : all_forgotten (quiet e) = [].
Proof. done. Qed.

(** Without a forget of this publisher the sync takes the branches of the quiet one. *)
Lemma Sync_undisturbed e pk s w :
  is_u64 (epoch_of s pk) → len (all_forgotten e) < 2 ^ 64 → pk ∉ all_forgotten e →
  Sync e pk s w = (forgets (all_forgotten e) (Sync (quiet e) pk s w).1.1, (Sync (quiet e) pk s w).1.2,
                   (Sync (quiet e) pk s w).2).
Proof.
  intros Hu Hl Hn. pose proof (commitDedup_late e pk) as Hc.
  pose proof (λ g ih, commitDedup_late (quiet e) pk g ih s Hu ltac:(done)) as Hq. simpl forgets in Hq.
  assert (Hn0 : pk ∉ while_resolving e) by (intros Hi; apply Hn, elem_of_app; by left).
  assert (Hn1 : pk ∉ while_fetching e) by (intros Hi; apply Hn, elem_of_app; right; apply elem_of_app; by left).
  unfold Sync. cbn [pointer fetched content at_import while_resolving while_fetching while_importing quiet].
  change (decodeFile (quiet e)) with (decodeFile e).
  destruct (pointer e) as [ih|]; [|simpl; by rewrite all_forgets].
  rewrite forgets_lastIH, (bool_decide_false (pk ∈ while_resolving e)) by done. cbn [forgets foldl].
  destruct (bool_decide (lastIH s !! pk = Some ih)); [simpl; by rewrite all_forgets |].
  destruct (fetched e) as [path|]; [|simpl; by rewrite all_forgets].
  destruct (decodeFile e path) as [idx|]; [|simpl; by rewrite all_forgets].
  destruct (negb (bool_decide _)); [simpl; by rewrite all_forgets |].
  rewrite !forgets_imported, !(bool_decide_false (pk ∈ _)) by done.
  destruct (match imported s !! pk with Some _ => _ | None => _ end).
  - rewrite all_forgets, Hc by done. simpl. by rewrite Hq.
  - destruct (ingest (at_import e) _ idx w) as [[w' [t c]] [err|]]; simpl; rewrite all_forgets; [done |].
    rewrite Hc by done. by rewrite Hq.
Qed.

(** [C29] A forget that races a sync wins: whenever publishers are forgotten while
    one is being synced, the dedup state left is that of the sync done alone and
    the forgets after it, and a forgotten publisher leaves none; a sync whose own
    publisher is not forgotten does to the index, and reports, what it would
    alone. *)
Theorem forget_wins e pk s w :
  is_u64 (epoch_of s pk) → len (all_forgotten e) < 2 ^ 64 →
  (Sync e pk s w).1.1 = forgets (all_forgotten e) (Sync (quiet e) pk s w).1.1 ∧
  (pk ∈ all_forgotten e →
     imported (Sync e pk s w).1.1 !! pk = None ∧ lastIH (Sync e pk s w).1.1 !! pk = None) ∧
  (pk ∉ all_forgotten e →
     (Sync e pk s w).1.2 = (Sync (quiet e) pk s w).1.2 ∧ (Sync e pk s w).2 = (Sync (quiet e) pk s w).2).
Proof.
  intros Hu Hl.
  assert (Hmain : (Sync e pk s w).1.1 = forgets (all_forgotten e) (Sync (quiet e) pk s w).1.1).
  { destruct (decide (pk ∈ all_forgotten e)) as [Hin|Hn]; [|by rewrite Sync_undisturbed].
    assert (Hany : ∀ g ih, forgets (all_forgotten e) (commit pk g ih s) = forgets (all_forgotten e) s)
      by (intros; by rewrite forgets_commit, bool_decide_true).
    assert (Hq : forgets (all_forgotten e) (Sync (quiet e) pk s w).1.1 = forgets (all_forgotten e) s)
      by (destruct (Sync_state (quiet e) pk s w Hu ltac:(done)) as [->|(g & ih & ->)]; [done | apply Hany]).
    rewrite Hq. destruct (Sync_state e pk s w Hu Hl) as [->|(g & ih & ->)]; [done | apply Hany]. }
  split; [done |]. split; [|intros Hn; by rewrite Sync_undisturbed].
  intros Hin. rewrite Hmain, forgets_imported, forgets_lastIH. by rewrite bool_decide_true.
Qed.
End linear.

(** ** What a sync does to the index *)
Section safety.
Context `{Utf8.Unicode, CompanionCodec} {B : Type} `{BleveLaws B}.
Implicit Types (w : option B) (ms : list import).

(** The imports of a snapshot followed under [pubHex]. *)
Definition authored (pubHex : bytes) (m : import) : Prop :=
  match m with
  | ImportTorrent _ d => t_SignedBy d = pubHex ∧ PreserveExistingSigner d = true
  | ImportContent _ d => PreserveExisting d = true
  end.
Definition imports (pubHex : bytes) w w' : Prop :=
  ∃ ms, Forall (authored pubHex) ms ∧ w' = foldl run_import w ms.

Lemma imports_refl pubHex w : imports pubHex w w.
Proof. by exists []. Qed.
Lemma imports_trans pubHex w1 w2 w3 : imports pubHex w1 w2 → imports pubHex w2 w3 → imports pubHex w1 w3.
Proof.
  intros (ms1 & Ha & ->) (ms2 & Hb & ->). exists (ms1 ++ ms2). rewrite foldl_app. split; [|done].
  by apply Forall_app.
Qed.
Lemma imports_one pubHex m w : authored pubHex m → imports pubHex w (run_import w m).
Proof. intros Hm. exists [m]. split; [by constructor | done]. Qed.

Lemma ingest_chunks_imports pubHex now ih fr chunks ci w n :
  imports pubHex w (ingest_chunks now ih fr ci chunks w n).1.1.
Proof.
  revert ci w n. induction chunks as [|ch chunks IH]; intros ci w n; [apply imports_refl |]. cbn [ingest_chunks].
  case_bool_decide; [apply IH |].
  pose proof (imports_one pubHex (ImportContent now (content_doc ih fr ci (Text ch))) w eq_refl) as Hi. simpl in Hi.
  cbn [ing_IndexContent indexer_ingester]. destruct (IndexContent _ _ _) as [w1 [u|err]]; simpl in *; [|done].
  eapply imports_trans; [exact Hi | apply IH].
Qed.
Lemma ingest_files_imports pubHex now ih files w n :
  imports pubHex w (ingest_files now ih files w n).1.1.
Proof.
  revert w n. induction files as [|fr files IH]; intros w n; [apply imports_refl |]. cbn [ingest_files].
  pose proof (ingest_chunks_imports pubHex now ih fr (Chunks fr) 0 w n) as Hi.
  destruct (ingest_chunks _ _ _ _ _ _ _) as [[w1 n1] [err|]]; simpl in *; [done |].
  eapply imports_trans; [exact Hi | apply IH].
Qed.
Lemma ingest_imports now pubHex idx w : imports pubHex w (ingest now pubHex idx w).1.1.
Proof.
  unfold ingest. generalize (0, 0). intros n. revert w n.
  induction (torrents idx) as [|tr trs IH]; intros w n; [apply imports_refl |]. cbn [ingest_torrents].
  destruct (negb _); [apply IH |]. set (ih := Utf8.strings_ToLower (InfoHash tr)).
  pose proof (imports_one pubHex (ImportTorrent now (torrent_doc pubHex ih tr)) w (conj eq_refl eq_refl)) as Hi.
  simpl in Hi. cbn [ing_IndexTorrent indexer_ingester]. destruct (IndexTorrent _ _ _) as [w1 [u|err]]; simpl in *.
  - pose proof (ingest_files_imports pubHex now ih (Files_ tr) w1 (n.1 + 1, n.2)) as Hf.
    destruct (ingest_files _ _ _ _ _) as [[w2 n2] [err|]]; simpl in *; [by eapply imports_trans |].
    eapply imports_trans; [exact Hi |]. eapply imports_trans; [exact Hf | apply IH].
  - destruct err; try done. eapply imports_trans; [exact Hi | apply IH].
Qed.

(** The snapshot that a sync imports from, if it gets that far. *)
Definition accepted (e : surroundings) (pk : array 32) (s : Subscriber) (idx : CompanionIndex) : Prop :=
  ∃ ih path raw, pointer e = Ok ih ∧ fetched e = Ok path ∧ content e path = Some raw ∧ Decode raw = Ok idx ∧
    Utf8.strings_ToLower (Publisher_ idx) = Hex.EncodeToString (sl pk) ∧
    (pk ∉ all_forgotten e → lastIH s !! pk ≠ Some ih ∧
       ∀ prev, imported s !! pk = Some prev → GeneratedAt idx = 0 ∨ prev ≤ GeneratedAt idx).

Lemma Sync_imports e pk s w :
  (Sync e pk s w).1.2 = w ∨
  ∃ idx, accepted e pk s idx ∧ imports (Hex.EncodeToString (sl pk)) w (Sync e pk s w).1.2.
Proof.
  unfold Sync. destruct (pointer e) as [ih|] eqn:Ep; [|by left].
  rewrite forgets_lastIH. destruct (bool_decide _) eqn:El; [by left |].
  destruct (fetched e) as [path|] eqn:Ef; [|by left].
  unfold decodeFile. destruct (content e path) as [raw|] eqn:Er; [|by left].
  destruct (Decode raw) as [idx|] eqn:Ed; [|by left].
  destruct (bool_decide (Utf8.strings_ToLower _ = _)) eqn:Eh; [|by left]. apply bool_decide_eq_true in Eh. simpl negb.
  rewrite !forgets_imported. cbv iota.
  destruct (match (if bool_decide (pk ∈ while_fetching e) then None
    else if bool_decide (pk ∈ while_resolving e) then None else imported s !! pk) with
    | Some _ => _ | None => _ end) eqn:Eb; [by left |].
  pose proof (ingest_imports (at_import e) (Hex.EncodeToString (sl pk)) idx w) as Hi.
  destruct (ingest _ _ idx w) as [[w' [t c]] [err|]]; right; exists idx; (split; [|exact Hi]).
  all: exists ih, path, raw; split_and!; try done; intros Hn; unfold all_forgotten in Hn;
    apply not_elem_of_app in Hn as [Hn0 Hn]; apply not_elem_of_app in Hn as [Hn1 _];
    rewrite !bool_decide_false in Eb by done; rewrite (bool_decide_false (pk ∈ _)) in El by done;
    apply bool_decide_eq_false in El; (split; [done |]); intros prev Hprev; rewrite Hprev in Eb;
    apply andb_false_iff in Eb as [Eb%negb_false_iff%Z.eqb_eq|Eb%Z.ltb_ge]; [by left | by right].
Qed.

End safety.

(** ** A follower keeps up with a publisher *)
Section keeps_up.
Context `{Utf8.UnicodeLaws, CompanionCodecLaws, Aggregate.Metainfo, MarshalMetainfo} {C : Type} `{CorpusSource C}
  {W : Type} `{Ingester W}.

Lemma EncodeToString_text k : Utf8.strings_ToLower (Utf8.to_valid (Hex.EncodeToString k)) = Hex.EncodeToString k.
Proof.
  assert (Hd : Forall (λ c, b2z c < 0x80 ∧ Utf8.ascii_lower c = c) (Hex.EncodeToString k)).
  { unfold Hex.EncodeToString. induction k as [|c k IH]; [constructor |]. cbn [mbind list_bind].
    apply Forall_app. split; [|exact IH]. by destruct c; repeat constructor. }
  rewrite Utf8.to_valid_id.
  - rewrite Utf8.strings_ToLower_ascii by (eapply Forall_impl; [exact Hd | by intros ? []]).
    induction Hd as [|c s [_ Hc] _ IH]; [done |]. by rewrite fmap_cons, Hc, IH.
  - unfold Utf8.valid. induction Hd as [|c s [Hc _] _ IH]; [constructor |].
    rewrite Utf8.runes_unfold by done. rewrite Utf8.decode_rune_ascii by done. constructor; [|exact IH].
    simpl. pose proof (b2z_range c). unfold Utf8.RuneError. lia.
Qed.

Lemma refreshOnce_key (e : refresh C) p f : pubkeyHex (refreshOnce e p f).1.1 = pubkeyHex p.
Proof.
  unfold refreshOnce, prepare, stamp. destruct (BuildFromIndex _ _ _ _) as [idx|]; [|done].
  destruct (len (torrents idx) =? 0); [done |]. destruct (_ && _).
  all: destruct (WriteCompanionFiles _ _ _ _ _ _) as [f1 [[path mi]|]]; [|done]; by destruct (put_answer e).
Qed.

(** A run ends with a timestamp no snapshot of it exceeds. *)
Lemma run_refreshes_latest (es : list (refresh C)) p f M :
  Forall (λ e, 0 < at_build e ≤ M) es → 0 ≤ lastGeneratedAt p →
  Z.max M (lastGeneratedAt p) + len es < 2 ^ 63 - 1 →
  let p' := (run_refreshes es p f).1.1 in
  pubkeyHex p' = pubkeyHex p ∧ lastGeneratedAt p ≤ lastGeneratedAt p' ≤ Z.max M (lastGeneratedAt p) + len es ∧
  ∀ x, x ∈ stampings es p f → x.2 ≤ lastGeneratedAt p'.
Proof.
  intros Hes. revert p f. induction Hes as [|e es He Hes IH]; intros p f Hg Hb.
  { simpl. rewrite len_nil in *. split_and!; [done | lia.. |]. intros x Hx. by apply not_elem_of_nil in Hx. }
  rewrite len_cons in *. pose proof (len_nonneg es). cbn [stampings run_refreshes].
  pose proof (stampings_step M e p f He ltac:(lia)) as Hs. pose proof (refreshOnce_key e p f) as Hk.
  destruct (refreshOnce e p f) as [[p1 f1] cs] eqn:E. simpl in Hk.
  assert (Hle : lastGeneratedAt p ≤ lastGeneratedAt p1 ≤ Z.max M (lastGeneratedAt p + 1)).
  { destruct (stamping e p) as [[fp g]|]; [|lia]. destruct Hs as (Hfp & Hgp & Hpos & Hmax & Hord). rewrite Hgp.
    destruct (decide (lastGeneratedAt p = 0)); [lia |]. destruct (Hord n) as [Hsame Hdiff].
    destruct (decide (fp = lastContentFP p)) as [Hf|Hf]; [rewrite (Hsame Hf) | specialize (Hdiff Hf)]; lia. }
  destruct (IH p1 f1 ltac:(lia) ltac:(lia)) as (Hkey & Hrng & Hlog).
  destruct (run_refreshes es p1 f1) as [[p2 f2] cs2]. simpl in *. split_and!; [congruence | lia.. |].
  destruct (stamping e p) as [[fp g]|]; [|exact Hlog]. intros x [->|Hx]%elem_of_cons; [|by apply Hlog].
  destruct Hs as (_ & Hgp & _). simpl. lia.
Qed.

(** [C30] A follower keeps up with a publisher: after any run of a publisher, a
    follower whose last import is any snapshot of that run accepts the next one,
    whatever the publisher's clock did: unless it holds that very torrent it
    imports the snapshot, and remembers its timestamp and infohash. *)
Theorem follower_keeps_up es (e : refresh C) o f M env pk s w ih path0 idx path mi raw b :
  Forall (λ e, 0 < at_build e ≤ M) (es ++ [e]) → M + len es + 1 < 2 ^ 63 - 1 → PublisherKey o = pk →
  let '(p, f1, _) := run_refreshes es (fresh_publisher o) f in
  (prepare e p f1).2 = Ok (idx, path, mi) →
  Encode idx = Ok raw → json_index (stamped idx) = Some b → len b ≤ maxDecompressed →
  pointer env = Ok ih → fetched env = Ok path0 → content env path0 = Some raw → all_forgotten env = [] →
  lastIH s !! pk ≠ Some ih →
  (∀ g, imported s !! pk = Some g → ∃ fp, (fp, g) ∈ stampings es (fresh_publisher o) f) →
  let '(w', (t, c), err) := ingest (at_import env) (Hex.EncodeToString (sl pk)) (normalize (valid_index (stamped idx))) w in
  let '(s', w'', res) := Sync env pk s w in
  w'' = w' ∧ Deduped res = false ∧ res_Err res = EIngest <$> err ∧ TorrentsImported res = t ∧ ContentImported res = c ∧
  (err = None → lastIH s' !! pk = Some ih ∧ imported s' !! pk = Some (GeneratedAt idx)).
Proof.
  intros [Hes He]%Forall_app Hb Ho. apply (Forall_singleton (λ e : refresh C, 0 < at_build e ≤ M)) in He.
  pose proof (run_refreshes_latest es (fresh_publisher o) f M Hes) as Hrun. cbn [lastGeneratedAt fresh_publisher] in Hrun.
  destruct (run_refreshes es (fresh_publisher o) f) as [[p f1] cs].
  pose proof (len_nonneg es). assert (HM : 0 < M) by lia.
  destruct Hrun as (Hkey & Hrng & Hlog); [lia.. |]. cbn [fst snd] in *.
  intros Hp Henc Hj Hl Hptr Hfet Hcon Hquiet HIH Himp.
  destruct (prepare e p f1) as [[p' f'] r] eqn:Hprep. simpl in Hp. subst r.
  destruct (prepare_snapshot e p f1 p' f' idx path mi Hprep) as [Hst Hpub].
  pose proof (stampings_step M e p f1 He ltac:(lia)) as Hs. rewrite Hst in Hs.
  destruct (refreshOnce e p f1) as [[p2 f2] cs2]. destruct Hs as (_ & _ & Hpos & _ & Hord).
  assert (Hge : lastGeneratedAt p ≤ GeneratedAt idx).
  { destruct (decide (lastGeneratedAt p = 0)); [lia |]. destruct (Hord n) as [Hsame Hdiff].
    destruct (decide (contentFingerprint idx = lastContentFP p)) as [Hf|Hf];
      [rewrite (Hsame Hf) | specialize (Hdiff Hf)]; lia. }
  destruct (Decode_Encode idx raw Henc) as (b' & Hj' & Hdec). rewrite Hj in Hj'. injection Hj' as <-.
  rewrite (proj2 (Z.leb_le _ _) Hl) in Hdec. apply app_eq_nil in Hquiet as [Hr [Hf Hi]%app_eq_nil].
  unfold Sync. rewrite Hptr, Hfet, Hr, Hf, Hi. cbn [forgets foldl]. rewrite (bool_decide_false _ HIH).
  unfold decodeFile. rewrite Hcon, Hdec. set (idx' := normalize (valid_index (stamped idx))).
  assert (Hpub' : Utf8.strings_ToLower (Publisher_ idx') = Hex.EncodeToString (sl pk)).
  { simpl. rewrite Hpub, Hkey. cbn [pubkeyHex fresh_publisher]. rewrite EncodeToString_text. by rewrite Ho. }
  rewrite Hpub', bool_decide_true by done. cbn [negb]. change (GeneratedAt idx') with (GeneratedAt idx).
  replace (match imported s !! pk with Some prev => _ | None => false end) with false.
  2:{ destruct (imported s !! pk) as [g|] eqn:Eg; [|done]. destruct (Himp g eq_refl) as (fp & Hin).
      specialize (Hlog _ Hin). simpl in Hlog. symmetry. apply andb_false_iff. right. apply Z.ltb_ge. lia. }
  destruct (ingest _ _ idx' w) as [[w' [t c]] [err|]]; [done |]. cbn [fst]. split_and!; try done.
  intros _. unfold commitDedup. rewrite Z.eqb_refl. simpl. by rewrite !lookup_insert_eq.
Qed.
End keeps_up.

(** ** The follow-set *)
Section follow_set.
Context `{Utf8.Unicode, CompanionCodec} {W : Type} `{Ingester W}.

(** What holds at every moment: only followed publishers have a last result. *)
Definition reported (k : SubscriberWorker) : Prop := dom (lastSync k) ⊆ dom (follows k).

Lemma run_op_reported k o : reported k → reported (run_op k o).
Proof. unfold reported. destruct o; simpl; rewrite ?dom_insert, ?dom_delete; set_solver. Qed.
Lemma run_ops_reported os k : reported k → reported (foldl run_op k os).
Proof. revert k. induction os as [|o os IH]; intros k Hk; [done |]. by apply IH, run_op_reported. Qed.
Lemma visit_one_reported pk v k w : reported k → reported (visit_one pk v k w).1.
Proof.
  intros Hk%(run_ops_reported (resolving v ++ fetching v ++ importing v)). unfold visit_one.
  destruct (Sync _ _ _ _) as [[s w'] res]. unfold reported in *. simpl. case_bool_decide as E; [|done].
  apply elem_of_dom in E. rewrite dom_insert. set_solver.
Qed.
Lemma runOnce_reported pubs vs k w : reported k → reported (runOnce pubs vs k w).1.
Proof.
  intros Hk. unfold runOnce. cut (reported (sweep pubs vs k w).1.1).
  { by destruct (sweep pubs vs k w) as [[k' w'] []]. }
  revert vs k w Hk. induction pubs as [|pk pubs IH]; intros vs k w Hk; [done |]. cbn [sweep].
  destruct vs as [|[v|] vs]; [done | | done]. pose proof (visit_one_reported pk v k w Hk) as Hv.
  destruct (visit_one pk v k w) as [k1 w1]. by apply IH.
Qed.
End follow_set.

(** ** Two publishers *)
Module Examples.
#[local] Existing Instance Utf8.ascii_unicode.
#[local] Existing Instance Indexer.Examples.toy_bleve.
#[local] Existing Instance Indexer.Examples.toy_bleve_laws.
Definition key (b : byte) : array 32 := copy_arr 32 (replicate 32 b).
Definition alice : array 32 := key xaa.
Definition bob : array 32 := key xbb.
Definition info : bytes := replicate 40 x41.   (** AAAA... *)
Definition snapshot (pk : array 32) (g : Z) : CompanionIndex := {|
  Version := FormatVersion; Format := FormatName; Publisher_ := Hex.EncodeToString (sl pk); GeneratedAt := g;
  Torrents := Some [{| InfoHash := info; Name := str "film"; r_Size := 9; AddedAt := 0;
    Files_ := [{| Index_ := 0; Path := str "a.srt"; Size := 9; Mime := []; Extractor := [];
                  Chunks := [{| Text := str "hello"; Offset := 0 |}] |}] |}]
|}.
(** A codec that knows the two snapshots by name. *)
#[local] Instance two_codec : CompanionCodec := {|
  json_index idx := Some (Publisher_ idx);
  json_parse_index b :=
    if bool_decide (b = str "alice") then Some (snapshot alice 100)
    else if bool_decide (b = str "bob") then Some (snapshot bob 200) else None;
  json_record tr := Some (Name tr);
  gzip b := b; gzip_open b := true; gzip_read n b := Some (if len b <=? n then b else [])
|}.
Definition from (name : bytes) (during : list (array 32)) : surroundings := {|
  pointer := Ok (copy_arr 20 name); fetched := Ok name; content path := Some path; at_import := 5;
  while_resolving := []; while_fetching := during; while_importing := []
|}.
Definition empty : gmap bytes document := ∅.
Definition doc_id := torrent_docID info.

(** Unfollowed while it is fetched: imported, and nothing remembered. *)
Lemma forget_wins_witness :
  let after := Sync (from (str "alice") [alice]) alice fresh_subscriber (Some empty) in
  imported after.1.1 !! alice = None ∧ lastIH after.1.1 !! alice = None ∧ TorrentsImported after.2 = 1.
Proof.
  intros after.
  destruct (forget_wins (from (str "alice") [alice]) alice fresh_subscriber (Some empty) ltac:(by vm_compute) ltac:(done))
    as (_ & Hgone & _).
  destruct Hgone as [Ha Hb]; [apply elem_of_app; right; apply elem_of_app; left; by left |].
  split; [exact Ha |]. split; [exact Hb | by vm_compute].
Defined.

Definition held : gmap bytes document :=
  default ∅ (Sync (from (str "alice") []) alice fresh_subscriber (Some empty)).1.2.

(** Unfollowed while another publisher is synced, bob is synced all the same: his
    torrent is imported and his dedup state is back, so that following him again
    imports nothing. *)
Definition both : SubscriberWorker :=
  Follow bob [] (Follow alice [] (NewSubscriberWorker fresh_subscriber)).
Definition swept : SubscriberWorker * option (gmap bytes document) :=
  runOnce [alice; bob]
    [Some {| answers := from (str "nowhere") []; resolving := []; fetching := [OUnfollow bob]; importing := [] |};
     Some {| answers := from (str "bob") []; resolving := []; fetching := []; importing := [] |}] both (Some empty).
Example unfollowed_is_synced :
  bool_decide (is_Some (follows swept.1 !! bob)) = false ∧
  (option_map signer (default ∅ swept.2 !! doc_id) = Some (Hex.EncodeToString (sl bob))) ∧
  imported (sub swept.1) !! bob = Some 200 ∧
  Deduped (Sync (from (str "bob") []) bob (sub (Follow bob [] swept.1)) (Some empty)).2 = true.
Proof. by vm_compute. Qed.

#[local] Existing Instances Utf8.ascii_unicode_laws Companion.Examples.toy_source Companion.Examples.index_eq_dec.
#[local] Existing Instance Companion.Examples.toy_metainfo.
#[local] Existing Instance Companion.Examples.toy_marshal_metainfo.
(** A publisher whose clock stepped back between two snapshots, and a follower of
    the first. *)
Definition films (g : Z) (t : TorrentDoc) : CompanionIndex :=
  match BuildFromIndex g [t] (Hex.EncodeToString (sl (zero_arr 32))) DefaultBuildOptions with
  | Ok idx => stamped idx
  | Err _ => snapshot alice g
  end.
Definition first : CompanionIndex := films 100 Companion.Examples.alpha.
Definition second : CompanionIndex := films 101 Companion.Examples.beta.
#[local] Instance film_codec : CompanionCodec := {|
  json_index idx :=
    if bool_decide (idx = first) then Some (str "1") else if bool_decide (idx = second) then Some (str "2") else None;
  json_parse_index b :=
    if bool_decide (b = str "1") then Some (valid_index first)
    else if bool_decide (b = str "2") then Some (valid_index second) else None;
  json_record tr := Some (Name tr);
  gzip b := b; gzip_open b := true; gzip_read n b := Some (if len b <=? n then b else take (Z.to_nat n) b)
|}.
#[local] Instance film_codec_laws : CompanionCodecLaws.
Proof.
  split; [|done|].
  - intros idx b. unfold json_index, json_parse_index, film_codec.
    destruct (bool_decide (idx = first)) eqn:E; [apply bool_decide_eq_true in E as ->; by intros [= <-] |].
    destruct (bool_decide (idx = second)) eqn:E2; [apply bool_decide_eq_true in E2 as ->; by intros [= <-] | done].
  - intros n b. simpl. destruct (Z.leb_spec (len b) n); [|done]. by rewrite take_ge by (unfold len in *; lia).
Qed.

Definition past := [Companion.Examples.tick 100 [Companion.Examples.alpha] (Ok tt)].
Definition next := Companion.Examples.tick 40 [Companion.Examples.beta] (Ok tt).
Definition follower : Subscriber :=
  {| imported := {[zero_arr 32 := 100]}; lastIH := {[zero_arr 32 := copy_arr 20 (str "1")]}; epoch := ∅ |}.
Definition stated (r : result failure (CompanionIndex * bytes * bytes)) : bool :=
  match r with Ok (idx, _, _) => bool_decide (stamped idx = second) && (GeneratedAt idx =? 101) | Err _ => false end.
Lemma follower_keeps_up_witness :
  let after := Sync (from (str "2") []) (zero_arr 32) follower (Some empty) in
  Deduped after.2 = false ∧ res_Err after.2 = None ∧ imported after.1.1 !! zero_arr 32 = Some 101.
Proof.
  pose proof (follower_keeps_up past next Companion.Examples.options ∅ 100 (from (str "2") []) (zero_arr 32)
    follower (Some empty) (copy_arr 20 (str "2")) (str "2")) as H.
  assert (Hst : (stampings past (fresh_publisher Companion.Examples.options) ∅).*2 = [100]) by by vm_compute.
  assert (Hok : let '(p, f, _) := run_refreshes past (fresh_publisher Companion.Examples.options) ∅ in
    stated (prepare next p f).2 = true) by by vm_compute.
  assert (Hin : (ingest 5 (Hex.EncodeToString (sl (zero_arr 32))) (normalize (valid_index second)) (Some empty)).2 = None)
    by by vm_compute.
  destruct (run_refreshes past (fresh_publisher Companion.Examples.options) ∅) as [[p f1] cs].
  destruct (prepare next p f1).2 as [[[idx path] mi]|] eqn:Hp; [|discriminate Hok].
  apply andb_true_iff in Hok as [Hidx%bool_decide_eq_true Hg%Z.eqb_eq].
  assert (Hes : Forall (λ e, 0 < at_build e ≤ 100) (past ++ [next])) by (repeat constructor; by vm_compute).
  assert (Henc : Encode idx = Ok (str "2")) by (unfold Encode; rewrite Hidx; by vm_compute).
  assert (Hj : json_index (stamped idx) = Some (str "2")) by (rewrite Hidx; by vm_compute).
  assert (Hih : lastIH follower !! zero_arr 32 ≠ Some (copy_arr 20 (str "2"))) by by vm_compute.
  assert (Hlog : ∀ g, imported follower !! zero_arr 32 = Some g →
    ∃ fp, (fp, g) ∈ stampings past (fresh_publisher Companion.Examples.options) ∅).
  { intros g Eg. assert (g = 100) as -> by (revert Eg; vm_compute; congruence).
    destruct (stampings past _ ∅) as [|[fp g] [|]]; try discriminate Hst. injection Hst as ->. exists fp. by left. }
  specialize (H idx path mi (str "2") (str "2") Hes ltac:(by vm_compute) eq_refl eq_refl Henc Hj ltac:(by vm_compute)
    eq_refl eq_refl eq_refl eq_refl Hih Hlog).
  intros after. unfold after. clear after. rewrite Hidx in H. cbn [at_import from] in H.
  destruct (ingest 5 _ _ (Some empty)) as [[w' [t c]] err]. cbn [snd] in Hin. subst err.
  destruct (Sync _ _ follower (Some empty)) as [[s' w''] res]. destruct H as (_ & Hd & He & _ & _ & Hs).
  split; [exact Hd |]. split; [exact He |]. rewrite <-Hg. by apply Hs.
Defined.
End Examples.
End Subscriber.
