(* ===== verification/Signing.v ===== *)
(** * Torrent signing (contracts/sign, internal/signing)

    A signature over the hash of the info dictionary, carried in two optional keys
    of the torrent file.  The file is handled as a dictionary of raw values, so
    signing cannot change the info dictionary; bencode and ed25519 are parameters. *)

From S2P Require Import Prelude GoInt Sha1 Externals Instances Hex.
Open Scope Z_scope.

Module Signing.

(** ** The primitives (contracts/sign/sign.go) *)
Definition Domain : bytes := str "SN-TORRENT-V1|".

Record Signature := { PubKey : array 32; Sig : array 64; InfoHash : array 20 }.
Definition zero_signature : Signature :=
  {| PubKey := zero_arr 32; Sig := zero_arr 64; InfoHash := zero_arr 20 |}.
Definition PubKeyHex (s : Signature) : bytes := Hex.EncodeToString (sl (PubKey s)).

Definition Payload (infoHash : array 20) : bytes := Domain ++ sl infoHash.

Inductive error : Type :=
  | ErrNotSigned | ErrBadSignature                  (** the two sentinels *)
  | ErrPrivLength (n : Z) | ErrPubLength (n : Z) | ErrSigLength (n : Z)
  | ErrDecode | ErrNoInfo | ErrPubField | ErrSigField | ErrMarshal | ErrEncode.

Section sign.
Context `{Ed25519}.

Definition sign_Sign (priv : bytes) (infoHash : array 20) : result error (array 64) :=
  check (len priv =? 64) ! (ErrPrivLength (len priv));
  Ok (ed25519_sign priv (Payload infoHash)).

(** The signature is returned with the error: populated for [ErrBadSignature]. *)
Definition sign_Verify (pub sig : bytes) (infoHash : array 20) : Signature * option error :=
  if negb (len pub =? 32) then (zero_signature, Some (ErrPubLength (len pub)))
  else if negb (len sig =? 64) then (zero_signature, Some (ErrSigLength (len sig)))
  else
    let out := {| PubKey := copy_arr 32 pub; Sig := copy_arr 64 sig; InfoHash := infoHash |} in
    if negb (ed25519_verify (copy_arr 32 pub) (Payload infoHash) (copy_arr 64 sig))
    then (out, Some ErrBadSignature) else (out, None).
End sign.

(** ** The torrent file (internal/signing/signing.go)

    [bencode.DecodeDict] and [EncodeDict] on raw values, and the codec of one
    string. *)
Class RawDict := {
  decode_dict : bytes → option (gmap bytes bytes);
  encode_dict : gmap bytes bytes → option bytes;
  marshal_string : bytes → option bytes;
  unmarshal_string : bytes → option bytes
}.
(** Documented behaviour: the values of a decoded dictionary are values, a
    dictionary of values encodes to bytes that decode to it, and a string encodes
    to a value that decodes to it. *)
Class RawDictLaws `{RawDict} := {
  raw_value : bytes → Prop;
  decoded_values raw d : decode_dict raw = Some d → map_Forall (λ _, raw_value) d;
  decode_encoded d : map_Forall (λ _, raw_value) d → ∃ b, encode_dict d = Some b ∧ decode_dict b = Some d;
  string_encoded s : ∃ v, marshal_string s = Some v ∧ raw_value v ∧ unmarshal_string v = Some s
}.

Definition key_info : bytes := str "info".
Definition key_pubkey : bytes := str "snet.pubkey".
Definition key_sig : bytes := str "snet.sig".

Record Signer := { priv : bytes; pub : array 32 }.

Section signing.
Context `{Ed25519, RawDict}.

(** The raw info value; absent and empty are the same. *)
Definition info_of (top : gmap bytes bytes) : option bytes :=
  match top !! key_info with Some (c :: info) => Some (c :: info) | _ => None end.

Definition Sign (raw : bytes) (signer : Signer) : result error bytes :=
  match decode_dict raw with
  | None => Err ErrDecode
  | Some top =>
    match info_of top with
    | None => Err ErrNoInfo
    | Some info =>
      let sigBytes := ed25519_sign (priv signer) (Payload (sha1 info)) in
      match marshal_string (sl (pub signer)) with
      | None => Err ErrMarshal
      | Some pubEnc =>
        match marshal_string (sl sigBytes) with
        | None => Err ErrMarshal
        | Some sigEnc =>
          match encode_dict (<[key_sig := sigEnc]> (<[key_pubkey := pubEnc]> top)) with
          | None => Err ErrEncode
          | Some out => Ok out
          end
        end
      end
    end
  end.

Definition Verify (raw : bytes) : Signature * option error :=
  match decode_dict raw with
  | None => (zero_signature, Some ErrDecode)
  | Some top =>
    match info_of top with
    | None => (zero_signature, Some ErrNoInfo)
    | Some info =>
      match top !! key_pubkey, top !! key_sig with
      | Some pubRaw, Some sigRaw =>
        match unmarshal_string pubRaw with
        | None => (zero_signature, Some ErrPubField)
        | Some pub =>
          match unmarshal_string sigRaw with
          | None => (zero_signature, Some ErrSigField)
          | Some sig => sign_Verify pub sig (sha1 info)
          end
        end
      | _, _ => (zero_signature, Some ErrNotSigned)
      end
    end
  end.

(** ** The taxonomy *)

(** A torrent file as a verifier reads it: its info bytes, and each of the two
    fields if it is there, as the string it decodes to, if it does. *)
Definition reading (raw : bytes) : option (bytes * option (option bytes) * option (option bytes)) :=
  top ← decode_dict raw;
  info ← info_of top;
  Some (info, unmarshal_string <$> top !! key_pubkey, unmarshal_string <$> top !! key_sig).

(** The claim a signed file makes. *)
Definition claims (raw : bytes) (s : Signature) : Prop :=
  ∃ info pub sig, reading raw = Some (info, Some (Some pub), Some (Some sig)) ∧
    pub = sl (PubKey s) ∧ sig = sl (Sig s) ∧ InfoHash s = sha1 info.
Definition authentic (s : Signature) : bool := ed25519_verify (PubKey s) (Payload (InfoHash s)) (Sig s).

Lemma Verify_reading raw :
  Verify raw = match reading raw with
  | None => (zero_signature, Some (if decode_dict raw is Some _ then ErrNoInfo else ErrDecode))
  | Some (info, Some p, Some s) =>
    match p, s with
    | None, _ => (zero_signature, Some ErrPubField)
    | Some _, None => (zero_signature, Some ErrSigField)
    | Some pub, Some sig => sign_Verify pub sig (sha1 info)
    end
  | Some _ => (zero_signature, Some ErrNotSigned)
  end.
Proof.
  unfold Verify, reading. destruct (decode_dict raw) as [top|]; [|done]. simpl.
  destruct (info_of top) as [info|]; [|done]. simpl.
  destruct (top !! key_pubkey) as [p|]; simpl; [|done]. destruct (top !! key_sig) as [s|]; simpl; [|by destruct (unmarshal_string p)].
  by destruct (unmarshal_string p), (unmarshal_string s).
Qed.

Lemma sign_Verify_spec pub sig ih :
  let '(s, err) := sign_Verify pub sig ih in
  match err with
  | None => pub = sl (PubKey s) ∧ sig = sl (Sig s) ∧ InfoHash s = ih ∧ authentic s = true
  | Some ErrBadSignature => pub = sl (PubKey s) ∧ sig = sl (Sig s) ∧ InfoHash s = ih ∧ authentic s = false
  | Some (ErrPubLength n) => s = zero_signature ∧ n = len pub ∧ n ≠ 32
  | Some (ErrSigLength n) => s = zero_signature ∧ len pub = 32 ∧ n = len sig ∧ n ≠ 64
  | Some _ => False
  end.
Proof.
  unfold sign_Verify. destruct (Z.eqb_spec (len pub) 32) as [Ep|]; simpl; [|done].
  destruct (Z.eqb_spec (len sig) 64) as [Es|]; simpl; [|done].
  assert (Hp : sl (copy_arr 32 pub) = pub) by (apply sl_copy_arr; unfold len in *; lia).
  assert (Hs : sl (copy_arr 64 sig) = sig) by (apply sl_copy_arr; unfold len in *; lia).
  unfold authentic. destruct (ed25519_verify _ _ _) eqn:Ev; simpl; rewrite Hp, Hs; by rewrite Ev.
Qed.

Lemma claims_reading raw s info pub sig :
  reading raw = Some (info, Some (Some pub), Some (Some sig)) →
  claims raw s ↔ pub = sl (PubKey s) ∧ sig = sl (Sig s) ∧ InfoHash s = sha1 info.
Proof. intros Hr. unfold claims. rewrite Hr. split; [by intros (? & ? & ? & [= -> -> ->] & ?) | naive_solver]. Qed.
Lemma signature_eq (s t : Signature) :
  sl (PubKey s) = sl (PubKey t) → sl (Sig s) = sl (Sig t) → InfoHash s = InfoHash t → s = t.
Proof. destruct s, t. simpl. intros ?%sl_inj ?%sl_inj ?. by subst. Qed.

(** [C31] The three outcomes of a verification, which are never confused: it
    succeeds with the claim of the file exactly when the file makes one that is
    authentic, it returns the claim with a bad-signature error exactly when it
    makes one that is not, and it reports the file as not signed exactly when it
    is a torrent without one of the two fields; every other file gets an error of
    its own, and no error but a bad signature comes with a signature. *)
Theorem Verify_taxonomy raw s :
  (Verify raw = (s, None) ↔ claims raw s ∧ authentic s = true) ∧
  (Verify raw = (s, Some ErrBadSignature) ↔ claims raw s ∧ authentic s = false) ∧
  (Verify raw = (s, Some ErrNotSigned) ↔
     s = zero_signature ∧ ∃ info p q, reading raw = Some (info, p, q) ∧ (p = None ∨ q = None)) ∧
  (∀ e, Verify raw = (s, Some e) → e ≠ ErrBadSignature → s = zero_signature).
Proof.
  rewrite Verify_reading. destruct (reading raw) as [[[info [p|]] [q|]]|] eqn:Hr.
  2-5: unfold claims; rewrite Hr; try destruct (decode_dict raw); naive_solver.
  destruct p as [pub|]; [destruct q as [sig|] |]; [|unfold claims; rewrite Hr; naive_solver..].
  pose proof (claims_reading raw s info pub sig Hr) as Hc. rewrite Hc. clear Hc.
  pose proof (sign_Verify_spec pub sig (sha1 info)) as Hv. destruct (sign_Verify pub sig (sha1 info)) as [t err].
  set (claim := pub = sl (PubKey s) ∧ sig = sl (Sig s) ∧ InfoHash s = sha1 info).
  assert (Hns : ∀ r : Prop, (∃ i p q, Some (info, Some (Some pub), Some (Some sig)) = Some (i, p, q) ∧ (p = None ∨ q = None)) → r)
    by (intros r (? & ? & ? & [= <- <- <-] & [|]); done).
  assert (Heq : ∀ r : Prop, pub = sl (PubKey t) ∧ sig = sl (Sig t) ∧ InfoHash t = sha1 info ∧ r → claim ↔ s = t).
  { intros r (-> & -> & Ht & _). unfold claim. split; [|by intros ->].
    intros (E1 & E2 & E3). apply signature_eq; [done.. | congruence]. }
  assert (Hlen : claim → len pub = 32 ∧ len sig = 64)
    by (intros (-> & -> & _); unfold len; by rewrite !length_sl).
  destruct err as [[]|]; try done.
  - rewrite (Heq _ Hv). destruct Hv as (_ & _ & _ & Ha).
    split_and!; [split; [done | intros [-> ?]; congruence] | split; [by intros [= ->] | by intros [-> ?]]
                | split; [done | by intros [_ Hx%(Hns False)]] | by intros e [= <- <-]].
  - destruct Hv as (Ht & -> & Hl).
    split_and!; [split; [done | intros [[? _]%Hlen _]; congruence].. | split; [done | by intros [_ Hx%(Hns False)]] |
                 by intros e [= <- <-]].
  - destruct Hv as (Ht & Hp & -> & Hl).
    split_and!; [split; [done | intros [[_ ?]%Hlen _]; congruence].. | split; [done | by intros [_ Hx%(Hns False)]] |
                 by intros e [= <- <-]].
  - rewrite (Heq _ Hv). destruct Hv as (_ & _ & _ & Ha).
    split_and!; [split; [by intros [= ->] | by intros [-> ?]] | split; [done | intros [-> ?]; congruence]
                | split; [done | by intros [_ Hx%(Hns False)]] | done].
Qed.
End signing.

(** ** Signing and verifying *)
Section roundtrip.
Context `{Ed25519Laws, RawDictLaws}.

(** What signing changes. *)
Definition signed_dict (top : gmap bytes bytes) (info : bytes) (signer : Signer) : option (gmap bytes bytes) :=
  pubEnc ← marshal_string (sl (pub signer));
  sigEnc ← marshal_string (sl (ed25519_sign (priv signer) (Payload (sha1 info))));
  Some (<[key_sig := sigEnc]> (<[key_pubkey := pubEnc]> top)).

Lemma info_of_signed top p q : info_of (<[key_sig := q]> (<[key_pubkey := p]> top)) = info_of top.
Proof. unfold info_of. by rewrite !lookup_insert_ne by done. Qed.
Lemma info_of_lookup top info : info_of top = Some info → top !! key_info = Some info.
Proof. unfold info_of. by destruct (top !! key_info) as [[|]|]; intros [= <-]. Qed.

Lemma Sign_spec raw signer :
  match decode_dict raw with
  | None => Sign raw signer = Err ErrDecode
  | Some top =>
    match info_of top with
    | None => Sign raw signer = Err ErrNoInfo
    | Some info => ∃ pubEnc sigEnc out, Sign raw signer = Ok out ∧
        marshal_string (sl (pub signer)) = Some pubEnc ∧ unmarshal_string pubEnc = Some (sl (pub signer)) ∧
        marshal_string (sl (ed25519_sign (priv signer) (Payload (sha1 info)))) = Some sigEnc ∧
        unmarshal_string sigEnc = Some (sl (ed25519_sign (priv signer) (Payload (sha1 info)))) ∧
        encode_dict (<[key_sig := sigEnc]> (<[key_pubkey := pubEnc]> top)) = Some out ∧
        decode_dict out = Some (<[key_sig := sigEnc]> (<[key_pubkey := pubEnc]> top))
    end
  end.
Proof.
  unfold Sign. destruct (decode_dict raw) as [top|] eqn:Hd; [|done]. destruct (info_of top) as [info|]; [|done].
  destruct (string_encoded (sl (pub signer))) as (pubEnc & Hp & Vp & Up).
  destruct (string_encoded (sl (ed25519_sign (priv signer) (Payload (sha1 info))))) as (sigEnc & Hs & Vs & Us).
  destruct (decode_encoded (<[key_sig := sigEnc]> (<[key_pubkey := pubEnc]> top))) as (out & He & Ho).
  { apply map_Forall_insert_2; [done |]. apply map_Forall_insert_2; [done |]. by eapply decoded_values. }
  exists pubEnc, sigEnc, out. rewrite Hp, Hs, He. done.
Qed.

(** Signing succeeds on every torrent file that has an info dictionary and
    on nothing else; it changes the two signature fields only, so the infohash is
    the same; the result verifies as signed by that key, and signing it again
    with any key is signing the original with it. *)
Lemma Sign_verifies raw signer :
  ed25519_keypair (priv signer) (pub signer) →
  match Sign raw signer with
  | Err e => (e = ErrDecode ∧ decode_dict raw = None) ∨
             (e = ErrNoInfo ∧ ∃ top, decode_dict raw = Some top ∧ info_of top = None)
  | Ok out => ∃ top top' info,
      decode_dict raw = Some top ∧ info_of top = Some info ∧ decode_dict out = Some top' ∧
      (∀ k, k ≠ key_pubkey → k ≠ key_sig → top' !! k = top !! k) ∧
      Verify out = ({| PubKey := pub signer; Sig := ed25519_sign (priv signer) (Payload (sha1 info));
                       InfoHash := sha1 info |}, None) ∧
      ∀ other, Sign out other = Sign raw other
  end.
Proof.
  intros Hk. pose proof (Sign_spec raw signer) as Hs. destruct (decode_dict raw) as [top|] eqn:Hd; [|rewrite Hs; by left].
  destruct (info_of top) as [info|] eqn:Hi; [|rewrite Hs; right; eauto].
  destruct Hs as (p & q & out & -> & _ & Up & _ & Uq & _ & Ho).
  exists top, (<[key_sig := q]> (<[key_pubkey := p]> top)), info. split_and!; [done.. | | |].
  - intros k Hp Hq. by rewrite !lookup_insert_ne.
  - unfold Verify. rewrite Ho, info_of_signed, Hi. rewrite lookup_insert_eq.
    rewrite lookup_insert_ne by done. rewrite lookup_insert_eq. rewrite Up, Uq. unfold sign_Verify.
    unfold len. rewrite !length_sl. simpl negb. cbv iota. rewrite !copy_arr_sl.
    by rewrite ed25519_verify_sign.
  - intros other. unfold Sign. rewrite Ho, Hd, info_of_signed, Hi.
    destruct (marshal_string (sl (pub other))) as [p'|]; [|done].
    destruct (marshal_string (sl (ed25519_sign (priv other) _))) as [q'|]; [|done].
    replace (<[key_sig := q']> (<[key_pubkey := p']> (<[key_sig := q]> (<[key_pubkey := p]> top))))
      with (<[key_sig := q']> (<[key_pubkey := p']> top)); [done |].
    apply map_eq. intros k. destruct (decide (k = key_sig)) as [->|]; [by rewrite !lookup_insert_eq |].
    rewrite !(lookup_insert_ne _ key_sig) by done. destruct (decide (k = key_pubkey)) as [->|]; [by rewrite !lookup_insert_eq |].
    by rewrite !lookup_insert_ne by done.
Qed.
End roundtrip.

(** ** A file signed twice *)
Module Examples.
#[local] Existing Instance ToySig.toy_ed25519.
#[local] Existing Instance ToySig.toy_ed25519_laws.
Fixpoint pairs (l : list bytes) : list (bytes * bytes) :=
  match l with k :: v :: l => (k, v) :: pairs l | _ => [] end.
Definition unpairs (l : list (bytes * bytes)) : list bytes := l ≫= λ kv, [kv.1; kv.2].
Lemma pairs_unpairs l : pairs (unpairs l) = l.
Proof. induction l as [|[k v] l IH]; [done |]. cbn. by f_equal. Qed.
#[export] Instance toy_dict : RawDict := {|
  decode_dict b := (λ l, list_to_map (pairs l)) <$> ToyCodec.dec [] b;
  encode_dict d := Some (ToyCodec.enc (unpairs (map_to_list d)));
  marshal_string s := Some s; unmarshal_string s := Some s
|}.
#[export, refine] Instance toy_dict_laws : RawDictLaws := {| raw_value _ := True |}.
Proof.
  - intros raw d _. by intros k v _.
  - intros d _. eexists. split; [done |]. simpl. rewrite ToyCodec.dec_enc. simpl.
    by rewrite pairs_unpairs, list_to_map_to_list.
  - intros s. by exists s.
Defined.

Definition alice : Signer := {| priv := replicate 32 x01; pub := copy_arr 32 (replicate 32 x01) |}.
Definition bob : Signer := {| priv := replicate 32 x02; pub := copy_arr 32 (replicate 32 x02) |}.
Definition torrent : bytes := ToyCodec.enc [str "announce"; str "udp://x"; str "info"; str "d4:name1:ae"].
Definition twice : bytes :=
  match Sign torrent alice with Ok b => match Sign b bob with Ok b => b | Err _ => [] end | Err _ => [] end.

Example unsigned : (Verify torrent).2 = Some ErrNotSigned.
Proof. by vm_compute. Qed.
Example no_info : (Verify (ToyCodec.enc [str "snet.sig"; str "x"])).2 = Some ErrNoInfo.
Proof. by vm_compute. Qed.
(** The tampered file still shows whose signature it claims to have. *)
Example tampered :
  let b := default [] (encode_dict (<[key_info := str "d4:name1:be"]> (default ∅ (decode_dict twice)))) in
  (Verify b).2 = Some ErrBadSignature ∧ PubKey (Verify b).1 = pub bob.
Proof. by vm_compute. Qed.

Lemma Sign_verifies_witness :
  is_ok (Sign torrent alice) = true ∧
  ∃ out s, Sign torrent alice = Ok out ∧ Verify out = (s, None) ∧ PubKey s = pub alice ∧ Sign out bob = Sign torrent bob.
Proof.
  assert (Hok : is_ok (Sign torrent alice) = true) by by vm_compute. split; [exact Hok |].
  pose proof (Sign_verifies torrent alice eq_refl) as H. destruct (Sign torrent alice) as [out|]; [|discriminate Hok].
  destruct H as (top & top' & info & _ & _ & _ & _ & Hv & Hs). exists out. eexists. split; [reflexivity |].
  split; [exact Hv |]. split; [reflexivity | exact (Hs bob)].
Defined.
End Examples.
End Signing.
