(* ===== verification/Queue.v ===== *)
(** * The download queue (internal/engine: queue.go; files.go, engine.go, handle.go
      as far as they touch it)

    How many torrents download at once, and which: the flags of the handles, the
    promotion pass, and the goroutines that the user's operations leave behind.
    The torrent library appears as what the code reads of a torrent (metadata,
    priorities, missing bytes) and as its data gates. *)

From S2P Require Import Prelude GoInt.
Open Scope Z_scope.

Module Queue.

(** ** Handles *)
Inductive priority : Type := PriorityNone | PriorityNormal | PriorityHigh.
#[export] Instance priority_eq_dec : EqDecision priority.
Proof. solve_decision. Defined.

Record Handle := {
  paused : bool; queued : bool; queueOrder : Z;
  files : option (list priority);       (** [T.Files()] once [T.Info()] is there *)
  missing : Z;                          (** [T.BytesMissing()] *)
  downloads : bool; uploads : bool      (** the data gates of the torrent *)
}.
Record Engine := {
  handles : gmap (array 20) Handle; maxActiveDownloads : Z; nextQueueOrder : Z
}.
Definition NewEngine (max : Z) : Engine :=
  {| handles := ∅; maxActiveDownloads := max; nextQueueOrder := 0 |}.
Definition with_handles (m : gmap (array 20) Handle) (e : Engine) : Engine :=
  {| handles := m; maxActiveDownloads := maxActiveDownloads e; nextQueueOrder := nextQueueOrder e |}.
Definition set_handle (ih : array 20) (h : Handle) (e : Engine) : Engine :=
  with_handles (<[ih := h]> (handles e)) e.

Definition with_paused (b : bool) (h : Handle) : Handle := {|
  paused := b; queued := queued h; queueOrder := queueOrder h; files := files h; missing := missing h;
  downloads := negb b; uploads := negb b
|}.
Definition with_files (ps : option (list priority)) (m : Z) (h : Handle) : Handle := {|
  paused := paused h; queued := queued h; queueOrder := queueOrder h; files := ps; missing := m;
  downloads := downloads h; uploads := uploads h
|}.
Definition setQueueOrder (o : Z) (h : Handle) : Handle := {|
  paused := paused h; queued := queued h; queueOrder := o; files := files h; missing := missing h;
  downloads := downloads h; uploads := uploads h
|}.

(** Whether the torrent occupies a slot. *)
Definition isActive (h : Handle) : bool :=
  if paused h || queued h then false
  else match files h with
  | None => true
  | Some ps => if missing h <=? 0 then false else existsb (λ p, negb (bool_decide (p = PriorityNone))) ps
  end.
Definition countActive (e : Engine) : Z := Z.of_nat (size (filter (λ kv, isActive kv.2 = true) (handles e))).

Definition activateDownload (h : Handle) : Handle :=
  if paused h then h
  else {|
    paused := false; queued := false; queueOrder := queueOrder h;
    files := map (λ _, PriorityNormal) <$> files h; missing := missing h;
    downloads := true; uploads := uploads h
  |}.
(** The other branch of [queueOrActivate]. *)
Definition enqueue (h : Handle) : Handle := {|
  paused := paused h; queued := true; queueOrder := queueOrder h;
  files := map (λ _, PriorityNone) <$> files h; missing := missing h;
  downloads := false; uploads := uploads h
|}.

(** The handle of a removed torrent is not listed any more; nothing here sees it. *)
Definition queueOrActivate (ih : array 20) (e : Engine) : Engine :=
  match handles e !! ih with
  | None => e
  | Some h =>
    if paused h then e
    else if (maxActiveDownloads e =? 0) || (countActive e <? maxActiveDownloads e)
    then set_handle ih (activateDownload h) e
    else set_handle ih (enqueue h) e
  end.

(** ** The promotion pass

    [order]: the handles as [sort.Slice] leaves them. *)
Definition waiting (h : Handle) : bool := queued h && negb (paused h).
Fixpoint promote_all (order : list (array 20)) (e : Engine) : Engine :=
  match order with
  | [] => e
  | ih :: order =>
    match handles e !! ih with
    | Some h => promote_all order (if queued h then set_handle ih (activateDownload h) e else e)
    | None => promote_all order e
    end
  end.
Fixpoint promote_loop (order : list (array 20)) (active : Z) (e : Engine) : Engine :=
  match order with
  | [] => e
  | ih :: order =>
    if maxActiveDownloads e <=? active then e
    else match handles e !! ih with
    | None => promote_loop order active e
    | Some h =>
      if queued h && negb (paused h) then
        let h := activateDownload h in
        promote_loop order (if isActive h then active + 1 else active) (set_handle ih h e)
      else promote_loop order active e
    end
  end.
Definition promoteQueued (order : list (array 20)) (e : Engine) : Engine :=
  if maxActiveDownloads e =? 0 then promote_all order e else promote_loop order (countActive e) e.

Definition order_of (e : Engine) (ih : array 20) : Z :=
  match handles e !! ih with Some h => queueOrder h | None => 0 end.
Definition sorted_order (e : Engine) (order : list (array 20)) : Prop :=
  order ≡ₚ (map_to_list (handles e)).*1 ∧ StronglySorted (λ a b, order_of e a ≤ order_of e b) order.

(** ** Operations

    The goroutines that are started and not yet done. *)
Inductive task : Type := Promote | Activate (ih : array 20).
#[export] Instance task_eq_dec : EqDecision task.
Proof. solve_decision. Defined.
Record state := { engine : Engine; pending : list task }.

Inductive error : Type := ErrNoTorrent | ErrNoMetadata | ErrFileIndex | ErrPriority.
Definition parsePriority (s : bytes) : option priority :=
  if bool_decide (s = str "none") then Some PriorityNone
  else if bool_decide (s = str "normal") || bool_decide (s = []) then Some PriorityNormal
  else if bool_decide (s = str "high") then Some PriorityHigh
  else None.

Definition spawn (e : Engine) (ts : list task) (s : state) : state :=
  {| engine := e; pending := pending s ++ ts |}.

(** It runs its pass itself. *)
Definition SetMaxActiveDownloads (n : Z) (s : state) : state :=
  let e := engine s in
  spawn {| handles := handles e; maxActiveDownloads := if n <? 0 then 0 else n; nextQueueOrder := nextQueueOrder e |}
        [Promote] s.

(** [restore]: the flag and the order of a session entry. *)
Definition registerLockedRestore (ih : array 20) (restore : option (bool * Z)) (s : state) : state :=
  let e := engine s in
  match handles e !! ih with
  | Some _ => s
  | None =>
    let next := match restore with
                | Some (_, o) => if nextQueueOrder e <? o then o else nextQueueOrder e
                | None => i64 (nextQueueOrder e + 1)
                end in
    let p := match restore with Some (p, _) => p | None => false end in
    let h := {| paused := p; queued := false;
                queueOrder := match restore with Some (_, o) => o | None => next end;
                files := None; missing := 0; downloads := negb p; uploads := negb p |} in
    spawn {| handles := <[ih := h]> (handles e); maxActiveDownloads := maxActiveDownloads e;
             nextQueueOrder := next |} [] s
  end.

(** The metadata arrives, with [n] files and [m] bytes to get: [autoDownload]. *)
Definition got_info (ih : array 20) (n : nat) (m : Z) (s : state) : state :=
  match handles (engine s) !! ih with
  | Some h =>
    match files h with
    | None => spawn (set_handle ih (with_files (Some (replicate n PriorityNone)) m h) (engine s)) [Activate ih] s
    | Some _ => s
    end
  | None => s
  end.
(** Bytes arrive or fail their check; the last one: [watchCompletion]. *)
Definition progress (ih : array 20) (m : Z) (s : state) : state :=
  match handles (engine s) !! ih with
  | Some h =>
    match files h with
    | Some ps => spawn (set_handle ih (with_files (Some ps) m h) (engine s)) (if m <=? 0 then [Promote] else []) s
    | None => s
    end
  | None => s
  end.

Definition PauseTorrent (ih : array 20) (s : state) : state * option error :=
  match handles (engine s) !! ih with
  | None => (s, Some ErrNoTorrent)
  | Some h =>
    if paused h then (s, None)
    else (spawn (set_handle ih (with_paused true h) (engine s)) [Promote] s, None)
  end.
Definition ResumeTorrent (ih : array 20) (s : state) : state * option error :=
  match handles (engine s) !! ih with
  | None => (s, Some ErrNoTorrent)
  | Some h =>
    if negb (paused h) then (s, None)
    else (spawn (set_handle ih (with_paused false h) (engine s)) [Activate ih] s, None)
  end.
Definition SetFilePriority (ih : array 20) (index : Z) (p : bytes) (s : state) : state * option error :=
  match handles (engine s) !! ih with
  | None => (s, Some ErrNoTorrent)
  | Some h =>
    match files h with
    | None => (s, Some ErrNoMetadata)
    | Some ps =>
      if (index <? 0) || (len ps <=? index) then (s, Some ErrFileIndex)
      else match parsePriority p with
      | None => (s, Some ErrPriority)
      | Some p =>
        (spawn (set_handle ih (with_files (Some (<[Z.to_nat index := p]> ps)) (missing h) h) (engine s)) [Promote] s, None)
      end
    end
  end.
Definition RemoveTorrent (ih : array 20) (s : state) : state * option error :=
  match handles (engine s) !! ih with
  | None => (s, Some ErrNoTorrent)
  | Some _ =>
    ({| engine := with_handles (delete ih (handles (engine s))) (engine s);
        pending := List.filter (λ t, negb (bool_decide (t = Activate ih))) (pending s) ++ [Promote] |}, None)
  end.

Definition orders (e : Engine) : list Z := queueOrder <$> (map_to_list (handles e)).*2.
Definition QueueMoveToFront (ih : array 20) (s : state) : state * option error :=
  match handles (engine s) !! ih with
  | None => (s, Some ErrNoTorrent)
  | Some h =>
    let least := foldr Z.min (queueOrder h) (orders (engine s)) in
    (spawn (set_handle ih (setQueueOrder (i64 (least - 1)) h) (engine s)) [Promote] s, None)
  end.
Definition QueueMoveToBack (ih : array 20) (s : state) : state * option error :=
  match handles (engine s) !! ih with
  | None => (s, Some ErrNoTorrent)
  | Some h =>
    let greatest := foldr Z.max (queueOrder h) (orders (engine s)) in
    (spawn (set_handle ih (setQueueOrder (i64 (greatest + 1)) h) (engine s)) [] s, None)
  end.

(** ** Histories: operations, events and goroutines in any order *)
Inductive op : Type :=
  | OMax (n : Z) | ORegister (ih : array 20) (restore : option (bool * Z))
  | OInfo (ih : array 20) (n : nat) (m : Z) | OProgress (ih : array 20) (m : Z)
  | OPause (ih : array 20) | OResume (ih : array 20) | OPriority (ih : array 20) (index : Z) (p : bytes)
  | ORemove (ih : array 20) | OFront (ih : array 20) | OBack (ih : array 20).
Definition run_op (o : op) (s : state) : state :=
  match o with
  | OMax n => SetMaxActiveDownloads n s
  | ORegister ih restore => registerLockedRestore ih restore s
  | OInfo ih n m => got_info ih n m s
  | OProgress ih m => progress ih m s
  | OPause ih => (PauseTorrent ih s).1
  | OResume ih => (ResumeTorrent ih s).1
  | OPriority ih i p => (SetFilePriority ih i p s).1
  | ORemove ih => (RemoveTorrent ih s).1
  | OFront ih => (QueueMoveToFront ih s).1
  | OBack ih => (QueueMoveToBack ih s).1
  end.
Inductive runs : task → Engine → Engine → Prop :=
  | runs_promote e order : sorted_order e order → runs Promote e (promoteQueued order e)
  | runs_activate e ih : runs (Activate ih) e (queueOrActivate ih e).
Inductive step : state → state → Prop :=
  | step_op o s : step s (run_op o s)
  | step_task before t after e e' :
      runs t e e' → step {| engine := e; pending := before ++ t :: after |} {| engine := e'; pending := before ++ after |}.

(** ** One pass *)
Lemma countActive_insert ih h h' e :
  handles e !! ih = Some h → isActive h = false →
  countActive (set_handle ih h' e) = countActive e + (if isActive h' then 1 else 0).
Proof.
  intros Hh Ha. unfold countActive. simpl.
  assert (Hn : filter (λ kv, isActive kv.2 = true) (handles e) !! ih = None).
  { apply map_lookup_filter_None. right. intros x Hx. simpl. rewrite Hh in Hx. injection Hx as <-. by rewrite Ha. }
  destruct (isActive h') eqn:Ea.
  - rewrite map_filter_insert_True by done. rewrite map_size_insert_None by done. lia.
  - rewrite map_filter_insert_False by (simpl; by rewrite Ea). rewrite map_filter_delete, delete_id by done. lia.
Qed.

Lemma waiting_inactive h : waiting h = true → isActive h = false.
Proof. unfold waiting, isActive. destruct (queued h), (paused h); done. Qed.

(** The pass over a prefix of the order: every waiting handle of it is activated. *)
Definition promoted (h : Handle) : Handle := if waiting h then activateDownload h else h.
Definition promote_prefix (l : list (array 20)) (e : Engine) : Engine :=
  with_handles (map_imap (λ ih h, Some (if bool_decide (ih ∈ l) then promoted h else h)) (handles e)) e.

Lemma lookup_prefix l e ih :
  handles (promote_prefix l e) !! ih = (λ h, if bool_decide (ih ∈ l) then promoted h else h) <$> handles e !! ih.
Proof. simpl. rewrite map_lookup_imap. by destruct (handles e !! ih). Qed.
Lemma with_handles_eq e m : m = handles e → with_handles m e = e.
Proof. intros ->. by destruct e. Qed.
Lemma promote_prefix_nil e : promote_prefix [] e = e.
Proof.
  apply with_handles_eq, map_eq. intros ih. rewrite map_lookup_imap. by destruct (handles e !! ih).
Qed.
Lemma promoted_idemp h : promoted (promoted h) = promoted h.
Proof.
  unfold promoted at 2 3. destruct (waiting h) eqn:Hw; [|by unfold promoted; rewrite Hw].
  unfold promoted, waiting, activateDownload in *. destruct (paused h); [by rewrite andb_false_r in Hw | done].
Qed.
Lemma promote_prefix_cons ih l e :
  promote_prefix (ih :: l) e =
  promote_prefix l (match handles e !! ih with Some h => set_handle ih (promoted h) e | None => e end).
Proof.
  unfold promote_prefix.
  assert (Hsame : ∀ m, with_handles m e =
    with_handles m (match handles e !! ih with Some h => set_handle ih (promoted h) e | None => e end))
    by (intros m; by destruct (handles e !! ih)).
  rewrite Hsame. f_equal. apply map_eq. intros k. rewrite !map_lookup_imap.
  destruct (decide (k = ih)) as [->|Hne].
  - destruct (handles e !! ih) as [h|] eqn:Eh; simpl; [|by rewrite Eh].
    rewrite lookup_insert_eq. simpl. rewrite bool_decide_true by (apply elem_of_cons; by left).
    case_bool_decide; [by rewrite promoted_idemp | done].
  - assert (Hk : handles (match handles e !! ih with Some h => set_handle ih (promoted h) e | None => e end) !! k = handles e !! k)
      by (destruct (handles e !! ih); [simpl; by rewrite lookup_insert_ne | done]).
    rewrite Hk. destruct (handles e !! k) as [h|]; [|done]. simpl. f_equal.
    rewrite (bool_decide_ext (k ∈ ih :: l) (k ∈ l)); [done |]. rewrite elem_of_cons. naive_solver.
Qed.

Lemma set_handle_same ih h e : handles e !! ih = Some h → set_handle ih h e = e.
Proof. intros Hh. apply with_handles_eq. by apply insert_id. Qed.

Lemma promote_all_spec order e : promote_all order e = promote_prefix order e.
Proof.
  revert e. induction order as [|ih order IH]; intros e; [by rewrite promote_prefix_nil |].
  rewrite promote_prefix_cons. cbn [promote_all]. destruct (handles e !! ih) as [h|] eqn:Eh; [|apply IH].
  rewrite IH. f_equal. unfold promoted, waiting. destruct (queued h); [|by rewrite set_handle_same].
  simpl. unfold activateDownload. by destruct (paused h).
Qed.

Lemma promote_loop_spec order e :
  let max := maxActiveDownloads e in
  ∃ k, let e' := promote_prefix (take k order) e in
    promote_loop order (countActive e) e = e' ∧ countActive e' ≤ Z.max (countActive e) max ∧
    (take k order = order ∨ max ≤ countActive e').
Proof.
  intros max. unfold max. clear max. revert e. induction order as [|ih order IH]; intros e.
  { exists 0%nat. rewrite promote_prefix_nil. split_and!; [done | lia | by left]. }
  cbn [promote_loop]. destruct (Z.leb_spec (maxActiveDownloads e) (countActive e)) as [Hle|Hgt].
  { exists 0%nat. rewrite take_0, promote_prefix_nil. split_and!; [done | lia | by right]. }
  destruct (handles e !! ih) as [h|] eqn:Eh.
  2:{ destruct (IH e) as (k & -> & Hc & Hor). exists (S k). cbn [take]. rewrite promote_prefix_cons, Eh.
      split_and!; [done.. |]. destruct Hor as [->|?]; [by left | by right]. }
  assert (Hstep : promote_loop order (countActive (set_handle ih (promoted h) e)) (set_handle ih (promoted h) e) =
    (if queued h && negb (paused h) then
       promote_loop order (if isActive (activateDownload h) then countActive e + 1 else countActive e)
         (set_handle ih (activateDownload h) e)
     else promote_loop order (countActive e) e)).
  { unfold promoted. fold (waiting h). destruct (waiting h) eqn:Hw; [|by rewrite set_handle_same].
    rewrite (countActive_insert ih h) by (done || by apply waiting_inactive).
    destruct (isActive (activateDownload h)); [done | by rewrite Z.add_0_r]. }
  rewrite <-Hstep. destruct (IH (set_handle ih (promoted h) e)) as (k & -> & Hc & Hor).
  exists (S k). cbn [take]. rewrite promote_prefix_cons, Eh. cbn [maxActiveDownloads set_handle with_handles] in *.
  assert (Hb : countActive (set_handle ih (promoted h) e) ≤ countActive e + 1).
  { unfold promoted. destruct (waiting h) eqn:Hw; [|rewrite set_handle_same by done; lia].
    rewrite (countActive_insert ih h) by (done || by apply waiting_inactive). destruct (isActive _); lia. }
  split_and!; [done | lia |]. destruct Hor as [->|?]; [by left | by right].
Qed.

Lemma promoteQueued_spec order e :
  ∃ k, let e' := promote_prefix (take k order) e in
    promoteQueued order e = e' ∧
    (maxActiveDownloads e ≠ 0 → countActive e' ≤ Z.max (countActive e) (maxActiveDownloads e)) ∧
    (take k order = order ∨ maxActiveDownloads e ≠ 0 ∧ maxActiveDownloads e ≤ countActive e').
Proof.
  unfold promoteQueued. destruct (Z.eqb_spec (maxActiveDownloads e) 0) as [E|E].
  - exists (length order). rewrite firstn_all, promote_all_spec. split_and!; [done | done | by left].
  - destruct (promote_loop_spec order e) as (k & -> & Hc & Hor). exists k. split_and!; [done.. |].
    destruct Hor; [by left | by right].
Qed.

Lemma sorted_prefix {A} (R : A → A → Prop) l k x y :
  StronglySorted R l → x ∈ take k l → y ∈ l → y ∉ take k l → R x y.
Proof.
  revert k. induction l as [|a l IH]; intros k Hs Hx Hy Hn; [by rewrite take_nil in Hx; apply not_elem_of_nil in Hx |].
  destruct k as [|k]; [by apply not_elem_of_nil in Hx |]. apply StronglySorted_inv in Hs as [Hs Ha].
  cbn [take] in *. apply not_elem_of_cons in Hn as [Hne Hn]. apply elem_of_cons in Hy as [?|Hy]; [done |].
  apply elem_of_cons in Hx as [->|Hx]; [|by eapply IH]. rewrite Forall_forall in Ha. by apply Ha.
Qed.

(** A promotion pass, in whatever order equal entries are sorted: it changes
    no torrent but waiting ones, which it activates; under a cap it takes the
    active ones no further than the cap, or leaves them as many as they were;
    with no cap, or while a slot is free, it leaves none waiting; and it passes
    over none for one that is later in the queue. *)
Lemma promotion_pass order e :
  sorted_order e order →
  let e' := promoteQueued order e in
  (∀ ih, handles e' !! ih = handles e !! ih ∨
     ∃ h, handles e !! ih = Some h ∧ waiting h = true ∧ handles e' !! ih = Some (activateDownload h)) ∧
  (maxActiveDownloads e ≠ 0 → countActive e' ≤ Z.max (countActive e) (maxActiveDownloads e)) ∧
  (maxActiveDownloads e = 0 ∨ countActive e' < maxActiveDownloads e →
     ∀ ih h, handles e' !! ih = Some h → waiting h = false) ∧
  (∀ a b ha hb, handles e !! a = Some ha → handles e !! b = Some hb → waiting ha = true → waiting hb = true →
     handles e' !! a = Some (activateDownload ha) → handles e' !! b = Some hb → queueOrder ha ≤ queueOrder hb).
Proof.
  intros [Hperm Hsort] e'. destruct (promoteQueued_spec order e) as (k & He & Hc & Hor). unfold e'. rewrite He.
  assert (Hin : ∀ ih h, handles e !! ih = Some h → ih ∈ order).
  { intros ih h Hh. rewrite Hperm. apply list_elem_of_fmap. exists (ih, h). split; [done |]. by apply elem_of_map_to_list. }
  assert (Hact : ∀ h, waiting h = true → waiting (activateDownload h) = false).
  { intros h. unfold waiting, activateDownload. destruct (queued h) eqn:Eq, (paused h) eqn:Ep; simpl; by rewrite ?Eq, ?Ep. }
  split_and!.
  - intros ih. rewrite lookup_prefix. destruct (handles e !! ih) as [h|]; [|by left]. simpl.
    case_bool_decide; [|by left]. unfold promoted. destruct (waiting h) eqn:Hw; [right; by exists h | by left].
  - done.
  - intros Hfree ih h Hh. rewrite lookup_prefix in Hh. destruct (handles e !! ih) as [h0|] eqn:Eh; [|done].
    destruct Hor as [Hall|[Hz Hfull]]; [|destruct Hfree as [?|?]; [done | lia]].
    rewrite Hall, bool_decide_true in Hh by (by eapply Hin). injection Hh as <-.
    unfold promoted. destruct (waiting h0) eqn:Hw; [by apply Hact | done].
  - intros a b ha hb Ha Hb Hwa Hwb Ha' Hb'. rewrite lookup_prefix, Ha in Ha'. rewrite lookup_prefix, Hb in Hb'.
    pose proof (Hact ha Hwa) as Hna. pose proof (Hact hb Hwb) as Hnb. simpl in *.
    unfold promoted in Ha', Hb'. rewrite Hwa in Ha'. rewrite Hwb in Hb'. clear He Hc Hor.
    destruct (bool_decide (a ∈ take k order)) eqn:Ea; [|congruence]. apply bool_decide_eq_true in Ea.
    destruct (bool_decide (b ∈ take k order)) eqn:Eb; [congruence |]. apply bool_decide_eq_false in Eb.
    pose proof (sorted_prefix _ order k a b Hsort Ea (Hin b hb Hb) Eb) as Ho. simpl in Ho.
    unfold order_of in Ho. by rewrite Ha, Hb in Ho.
Qed.

(** A torrent that asks for a slot never takes the active ones past the cap. *)
Lemma queueOrActivate_cap ih e :
  maxActiveDownloads e ≠ 0 → 0 ≤ maxActiveDownloads e →
  countActive (queueOrActivate ih e) ≤ Z.max (countActive e) (maxActiveDownloads e).
Proof.
  intros Hz Hn. unfold queueOrActivate. destruct (handles e !! ih) as [h|] eqn:Eh; [|lia].
  destruct (paused h) eqn:Ep; [lia |]. rewrite (proj2 (Z.eqb_neq _ _) Hz). simpl.
  assert (Hbound : ∀ h', countActive (set_handle ih h' e) ≤ countActive e + (if isActive h' then 1 else 0)).
  { intros h'. destruct (isActive h) eqn:Ea; [|by rewrite (countActive_insert ih h)].
    unfold countActive. simpl. destruct (isActive h') eqn:Ea'.
    - rewrite map_filter_insert_True by done. rewrite map_size_insert. case_match; unfold id; lia.
    - rewrite map_filter_insert_False by (simpl; by rewrite Ea'). rewrite map_filter_delete, map_size_delete.
      case_match; unfold id; lia. }
  destruct (Z.ltb_spec (countActive e) (maxActiveDownloads e)).
  - specialize (Hbound (activateDownload h)). destruct (isActive (activateDownload h)); lia.
  - specialize (Hbound (enqueue h)). assert (Hq : isActive (enqueue h) = false) by (unfold isActive; simpl; by rewrite orb_true_r).
    rewrite Hq in Hbound. lia.
Qed.

(** ** The gates *)
Definition gated (s : state) : Prop := ∀ ih h, handles (engine s) !! ih = Some h →
  (paused h = true → downloads h = false) ∧
  (paused h = false → queued h = false → downloads h = true) ∧
  (paused h = false → queued h = true → downloads h = true → Activate ih ∈ pending s).

(** What a handle may become: the same gates, activated, or queued and gated. *)
Definition handle_ok (acts : Prop) (h : Handle) : Prop :=
  (paused h = true → downloads h = false) ∧
  (paused h = false → queued h = false → downloads h = true) ∧
  (paused h = false → queued h = true → downloads h = true → acts).
Lemma gated_set ih h e ts s :
  gated s → handles (engine s) = e → handle_ok (Activate ih ∈ pending s ++ ts) h →
  ∀ max next, gated (spawn {| handles := <[ih := h]> e; maxActiveDownloads := max; nextQueueOrder := next |} ts s).
Proof.
  intros Hg <- Hh max next ih' h' Hl. simpl in Hl. apply lookup_insert_Some in Hl as [[<- <-]|[Hne Hl]]; [exact Hh |].
  destruct (Hg ih' h' Hl) as (H1' & H2' & H3'). split_and!; [done.. |]. intros. apply elem_of_app. left. by apply H3'.
Qed.
Lemma handle_ok_mono (P Q : Prop) h : (P → Q) → handle_ok P h → handle_ok Q h.
Proof. unfold handle_ok. naive_solver. Qed.
Lemma gated_ok s ih h ts : gated s → handles (engine s) !! ih = Some h → handle_ok (Activate ih ∈ pending s ++ ts) h.
Proof.
  intros Hg Hl. eapply handle_ok_mono; [|exact (Hg ih h Hl)]. intros ?. apply elem_of_app. by left.
Qed.
Lemma gated_spawn e ts s :
  gated s → handles e = handles (engine s) → gated (spawn e ts s).
Proof. intros Hg He ih h Hl. simpl in Hl. rewrite He in Hl. by apply (gated_ok s ih h ts). Qed.

Lemma op_gated o s : gated s → gated (run_op o s).
Proof.
  intros Hg. destruct o as [n|ih restore|ih n m|ih m|ih|ih|ih i p|ih|ih|ih]; cbn [run_op].
  - by apply gated_spawn.
  - unfold registerLockedRestore. destruct (handles (engine s) !! ih) eqn:El; [done |].
    apply gated_set; [done.. |]. unfold handle_ok. simpl. by destruct (match restore with Some _ => _ | None => _ end).
  - unfold got_info. destruct (handles (engine s) !! ih) as [h|] eqn:El; [|done]. destruct (files h); [done |].
    apply gated_set; [done.. |]. by apply (gated_ok s ih h).
  - unfold progress. destruct (handles (engine s) !! ih) as [h|] eqn:El; [|done]. destruct (files h); [|done].
    apply gated_set; [done.. |]. by apply (gated_ok s ih h).
  - unfold PauseTorrent. destruct (handles (engine s) !! ih) as [h|] eqn:El; [|done]. destruct (paused h); [done |].
    apply gated_set; [done.. |]. by unfold handle_ok.
  - unfold ResumeTorrent. destruct (handles (engine s) !! ih) as [h|] eqn:El; [|done]. destruct (negb (paused h)); [done |].
    apply gated_set; [done.. |]. unfold handle_ok. simpl. split_and!; [done.. |]. intros. apply elem_of_app. right. by left.
  - unfold SetFilePriority. destruct (handles (engine s) !! ih) as [h|] eqn:El; [|done]. destruct (files h); [|done].
    destruct (_ || _); [done |]. destruct (parsePriority p); [|done].
    apply gated_set; [done.. |]. by apply (gated_ok s ih h).
  - unfold RemoveTorrent. destruct (handles (engine s) !! ih) as [h|] eqn:El; [|done].
    intros ih' h' Hl. simpl in Hl. apply lookup_delete_Some in Hl as [Hne Hl].
    eapply handle_ok_mono; [|exact (Hg ih' h' Hl)]. intros Ht. apply elem_of_app. left.
    apply list_elem_of_In, filter_In. split; [by apply list_elem_of_In |].
    rewrite bool_decide_false; [done |]. intros [= ->]. done.
  - unfold QueueMoveToFront. destruct (handles (engine s) !! ih) as [h|] eqn:El; [|done].
    apply gated_set; [done.. |]. by apply (gated_ok s ih h).
  - unfold QueueMoveToBack. destruct (handles (engine s) !! ih) as [h|] eqn:El; [|done].
    apply gated_set; [done.. |]. by apply (gated_ok s ih h).
Qed.

Lemma activate_ok P h : handle_ok P h → handle_ok False (activateDownload h).
Proof. unfold handle_ok, activateDownload. destruct (paused h) eqn:Ep; simpl; rewrite ?Ep; naive_solver. Qed.
Lemma task_gated before t after e e' :
  runs t e e' → gated {| engine := e; pending := before ++ t :: after |} →
  gated {| engine := e'; pending := before ++ after |}.
Proof.
  intros Hr Hg ih h Hl. simpl in Hl.
  assert (Hdrop : ∀ ih h, handles e !! ih = Some h → t ≠ Activate ih → handle_ok (Activate ih ∈ before ++ after) h).
  { intros ih0 h0 Hl0 Hne. eapply handle_ok_mono; [|exact (Hg ih0 h0 Hl0)]. simpl.
    rewrite !elem_of_app, elem_of_cons. naive_solver. }
  destruct Hr as [e order Hs|e ih0].
  - destruct (promoteQueued_spec order e) as (k & Hp & _). rewrite Hp, lookup_prefix in Hl.
    destruct (handles e !! ih) as [h0|] eqn:El; [|done]. injection Hl as <-.
    specialize (Hdrop ih h0 El ltac:(done)). case_bool_decide; [|done]. unfold promoted.
    destruct (waiting h0); [|done]. eapply handle_ok_mono; [|by eapply activate_ok]. done.
  - unfold queueOrActivate in Hl. destruct (handles e !! ih0) as [h0|] eqn:El0.
    2:{ apply Hdrop; [done |]. intros [= ->]. congruence. }
    destruct (decide (ih = ih0)) as [->|Hne].
    + pose proof (Hg ih0 h0 El0) as Hok. pose proof (activate_ok _ h0 Hok) as Hact. destruct (paused h0) eqn:Ep.
      * rewrite El0 in Hl. injection Hl as <-. unfold handle_ok. rewrite Ep. split_and!; try done. intros _. exact (proj1 Hok eq_refl).
      * destruct (_ || _); simpl in Hl; rewrite lookup_insert_eq in Hl; injection Hl as <-.
        -- by eapply handle_ok_mono; [|exact Hact].
        -- unfold handle_ok. simpl. by rewrite Ep.
    + apply Hdrop; [|by intros [= ->]].
      destruct (paused h0); [done |]. by destruct (_ || _); simpl in Hl; rewrite lookup_insert_ne in Hl.
Qed.


(** ** One slot *)
Module Examples.
Definition one : array 20 := copy_arr 20 (str "1").
Definition two : array 20 := copy_arr 20 (str "2").
Definition run_activate (ih : array 20) (s : state) : state :=
  {| engine := queueOrActivate ih (engine s); pending := List.filter (λ t, negb (bool_decide (t = Activate ih))) (pending s) |}.
Definition run_promote (order : list (array 20)) (s : state) : state :=
  {| engine := promoteQueued order (engine s); pending := List.filter (λ t, negb (bool_decide (t = Promote))) (pending s) |}.
Definition start : state := {| engine := NewEngine 1; pending := [] |}.
Definition added (ih : array 20) (s : state) : state :=
  run_activate ih (run_op (OInfo ih 2 100) (run_op (ORegister ih None) s)).
Definition pair : state := added two (added one start).
Definition flags (s : state) (ih : array 20) : option (bool * bool * bool) :=
  (λ h, (paused h, queued h, downloads h)) <$> handles (engine s) !! ih.

(** The second torrent waits for the first to complete. *)
Example second_waits : flags pair two = Some (false, true, false) ∧ countActive (engine pair) = 1.
Proof. by vm_compute. Qed.
Lemma promotion_pass_witness :
  let s := run_op (OProgress one 0) pair in
  countActive (engine s) = 0 ∧ ∀ h, handles (promoteQueued [one; two] (engine s)) !! two = Some h → waiting h = false.
Proof.
  intros s. assert (Hc : countActive (engine s) = 0) by by vm_compute. split; [exact Hc |].
  assert (Hs : sorted_order (engine s) [one; two]).
  { split.
    - assert (Hk : bool_decide ((map_to_list (handles (engine s))).*1 = [one; two] ∨
                                (map_to_list (handles (engine s))).*1 = [two; one]) = true) by by vm_compute.
      apply bool_decide_eq_true in Hk as [-> | ->]; [reflexivity | apply perm_swap].
    - repeat constructor; vm_compute; discriminate. }
  destruct (promotion_pass [one; two] (engine s) Hs) as (_ & _ & Hw & Hfifo). intros h Hh.
  destruct (waiting h) eqn:E; [|reflexivity]. exfalso.
  assert (Hf : (match handles (promoteQueued [one; two] (engine s)) !! two with Some h => waiting h | None => false end) = false)
    by by vm_compute.
  rewrite Hh, E in Hf. discriminate Hf.
Defined.


(** The only torrent of a queue of one is paused and resumed.  It keeps its
    priorities, so it counts itself as active, finds no slot and joins the queue;
    nothing that is still to run will take it out. *)
Example resumed_is_stranded :
  let s := run_activate one (run_op (OResume one) (run_promote [one] (run_op (OPause one) (added one start)))) in
  flags (added one start) one = Some (false, false, true) ∧
  flags s one = Some (false, true, false) ∧ pending s = [] ∧ countActive (engine s) = 0.
Proof. by vm_compute. Qed.
End Examples.
End Queue.
