(* ===== verification/Tracker.v ===== *)
(** * File completion (internal/engine/tracker.go)

    A torrent reports pieces; the tracker turns them into one event for each file
    that completes, and hands the events to its subscribers through bounded
    channels, earlier events first to those who come late. *)

From S2P Require Import Prelude GoInt.
Open Scope Z_scope.

Module Tracker.

Definition fileTrackerSubBuf : Z := 64.
Record FileCompleteEvent := { InfoHash : bytes; FileIndex : Z; Path : bytes; Size : Z }.
Record trackedFile := {
  index : Z; path : bytes; size : Z; begin_ : Z; end_ : Z; remaining : Z; done : bool
}.
(** What the torrent says of a file: display path, length, piece span. *)
Record file := { f_path : bytes; f_length : Z; f_begin : Z; f_end : Z }.

(** ** From pieces to events ([fileTracker.run])

    [pd]: [pieceDone]. *)
Definition piece_done (pd : list bool) (p : Z) : bool := default false (pd !! Z.to_nat p).
Definition missing (pd : list bool) (tf : trackedFile) : Z :=
  len (List.filter (λ p, negb (piece_done pd p)) (seqZ (begin_ tf) (end_ tf - begin_ tf))).
Definition event_of (ih : bytes) (tf : trackedFile) : FileCompleteEvent :=
  {| InfoHash := ih; FileIndex := index tf; Path := path tf; Size := size tf |}.
Definition track_file (numPieces i : Z) (f : file) : trackedFile := {|
  index := i; path := f_path f; size := f_length f;
  begin_ := if f_begin f <? 0 then 0 else f_begin f;
  end_ := if numPieces <? f_end f then numPieces else f_end f;
  remaining := 0; done := false
|}.
Definition with_remaining (r : Z) (d : bool) (tf : trackedFile) : trackedFile := {|
  index := index tf; path := path tf; size := size tf; begin_ := begin_ tf; end_ := end_ tf;
  remaining := r; done := d
|}.

(** The counters are seeded from the current state; each file that has nothing
    left is dispatched at once. *)
Fixpoint seed_files (ih : bytes) (pd : list bool) (tfs : list trackedFile)
    : list trackedFile * list FileCompleteEvent :=
  match tfs with
  | [] => ([], [])
  | tf :: tfs =>
    let r := missing pd tf in
    let '(out, evs) := seed_files ih pd tfs in
    if (r =? 0) && negb (done tf) then (with_remaining r true tf :: out, event_of ih tf :: evs)
    else (with_remaining r (done tf) tf :: out, evs)
  end.
Fixpoint touch_files (ih : bytes) (idx delta : Z) (tfs : list trackedFile)
    : list trackedFile * list FileCompleteEvent :=
  match tfs with
  | [] => ([], [])
  | tf :: tfs =>
    let '(out, evs) := touch_files ih idx delta tfs in
    if done tf || (idx <? begin_ tf) || (end_ tf <=? idx) then (tf :: out, evs)
    else
      let r := remaining tf + delta in
      if r =? 0 then (with_remaining r true tf :: out, event_of ih tf :: evs)
      else (with_remaining r false tf :: out, evs)
  end.

Record progress := { pieceDone : list bool; tracked : list trackedFile }.
(** A change of piece [idx]: whether it is complete and ok now. *)
Definition on_piece (ih : bytes) (numPieces : Z) (change : Z * bool) (s : progress)
    : progress * list FileCompleteEvent :=
  let '(idx, complete) := change in
  if (idx <? 0) || (numPieces <=? idx) || eqb (piece_done (pieceDone s) idx) complete then (s, [])
  else
    let '(tfs, evs) := touch_files ih idx (if complete then -1 else 1) (tracked s) in
    ({| pieceDone := <[Z.to_nat idx := complete]> (pieceDone s); tracked := tfs |}, evs).

Fixpoint track_files (numPieces i : Z) (fs : list file) : list trackedFile :=
  match fs with [] => [] | f :: fs => track_file numPieces i f :: track_files numPieces (i + 1) fs end.
(** [states]: the pieces when the metadata is there. *)
Definition begin_run (ih : bytes) (states : list bool) (fs : list file) : progress * list FileCompleteEvent :=
  let '(tfs, evs) := seed_files ih states (track_files (len states) 0 fs) in
  ({| pieceDone := states; tracked := tfs |}, evs).
Fixpoint pieces (ih : bytes) (numPieces : Z) (changes : list (Z * bool)) (s : progress)
    : progress * list FileCompleteEvent :=
  match changes with
  | [] => (s, [])
  | c :: changes =>
    let '(s, evs) := on_piece ih numPieces c s in
    let '(s, evs') := pieces ih numPieces changes s in
    (s, evs ++ evs')
  end.
Definition run (ih : bytes) (states : list bool) (fs : list file) (changes : list (Z * bool))
    : progress * list FileCompleteEvent :=
  let '(s, evs) := begin_run ih states fs in
  let '(s, evs') := pieces ih (len states) changes s in
  (s, evs ++ evs').

(** ** From events to subscribers

    A channel: all that was sent into it, and how much of that was received. *)
Record channel := { sent : list FileCompleteEvent; received : Z; ch_closed : bool }.
Definition offer (ev : FileCompleteEvent) (ch : channel) : channel :=
  if len (sent ch) - received ch <? fileTrackerSubBuf
  then {| sent := sent ch ++ [ev]; received := received ch; ch_closed := ch_closed ch |} else ch.
(** [subs]: every channel handed out; the code forgets those it has closed. *)
Record fileTracker := { subs : list channel; doneReplay : list FileCompleteEvent; closed : bool }.
Definition startFileTracker : fileTracker := {| subs := []; doneReplay := []; closed := false |}.

Definition Subscribe (ft : fileTracker) : fileTracker :=
  if closed ft
  then {| subs := subs ft ++ [{| sent := []; received := 0; ch_closed := true |}];
          doneReplay := doneReplay ft; closed := true |}
  else
    let ch := foldl (λ ch ev, offer ev ch) {| sent := []; received := 0; ch_closed := false |} (doneReplay ft) in
    {| subs := subs ft ++ [ch]; doneReplay := doneReplay ft; closed := false |}.
Definition Close (ft : fileTracker) : fileTracker := {|
  subs := (λ ch, {| sent := sent ch; received := received ch; ch_closed := true |}) <$> subs ft;
  doneReplay := doneReplay ft; closed := true
|}.
Definition dispatch (ev : FileCompleteEvent) (ft : fileTracker) : fileTracker :=
  if closed ft then ft
  else {| subs := offer ev <$> subs ft; doneReplay := doneReplay ft ++ [ev]; closed := false |}.
(** A consumer takes the next event of its channel, if there is one. *)
Definition take_event (ch : channel) : channel :=
  if received ch <? len (sent ch)
  then {| sent := sent ch; received := received ch + 1; ch_closed := ch_closed ch |} else ch.
Definition Receive (i : nat) (ft : fileTracker) : fileTracker :=
  {| subs := alter take_event i (subs ft); doneReplay := doneReplay ft; closed := closed ft |}.

Inductive op : Type := Dispatch (ev : FileCompleteEvent) | Sub | Recv (i : nat) | Shut.
Definition step (ft : fileTracker) (o : op) : fileTracker :=
  match o with
  | Dispatch ev => dispatch ev ft
  | Sub => Subscribe ft
  | Recv i => Receive i ft
  | Shut => Close ft
  end.

(** ** The counters *)
Lemma filter_sublist {A} (f : A → bool) l : sublist (List.filter f l) l.
Proof. induction l as [|x l IH]; [constructor |]. cbn [List.filter]. destruct (f x); by constructor. Qed.
Lemma NoDup_key {A B} (f : A → B) l x y : NoDup (f <$> l) → x ∈ l → y ∈ l → f x = f y → x = y.
Proof.
  induction l as [|a l IH]; [by intros _ ?%not_elem_of_nil |]. rewrite fmap_cons. intros [Ha Hnd]%NoDup_cons.
  intros [->|Hx]%elem_of_cons [->|Hy]%elem_of_cons E; [done | | | by apply IH].
  - exfalso. apply Ha. rewrite E. by apply list_elem_of_fmap_2.
  - exfalso. apply Ha. rewrite <-E. by apply list_elem_of_fmap_2.
Qed.
(** The pieces after some changes. *)
Definition change_piece (pd : list bool) (c : Z * bool) : list bool :=
  if (c.1 <? 0) || (len pd <=? c.1) then pd else <[Z.to_nat c.1 := c.2]> pd.
Definition pieces_after (states : list bool) (changes : list (Z * bool)) : list bool :=
  foldl change_piece states changes.
Definition complete (pd : list bool) (tf : trackedFile) : bool :=
  forallb (piece_done pd) (seqZ (begin_ tf) (end_ tf - begin_ tf)).

Lemma filter_forallb {A} (f : A → bool) l : len (List.filter (λ x, negb (f x)) l) = 0 ↔ forallb f l = true.
Proof.
  induction l as [|x l IH]; [done |]. cbn [List.filter forallb]. destruct (f x); simpl; [exact IH |].
  rewrite len_cons. pose proof (len_nonneg (List.filter (λ x, negb (f x)) l)). split; [lia | done].
Qed.
Lemma missing_complete pd tf : missing pd tf = 0 ↔ complete pd tf = true.
Proof. apply filter_forallb. Qed.
Lemma missing_nonneg pd tf : 0 ≤ missing pd tf.
Proof. apply len_nonneg. Qed.

Lemma piece_done_insert pd p q c :
  0 ≤ q < len pd → 0 ≤ p → piece_done (<[Z.to_nat q := c]> pd) p = if p =? q then c else piece_done pd p.
Proof.
  intros Hq Hp. unfold piece_done. destruct (Z.eqb_spec p q) as [->|Hne].
  - by rewrite list_lookup_insert_eq by (unfold len in *; lia).
  - by rewrite list_lookup_insert_ne by lia.
Qed.

Lemma filter_change (l : list Z) (f g : Z → bool) q :
  NoDup l → q ∈ l → f q = true → g q = false → (∀ p, p ∈ l → p ≠ q → f p = g p) →
  len (List.filter f l) = len (List.filter g l) + 1.
Proof.
  induction 1 as [|x l Hx Hnd IH]; [by intros ?%not_elem_of_nil |]. intros Hq Hf Hg Hsame. cbn [List.filter].
  destruct (decide (x = q)) as [->|Hne].
  - rewrite Hf, Hg, len_cons. enough (List.filter f l = List.filter g l) as -> by lia. apply filter_ext_in. intros p Hp%list_elem_of_In.
    apply Hsame; [by apply elem_of_cons; right |]. intros ->. done.
  - apply elem_of_cons in Hq as [?|Hq]; [done |]. rewrite (Hsame x) by (done || by apply elem_of_cons; left).
    assert (Hrec : len (List.filter f l) = len (List.filter g l) + 1)
      by (apply IH; try done; intros p Hp; apply Hsame; by apply elem_of_cons; right).
    destruct (g x); rewrite ?len_cons; lia.
Qed.

(** One change moves the count of a file by one when the piece is in its span. *)
Lemma missing_change pd tf q c :
  0 ≤ q < len pd → 0 ≤ begin_ tf → piece_done pd q ≠ c →
  missing (<[Z.to_nat q := c]> pd) tf =
  missing pd tf + (if (begin_ tf <=? q) && (q <? end_ tf) then if c then -1 else 1 else 0).
Proof.
  intros Hq Hb Hc. unfold missing. set (l := seqZ (begin_ tf) (end_ tf - begin_ tf)).
  assert (Hl : ∀ p, p ∈ l → 0 ≤ p) by (intros p Hp; apply elem_of_seqZ in Hp; lia).
  destruct ((begin_ tf <=? q) && (q <? end_ tf)) eqn:Eb.
  - apply andb_true_iff in Eb as [E1%Z.leb_le E2%Z.ltb_lt].
    assert (Hin : q ∈ l) by (apply elem_of_seqZ; lia). assert (Hnd : NoDup l) by apply NoDup_seqZ.
    destruct c; destruct (piece_done pd q) eqn:Ep; try done.
    + rewrite (filter_change l (λ p, negb (piece_done pd p)) (λ p, negb (piece_done (<[Z.to_nat q := true]> pd) p)) q); try done.
      * lia.
      * by rewrite Ep.
      * by rewrite piece_done_insert, Z.eqb_refl by lia.
      * intros p Hp Hne. by rewrite piece_done_insert, (proj2 (Z.eqb_neq p q)) by auto.
    + rewrite (filter_change l (λ p, negb (piece_done (<[Z.to_nat q := false]> pd) p)) (λ p, negb (piece_done pd p)) q); try done.
      * by rewrite piece_done_insert, Z.eqb_refl by lia.
      * by rewrite Ep.
      * intros p Hp Hne. by rewrite piece_done_insert, (proj2 (Z.eqb_neq p q)) by auto.
  - rewrite Z.add_0_r. apply (f_equal len), filter_ext_in. intros p Hp%list_elem_of_In.
    rewrite piece_done_insert by auto. destruct (Z.eqb_spec p q) as [->|]; [|done].
    apply elem_of_seqZ in Hp. apply andb_false_iff in Eb as [?%Z.leb_gt|?%Z.ltb_ge]; lia.
Qed.

Definition in_range (n : Z) (tf : trackedFile) : Prop := 0 ≤ begin_ tf ∧ end_ tf ≤ n.
(** What the run keeps true of a file. *)
Definition counted (pd : list bool) (tf : trackedFile) : Prop :=
  in_range (len pd) tf ∧ (done tf = false → remaining tf = missing pd tf ∧ complete pd tf = false).
(** A file once the pieces are [pd]. *)
Definition recount (pd : list bool) (tf : trackedFile) : trackedFile :=
  if done tf then tf else with_remaining (missing pd tf) (complete pd tf) tf.
Definition newly (pd : list bool) (tf : trackedFile) : bool := negb (done tf) && complete pd tf.

Lemma recount_open pd tf : done tf = false → recount pd tf = with_remaining (missing pd tf) (complete pd tf) tf.
Proof. intros Hd. unfold recount. by rewrite Hd. Qed.
Lemma recount_done pd tf : done tf = true → recount pd tf = tf.
Proof. intros Hd. unfold recount. by rewrite Hd. Qed.
Lemma newly_done pd tf : done tf = true → newly pd tf = false.
Proof. intros Hd. unfold newly. by rewrite Hd. Qed.
Lemma newly_open pd tf : done tf = false → newly pd tf = complete pd tf.
Proof. intros Hd. unfold newly. by rewrite Hd. Qed.
Lemma with_remaining_id tf : with_remaining (remaining tf) (done tf) tf = tf.
Proof. by destruct tf. Qed.
Lemma eqb_complete pd tf : (missing pd tf =? 0) = complete pd tf.
Proof.
  apply eq_true_iff_eq. rewrite Z.eqb_eq. apply missing_complete.
Qed.

Lemma seed_files_spec ih pd tfs :
  Forall (λ tf, done tf = false) tfs →
  seed_files ih pd tfs = (recount pd <$> tfs, event_of ih <$> List.filter (newly pd) tfs).
Proof.
  induction 1 as [|tf tfs Hd Hds IH]; [done |]. cbn [seed_files]. rewrite IH, eqb_complete.
  rewrite fmap_cons. cbn [List.filter]. rewrite recount_open, newly_open by done. rewrite Hd, andb_true_r.
  by destruct (complete pd tf).
Qed.

Lemma change_len pd c : len (change_piece pd c) = len pd.
Proof. unfold change_piece. destruct (_ || _); [done |]. unfold len. by rewrite length_insert. Qed.

Lemma recount_same pd tf : counted pd tf → recount pd tf = tf ∧ newly pd tf = false.
Proof.
  intros [_ Hc]. unfold recount, newly. destruct (done tf) eqn:Ed; [done |]. destruct (Hc eq_refl) as [<- Hn].
  rewrite Hn. split; [|done]. destruct tf; simpl in *; by subst.
Qed.
Lemma recount_counted pd pd' tf : len pd' = len pd → counted pd tf → counted pd' (recount pd' tf).
Proof.
  intros Hl [[Hr1 Hr2] _]. unfold counted, in_range. rewrite Hl. unfold recount. destruct (done tf) eqn:Ed; simpl.
  - split; [done | congruence].
  - split; [done |]. intros Hn. split; [done | exact Hn].
Qed.

Lemma touch_files_spec ih pd q c tfs :
  0 ≤ q < len pd → piece_done pd q ≠ c → Forall (counted pd) tfs →
  touch_files ih q (if c then -1 else 1) tfs =
    (recount (<[Z.to_nat q := c]> pd) <$> tfs, event_of ih <$> List.filter (newly (<[Z.to_nat q := c]> pd)) tfs).
Proof.
  intros Hq Hc. set (pd' := <[Z.to_nat q := c]> pd). induction 1 as [|tf tfs [Hr Htf] Htfs IH]; [done |].
  cbn [touch_files]. rewrite IH. rewrite fmap_cons. cbn [List.filter].
  pose proof (missing_change pd tf q c Hq (proj1 Hr) Hc) as Hm. fold pd' in Hm.
  destruct (done tf) eqn:Ed; [by rewrite recount_done, newly_done |]. rewrite recount_open, newly_open by done.
  cbn [orb].
  destruct (Htf eq_refl) as [Hrem Hn].
  destruct ((q <? begin_ tf) || (end_ tf <=? q)) eqn:Eo.
  - assert (Hin : (begin_ tf <=? q) && (q <? end_ tf) = false).
    { apply orb_true_iff in Eo as [?%Z.ltb_lt|?%Z.leb_le]; apply andb_false_iff; [left; apply Z.leb_gt | right; apply Z.ltb_ge]; lia. }
    rewrite Hin, Z.add_0_r in Hm. rewrite <-(eqb_complete pd'), Hm, (eqb_complete pd), Hn. 
    by rewrite <-Hrem, <-Ed, with_remaining_id.
  - apply orb_false_iff in Eo as [E1%Z.ltb_ge E2%Z.leb_gt].
    rewrite (proj2 (Z.leb_le _ _) E1), (proj2 (Z.ltb_lt _ _) E2) in Hm. simpl in Hm.
    rewrite Hrem, <-Hm, (eqb_complete pd'). by destruct (complete pd' tf).
Qed.

Lemma on_piece_spec ih pd tfs c :
  Forall (counted pd) tfs →
  on_piece ih (len pd) c {| pieceDone := pd; tracked := tfs |} =
    ({| pieceDone := change_piece pd c; tracked := recount (change_piece pd c) <$> tfs |},
     event_of ih <$> List.filter (newly (change_piece pd c)) tfs).
Proof.
  intros Hc. destruct c as [q c]. unfold on_piece. cbn [pieceDone tracked].
  assert (Hsame : change_piece pd (q, c) = pd → ({| pieceDone := pd; tracked := tfs |}, @nil FileCompleteEvent) =
    ({| pieceDone := change_piece pd (q, c); tracked := recount (change_piece pd (q, c)) <$> tfs |},
     event_of ih <$> List.filter (newly (change_piece pd (q, c))) tfs)).
  { intros ->. assert (Hid : recount pd <$> tfs = tfs ∧ List.filter (newly pd) tfs = []).
    { induction Hc as [|tf tfs Htf _ [IH1 IH2]]; [done |]. destruct (recount_same pd tf Htf) as [Ha Hb].
      rewrite fmap_cons, Ha, IH1. cbn [List.filter]. by rewrite Hb, IH2. }
    by destruct Hid as [-> ->]. }
  destruct ((q <? 0) || (len pd <=? q)) eqn:Eo; simpl.
  { apply Hsame. unfold change_piece. simpl. by rewrite Eo. }
  pose proof Eo as [E1%Z.ltb_ge E2%Z.leb_gt]%orb_false_iff.
  destruct (eqb (piece_done pd q) c) eqn:Ee.
  - apply Hsame. unfold change_piece. simpl. rewrite Eo. apply eqb_prop in Ee. rewrite <-Ee. unfold piece_done.
    apply list_insert_id. destruct (pd !! Z.to_nat q) eqn:El; [done |].
    apply lookup_ge_None in El. unfold len in *. lia.
  - apply eqb_false_iff in Ee. rewrite (touch_files_spec ih pd q c) by (lia || done).
    unfold change_piece. simpl. by rewrite Eo.
Qed.

(** Whether a file is complete at some later moment. *)
Fixpoint later (pd : list bool) (changes : list (Z * bool)) (tf : trackedFile) : bool :=
  match changes with
  | [] => false
  | c :: changes => complete (change_piece pd c) tf || later (change_piece pd c) changes tf
  end.
Lemma recount_span pd tf :
  index (recount pd tf) = index tf ∧ event_of [] (recount pd tf) = event_of [] tf ∧
  (∀ pd', complete pd' (recount pd tf) = complete pd' tf) ∧ done (recount pd tf) = done tf || complete pd tf.
Proof. unfold recount. destruct (done tf) eqn:Ed; simpl; [by rewrite Ed | done]. Qed.
Lemma later_recount pd changes pd0 tf : later pd changes (recount pd0 tf) = later pd changes tf.
Proof.
  revert pd. induction changes as [|c changes IH]; intros pd; [done |]. cbn [later]. rewrite IH.
  by rewrite (proj1 (proj2 (proj2 (recount_span pd0 tf)))).
Qed.
Lemma event_recount ih pd tf : event_of ih (recount pd tf) = event_of ih tf.
Proof. unfold recount. by destruct (done tf). Qed.

Lemma pieces_spec ih pd tfs changes :
  Forall (counted pd) tfs → NoDup (index <$> tfs) →
  let evs := (pieces ih (len pd) changes {| pieceDone := pd; tracked := tfs |}).2 in
  NoDup (FileIndex <$> evs) ∧
  ∀ ev, ev ∈ evs ↔ ∃ tf, tf ∈ tfs ∧ done tf = false ∧ later pd changes tf = true ∧ ev = event_of ih tf.
Proof.
  revert pd tfs. induction changes as [|c changes IH]; intros pd tfs Hc Hnd.
  { simpl. split; [constructor |]. intros ev. rewrite elem_of_nil. naive_solver. }
  cbn [pieces]. rewrite on_piece_spec by done. set (pd' := change_piece pd c).
  assert (Hlen : len pd' = len pd) by apply change_len.
  assert (Hc' : Forall (counted pd') (recount pd' <$> tfs)).
  { apply Forall_fmap. eapply Forall_impl; [exact Hc |]. intros tf. by apply recount_counted. }
  assert (Hi : index <$> (recount pd' <$> tfs) = index <$> tfs).
  { rewrite <-list_fmap_compose. apply list_fmap_ext. intros ? tf _. apply recount_span. }
  destruct (IH pd' (recount pd' <$> tfs) Hc') as [Hnd2 Hin]; [by rewrite Hi |]. rewrite Hlen in Hnd2, Hin.
  destruct (pieces ih (len pd) changes _) as [s2 evs2]. cbn [snd] in *.
  assert (Hfst : ∀ ev, ev ∈ event_of ih <$> List.filter (newly pd') tfs ↔
    ∃ tf, tf ∈ tfs ∧ done tf = false ∧ complete pd' tf = true ∧ ev = event_of ih tf).
  { intros ev. rewrite list_elem_of_fmap. split.
    - intros (tf & -> & [Ht [Hn Hco]%andb_true_iff]%list_elem_of_In%filter_In).
      exists tf. split; [by apply list_elem_of_In |]. by apply negb_true_iff in Hn.
    - intros (tf & Ht & Hd & Hco & ->). exists tf. split; [done |]. apply list_elem_of_In, filter_In.
      split; [by apply list_elem_of_In |]. unfold newly. by rewrite Hd. }
  assert (Hsnd : ∀ ev, ev ∈ evs2 ↔ ∃ tf, tf ∈ tfs ∧ done tf = false ∧ complete pd' tf = false ∧
    later pd' changes tf = true ∧ ev = event_of ih tf).
  { intros ev. rewrite Hin. split.
    - intros (tf' & (tf & -> & Ht)%list_elem_of_fmap & Hd & Hl & ->). exists tf.
      destruct (recount_span pd' tf) as (_ & _ & _ & Hdone). rewrite Hdone in Hd. apply orb_false_iff in Hd as [Hd1 Hd2].
      rewrite later_recount in Hl. by rewrite event_recount.
    - intros (tf & Ht & Hd & Hco & Hl & ->). exists (recount pd' tf). split; [by apply list_elem_of_fmap_2 |].
      destruct (recount_span pd' tf) as (_ & _ & _ & Hdone). rewrite Hdone, Hd, Hco, later_recount, event_recount. done. }
  split.
  - rewrite fmap_app. apply NoDup_app. split_and!; [|intros i Hi1 Hi2 |done].
    + rewrite <-list_fmap_compose. eapply sublist_NoDup; [exact Hnd |].
      change (sublist (index <$> List.filter (newly pd') tfs) (index <$> tfs)). apply fmap_sublist, filter_sublist.
    + apply list_elem_of_fmap in Hi1 as (ev & -> & Hev). apply Hfst in Hev as (tf & Ht & _ & Hco & ->).
      apply list_elem_of_fmap in Hi2 as (ev' & Hix & Hev'). apply Hsnd in Hev' as (tf' & Ht' & _ & Hco' & _ & ->).
      simpl in Hix. assert (tf = tf') as <- by (by apply (NoDup_key index tfs)). congruence.
  - intros ev. rewrite elem_of_app, Hfst, Hsnd. cbn [later]. fold pd'. setoid_rewrite orb_true_iff. split.
    + naive_solver.
    + intros (tf & Ht & Hd & Hl & ->). destruct (complete pd' tf) eqn:Ec; [left | right]; exists tf; naive_solver.
Qed.

(** ** The run *)
Lemma elem_of_track_files n i fs tf :
  tf ∈ track_files n i fs ↔ ∃ k f, fs !! k = Some f ∧ tf = track_file n (i + Z.of_nat k) f.
Proof.
  revert i. induction fs as [|f fs IH]; intros i; cbn [track_files].
  { rewrite elem_of_nil. split; [done | by intros (k & f & ? & _)]. }
  rewrite elem_of_cons, IH. split.
  - intros [->|(k & g & Hg & ->)]; [exists 0%nat, f; by rewrite Z.add_0_r |].
    exists (S k), g. split; [done |]. f_equal. lia.
  - intros ([|k] & g & Hg & ->); simpl in Hg; [injection Hg as ->; left; by rewrite Z.add_0_r |].
    right. exists k, g. split; [done |]. f_equal. lia.
Qed.
Lemma track_files_index n i fs : index <$> track_files n i fs = seqZ i (len fs).
Proof.
  revert i. induction fs as [|f fs IH]; intros i; [done |]. cbn [track_files]. rewrite fmap_cons, IH, len_cons.
  pose proof (len_nonneg fs). rewrite (seqZ_cons i) by lia. simpl. f_equal. f_equal; lia.
Qed.

(** A file is complete at some moment of the run. *)
Definition ever_complete (states : list bool) (changes : list (Z * bool)) (tf : trackedFile) : Prop :=
  ∃ k, complete (pieces_after states (take k changes)) tf = true.
Lemma ever_later states changes tf :
  ever_complete states changes tf ↔ complete states tf = true ∨ later states changes tf = true.
Proof.
  unfold ever_complete. revert states. induction changes as [|c changes IH]; intros states; cbn [later].
  { setoid_rewrite take_nil. simpl. split; [intros [_ ?]; by left | intros [?|?]; [by exists 0%nat | done]]. }
  rewrite orb_true_iff, <-IH. split.
  - intros ([|k] & Hk); [by left | right; by exists k].
  - intros [H0|(k & Hk)]; [by exists 0%nat | by exists (S k)].
Qed.

Lemma run_spec ih states fs changes :
  let evs := (run ih states fs changes).2 in
  NoDup (FileIndex <$> evs) ∧
  ∀ ev, ev ∈ evs ↔ ∃ k f, let tf := track_file (len states) (Z.of_nat k) f in
    fs !! k = Some f ∧ ever_complete states changes tf ∧ ev = event_of ih tf.
Proof.
  unfold run, begin_run. set (tfs := track_files (len states) 0 fs).
  assert (Hd : Forall (λ tf, done tf = false) tfs).
  { apply Forall_forall. intros tf (k & f & _ & ->)%elem_of_track_files. done. }
  assert (Hnd : NoDup (index <$> tfs)) by (unfold tfs; rewrite track_files_index; apply NoDup_seqZ).
  assert (Hc : Forall (counted states) (recount states <$> tfs)).
  { apply Forall_fmap, Forall_forall. intros tf Ht. pose proof Ht as (k & f & _ & Etf)%elem_of_track_files.
    rewrite Forall_forall in Hd. simpl. rewrite recount_open by (by apply Hd). split; [|done].
    unfold in_range. rewrite Etf. simpl. destruct (Z.ltb_spec (f_begin f) 0), (Z.ltb_spec (len states) (f_end f)); lia. }
  assert (Hi : index <$> (recount states <$> tfs) = index <$> tfs).
  { rewrite <-list_fmap_compose. apply list_fmap_ext. intros ? tf _. apply recount_span. }
  rewrite (seed_files_spec ih states tfs Hd).
  pose proof (pieces_spec ih states (recount states <$> tfs) changes Hc) as Hp. rewrite Hi in Hp.
  destruct (Hp Hnd) as [Hnd2 Hin2]. clear Hp. destruct (pieces ih _ changes _) as [s2 evs2]. cbn [snd] in *.
  rewrite Forall_forall in Hd.
  assert (Hfst : ∀ ev, ev ∈ event_of ih <$> List.filter (newly states) tfs ↔
    ∃ tf, tf ∈ tfs ∧ complete states tf = true ∧ ev = event_of ih tf).
  { intros ev. rewrite list_elem_of_fmap. split.
    - intros (tf & -> & [Ht Hn]%list_elem_of_In%filter_In). apply list_elem_of_In in Ht.
      rewrite newly_open in Hn by (by apply Hd). by exists tf.
    - intros (tf & Ht & Hco & ->). exists tf. split; [done |]. apply list_elem_of_In, filter_In.
      rewrite newly_open by (by apply Hd). split; [by apply list_elem_of_In | done]. }
  assert (Hsnd : ∀ ev, ev ∈ evs2 ↔ ∃ tf, tf ∈ tfs ∧ complete states tf = false ∧
    later states changes tf = true ∧ ev = event_of ih tf).
  { intros ev. rewrite Hin2. split.
    - intros (tf' & (tf & -> & Ht)%list_elem_of_fmap & Hdn & Hl & ->). exists tf.
      rewrite recount_open in Hdn by (by apply Hd). rewrite later_recount in Hl. by rewrite event_recount.
    - intros (tf & Ht & Hco & Hl & ->). exists (recount states tf). split; [by apply list_elem_of_fmap_2 |].
      rewrite later_recount, event_recount. rewrite recount_open by (by apply Hd). done. }
  split.
  - rewrite fmap_app. apply NoDup_app. split_and!; [|intros i Hi1 Hi2 |done].
    + rewrite <-list_fmap_compose. eapply sublist_NoDup; [exact Hnd |].
      change (sublist (index <$> List.filter (newly states) tfs) (index <$> tfs)). apply fmap_sublist, filter_sublist.
    + apply list_elem_of_fmap in Hi1 as (ev & -> & Hev). apply Hfst in Hev as (tf & Ht & Hco & ->).
      apply list_elem_of_fmap in Hi2 as (ev' & Hix & Hev'). apply Hsnd in Hev' as (tf' & Ht' & Hco' & _ & ->).
      simpl in Hix. assert (tf = tf') as <- by (by apply (NoDup_key index tfs)). congruence.
  - intros ev. rewrite elem_of_app, Hfst, Hsnd. setoid_rewrite ever_later. split.
    + intros [(tf & Ht & Hx & ->)|(tf & Ht & _ & Hx & ->)];
        pose proof Ht as (k & f & Hf & Etf)%elem_of_track_files; rewrite Z.add_0_l in Etf; subst tf; exists k, f; naive_solver.
    + intros (k & f & Hf & Hor & ->).
      assert (Ht : track_file (len states) (Z.of_nat k) f ∈ tfs) by (apply elem_of_track_files; by exists k, f).
      destruct (complete states (track_file (len states) (Z.of_nat k) f)) eqn:Ec; [left | right];
        exists (track_file (len states) (Z.of_nat k) f); naive_solver.
Qed.

(** ** The subscribers *)
Definition dispatched (ops : list op) : list FileCompleteEvent :=
  omap (λ o, match o with Dispatch ev => Some ev | _ => None end) ops.
Definition channel_ok (replay : list FileCompleteEvent) (ch : channel) : Prop :=
  sublist (sent ch) replay ∧ 0 ≤ received ch ≤ len (sent ch) ∧ len (sent ch) - received ch ≤ fileTrackerSubBuf ∧
  (len replay ≤ fileTrackerSubBuf → ch_closed ch = false → sent ch = replay).

Lemma offer_ok ev replay ch : channel_ok replay ch → channel_ok (replay ++ [ev]) (offer ev ch).
Proof.
  intros (Hs & Hr & Hb & Hall). unfold offer, channel_ok. destruct (Z.ltb_spec (len (sent ch) - received ch) fileTrackerSubBuf).
  - simpl. rewrite len_app. change (len [ev]) with 1. split_and!; try lia; [by apply sublist_app |].
    intros Hl Ho. rewrite len_app in Hl. change (len [ev]) with 1 in Hl. rewrite Hall by (lia || done). done.
  - split_and!; try lia; [by apply sublist_inserts_r |]. rewrite len_app. change (len [ev]) with 1.
    intros Hl Ho. exfalso. rewrite Hall in * by (lia || done). lia.
Qed.
Lemma replay_ok evs : channel_ok evs (foldl (λ ch ev, offer ev ch) {| sent := []; received := 0; ch_closed := false |} evs).
Proof.
  induction evs as [|ev evs IH] using rev_ind; [by split_and!; try constructor |].
  rewrite foldl_app. simpl. by apply offer_ok.
Qed.

Lemma steps_ok ops :
  let ft := foldl step startFileTracker ops in
  Forall (channel_ok (doneReplay ft)) (subs ft) ∧ prefix (doneReplay ft) (dispatched ops) ∧
  (closed ft = false → doneReplay ft = dispatched ops) ∧
  (closed ft = true → Forall (λ ch, ch_closed ch = true) (subs ft)).
Proof.
  induction ops as [|o ops IH] using rev_ind; [by split_and!; try constructor |].
  rewrite foldl_app. cbn [foldl]. destruct (foldl step startFileTracker ops) as [ss dr cl]. simpl in IH.
  destruct IH as (Hch & Hpre & Hopen & Hclosed). unfold dispatched. rewrite omap_app. fold (dispatched ops).
  destruct o as [ev| |i|]; cbn [step omap list_omap]; rewrite ?app_nil_r.
  - unfold dispatch. cbn [closed]. destruct cl; cbn [subs doneReplay closed].
    + split; [done |]. split; [by apply prefix_app_r | done].
    + rewrite (Hopen eq_refl). rewrite (Hopen eq_refl) in Hch. split_and!; try done.
      apply Forall_fmap. eapply Forall_impl; [exact Hch |]. intros ch. apply offer_ok.
  - unfold Subscribe. cbn [closed]. destruct cl; cbn [subs doneReplay closed].
    + split; [|split; [done | split; [done | intros _; apply Forall_app; split; [auto | by constructor]]]].
      apply Forall_app. split; [done |]. constructor; [|constructor]. split_and!; try done. apply sublist_nil_l.
    + split_and!; try done. apply Forall_app. split; [done |]. constructor; [apply replay_ok | constructor].
  - unfold Receive. cbn [subs doneReplay closed]. split_and!; try done.
    + apply Forall_alter; [done |]. intros ch _ (Hs & Hr & Hb & Hall). unfold channel_ok, take_event.
      destruct (Z.ltb_spec (received ch) (len (sent ch))); split_and!; simpl; try done; try lia.
    + intros Hc. apply Forall_alter; [by apply Hclosed |]. intros ch _ Hx. unfold take_event. by destruct (_ <? _).
  - unfold Close. cbn [subs doneReplay closed]. split_and!; try done.
    + apply Forall_fmap. eapply Forall_impl; [exact Hch |]. intros ch (Hs & Hr & Hb & Hall). unfold channel_ok. simpl. split_and!; done || lia.
    + intros _. apply Forall_fmap, Forall_forall. done.
Qed.

(** [C33] Every completed file is announced once: in a run, whatever pieces complete
    or are lost and in whatever order, there is exactly one event for each file
    all of whose pieces were complete at some moment.  Subscribers that come and
    go while these are dispatched receive a part of them, in order and none
    twice, never more than 64 unread; of a torrent of at most 64 files an open
    channel, however late, carries all of them. *)
Theorem every_file_once ih states fs changes ops :
  let evs := (run ih states fs changes).2 in
  let ft := foldl step startFileTracker ops in
  prefix (dispatched ops) evs →
  NoDup (FileIndex <$> evs) ∧
  (∀ ev, ev ∈ evs ↔ ∃ k f, let tf := track_file (len states) (Z.of_nat k) f in
     fs !! k = Some f ∧ ever_complete states changes tf ∧ ev = event_of ih tf) ∧
  (∀ ch, ch ∈ subs ft → sublist (sent ch) (dispatched ops) ∧ 0 ≤ received ch ≤ len (sent ch) ≤ received ch + 64) ∧
  (len fs ≤ 64 → ∀ ch, ch ∈ subs ft → ch_closed ch = false → sent ch = dispatched ops).
Proof.
  intros evs ft Hpre. destruct (run_spec ih states fs changes) as [Hnd Hev]. fold evs in Hnd, Hev.
  destruct (steps_ok ops) as (Hch & Hpre2 & Hopen & Hclosed). fold ft in Hch, Hpre2, Hopen, Hclosed.
  rewrite Forall_forall in Hch. split_and!; [done | done | |].
  - intros ch Hin. destruct (Hch ch Hin) as (Hs & Hr & Hb & _). unfold fileTrackerSubBuf in Hb.
    split; [|lia]. etrans; [exact Hs |]. destruct Hpre2 as [l ->]. by apply sublist_inserts_r.
  - intros Hfs ch Hin Ho. destruct (Hch ch Hin) as (_ & _ & _ & Hall).
    assert (Hcl : closed ft = false).
    { destruct (closed ft); [|done]. specialize (Hclosed eq_refl). rewrite Forall_forall in Hclosed.
      specialize (Hclosed ch Hin). simpl in Hclosed. congruence. }
    rewrite (Hopen Hcl) in Hall. apply Hall; [|done]. etrans; [|exact Hfs].
    assert (Hle : (length evs ≤ length fs)%nat).
    { rewrite <-(length_fmap FileIndex). transitivity (length (seqZ 0 (len fs))); [|rewrite length_seqZ; unfold len; lia].
      apply submseteq_length, NoDup_submseteq; [done |]. intros i (ev & -> & Hi)%list_elem_of_fmap.
      apply Hev in Hi as (k & f & Hf & _ & ->). apply elem_of_seqZ. simpl. apply lookup_lt_Some in Hf. unfold len. lia. }
    apply prefix_length in Hpre. unfold len, fileTrackerSubBuf. lia.
Qed.

(** ** A torrent of three files *)
Module Examples.
(** Pieces 0-1, 1-2, and an empty file. *)
Definition three : list file := [
  {| f_path := str "a"; f_length := 20; f_begin := 0; f_end := 2 |};
  {| f_path := str "b"; f_length := 15; f_begin := 1; f_end := 3 |};
  {| f_path := str "c"; f_length := 0; f_begin := 3; f_end := 3 |}].
Definition changes : list (Z * bool) :=
  [(1, true); (1, false); (0, true); (7, true); (1, true); (1, true); (0, false); (2, true)].
Definition events : list FileCompleteEvent := (run (str "ih") [false; false; false] three changes).2.
(** The empty file at once; [a] when 0 and 1 are there together; [b] last. *)
Example in_order : FileIndex <$> events = [2; 0; 1].
Proof. by vm_compute. Qed.

Definition history : list op := [Sub] ++ (Dispatch <$> take 2 events) ++ [Recv 0; Sub] ++ (Dispatch <$> drop 2 events).
(** The one that came late has the same events as the first. *)
Lemma every_file_once_witness :
  let ft := foldl step startFileTracker history in
  length (subs ft) = 2%nat ∧ Forall (λ ch, sent ch = events) (subs ft).
Proof.
  assert (Hd : dispatched history = events) by by vm_compute.
  assert (Ho : forallb (λ ch, negb (ch_closed ch)) (subs (foldl step startFileTracker history)) = true) by by vm_compute.
  intros ft. split; [by vm_compute |].
  destruct (every_file_once (str "ih") [false; false; false] three changes history) as (_ & _ & _ & Hall).
  { rewrite Hd. exists []. by rewrite app_nil_r. }
  rewrite Hd in Hall. apply Forall_forall. intros ch Hin. apply Hall; [by vm_compute | exact Hin |].
  apply forallb_forall with (x := ch) in Ho; [|by apply list_elem_of_In]. by apply negb_true_iff in Ho.
Defined.
End Examples.
End Tracker.
