(* ===== verification/Chunker.v ===== *)
(** * Chunking text (internal/indexer/extractors: chunker.go, plaintext.go)

    The text of a file becomes chunks of about two kibibytes, cut between
    paragraphs, else between lines, else anywhere. *)

From S2P Require Import Prelude GoInt Utf8.
Open Scope Z_scope.

Module Chunker.

Record Chunk := { Text : bytes; Offset : Z }.
Definition DefaultChunkTargetBytes : Z := 2 * 1024.

(** [int(float64(n) * 1.25)] and [int(float64(n) * 1.5)], exact while the product
    fits the 53 bits of a mantissa. *)
Definition smallFileLimit (targetBytes : Z) : Z := targetBytes * 5 / 4.
Definition maxOverrun (targetBytes : Z) : Z := targetBytes * 3 / 2.

Definition LF : byte := x0a.
Definition CR : byte := x0d.
Definition is_newline (c : byte) : bool := bool_decide (c = LF) || bool_decide (c = CR).

(** [strings.TrimRight(_, CR LF)]. *)
Fixpoint trim_newlines (s : bytes) : bytes :=
  match s with
  | [] => []
  | c :: s => match trim_newlines s with [] => if is_newline c then [] else [c] | s => c :: s end
  end.
(** The leading newlines, and the rest. *)
Fixpoint skip_newlines (s : bytes) : bytes * bytes :=
  match s with
  | c :: s' => if is_newline c then let '(nl, r) := skip_newlines s' in (c :: nl, r) else ([], s)
  | [] => ([], [])
  end.

(** ** Paragraphs

    The bytes up to a blank line, and what follows the blank line. *)
Fixpoint paragraph_end (s : bytes) : bytes * bytes :=
  match s with
  | [] => ([], [])
  | c :: s =>
    let more := let '(p, r) := paragraph_end s in (c :: p, r) in
    if bool_decide (c = LF) then
      match s with
      | d :: s' =>
        if bool_decide (d = LF) then ([], s')
        else if bool_decide (d = CR) then
          match s' with
          | e :: s'' => if bool_decide (e = LF) then ([], s'') else more
          | [] => more
          end
        else more
      | [] => more
      end
    else more
  end.
(** On the text from [pos] on: the paragraph and the text from [next] on. *)
Definition nextParagraph (s : bytes) : bytes * bytes :=
  let '(_, s) := skip_newlines s in
  let '(p, next) := paragraph_end s in
  (trim_newlines p, next).

(** ** Lines *)
(** The lines of a text, each with its newline. *)
Fixpoint lines (s : bytes) : list bytes :=
  match s with
  | [] => []
  | c :: s =>
    if bool_decide (c = LF) then [c] :: lines s
    else match lines s with [] => [[c]] | l :: ls => (c :: l) :: ls end
  end.
(** [fuel]: at least the bytes of the line. *)
Fixpoint hard_split (fuel : nat) (targetBytes pos : Z) (line : bytes) : list Chunk :=
  match fuel with
  | O => []
  | S fuel =>
    match line with
    | [] => []
    | _ => {| Text := take (Z.to_nat targetBytes) line; Offset := pos |} ::
           hard_split fuel targetBytes (pos + targetBytes) (drop (Z.to_nat targetBytes) line)
    end
  end.
Definition emit (cur : bytes) (curOff : Z) : list Chunk :=
  if bool_decide (cur = []) then [] else [{| Text := cur; Offset := curOff |}].
Fixpoint line_loop (targetBytes maxChunk : Z) (ls : list bytes) (pos : Z) (cur : bytes) (curOff : Z) : list Chunk :=
  match ls with
  | [] => emit cur curOff
  | line :: ls =>
    let curOff := if bool_decide (cur = []) then pos else curOff in
    let next := pos + len line in
    if maxChunk <? len line then
      emit cur curOff ++ hard_split (length line) targetBytes pos line ++
      line_loop targetBytes maxChunk ls next [] curOff
    else if negb (bool_decide (cur = [])) && (targetBytes <? len cur + len line) then
      emit cur curOff ++ line_loop targetBytes maxChunk ls next line pos
    else line_loop targetBytes maxChunk ls next (cur ++ line) curOff
  end.
Definition chunkByLine (text : bytes) (targetBytes maxChunk : Z) : list Chunk :=
  line_loop targetBytes maxChunk (lines text) 0 [] 0.

(** ** Chunks

    [s]: the text from [pos] on; every round takes a byte of it. *)
Definition shift (d : Z) (c : Chunk) : Chunk := {| Text := Text c; Offset := d + Offset c |}.
Fixpoint paragraph_loop (fuel : nat) (targetBytes maxChunk : Z) (s : bytes) (pos : Z) (cur : bytes) (curOff : Z)
    : list Chunk :=
  match fuel with
  | O => emit cur curOff
  | S fuel =>
    match s with
    | [] => emit cur curOff
    | _ =>
      let '(para, next) := nextParagraph s in
      let paraStart := pos + len (skip_newlines s).1 in
      let pos' := pos + (len s - len next) in
      let curOff := if bool_decide (cur = []) then paraStart else curOff in
      if maxChunk <? len para then
        emit cur curOff ++ (shift paraStart <$> chunkByLine para targetBytes maxChunk) ++
        paragraph_loop fuel targetBytes maxChunk next pos' [] curOff
      else
        if negb (bool_decide (cur = [])) && (targetBytes <? len cur + len para + 2) then
          emit cur curOff ++ paragraph_loop fuel targetBytes maxChunk next pos' para paraStart
        else
          let cur := if bool_decide (cur = []) then para else cur ++ [LF; LF] ++ para in
          paragraph_loop fuel targetBytes maxChunk next pos' cur curOff
    end
  end.
Definition chunkText (text : bytes) (targetBytes : Z) : list Chunk :=
  let targetBytes := if targetBytes <=? 0 then DefaultChunkTargetBytes else targetBytes in
  if bool_decide (text = []) then []
  else if len text <=? smallFileLimit targetBytes then [{| Text := text; Offset := 0 |}]
  else paragraph_loop (length text) targetBytes (maxOverrun targetBytes) text 0 [] 0.

(** ** What a chunk is of its text *)
(** A text without its line ends. *)
Definition visible (s : bytes) : bytes := List.filter (λ c, negb (is_newline c)) s.
Definition texts (cs : list Chunk) : bytes := concat (Text <$> cs).
(** Chunk [c] stands at its offset in [full], up to line ends, and begins there. *)
Definition located (full : bytes) (c : Chunk) : Prop :=
  0 ≤ Offset c ∧ head (Text c) = head (drop (Z.to_nat (Offset c)) full) ∧
  ∃ r, visible (drop (Z.to_nat (Offset c)) full) = visible (Text c) ++ r.
Definition sized (m : Z) (c : Chunk) : Prop := 0 < len (Text c) ≤ m.

Lemma visible_app a b : visible (a ++ b) = visible a ++ visible b.
Proof. apply List.filter_app. Qed.
Lemma texts_app a b : texts (a ++ b) = texts a ++ texts b.
Proof. unfold texts. by rewrite fmap_app, concat_app. Qed.

Lemma trim_newlines_spec s : ∃ t, s = trim_newlines s ++ t ∧ visible t = [].
Proof.
  induction s as [|c s (t & Hs & Ht)]; [by exists [] |]. cbn [trim_newlines].
  destruct (trim_newlines s) as [|d u] eqn:E.
  - destruct (is_newline c) eqn:En; simpl in *; subst s.
    + exists (c :: t). split; [done |]. unfold visible. simpl. by rewrite En.
    + by exists t.
  - exists t. split; [|done]. simpl. f_equal. exact Hs.
Qed.
Lemma skip_newlines_spec s : s = (skip_newlines s).1 ++ (skip_newlines s).2 ∧ visible (skip_newlines s).1 = [].
Proof.
  induction s as [|c s [IH1 IH2]]; [done |]. cbn [skip_newlines]. destruct (is_newline c) eqn:E; [|done].
  destruct (skip_newlines s) as [nl r]. simpl in *. split; [by f_equal |]. unfold visible. simpl. by rewrite E.
Qed.
Lemma paragraph_end_spec s :
  ∃ sep, s = (paragraph_end s).1 ++ sep ++ (paragraph_end s).2 ∧ visible sep = [] ∧
    (s ≠ [] → (length (paragraph_end s).2 < length s)%nat).
Proof.
  induction s as [|c s IH]; [by exists [] |]. destruct IH as (sep & Hs & Hv & Hl).
  assert (Hmore : ∃ sep, c :: s = (let '(p, r) := paragraph_end s in (c :: p, r)).1 ++ sep ++
    (let '(p, r) := paragraph_end s in (c :: p, r)).2 ∧ visible sep = [] ∧
    (c :: s ≠ [] → (length (let '(p, r) := paragraph_end s in (c :: p, r)).2 < length (c :: s))%nat)).
  { exists sep. destruct (paragraph_end s) as [p r]. simpl in *. split_and!; [by f_equal | done |].
    intros _. destruct s; [simpl in Hs; destruct p, sep, r; simpl in *; (done || lia) |]. specialize (Hl ltac:(done)). simpl in *. lia. }
  cbn [paragraph_end]. case_bool_decide as Ec; [|exact Hmore]. destruct s as [|d s']; [exact Hmore |].
  case_bool_decide as Ed; [subst; exists [LF; LF]; by (split_and!; simpl; try lia) |].
  case_bool_decide as Ed'; [|exact Hmore]. destruct s' as [|e s'']; [exact Hmore |].
  case_bool_decide as Ee; [|exact Hmore]. subst. exists [LF; CR; LF]. by (split_and!; simpl; try lia).
Qed.
Lemma nextParagraph_spec s :
  s ≠ [] → let nl := (skip_newlines s).1 in let '(para, next) := nextParagraph s in
  ∃ sep, s = nl ++ para ++ sep ++ next ∧ visible nl = [] ∧ visible sep = [] ∧ (length next < length s)%nat.
Proof.
  intros Hne. unfold nextParagraph. destruct (skip_newlines_spec s) as [Hs Hnl].
  destruct (skip_newlines s) as [nl r]. simpl in *. destruct (paragraph_end_spec r) as (sep & Hr & Hv & Hl).
  destruct (paragraph_end r) as [p next]. simpl in *. destruct (trim_newlines_spec p) as (t & Hp & Ht).
  exists (t ++ sep). rewrite visible_app, Ht, Hv. split_and!; [|done..|].
  - rewrite <-app_assoc. rewrite (app_assoc (trim_newlines p) t), <-Hp. by rewrite <-Hr.
  - destruct r as [|c r]; [|specialize (Hl ltac:(done)); subst s; rewrite length_app; simpl in *; lia].
    rewrite app_nil_r in Hs. subst nl. destruct p, sep, next; simplify_eq/=. by destruct s; simpl; [|lia].
Qed.

Lemma lines_concat s : concat (lines s) = s.
Proof.
  induction s as [|c s IH]; [done |]. cbn [lines]. case_bool_decide; [by simpl; rewrite IH |].
  destruct (lines s) as [|l ls]; simpl in *; by rewrite <-IH.
Qed.
Lemma lines_nonempty s : Forall (λ l, l ≠ []) (lines s).
Proof.
  induction s as [|c s IH]; [constructor |]. cbn [lines]. case_bool_decide; [by constructor |].
  destruct (lines s) as [|l ls]; [by repeat constructor |]. apply Forall_cons in IH as [_ IH]. by constructor.
Qed.

(** ** Lines *)
(** [c] is the part of [full] at its offset. *)
Definition cut (full : bytes) (c : Chunk) : Prop :=
  0 ≤ Offset c ∧ ∃ r, drop (Z.to_nat (Offset c)) full = Text c ++ r.
Lemma cut_at full pre s t r : full = pre ++ s → s = t ++ r → cut full {| Text := t; Offset := len pre |}.
Proof.
  intros -> ->. split; [apply len_nonneg |]. exists r. simpl. unfold len. rewrite Nat2Z.id. by rewrite drop_app_length.
Qed.

Lemma hard_split_spec fuel t m full pre line rest :
  0 < t ≤ m → (length line ≤ fuel)%nat → full = pre ++ line ++ rest →
  Forall (λ c, sized m c ∧ cut full c) (hard_split fuel t (len pre) line) ∧ texts (hard_split fuel t (len pre) line) = line.
Proof.
  intros Ht. revert pre line. induction fuel as [|fuel IH]; intros pre line Hf Hfull.
  { destruct line; [|simpl in Hf; lia]. by split; [constructor |]. }
  destruct line as [|c line]; [by split; [constructor |] |]. cbn [hard_split].
  set (l := c :: line) in *. set (a := take (Z.to_nat t) l). set (b := drop (Z.to_nat t) l).
  assert (Hab : l = a ++ b) by (symmetry; apply take_drop).
  assert (Hb : (length b ≤ fuel)%nat) by (unfold b; rewrite length_drop; simpl in *; lia).
  assert (Ha : 0 < len a ≤ t) by (unfold a, len; rewrite length_take; simpl; lia).
  assert (Hpos : hard_split fuel t (len pre + t) b = hard_split fuel t (len (pre ++ a)) b).
  { destruct (decide (b = [])) as [->|Hne]; [by destruct fuel |]. f_equal. rewrite len_app. f_equal.
    unfold a, len. rewrite length_take. assert (length b ≠ 0%nat) by (by destruct b).
    unfold b in *. rewrite length_drop in *. lia. }
  destruct (IH (pre ++ a) b Hb) as [Hall Htx]; [by rewrite Hfull, Hab, <-!app_assoc |].
  rewrite Hpos. split; [constructor; [|done] |].
  2:{ transitivity (a ++ texts (hard_split fuel t (len (pre ++ a)) b)); [done | by rewrite Htx, <-Hab]. }
  split; [unfold sized; simpl; lia |]. eapply cut_at; [exact Hfull |]. by rewrite Hab, <-app_assoc.
Qed.

Lemma emit_chunk_spec P cur off :
  (cur ≠ [] → P {| Text := cur; Offset := off |}) → Forall P (emit cur off) ∧ texts (emit cur off) = cur.
Proof.
  intros Hp. unfold emit. case_bool_decide as E; [by subst; split; [constructor |] |].
  split; [constructor; [by apply Hp | constructor] |]. unfold texts. simpl. by rewrite app_nil_r.
Qed.

Lemma line_loop_spec t m full ls pre cur off :
  0 < t ≤ m → Forall (λ l, l ≠ []) ls → full = pre ++ concat ls → len cur ≤ m →
  (cur ≠ [] → 0 ≤ off ∧ drop (Z.to_nat off) full = cur ++ concat ls) →
  let out := line_loop t m ls (len pre) cur off in
  Forall (λ c, sized m c ∧ cut full c) out ∧ texts out = cur ++ concat ls.
Proof.
  intros Ht Hls. revert pre cur off. induction Hls as [|l ls Hl Hls IH]; intros pre cur off Hfull Hlen Hcur; cbn [line_loop concat].
  { destruct (emit_chunk_spec (λ c, sized m c ∧ cut full c) cur off) as [He Hx]; [|by rewrite app_nil_r].
    intros Hne. destruct (Hcur Hne) as [Ho Hd]. split.
    - unfold sized. simpl. destruct cur; [done |]. rewrite len_cons in *. pose proof (len_nonneg cur). lia.
    - split; [done |]. by exists (concat []). }
  set (off' := if bool_decide (cur = []) then len pre else off).
  assert (Hcur' : cur ≠ [] → 0 ≤ off' ∧ drop (Z.to_nat off') full = cur ++ l ++ concat ls)
    by (intros Hne; unfold off'; rewrite bool_decide_false by done; by apply Hcur).
  destruct (emit_chunk_spec (λ c, sized m c ∧ cut full c) cur off') as [He Hx].
  { intros Hne. destruct (Hcur' Hne) as [Ho Hd]. split.
    - unfold sized. simpl. destruct cur; [done |]. rewrite len_cons in *. pose proof (len_nonneg cur). lia.
    - split; [done |]. by exists (l ++ concat ls). }
  cbn [concat] in Hfull. assert (Hnext : len pre + len l = len (pre ++ l)) by (by rewrite len_app).
  assert (Hfull' : full = (pre ++ l) ++ concat ls) by (by rewrite Hfull, <-app_assoc).
  assert (Hat : drop (Z.to_nat (len pre)) full = l ++ concat ls)
    by (rewrite Hfull; unfold len; rewrite Nat2Z.id; by rewrite drop_app_length).
  rewrite Hnext. destruct (Z.ltb_spec m (len l)) as [Hbig|Hfit].
  - destruct (hard_split_spec (length l) t m full pre l (concat ls) Ht ltac:(lia) Hfull) as [Hh Hhx].
    destruct (IH (pre ++ l) [] off' Hfull') as [Hi Hix]; [rewrite len_nil; lia | done |].
    split; [apply Forall_app; split; [done |]; apply Forall_app; by split |].
    by rewrite !texts_app, Hx, Hhx, Hix.
  - destruct (negb _ && (t <? len cur + len l)) eqn:Eo.
    + destruct (IH (pre ++ l) l (len pre) Hfull' Hfit) as [Hi Hix].
      { intros _. split; [apply len_nonneg | exact Hat]. }
      split; [apply Forall_app; by split |]. by rewrite texts_app, Hx, Hix.
    + destruct (IH (pre ++ l) (cur ++ l) off' Hfull') as [Hi Hix]; [| |by rewrite app_assoc].
      * rewrite len_app. destruct (decide (cur = [])) as [->|Hne]; [by rewrite len_nil; lia |].
        rewrite bool_decide_false in Eo by done. simpl in Eo. apply Z.ltb_ge in Eo. lia.
      * intros _. destruct (decide (cur = [])) as [->|Hne].
        -- unfold off'. rewrite bool_decide_true by done. split; [apply len_nonneg | exact Hat].
        -- destruct (Hcur' Hne) as [? ->]. by rewrite app_assoc.
Qed.

Lemma chunkByLine_spec t m para :
  0 < t ≤ m → Forall (λ c, sized m c ∧ cut para c) (chunkByLine para t m) ∧ texts (chunkByLine para t m) = para.
Proof.
  intros Ht. unfold chunkByLine.
  destruct (line_loop_spec t m para (lines para) [] [] 0 Ht (lines_nonempty para)) as [Ha Hb].
  - by rewrite lines_concat.
  - rewrite len_nil. lia.
  - done.
  - rewrite lines_concat in Hb. by split.
Qed.

(** ** Paragraphs *)
Lemma located_shift full pre nl para tail c m :
  full = pre ++ nl ++ para ++ tail → sized m c → cut para c → located full (shift (len pre + len nl) c).
Proof.
  intros Hfull [Hlen _] [Ho (r & Hd)].
  assert (Hne : Text c ≠ []) by (intros E; by rewrite E in Hlen).
  assert (Hoff : (Z.to_nat (Offset c) < length para)%nat).
  { destruct (le_lt_dec (length para) (Z.to_nat (Offset c))) as [Hge|]; [|done].
    rewrite drop_ge in Hd by done. by destruct (Text c). }
  assert (Hdrop : drop (Z.to_nat (Offset (shift (len pre + len nl) c))) full = Text c ++ r ++ tail).
  { simpl. replace (Z.to_nat (len pre + len nl + Offset c)) with (length (pre ++ nl) + Z.to_nat (Offset c))%nat
      by (unfold len in *; rewrite length_app; lia).
    rewrite Hfull, app_assoc, <-drop_drop, drop_app_length, drop_app_le by lia. by rewrite Hd, <-app_assoc. }
  split; [simpl; unfold len; lia |]. rewrite Hdrop. split; [simpl; clear Hdrop Hd Hlen; by destruct (Text c) |].
  exists (visible (r ++ tail)). by rewrite visible_app.
Qed.

(** The chunk being built: it will stand at [off], and what is left follows it. *)
Definition open_chunk (full cur : bytes) (off : Z) (s : bytes) : Prop :=
  0 ≤ off ∧ head cur = head (drop (Z.to_nat off) full) ∧ visible (drop (Z.to_nat off) full) = visible cur ++ visible s.

Lemma open_located full cur off s : open_chunk full cur off s → located full {| Text := cur; Offset := off |}.
Proof. intros (? & ? & Hv). split; [done |]. split; [done |]. by exists (visible s). Qed.

Lemma paragraph_loop_spec fuel t m full s pre cur off :
  0 < t ≤ m → (length s ≤ fuel)%nat → full = pre ++ s → len cur ≤ m →
  (cur ≠ [] → open_chunk full cur off s) →
  let out := paragraph_loop fuel t m s (len pre) cur off in
  Forall (λ c, sized m c ∧ located full c) out ∧ visible (texts out) = visible cur ++ visible s.
Proof.
  intros Ht. revert s pre cur off. induction fuel as [|fuel IH]; intros s pre cur off Hf Hfull Hlen Hcur.
  all: assert (Hemit : ∀ off', (cur ≠ [] → open_chunk full cur off' s) →
         Forall (λ c, sized m c ∧ located full c) (emit cur off') ∧ texts (emit cur off') = cur).
  1,3: intros off' Ho; apply emit_chunk_spec; intros Hne; split; [|by eapply open_located, Ho];
    unfold sized; simpl; destruct cur; [done |]; rewrite len_cons in *; pose proof (len_nonneg cur); lia.
  { destruct s; [|simpl in Hf; lia]. cbn [paragraph_loop]. destruct (Hemit off Hcur) as [? ->]. by rewrite app_nil_r. }
  cbn [paragraph_loop]. destruct s as [|x s']; [destruct (Hemit off Hcur) as [? ->]; by rewrite app_nil_r |].
  set (s := x :: s') in *. pose proof (nextParagraph_spec s ltac:(done)) as Hn. destruct (nextParagraph s) as [para next].
  destruct Hn as (sep & Hs & Hvnl & Hvsep & Hlt). set (nl := (skip_newlines s).1) in *.
  set (off' := if bool_decide (cur = []) then len pre + len nl else off).
  assert (Hcur' : cur ≠ [] → open_chunk full cur off' s)
    by (intros Hne; unfold off'; rewrite bool_decide_false by done; by apply Hcur).
  destruct (Hemit off' Hcur') as [He Hx]. clear Hemit.
  assert (Hvs : visible s = visible para ++ visible next)
    by (rewrite Hs at 1; by rewrite !visible_app, Hvnl, Hvsep).
  assert (Hpos : len pre + (len s - len next) = len (pre ++ nl ++ para ++ sep))
    by (rewrite Hs at 1; rewrite !len_app; lia).
  assert (Hfull' : full = (pre ++ nl ++ para ++ sep) ++ next) by (rewrite Hfull, Hs; by rewrite <-!app_assoc).
  assert (Hfp : full = pre ++ nl ++ para ++ (sep ++ next)) by (by rewrite Hfull, Hs).
  assert (Hf' : (length next ≤ fuel)%nat) by lia.
  assert (Hopen : para ≠ [] → open_chunk full para (len pre + len nl) next).
  { intros Hne. assert (Hd : drop (Z.to_nat (len pre + len nl)) full = para ++ sep ++ next).
    { replace (Z.to_nat (len pre + len nl)) with (length (pre ++ nl)) by (unfold len; rewrite length_app; lia).
      by rewrite Hfp, app_assoc, drop_app_length. }
    unfold open_chunk. rewrite Hd. split; [unfold len; lia |]. split; [by destruct para |].
    by rewrite !visible_app, Hvsep. }
  rewrite Hpos. destruct (Z.ltb_spec m (len para)) as [Hbig|Hfit].
  - destruct (chunkByLine_spec t m para Ht) as [Hh Hhx].
    destruct (IH next (pre ++ nl ++ para ++ sep) [] off' Hf' Hfull') as [Hi Hix]; [rewrite len_nil; lia | done |].
    split.
    + apply Forall_app. split; [done |]. apply Forall_app. split; [|done]. apply Forall_fmap.
      eapply Forall_impl; [exact Hh |]. intros c [Hsz Hct]. split; [exact Hsz | by eapply located_shift].
    + rewrite !texts_app, Hx. unfold texts at 1. rewrite <-list_fmap_compose.
      change (concat (Text ∘ shift (len pre + len nl) <$> chunkByLine para t m)) with (texts (chunkByLine para t m)).
      by rewrite Hhx, !visible_app, Hix, Hvs.
  - destruct (negb _ && (t <? len cur + len para + 2)) eqn:Eo.
    + destruct (IH next (pre ++ nl ++ para ++ sep) para (len pre + len nl) Hf' Hfull' Hfit Hopen) as [Hi Hix].
      split; [apply Forall_app; by split |]. by rewrite texts_app, visible_app, Hx, Hix, Hvs.
    + case_bool_decide as Ec.
      * subst cur. destruct (IH next (pre ++ nl ++ para ++ sep) para off' Hf' Hfull' Hfit) as [Hi Hix];
          [exact Hopen |]. split; [done |]. by rewrite Hix, Hvs.
      * simpl in Eo. apply Z.ltb_ge in Eo.
        destruct (IH next (pre ++ nl ++ para ++ sep) (cur ++ [LF; LF] ++ para) off' Hf' Hfull') as [Hi Hix].
        -- rewrite !len_app. change (len [LF; LF]) with 2. lia.
        -- intros _. destruct (Hcur' Ec) as (Ho & Hh & Hv). split; [done |]. split; [by destruct cur |].
           rewrite Hv, Hvs, !visible_app. change (visible [LF; LF]) with (@nil byte). by rewrite <-app_assoc.
        -- split; [done |]. rewrite Hix, Hvs, !visible_app. change (visible [LF; LF]) with (@nil byte).
           by rewrite <-app_assoc.
Qed.

(** [C34] The chunks of a text: none is empty or longer than one and a half times
    the target, each begins at its offset in the text and agrees with it from
    there on up to line ends, and together they are the text, in order and
    complete up to line ends. *)
Theorem chunks_cover text target :
  let t := if target <=? 0 then DefaultChunkTargetBytes else target in
  let cs := chunkText text target in
  Forall (λ c, 0 < len (Text c) ≤ maxOverrun t ∧ located text c) cs ∧
  visible (texts cs) = visible text.
Proof.
  intros t cs. unfold cs, chunkText. fold t.
  assert (Hpos : 0 < t) by (unfold t; destruct (Z.leb_spec target 0); [done | lia]).
  assert (Hm : t ≤ maxOverrun t) by (unfold maxOverrun; Z.to_euclidean_division_equations; lia).
  case_bool_decide as E; [by subst; split; [constructor |] |].
  destruct (Z.leb_spec (len text) (smallFileLimit t)) as [Hsmall|Hbig].
  - split; [|unfold texts; simpl; by rewrite app_nil_r]. constructor; [|constructor]. split.
    + simpl. destruct text; [done |]. rewrite len_cons in *. pose proof (len_nonneg text).
      unfold smallFileLimit, maxOverrun in *. Z.to_euclidean_division_equations. lia.
    + split; [done |]. split; [done |]. exists []. simpl. by rewrite drop_0, app_nil_r.
  - destruct (paragraph_loop_spec (length text) t (maxOverrun t) text text [] [] 0) as [Ha Hb]; try done.
    rewrite len_nil. lia.
Qed.

(** ** Plain text (plaintext.go) *)
(** [unicode.IsSpace]. *)
Definition IsSpace (r : Z) : bool :=
  bool_decide (r ∈ [0x09; 0x0a; 0x0b; 0x0c; 0x0d; 0x20; 0x85; 0xa0; 0x1680; 0x2028; 0x2029; 0x202f; 0x205f; 0x3000]) ||
  ((0x2000 <=? r) && (r <=? 0x200a)).
(** [strings.TrimSpace(_) == ""]. *)
Definition blank (s : bytes) : bool := forallb (λ c, IsSpace c.1) (Utf8.runes s).

Definition sniffBytes : Z := 4096.
Definition BOM : bytes := [xef; xbb; xbf].
Inductive extract_error : Type := ErrBinary (sniffed : Z) | ErrRead.
(** [r]: what the reader yields; [fails]: whether it then fails rather than ends. *)
Definition Extract (r : bytes) (fails : bool) (maxBytes : Z) : result extract_error (list Chunk) :=
  let maxBytes := if maxBytes <=? 0 then 32 * 1024 * 1024 else maxBytes in
  let sniff := take (Z.to_nat sniffBytes) r in
  if bool_decide (x00 ∈ sniff) then Err (ErrBinary (len sniff))
  else
    let r := if bool_decide (take 3 r = BOM) then drop 3 r else r in
    if fails && (len r <? maxBytes) then Err ErrRead
    else
      let out := Utf8.to_valid (take (Z.to_nat maxBytes) r) in
      if blank out then Ok [] else Ok (chunkText out DefaultChunkTargetBytes).
End Chunker.
