(* ===== verification/Fetch.v ===== *)
(** * Fetching a companion torrent (internal/engine/companion.go)

    A follower downloads the torrent a publisher's pointer names, which is
    whatever the publisher likes.  Concurrent fetches of one infohash share a
    handle and count their references; the bounds on the torrent are checked
    before a piece is asked for. *)

From S2P Require Import Prelude GoInt.
Open Scope Z_scope.

Module Fetch.

(** ** The bounds *)
Definition maxCompanionBytes : Z := Z.shiftl 32 20.
(** The info dictionary, as far as the bounds read it: the lengths are those of
    [UpvertedFiles]. *)
Record Info := { info_Name : bytes; info_lengths : list Z }.
Definition TotalLength (i : Info) : Z := foldr Z.add 0 (info_lengths i).
Definition unsafeCompanionName (name : bytes) : bool :=
  bool_decide (name = []) || bool_decide (name = str ".") || bool_decide (name = str "..") ||
  existsb (λ c, bool_decide (c = x2f) || bool_decide (c = x5c)) name.
Inductive error : Type :=
  | ErrZero | ErrClosed | ErrContext | ErrNoInfo | ErrFiles (n : Z) | ErrTooLarge (n : Z) | ErrName (name : bytes).
Definition validateCompanionInfo (info : option Info) : option error :=
  match info with
  | None => Some ErrNoInfo
  | Some info =>
    if negb (len (info_lengths info) =? 1) then Some (ErrFiles (len (info_lengths info)))
    else if maxCompanionBytes <? TotalLength info then Some (ErrTooLarge (TotalLength info))
    else if unsafeCompanionName (info_Name info) then Some (ErrName (info_Name info))
    else None
  end.

(** ** Handles and references

    [handles]: the torrents of the engine; [true] for a companion torrent. *)
Record engine := {
  handles : gmap (array 20) bool; companionFetchRefs : gmap (array 20) Z; closed : bool
}.
Definition new_engine : engine := {| handles := ∅; companionFetchRefs := ∅; closed := false |}.
Definition with_handles (m : gmap (array 20) bool) (e : engine) : engine :=
  {| handles := m; companionFetchRefs := companionFetchRefs e; closed := closed e |}.
Definition with_refs (m : gmap (array 20) Z) (e : engine) : engine :=
  {| handles := handles e; companionFetchRefs := m; closed := closed e |}.
Definition refs (e : engine) (ih : array 20) : Z := default 0 (companionFetchRefs e !! ih).

(** An infohash that has a handle keeps it, whatever its kind. *)
Definition register (companion : bool) (ih : array 20) (e : engine) : engine :=
  match handles e !! ih with
  | Some _ => e
  | None => with_handles (<[ih := companion]> (handles e)) e
  end.

Definition SeedMetaInfo (ih : array 20) (e : engine) : engine * option error :=
  if closed e then (e, Some ErrClosed) else (register true ih e, None).
Definition DropCompanionTorrent (ih : array 20) (e : engine) : engine :=
  match handles e !! ih with
  | Some true => with_handles (delete ih (handles e)) e
  | _ => e
  end.
Definition DropTorrent (ih : array 20) (e : engine) : engine := DropCompanionTorrent ih e.
Definition addCompanionInfoHash (ih : array 20) (e : engine) : engine * option error :=
  if bool_decide (ih = zero_arr 20) then (e, Some ErrZero)
  else if closed e then (e, Some ErrClosed)
  else (register true ih e, None).
Definition retainAndAttachCompanion (ih : array 20) (e : engine) : engine * option error :=
  let e := with_refs (<[ih := refs e ih + 1]> (companionFetchRefs e)) e in
  match addCompanionInfoHash ih e with
  | (e, Some err) =>
    let n := refs e ih - 1 in
    (with_refs (if n <=? 0 then delete ih (companionFetchRefs e) else <[ih := n]> (companionFetchRefs e)) e, Some err)
  | (e, None) => (e, None)
  end.
Definition releaseCompanionFetch (ih : array 20) (e : engine) : engine :=
  let n := refs e ih - 1 in
  if 0 <? n then with_refs (<[ih := n]> (companionFetchRefs e)) e
  else DropCompanionTorrent ih (with_refs (delete ih (companionFetchRefs e)) e).

(** What happens to a fetch that is attached: the metadata (or the end of the
    context or of the engine), then whether the file completes.  The path it
    returns; [DownloadAll] is called on the way for a companion handle. *)
Record arrival := { got_info : result error (option Info); completes : result error unit }.
Definition await (a : arrival) (dataDir : bytes) : result error bytes :=
  match got_info a with
  | Err err => Err err
  | Ok info =>
    match validateCompanionInfo info with
    | Some err => Err err
    | None =>
      match completes a, info with
      | Err err, _ => Err err
      | Ok _, Some info => Ok (dataDir ++ str "/" ++ info_Name info)
      | Ok _, None => Err ErrNoInfo
      end
    end
  end.
Definition downloads_all (a : arrival) (companion : bool) : bool :=
  match got_info a with
  | Ok info => match validateCompanionInfo info with None => companion | Some _ => false end
  | Err _ => false
  end.

(** ** Histories

    A fetch begins (and fails, or is in flight) and ends; meanwhile the publisher
    of the same node seeds and drops, and the user adds and removes torrents. *)
Record state := { eng : engine; inflight : list (array 20) }.
Inductive op : Type :=
  | Begin (ih : array 20) | End (i : nat)
  | Seed (ih : array 20) | Drop (ih : array 20)
  | Add (ih : array 20) | Remove (ih : array 20) | Shut.
Definition step (s : state) (o : op) : state :=
  match o with
  | Begin ih =>
    match retainAndAttachCompanion ih (eng s) with
    | (e, None) => {| eng := e; inflight := inflight s ++ [ih] |}
    | (e, Some _) => {| eng := e; inflight := inflight s |}
    end
  | End i =>
    match inflight s !! i with
    | Some ih => {| eng := releaseCompanionFetch ih (eng s); inflight := delete i (inflight s) |}
    | None => s
    end
  | Seed ih => {| eng := (SeedMetaInfo ih (eng s)).1; inflight := inflight s |}
  | Drop ih => {| eng := DropTorrent ih (eng s); inflight := inflight s |}
  | Add ih => {| eng := if closed (eng s) then eng s else register false ih (eng s); inflight := inflight s |}
  | Remove ih => {| eng := with_handles (delete ih (handles (eng s))) (eng s); inflight := inflight s |}
  | Shut => {| eng := {| handles := handles (eng s); companionFetchRefs := companionFetchRefs (eng s); closed := true |};
               inflight := inflight s |}
  end.
Definition start : state := {| eng := new_engine; inflight := [] |}.

(** ** References *)
Definition count (ih : array 20) (l : list (array 20)) : Z := len (List.filter (λ x, bool_decide (x = ih)) l).
Definition counted (s : state) : Prop := ∀ ih,
  companionFetchRefs (eng s) !! ih = if count ih (inflight s) =? 0 then None else Some (count ih (inflight s)).

Lemma count_app ih a b : count ih (a ++ b) = count ih a + count ih b.
Proof. unfold count. by rewrite List.filter_app, len_app. Qed.
Lemma count_cons ih x l : count ih (x :: l) = (if bool_decide (x = ih) then 1 else 0) + count ih l.
Proof. unfold count. cbn [List.filter]. case_bool_decide; [by rewrite len_cons | done]. Qed.
Lemma count_nonneg ih l : 0 ≤ count ih l.
Proof. apply len_nonneg. Qed.
Lemma count_delete ih i x l :
  l !! i = Some x → count ih (delete i l) = count ih l - (if bool_decide (x = ih) then 1 else 0).
Proof.
  intros Hl. rewrite <-(take_drop_middle l i x Hl) at 2. rewrite delete_take_drop, !count_app, count_cons. lia.
Qed.
Lemma count_in ih l : 0 < count ih l ↔ ih ∈ l.
Proof.
  induction l as [|x l IH]; [by rewrite elem_of_nil |]. rewrite count_cons, elem_of_cons, <-IH.
  pose proof (count_nonneg ih l). case_bool_decide; naive_solver lia.
Qed.

Lemma refs_counted s ih : counted s → refs (eng s) ih = count ih (inflight s).
Proof. intros Hc. unfold refs. rewrite Hc. destruct (Z.eqb_spec (count ih (inflight s)) 0); simpl; lia. Qed.
Lemma register_refs b ih e : companionFetchRefs (register b ih e) = companionFetchRefs e.
Proof. unfold register. by destruct (handles e !! ih). Qed.
Lemma drop_refs ih e : companionFetchRefs (DropCompanionTorrent ih e) = companionFetchRefs e.
Proof. unfold DropCompanionTorrent. by destruct (handles e !! ih) as [[]|]. Qed.

Lemma step_counted s o : counted s → counted (step s o).
Proof.
  intros Hc. assert (Hn : ∀ ih, 0 ≤ count ih (inflight s)) by (intros; apply count_nonneg).
  destruct o as [ih|i|ih|ih|ih|ih|]; cbn [step].
  - unfold retainAndAttachCompanion, addCompanionInfoHash. pose proof (refs_counted s ih Hc) as Hr.
    set (e1 := with_refs (<[ih := refs (eng s) ih + 1]> (companionFetchRefs (eng s))) (eng s)).
    assert (Hr1 : refs e1 ih - 1 = count ih (inflight s))
      by (unfold refs, e1; cbn [companionFetchRefs with_refs]; rewrite lookup_insert_eq; simpl; lia).
    assert (Hfail : counted {| eng := with_refs (if refs e1 ih - 1 <=? 0 then delete ih (companionFetchRefs e1)
      else <[ih := refs e1 ih - 1]> (companionFetchRefs e1)) e1; inflight := inflight s |}).
    { intros k. cbn [eng inflight companionFetchRefs with_refs]. rewrite Hr1. specialize (Hn ih).
      destruct (Z.leb_spec (count ih (inflight s)) 0); destruct (decide (k = ih)) as [->|Hne].
      - rewrite lookup_delete_eq. by rewrite (proj2 (Z.eqb_eq _ 0)) by lia.
      - rewrite lookup_delete_ne by done. cbn [companionFetchRefs with_refs e1]. rewrite lookup_insert_ne by done. apply Hc.
      - rewrite lookup_insert_eq. by rewrite (proj2 (Z.eqb_neq _ 0)) by lia.
      - rewrite lookup_insert_ne by done. cbn [companionFetchRefs with_refs e1]. rewrite lookup_insert_ne by done. apply Hc. }
    destruct (bool_decide (ih = zero_arr 20)); [exact Hfail |]. cbn [closed with_refs e1].
    destruct (closed (eng s)); [exact Hfail |]. intros k. cbn [eng inflight]. rewrite register_refs.
    cbn [companionFetchRefs with_refs e1]. rewrite count_app. unfold count at 2 4. cbn [List.filter]. specialize (Hn k).
    destruct (decide (k = ih)) as [->|Hne].
    + rewrite lookup_insert_eq, Hr, bool_decide_true by done. change (len [ih]) with 1.
      by rewrite (proj2 (Z.eqb_neq _ 0)) by lia.
    + rewrite lookup_insert_ne by done. rewrite bool_decide_false by done. change (len []) with 0. rewrite Z.add_0_r. apply Hc.
  - destruct (inflight s !! i) as [ih|] eqn:El; [|done]. unfold releaseCompanionFetch. rewrite (refs_counted s ih Hc).
    assert (Hpos : 0 < count ih (inflight s)) by (apply count_in; by eapply list_elem_of_lookup_2).
    intros k. cbn [eng inflight]. rewrite (count_delete k i ih) by done.
    destruct (Z.ltb_spec 0 (count ih (inflight s) - 1)).
    + cbn [companionFetchRefs with_refs]. destruct (decide (k = ih)) as [->|Hne].
      * rewrite lookup_insert_eq, bool_decide_true by done. by rewrite (proj2 (Z.eqb_neq _ 0)) by lia.
      * rewrite lookup_insert_ne, bool_decide_false, Z.sub_0_r by done. apply Hc.
    + rewrite drop_refs. cbn [companionFetchRefs with_refs]. destruct (decide (k = ih)) as [->|Hne].
      * rewrite lookup_delete_eq, bool_decide_true by done. by rewrite (proj2 (Z.eqb_eq _ 0)) by lia.
      * rewrite lookup_delete_ne, bool_decide_false, Z.sub_0_r by done. apply Hc.
  - unfold SeedMetaInfo. destruct (closed (eng s)); [done |]. intros k. cbn [eng inflight fst]. rewrite register_refs. apply Hc.
  - intros k. cbn [eng inflight]. unfold DropTorrent. rewrite drop_refs. apply Hc.
  - destruct (closed (eng s)); [done |]. intros k. cbn [eng inflight]. rewrite register_refs. apply Hc.
  - exact Hc.
  - exact Hc.
Qed.

(** ** Handles *)
Lemma register_lookup b ih e k :
  handles (register b ih e) !! k = match handles e !! k with Some v => Some v | None => if bool_decide (k = ih) then Some b else None end.
Proof.
  unfold register. destruct (handles e !! ih) as [v|] eqn:E; simpl.
  - case_bool_decide; [subst; by rewrite E | by destruct (handles e !! k)].
  - case_bool_decide as Ek; [subst; by rewrite lookup_insert_eq, E |]. rewrite lookup_insert_ne by done.
    by destruct (handles e !! k).
Qed.
Lemma drop_lookup ih e k :
  handles (DropCompanionTorrent ih e) !! k =
  if bool_decide (k = ih) && bool_decide (handles e !! ih = Some true) then None else handles e !! k.
Proof.
  unfold DropCompanionTorrent. case_bool_decide as Ek; simpl.
  - subst. destruct (handles e !! ih) as [[]|] eqn:E; simpl; rewrite ?E; [apply lookup_delete_eq | done..].
  - destruct (handles e !! ih) as [[]|]; simpl; [by rewrite lookup_delete_ne | done..].
Qed.

(** What a step does to the handles. *)
Inductive effect : Type := Kept | Registered (companion : bool) (ih : array 20) | Dropped (ih : array 20) | Removed (ih : array 20).
Definition effect_of (s : state) (o : op) : effect :=
  match o with
  | Begin ih => if bool_decide (ih = zero_arr 20) || closed (eng s) then Kept else Registered true ih
  | End i => match inflight s !! i with
             | Some ih => if 0 <? refs (eng s) ih - 1 then Kept else Dropped ih
             | None => Kept
             end
  | Seed ih => if closed (eng s) then Kept else Registered true ih
  | Drop ih => Dropped ih
  | Add ih => if closed (eng s) then Kept else Registered false ih
  | Remove ih => Removed ih
  | Shut => Kept
  end.
Lemma step_handles s o k :
  handles (eng (step s o)) !! k =
  match effect_of s o with
  | Kept => handles (eng s) !! k
  | Registered b ih => handles (register b ih (eng s)) !! k
  | Dropped ih => handles (DropCompanionTorrent ih (eng s)) !! k
  | Removed ih => delete ih (handles (eng s)) !! k
  end.
Proof.
  destruct o as [ih|i|ih|ih|ih|ih|]; cbn [step effect_of].
  - unfold retainAndAttachCompanion, addCompanionInfoHash. destruct (bool_decide (ih = zero_arr 20)); [done |].
    cbn [closed with_refs orb]. destruct (closed (eng s)); [done |]. cbn [eng]. by rewrite !register_lookup.
  - destruct (inflight s !! i) as [ih|]; [|done]. unfold releaseCompanionFetch. cbn [eng].
    destruct (0 <? refs (eng s) ih - 1); [done |]. by rewrite !drop_lookup.
  - unfold SeedMetaInfo. by destruct (closed (eng s)).
  - done.
  - by destruct (closed (eng s)).
  - done.
  - done.
Qed.
Lemma step_inflight s o ih :
  ih ∈ inflight (step s o) →
  (∃ i, o = End i ∧ ih ∈ inflight s) ∨ (effect_of s o = Registered true ih) ∨ (ih ∈ inflight s ∧ ∀ i, o ≠ End i).
Proof.
  destruct o as [ih'|i|ih'|ih'|ih'|ih'|]; cbn [step effect_of].
  - unfold retainAndAttachCompanion, addCompanionInfoHash. destruct (bool_decide (ih' = zero_arr 20)); [naive_solver |].
    cbn [closed with_refs orb]. destruct (closed (eng s)); [naive_solver |]. cbn [inflight].
    intros [?|?%list_elem_of_singleton]%elem_of_app; naive_solver.
  - destruct (inflight s !! i) as [ih'|] eqn:El; [|naive_solver]. cbn [inflight]. intros Hin. left. exists i.
    split; [done |]. rewrite delete_take_drop in Hin. apply elem_of_app in Hin as [Hin|Hin];
      [by eapply subseteq_take | by eapply subseteq_drop].
  - unfold SeedMetaInfo. cbn [inflight]. naive_solver.
  - naive_solver.
  - naive_solver.
  - naive_solver.
  - naive_solver.
Qed.

(** The node's own drops and removals leave what is in flight alone. *)
Definition spares (s : state) (o : op) : Prop :=
  match o with Drop ih | Remove ih => ih ∉ inflight s | _ => True end.
Fixpoint undisturbed (s : state) (ops : list op) : Prop :=
  match ops with [] => True | o :: ops => spares s o ∧ undisturbed (step s o) ops end.
Definition attached (s : state) : Prop := ∀ ih, ih ∈ inflight s → is_Some (handles (eng s) !! ih).
(** A companion torrent is in flight, or was seeded. *)
Definition accounted (seeded : list (array 20)) (s : state) : Prop :=
  ∀ ih, handles (eng s) !! ih = Some true → ih ∈ inflight s ∨ ih ∈ seeded.

(** An end that drops is the last one. *)
Lemma End_last s i ih : counted s → inflight s !! i = Some ih → refs (eng s) ih - 1 <= 0 → ih ∉ delete i (inflight s).
Proof.
  intros Hc El Hr Hin%count_in. rewrite (count_delete ih i ih) in Hin by done.
  rewrite bool_decide_true in Hin by done. rewrite (refs_counted s ih Hc) in Hr. lia.
Qed.

Lemma step_attached s o : counted s → spares s o → attached s → attached (step s o).
Proof.
  intros Hc Hs Ha ih Hin. rewrite step_handles.
  apply step_inflight in Hin as Hcase. destruct Hcase as [(i & -> & Hi)|[Hreg|[Hi Hne]]].
  - cbn [effect_of step] in *. destruct (inflight s !! i) as [ih'|] eqn:El; [|by apply Ha].
    destruct (Z.ltb_spec 0 (refs (eng s) ih' - 1)); [by apply Ha |]. rewrite drop_lookup.
    destruct (decide (ih = ih')) as [->|Hne].
    + cbn [inflight] in Hin. exfalso. by eapply End_last.
    + rewrite bool_decide_false by done. by apply Ha.
  - rewrite Hreg, register_lookup, bool_decide_true by done. by destruct (handles (eng s) !! ih).
  - specialize (Ha ih Hi). destruct o as [ih'|i|ih'|ih'|ih'|ih'|]; cbn [effect_of spares] in *.
    + destruct (_ || _); [done |]. rewrite register_lookup. by destruct Ha as [v ->].
    + by destruct (Hne i).
    + destruct (closed _); [done |]. rewrite register_lookup. by destruct Ha as [v ->].
    + rewrite drop_lookup, bool_decide_false by (by intros ->). done.
    + destruct (closed _); [done |]. rewrite register_lookup. by destruct Ha as [v ->].
    + rewrite lookup_delete_ne by (by intros ->). done.
    + done.
Qed.

Definition seeded (ops : list op) : list (array 20) := omap (λ o, match o with Seed ih => Some ih | _ => None end) ops.
Lemma step_accounted s o l :
  counted s → accounted l s → accounted (l ++ seeded [o]) (step s o).
Proof.
  intros Hc Ha ih Hh. rewrite step_handles in Hh.
  assert (Hold : handles (eng s) !! ih = Some true → (∀ i, o ≠ End i) → ih ∈ inflight (step s o) ∨ ih ∈ l ++ seeded [o]).
  { intros Hb Hne. destruct (Ha ih Hb) as [Hi|Hl]; [left | right; apply elem_of_app; by left].
    destruct o as [ih'|i|ih'|ih'|ih'|ih'|]; cbn [step]; try done; [|by destruct (Hne i)].
    unfold retainAndAttachCompanion, addCompanionInfoHash. destruct (bool_decide _); [done |].
    destruct (closed _); [done |]. cbn [inflight]. apply elem_of_app. by left. }
  destruct o as [ih'|i|ih'|ih'|ih'|ih'|]; cbn [effect_of] in Hh.
  - destruct (bool_decide (ih' = zero_arr 20) || closed (eng s)) eqn:E; [by apply Hold |].
    rewrite register_lookup in Hh. destruct (handles (eng s) !! ih) as [v|] eqn:Ev; [apply Hold; congruence |].
    case_bool_decide; [|done]. subst. left. cbn [step]. unfold retainAndAttachCompanion, addCompanionInfoHash.
    apply orb_false_iff in E as [-> E]. cbn [closed with_refs]. rewrite E. cbn [inflight]. apply elem_of_app. right. by left.
  - cbn [step]. destruct (inflight s !! i) as [ih'|] eqn:El; [|rewrite app_nil_r; by apply Ha]. cbn [inflight].
    rewrite app_nil_r. assert (Hkeep : ih ≠ ih' → ih ∈ inflight s → ih ∈ delete i (inflight s)).
    { intros Hne Hi%count_in. apply count_in. rewrite (count_delete ih i ih') by done. rewrite bool_decide_false by done. lia. }
    destruct (Z.ltb_spec 0 (refs (eng s) ih' - 1)) as [Hlt|Hle].
    + destruct (Ha ih Hh) as [Hi|]; [left | by right]. destruct (decide (ih = ih')) as [->|]; [|by apply Hkeep].
      apply count_in. rewrite (count_delete ih' i ih') by done. rewrite bool_decide_true by done.
      rewrite (refs_counted s ih' Hc) in Hlt. lia.
    + rewrite drop_lookup in Hh. destruct (decide (ih = ih')) as [->|Hne].
      * rewrite bool_decide_true in Hh by done. simpl in Hh. case_bool_decide; [done | congruence].
      * rewrite bool_decide_false in Hh by done. destruct (Ha ih Hh); [left; by apply Hkeep | by right].
  - destruct (closed (eng s)); [by apply Hold |]. rewrite register_lookup in Hh.
    destruct (handles (eng s) !! ih) as [v|] eqn:Ev; [apply Hold; congruence |]. case_bool_decide; [|done]. subst.
    right. apply elem_of_app. right. by left.
  - rewrite drop_lookup in Hh. destruct (_ && _); [done | by apply Hold].
  - destruct (closed (eng s)); [by apply Hold |]. rewrite register_lookup in Hh.
    destruct (handles (eng s) !! ih) as [v|] eqn:Ev; [apply Hold; congruence |]. by case_bool_decide.
  - apply lookup_delete_Some in Hh as [_ Hh]. by apply Hold.
  - by apply Hold.
Qed.

Lemma run_counted ops : counted (foldl step start ops).
Proof.
  induction ops as [|o ops IH] using rev_ind; [done |]. rewrite foldl_app. by apply step_counted.
Qed.
Lemma run_accounted ops : accounted (seeded ops) (foldl step start ops).
Proof.
  induction ops as [|o ops IH] using rev_ind; [done |]. rewrite foldl_app. unfold seeded. rewrite omap_app.
  apply step_accounted; [apply run_counted | exact IH].
Qed.
Lemma run_attached ops s : counted s → attached s → undisturbed s ops → attached (foldl step s ops).
Proof.
  revert s. induction ops as [|o ops IH]; intros s Hc Ha; [done |]. intros [Hs Hu]. cbn [foldl].
  apply IH; [by apply step_counted | by apply step_attached | done].
Qed.
Lemma run_real ops s ih :
  handles (eng s) !! ih = Some false → Remove ih ∉ ops → handles (eng (foldl step s ops)) !! ih = Some false.
Proof.
  revert s. induction ops as [|o ops IH]; intros s Hh Hn; [done |]. apply not_elem_of_cons in Hn as [Hne Hn].
  cbn [foldl]. apply IH; [|done]. rewrite step_handles. destruct (effect_of s o) as [|b k|k|k] eqn:Ee; [done | | |].
  - by rewrite register_lookup, Hh.
  - rewrite drop_lookup. case_bool_decide; [subst; rewrite Hh, bool_decide_false by done; done | done].
  - destruct o as [ih'|i|ih'|ih'|ih'|ih'|]; cbn [effect_of] in Ee; repeat case_match; try discriminate.
    injection Ee as ->. rewrite lookup_delete_ne by (intros ->; by apply Hne). done.
Qed.

(** A fetched file is one of at most 32 MiB, directly in the data directory. *)
Lemma await_safe a dataDir p :
  await a dataDir = Ok p → ∃ name n, p = dataDir ++ str "/" ++ name ∧ n ≤ maxCompanionBytes ∧
    got_info a = Ok (Some {| info_Name := name; info_lengths := [n] |}) ∧
    name ≠ [] ∧ name ≠ str ".." ∧ x2f ∉ name.
Proof.
  unfold await. destruct (got_info a) as [[[name ls]|]|]; simpl; [|done..].
  destruct (Z.eqb_spec (len ls) 1) as [El|]; simpl; [|done]. destruct (Z.ltb_spec maxCompanionBytes (TotalLength {| info_Name := name; info_lengths := ls |})) as [|Hle]; [done |].
  destruct (unsafeCompanionName name) eqn:Eu; [done |]. destruct (completes a); [|done]. intros [= <-].
  destruct ls as [|n [|]]; [done | | unfold len in El; simpl in El; lia]. exists name, n.
  unfold TotalLength in Hle. simpl in Hle. unfold unsafeCompanionName in Eu.
  apply orb_false_iff in Eu as [[[E1%bool_decide_eq_false E2]%orb_false_iff E3%bool_decide_eq_false]%orb_false_iff E4].
  split_and!; try done; [lia |]. intros Hin. enough (existsb (λ c, bool_decide (c = x2f) || bool_decide (c = x5c)) name = true) by congruence.
  apply existsb_exists. exists x2f. split; [by apply list_elem_of_In | done].
Qed.


(** ** Collisions *)
Module Examples.
Definition ours : array 20 := copy_arr 20 (str "ours").
Definition film : array 20 := copy_arr 20 (str "film").

(** Two fetches share a torrent; it goes with the second. *)
Example shared :
  (λ k, handles (eng (foldl step start (take k [Begin film; Begin film; End 0; End 0]))) !! film) <$> [2; 3; 4]%nat =
  [Some true; Some true; None].
Proof. by vm_compute. Qed.
(** A publisher's pointer to a torrent of ours does not take it down. *)
Example collision : handles (eng (foldl step start [Add film; Begin film; End 0])) !! film = Some false.
Proof. by vm_compute. Qed.
(** A pointer to our own snapshot does: the fetch attaches to the seed, and its
    end drops it, while our pointer still names it. *)
Example own_seed_lost :
  handles (eng (foldl step start [Seed ours])) !! ours = Some true ∧
  handles (eng (foldl step start [Seed ours; Begin ours; End 0])) !! ours = None.
Proof. by vm_compute. Qed.
(** A torrent the user adds while it is fetched is the companion handle, and goes
    with the fetch. *)
Example added_is_lost : handles (eng (foldl step start [Begin film; Add film; End 0])) !! film = None.
Proof. by vm_compute. Qed.

End Examples.
End Fetch.
