(* ===== verification/HtmlText.v ===== *)
(** * Visible text of HTML (internal/indexer/extractors/htmltext.go)

    Streams with a limit on what is read of them, [strings.TrimSpace], and the
    walk over the tokens of an HTML stream that the EPUB and ZIM extractors
    share.  The tokenizer is golang.org/x/net/html: a class. *)

From S2P Require Import Prelude GoInt Utf8 Chunker.
Open Scope Z_scope.

Module HtmlText.

(** ** Streams

    The bytes a reader yields, and whether it then fails rather than ends. *)
Record stream := { content : bytes; fails : bool }.
(** [io.LimitReader]: a failure after the limit is not seen. *)
Definition limit (n : Z) (s : stream) : stream :=
  {| content := take (Z.to_nat n) (content s); fails := fails s && (len (content s) <? n) |}.
(** [io.ReadAll]. *)
Definition ReadAll (s : stream) : option bytes := if fails s then None else Some (content s).
Definition of_bytes (b : bytes) : stream := {| content := b; fails := false |}.

Lemma len_take {A} (n : Z) (l : list A) : 0 ≤ n → len (take (Z.to_nat n) l) = Z.min n (len l).
Proof. unfold len. rewrite length_take. lia. Qed.
Lemma len_limit n s : 0 ≤ n → len (content (limit n s)) = Z.min n (len (content s)).
Proof. apply len_take. Qed.

(** ** [strings.TrimSpace] *)
Fixpoint drop_space (rs : list (Z * bytes)) : list (Z * bytes) :=
  match rs with c :: rs' => if Chunker.IsSpace c.1 then drop_space rs' else rs | [] => [] end.
Definition TrimSpace (s : bytes) : bytes :=
  concat (snd <$> reverse (drop_space (reverse (drop_space (Utf8.runes s))))).

Lemma drop_space_suffix rs : ∃ sp, rs = sp ++ drop_space rs ∧ forallb (λ c, Chunker.IsSpace c.1) sp = true.
Proof.
  induction rs as [|c rs (sp & H & Hs)]; [by exists [] |]. cbn [drop_space].
  destruct (Chunker.IsSpace c.1) eqn:E; [|by exists []]. exists (c :: sp). simpl. rewrite E, Hs. split; [by f_equal | done].
Qed.
Lemma TrimSpace_infix s : ∃ a b, s = a ++ TrimSpace s ++ b.
Proof.
  unfold TrimSpace. destruct (drop_space_suffix (Utf8.runes s)) as (sp & H & _).
  destruct (drop_space_suffix (reverse (drop_space (Utf8.runes s)))) as (sq & H' & _).
  exists (concat (snd <$> sp)), (concat (snd <$> reverse sq)).
  rewrite <-!concat_app, <-!fmap_app, <-reverse_app, <-H', reverse_involutive, <-H. symmetry. apply Utf8.runes_concat.
Qed.
Lemma len_TrimSpace s : len (TrimSpace s) ≤ len s.
Proof.
  destruct (TrimSpace_infix s) as (a & b & H). rewrite H at 2. rewrite !len_app.
  pose proof (len_nonneg a). pose proof (len_nonneg b). lia.
Qed.

(** ** Tokens *)
Inductive token : Type :=
  | TextToken (s : bytes) | StartTagToken (name : bytes) | EndTagToken (name : bytes)
  | SelfClosingTagToken (name : bytes) | OtherToken.
Inductive stop : Type := EOF | ErrBufferExceeded | ErrStream.
Definition token_size (t : token) : Z :=
  match t with
  | TextToken s => len s
  | StartTagToken _ | EndTagToken _ | SelfClosingTagToken _ => 1
  | OtherToken => 0
  end.
Definition sizes (ts : list (token * Z)) : Z := foldr Z.add 0 ((λ t, token_size t.1) <$> ts).

(** The tokens of a stream under [SetMaxBuf], each with the bytes the tokenizer
    has read of the stream by then; how the tokens end, with the same. *)
Class Tokenizer := tokenize : stream → Z → list (token * Z) * (stop * Z).
(** Unescaped text is no longer than its source and a tag has a byte at least, so
    what a prefix of the tokens holds was read; nothing is read twice. *)
Class TokenizerLaws `{Tokenizer} := {
  token_read : ∀ s m pre t n post, (tokenize s m).1 = pre ++ (t, n) :: post →
    sizes (pre ++ [(t, n)]) ≤ n ≤ len (content s);
  token_end : ∀ s m, sizes (tokenize s m).1 ≤ (tokenize s m).2.2 ≤ len (content s)
}.

(** ** The walk *)
Definition maxDocTextBytes : Z := 64 * 1024 * 1024.
Definition isSkipTag (tag : bytes) : bool :=
  bool_decide (tag ∈ str <$> ["script"; "style"; "noscript"; "svg"; "math"]%string).
Definition isBlockTag (tag : bytes) : bool :=
  bool_decide (tag ∈ str <$>
    ["p"; "div"; "section"; "article"; "header"; "footer"; "nav";
     "li"; "tr"; "br"; "blockquote"; "pre"; "hr";
     "h1"; "h2"; "h3"; "h4"; "h5"; "h6"]%string).

(** [out], [skipDepth], [lastChar]. *)
Record walk := { out : bytes; skipDepth : Z; lastChar : byte }.
Definition SP : byte := x20.
Definition appendByte (w : walk) (c : byte) : walk :=
  let c := if bool_decide (c ∈ [x0a; x0d; x09]) then SP else c in
  if bool_decide (c = SP) then
    if bool_decide (lastChar w ∈ [SP; x0a; x00]) then w
    else {| out := out w ++ [SP]; skipDepth := skipDepth w; lastChar := SP |}
  else {| out := out w ++ [c]; skipDepth := skipDepth w; lastChar := c |}.
Definition appendText (w : walk) (s : bytes) : walk := foldl appendByte w s.
Definition appendBreak (w : walk) : walk :=
  if bool_decide (lastChar w ∈ [x0a; x00]) then w
  else {| out := out w ++ [x0a]; skipDepth := skipDepth w; lastChar := x0a |}.
Definition with_depth (d : Z) (w : walk) : walk := {| out := out w; skipDepth := d; lastChar := lastChar w |}.
Definition on_token (w : walk) (t : token) : walk :=
  match t with
  | TextToken s => if skipDepth w =? 0 then appendText w s else w
  | StartTagToken tag =>
    if isSkipTag tag then with_depth (skipDepth w + 1) w
    else if isBlockTag tag then appendBreak w else w
  | EndTagToken tag =>
    if isSkipTag tag then (if 0 <? skipDepth w then with_depth (skipDepth w - 1) w else w)
    else if isBlockTag tag then appendBreak w else w
  | SelfClosingTagToken tag => if bool_decide (tag = str "br") then appendBreak w else w
  | OtherToken => w
  end.

(** The text, or an error of the stream; and the bytes read: [read] before the
    first token. *)
Fixpoint walk_tokens (maxOut : Z) (ts : list (token * Z)) (stopped : stop * Z) (read : Z) (w : walk)
    : option bytes * Z :=
  if maxOut <? len (out w) then (Some (TrimSpace (out w)), read)
  else match ts with
  | [] => (match stopped.1 with ErrStream => None | _ => Some (TrimSpace (out w)) end, stopped.2)
  | (t, n) :: ts => walk_tokens maxOut ts stopped n (on_token w t)
  end.
Definition start_walk : walk := {| out := []; skipDepth := 0; lastChar := x00 |}.
Definition clampOut (maxOut : Z) : Z :=
  if (maxOut <=? 0) || (maxDocTextBytes <? maxOut) then maxDocTextBytes else maxOut.

Section extract.
Context `{Tokenizer}.
Definition extractHTMLText (r : stream) (maxOut : Z) : option bytes * Z :=
  let maxOut := clampOut maxOut in
  let '(ts, stopped) := tokenize (limit maxOut r) maxOut in
  walk_tokens maxOut ts stopped 0 start_walk.
End extract.

(** ** Bounds: no byte of text that was not read *)
Lemma appendByte_len w c : len (out w) ≤ len (out (appendByte w c)) ≤ len (out w) + 1.
Proof.
  unfold appendByte. pose proof (len_nonneg (out w)).
  repeat case_bool_decide; cbn [out]; rewrite ?len_app, ?len_cons, ?len_nil; lia.
Qed.
Lemma appendText_len s w : len (out w) ≤ len (out (appendText w s)) ≤ len (out w) + len s.
Proof.
  revert w. induction s as [|c s IH]; intros w; [change (appendText w []) with w; rewrite len_nil; lia |]. rewrite len_cons.
  change (appendText w (c :: s)) with (appendText (appendByte w c) s).
  pose proof (IH (appendByte w c)). pose proof (appendByte_len w c). lia.
Qed.
Lemma appendBreak_len w : len (out w) ≤ len (out (appendBreak w)) ≤ len (out w) + 1.
Proof. unfold appendBreak. case_bool_decide; cbn [out]; rewrite ?len_app, ?len_cons, ?len_nil; lia. Qed.
Lemma on_token_len w t : len (out (on_token w t)) ≤ len (out w) + token_size t.
Proof.
  pose proof (appendBreak_len w). destruct t as [s|tag|tag|tag|]; cbn [on_token token_size].
  1: pose proof (appendText_len s w); pose proof (len_nonneg s).
  all: repeat case_match; cbn [with_depth out]; lia.
Qed.
Lemma sizes_cons x l : sizes (x :: l) = token_size x.1 + sizes l.
Proof. done. Qed.
Lemma sizes_app a b : sizes (a ++ b) = sizes a + sizes b.
Proof. induction a as [|x a IH]; [done |]. cbn [app]. rewrite !sizes_cons. lia. Qed.

Section bounds.
Context `{TokenizerLaws}.
Lemma walk_tokens_bounds m s mb pre ts w :
  (tokenize s mb).1 = pre ++ ts → len (out w) ≤ sizes pre →
  let read := match last pre with Some (_, n) => n | None => 0 end in
  sizes pre ≤ read ≤ len (content s) →
  let r := walk_tokens m ts (tokenize s mb).2 read w in
  0 ≤ r.2 ≤ len (content s) ∧ ∀ text, r.1 = Some text → len text ≤ r.2.
Proof.
  revert pre w. induction ts as [|[t n] ts IH]; intros pre w Hts Hw read Hr; cbn [walk_tokens].
  all: pose proof (len_TrimSpace (out w)); pose proof (len_nonneg (out w)).
  all: destruct (Z.ltb_spec m (len (out w))); [simpl; split; [lia |]; intros ? [= <-]; lia |].
  - rewrite app_nil_r in Hts. pose proof (token_end s mb) as He. rewrite Hts in He. simpl.
    split; [lia |]. intros text Ht. destruct (tokenize s mb).2 as [[] n]; simplify_eq/=; lia.
  - pose proof (token_read s mb pre t n ts Hts) as [Ht1 Ht2].
    specialize (IH (pre ++ [(t, n)]) (on_token w t)). rewrite <-app_assoc in IH. specialize (IH Hts).
    pose proof (on_token_len w t). rewrite sizes_app, sizes_cons in *.
    rewrite last_snoc in IH. change (sizes []) with 0 in *. apply IH; cbn [fst] in *; lia.
Qed.

Lemma extractHTMLText_bounds r maxOut :
  let e := extractHTMLText r maxOut in
  0 ≤ e.2 ≤ Z.min (clampOut maxOut) (len (content r)) ∧ ∀ text, e.1 = Some text → len text ≤ e.2.
Proof.
  unfold extractHTMLText. assert (Hc : 0 ≤ clampOut maxOut)
    by (unfold clampOut, maxDocTextBytes; destruct (_ || _) eqn:E; b2p; lia).
  destruct (tokenize (limit (clampOut maxOut) r) (clampOut maxOut)) as [ts stopped] eqn:E.
  pose proof (walk_tokens_bounds (clampOut maxOut) (limit (clampOut maxOut) r) (clampOut maxOut) [] ts start_walk) as Hb.
  rewrite E in Hb. rewrite <-len_limit by done. apply Hb; [done | done |].
  split; [done | apply len_nonneg].
Qed.
End bounds.

(** ** Whitespace: runs collapse, and no line begins with a space *)
Fixpoint neat (prev : byte) (s : bytes) : bool :=
  match s with
  | [] => true
  | c :: s => negb (bool_decide (c = SP) && bool_decide (prev ∈ [SP; x0a; x00])) &&
              negb (bool_decide (c ∈ [x0d; x09])) && neat c s
  end.
Definition tidy (w : walk) : Prop := lastChar w = default x00 (last (out w)) ∧ neat x00 (out w) = true.
Lemma neat_snoc p s c :
  neat p (s ++ [c]) = neat p s && negb (bool_decide (c = SP) && bool_decide (default p (last s) ∈ [SP; x0a; x00])) &&
    negb (bool_decide (c ∈ [x0d; x09])).
Proof.
  revert p. induction s as [|d s IH]; intros p; cbn [neat app]; [cbn; by rewrite andb_true_r |].
  rewrite IH, last_cons, !andb_assoc. do 3 f_equal. by destruct (last s).
Qed.
Lemma tidy_snoc w c d :
  tidy w → (c = SP → lastChar w ∉ [SP; x0a; x00]) → c ∉ [x0d; x09] →
  tidy {| out := out w ++ [c]; skipDepth := d; lastChar := c |}.
Proof.
  intros [Hl Hn] Hs Hc. split; cbn [out lastChar]; [by rewrite last_snoc |].
  rewrite neat_snoc, Hn, <-Hl. rewrite (bool_decide_eq_false_2 (c ∈ _)) by done.
  destruct (bool_decide (c = SP)) eqn:E; [|done]. b2p. by rewrite bool_decide_eq_false_2 by auto.
Qed.
Lemma appendByte_tidy w c : tidy w → tidy (appendByte w c).
Proof.
  intros Hw. unfold appendByte. set (c' := if bool_decide (c ∈ [x0a; x0d; x09]) then SP else c).
  assert (Hc' : c' ∉ [x0d; x09]) by (unfold c', SP; case_bool_decide; set_solver).
  case_bool_decide as E.
  - case_bool_decide as El; [done |]. apply tidy_snoc; [done | by intros | by rewrite <-E].
  - by apply tidy_snoc.
Qed.
Lemma appendText_tidy s w : tidy w → tidy (appendText w s).
Proof. revert w. induction s as [|c s IH]; intros w Hw; [done |]. apply IH. by apply appendByte_tidy. Qed.
Lemma on_token_tidy w t : tidy w → tidy (on_token w t).
Proof.
  intros Hw. assert (Hb : tidy (appendBreak w)).
  { unfold appendBreak. case_bool_decide; [done |]. apply tidy_snoc; [done | done | set_solver]. }
  destruct t as [s|tag|tag|tag|]; cbn [on_token]; repeat case_match; try done.
  by apply appendText_tidy.
Qed.
End HtmlText.
