(* ===== verification/Documents.v ===== *)
(** * Document extractors (internal/indexer/extractors: docx.go, odt.go, epub.go, pdf.go)

    Word, OpenDocument and EPUB files are zip archives of XML or XHTML, PDF files
    are pages of compressed streams: each is hostile until proved small.  What the
    archives, decoders and pages yield comes from libraries, as classes; what is
    read of it, and what text is made of it, is here. *)

From S2P Require Import Prelude GoInt Utf8 Chunker HtmlText.
Open Scope Z_scope.

Module Documents.
Import Utf8 HtmlText.

(** ** Libraries *)
(** An entry of an archive (archive/zip): its name, and its decompressed contents
    if it opens. *)
Record entry := { Name : bytes; Open_ : option stream }.
Class ZipReader := zip_entries : bytes → option (list entry).
(** The tokens of encoding/xml, not strict and with the entities of HTML; whether
    they end at the end of the stream. *)
Inductive xml_token : Type :=
  | StartElement (local : bytes) | CharData (s : bytes) | EndElement (local : bytes) | OtherXml.
Class XmlDecoder := xml_tokens : stream → list xml_token * bool.
Definition xml_size (t : xml_token) : Z :=
  match t with StartElement _ => 3 | CharData s => len s | _ => 0 end.
Definition xml_sizes (ts : list xml_token) : Z := foldr Z.add 0 (xml_size <$> ts).
(** A start tag has three bytes at least, and no entity is shorter than what it stands for. *)
Class XmlLaws `{XmlDecoder} := xml_read : ∀ s, xml_sizes (xml_tokens s).1 ≤ len (content s).
(** A page of a PDF: how long its content streams are once decompressed ([None]
    when the library panics over them), and its text ([None] for an error or a panic). *)
Record page := { p_streams : option (list Z); p_text : option bytes }.
Class PdfReader := pdf_pages : bytes → option (list page).

(** What [Extract] reports as an error. *)
Inductive error : Type := ErrReadInput | ErrOpenZip | ErrOpenEntry | ErrXml | ErrParse.

(** ** The input *)
Definition docxMaxInputBytes : Z := 256 * 1024 * 1024.
Definition defaultTextOutputCap : Z := 64 * 1024 * 1024.
Definition clampInput (maxBytes : Z) : Z :=
  if (maxBytes <=? 0) || (docxMaxInputBytes <? maxBytes) then docxMaxInputBytes else maxBytes.
(** [k]: what is made of an input that is not empty. *)
Definition with_input (r : stream) (maxBytes : Z) (k : Z → bytes → result error (list Chunker.Chunk))
    : result error (list Chunker.Chunk) :=
  let maxBytes := clampInput maxBytes in
  match ReadAll (limit maxBytes r) with
  | None => Err ErrReadInput
  | Some buf => if bool_decide (buf = []) then Ok [] else k maxBytes buf
  end.
Definition chunk_text (text : bytes) : list Chunker.Chunk :=
  if bool_decide (TrimSpace text = []) then [] else Chunker.chunkText text Chunker.DefaultChunkTargetBytes.

(** ** Word ([extractDocumentText]) *)
Record docx := { d_out : bytes; inTextRun : bool; inParagraph : bool }.
Definition docx_write (s : bytes) (d : docx) : docx :=
  {| d_out := d_out d ++ s; inTextRun := inTextRun d; inParagraph := inParagraph d |}.
Definition docx_token (d : docx) (t : xml_token) : docx :=
  match t with
  | StartElement local =>
    if bool_decide (local = str "p") then
      let d := if inParagraph d && (0 <? len (d_out d)) then docx_write [x0a; x0a] d else d in
      {| d_out := d_out d; inTextRun := inTextRun d; inParagraph := true |}
    else if bool_decide (local = str "t") then
      {| d_out := d_out d; inTextRun := true; inParagraph := inParagraph d |}
    else if bool_decide (local ∈ [str "tab"; str "br"; str "cr"]) then docx_write [SP] d
    else d
  | CharData s => if inTextRun d then docx_write s d else d
  | EndElement local =>
    if bool_decide (local = str "t") then
      {| d_out := d_out d; inTextRun := false; inParagraph := inParagraph d |}
    else d
  | OtherXml => d
  end.

(** ** OpenDocument ([extractODTText]) *)
Record odt := { o_out : bytes; o_skipDepth : Z; o_inParagraph : bool }.
Definition odt_write (s : bytes) (o : odt) : odt :=
  {| o_out := o_out o ++ s; o_skipDepth := o_skipDepth o; o_inParagraph := o_inParagraph o |}.
Definition odt_depth (d : Z) (o : odt) : odt :=
  {| o_out := o_out o; o_skipDepth := d; o_inParagraph := o_inParagraph o |}.
Definition is_style (local : bytes) : bool :=
  bool_decide (local ∈ [str "automatic-styles"; str "styles"; str "font-face-decls"; str "scripts"]).
Definition odt_token (o : odt) (t : xml_token) : odt :=
  match t with
  | StartElement local =>
    if bool_decide (local ∈ [str "p"; str "h"]) then
      let o := if o_inParagraph o && (0 <? len (o_out o)) then odt_write [x0a; x0a] o else o in
      {| o_out := o_out o; o_skipDepth := o_skipDepth o; o_inParagraph := true |}
    else if bool_decide (local ∈ [str "s"; str "tab"; str "line-break"]) then odt_write [SP] o
    else if is_style local then odt_depth (o_skipDepth o + 1) o
    else o
  | CharData s => if o_skipDepth o =? 0 then odt_write s o else o
  | EndElement local =>
    if is_style local then (if 0 <? o_skipDepth o then odt_depth (o_skipDepth o - 1) o else o) else o
  | OtherXml => o
  end.

(** The loop over the tokens, the same in both. *)
Fixpoint xml_walk {S} (step : S → xml_token → S) (text : S → bytes) (maxOut : Z)
    (ts : list xml_token) (eof : bool) (s : S) : option bytes :=
  if maxOut <? len (text s) then Some (TrimSpace (text s))
  else match ts with
  | [] => if eof then Some (TrimSpace (text s)) else None
  | t :: ts => xml_walk step text maxOut ts eof (step s t)
  end.
Definition clampText (maxOut : Z) : Z := if maxOut <=? 0 then defaultTextOutputCap else maxOut.

Section xml.
Context `{XmlDecoder} `{ZipReader}.
Definition extractDocumentText (r : stream) (maxOut : Z) : option bytes :=
  let '(ts, eof) := xml_tokens r in
  xml_walk docx_token d_out (clampText maxOut) ts eof {| d_out := []; inTextRun := false; inParagraph := false |}.
Definition extractODTText (r : stream) (maxOut : Z) : option bytes :=
  let '(ts, eof) := xml_tokens r in
  xml_walk odt_token o_out (clampText maxOut) ts eof {| o_out := []; o_skipDepth := 0; o_inParagraph := false |}.
Definition find_entry (name : bytes) (es : list entry) : option entry :=
  List.find (λ e, bool_decide (Name e = name)) es.
(** [name]: the entry that holds the body; [text]: what is made of it. *)
Definition extract_body (name : bytes) (text : stream → Z → option bytes) (r : stream) (maxBytes : Z)
    : result error (list Chunker.Chunk) :=
  with_input r maxBytes (λ maxBytes buf,
    match zip_entries buf with
    | None => Err ErrOpenZip
    | Some es =>
      match find_entry name es with
      | None => Ok []
      | Some e =>
        match Open_ e with
        | None => Err ErrOpenEntry
        | Some rc =>
          match text (limit maxDocTextBytes rc) maxBytes with
          | None => Err ErrXml
          | Some t => Ok (chunk_text t)
          end
        end
      end
    end).
Definition docx_Extract : stream → Z → result error (list Chunker.Chunk) :=
  extract_body (str "word/document.xml") extractDocumentText.
Definition odt_Extract : stream → Z → result error (list Chunker.Chunk) :=
  extract_body (str "content.xml") extractODTText.
End xml.

(** ** EPUB *)
Definition maxEpubTotalDecompress : Z := 4 * maxDocTextBytes.
(** [path.Ext]: from the last dot of the last element. *)
Fixpoint ext_go (s : bytes) (acc : bytes) : bytes :=
  match s with
  | [] => []
  | c :: s =>
    if bool_decide (c = x2f) then []
    else if bool_decide (c = x2e) then c :: acc
    else ext_go s (c :: acc)
  end.
Definition path_Ext (s : bytes) : bytes := ext_go (reverse s) [].

Section epub.
Context `{Tokenizer} `{Unicode} `{ZipReader}.
Definition isXHTMLChapter (name : bytes) : bool :=
  if bool_decide (name = []) || bool_decide (last name = Some x2f) then false
  else
    let lower := strings_ToLower name in
    if has_prefix lower (str "meta-inf/") then false
    else bool_decide (strings_ToLower (path_Ext lower) ∈ [str ".xhtml"; str ".html"; str ".htm"]).
(** The text, and the decompressed bytes it took. *)
Definition extractChapter (f : entry) (maxOut maxDecompress : Z) : option bytes * Z :=
  match Open_ f with
  | None => (None, 0)
  | Some rc =>
    let lim := if maxDecompress <? maxOut then maxDecompress else maxOut in
    extractHTMLText (limit lim rc) maxOut
  end.
(** The combined text and what is left to decompress. *)
Fixpoint epub_chapters (fs : list entry) (combined : bytes) (decompressBudget : Z) : bytes * Z :=
  match fs with
  | [] => (combined, decompressBudget)
  | f :: fs =>
    let remaining := maxDocTextBytes - len combined in
    if remaining <=? 0 then (combined, decompressBudget)
    else if decompressBudget <=? 0 then (combined, decompressBudget)
    else
      let '(text, consumed) := extractChapter f remaining decompressBudget in
      let decompressBudget := decompressBudget - consumed in
      match text with
      | None => epub_chapters fs combined decompressBudget
      | Some text =>
        let combined := if 0 <? len combined then combined ++ [x0a; x0a] else combined in
        epub_chapters fs (combined ++ text) decompressBudget
      end
  end.
(** [sorted]: the chapters as [sort.Slice] leaves them, by name. *)
Definition epub_Extract (sorted : list entry → list entry) (r : stream) (maxBytes : Z)
    : result error (list Chunker.Chunk) :=
  with_input r maxBytes (λ _ buf,
    match zip_entries buf with
    | None => Err ErrOpenZip
    | Some es =>
      let chapters := List.filter (λ e, isXHTMLChapter (Name e)) es in
      if bool_decide (chapters = []) then Ok []
      else Ok (chunk_text (epub_chapters (sorted chapters) [] maxEpubTotalDecompress).1)
    end).
End epub.

(** ** PDF *)
(** Whether the streams hold more than [cap] bytes: each is read one byte past
    what is left. *)
Fixpoint streams_exceed (cap total : Z) (ss : list Z) : bool :=
  match ss with
  | [] => false
  | s :: ss =>
    let total := total + Z.min s (cap - total + 1) in
    if cap <? total then true else streams_exceed cap total ss
  end.
Definition pageContentExceeds (p : page) (cap : Z) : bool :=
  match p_streams p with None => true | Some ss => streams_exceed cap 0 ss end.
Definition pageText (p : page) : bytes := default [] (p_text p).
Fixpoint bounded_text (maxBytes : Z) (ps : list page) (out : bytes) : bytes :=
  match ps with
  | [] => out
  | p :: ps =>
    if maxBytes <=? len out then out
    else if pageContentExceeds p maxBytes then bounded_text maxBytes ps out
    else
      let txt := pageText p in
      if bool_decide (txt = []) then bounded_text maxBytes ps out
      else
        let remaining := maxBytes - len out in
        bounded_text maxBytes ps (out ++ (if remaining <? len txt then take (Z.to_nat remaining) txt else txt))
  end.
Definition extractBoundedText (ps : list page) (maxBytes : Z) : bytes := bounded_text maxBytes ps [].
Definition pdf_Extract `{PdfReader} (r : stream) (maxBytes : Z) : result error (list Chunker.Chunk) :=
  with_input r maxBytes (λ maxBytes buf,
    match pdf_pages buf with
    | None => Err ErrParse
    | Some ps => Ok (chunk_text (extractBoundedText ps maxBytes))
    end).

(** ** Bounds *)
Lemma clampInput_range m : 0 < clampInput m ≤ docxMaxInputBytes.
Proof. unfold clampInput, docxMaxInputBytes. destruct (_ || _) eqn:E; b2p; lia. Qed.
(** Whatever is made of an input, the text that is chunked is within [B]. *)
Definition chunks_of (B : Z) (c : result error (list Chunker.Chunk)) : Prop :=
  ∀ cs, c = Ok cs → cs = [] ∨ ∃ t, len t ≤ B ∧ TrimSpace t ≠ [] ∧ cs = Chunker.chunkText t Chunker.DefaultChunkTargetBytes.
Lemma chunk_text_of B t : len t ≤ B → chunks_of B (Ok (chunk_text t)).
Proof. intros Ht cs [= <-]. unfold chunk_text. case_bool_decide; [by left |]. right. by exists t. Qed.
Lemma chunks_of_nil B : chunks_of B (Ok []).
Proof. intros cs [= <-]. by left. Qed.
Lemma chunks_of_err B e : chunks_of B (Err e).
Proof. by intros cs [=]. Qed.
#[local] Hint Resolve chunks_of_nil chunks_of_err : core.
Lemma with_input_of B r m k :
  (∀ buf, 0 < len buf ≤ clampInput m → chunks_of B (k (clampInput m) buf)) → chunks_of B (with_input r m k).
Proof.
  intros Hk. unfold with_input, ReadAll. pose proof (clampInput_range m).
  destruct (fails _); [done |]. case_bool_decide as E; [done |]. apply Hk.
  rewrite len_limit by lia. split; [|lia]. destruct (content (limit (clampInput m) r)) as [|c s] eqn:Ec; [done |].
  rewrite <-(len_limit (clampInput m) r) by lia. rewrite Ec, len_cons. pose proof (len_nonneg s). lia.
Qed.

Lemma xml_sizes_cons t ts : xml_sizes (t :: ts) = xml_size t + xml_sizes ts.
Proof. done. Qed.
Lemma xml_size_nonneg t : 0 ≤ xml_size t.
Proof. destruct t; cbn; try lia. apply len_nonneg. Qed.
Lemma xml_sizes_nonneg ts : 0 ≤ xml_sizes ts.
Proof. induction ts as [|t ts IH]; [done |]. rewrite xml_sizes_cons. pose proof (xml_size_nonneg t). lia. Qed.
(** A walk writes no more than its tokens hold. *)
Lemma xml_walk_len {S} (step : S → xml_token → S) text maxOut ts eof s t :
  (∀ s t, len (text (step s t)) ≤ len (text s) + xml_size t) →
  xml_walk step text maxOut ts eof s = Some t → len t ≤ len (text s) + xml_sizes ts.
Proof.
  intros Hstep. revert s. induction ts as [|x ts IH]; intros s; cbn [xml_walk]; pose proof (len_TrimSpace (text s)).
  - change (xml_sizes []) with 0. destruct (_ <? _); [intros [= <-]; lia |]. destruct eof; [intros [= <-]; lia | done].
  - rewrite xml_sizes_cons. pose proof (xml_sizes_nonneg ts). pose proof (xml_size_nonneg x).
    destruct (_ <? _); [intros [= <-]; lia |]. intros Ht. pose proof (IH _ Ht). pose proof (Hstep s x). lia.
Qed.
Lemma docx_token_len d t : len (d_out (docx_token d t)) ≤ len (d_out d) + xml_size t.
Proof.
  destruct t; cbn [docx_token xml_size]; repeat case_match; cbn [docx_write d_out];
    rewrite ?len_app, ?len_cons, ?len_nil; try lia. pose proof (len_nonneg s). lia.
Qed.
Lemma odt_token_len o t : len (o_out (odt_token o t)) ≤ len (o_out o) + xml_size t.
Proof.
  destruct t; cbn [odt_token xml_size]; repeat case_match; cbn [odt_write odt_depth o_out];
    rewrite ?len_app, ?len_cons, ?len_nil; try lia. pose proof (len_nonneg s). lia.
Qed.

Section xml_bounds.
Context `{XmlLaws} `{ZipReader}.
Lemma extractDocumentText_len r m t : extractDocumentText r m = Some t → len t ≤ len (content r).
Proof.
  unfold extractDocumentText. pose proof (xml_read r). destruct (xml_tokens r) as [ts eof].
  intros Ht. eapply xml_walk_len in Ht; [|apply docx_token_len]. cbn [fst d_out] in *. rewrite len_nil in Ht. lia.
Qed.
Lemma extractODTText_len r m t : extractODTText r m = Some t → len t ≤ len (content r).
Proof.
  unfold extractODTText. pose proof (xml_read r). destruct (xml_tokens r) as [ts eof].
  intros Ht. eapply xml_walk_len in Ht; [|apply odt_token_len]. cbn [fst o_out] in *. rewrite len_nil in Ht. lia.
Qed.
Lemma extract_body_of name text r m :
  (∀ r m t, text r m = Some t → len t ≤ len (content r)) → chunks_of maxDocTextBytes (extract_body name text r m).
Proof.
  intros Ht. apply with_input_of. intros buf _. destruct (zip_entries buf) as [es|]; [|done].
  destruct (find_entry name es) as [e|]; [|done]. destruct (Open_ e) as [rc|]; [|done].
  destruct (text _ _) as [t|] eqn:E; [|done]. apply chunk_text_of.
  pose proof (Ht _ _ _ E). rewrite len_limit in * by done. lia.
Qed.
End xml_bounds.

Section epub_bounds.
Context `{TokenizerLaws} `{Unicode} `{ZipReader}.
Lemma extractChapter_bounds f maxOut maxD :
  0 < maxOut ≤ maxDocTextBytes → 0 < maxD →
  let e := extractChapter f maxOut maxD in
  0 ≤ e.2 ≤ Z.min maxOut maxD ∧ ∀ t, e.1 = Some t → len t ≤ e.2.
Proof.
  intros Ho Hd. unfold extractChapter. destruct (Open_ f) as [rc|]; [|simpl; split; [lia | done]].
  set (lim := if maxD <? maxOut then maxD else maxOut).
  assert (Hl : lim = Z.min maxOut maxD) by (unfold lim; destruct (Z.ltb_spec maxD maxOut); lia).
  pose proof (extractHTMLText_bounds (limit lim rc) maxOut) as Hb. rewrite len_limit in Hb by lia.
  pose proof (len_nonneg (content rc)). destruct Hb as [Hb1 Hb2]. split; [lia | done].
Qed.
(** What an archive makes the node decompress, and the text of the book. *)
Lemma epub_chapters_bounds fs combined budget :
  0 ≤ budget → len combined ≤ maxDocTextBytes + 2 →
  let e := epub_chapters fs combined budget in len e.1 ≤ maxDocTextBytes + 2 ∧ 0 ≤ e.2 ≤ budget.
Proof.
  revert combined budget. induction fs as [|f fs IH]; intros combined budget Hb Hc; cbn [epub_chapters]; [simpl; lia |].
  destruct (Z.leb_spec (maxDocTextBytes - len combined) 0); [simpl; lia |].
  destruct (Z.leb_spec budget 0); [simpl; lia |]. pose proof (len_nonneg combined).
  destruct (extractChapter_bounds f (maxDocTextBytes - len combined) budget) as [Hn Ht]; [lia.. |].
  destruct (extractChapter f _ budget) as [[t|] n]; cbn [fst snd] in *.
  - specialize (Ht _ eq_refl). set (c := if _ <? _ then _ else _).
    assert (len c ≤ len combined + 2) by (unfold c; destruct (_ <? _); rewrite ?len_app, ?len_cons, ?len_nil; lia).
    destruct (IH (c ++ t) (budget - n)) as [Hi1 Hi2]; [lia | rewrite len_app; lia |]. lia.
  - destruct (IH combined (budget - n)) as [Hi1 Hi2]; lia.
Qed.
Lemma epub_of sorted r m : chunks_of (maxDocTextBytes + 2) (epub_Extract sorted r m).
Proof.
  apply with_input_of. intros buf _. destruct (zip_entries buf) as [es|]; [|done]. cbv zeta. destruct (bool_decide _); [done |].
  apply chunk_text_of.
  by edestruct (epub_chapters_bounds (sorted (List.filter (λ e, isXHTMLChapter (Name e)) es)) [] maxEpubTotalDecompress) as [He _].
Qed.
End epub_bounds.

Lemma bounded_text_len m ps out : 0 ≤ m → len out ≤ m → len (bounded_text m ps out) ≤ m.
Proof.
  intros Hm. revert out. induction ps as [|p ps IH]; intros out Ho; cbn [bounded_text]; [done |].
  destruct (Z.leb_spec m (len out)); [done |]. destruct (pageContentExceeds p m); [by apply IH |].
  case_bool_decide; [by apply IH |]. apply IH. rewrite len_app.
  destruct (Z.ltb_spec (m - len out) (len (pageText p))); [rewrite len_take by lia |]; lia.
Qed.
Lemma pdf_of `{PdfReader} r m : chunks_of (clampInput m) (pdf_Extract r m).
Proof.
  apply with_input_of. intros buf Hb. destruct (pdf_pages buf) as [ps|]; [|done].
  apply chunk_text_of, bounded_text_len; [lia | rewrite len_nil; lia].
Qed.
(** A page is read exactly when its streams together are within the cap. *)
Lemma streams_exceed_spec cap total ss :
  Forall (λ s, 0 ≤ s) ss → total ≤ cap → streams_exceed cap total ss = (cap <? total + foldr Z.add 0 ss).
Proof.
  intros Hs. revert total. induction Hs as [|s ss H0 Hs IH]; intros total Ht; cbn [streams_exceed foldr].
  { symmetry. apply Z.ltb_ge. lia. }
  assert (0 ≤ foldr Z.add 0 ss) by (clear IH; induction Hs; simpl; lia).
  destruct (Z.ltb_spec cap (total + Z.min s (cap - total + 1))).
  - symmetry. apply Z.ltb_lt. lia.
  - rewrite IH by lia. f_equal. lia.
Qed.
End Documents.
