(* ===== verification/Subtitle.v ===== *)
(** * Subtitles (internal/indexer/extractors/subtitle.go)

    The dialog of an SRT or WebVTT file, without its timing and markup.  The
    regular expressions are written out as the matchers they denote; the scanner
    is [bufio.Scanner] over lines. *)

From S2P Require Import Prelude GoInt Chunker HtmlText.
Open Scope Z_scope.

Module Subtitle.
Import HtmlText.

Definition subtitleMaxInputBytes : Z := 16 * 1024 * 1024.
(** The longest line the scanner's buffer holds, its newline included. *)
Definition maxTokenSize : Z := 1024 * 1024.

(** ** The expressions *)
Definition digit (c : byte) : bool := (48 <=? b2z c) && (b2z c <=? 57).
Definition re_space (c : byte) : bool := bool_decide (c ∈ [x09; x0a; x0c; x0d; x20]).
(** [\d{n}], a byte of [cs], [\s*]. *)
Fixpoint digits (n : nat) (s : bytes) : option bytes :=
  match n, s with
  | O, _ => Some s
  | S n, c :: s => if digit c then digits n s else None
  | S _, [] => None
  end.
Definition one_of (cs : bytes) (s : bytes) : option bytes :=
  match s with c :: s => if bool_decide (c ∈ cs) then Some s else None | [] => None end.
Fixpoint skip_spaces (s : bytes) : bytes :=
  match s with c :: s' => if re_space c then skip_spaces s' else s | [] => [] end.
(** [\d{1,2}:\d{2}:\d{2}[,.]\d{3}]: a second digit, if there, is taken, and a colon
    follows either way. *)
Definition clock (s : bytes) : option bytes :=
  s ← digits 1 s;
  s ← one_of (str ":") (default s (digits 1 s));
  s ← digits 2 s; s ← one_of (str ":") s;
  s ← digits 2 s; s ← one_of (str ",.") s;
  digits 3 s.
Definition arrow (s : bytes) : option bytes :=
  s ← one_of (str "-") s; s ← one_of (str "-") s; one_of (str ">") s.
Definition srtTimecode (s : bytes) : bool :=
  bool_decide (is_Some (s ← clock s; s ← arrow (skip_spaces s); clock (skip_spaces s))).

(** What follows the first [c]. *)
Fixpoint after (c : byte) (s : bytes) : option bytes :=
  match s with [] => None | d :: s => if bool_decide (d = c) then Some s else after c s end.
(** Removing [<[^>]+>]: from a [<], at least one byte up to the next [>]. *)
Fixpoint strip_html (fuel : nat) (s : bytes) : bytes :=
  match fuel with
  | O => s
  | S fuel =>
    match s with
    | [] => []
    | c :: s' =>
      if bool_decide (c = x3c) then
        match s' with
        | [] => s
        | d :: _ =>
          if bool_decide (d = x3e) then c :: strip_html fuel s'
          else match after x3e s' with
          | Some rest => strip_html fuel rest
          | None => c :: strip_html fuel s'
          end
        end
      else c :: strip_html fuel s'
    end
  end.
Definition htmlTag (s : bytes) : bytes := strip_html (length s) s.
(** Removing [\{[^}]*\}]. *)
Fixpoint strip_ass (fuel : nat) (s : bytes) : bytes :=
  match fuel with
  | O => s
  | S fuel =>
    match s with
    | [] => []
    | c :: s' =>
      if bool_decide (c = x7b) then
        match after x7d s' with
        | Some rest => strip_ass fuel rest
        | None => c :: strip_ass fuel s'
        end
      else c :: strip_ass fuel s'
    end
  end.
Definition assTag (s : bytes) : bytes := strip_ass (length s) s.

(** ** Lines *)
Fixpoint trim_cr (s : bytes) : bytes :=
  match s with
  | [] => []
  | c :: s => match trim_cr s with [] => if bool_decide (c = x0d) then [] else [c] | s => c :: s end
  end.
Fixpoint trim_lf (s : bytes) : bytes :=
  match s with
  | [] => []
  | [c] => if bool_decide (c = x0a) then [] else [c]
  | c :: s => c :: trim_lf s
  end.
(** The lines up to the first too long for the buffer, and whether there is one;
    the end of the stream is not reported together with its last bytes. *)
Fixpoint scan (ls : list bytes) : list bytes * bool :=
  match ls with
  | [] => ([], false)
  | l :: ls =>
    if maxTokenSize <=? len (trim_lf l) then ([], true)
    else let '(out, long) := scan ls in (trim_cr (trim_lf l) :: out, long)
  end.

(** ** Dialog *)
(** The output, and whether the output guard ended the loop. *)
Fixpoint dialog (maxBytes : Z) (ls : list bytes) (inCue : bool) (out : bytes) : bytes * bool :=
  match ls with
  | [] => (out, false)
  | line :: ls =>
    if srtTimecode line then dialog maxBytes ls true out
    else if negb inCue then dialog maxBytes ls inCue out
    else if bool_decide (line = []) then dialog maxBytes ls false (out ++ [x0a])
    else
      let clean := TrimSpace (assTag (htmlTag line)) in
      if bool_decide (clean = []) then dialog maxBytes ls inCue out
      else
        let out := out ++ clean ++ [x0a] in
        if maxBytes <? len out then (out, true) else dialog maxBytes ls inCue out
  end.
Inductive error : Type := ErrTooLong | ErrReader.
Definition Extract (r : stream) (maxBytes : Z) : result error (list Chunker.Chunk) :=
  let maxBytes := if maxBytes <=? 0 then subtitleMaxInputBytes else maxBytes in
  let r := limit maxBytes r in
  let '(ls, long) := scan (Chunker.lines (content r)) in
  let '(out, guarded) := dialog maxBytes ls false [] in
  if negb guarded && long then Err ErrTooLong
  else if negb guarded && fails r then Err ErrReader
  else
    let text := TrimSpace out in
    if bool_decide (text = []) then Ok [] else Ok [{| Chunker.Text := text; Chunker.Offset := 0 |}].

(** ** Nothing is added to what was read *)
Lemma len_after c s r : after c s = Some r → len r < len s.
Proof.
  revert r. induction s as [|d s IH]; [done |]. intros r. cbn [after]. rewrite len_cons.
  case_bool_decide; [intros [= <-]; lia |]. intros Hr. apply IH in Hr. lia.
Qed.
Lemma len_strip_html fuel s : len (strip_html fuel s) ≤ len s.
Proof.
  revert s. induction fuel as [|fuel IH]; intros s; cbn [strip_html]; [lia |]. destruct s as [|c s]; [lia |].
  assert (Hc : ∀ c : byte, len (c :: strip_html fuel s) ≤ len (c :: s)) by (intros; rewrite !len_cons; pose proof (IH s); lia).
  case_bool_decide; [|done]. destruct s as [|d s]; [lia |]. case_bool_decide; [done |].
  destruct (after x3e (d :: s)) as [r|] eqn:E; [|done]. pose proof (len_after _ _ _ E). pose proof (IH r). rewrite (len_cons c). lia.
Qed.
Lemma len_strip_ass fuel s : len (strip_ass fuel s) ≤ len s.
Proof.
  revert s. induction fuel as [|fuel IH]; intros s; cbn [strip_ass]; [lia |]. destruct s as [|c s]; [lia |].
  assert (Hc : ∀ c : byte, len (c :: strip_ass fuel s) ≤ len (c :: s)) by (intros; rewrite !len_cons; pose proof (IH s); lia).
  case_bool_decide; [|done]. destruct (after x7d s) as [r|] eqn:E; [|done].
  pose proof (len_after _ _ _ E). pose proof (IH r). rewrite len_cons. lia.
Qed.
Lemma len_clean line : len (TrimSpace (assTag (htmlTag line))) ≤ len line.
Proof.
  pose proof (len_TrimSpace (assTag (htmlTag line))). pose proof (len_strip_ass (length (htmlTag line)) (htmlTag line)).
  pose proof (len_strip_html (length line) line). unfold assTag, htmlTag in *. lia.
Qed.
Lemma len_trim_cr s : len (trim_cr s) ≤ len s.
Proof.
  induction s as [|c s IH]; [done |]. cbn [trim_cr]. rewrite len_cons.
  destruct (trim_cr s) as [|d t]; [case_bool_decide|]; rewrite ?len_cons, ?len_nil in *; pose proof (len_nonneg s); lia.
Qed.
Lemma trim_lf_line s : s = trim_lf s ∨ s = trim_lf s ++ [x0a].
Proof.
  induction s as [|c s IH]; [by left |]. destruct s as [|d s].
  - cbn. case_bool_decide; [right | left]; by subst.
  - change (trim_lf (c :: d :: s)) with (c :: trim_lf (d :: s)). destruct IH as [IH|IH]; [left | right]; cbn [app]; congruence.
Qed.
(** The bytes of some lines, each with its newline. *)
Definition spent (ls : list bytes) : Z := foldr Z.add 0 ((λ l, len l + 1) <$> ls).
Lemma spent_cons l ls : spent (l :: ls) = len l + 1 + spent ls.
Proof. done. Qed.
Lemma spent_nonneg ls : 0 ≤ spent ls.
Proof. induction ls as [|l ls IH]; [done |]. rewrite spent_cons. pose proof (len_nonneg l). lia. Qed.
Lemma lines_spent s : spent (trim_lf <$> Chunker.lines s) ≤ len s + 1.
Proof.
  induction s as [|c s IH]; [done |]. cbn [Chunker.lines]. rewrite len_cons.
  pose proof (Chunker.lines_nonempty s) as Hne. case_bool_decide as E.
  - rewrite fmap_cons, spent_cons. subst c. change (len (trim_lf [Chunker.LF])) with 0. lia.
  - destruct (Chunker.lines s) as [|l ls].
    + cbn [fmap list_fmap]. rewrite spent_cons. cbn [trim_lf]. case_bool_decide; [done |]. rewrite len_cons, len_nil.
      change (spent []) with 0. pose proof (len_nonneg s). lia.
    + apply Forall_inv in Hne. destruct l as [|d l]; [done |]. rewrite !fmap_cons, !spent_cons in *.
      change (trim_lf (c :: d :: l)) with (c :: trim_lf (d :: l)). rewrite len_cons. lia.
Qed.
Lemma scan_spent ls : spent (scan ls).1 ≤ spent (trim_lf <$> ls).
Proof.
  induction ls as [|l ls IH]; [done |]. cbn [scan]. rewrite fmap_cons, spent_cons.
  pose proof (spent_nonneg (trim_lf <$> ls)). pose proof (len_nonneg (trim_lf l)). destruct (_ <=? _); [cbn [fst]; change (spent []) with 0; lia |].
  destruct (scan ls) as [out long]. cbn [fst] in *. rewrite spent_cons. pose proof (len_trim_cr (trim_lf l)). lia.
Qed.

(** The guard on the output never fires: the timing of a cue is longer than the
    newline that the last line may lack. *)
Lemma dialog_len maxBytes ls inCue out used :
  (inCue = false ∧ out = [] ∧ 0 ≤ used) ∨ len out + 2 ≤ used → used + spent ls ≤ maxBytes + 1 →
  (dialog maxBytes ls inCue out).2 = false ∧
  (len (dialog maxBytes ls inCue out).1 + 2 ≤ used + spent ls ∨ (dialog maxBytes ls inCue out).1 = []).
Proof.
  revert inCue out used. induction ls as [|line ls IH]; intros inCue out used Hi Hm; cbn [dialog].
  { change (spent []) with 0. cbn. split; [done |]. destruct Hi as [(_ & -> & _)|Hi]; [by right | left; lia]. }
  rewrite spent_cons in *. pose proof (len_nonneg line). pose proof (len_nonneg out).
  destruct (srtTimecode line) eqn:Et.
  { destruct (IH true out (used + (len line + 1))) as [Hg2 Ho2]; [|lia |split; [done |destruct Ho2; [left; lia | by right]]].
    right. destruct line as [|c line]; [done |]. rewrite len_cons in *. pose proof (len_nonneg line).
    destruct Hi as [(_ & -> & Hu)|Hi]; [rewrite len_nil; lia | lia]. }
  destruct inCue; cbn [negb].
  2:{ destruct (IH false out (used + (len line + 1))) as [Hg2 Ho2]; [|lia |split; [done |destruct Ho2; [left; lia | by right]]].
      destruct Hi as [(_ & -> & Hu)|Hi]; [left; repeat split; lia | right; lia]. }
  destruct Hi as [[? _]|Hi]; [done |]. case_bool_decide as El.
  { destruct (IH false (out ++ [x0a]) (used + (len line + 1))) as [Hg2 Ho2]; [|lia |split; [done |destruct Ho2; [left; lia | by right]]].
    right. rewrite len_app, len_cons, len_nil. lia. }
  pose proof (len_clean line) as Hc. set (clean := TrimSpace _) in *. case_bool_decide.
  { destruct (IH true out (used + (len line + 1))) as [Hg2 Ho2]; [right; lia | lia |split; [done |destruct Ho2; [left; lia | by right]]]. }
  assert (Hl : len (out ++ clean ++ [x0a]) = len out + len clean + 1) by (rewrite !len_app, len_cons, len_nil; lia).
  pose proof (spent_nonneg ls). rewrite (proj2 (Z.ltb_ge maxBytes _)) by lia.
  destruct (IH true (out ++ clean ++ [x0a]) (used + (len line + 1))) as [Hg2 Ho2]; [right; lia | lia |split; [done |destruct Ho2; [left; lia | by right]]].
Qed.
Lemma Extract_bounds r maxBytes cs :
  Extract r maxBytes = Ok cs →
  cs = [] ∨ ∃ t, cs = [{| Chunker.Text := t; Chunker.Offset := 0 |}] ∧ t ≠ [] ∧
    len t ≤ Z.min (len (content r)) (if maxBytes <=? 0 then subtitleMaxInputBytes else maxBytes).
Proof.
  unfold Extract. set (m := if maxBytes <=? 0 then _ else _).
  assert (Hm : 0 < m) by (unfold m, subtitleMaxInputBytes; destruct (Z.leb_spec maxBytes 0); lia).
  pose proof (scan_spent (Chunker.lines (content (limit m r)))) as Hs. pose proof (lines_spent (content (limit m r))) as Hl.
  rewrite len_limit in Hl by lia. destruct (scan _) as [ls long]. cbn [fst] in Hs.
  destruct (dialog_len m ls false [] 0) as [Hg Ho]; [by left | lia |].
  destruct (dialog m ls false []) as [out guarded]. cbn [fst snd] in *. subst guarded. cbn [negb andb].
  destruct long; [done |]. destruct (fails _); [done |].
  case_bool_decide as Et; intros [= <-]; [by left | right]. eexists. split; [done |]. split; [done |].
  pose proof (len_TrimSpace out). pose proof (spent_nonneg ls). pose proof (len_nonneg (content r)).
  destruct Ho as [Ho| ->]; [lia | by destruct Et].
Qed.

(** ** Cues

    The loop without its guard. *)
Fixpoint spoken (ls : list bytes) (inCue : bool) (out : bytes) : bytes :=
  match ls with
  | [] => out
  | line :: ls =>
    if srtTimecode line then spoken ls true out
    else if negb inCue then spoken ls inCue out
    else if bool_decide (line = []) then spoken ls false (out ++ [x0a])
    else
      let clean := TrimSpace (assTag (htmlTag line)) in
      spoken ls inCue (if bool_decide (clean = []) then out else out ++ clean ++ [x0a])
  end.
Lemma dialog_spoken m ls inCue out :
  (dialog m ls inCue out).2 = false → (dialog m ls inCue out).1 = spoken ls inCue out.
Proof.
  revert inCue out. induction ls as [|line ls IH]; intros inCue out; cbn [dialog spoken]; [done |].
  repeat (case_match; try done); auto.
Qed.

(** A cue: a label, the line with its timing, lines of dialog; an empty line ends it. *)
Record cue := { label : bytes; timing : bytes; said : list bytes }.
Definition cue_lines (c : cue) : list bytes := label c :: timing c :: said c ++ [[]].
Definition print_cue (c : cue) : bytes := cue_lines c ≫= λ l, l ++ [x0a].
Definition cue_text (c : cue) : bytes := (said c ≫= λ l, l ++ [x0a]) ++ [x0a].
(** A line of dialog without markup. *)
Record plain_line (l : bytes) : Prop := {
  plain_tag : x3c ∉ l; plain_ass : x7b ∉ l; plain_trim : TrimSpace l = l; plain_some : l ≠ [];
  plain_time : srtTimecode l = false
}.
Record plain_cue (c : cue) : Prop := {
  cue_clean : Forall (λ l, (x0a ∉ l) ∧ (x0d ∉ l) ∧ len l < maxTokenSize) (cue_lines c);
  cue_label : srtTimecode (label c) = false;
  cue_timing : srtTimecode (timing c) = true;
  cue_said : Forall plain_line (said c)
}.

Lemma htmlTag_plain s : x3c ∉ s → htmlTag s = s.
Proof.
  unfold htmlTag. induction s as [|c s IH]; [done |]. intros [Hc Hs]%not_elem_of_cons. cbn [length strip_html].
  rewrite bool_decide_eq_false_2 by auto. f_equal. auto.
Qed.
Lemma assTag_plain s : x7b ∉ s → assTag s = s.
Proof.
  unfold assTag. induction s as [|c s IH]; [done |]. intros [Hc Hs]%not_elem_of_cons. cbn [length strip_ass].
  rewrite bool_decide_eq_false_2 by auto. f_equal. auto.
Qed.
Lemma trim_cr_plain s : x0d ∉ s → trim_cr s = s.
Proof.
  induction s as [|c s IH]; [done |]. intros [Hc Hs]%not_elem_of_cons. cbn [trim_cr]. rewrite IH by done.
  destruct s; [|done]. by rewrite bool_decide_eq_false_2 by auto.
Qed.
Lemma trim_lf_snoc s : trim_lf (s ++ [x0a]) = s.
Proof. induction s as [|c s IH]; [done |]. cbn [app]. destruct s as [|d s]; [done |]. cbn [app trim_lf] in *. by f_equal. Qed.
Lemma lines_snoc l rest : x0a ∉ l → Chunker.lines (l ++ [x0a] ++ rest) = (l ++ [x0a]) :: Chunker.lines rest.
Proof.
  induction l as [|c l IH]; [done |]. intros [Hc Hl]%not_elem_of_cons. cbn [app Chunker.lines].
  rewrite bool_decide_eq_false_2 by (unfold Chunker.LF; auto). cbn [app] in IH. by rewrite IH.
Qed.
Lemma scan_printed ls :
  Forall (λ l, (x0a ∉ l) ∧ (x0d ∉ l) ∧ len l < maxTokenSize) ls →
  scan (Chunker.lines (ls ≫= λ l, l ++ [x0a])) = (ls, false).
Proof.
  induction 1 as [|l ls (Hn & Hr & Hl) Hls IH]; [done |]. cbn [mbind list_bind]. rewrite <-app_assoc, lines_snoc by done.
  cbn [scan]. rewrite trim_lf_snoc, (proj2 (Z.leb_gt _ _)) by done. fold (mbind (M := list) (λ l, l ++ [x0a]) ls).
  rewrite IH. by rewrite trim_cr_plain.
Qed.
Lemma spoken_said ls rest out :
  Forall plain_line ls → spoken (ls ++ rest) true out = spoken rest true (out ++ (ls ≫= λ l, l ++ [x0a])).
Proof.
  intros Hls. revert out. induction Hls as [|l ls [Ht Ha Htr Hne Htime] Hls IH]; intros out; [by rewrite app_nil_r |].
  cbn [app spoken mbind list_bind]. rewrite Htime, (bool_decide_eq_false_2 (l = [])) by done. cbn [negb].
  rewrite htmlTag_plain, assTag_plain, Htr, bool_decide_eq_false_2 by done.
  rewrite IH. f_equal. by rewrite !app_assoc.
Qed.
Lemma empty_no_timecode : srtTimecode [] = false.
Proof. done. Qed.
Lemma spoken_cues cs out :
  Forall plain_cue cs → spoken (cs ≫= cue_lines) false out = out ++ (cs ≫= cue_text).
Proof.
  intros Hcs. revert out. induction Hcs as [|c cs [Hc Hl Ht Hs] Hcs IH]; intros out; [by rewrite app_nil_r |].
  cbn [mbind list_bind]. unfold cue_lines at 1. cbn [app spoken]. rewrite Hl, Ht. cbn [negb].
  rewrite <-app_assoc, spoken_said by done. cbn [app spoken]. rewrite empty_no_timecode. cbn [negb].
  rewrite bool_decide_eq_true_2 by done. change (foldr (λ x a, cue_lines x ++ a) [] cs) with (cs ≫= cue_lines).
  rewrite IH. unfold cue_text at 2. by rewrite !app_assoc.
Qed.
(** What was written as cues is read as their dialog, one chunk. *)
Lemma Extract_cues cs maxBytes :
  Forall plain_cue cs → len (cs ≫= print_cue) ≤ (if maxBytes <=? 0 then subtitleMaxInputBytes else maxBytes) →
  Extract (of_bytes (cs ≫= print_cue)) maxBytes =
  let text := TrimSpace (cs ≫= cue_text) in
  Ok (if bool_decide (text = []) then [] else [{| Chunker.Text := text; Chunker.Offset := 0 |}]).
Proof.
  intros Hcs Hlen. unfold Extract. set (m := if maxBytes <=? 0 then _ else _) in *.
  assert (Hr : limit m (of_bytes (cs ≫= print_cue)) = of_bytes (cs ≫= print_cue)).
  { unfold limit, of_bytes. cbn [content fails]. f_equal. apply take_ge. unfold len in Hlen. lia. }
  rewrite Hr. cbn [content of_bytes fails].
  assert (Hp : (cs ≫= print_cue) = ((cs ≫= cue_lines) ≫= λ l, l ++ [x0a])).
  { clear. induction cs as [|c cs IH]; [done |]. cbn [mbind list_bind]. rewrite bind_app. f_equal. exact IH. }
  assert (Hall : Forall (λ l, (x0a ∉ l) ∧ (x0d ∉ l) ∧ len l < maxTokenSize) (cs ≫= cue_lines)).
  { clear Hlen m Hr Hp. induction Hcs as [|c cs [Hc _ _ _] Hcs IH]; [constructor |]. cbn [mbind list_bind]. by apply Forall_app. }
  pose proof (lines_spent (cs ≫= print_cue)) as Hl. pose proof (scan_spent (Chunker.lines (cs ≫= print_cue))) as Hs.
  assert (Hsc : scan (Chunker.lines (cs ≫= print_cue)) = (cs ≫= cue_lines, false)) by (by rewrite Hp, scan_printed).
  rewrite Hsc in *. cbn [fst] in Hs.
  destruct (dialog_len m (cs ≫= cue_lines) false [] 0) as [Hg _]; [by left | lia |].
  pose proof (dialog_spoken m _ _ _ Hg) as Hd. rewrite spoken_cues in Hd by done.
  destruct (dialog m _ false []) as [out g]. cbn [fst snd app] in *. subst. cbn [negb andb].
  by case_bool_decide.
Qed.
End Subtitle.
