(* ===== verification/Zim.v ===== *)
(** * ZIM archives (internal/indexer/extractors/zim.go)

    One file holds thousands of articles in compressed clusters; the extractor
    reads a few of them at random offsets, keeping the clusters it has unpacked
    in a bounded cache.  The file is a reader at offsets; zstd is a class. *)

From S2P Require Import Prelude GoInt Chunker HtmlText.
Open Scope Z_scope.

Module Zim.
Import HtmlText.

(** ** Parameters *)
(** [io.ReaderAt]: what a read of so many bytes at an offset yields, and whether
    it reports an error. *)
Definition readerAt : Type := Z → Z → bytes * bool.
(** A read without an error is complete, and no read is longer than asked for. *)
Definition reader_laws (ra : readerAt) : Prop :=
  ∀ off n, 0 ≤ n → len (ra off n).1 ≤ n ∧ ((ra off n).2 = false → len (ra off n).1 = n).
(** A read into a buffer of [n] bytes. *)
Definition ReadAt (ra : readerAt) (off n : Z) : option bytes :=
  let '(b, failed) := ra off n in if failed then None else Some b.

(** klauspost/compress, limited to [zimMaxClusterBytes]. *)
Class Zstd := DecodeAll : bytes → option bytes.

Definition zimMagic : Z := 0x44D495A.
Definition zimRedirectMime : Z := 0xFFFF.
Definition zimLinkTargetMime : Z := 0xFFFE.
Definition zimDeletedMime : Z := 0xFFFD.
Definition zimCompUncompressed : Z := 1.
Definition zimCompXZ : Z := 4.
Definition zimCompZstd : Z := 5.
Definition zimDefaultMaxArticles : Z := 5000.
Definition zimDefaultMaxBytes : Z := 32 * 1024 * 1024.
Definition zimMaxClusterBytes : Z := 64 * 1024 * 1024.
Definition zimMaxCacheBytes : Z := 128 * 1024 * 1024.
Definition zimMaxMimeListBytes : Z := 64 * 1024.

Class ZstdLaws `{Zstd} := zstd_bounded : ∀ b d, DecodeAll b = Some d → len d ≤ zimMaxClusterBytes.

Definition slice (a b : Z) (s : bytes) : bytes := take (Z.to_nat (b - a)) (drop (Z.to_nat a) s).
(** [binary.LittleEndian] at [a, b). *)
Definition le (a b : Z) (s : bytes) : Z := get_le (slice a b s).

Inductive error : Type :=
  | ErrHeader | ErrMagic (m : Z) | ErrMimeCap | ErrMimeEmpty | ErrMimeNone
  | ErrURLPtr | ErrDirEntry
  | ErrClusterRange (n count : Z) | ErrClusterPtr | ErrNextPtr | ErrClusterEnd (e s : Z) | ErrClusterSize (n : Z)
  | ErrClusterRead | ErrZstd | ErrXZ | ErrCompression (t : Z) | Panic
  | ErrNoType | ErrShortBody | ErrFirstOffset (o : Z) | ErrBlobRange (n max : Z) | ErrOffsetEntry
  | ErrBlobOffsets (s e : Z).

(** ** Header, MIME types, directory entries *)
Record zimHeader := {
  ArticleCount : Z; ClusterCount : Z; URLPtrPos : Z; ClusterPtrPos : Z; MimeListPos : Z; ChecksumPos : Z
}.
Definition readZimHeader (ra : readerAt) : result error zimHeader :=
  match ReadAt ra 0 80 with
  | None => Err ErrHeader
  | Some buf =>
    let magic := le 0 4 buf in
    if negb (magic =? zimMagic) then Err (ErrMagic magic)
    else Ok {|
      ArticleCount := le 24 28 buf; ClusterCount := le 28 32 buf; URLPtrPos := le 32 40 buf;
      ClusterPtrPos := le 48 56 buf; MimeListPos := le 56 64 buf; ChecksumPos := le 72 80 buf
    |}
  end.

(** [bytes.Index(_, {0, 0})]. *)
Fixpoint two_nuls (s : bytes) : option nat :=
  match s with
  | c :: (d :: _) as s' =>
    if bool_decide (c = x00) && bool_decide (d = x00) then Some O else S <$> two_nuls s'
  | _ => None
  end.
(** [bytes.Split(_, {0})], the empty parts left out. *)
Fixpoint nul_parts (s : bytes) (cur : bytes) : list bytes :=
  match s with
  | [] => if bool_decide (cur = []) then [] else [cur]
  | c :: s =>
    if bool_decide (c = x00) then (if bool_decide (cur = []) then [] else [cur]) ++ nul_parts s []
    else nul_parts s (cur ++ [c])
  end.
Fixpoint mime_bytes (fuel : nat) (ra : readerAt) (pos : Z) (all : bytes) : result error bytes :=
  match fuel with
  | O => Err ErrMimeCap
  | S fuel =>
    let '(b, failed) := ra pos 4096 in
    let all := all ++ b in
    match two_nuls all with
    | Some i => Ok (take (S i) all)
    | None =>
      if failed then Ok all
      else if zimMaxMimeListBytes <? len all then Err ErrMimeCap
      else mime_bytes fuel ra (i64 (pos + len b)) all
    end
  end.
(** Each round without an error adds 4096 bytes, so the cap ends the loop. *)
Definition mime_fuel : nat := 17.
Definition readZimMimeList (ra : readerAt) (off : Z) : result error (list bytes) :=
  all ← mime_bytes mime_fuel ra off [];
  if bool_decide (all = []) then Err ErrMimeEmpty
  else
    let mimes := nul_parts all [] in
    if bool_decide (mimes = []) then Err ErrMimeNone else Ok mimes.

Record zimDirEntry := { MimeIdx : Z; IsRedirect : bool; IsDeleted : bool; ClusterNum : Z; BlobNum : Z }.
Definition redirect_entry : zimDirEntry :=
  {| MimeIdx := 0; IsRedirect := true; IsDeleted := false; ClusterNum := 0; BlobNum := 0 |}.
Definition deleted_entry : zimDirEntry :=
  {| MimeIdx := 0; IsRedirect := false; IsDeleted := true; ClusterNum := 0; BlobNum := 0 |}.
Definition readZimDirEntry (ra : readerAt) (hdr : zimHeader) (i : Z) : result error zimDirEntry :=
  match ReadAt ra (i64 (i64 (URLPtrPos hdr) + i * 8)) 8 with
  | None => Err ErrURLPtr
  | Some ptr =>
    match ReadAt ra (i64 (get_le ptr)) 16 with
    | None => Err ErrDirEntry
    | Some h =>
      let mimeIdx := le 0 2 h in
      if (mimeIdx =? zimRedirectMime) || (mimeIdx =? zimLinkTargetMime) then Ok redirect_entry
      else if mimeIdx =? zimDeletedMime then Ok deleted_entry
      else Ok {| MimeIdx := mimeIdx; IsRedirect := false; IsDeleted := false;
                 ClusterNum := le 8 12 h; BlobNum := le 12 16 h |}
    end
  end.

(** ** Clusters *)
Definition cluster_end (ra : readerAt) (hdr : zimHeader) (num : Z) : result error Z :=
  if u32 (num + 1) <? ClusterCount hdr then
    match ReadAt ra (i64 (i64 (ClusterPtrPos hdr) + u32 (num + 1) * 8)) 8 with
    | None => Err ErrNextPtr
    | Some b => Ok (i64 (get_le b))
    end
  else Ok (i64 (ChecksumPos hdr)).
(** The type byte, then the unpacked body. *)
Definition unpack `{Zstd} (raw : bytes) : result error bytes :=
  match raw with
  | [] => Err ErrClusterRead
  | typeByte :: body =>
    let compType := Z.land (b2z typeByte) 0x0F in
    if compType =? zimCompUncompressed then Ok (typeByte :: body)
    else if compType =? zimCompZstd then
      match DecodeAll body with None => Err ErrZstd | Some d => Ok (typeByte :: d) end
    else if compType =? zimCompXZ then Err ErrXZ
    else Err (ErrCompression compType)
  end.
(** [make] panics on a negative size. *)
Definition readZimCluster `{Zstd} (ra : readerAt) (hdr : zimHeader) (num : Z) : result error bytes :=
  if ClusterCount hdr <=? num then Err (ErrClusterRange num (ClusterCount hdr))
  else
    match ReadAt ra (i64 (i64 (ClusterPtrPos hdr) + num * 8)) 8 with
    | None => Err ErrClusterPtr
    | Some b =>
      let start := i64 (get_le b) in
      end_ ← cluster_end ra hdr num;
      if end_ <=? start then Err (ErrClusterEnd end_ start)
      else
        let size := i64 (end_ - start) in
        if zimMaxClusterBytes <? size then Err (ErrClusterSize size)
        else if size <? 0 then Err Panic
        else match ReadAt ra start size with
        | None => Err ErrClusterRead
        | Some raw => unpack raw
        end
    end.

(** ** Blobs *)
Definition getZimBlob (cluster : bytes) (blobNum : Z) : result error bytes :=
  match cluster with
  | [] => Err ErrNoType
  | typeByte :: body =>
    let extended := negb (Z.land (b2z typeByte) 0x10 =? 0) in
    let offsetSize := if extended then 8 else 4 in
    if len body <? offsetSize then Err ErrShortBody
    else
      let firstOffset := le 0 offsetSize body in
      if (firstOffset =? 0) || negb (firstOffset mod offsetSize =? 0) then Err (ErrFirstOffset firstOffset)
      else
        let blobCount := firstOffset / offsetSize - 1 in
        if blobCount <=? blobNum then Err (ErrBlobRange blobNum blobCount)
        else
          let sIdx := blobNum * offsetSize in
          let eIdx := (blobNum + 1) * offsetSize in
          if len body <? eIdx + offsetSize then Err ErrOffsetEntry
          else
            let startOff := le sIdx (sIdx + offsetSize) body in
            let endOff := le eIdx (eIdx + offsetSize) body in
            if (endOff <? startOff) || (len body <? endOff) then Err (ErrBlobOffsets startOff endOff)
            else Ok (slice startOff endOff body)
  end.

Definition zimIsExtractableMime (m : bytes) : bool :=
  has_prefix m (str "text/html") || has_prefix m (str "application/xhtml") || has_prefix m (str "text/plain").
Definition zimDecodeArticle `{Tokenizer} (blob mime : bytes) : bytes :=
  if has_prefix mime (str "text/html") || has_prefix mime (str "application/xhtml")
  then default [] (extractHTMLText (of_bytes blob) maxDocTextBytes).1
  else TrimSpace blob.

(** ** The cache

    [ll]: front first; [items] finds an element by its key, which is in it once. *)
Record clusterLRU := { cap : Z; maxBytes : Z; curBytes : Z; ll : list (Z * bytes) }.
Definition newClusterLRU (capacity max : Z) : clusterLRU := {|
  cap := if capacity <? 1 then 1 else capacity; maxBytes := if max <? 1 then 1 else max; curBytes := 0; ll := []
|}.
Definition find_key (key : Z) (l : list (Z * bytes)) : option bytes :=
  snd <$> List.find (λ e, e.1 =? key) l.
Definition without (key : Z) (l : list (Z * bytes)) : list (Z * bytes) := List.filter (λ e, negb (e.1 =? key)) l.
Definition with_ll (b : Z) (l : list (Z * bytes)) (c : clusterLRU) : clusterLRU :=
  {| cap := cap c; maxBytes := maxBytes c; curBytes := b; ll := l |}.
Definition get (c : clusterLRU) (key : Z) : option (bytes * clusterLRU) :=
  match find_key key (ll c) with
  | Some data => Some (data, with_ll (curBytes c) ((key, data) :: without key (ll c)) c)
  | None => None
  end.
Definition over (c : clusterLRU) (b : Z) (l : list (Z * bytes)) (data : bytes) : bool :=
  (0 <? len l) && ((cap c <=? len l) || (maxBytes c <? b + len data)).
Fixpoint evict (fuel : nat) (data : bytes) (c : clusterLRU) : clusterLRU :=
  match fuel with
  | O => c
  | S fuel =>
    if over c (curBytes c) (ll c) data then
      match last (ll c) with
      | None => c
      | Some oldest =>
        evict fuel data (with_ll (curBytes c - len oldest.2) (take (pred (length (ll c))) (ll c)) c)
      end
    else c
  end.
Definition put (c : clusterLRU) (key : Z) (data : bytes) : clusterLRU :=
  match find_key key (ll c) with
  | Some old => with_ll (curBytes c + (len data - len old)) ((key, data) :: without key (ll c)) c
  | None =>
    let c := evict (length (ll c)) data c in
    with_ll (curBytes c + len data) ((key, data) :: ll c) c
  end.

(** ** Extraction *)
Section extract.
Context `{Zstd} `{Tokenizer} (ra : readerAt).
Definition cacheCap : Z := 32.
(** The cluster, through the cache. *)
Definition cluster_of (hdr : zimHeader) (c : clusterLRU) (num : Z) : result error bytes * clusterLRU :=
  match get c num with
  | Some (data, c) => (Ok data, c)
  | None =>
    match readZimCluster ra hdr num with
    | Ok data => (Ok data, put c num data)
    | Err e => (Err e, c)
    end
  end.
(** An article that is left out, its text, or a panic. *)
Inductive article : Type := Skipped | Text (t : bytes) | Panicked.
Definition article_text (cluster : result error bytes) (e : zimDirEntry) (mime : bytes) : article :=
  match cluster with
  | Err Panic => Panicked
  | Err _ => Skipped
  | Ok cluster =>
    match getZimBlob cluster (BlobNum e) with
    | Err _ => Skipped
    | Ok blob =>
      let t := zimDecodeArticle blob mime in
      if bool_decide (t = []) then Skipped else Text t
    end
  end.
(** The entry of an article, if its text is wanted. *)
Definition wanted (hdr : zimHeader) (mimes : list bytes) (i : Z) : option (zimDirEntry * bytes) :=
  match readZimDirEntry ra hdr i with
  | Err _ => None
  | Ok e =>
    if IsRedirect e || IsDeleted e then None
    else match mimes !! Z.to_nat (MimeIdx e) with
    | None => None
    | Some mime => if zimIsExtractableMime mime then Some (e, mime) else None
    end
  end.
(** [n]: the articles left, from [i] on.  The chunks, none if it panicked; and
    the cache at the end. *)
Fixpoint articles (n : nat) (hdr : zimHeader) (mimes : list bytes) (max i emitted : Z) (c : clusterLRU)
    : option (list Chunker.Chunk) * clusterLRU :=
  match n with
  | O => (Some [], c)
  | S n =>
    if max <=? emitted then (Some [], c)
    else match wanted hdr mimes i with
    | None => articles n hdr mimes max (i + 1) emitted c
    | Some (e, mime) =>
      let '(cluster, c) := cluster_of hdr c (ClusterNum e) in
      match article_text cluster e mime with
      | Panicked => (None, c)
      | Skipped => articles n hdr mimes max (i + 1) emitted c
      | Text t =>
        let '(r, c) := articles n hdr mimes max (i + 1) (emitted + len t) c in
        (cons {| Chunker.Text := t; Chunker.Offset := 0 |} <$> r, c)
      end
    end
  end.
Definition article_count (hdr : zimHeader) : Z :=
  if zimDefaultMaxArticles <? ArticleCount hdr then zimDefaultMaxArticles else ArticleCount hdr.
(** [None]: it panics. *)
Definition Extract (max : Z) : option (result error (list Chunker.Chunk)) :=
  let max := if max <=? 0 then zimDefaultMaxBytes else max in
  match readZimHeader ra with
  | Err e => Some (Err e)
  | Ok hdr =>
    match readZimMimeList ra (i64 (MimeListPos hdr)) with
    | Err e => Some (Err e)
    | Ok mimes =>
      Ok <$> (articles (Z.to_nat (article_count hdr)) hdr mimes max 0 0 (newClusterLRU cacheCap zimMaxCacheBytes)).1
    end
  end.
End extract.

(** ** The cache is bounded, and holds what it was given *)
Definition bytes_of (l : list (Z * bytes)) : Z := foldr Z.add 0 ((λ e, len e.2) <$> l).
(** [m]: no entry is longer. *)
Record lru_ok (m : Z) (c : clusterLRU) : Prop := {
  ok_keys : NoDup (ll c).*1;
  ok_bytes : curBytes c = bytes_of (ll c);
  ok_cap : 1 ≤ cap c ∧ len (ll c) ≤ cap c;
  ok_max : m ≤ maxBytes c ∧ curBytes c ≤ maxBytes c
}.
Definition same_bounds (c d : clusterLRU) : Prop := cap c = cap d ∧ maxBytes c = maxBytes d.

Lemma bytes_of_cons e l : bytes_of (e :: l) = len e.2 + bytes_of l.
Proof. done. Qed.
Lemma bytes_of_app a b : bytes_of (a ++ b) = bytes_of a + bytes_of b.
Proof. induction a as [|e a IH]; [done |]. cbn [app]. rewrite !bytes_of_cons. lia. Qed.
Lemma bytes_of_nonneg l : 0 ≤ bytes_of l.
Proof. induction l as [|e l IH]; [done |]. rewrite bytes_of_cons. pose proof (len_nonneg e.2). lia. Qed.

Lemma find_key_in key l d : find_key key l = Some d → (key, d) ∈ l.
Proof.
  unfold find_key. destruct (List.find _ l) as [[k e]|] eqn:E; [|done]. intros [= <-].
  apply List.find_some in E as [Hin Hk]. cbn in Hk. b2p. subst k. by apply list_elem_of_In.
Qed.
Lemma find_key_none key l : find_key key l = None → key ∉ l.*1.
Proof.
  unfold find_key. destruct (List.find _ l) eqn:E; [done |]. intros _ ([k e] & -> & Hin)%list_elem_of_fmap.
  apply list_elem_of_In, (List.find_none _ _ E) in Hin. cbn in Hin. b2p. lia.
Qed.
Lemma elem_without key l e : e ∈ without key l ↔ e ∈ l ∧ e.1 ≠ key.
Proof. unfold without. rewrite !list_elem_of_In, List.filter_In. rewrite negb_true_iff, Z.eqb_neq. done. Qed.
Lemma without_id key l : key ∉ l.*1 → without key l = l.
Proof.
  induction l as [|e l IH]; [done |]. cbn [without List.filter fmap list_fmap]. intros Hk%not_elem_of_cons.
  destruct Hk as [Hk Hl]. rewrite (proj2 (Z.eqb_neq e.1 key)) by auto. cbn [negb]. f_equal. by apply IH.
Qed.
Lemma bytes_of_without key l d :
  NoDup l.*1 → (key, d) ∈ l → bytes_of l = len d + bytes_of (without key l) ∧ len l = 1 + len (without key l).
Proof.
  induction l as [|e l IH]; [by intros _ ?%elem_of_nil |]. cbn [fmap list_fmap]. intros Hn Hin.
  apply NoDup_cons in Hn as [He Hn]. cbn [without List.filter]. apply elem_of_cons in Hin as [<-|Hin].
  - cbn in He. rewrite Z.eqb_refl. cbn [negb]. fold (without key l). rewrite without_id by done.
    by rewrite bytes_of_cons, len_cons.
  - assert (e.1 ≠ key) by (intros <-; apply He; apply list_elem_of_fmap; by exists (e.1, d)).
    rewrite (proj2 (Z.eqb_neq e.1 key)) by done. cbn [negb]. fold (without key l).
    destruct (IH Hn Hin). rewrite !bytes_of_cons, !len_cons. lia.
Qed.
Lemma without_keys key l : NoDup l.*1 → NoDup (without key l).*1 ∧ key ∉ (without key l).*1.
Proof.
  intros Hn. split.
  - unfold without. induction l as [|e l IH]; [done |]. cbn [List.filter fmap list_fmap] in *.
    apply NoDup_cons in Hn as [He Hn]. destruct (negb _); [|by apply IH]. cbn. apply NoDup_cons. split; [|by apply IH].
    intros (e' & Hk & Hin)%list_elem_of_fmap. apply He, list_elem_of_fmap. exists e'. split; [done |].
    apply elem_without in Hin. tauto.
  - intros (e & -> & Hin)%list_elem_of_fmap. apply elem_without in Hin. tauto.
Qed.

Lemma get_spec m c key :
  lru_ok m c →
  match get c key with
  | Some (d, c') => (key, d) ∈ ll c ∧ lru_ok m c' ∧ same_bounds c' c ∧ ∀ e, e ∈ ll c' ↔ e ∈ ll c
  | None => key ∉ (ll c).*1
  end.
Proof.
  intros [Hk Hb Hc Hm]. unfold get. destruct (find_key key (ll c)) as [d|] eqn:E; [|by apply find_key_none].
  apply find_key_in in E. destruct (bytes_of_without key (ll c) d Hk E) as [Hbw Hlw].
  destruct (without_keys key (ll c) Hk) as [Hnw Hkw]. split; [done |]. split; [|split; [done |]].
  - split; cbn [with_ll ll curBytes cap maxBytes].
    + cbn. apply NoDup_cons. done.
    + rewrite bytes_of_cons. cbn [snd]. lia.
    + rewrite len_cons. lia.
    + done.
  - intros e. cbn [with_ll ll]. rewrite elem_of_cons, elem_without. split.
    + intros [->|[He _]]; done.
    + intros He. destruct (decide (e.1 = key)) as [<-|Hne]; [left | by right].
      destruct e as [k d']. cbn in *. f_equal. apply (NoDup_fmap_eq fst (ll c)) with (x := (k, d')) (y := (k, d)) in Hk; [by injection Hk | done..].
Qed.

Lemma lru_evict_spec fuel data c :
  (length (ll c) ≤ fuel)%nat → NoDup (ll c).*1 → curBytes c = bytes_of (ll c) →
  let c' := evict fuel data c in
  same_bounds c' c ∧ ll c' `prefix_of` ll c ∧ curBytes c' = bytes_of (ll c') ∧
  (ll c' = [] ∨ len (ll c') < cap c ∧ curBytes c' + len data ≤ maxBytes c).
Proof.
  revert c. induction fuel as [|fuel IH]; intros c Hf Hn Hb; cbn [evict].
  - apply Nat.le_0_r, nil_length_inv in Hf. repeat split; auto.
  - destruct (over c (curBytes c) (ll c) data) eqn:Eo.
    + destruct (last (ll c)) as [e|] eqn:El.
      2:{ apply last_None in El. unfold over in Eo. rewrite El in Eo. done. }
      apply last_Some in El as [l El]. rewrite El in *. rewrite length_app in Hf |- *. cbn [length] in *.
      replace (pred (length l + 1)) with (length l) by lia. rewrite take_app_length.
      destruct (IH (with_ll (curBytes c - len e.2) l c)) as (Hs & Hp & Hb' & Hd); cbn [with_ll ll curBytes cap maxBytes] in *.
      * lia.
      * rewrite fmap_app in Hn. by apply NoDup_app in Hn as [? _].
      * rewrite Hb, bytes_of_app, bytes_of_cons. cbn [snd]. change (bytes_of []) with 0. lia.
      * split; [done |]. split; [by apply prefix_app_r | done].
    + split; [done |]. split; [done |]. split; [done |]. unfold over in Eo.
      destruct (ll c) as [|e l] eqn:E; [by left |]. right. rewrite len_cons in *. pose proof (len_nonneg l).
      apply andb_false_iff in Eo as [Eo|Eo]; b2p; lia.
Qed.

(** A new entry finds room, whatever has to leave. *)
Lemma put_spec m c key data :
  lru_ok m c → len data ≤ m → key ∉ (ll c).*1 →
  let c' := put c key data in
  lru_ok m c' ∧ same_bounds c' c ∧ ∀ e, e ∈ ll c' → e = (key, data) ∨ e ∈ ll c.
Proof.
  intros [Hk Hb Hc Hm] Hd Hkey. unfold put.
  destruct (find_key key (ll c)) as [d|] eqn:E.
  { apply find_key_in in E. destruct Hkey. apply list_elem_of_fmap. by exists (key, d). }
  destruct (lru_evict_spec (length (ll c)) data c) as (Hs & [r Hp] & Hb' & Hd'); [done.. |].
  set (c' := evict _ _ c) in *. destruct Hs as [Hs1 Hs2].
  assert (Hsub : ∀ e, e ∈ ll c' → e ∈ ll c) by (intros e He; rewrite Hp; apply elem_of_app; by left).
  split; [|split; [split; cbn; congruence |]].
  - split; cbn [with_ll ll curBytes cap maxBytes].
    + cbn. apply NoDup_cons. split; [|rewrite Hp, fmap_app in Hk; by apply NoDup_app in Hk as [? _]].
      intros (e & He & Hin)%list_elem_of_fmap. apply Hkey, list_elem_of_fmap. exists e. auto.
    + rewrite bytes_of_cons. cbn [snd]. lia.
    + rewrite Hs1, len_cons. destruct Hd' as [-> | Hd']; [rewrite len_nil; lia | lia].
    + rewrite Hs2. destruct Hd' as [Hl | Hd']; [|lia]. rewrite Hl in Hb'. change (bytes_of []) with 0 in Hb'. lia.
  - intros e. cbn [with_ll ll]. rewrite elem_of_cons. naive_solver.
Qed.

(** ** Extraction, with every cluster read anew *)
Section reference.
Context `{Zstd} `{Tokenizer} (ra : readerAt).
Fixpoint collect (n : nat) (hdr : zimHeader) (mimes : list bytes) (max i emitted : Z) : option (list Chunker.Chunk) :=
  match n with
  | O => Some []
  | S n =>
    if max <=? emitted then Some []
    else match wanted ra hdr mimes i with
    | None => collect n hdr mimes max (i + 1) emitted
    | Some (e, mime) =>
      match article_text (readZimCluster ra hdr (ClusterNum e)) e mime with
      | Panicked => None
      | Skipped => collect n hdr mimes max (i + 1) emitted
      | Text t =>
        cons {| Chunker.Text := t; Chunker.Offset := 0 |} <$> collect n hdr mimes max (i + 1) (emitted + len t)
      end
    end
  end.
Definition collect_file (max : Z) : option (result error (list Chunker.Chunk)) :=
  let max := if max <=? 0 then zimDefaultMaxBytes else max in
  match readZimHeader ra with
  | Err e => Some (Err e)
  | Ok hdr =>
    match readZimMimeList ra (i64 (MimeListPos hdr)) with
    | Err e => Some (Err e)
    | Ok mimes => Ok <$> collect (Z.to_nat (article_count hdr)) hdr mimes max 0 0
    end
  end.
End reference.

Lemma ReadAt_len ra off n b : reader_laws ra → 0 ≤ n → ReadAt ra off n = Some b → len b = n.
Proof.
  intros Hl Hn. unfold ReadAt. pose proof (Hl off n Hn) as [_ Hr]. destruct (ra off n) as [c []]; [done |].
  intros [= <-]. by apply Hr.
Qed.

Section cached.
Context `{ZstdLaws} `{Tokenizer} (ra : readerAt) (Hra : reader_laws ra).
Definition longest : Z := zimMaxClusterBytes + 1.

Lemma readZimCluster_len hdr num d : readZimCluster ra hdr num = Ok d → len d ≤ longest.
Proof.
  unfold readZimCluster, longest. destruct (_ <=? num); [done |]. destruct (ReadAt ra _ 8) as [b|]; [|done].
  intros (e & _ & Hd)%bind_ok_inv. destruct (e <=? _); [done |]. set (size := i64 _) in *.
  destruct (Z.ltb_spec zimMaxClusterBytes size); [done |]. destruct (Z.ltb_spec size 0); [done |].
  destruct (ReadAt ra _ size) as [raw|] eqn:Er; [|done]. apply ReadAt_len in Er; [|done..].
  destruct raw as [|t body]; [done |]. cbn [unpack] in Hd. rewrite len_cons in Er.
  repeat (case_match; try done); simplify_eq; rewrite len_cons; [lia |].
  pose proof (zstd_bounded body l). naive_solver lia.
Qed.

Definition cached (hdr : zimHeader) (c : clusterLRU) : Prop :=
  ∀ num d, (num, d) ∈ ll c → readZimCluster ra hdr num = Ok d.
(** The cache of an extraction, at every moment. *)
Definition cache_ok (hdr : zimHeader) (c : clusterLRU) : Prop :=
  lru_ok longest c ∧ same_bounds c (newClusterLRU cacheCap zimMaxCacheBytes) ∧ cached hdr c.

Lemma cache_start hdr : cache_ok hdr (newClusterLRU cacheCap zimMaxCacheBytes).
Proof. split; [|split; [done | by intros num d ?%elem_of_nil]]. by split; [apply NoDup_nil_2 | | |]. Qed.
Lemma cluster_of_spec hdr c num :
  cache_ok hdr c →
  (cluster_of ra hdr c num).1 = readZimCluster ra hdr num ∧ cache_ok hdr (cluster_of ra hdr c num).2.
Proof.
  intros (Hok & [Hs1 Hs2] & Hc). unfold cluster_of. pose proof (get_spec longest c num Hok) as Hg.
  destruct (get c num) as [[d c']|].
  - destruct Hg as (Hin & Hok' & [Hs1' Hs2'] & Heq). split; [symmetry; by apply Hc |].
    cbn [snd]. split; [done |]. split; [by split; [rewrite Hs1' | rewrite Hs2'] |].
    intros num' d' Hin'. apply Hc. by apply Heq.
  - destruct (readZimCluster ra hdr num) as [d|e] eqn:E; [|done]. cbn [fst snd]. split; [done |].
    destruct (put_spec longest c num d Hok) as (Hok' & [Hs1' Hs2'] & Hin); [by eapply readZimCluster_len | done |].
    split; [done |]. split; [by split; [rewrite Hs1' | rewrite Hs2'] |]. intros num' d' [[= -> ->]|Hin']%Hin; [done | by apply Hc].
Qed.
Lemma articles_collect n hdr mimes max i emitted c :
  cache_ok hdr c →
  (articles ra n hdr mimes max i emitted c).1 = collect ra n hdr mimes max i emitted ∧
  cache_ok hdr (articles ra n hdr mimes max i emitted c).2.
Proof.
  revert i emitted c. induction n as [|n IH]; intros i emitted c Hc; cbn [articles collect]; [done |].
  destruct (max <=? emitted); [done |]. destruct (wanted ra hdr mimes i) as [[e mime]|]; [|by apply IH].
  destruct (cluster_of_spec hdr c (ClusterNum e) Hc) as [Hr Hc'].
  destruct (cluster_of ra hdr c (ClusterNum e)) as [cluster c']. cbn [fst snd] in *. rewrite <-Hr.
  destruct (article_text cluster e mime) as [|t|]; [by apply IH | | done].
  destruct (IH (i + 1) (emitted + len t) c' Hc') as [Hi Hi'].
  destruct (articles ra n hdr mimes max (i + 1) (emitted + len t) c') as [r c'']. cbn [fst snd] in *. by rewrite Hi.
Qed.

(** *** Bounds on the output, and panics *)
Lemma collect_bounds n hdr mimes max i emitted cs :
  collect ra n hdr mimes max i emitted = Some cs →
  (length cs ≤ n)%nat ∧ ∀ pre c post, cs = pre ++ c :: post → emitted + len (Chunker.texts pre) < max ∧ Chunker.Text c ≠ [].
Proof.
  revert i emitted cs. induction n as [|n IH]; intros i emitted cs; cbn [collect].
  { intros [= <-]. split; [done |]. by intros [] ? ?. }
  destruct (Z.leb_spec max emitted).
  { intros [= <-]. split; [simpl; lia |]. by intros [] ? ?. }
  destruct (wanted ra hdr mimes i) as [[e mime]|]; [|intros Hi; apply IH in Hi as [Hl Hp]; split; [lia | done]].
  destruct (article_text _ e mime) as [|t|] eqn:E; [intros Hi; apply IH in Hi as [Hl Hp]; split; [lia | done] | | done].
  intros (cs' & Hi & ->)%fmap_Some. apply IH in Hi as [Hl Hp]. split; [simpl; lia |].
  assert (Ht : t ≠ []).
  { unfold article_text in E. repeat (case_match; try done). simplify_eq. by b2p. }
  intros [|c0 pre] c post Heq; simplify_eq/=.
  - split; [change (Chunker.texts []) with (@nil byte); rewrite len_nil; lia | done].
  - destruct (Hp pre c post eq_refl) as [Hpre Hc]. split; [|done].
    change (Chunker.texts (_ :: pre)) with (t ++ Chunker.texts pre). rewrite len_app. lia.
Qed.
Lemma getZimBlob_len cluster k b : getZimBlob cluster k = Ok b → len b ≤ len cluster.
Proof.
  unfold getZimBlob. destruct cluster as [|t body]; [done |]. intros Hb. rewrite len_cons.
  repeat match type of Hb with (if ?c then Err _ else _) = _ => destruct c; [done |] end.
  injection Hb as <-. unfold slice, len. rewrite length_take, length_drop. lia.
Qed.
Lemma zimDecodeArticle_len `{!TokenizerLaws} blob mime : len (zimDecodeArticle blob mime) ≤ len blob.
Proof.
  unfold zimDecodeArticle. pose proof (len_nonneg blob). destruct (_ || _); [|apply len_TrimSpace].
  destruct (extractHTMLText_bounds (of_bytes blob) maxDocTextBytes) as [Hn Ht].
  destruct (extractHTMLText _ _).1 as [t|]; [|done]. specialize (Ht t eq_refl).
  change (content (of_bytes blob)) with blob in Hn. change (default [] (Some t)) with t. lia.
Qed.
Lemma collect_text_len `{!TokenizerLaws} n hdr mimes max i emitted cs :
  collect ra n hdr mimes max i emitted = Some cs → Forall (λ c, len (Chunker.Text c) ≤ longest) cs.
Proof.
  revert i emitted cs. induction n as [|n IH]; intros i emitted cs; cbn [collect]; [intros [= <-]; constructor |].
  destruct (max <=? emitted); [intros [= <-]; constructor |].
  destruct (wanted ra hdr mimes i) as [[e mime]|]; [|apply IH].
  destruct (article_text _ e mime) as [|t|] eqn:E; [apply IH | | done].
  intros (cs' & Hi & ->)%fmap_Some. constructor; [|by eapply IH]. cbn [Chunker.Text].
  unfold article_text in E. destruct (readZimCluster ra hdr _) as [d|[]] eqn:Er; try done.
  destruct (getZimBlob d _) as [b|] eqn:Eb; [|done]. case_bool_decide; [done |]. injection E as <-.
  apply readZimCluster_len in Er. apply getZimBlob_len in Eb. pose proof (zimDecodeArticle_len b mime). lia.
Qed.
(** The text of an extraction passes the limit by an article at most. *)
Lemma collect_total `{!TokenizerLaws} n hdr mimes max i cs :
  0 ≤ max → collect ra n hdr mimes max i 0 = Some cs → len (Chunker.texts cs) ≤ max + longest.
Proof.
  intros Hm Hc. destruct (collect_bounds _ _ _ _ _ _ _ Hc) as [_ Hp]. apply collect_text_len in Hc.
  destruct cs as [|c pre _] using rev_ind; [change (len (Chunker.texts [])) with 0; unfold longest, zimMaxClusterBytes; lia |].
  destruct (Hp pre c [] eq_refl) as [Hpre _]. apply Forall_app in Hc as [_ Hc]. apply Forall_inv in Hc.
  rewrite Chunker.texts_app, len_app. unfold Chunker.texts at 2. cbn [fmap list_fmap concat]. rewrite app_nil_r. lia.
Qed.
(** A cluster pointer, as the file has it. *)
Definition cluster_start (hdr : zimHeader) (num : Z) : option Z :=
  get_le <$> ReadAt ra (i64 (i64 (ClusterPtrPos hdr) + num * 8)) 8.
Lemma unpack_no_panic raw : unpack raw ≠ Err Panic.
Proof. unfold unpack. repeat case_match; by intros. Qed.
Lemma readZimCluster_panic hdr num :
  readZimCluster ra hdr num = Err Panic → ∃ s, cluster_start hdr num = Some s ∧ 2 ^ 63 ≤ s.
Proof.
  unfold readZimCluster, cluster_start. destruct (_ <=? num); [done |].
  destruct (ReadAt ra _ 8) as [b|] eqn:Eb; [|done]. apply ReadAt_len in Eb; [|done..].
  assert (Hb : is_u64 (get_le b)) by (pose proof (get_le_range b) as Hg; rewrite Eb in Hg; unfold is_u64; lia).
  destruct (cluster_end ra hdr num) as [e|err] eqn:Ee.
  2:{ intros [= ->]. unfold cluster_end in Ee. by repeat case_match. }
  assert (He : is_i64 e) by (unfold cluster_end in Ee; repeat case_match; simplify_eq; apply i64_range).
  cbn [mbind result_bind]. destruct (Z.leb_spec e (i64 (get_le b))) as [|Hlt]; [done |].
  destruct (_ <? i64 _); [done |]. destruct (Z.ltb_spec (i64 (e - i64 (get_le b))) 0) as [Hs|]; [|intros Hp; repeat case_match; try done; by apply unpack_no_panic in Hp].
  intros _. exists (get_le b). split; [done |]. destruct (Z.le_gt_cases (2 ^ 63) (get_le b)) as [|Hg]; [done |].
  unfold is_u64, is_i64 in *. rewrite (i64_small (get_le b)) in * by (unfold is_i64; lia).
  rewrite i64_small in Hs by (unfold is_i64; lia). lia.
Qed.
Lemma collect_panic n hdr mimes max i emitted :
  collect ra n hdr mimes max i emitted = None → ∃ num s, cluster_start hdr num = Some s ∧ 2 ^ 63 ≤ s.
Proof.
  revert i emitted. induction n as [|n IH]; intros i emitted; cbn [collect]; [done |].
  destruct (max <=? emitted); [done |]. destruct (wanted ra hdr mimes i) as [[e mime]|]; [|apply IH].
  destruct (article_text _ e mime) as [|t|] eqn:E; [apply IH | by intros Hi%fmap_None; eapply IH |]. intros _.
  exists (ClusterNum e). apply readZimCluster_panic. unfold article_text in E. repeat (case_match; try done).
Qed.

(** *** The MIME list ends within its fuel *)
Lemma mime_bytes_fuel k fuel pos all :
  zimMaxMimeListBytes < len all + 4096 * Z.of_nat fuel → (0 < fuel)%nat →
  mime_bytes (fuel + k) ra pos all = mime_bytes fuel ra pos all.
Proof.
  revert pos all. induction fuel as [|fuel IH]; intros pos all Hf Hp; [lia |]. cbn [Nat.add mime_bytes].
  pose proof (Hra pos 4096 ltac:(lia)) as [_ Hr]. destruct (ra pos 4096) as [b failed]. cbn [fst snd] in *.
  destruct (two_nuls _); [done |]. destruct failed; [done |]. specialize (Hr eq_refl).
  destruct (Z.ltb_spec zimMaxMimeListBytes (len (all ++ b))) as [|Hle]; [done |]. rewrite len_app in Hle.
  apply IH; [rewrite len_app; lia |]. destruct fuel; [lia | lia].
Qed.
End cached.

(** ** The blobs of a cluster *)
(** A cluster as the format has it: the type, the offsets of the blobs and of
    their end, the blobs. *)
Fixpoint offsets (o : Z) (blobs : list bytes) : list Z :=
  o :: match blobs with [] => [] | b :: bs => offsets (o + len b) bs end.
Definition offset_size (extended : bool) : Z := if extended then 8 else 4.
Definition cluster_type (extended : bool) : byte := if extended then x11 else x01.
Definition pack (extended : bool) (blobs : list bytes) : bytes :=
  let w := offset_size extended in
  cluster_type extended ::
  concat (put_le (Z.to_nat w) <$> offsets (w * (len blobs + 1)) blobs) ++ concat blobs.

Lemma slice_app_exact a b (s t u : bytes) :
  a = len s → b = a + len t → slice a b (s ++ t ++ u) = t.
Proof.
  intros -> ->. unfold slice. replace (len s + len t - len s) with (len t) by lia.
  unfold len. rewrite !Nat2Z.id, drop_app_length. apply take_app_length.
Qed.
Lemma offsets_length o bs : length (offsets o bs) = S (length bs).
Proof. revert o. induction bs as [|b bs IH]; intros o; [done |]. cbn [offsets length]. by rewrite IH. Qed.
Lemma offsets_lookup o bs k :
  (k ≤ length bs)%nat → offsets o bs !! k = Some (o + len (concat (take k bs))).
Proof.
  revert o k. induction bs as [|b bs IH]; intros o [|k] Hk; cbn [offsets length lookup list_lookup take concat] in *.
  1,3: rewrite len_nil; f_equal; lia.
  - lia.
  - rewrite IH by lia. rewrite len_app. f_equal. lia.
Qed.
Lemma len_concat_fixed w (zs : list Z) : len (concat (put_le w <$> zs)) = Z.of_nat w * len zs.
Proof. induction zs as [|z zs IH]; [unfold len; simpl; lia |]. rewrite fmap_cons. cbn [concat]. rewrite len_app, IH, len_put_le, len_cons. lia. Qed.
(** The [k]-th word of a table. *)
Lemma le_table w zs rest k z :
  zs !! k = Some z → 0 ≤ z < 256 ^ Z.of_nat w →
  le (Z.of_nat k * Z.of_nat w) (Z.of_nat k * Z.of_nat w + Z.of_nat w) (concat (put_le w <$> zs) ++ rest) = z.
Proof.
  intros Hk Hz. rewrite <-(take_drop_middle zs k z Hk). rewrite fmap_app, concat_app, fmap_cons. cbn [concat].
  rewrite <-!app_assoc. unfold le. rewrite slice_app_exact; [by apply get_put_le_small | |by rewrite len_put_le].
  rewrite len_concat_fixed. apply lookup_lt_Some in Hk. unfold len. rewrite length_take. lia.
Qed.
Lemma concat_take_drop (bs : list bytes) k b :
  bs !! k = Some b → concat bs = concat (take k bs) ++ b ++ concat (drop (S k) bs).
Proof. intros Hk. rewrite <-(take_drop_middle bs k b Hk) at 1. by rewrite concat_app. Qed.

Section blobs.
Context (extended : bool) (bs : list bytes) (k : nat).
Let w := offset_size extended.
Let table : list Z := offsets (w * (len bs + 1)) bs.
Hypothesis fits : w * (len bs + 1) + len (concat bs) < 256 ^ w.

Lemma w_cases : w = 4 ∨ w = 8.
Proof. unfold w. destruct extended; auto. Qed.
Lemma table_entry i :
  (i ≤ length bs)%nat →
  le (Z.of_nat i * w) (Z.of_nat i * w + w) (concat (put_le (Z.to_nat w) <$> table) ++ concat bs) =
  w * (len bs + 1) + len (concat (take i bs)).
Proof.
  intros Hi. pose proof w_cases. pose proof (le_table (Z.to_nat w) table (concat bs) i) as Hl.
  rewrite Z2Nat.id in Hl by lia. apply Hl; [by apply offsets_lookup |].
  assert (Hc : len (concat bs) = len (concat (take i bs)) + len (concat (drop i bs)))
    by (rewrite <-len_app, <-concat_app, take_drop; done).
  pose proof (len_nonneg (concat (take i bs))). pose proof (len_nonneg (concat (drop i bs))). pose proof (len_nonneg bs). nia.
Qed.
Lemma len_table : len (concat (put_le (Z.to_nat w) <$> table)) = w * (len bs + 1).
Proof. rewrite len_concat_fixed. unfold table, len. rewrite offsets_length. pose proof w_cases. lia. Qed.

(** Each blob comes back, and no other number is in range. *)
Lemma getZimBlob_pack :
  getZimBlob (pack extended bs) (Z.of_nat k) =
  match bs !! k with Some b => Ok b | None => Err (ErrBlobRange (Z.of_nat k) (len bs)) end.
Proof.
  pose proof w_cases as Hw. unfold pack, getZimBlob. fold w. fold table.
  assert (Hext : negb (Z.land (b2z (cluster_type extended)) 16 =? 0) = extended) by (by destruct extended).
  rewrite Hext. change (if extended then 8 else 4) with w.
  set (body := concat _ ++ concat bs).
  assert (Hlen : len body = w * (len bs + 1) + len (concat bs)) by (unfold body; by rewrite len_app, len_table).
  pose proof (len_nonneg bs). pose proof (len_nonneg (concat bs)).
  rewrite (proj2 (Z.ltb_ge (len body) w)) by nia.
  assert (Hfirst : le 0 w body = w * (len bs + 1))
    by (pose proof (table_entry 0 ltac:(lia)) as Ht; change (concat (take 0 bs)) with (@nil byte) in Ht; rewrite (@len_nil byte), Z.add_0_r in Ht; exact Ht).
  rewrite Hfirst. rewrite (proj2 (Z.eqb_neq (w * (len bs + 1)) 0)) by nia.
  assert (Hm : (w * (len bs + 1)) `mod` w = 0) by (rewrite Z.mul_comm; apply Z_mod_mult).
  rewrite Hm. cbn [orb negb Z.eqb]. replace (w * (len bs + 1) / w - 1) with (len bs) by (rewrite Z.mul_comm, Z_div_mult by lia; lia).
  destruct (bs !! k) as [b|] eqn:Ek.
  - apply lookup_lt_Some in Ek as Hk. rewrite (proj2 (Z.leb_gt (len bs) (Z.of_nat k))) by (unfold len; lia).
    replace ((Z.of_nat k + 1) * w) with (Z.of_nat (S k) * w) by lia.
    rewrite (proj2 (Z.ltb_ge (len body) _)) by (unfold len in *; nia).
    unfold body. rewrite !table_entry by lia.
    pose proof (concat_take_drop bs k b Ek) as Hc.
    assert (Ht : concat (take (S k) bs) = concat (take k bs) ++ b)
      by (rewrite (take_S_r _ _ _ Ek), concat_app; cbn [concat]; by rewrite app_nil_r).
    rewrite Ht, len_app. pose proof (len_nonneg b).
    assert (Hcl : len (concat bs) = len (concat (take k bs)) + (len b + len (concat (drop (S k) bs))))
      by (rewrite Hc at 1; by rewrite !len_app).
    pose proof (len_nonneg (concat (drop (S k) bs))). pose proof (len_nonneg (concat (take k bs))).
    rewrite (proj2 (Z.ltb_ge _ (w * (len bs + 1) + len (concat (take k bs))))) by lia.
    fold body. rewrite (proj2 (Z.ltb_ge (len body) _)) by lia. cbn [orb]. f_equal.
    unfold body. rewrite Hc, app_assoc. apply slice_app_exact; [by rewrite len_app, len_table | lia].
  - apply lookup_ge_None in Ek. by rewrite (proj2 (Z.leb_le (len bs) (Z.of_nat k))) by (unfold len; lia).
Qed.
End blobs.

Lemma slice_infix a b s : ∃ p q, s = p ++ slice a b s ++ q.
Proof.
  exists (take (Z.to_nat a) s), (drop (Z.to_nat (b - a)) (drop (Z.to_nat a) s)).
  unfold slice. by rewrite !take_drop.
Qed.
(** Whatever a cluster holds, a blob is a part of it. *)
Lemma getZimBlob_infix cluster k b :
  getZimBlob cluster k = Ok b → ∃ t p s, cluster = t :: p ++ b ++ s.
Proof.
  unfold getZimBlob. destruct cluster as [|t body]; [done |]. intros Hb.
  repeat match type of Hb with (if ?c then Err _ else _) = _ => destruct c; [done |] end.
  match type of Hb with Ok (slice ?x ?y _) = _ => destruct (slice_infix x y body) as (p & q & Hpq) end.
  injection Hb as <-. exists t, p, q. by f_equal.
Qed.

(** ** What the extractor promises *)
(** [C36] The cache changes nothing but the work: an extraction answers what it
    would answer reading every cluster anew, and at every moment the cache holds
    at most 32 clusters and 128 MiB, each the one the file has under its number.
    At most 5000 articles are taken, none empty, and the text before the last is
    short of the limit.  It panics only over a file with a cluster pointer of
    2^63 or more. *)
Theorem cached_extraction `{ZstdLaws} `{Tokenizer} (ra : readerAt) (max : Z) :
  reader_laws ra →
  Extract ra max = collect_file ra max ∧
  (∀ n hdr mimes m,
    let c := (articles ra n hdr mimes m 0 0 (newClusterLRU cacheCap zimMaxCacheBytes)).2 in
    len (ll c) ≤ 32 ∧ bytes_of (ll c) ≤ 128 * 2 ^ 20 ∧ NoDup (ll c).*1 ∧
    ∀ num d, (num, d) ∈ ll c → readZimCluster ra hdr num = Ok d) ∧
  (∀ cs, Extract ra max = Some (Ok cs) →
    len cs ≤ 5000 ∧
    ∀ pre c post, cs = pre ++ c :: post →
      len (Chunker.texts pre) < (if max <=? 0 then zimDefaultMaxBytes else max) ∧ Chunker.Text c ≠ []) ∧
  (Extract ra max = None →
    ∃ hdr num s, readZimHeader ra = Ok hdr ∧ cluster_start ra hdr num = Some s ∧ 2 ^ 63 ≤ s).
Proof.
  intros Hra. assert (Heq : Extract ra max = collect_file ra max).
  { unfold Extract, collect_file. destruct (readZimHeader ra) as [hdr|]; [|done].
    destruct (readZimMimeList ra _) as [mimes|]; [|done]. f_equal.
    apply articles_collect; [done | apply cache_start]. }
  split; [done |]. rewrite Heq. split; [|split].
  - intros n hdr mimes m.
    destruct (articles_collect ra Hra n hdr mimes m 0 0 _ (cache_start ra hdr)) as [_ ([Hk Hb Hc Hm] & [Hs1 Hs2] & Hin)].
    cbv zeta. rewrite <-Hb. rewrite Hs1 in Hc. rewrite Hs2 in Hm. change (cap _) with 32 in Hc at 1 2.
    change (maxBytes _) with (128 * 2 ^ 20) in Hm at 1 2. split; [lia |]. split; [lia |]. by split.
  - unfold collect_file. destruct (readZimHeader ra) as [hdr|]; [|done].
    destruct (readZimMimeList ra _) as [mimes|]; [|done]. intros cs (cs' & Hcs & [= ->])%fmap_Some.
    apply collect_bounds in Hcs as [Hl Hp]. split.
    + revert Hl. unfold article_count, zimDefaultMaxArticles, len. destruct (Z.ltb_spec 5000 (ArticleCount hdr)); lia.
    + intros pre c post Hcs. apply (Hp pre c post Hcs).
  - unfold collect_file. destruct (readZimHeader ra) as [hdr|]; [|done].
    destruct (readZimMimeList ra _) as [mimes|]; [|done]. intros Hn%fmap_None.
    apply collect_panic in Hn as (num & s & Hs); [|done]. by exists hdr, num, s.
Qed.

(** The blobs of a cluster written as the format has it, with offsets of four
    or of eight bytes, come back by number, and any other number is out of range;
    what is taken from any other cluster is a part of it. *)
Lemma blobs_roundtrip (extended : bool) (bs : list bytes) :
  offset_size extended * (len bs + 1) + len (concat bs) < 256 ^ offset_size extended →
  (∀ k : nat, getZimBlob (pack extended bs) (Z.of_nat k) =
    match bs !! k with Some b => Ok b | None => Err (ErrBlobRange (Z.of_nat k) (len bs)) end) ∧
  (∀ cluster k b, getZimBlob cluster k = Ok b → ∃ t p s, cluster = t :: p ++ b ++ s).
Proof. intros Hf. split; [intros k; by apply getZimBlob_pack | exact getZimBlob_infix]. Qed.

Module Examples.
(** A file as its reader. *)
Definition over_bytes (s : bytes) : readerAt := λ off n,
  let b := take (Z.to_nat n) (drop (Z.to_nat off) s) in (b, (off <? 0) || (len b <? n)).
Lemma over_bytes_laws s : reader_laws (over_bytes s).
Proof.
  intros off n Hn. unfold over_bytes. cbn [fst snd]. split; [rewrite len_take by done; lia |].
  intros Hf. b2p. pose proof (len_take n (drop (Z.to_nat off) s) Hn). lia.
Qed.
#[export] Instance no_zstd : Zstd := λ _, None.
#[export] Instance no_zstd_laws : ZstdLaws.
Proof. by intros b d. Qed.
#[export] Instance one_text : Tokenizer := λ s _, ([(TextToken (content s), len (content s))], (EOF, len (content s))).

Definition header (articles clusters urls cptrs mimes checksum : Z) : bytes :=
  put_le 4 zimMagic ++ put_le 4 0 ++ put_le 16 0 ++ put_le 4 articles ++ put_le 4 clusters ++
  put_le 8 urls ++ put_le 8 0 ++ put_le 8 cptrs ++ put_le 8 mimes ++ put_le 8 0 ++ put_le 8 checksum.
Definition dir_entry (cluster blob : Z) : bytes := put_le 2 0 ++ put_le 6 0 ++ put_le 4 cluster ++ put_le 4 blob.
(** Two articles in one cluster that is stored as it is. *)
Definition small_file : bytes :=
  header 2 1 92 140 80 171 ++ str "text/plain" ++ [x00; x00] ++
  put_le 8 108 ++ put_le 8 124 ++ dir_entry 0 1 ++ dir_entry 0 0 ++
  put_le 8 148 ++ pack false [str "hello"; str "world"].
Example small_file_text :
  Extract (over_bytes small_file) 0 =
  Some (Ok [{| Chunker.Text := str "world"; Chunker.Offset := 0 |}; {| Chunker.Text := str "hello"; Chunker.Offset := 0 |}]).
Proof. vm_compute. reflexivity. Qed.

Lemma cached_extraction_witness :
  reader_laws (over_bytes small_file) ∧
  Extract (over_bytes small_file) 3 = collect_file (over_bytes small_file) 3 ∧
  collect_file (over_bytes small_file) 3 = Some (Ok [{| Chunker.Text := str "world"; Chunker.Offset := 0 |}]).
Proof.
  split; [apply over_bytes_laws |]. split; [|vm_compute; reflexivity].
  apply (cached_extraction (over_bytes small_file) 3). apply over_bytes_laws.
Defined.
Lemma blobs_roundtrip_witness :
  offset_size true * 3 + 6 < 256 ^ offset_size true ∧
  getZimBlob (pack true [str "one"; str "two"]) 1 = Ok (str "two").
Proof.
  split; [reflexivity |]. destruct (blobs_roundtrip true [str "one"; str "two"] eq_refl) as [Hr _].
  exact (Hr 1%nat).
Defined.
(** The size of a cluster from a negative offset overflows: [make] panics. *)
Definition crafted_file : bytes :=
  header 1 1 92 116 80 0 ++ str "text/plain" ++ [x00; x00] ++
  put_le 8 100 ++ dir_entry 0 0 ++ put_le 8 (2 ^ 63).
Example crafted_file_panics : Extract (over_bytes crafted_file) 0 = None.
Proof. vm_compute. reflexivity. Qed.
End Examples.
End Zim.
