(* ===== verification/ReadSeekerAt.v ===== *)
(** * Reading a torrent's file at offsets (internal/indexer/readseekerat.go)

    An adapter from a reader with a position to a reader at offsets, confined to
    the length of one file: the underlying reader may go on into the next.  Its
    promise is the interface the ZIM extractor is proved against. *)

From S2P Require Import Prelude GoInt Chunker HtmlText Zim.
Open Scope Z_scope.

Module ReadSeekerAt.

(** ** The underlying reader *)
Inductive rerror : Type := EOF | Broken.
#[export] Instance rerror_eq_dec : EqDecision rerror.
Proof. solve_decision. Defined.
Inductive whence : Type := SeekStart | SeekCurrent | SeekEnd.
Class ReadSeeker (S : Type) := {
  rs_Read : S → Z → S * bytes * option rerror;
  rs_Seek : S → Z → whence → S * result rerror Z
}.
(** What an io.ReadSeeker over [data] does: a read yields some of what follows the
    position, at least a byte or else an error, and moves past it; it ends no
    sooner than the position has passed [size].  Seeking to an offset works unless
    it is negative. *)
Class ReadSeekerLaws (S : Type) `{ReadSeeker S} (data : bytes) (size : Z) := {
  position : S → Z;
  position_nonneg : ∀ s, 0 ≤ position s;
  read_spec : ∀ s n, 0 < n →
    let '(s', b, e) := rs_Read s n in
    b `prefix_of` drop (Z.to_nat (position s)) data ∧ len b ≤ n ∧ (b ≠ [] ∨ e ≠ None) ∧
    position s' = position s + len b ∧ (e = Some EOF → size ≤ position s');
  seek_current : ∀ s, let '(s', r) := rs_Seek s 0 SeekCurrent in r = Ok (position s) ∧ position s' = position s;
  seek_start : ∀ s off, let '(s', r) := rs_Seek s off SeekStart in
    if 0 <=? off then r = Ok off ∧ position s' = off else (∃ e, r = Err e) ∧ position s' = position s
}.

(** ** The adapter *)
Record ReadSeekerAt (S : Type) := { rs : S; size : Z; pos : Z }.
Arguments rs {S} _.
Arguments size {S} _.
Arguments pos {S} _.

Section adapter.
Context {S : Type} `{ReadSeeker S}.
Definition NewReadSeekerAt (s : S) (n : Z) : ReadSeekerAt S := {| rs := s; size := n; pos := 0 |}.
Definition with_rs (s : S) (p : Z) (r : ReadSeekerAt S) : ReadSeekerAt S := {| rs := s; size := size r; pos := p |}.
(** [n]: the length of the buffer. *)
Definition Read (r : ReadSeekerAt S) (n : Z) : ReadSeekerAt S * bytes * option rerror :=
  if size r <=? pos r then (r, [], Some EOF)
  else
    let n := if size r - pos r <? n then size r - pos r else n in
    let '(s, b, e) := rs_Read (rs r) n in
    (with_rs s (pos r + len b) r, b, e).
Definition Seek (r : ReadSeekerAt S) (offset : Z) (w : whence) : ReadSeekerAt S * result rerror Z :=
  let '(s, res) := rs_Seek (rs r) offset w in
  (with_rs s (match res with Ok p => p | Err _ => pos r end) r, res).
(** The reads until the buffer is full or one fails. *)
Fixpoint fill (fuel : nat) (s : S) (n : Z) (acc : bytes) : S * bytes * option rerror :=
  match fuel with
  | O => (s, acc, None)
  | Datatypes.S fuel =>
    if len acc <? n then
      let '(s, b, e) := rs_Read s (n - len acc) in
      match e with
      | None => fill fuel s n (acc ++ b)
      | Some e => (s, acc ++ b, Some e)
      end
    else (s, acc, None)
  end.
Definition ReadAt (r : ReadSeekerAt S) (n off : Z) : ReadSeekerAt S * bytes * option rerror :=
  if size r <=? off then (r, [], Some EOF)
  else
    let short := size r - off <? n in
    let n := if short then size r - off else n in
    (** the deferred clamp *)
    let clamp (e : option rerror) := match e with None => if short then Some EOF else None | Some e => Some e end in
    match rs_Seek (rs r) 0 SeekCurrent with
    | (s, Err e) => (with_rs s (pos r) r, [], clamp (Some e))
    | (s, Ok cur) =>
      match rs_Seek s off SeekStart with
      | (s, Err e) => (with_rs s (pos r) r, [], clamp (Some e))
      | (s, Ok _) =>
        let '(s, b, e) := fill (Z.to_nat n) s n [] in
        let '(s, res) := rs_Seek s cur SeekStart in
        let e := match res, e with Err e', None => Some e' | _, _ => e end in
        let e := if (len b =? n) && bool_decide (e = Some EOF) then None else e in
        (with_rs s (pos r) r, b, clamp e)
      end
    end.
End adapter.

(** ** What is read *)
Section reads.
Context {S : Type} (data : bytes) (sz : Z) `{ReadSeekerLaws S data sz} (Hsz : 0 ≤ sz ≤ len data).
Definition at_ (off n : Z) : bytes := take (Z.to_nat n) (drop (Z.to_nat off) data).

Lemma len_at off n : 0 ≤ off → 0 ≤ n → off + n ≤ len data → len (at_ off n) = n.
Proof. unfold at_, len. rewrite length_take, length_drop. lia. Qed.
Lemma prefix_at (b : bytes) off n : b `prefix_of` drop (Z.to_nat off) data → len b = n → b = at_ off n.
Proof. unfold at_. intros [k ->] <-. unfold len. by rewrite Nat2Z.id, take_app_length. Qed.
Lemma prefix_step (b c : bytes) off :
  0 ≤ off → b `prefix_of` drop (Z.to_nat off) data → c `prefix_of` drop (Z.to_nat (off + len b)) data →
  b ++ c `prefix_of` drop (Z.to_nat off) data.
Proof.
  intros Ho [k Hk] Hc. rewrite Hk. apply prefix_app. revert Hc.
  rewrite Z2Nat.inj_add, <-drop_drop, Hk by (done || apply len_nonneg). unfold len. by rewrite Nat2Z.id, drop_app_length.
Qed.

Lemma fill_spec fuel (s : S) n acc off :
  0 ≤ off → position s = off + len acc → acc `prefix_of` drop (Z.to_nat off) data → len acc ≤ n →
  (Z.to_nat (n - len acc) ≤ fuel)%nat →
  let '(s', b, e) := fill fuel s n acc in
  b `prefix_of` drop (Z.to_nat off) data ∧ len b ≤ n ∧ (e = None → len b = n) ∧ (e = Some EOF → sz ≤ off + len b).
Proof.
  intros Ho. revert s acc. induction fuel as [|fuel IH]; intros s acc Hp Ha Hn Hf; cbn [fill].
  { repeat split; try done. lia. }
  destruct (Z.ltb_spec (len acc) n); [|repeat split; try done; lia].
  pose proof (read_spec s (n - len acc) ltac:(lia)) as Hr.
  destruct (rs_Read s (n - len acc)) as [[s' b] e]. destruct Hr as (Hb & Hl & Hne & Hp' & Heof).
  rewrite Hp in Hb. pose proof (prefix_step acc b off Ho Ha Hb) as Hab. pose proof (len_nonneg b).
  destruct e as [e|].
  - rewrite len_app. repeat split; [done | lia | done |]. intros [= ->]. specialize (Heof eq_refl). lia.
  - assert (b ≠ []) by (by destruct Hne). destruct b as [|c b]; [done |]. rewrite len_cons in *. pose proof (len_nonneg b).
    apply IH; rewrite ?len_app, ?len_cons; try done; lia.
Qed.

(** A read at an offset: what it yields, and the position it leaves alone. *)
Lemma ReadAt_spec (r : ReadSeekerAt S) n off :
  size r = sz → 0 ≤ n →
  let '(r', b, e) := ReadAt r n off in
  size r' = sz ∧ pos r' = pos r ∧ position (rs r') = position (rs r) ∧ len b ≤ n ∧
  (e = None → 0 ≤ off ∧ off + n ≤ sz ∧ b = at_ off n) ∧
  (e = Some EOF → 0 ≤ off → b = at_ off (Z.max 0 (sz - off))) ∧
  (b = [] ∨ 0 ≤ off ∧ b `prefix_of` drop (Z.to_nat off) data ∧ off + len b ≤ sz).
Proof.
  intros Hs Hn. unfold ReadAt. rewrite Hs. destruct (Z.leb_spec sz off) as [Ho|Ho].
  { rewrite len_nil. repeat split; try done; [|by left]. intros _ _. by rewrite Z.max_l by lia. }
  pose proof (seek_current (rs r)) as Hc. destruct (rs_Seek (rs r) 0 SeekCurrent) as [s1 r1]. destruct Hc as [-> Hp1].
  pose proof (seek_start s1 off) as Hst. destruct (rs_Seek s1 off SeekStart) as [s2 r2].
  destruct (Z.leb_spec 0 off) as [Ho0|Ho0].
  2:{ destruct Hst as [[e ->] Hp2]. cbn [with_rs rs size pos]. rewrite len_nil. repeat split; try done; [congruence | lia | by left]. }
  destruct Hst as [-> Hp2]. set (n' := if sz - off <? n then sz - off else n).
  assert (Hn' : n' = Z.min n (sz - off)) by (unfold n'; destruct (Z.ltb_spec (sz - off) n); lia).
  pose proof (fill_spec (Z.to_nat n') s2 n' [] off Ho0) as Hf. rewrite len_nil in Hf.
  destruct (fill (Z.to_nat n') s2 n' []) as [[s3 b] e]. pose proof (len_nonneg b).
  destruct Hf as (Hb & Hl & Hnone & Heof); [lia | apply prefix_nil | lia | lia |].
  pose proof (seek_start s3 (position (rs r))) as Hst. pose proof (position_nonneg (rs r)).
  destruct (rs_Seek s3 _ SeekStart) as [s4 r4]. rewrite (proj2 (Z.leb_le 0 _)) in Hst by done. destruct Hst as [-> Hp4].
  cbn [with_rs rs size pos]. do 3 (split; [done |]). split; [lia |]. split; [|split].
  - destruct e as [[]|].
    + rewrite (bool_decide_eq_true_2 (Some EOF = _)), andb_true_r by done.
      destruct (Z.eqb_spec (len b) n'); [|done]. destruct (Z.ltb_spec (sz - off) n); [done |]. intros _.
      split; [done |]. split; [lia |]. apply prefix_at; [done | lia].
    + by rewrite bool_decide_eq_false_2, andb_false_r.
    + rewrite bool_decide_eq_false_2, andb_false_r by done. specialize (Hnone eq_refl).
      destruct (Z.ltb_spec (sz - off) n); [done |]. intros _. split; [done |]. split; [lia |]. apply prefix_at; [done | lia].
  - intros He _. rewrite Z.max_r by lia. apply prefix_at; [done |].
    destruct e as [[]|].
    + specialize (Heof eq_refl). lia.
    + by rewrite bool_decide_eq_false_2, andb_false_r in He.
    + specialize (Hnone eq_refl). rewrite bool_decide_eq_false_2, andb_false_r in He by done.
      destruct (Z.ltb_spec (sz - off) n); [lia | done].
  - right. split; [done |]. split; [done | lia].
Qed.

(** The interface of the ZIM extractor. *)
Definition reader_of (r : ReadSeekerAt S) : Zim.readerAt :=
  λ off n, let '(_, b, e) := ReadAt r n off in (b, bool_decide (e ≠ None)).
Lemma reader_of_laws r : size r = sz → Zim.reader_laws (reader_of r).
Proof.
  intros Hs off n Hn. unfold reader_of. pose proof (ReadAt_spec r n off Hs Hn) as Hr.
  destruct (ReadAt r n off) as [[r' b] e]. destruct Hr as (_ & _ & _ & Hl & Hnone & _). split; [done |].
  cbn [fst snd]. intros He. b2p. destruct (decide (e = None)) as [E|]; [|by destruct He].
  destruct (Hnone E) as (Ho & Hle & ->). apply len_at; lia.
Qed.

(** Sequential reads stop at the length of the file too. *)
Lemma Read_spec (r : ReadSeekerAt S) n :
  size r = sz → 0 < n → position (rs r) = pos r →
  let '(r', b, e) := Read r n in
  size r' = sz ∧ position (rs r') = pos r' ∧ pos r' = pos r + len b ∧
  (b = [] ∨ b = at_ (pos r) (len b) ∧ pos r' ≤ sz) ∧ (e = Some EOF → sz ≤ pos r') ∧ (b ≠ [] ∨ e ≠ None).
Proof.
  intros Hs Hn Hp. unfold Read. rewrite Hs. destruct (Z.leb_spec sz (pos r)).
  { rewrite len_nil. repeat split; try done; [lia | by left | by right]. }
  set (n' := if sz - pos r <? n then sz - pos r else n).
  assert (Hn' : n' = Z.min n (sz - pos r)) by (unfold n'; destruct (Z.ltb_spec (sz - pos r) n); lia).
  pose proof (read_spec (rs r) n' ltac:(lia)) as Hr. destruct (rs_Read (rs r) n') as [[s' b] e].
  destruct Hr as (Hb & Hl & Hne & Hp' & Heof). cbn [with_rs rs size pos]. rewrite Hp in *.
  split; [done |]. split; [lia |]. split; [done |]. split; [|split; [intros He; specialize (Heof He); lia | done]].
  right. split; [by apply prefix_at | lia].
Qed.
End reads.

Module Examples.
(** A reader that hands out two bytes at a time of six. *)
Definition six : bytes := str "abcdef".
#[export] Instance slow : ReadSeeker Z := {|
  rs_Read s n :=
    let b := take (Z.to_nat (Z.min n 2)) (drop (Z.to_nat (Z.abs s)) six) in
    (Z.abs s + len b, b, if bool_decide (b = []) then Some EOF else None);
  rs_Seek s off w :=
    match w with
    | SeekCurrent => (s, Ok (Z.abs s))
    | _ => if off <? 0 then (s, Err Broken) else (off, Ok off)
    end
|}.
#[export, refine] Instance slow_laws : ReadSeekerLaws Z six 4 := {| position := Z.abs |}.
Proof.
  - apply Z.abs_nonneg.
  - intros s n Hn. cbn [rs_Read slow]. set (d := drop _ six).
    pose proof (len_nonneg (take (Z.to_nat (Z.min n 2)) d)).
    split; [apply prefix_take |]. split; [unfold len; rewrite length_take; lia |].
    split; [case_bool_decide; auto |]. split; [lia |]. case_bool_decide as E; [|done]. intros _.
    assert (d = []) as Hd.
    { destruct d as [|c d']; [done |]. by replace (Z.to_nat (Z.min n 2)) with (S (pred (Z.to_nat (Z.min n 2)))) in E by lia. }
    rewrite E, len_nil. unfold d in Hd. apply (f_equal length) in Hd. rewrite length_drop in Hd. simpl in Hd. lia.
  - intros s. cbn. split; [done | lia].
  - intros s off. cbn [rs_Seek slow]. destruct (Z.ltb_spec off 0), (Z.leb_spec 0 off); try lia; split; try done; [by exists Broken | lia].
Defined.
(** Past the length of the file there are bytes, but not for this file. *)
Example reads_stop :
  let r := NewReadSeekerAt 0 4 in
  (ReadAt r 8 1).1.2 = str "bcd" ∧ (ReadAt r 8 1).2 = Some EOF ∧ (ReadAt r 3 1).2 = None ∧
  (Read r 8).1.2 = str "ab".
Proof. vm_compute. done. Qed.
End Examples.
End ReadSeekerAt.
