(* ===== verification/Dispatch.v ===== *)
(** * Choosing an extractor (internal/indexer/extractors: extractor.go, register.go,
      and the claims of each extractor)

    The type of a file from its name, the extractors in the order in which they are
    asked, what each claims, and what the chosen one then makes of the file. *)

From S2P Require Import Prelude GoInt Utf8 Chunker HtmlText Documents Subtitle Zim.
Open Scope Z_scope.

Module Dispatch.
Import Utf8 HtmlText.

Record Candidate := { Path : bytes; MIME : bytes; Size : Z }.
Inductive extractor : Type := DOCX | EPUB | ODT | PDF | Plaintext | SubtitleFile | ZIM.
#[export] Instance extractor_eq_dec : EqDecision extractor.
Proof. solve_decision. Defined.

(** ** The type of a name *)
Definition extTypes : list (string * string) := [
  (".txt", "text/plain");
  (".text", "text/plain");
  (".md", "text/markdown");
  (".srt", "application/x-subrip");
  (".vtt", "text/vtt");
  (".ass", "text/x-ssa");
  (".ssa", "text/x-ssa");
  (".log", "text/plain");
  (".go", "text/x-go");
  (".py", "text/x-python");
  (".js", "text/javascript");
  (".ts", "text/x-typescript");
  (".rs", "text/x-rust");
  (".c", "text/x-c");
  (".cc", "text/x-c++");
  (".cpp", "text/x-c++");
  (".h", "text/x-c");
  (".hpp", "text/x-c++");
  (".java", "text/x-java");
  (".rb", "text/x-ruby");
  (".sh", "text/x-shellscript");
  (".yaml", "text/x-yaml");
  (".yml", "text/x-yaml");
  (".toml", "text/x-toml");
  (".markdown", "text/markdown");
  (".epub", "application/epub+zip");
  (".docx", "application/vnd.openxmlformats-officedocument.wordprocessingml.document");
  (".odt", "application/vnd.oasis.opendocument.text");
  (".rtf", "application/rtf");
  (".tar", "application/x-tar");
  (".tgz", "application/gzip");
  (".fb2", "application/x-fictionbook+xml");
  (".pptx", "application/vnd.openxmlformats-officedocument.presentationml.presentation");
  (".odp", "application/vnd.oasis.opendocument.presentation");
  (".mobi", "application/x-mobipocket-ebook");
  (".azw", "application/vnd.amazon.ebook");
  (".azw3", "application/vnd.amazon.ebook");
  (".mp3", "audio/mpeg");
  (".jpg", "image/jpeg");
  (".jpeg", "image/jpeg");
  (".flac", "audio/flac");
  (".ogg", "audio/ogg");
  (".oga", "audio/ogg");
  (".opus", "audio/opus");
  (".mkv", "video/x-matroska");
  (".mka", "video/x-matroska");
  (".webm", "video/webm");
  (".mp4", "video/mp4");
  (".m4a", "audio/mp4");
  (".m4b", "audio/mp4");
  (".m4v", "video/mp4");
  (".zim", "application/x-zim")
]%string.
Definition type_of (ext : bytes) : option bytes :=
  (λ e, str e.2) <$> List.find (λ e, bool_decide (str e.1 = ext)) extTypes.

(** [mime.TypeByExtension]: the tables of the platform; empty if unknown. *)
Class MimeTable := TypeByExtension : bytes → bytes.
(** The bytes before the first semicolon. *)
Fixpoint before_semicolon (s : bytes) : option bytes :=
  match s with
  | [] => None
  | c :: s => if bool_decide (c = x3b) then Some [] else cons c <$> before_semicolon s
  end.
Definition mimeFromPath `{Unicode} `{MimeTable} (path : bytes) : bytes :=
  let ext := strings_ToLower (Documents.path_Ext path) in
  if bool_decide (ext = []) then []
  else match type_of ext with
  | Some m => m
  | None =>
    let m := TypeByExtension ext in
    match before_semicolon m with Some t => TrimSpace t | None => m end
  end.

(** ** Claims *)
Definition is_one_of (m : bytes) (l : list string) : bool := bool_decide (m ∈ str <$> l).
Definition claimsDOCX (mime : bytes) (c : Candidate) : bool :=
  is_one_of mime ["application/vnd.openxmlformats-officedocument.wordprocessingml.document"; "application/msword"]%string.
Definition claimsEPUB (mime : bytes) (c : Candidate) : bool :=
  is_one_of mime ["application/epub+zip"; "application/epub"]%string.
Definition claimsODT (mime : bytes) (c : Candidate) : bool :=
  bool_decide (mime = str "application/vnd.oasis.opendocument.text").
Definition claimsPDF (mime : bytes) (c : Candidate) : bool :=
  is_one_of mime ["application/pdf"; "application/x-pdf"]%string.
Definition subtitle_types : list string := ["application/x-subrip"; "text/vtt"; "text/x-ssa"]%string.
Definition claimsPlaintext (mime : bytes) (c : Candidate) : bool :=
  if 100 * 1024 * 1024 <? Size c then false
  else if is_one_of mime subtitle_types then false
  else if is_one_of mime ["text/plain"; "text/markdown"; "text/html"; "text/xml"; "text/csv"; "text/javascript";
                          "application/json"; "application/xml"]%string then true
  else has_prefix mime (str "text/").
Definition subtitleMaxFileBytes : Z := 16 * 1024 * 1024.
Definition claimsSubtitle (mime : bytes) (c : Candidate) : bool :=
  if subtitleMaxFileBytes <? Size c then false else is_one_of mime subtitle_types.
(** [strings.EqualFold(_, ".zim")]: no other letter folds to one of these. *)
Definition fold_zim (ext : bytes) : bool := bool_decide (ascii_lower <$> ext = str ".zim").
Definition claimsZIM (mime : bytes) (c : Candidate) : bool :=
  is_one_of mime ["application/x-zim"; "application/x-openzim"]%string || fold_zim (Documents.path_Ext (Path c)).
Definition claims (e : extractor) : bytes → Candidate → bool :=
  match e with
  | DOCX => claimsDOCX | EPUB => claimsEPUB | ODT => claimsODT | PDF => claimsPDF
  | Plaintext => claimsPlaintext | SubtitleFile => claimsSubtitle | ZIM => claimsZIM
  end.

(** The order of registration. *)
Definition registry : list extractor := [DOCX; EPUB; ODT; PDF; Plaintext; SubtitleFile; ZIM].
Definition dispatch `{Unicode} `{MimeTable} (reg : list extractor) (c : Candidate) : option extractor * bytes :=
  let mime := if bool_decide (MIME c = []) then mimeFromPath (Path c) else MIME c in
  (List.find (λ e, claims e mime c) reg, mime).
Definition Dispatch `{Unicode} `{MimeTable} : Candidate → option extractor * bytes := dispatch registry.

(** ** At most one claims a file that came without a type *)
Lemma one_of_spec m l : is_one_of m l = true ↔ m ∈ str <$> l.
Proof. unfold is_one_of. apply bool_decide_eq_true. Qed.
Definition type_class (m : bytes) : option extractor :=
  if is_one_of m ["application/vnd.openxmlformats-officedocument.wordprocessingml.document"; "application/msword"]%string then Some DOCX
  else if is_one_of m ["application/epub+zip"; "application/epub"]%string then Some EPUB
  else if bool_decide (m = str "application/vnd.oasis.opendocument.text") then Some ODT
  else if is_one_of m ["application/pdf"; "application/x-pdf"]%string then Some PDF
  else if is_one_of m subtitle_types then Some SubtitleFile
  else if is_one_of m ["application/x-zim"; "application/x-openzim"]%string then Some ZIM
  else if is_one_of m ["application/json"; "application/xml"]%string || has_prefix m (str "text/") then Some Plaintext
  else None.
Lemma one_of_in m l : is_one_of m l = true → Exists (λ s, m = str s) l.
Proof. intros (s & -> & Hs)%one_of_spec%list_elem_of_fmap. apply Exists_exists. by exists s. Qed.
Lemma not_text k l :
  forallb (λ s, negb (has_prefix (str s) (str "text/"))) l = true → is_one_of (str "text/" ++ k) l = false.
Proof.
  intros Hl. apply not_true_iff_false. intros Hm%one_of_in. apply Exists_exists in Hm as (s & Hs & Heq).
  rewrite forallb_forall in Hl. apply list_elem_of_In, Hl in Hs. rewrite <-Heq in Hs.
  b2p. apply not_true_iff_false in Hs. apply Hs, has_prefix_spec. by exists k.
Qed.
Ltac each_type :=
  repeat match goal with H : Exists _ (_ :: _) |- _ => apply Exists_cons in H as [->|H]; [vm_compute; reflexivity |] end;
  match goal with H : Exists _ [] |- _ => by apply Exists_nil in H end.
(** The claim of every extractor is by the class of the type, but for the name of a ZIM file. *)
Lemma claims_class e m c :
  claims e m c = true → type_class m = Some e ∨ e = ZIM ∧ fold_zim (Documents.path_Ext (Path c)) = true.
Proof.
  destruct e; cbn [claims].
  - intros Hm%one_of_in. left. each_type.
  - intros Hm%one_of_in. left. each_type.
  - unfold claimsODT. intros Hm. b2p. subst. by left.
  - intros Hm%one_of_in. left. each_type.
  - unfold claimsPlaintext. destruct (_ <? _); [done |]. destruct (is_one_of m subtitle_types) eqn:Es; [done |].
    destruct (is_one_of m ("text/plain"%string :: _)) eqn:E.
    + intros _. left. apply one_of_in in E. each_type.
    + intros (k & ->)%has_prefix_spec. left. unfold type_class. rewrite Es, !not_text by reflexivity.
      rewrite bool_decide_eq_false_2 by done. by rewrite (proj2 (has_prefix_spec _ _)) by (by exists k).
  - unfold claimsSubtitle. destruct (_ <? _); [done |]. intros Hm%one_of_in. left. unfold subtitle_types in Hm. each_type.
  - unfold claimsZIM. intros [Hm%one_of_in|Hz]%orb_true_iff; [left; each_type | by right].
Qed.
Lemma zim_type `{UnicodeLaws} `{MimeTable} path :
  fold_zim (Documents.path_Ext path) = true → type_class (mimeFromPath path) = Some ZIM.
Proof.
  unfold fold_zim, mimeFromPath. intros Hz. b2p. rewrite strings_ToLower_ascii, Hz.
  - vm_compute. reflexivity.
  - apply Forall_forall. intros c Hc. assert (Hl : ascii_lower c ∈ str ".zim") by (rewrite <-Hz; by apply list_elem_of_fmap_2).
    revert Hl. clear. destruct c; vm_compute; set_solver.
Qed.
(** However they were registered, the same extractor answers for a file that comes
    without a type. *)
Lemma dispatch_order `{UnicodeLaws} `{MimeTable} reg reg' c :
  MIME c = [] → reg ≡ₚ reg' → dispatch reg c = dispatch reg' c.
Proof.
  intros Hm Hp. unfold dispatch. rewrite Hm, bool_decide_eq_true_2 by done. f_equal.
  set (m := mimeFromPath (Path c)).
  assert (Hone : ∀ e, claims e m c = true → type_class m = Some e).
  { intros e He. apply claims_class in He as [He|[-> Hz]]; [done |]. by apply zim_type. }
  destruct (List.find _ reg) as [e|] eqn:E, (List.find _ reg') as [e'|] eqn:E'; [| | |done].
  - apply List.find_some in E as [_ E], E' as [_ E']. f_equal. apply Hone in E, E'. congruence.
  - apply List.find_some in E as [Hin E]. rewrite <-list_elem_of_In, Hp, list_elem_of_In in Hin.
    apply (List.find_none _ _ E') in Hin. congruence.
  - apply List.find_some in E' as [Hin E']. rewrite <-list_elem_of_In, <-Hp, list_elem_of_In in Hin.
    apply (List.find_none _ _ E) in Hin. congruence.
Qed.

(** ** Extraction *)
(** A file: as a stream and, for the ZIM extractor, as a reader at offsets. *)
Record file := { f_stream : stream; f_at : Zim.readerAt }.
Section extract.
Context `{Tokenizer} `{Unicode} `{Documents.ZipReader} `{Documents.XmlDecoder} `{Documents.PdfReader} `{Zim.Zstd}.
Context (sorted : list Documents.entry → list Documents.entry).
Definition ok {E A} (r : result E A) : option A := match r with Ok a => Some a | Err _ => None end.
(** [None]: it panics; [Some None]: an error. *)
Definition Extract (e : extractor) (f : file) (max : Z) : option (option (list Chunker.Chunk)) :=
  match e with
  | DOCX => Some (ok (Documents.docx_Extract (f_stream f) max))
  | EPUB => Some (ok (Documents.epub_Extract sorted (f_stream f) max))
  | ODT => Some (ok (Documents.odt_Extract (f_stream f) max))
  | PDF => Some (ok (Documents.pdf_Extract (f_stream f) max))
  | Plaintext => Some (ok (Chunker.Extract (content (f_stream f)) (fails (f_stream f)) max))
  | SubtitleFile => Some (ok (Subtitle.Extract (f_stream f) max))
  | ZIM => ok <$> Zim.Extract (f_at f) max
  end.
End extract.

(** *** The text of a file of text *)
Lemma len_to_valid s : len (to_valid s) ≤ 3 * len s.
Proof.
  unfold to_valid. induction s as [|s Hs IH] using runes_ind; [done |].
  rewrite runes_unfold by done. cbn [mbind list_bind fst]. rewrite len_app.
  fold (mbind (M := list) (λ c : Z * bytes, encode_rune c.1) (runes (drop (snd (decode_rune s)) s))).
  pose proof (decode_rune_width s Hs) as Hw.
  assert (Hd : len s = Z.of_nat (snd (decode_rune s)) + len (drop (snd (decode_rune s)) s))
    by (unfold len; rewrite length_drop; lia).
  assert (He : len (encode_rune (fst (decode_rune s))) ≤ 3 * Z.of_nat (snd (decode_rune s))).
  { destruct (decide (fst (decode_rune s) = RuneError ∧ snd (decode_rune s) = 1%nat)) as [[-> ->]|Hne]; [done |].
    rewrite encode_decoded by (done || tauto). unfold len. rewrite length_take. lia. }
  lia.
Qed.

(** *** Budgets *)
Definition or_default (d max : Z) : Z := if max <=? 0 then d else max.
Definition budget (e : extractor) (max : Z) : Z :=
  match e with
  | DOCX | ODT => maxDocTextBytes
  | EPUB => maxDocTextBytes + 2
  | PDF => Documents.clampInput max
  | Plaintext => 3 * or_default (32 * 1024 * 1024) max
  | SubtitleFile => or_default Subtitle.subtitleMaxInputBytes max
  | ZIM => or_default Zim.zimDefaultMaxBytes max + Zim.longest
  end.
(** The text a list of chunks was made of is within [B]. *)
Definition within (e : extractor) (B : Z) (cs : list Chunker.Chunk) : Prop :=
  match e with
  | SubtitleFile | ZIM => len (Chunker.texts cs) ≤ B
  | _ => cs = [] ∨ ∃ t, len t ≤ B ∧ cs = Chunker.chunkText t Chunker.DefaultChunkTargetBytes
  end.


Module Examples.
Import Zim.Examples.
(** A stream as one text, an archive with one entry, no tables. *)
#[export] Instance one_text_laws : TokenizerLaws.
Proof.
  split.
  - intros s m [|x pre] t n post; cbn [tokenize one_text fst app].
    + intros [= <- <- _]. unfold sizes. cbn [fmap list_fmap foldr fst token_size]. lia.
    + intros Heq. apply (f_equal length) in Heq. cbn [length] in Heq. rewrite length_app in Heq. simpl in Heq. lia.
  - intros s m. unfold sizes. cbn [tokenize one_text fst snd fmap list_fmap foldr token_size]. lia.
Qed.
#[export] Instance body_zip : Documents.ZipReader := λ b,
  Some [{| Documents.Name := str "content.xml"; Documents.Open_ := Some (of_bytes b) |}].
#[export] Instance one_chars : Documents.XmlDecoder := λ s, ([Documents.CharData (content s)], true).
#[export] Instance one_chars_laws : Documents.XmlLaws.
Proof. intros s. unfold Documents.xml_sizes. cbn [Documents.xml_tokens one_chars fst fmap list_fmap foldr Documents.xml_size]. lia. Qed.
#[export] Instance no_pdf : Documents.PdfReader := λ _, None.
#[export] Instance no_types : MimeTable := λ _, [].
Definition note : file := {| f_stream := of_bytes (str " a note "); f_at := over_bytes [] |}.
(** With a type given, two extractors claim a file, and their order decides. *)
Example two_claims :
  let c := {| Path := str "wiki.zim"; MIME := str "text/plain"; Size := 0 |} in
  (dispatch registry c).1 = Some Plaintext ∧ (dispatch (reverse registry) c).1 = Some ZIM.
Proof. vm_compute. done. Qed.
(** A subtitle file above 16 MiB is claimed by none. *)
Example long_subtitles :
  Dispatch {| Path := str "movie.SRT"; MIME := []; Size := 2 ^ 24 + 1 |} = (None, str "application/x-subrip").
Proof. vm_compute. done. Qed.
End Examples.
End Dispatch.
