(* ===== verification/Pipeline.v ===== *)
(** * The extraction pipeline (internal/indexer/pipeline.go; internal/engine/index.go
      as far as it feeds it)

    Completed files wait in a bounded queue for one worker, which extracts their
    text and indexes it chunk by chunk, while the queue is filled, torrents are
    forgotten and statistics are read.  The counters of a torrent are an object
    the worker holds on to, so a store of objects models them. *)

From S2P Require Import Prelude GoInt Utf8 HtmlText Documents Zim Dispatch Chunker Indexer.
Open Scope Z_scope.

Module Pipeline.
Import Utf8 HtmlText.

Record ihCounters := { processed : Z; extracted : Z; skipped : Z; failed : Z }.
Definition no_counts : ihCounters := {| processed := 0; extracted := 0; skipped := 0; failed := 0 |}.
(** A file, with what the world answers when it is handled: the reader that opens,
    and whether the watchdog ends the extraction. *)
Record FileInput := {
  InfoHash : bytes; FileIndex : Z; Path : bytes; Size : Z;
  OpenReader : option Dispatch.file; late : bool
}.
Definition queue_cap : Z := 64.

(** What the worker does with a file, between two of its effects: the type, the
    extractor's name, the chunks todo and their number, the failed writes. *)
Inductive phase : Type :=
  | Dispatching
  | Writing (mime name : bytes) (todo : list Chunker.Chunk) (total ci writeErrors : Z)
  | Finishing.
Record job := { j_in : FileInput; j_ref : nat; j_phase : phase }.

Section pipeline.
Context `{Tokenizer} `{Unicode} `{Documents.ZipReader} `{Documents.XmlDecoder} `{Documents.PdfReader} `{Zim.Zstd}.
Context `{Dispatch.MimeTable} (sorted : list Documents.entry → list Documents.entry) (maxFileBytes : Z).
Context {B : Type} `{Indexer.Bleve B}.

(** [counters]: keys to objects of [heap].  [marking]: what submissions have
    enqueued and not yet marked.  [accepted]: every file a [Submit] took, for the
    statements only. *)
Record Pipeline := {
  idx : option B; input : list FileInput; worker : option job; running : bool; stopped : bool;
  counters : gmap bytes nat; heap : gmap nat ihCounters; next : nat;
  submitted : gset (bytes * Z); marking : list (bytes * Z); accepted : list FileInput
}.
Definition NewPipeline (i : option B) : Pipeline := {|
  idx := i; input := []; worker := None; running := true; stopped := false;
  counters := ∅; heap := ∅; next := O; submitted := ∅; marking := []; accepted := []
|}.
Definition key (in_ : FileInput) : bytes := strings_ToLower (InfoHash in_).

Definition with_worker (w : option job) (p : Pipeline) : Pipeline := {|
  idx := idx p; input := input p; worker := w; running := running p; stopped := stopped p;
  counters := counters p; heap := heap p; next := next p; submitted := submitted p; marking := marking p; accepted := accepted p
|}.
Definition with_counters (m : gmap bytes nat) (h : gmap nat ihCounters) (n : nat) (p : Pipeline) : Pipeline := {|
  idx := idx p; input := input p; worker := worker p; running := running p; stopped := stopped p;
  counters := m; heap := h; next := n; submitted := submitted p; marking := marking p; accepted := accepted p
|}.
Definition with_idx (i : option B) (p : Pipeline) : Pipeline := {|
  idx := i; input := input p; worker := worker p; running := running p; stopped := stopped p;
  counters := counters p; heap := heap p; next := next p; submitted := submitted p; marking := marking p; accepted := accepted p
|}.

(** ** Counters *)
Definition countersFor (infohash : bytes) (p : Pipeline) : nat * Pipeline :=
  let k := strings_ToLower infohash in
  match counters p !! k with
  | Some r => (r, p)
  | None => (next p, with_counters (<[k := next p]> (counters p)) (<[next p := no_counts]> (heap p)) (S (next p)) p)
  end.
Definition Stats (infohash : bytes) (p : Pipeline) : ihCounters :=
  match counters p !! strings_ToLower infohash with
  | None => no_counts
  | Some r => default no_counts (heap p !! r)
  end.
Definition bump (f : ihCounters → ihCounters) (r : nat) (p : Pipeline) : Pipeline :=
  with_counters (counters p) (alter f r (heap p)) (next p) p.
Definition add_processed (c : ihCounters) : ihCounters :=
  {| processed := processed c + 1; extracted := extracted c; skipped := skipped c; failed := failed c |}.
Definition add_extracted (c : ihCounters) : ihCounters :=
  {| processed := processed c; extracted := extracted c + 1; skipped := skipped c; failed := failed c |}.
Definition add_skipped (c : ihCounters) : ihCounters :=
  {| processed := processed c; extracted := extracted c; skipped := skipped c + 1; failed := failed c |}.
Definition add_failed (c : ihCounters) : ihCounters :=
  {| processed := processed c; extracted := extracted c; skipped := skipped c; failed := failed c + 1 |}.

(** ** The queue *)
(** [select] takes either of two ready branches: [enqueue] says which.  [None]: it blocks. *)
Definition Submit (in_ : FileInput) (enqueue : bool) (p : Pipeline) : Pipeline * option bool :=
  if enqueue && (len (input p) <? queue_cap) then
    ({| idx := idx p; input := input p ++ [in_]; worker := worker p; running := running p; stopped := stopped p;
        counters := counters p; heap := heap p; next := next p;
        submitted := submitted p; marking := marking p ++ [(key in_, FileIndex in_)]; accepted := accepted p ++ [in_] |}, Some true)
  else if stopped p then (p, Some false)
  else (p, None).
(** The [i]-th of the submissions that have enqueued their file marks it. *)
Definition markSubmitted (i : nat) (p : Pipeline) : Pipeline :=
  match marking p !! i with
  | None => p
  | Some m =>
    {| idx := idx p; input := input p; worker := worker p; running := running p; stopped := stopped p;
       counters := counters p; heap := heap p; next := next p;
       submitted := {[ m ]} ∪ submitted p; marking := delete i (marking p); accepted := accepted p |}
  end.
Definition WasSubmitted (infohash : bytes) (fileIndex : Z) (p : Pipeline) : bool :=
  bool_decide ((strings_ToLower infohash, fileIndex) ∈ submitted p).
Definition ForgetSubmitted (infohash : bytes) (p : Pipeline) : Pipeline :=
  let k := strings_ToLower infohash in
  {| idx := idx p; input := input p; worker := worker p; running := running p; stopped := stopped p;
     counters := delete k (counters p); heap := heap p; next := next p;
     submitted := filter (λ e, e.1 ≠ k) (submitted p); marking := marking p; accepted := accepted p |}.
Definition Stop (p : Pipeline) : Pipeline := {|
  idx := idx p; input := input p; worker := worker p; running := running p; stopped := true;
  counters := counters p; heap := heap p; next := next p; submitted := submitted p; marking := marking p; accepted := accepted p
|}.

(** ** The worker *)
Definition extractor_name (e : Dispatch.extractor) : bytes :=
  str match e with
  | Dispatch.DOCX => "docx" | Dispatch.EPUB => "epub" | Dispatch.ODT => "odt" | Dispatch.PDF => "pdf"
  | Dispatch.Plaintext => "plaintext" | Dispatch.SubtitleFile => "subtitle" | Dispatch.ZIM => "zim"
  end.
Inductive extract_error : Type := ErrPanicked | ErrExtract | ErrTimeout.
(** [None] in: the extractor panics. *)
Definition safeExtract (r : option (option (list Chunker.Chunk))) (timeout : bool) : result extract_error (list Chunker.Chunk) :=
  if timeout then Err ErrTimeout
  else match r with
  | None => Err ErrPanicked
  | Some None => Err ErrExtract
  | Some (Some chunks) => Ok chunks
  end.
Definition finish (f : ihCounters → ihCounters) (j : job) (p : Pipeline) : Pipeline :=
  with_worker (Some {| j_in := j_in j; j_ref := j_ref j; j_phase := Finishing |}) (bump f (j_ref j) p).
(** [handle] up to the first write, the first outcome that is none. *)
Definition dispatching (j : job) (p : Pipeline) : Pipeline :=
  let in_ := j_in j in
  match Dispatch.Dispatch {| Dispatch.Path := Path in_; Dispatch.MIME := []; Dispatch.Size := Size in_ |} with
  | (None, _) => finish add_skipped j p
  | (Some ex, mime) =>
    match OpenReader in_ with
    | None => finish add_failed j p
    | Some f =>
      match safeExtract (Dispatch.Extract sorted ex f maxFileBytes) (late in_) with
      | Err _ => finish add_skipped j p
      | Ok [] => finish add_skipped j p
      | Ok chunks =>
        with_worker (Some {| j_in := in_; j_ref := j_ref j;
                             j_phase := Writing mime (extractor_name ex) chunks (len chunks) 0 0 |}) p
      end
    end
  end.
Definition content_doc (now : Z) (in_ : FileInput) (mime name : bytes) (ci : Z) (c : Chunker.Chunk) : Indexer.ContentDoc := {|
  Indexer.c_InfoHash := strings_ToLower (InfoHash in_); Indexer.c_FileIndex := FileIndex in_;
  Indexer.c_FilePath := Path in_; Indexer.c_FileSize := Size in_; Indexer.c_Mime := mime;
  Indexer.c_Text := Chunker.Text c; Indexer.c_Extractor := name; Indexer.c_IndexedAt := now;
  Indexer.c_ChunkIndex := ci; Indexer.PreserveExisting := false
|}.
Definition work (now : Z) (p : Pipeline) : Pipeline :=
  match worker p with
  | None => p
  | Some j =>
    match j_phase j with
    | Dispatching => dispatching j p
    | Writing mime name [] total ci errs =>
      finish (if errs =? total then add_failed else add_extracted) j p
    | Writing mime name (c :: todo) total ci errs =>
      let '(i, r) := Indexer.IndexContent now (content_doc now (j_in j) mime name ci c) (idx p) in
      with_worker (Some {| j_in := j_in j; j_ref := j_ref j;
        j_phase := Writing mime name todo total (ci + 1) (match r with Ok _ => errs | Err _ => errs + 1 end) |})
        (with_idx i p)
    | Finishing => with_worker None (bump add_processed (j_ref j) p)
    end
  end.
(** The next file, also after [Stop] if the queue has one. *)
Definition take_input (p : Pipeline) : Pipeline :=
  match worker p, input p with
  | None, in_ :: rest =>
    if running p then
      let '(r, p) := countersFor (InfoHash in_) p in
      {| idx := idx p; input := rest; worker := Some {| j_in := in_; j_ref := r; j_phase := Dispatching |};
         running := running p; stopped := stopped p; counters := counters p; heap := heap p; next := next p;
         submitted := submitted p; marking := marking p; accepted := accepted p |}
    else p
  | _, _ => p
  end.
Definition exit_worker (p : Pipeline) : Pipeline :=
  match worker p with
  | None =>
    {| idx := idx p; input := input p; worker := None; running := running p && negb (stopped p); stopped := stopped p;
       counters := counters p; heap := heap p; next := next p; submitted := submitted p; marking := marking p; accepted := accepted p |}
  | Some _ => p
  end.
(** [Engine.ForgetIndex]. *)
Definition ForgetIndex (ih : bytes) (p : Pipeline) : Pipeline :=
  let p := ForgetSubmitted ih p in
  let i := (Indexer.DeleteTorrent ih (idx p)).1 in
  with_idx (Indexer.DeleteContentForTorrent ih i).1 p.

Inductive op : Type :=
  | OpSubmit (in_ : FileInput) (enqueue : bool) | OpMark (i : nat) | OpTake | OpWork (now : Z) | OpExit
  | OpForget (ih : bytes) | OpForgetIndex (ih : bytes) | OpStop.
Definition step (p : Pipeline) (o : op) : Pipeline :=
  match o with
  | OpSubmit in_ e => (Submit in_ e p).1
  | OpMark i => markSubmitted i p
  | OpTake => take_input p
  | OpWork now => work now p
  | OpExit => exit_worker p
  | OpForget ih => ForgetSubmitted ih p
  | OpForgetIndex ih => ForgetIndex ih p
  | OpStop => Stop p
  end.
Definition run : list op → Pipeline → Pipeline := flip (foldl step).

(** ** The hourly rescan ([Engine.indexRescanOnce]) *)
Record file_state := { fs_path : bytes; fs_length : Z; fs_completed : Z; fs_open : option Dispatch.file; fs_late : bool }.
Record torrent_state := { ts_InfoHash : bytes; ts_indexing : bool; ts_files : option (list file_state) }.
Fixpoint rescan_files (p : Pipeline) (ih : bytes) (i : Z) (fs : list file_state) : list FileInput :=
  match fs with
  | [] => []
  | f :: fs =>
    if (fs_length f <=? 0) || negb (fs_completed f =? fs_length f) then rescan_files p ih (i + 1) fs
    else if WasSubmitted ih i p then rescan_files p ih (i + 1) fs
    else {| InfoHash := ih; FileIndex := i; Path := fs_path f; Size := fs_length f;
            OpenReader := fs_open f; late := fs_late f |} :: rescan_files p ih (i + 1) fs
  end.
(** The files it submits; each is looked up under its own number, so what it
    submits on the way changes nothing. *)
Definition indexRescanOnce (ts : list torrent_state) (p : Pipeline) : list FileInput :=
  ts ≫= λ t, if negb (ts_indexing t) then []
             else match ts_files t with None => [] | Some fs => rescan_files p (ts_InfoHash t) 0 fs end.

(** ** Accounting *)
Definition outcomes (c : ihCounters) : Z := extracted c + skipped c + failed c.
(** 1 while the worker has counted the outcome of its file but not the file. *)
Definition owed (p : Pipeline) (r : nat) : Z :=
  match worker p with
  | Some j => match j_phase j with Finishing => if bool_decide (j_ref j = r) then 1 else 0 | _ => 0 end
  | None => 0
  end.
Record wf (p : Pipeline) : Prop := {
  wf_queue : len (input p) ≤ queue_cap;
  wf_inj : ∀ k k' r, counters p !! k = Some r → counters p !! k' = Some r → k = k';
  wf_live : ∀ k r, counters p !! k = Some r → is_Some (heap p !! r);
  wf_next : ∀ r, is_Some (heap p !! r) → (r < next p)%nat;
  wf_sum : ∀ r c, heap p !! r = Some c →
    0 ≤ processed c ∧ 0 ≤ extracted c ∧ 0 ≤ skipped c ∧ 0 ≤ failed c ∧ outcomes c = processed c + owed p r;
  wf_job : ∀ j, worker p = Some j → is_Some (heap p !! j_ref j);
  wf_key : ∀ j k, worker p = Some j → counters p !! k = Some (j_ref j) → key (j_in j) = k
}.
Inductive adder : (ihCounters → ihCounters) → Prop :=
  | adder_extracted : adder add_extracted | adder_skipped : adder add_skipped | adder_failed : adder add_failed.
Definition same_job (j : job) (ph : phase) : job := {| j_in := j_in j; j_ref := j_ref j; j_phase := ph |}.

Lemma with_idx_id p : with_idx (idx p) p = p.
Proof. by destruct p. Qed.
(** A step of the worker: an outcome, a move inside the file, or the end of it. *)
Lemma work_cases now p j :
  worker p = Some j →
  (j_phase j ≠ Finishing ∧ ∃ f, adder f ∧ work now p = finish f j p) ∨
  (j_phase j ≠ Finishing ∧ ∃ ph i, ph ≠ Finishing ∧ work now p = with_worker (Some (same_job j ph)) (with_idx i p)) ∨
  (j_phase j = Finishing ∧ work now p = with_worker None (bump add_processed (j_ref j) p)).
Proof.
  intros Hw. unfold work. rewrite Hw. destruct (j_phase j) as [|mime name [|c todo] total ci errs|] eqn:Eph.
  - unfold dispatching. destruct (Dispatch.Dispatch _) as [[ex|] mime].
    2:{ left. split; [done |]. eexists. split; [constructor | done]. }
    destruct (OpenReader (j_in j)) as [f|]; [|left; split; [done |]; eexists; split; [constructor | done]].
    destruct (safeExtract _ _) as [[|c cs]|]; [left; split; [done |]; eexists; split; [constructor | done] | |
      left; split; [done |]; eexists; split; [constructor | done]].
    right. left. split; [done |]. eexists _, (idx p). split; [|by rewrite with_idx_id]. done.
  - left. split; [done |]. destruct (_ =? _); eexists; split; [constructor | done | constructor | done].
  - right. left. split; [done |]. destruct (Indexer.IndexContent _ _ _) as [i r]. eexists _, i. split; [|done]. done.
  - by right; right.
Qed.

Lemma wf_start i : wf (NewPipeline i).
Proof. split; try done. intros r [c Hc]. done. Qed.
Lemma countersFor_wf ih p :
  wf p → let '(r, p') := countersFor ih p in
  wf p' ∧ counters p' !! strings_ToLower ih = Some r ∧ is_Some (heap p' !! r) ∧ worker p' = worker p ∧
  (∀ k, k ≠ strings_ToLower ih → counters p' !! k = counters p !! k) ∧
  (∀ k, default no_counts (counters p' !! k ≫= λ r, heap p' !! r) = default no_counts (counters p !! k ≫= λ r, heap p !! r)).
Proof.
  intros Hwf. unfold countersFor. set (k := strings_ToLower ih). destruct (counters p !! k) as [r|] eqn:Ek.
  { split_and!; try done. by eapply wf_live. }
  assert (Hnew : heap p !! next p = None).
  { destruct (heap p !! next p) eqn:E; [|done]. assert (Hl : (next p < next p)%nat) by (apply wf_next; [done | by eexists]). lia. }
  assert (Hold : ∀ k' r, counters p !! k' = Some r → r ≠ next p).
  { intros k' r Hr ->. destruct (wf_live p Hwf _ _ Hr) as [c Hc]. congruence. }
  split_and!; try done.
  - destruct Hwf as [Hq Hi Hl Hn Hs Hj Hkey]. split; cbn [with_counters input counters heap next worker]; [done |..].
    + intros k1 k2 r Hk1 Hk2. rewrite lookup_insert in Hk1, Hk2. repeat case_decide; simplify_eq; try done.
      * by destruct (Hold _ _ Hk1).
      * by destruct (Hold _ _ Hk2).
      * by eapply Hi.
    + intros k1 r. rewrite !lookup_insert. repeat case_decide; intros; simplify_eq; try done. by eapply Hl.
    + intros r. rewrite lookup_insert. case_decide; [lia |]. intros Hr%Hn. lia.
    + intros r c. rewrite lookup_insert. case_decide as Er; [|apply Hs]. intros [= <-]. subst r. cbn.
      repeat split; try done. unfold owed. cbn. destruct (worker p) as [j|] eqn:Ew; [|done].
      destruct (Hj j eq_refl) as [c Hc]. destruct (j_phase j); try done. case_bool_decide; [|done]. congruence.
    + intros j Hw. rewrite lookup_insert. case_decide; [done |]. by apply Hj.
    + intros j k' Hw. rewrite lookup_insert. case_decide; [|by apply Hkey]. intros [= Hr].
      destruct (Hj j Hw) as [c Hc]. congruence.
  - cbn. by rewrite lookup_insert_eq.
  - cbn. by rewrite lookup_insert_eq.
  - intros k' Hk. cbn. by rewrite lookup_insert_ne by done.
  - intros k'. cbn. rewrite lookup_insert. case_decide as Ekk; cbn.
    + subst k'. by rewrite Ek, lookup_insert_eq.
    + destruct (counters p !! k') as [r|] eqn:E; [|done]. cbn. rewrite lookup_insert_ne; [done |]. intros <-. by eapply Hold.
Qed.

(** What changes neither the counters nor the worker. *)
Lemma wf_same p p' :
  wf p → len (input p') ≤ queue_cap → worker p' = worker p → counters p' = counters p → heap p' = heap p →
  next p' = next p → wf p'.
Proof.
  intros [Hq Hi Hl Hn Hs Hj Hk] Hq' Hw Hc Hh Hn'. split; rewrite ?Hw, ?Hc, ?Hh, ?Hn'; try done.
  intros r c. unfold owed. rewrite Hw. apply Hs.
Qed.
Lemma bump_counts f r p r' c :
  heap (bump f r p) !! r' = Some c →
  ∃ c', heap p !! r' = Some c' ∧ c = if bool_decide (r = r') then f c' else c'.
Proof.
  cbn. rewrite lookup_alter. case_decide as E; [|rewrite bool_decide_eq_false_2 by done; eauto].
  rewrite bool_decide_eq_true_2 by done. intros (c' & Hc & ->)%fmap_Some. subst. eauto.
Qed.
Lemma bump_live f r p r' : is_Some (heap (bump f r p) !! r') ↔ is_Some (heap p !! r').
Proof. cbn. rewrite lookup_alter. case_decide as E; [subst; by rewrite fmap_is_Some | done]. Qed.
Lemma adder_spec f c : adder f →
  outcomes (f c) = outcomes c + 1 ∧ processed (f c) = processed c ∧
  extracted c ≤ extracted (f c) ∧ skipped c ≤ skipped (f c) ∧ failed c ≤ failed (f c).
Proof. unfold outcomes. destruct 1; cbn; lia. Qed.

Lemma work_wf now p : wf p → wf (work now p).
Proof.
  intros Hwf. destruct (worker p) as [j|] eqn:Ew; [|by unfold work; rewrite Ew].
  destruct (work_cases now p j Ew) as [(Hph & f & Hf & ->)|[(Hph & ph & i & Hph' & ->)|[Hph ->]]]; pose proof Hwf as [Hq Hi Hl Hn Hs Hj Hk].
  - split; try done.
    + intros k r Hr. apply bump_live. by eapply Hl.
    + intros r Hr%bump_live. by apply Hn.
    + intros r c (c' & Hc & ->)%bump_counts. specialize (Hs r c' Hc). unfold owed in *. rewrite Ew in Hs. cbn.
      replace (match j_phase j with Finishing => if bool_decide (j_ref j = r) then 1 else 0 | _ => 0 end) with 0 in Hs by (by destruct (j_phase j)).
      pose proof (adder_spec f c' Hf). case_bool_decide; lia.
    + intros j' [= <-]. apply bump_live. by apply (Hj j).
    + intros j' k [= <-]. by apply (Hk j).
  - split; try done.
    + intros r c Hc. specialize (Hs r c Hc). unfold owed in *. rewrite Ew in Hs. cbn.
      destruct (j_phase j); try done; by destruct ph.
    + intros j' [= <-]. by apply (Hj j).
    + intros j' k [= <-]. by apply (Hk j).
  - split; try done.
    + intros k r Hr. apply bump_live. by eapply Hl.
    + intros r Hr%bump_live. by apply Hn.
    + intros r c (c' & Hc & ->)%bump_counts. specialize (Hs r c' Hc). unfold owed in *. rewrite Ew, Hph in Hs. cbn.
      case_bool_decide; unfold outcomes in *; cbn; lia.
Qed.
Lemma take_input_wf p : wf p → wf (take_input p).
Proof.
  intros Hwf. unfold take_input. destruct (worker p) as [j|] eqn:Ew; [done |]. destruct (input p) as [|in_ rest] eqn:Ei; [done |].
  destruct (running p); [|done]. pose proof (countersFor_wf (InfoHash in_) p Hwf) as Hc.
  destruct (countersFor (InfoHash in_) p) as [r p']. destruct Hc as ([Hq Hi Hl Hn Hs Hj Hk] & Hr & Hlive & Hw & _ & _).
  rewrite Ew in Hw. split; cbn; try done.
  - pose proof (wf_queue p Hwf) as Hq'. rewrite Ei, len_cons in Hq'. lia.
  - intros r' c Hc. specialize (Hs r' c Hc). unfold owed in *. by rewrite Hw in Hs.
  - intros j [= <-]. done.
  - intros j k [= <-]. cbn. intros Hk'. by eapply Hi.
Qed.
Lemma step_wf p o : wf p → wf (step p o).
Proof.
  intros Hwf. assert (Hforget : ∀ ih, wf (ForgetSubmitted ih p)).
  { intros ih. destruct Hwf as [Hq Hi Hl Hn Hs Hj Hk]. split; cbn; try done.
    - intros k k' r [_ Hr]%lookup_delete_Some [_ Hr']%lookup_delete_Some. by eapply Hi.
    - intros k r [_ Hr]%lookup_delete_Some. by eapply Hl.
    - intros j k Hw [_ Hr]%lookup_delete_Some. by eapply Hk. }
  destruct o as [in_ e|i| | now | | ih | ih | ]; cbn [step].
  - unfold Submit. destruct (e && _) eqn:E; [|by destruct (stopped p)]. b2p. apply (wf_same p); try done.
    cbn. rewrite len_app, len_cons, len_nil. lia.
  - unfold markSubmitted. destruct (marking p !! i); [|done]. by apply (wf_same p); [| apply (wf_queue p Hwf) | ..].
  - by apply take_input_wf.
  - by apply work_wf.
  - unfold exit_worker. destruct (worker p) eqn:Ew; [done |].
    by apply (wf_same p); [| apply (wf_queue p Hwf) | rewrite Ew | ..].
  - apply Hforget.
  - unfold ForgetIndex. specialize (Hforget ih). by apply (wf_same (ForgetSubmitted ih p)); [| apply (wf_queue _ Hforget) | ..].
  - by apply (wf_same p); [| apply (wf_queue p Hwf) | ..].
Qed.
Lemma pipe_run_wf ops p : wf p → wf (run ops p).
Proof. unfold run, flip. revert p. induction ops as [|o ops IH]; intros p Hp; [done |]. cbn. by apply IH, step_wf. Qed.

(** *** A torrent that is not forgotten *)
Definition count (k : bytes) (l : list FileInput) : Z := len (List.filter (λ in_, bool_decide (key in_ = k)) l).
Definition busy (k : bytes) (p : Pipeline) : Z :=
  match worker p with Some j => if bool_decide (key (j_in j) = k) then 1 else 0 | None => 0 end.
Definition stats_of (k : bytes) (p : Pipeline) : ihCounters := default no_counts (counters p !! k ≫= λ r, heap p !! r).
Definition forgets (k : bytes) (o : op) : bool :=
  match o with OpForget ih | OpForgetIndex ih => bool_decide (strings_ToLower ih = k) | _ => false end.
Record kept (k : bytes) (p : Pipeline) : Prop := {
  kept_submitted : ∀ i, (k, i) ∈ submitted p ∨ (k, i) ∈ marking p ↔ ∃ in_, in_ ∈ accepted p ∧ key in_ = k ∧ FileIndex in_ = i;
  kept_count : count k (accepted p) = processed (stats_of k p) + count k (input p) + busy k p;
  kept_ref : ∀ j, worker p = Some j → key (j_in j) = k → counters p !! k = Some (j_ref j)
}.
Lemma Stats_stats_of ih p : Stats ih p = stats_of (strings_ToLower ih) p.
Proof. unfold Stats, stats_of. by destruct (counters p !! strings_ToLower ih). Qed.
Lemma tally_app k a b : count k (a ++ b) = count k a + count k b.
Proof. unfold count. by rewrite List.filter_app, len_app. Qed.
Lemma tally_cons k x l : count k (x :: l) = (if bool_decide (key x = k) then 1 else 0) + count k l.
Proof. unfold count. cbn [List.filter]. case_bool_decide; [by rewrite len_cons | done]. Qed.
Lemma kept_start k i : kept k (NewPipeline i).
Proof. split; try done. intros n. cbn. split; [intros [?|?]; set_solver | intros (x & Hx & _); by apply elem_of_nil in Hx]. Qed.

Lemma stats_bump k f r p :
  stats_of k (bump f r p) =
  if bool_decide (counters p !! k = Some r ∧ is_Some (heap p !! r)) then f (stats_of k p) else stats_of k p.
Proof.
  unfold stats_of. cbn. destruct (counters p !! k) as [r'|] eqn:E; cbn; [|by rewrite bool_decide_eq_false_2 by naive_solver].
  rewrite lookup_alter. case_decide as Er.
  - subst r'. destruct (heap p !! r) as [c|] eqn:Ec; cbn.
    + by rewrite bool_decide_eq_true_2 by eauto.
    + rewrite bool_decide_eq_false_2; [done |]. intros [_ [c Hc]]. congruence.
  - rewrite bool_decide_eq_false_2; [done |]. intros [[= ->] _]. congruence.
Qed.
Lemma work_kept now k p : wf p → kept k p → kept k (work now p).
Proof.
  intros Hwf Hk. pose proof Hk as [Hs Hc Hr]. destruct (worker p) as [j|] eqn:Ew; [|unfold work; by rewrite Ew].
  unfold busy in Hc. rewrite Ew in Hc.
  destruct (work_cases now p j Ew) as [(Hph & f & Hf & ->)|[(Hph & ph & i & Hph' & ->)|[Hph ->]]].
  - split; [done | |].
    + change (stats_of k (finish f j p)) with (stats_of k (bump f (j_ref j) p)). rewrite stats_bump.
      change (busy k (finish f j p)) with (if bool_decide (key (j_in j) = k) then 1 else 0).
      change (accepted (finish f j p)) with (accepted p). change (input (finish f j p)) with (input p).
      destruct (adder_spec f (stats_of k p) Hf) as (_ & Hp & _). destruct (bool_decide (counters p !! k = _ ∧ _)); lia.
    + intros j' [= <-]. by apply (Hr j).
  - split; [done | done |]. intros j' [= <-]. by apply (Hr j).
  - split; [done | |done].
    set (p' := with_worker None _). change (input p') with (input p). change (accepted p') with (accepted p).
    change (busy k p') with 0. change (stats_of k p') with (stats_of k (bump add_processed (j_ref j) p)).
    rewrite Hc, stats_bump. case_bool_decide as E1; case_bool_decide as E2; cbn [add_processed processed]; try lia.
    + destruct E2. split; [by apply (Hr j) | by apply (wf_job p Hwf)].
    + destruct E1. by apply (wf_key p Hwf j); [| destruct E2].
Qed.
Lemma step_kept k p o : wf p → kept k p → forgets k o = false → kept k (step p o).
Proof.
  intros Hwf Hk Hf. assert (Hforget : ∀ ih, strings_ToLower ih ≠ k → kept k (ForgetSubmitted ih p)).
  { intros ih Hne. destruct Hk as [Hs Hc Hr]. split; cbn.
    - intros i. rewrite <-Hs, elem_of_filter. cbn. naive_solver.
    - rewrite Hc. unfold stats_of, busy. cbn. by rewrite lookup_delete_ne by done.
    - intros j Hw Hkey. rewrite lookup_delete_ne by done. by apply Hr. }
  destruct o as [in_ e|i| | now | | ih | ih | ]; cbn [step forgets] in *; b2p.
  - unfold Submit. destruct (e && _) eqn:E; [|by destruct (stopped p)]. destruct Hk as [Hs Hc Hr]. split; cbn; [| |done].
    + intros i. rewrite elem_of_app, list_elem_of_singleton, (assoc (∨)), Hs. setoid_rewrite elem_of_app.
      setoid_rewrite list_elem_of_singleton. naive_solver.
    + rewrite !tally_app, Hc. unfold stats_of, busy. cbn. lia.
  - unfold markSubmitted. destruct (marking p !! i) as [m|] eqn:E; [|done]. destruct Hk as [Hs Hc Hr]. split; [|done..].
    intros n. rewrite <-Hs. cbn. rewrite elem_of_union, elem_of_singleton, delete_take_drop, elem_of_app.
    rewrite <-(take_drop_middle _ _ _ E) at 3. rewrite elem_of_app, elem_of_cons. tauto.
  - unfold take_input. destruct (worker p) as [j|] eqn:Ew; [done |]. destruct (input p) as [|in_ rest] eqn:Ei; [done |].
    destruct (running p); [|done]. pose proof (countersFor_wf (InfoHash in_) p Hwf) as Hcf.
    destruct (countersFor (InfoHash in_) p) as [r p'] eqn:Ecf. destruct Hcf as (_ & Hr & _ & _ & _ & Hst).
    assert (Hp' : submitted p' = submitted p ∧ marking p' = marking p ∧ accepted p' = accepted p).
    { unfold countersFor in Ecf. destruct (counters p !! _); by simplify_eq. }
    destruct Hp' as (Hps & Hpm & Hpa). destruct Hk as [Hs Hc Hr']. split; cbn; rewrite ?Hps, ?Hpm, ?Hpa; [done | |].
    + rewrite Hc, Ei, tally_cons. unfold busy. rewrite Ew. cbn. unfold stats_of. cbn. rewrite Hst. lia.
    + intros j [= <-] <-. done.
  - by apply work_kept.
  - unfold exit_worker. destruct (worker p) eqn:Ew; [done |]. destruct Hk as [Hs Hc Hr]. split; try done.
    unfold busy in *. by rewrite Ew in Hc.
  - by apply Hforget.
  - unfold ForgetIndex. destruct (Hforget ih Hf) as [Hs Hc Hr]. by split.
  - destruct Hk as [Hs Hc Hr]. by split.
Qed.
Lemma run_kept k ops p : wf p → kept k p → forallb (λ o, negb (forgets k o)) ops = true → kept k (run ops p).
Proof.
  unfold run, flip. revert p. induction ops as [|o ops IH]; intros p Hwf Hk Ho; [done |]. cbn in *. b2p.
  apply IH; [by apply step_wf | by apply step_kept | done].
Qed.

(** *** The worker gets through its file *)
Definition effort (p : Pipeline) : nat :=
  match worker p with
  | None => O
  | Some j => match j_phase j with
              | Dispatching => 0
              | Writing _ _ todo _ _ _ => S (S (length todo))
              | Finishing => 1
              end
  end.
Lemma works_idle nows p : worker p = None → worker (foldl (flip work) p nows) = None.
Proof. revert p. induction nows as [|now nows IH]; intros p Hw; [done |]. cbn. apply IH. unfold flip, work. by rewrite Hw. Qed.
Lemma effort_ends nows p :
  (∀ j, worker p = Some j → j_phase j ≠ Dispatching) → (effort p ≤ length nows)%nat →
  worker (foldl (flip work) p nows) = None.
Proof.
  revert p. induction nows as [|now nows IH]; intros p Hd He; unfold effort in He.
  - destruct (worker p) as [j|] eqn:Ew; [|done]. specialize (Hd j eq_refl). destruct (j_phase j); [done | simpl in He; lia..].
  - destruct (worker p) as [j|] eqn:Ew; [|by apply works_idle]. specialize (Hd j eq_refl). cbn [foldl]. unfold flip at 2.
    unfold work. rewrite Ew. destruct (j_phase j) as [|mime name [|c todo] total ci errs|] eqn:Ep; [done | | |].
    + apply IH; [by intros ? [= <-] | unfold effort; cbn in *; lia].
    + destruct (Indexer.IndexContent _ _ _) as [i r]. apply IH; [by intros ? [= <-] | unfold effort; cbn in *; lia].
    + by apply works_idle.
Qed.
(** Whatever the file holds, so many steps and the worker is free. *)
Lemma work_ends p : ∃ n, ∀ nows, (n ≤ length nows)%nat → worker (foldl (flip work) p nows) = None.
Proof.
  destruct (worker p) as [j|] eqn:Ew; [|exists O; intros; by apply works_idle].
  assert (Hdec : j_phase j = Dispatching ∨ j_phase j ≠ Dispatching) by (destruct (j_phase j); auto).
  destruct Hdec as [Ep|Ep].
  2:{ exists (effort p). intros nows Hn. apply effort_ends; [|done]. intros j' Hj. congruence. }
  exists (S (effort (dispatching j p))). intros [|now nows] Hn; [simpl in Hn; lia |]. cbn [foldl]. unfold flip at 2.
  destruct (work_cases now p j Ew) as [(_ & f & Hf & Hw)|[(_ & ph & i & _ & Hw)|[Hph _]]]; [| |congruence].
  all: assert (Hwd : work now p = dispatching j p) by (unfold work; by rewrite Ew, Ep).
  all: rewrite Hwd in *; apply effort_ends; [|simpl in Hn; lia].
  - rewrite Hw. by intros ? [= <-].
  - unfold dispatching. repeat case_match; by intros ? [= <-].
Qed.


(** The rescan submits the finished files of indexed torrents that were not
    submitted, under the name and number the torrent has for them. *)
Lemma rescan_files_spec p ih i fs in_ :
  in_ ∈ rescan_files p ih i fs ↔
  ∃ n f, fs !! n = Some f ∧ 0 < fs_length f ∧ fs_completed f = fs_length f ∧
    WasSubmitted ih (i + Z.of_nat n) p = false ∧
    in_ = {| InfoHash := ih; FileIndex := i + Z.of_nat n; Path := fs_path f; Size := fs_length f;
             OpenReader := fs_open f; late := fs_late f |}.
Proof.
  revert i. induction fs as [|f fs IH]; intros i; cbn [rescan_files].
  { rewrite elem_of_nil. split; [done |]. intros (n & f & Hf & _). done. }
  assert (Hshift : (∃ n g, fs !! n = Some g ∧ 0 < fs_length g ∧ fs_completed g = fs_length g ∧
      WasSubmitted ih (i + 1 + Z.of_nat n) p = false ∧
      in_ = {| InfoHash := ih; FileIndex := i + 1 + Z.of_nat n; Path := fs_path g; Size := fs_length g;
               OpenReader := fs_open g; late := fs_late g |}) ↔
    (∃ n g, (f :: fs) !! S n = Some g ∧ 0 < fs_length g ∧ fs_completed g = fs_length g ∧
      WasSubmitted ih (i + Z.of_nat (S n)) p = false ∧
      in_ = {| InfoHash := ih; FileIndex := i + Z.of_nat (S n); Path := fs_path g; Size := fs_length g;
               OpenReader := fs_open g; late := fs_late g |})).
  { split; intros (n & g & Hg); exists n, g; [replace (i + Z.of_nat (S n)) with (i + 1 + Z.of_nat n) by lia |
      replace (i + 1 + Z.of_nat n) with (i + Z.of_nat (S n)) by lia]; done. }
  assert (Hsplit : ∀ P : nat → file_state → Prop, (∃ n g, (f :: fs) !! n = Some g ∧ P n g) ↔
    P O f ∨ ∃ n g, (f :: fs) !! S n = Some g ∧ P (S n) g).
  { intros P. split; [intros ([|n] & g & Hg & HP); simplify_eq/=; eauto |]. intros [HP|(n & g & Hg & HP)]; eauto. by exists O, f. }
  rewrite Hsplit. rewrite Z.add_0_r.
  destruct (Z.leb_spec (fs_length f) 0); cbn [orb]; [rewrite IH, Hshift; intuition lia |].
  destruct (Z.eqb_spec (fs_completed f) (fs_length f)); cbn [negb]; [|rewrite IH, Hshift; intuition done].
  destruct (WasSubmitted ih i p) eqn:E; [rewrite IH, Hshift; intuition congruence |].
  rewrite elem_of_cons, IH, Hshift. intuition done.
Qed.
Lemma rescan_spec ts p in_ :
  in_ ∈ indexRescanOnce ts p ↔
  ∃ t fs n f, t ∈ ts ∧ ts_indexing t = true ∧ ts_files t = Some fs ∧ fs !! n = Some f ∧
    0 < fs_length f ∧ fs_completed f = fs_length f ∧ WasSubmitted (ts_InfoHash t) (Z.of_nat n) p = false ∧
    in_ = {| InfoHash := ts_InfoHash t; FileIndex := Z.of_nat n; Path := fs_path f; Size := fs_length f;
             OpenReader := fs_open f; late := fs_late f |}.
Proof.
  unfold indexRescanOnce. rewrite list_elem_of_bind. split.
  - intros (t & Hin & Ht). destruct (ts_indexing t) eqn:Ei; cbn [negb] in Hin; [|by apply elem_of_nil in Hin].
    destruct (ts_files t) as [fs|] eqn:Ef; [|by apply elem_of_nil in Hin].
    apply rescan_files_spec in Hin as (n & f & Hf). exists t, fs, n, f. by rewrite Z.add_0_l in Hf.
  - intros (t & fs & n & f & Ht & Hi & Hf & Hrest). exists t. split; [|done]. rewrite Hi, Hf. cbn [negb].
    apply rescan_files_spec. exists n, f. by rewrite Z.add_0_l.
Qed.
End pipeline.

Module Examples.
Import Zim.Examples Dispatch.Examples Indexer.Examples.
#[local] Existing Instance ascii_unicode.
Definition note : FileInput := {|
  InfoHash := str "AB"; FileIndex := 0; Path := str "note.txt"; Size := 6;
  OpenReader := Some {| Dispatch.f_stream := of_bytes (str "a note"); Dispatch.f_at := over_bytes [] |}; late := false
|}.
Definition run_here : list op → Pipeline → Pipeline := run (λ es, es) 0.
Definition fresh : Pipeline := NewPipeline (Some (∅ : gmap bytes Indexer.document)).
(** Its documents are deleted while the worker has its text; one is written after. *)
Example forgotten_is_indexed :
  let p := run_here [OpSubmit note true; OpMark 0; OpTake; OpWork 0; OpForgetIndex (str "ab"); OpWork 0; OpWork 0; OpWork 0] fresh in
  worker p = None ∧ Indexer.DocCount (idx p) = Ok 1.
Proof. vm_compute. done. Qed.
(** Between an outcome and the end of its file, the counters do not agree. *)
Example counted_early :
  let p := run_here [OpSubmit note true; OpMark 0; OpTake; OpWork 0; OpWork 0; OpWork 0] fresh in
  processed (Stats (str "ab") p) = 0 ∧ extracted (Stats (str "ab") p) = 1.
Proof. vm_compute. done. Qed.
(** After [Stop] a file may still be taken into the queue, where it stays. *)
Example queued_after_stop :
  let p := run_here [OpStop; OpExit] fresh in
  (Submit note true p).2 = Some true ∧ take_input (Submit note true p).1 = (Submit note true p).1.
Proof. vm_compute. done. Qed.
End Examples.
End Pipeline.
