(* ===== verification/Session.v ===== *)
(** * The session (internal/engine: session.go, restore.go; add.go, handle.go and
      engine.go as far as they touch it)

    Which torrents a node has survives a restart through a JSON file and copies of
    the torrent files.  Adding, removing and changing torrents run in goroutines
    that each take several steps; the steps are modelled one by one, so that they
    interleave.  The torrent library is a class. *)

From S2P Require Import Prelude GoInt Utf8 Hex Externals Instances Sha1 Signing.
Open Scope Z_scope.

Module Session.

(** ** Entries and their file *)
Record sessionEntry := {
  InfoHash : bytes; AddedVia : bytes; MagnetURI : bytes; TorrentFile : bytes; Paused : bool; Indexing : bool;
  QueueOrder : Z; SignedBy : bytes; DataPath : bytes; ContentName : bytes
}.
Definition zero_entry (ih : bytes) : sessionEntry := {|
  InfoHash := ih; AddedVia := []; MagnetURI := []; TorrentFile := []; Paused := false; Indexing := false;
  QueueOrder := 0; SignedBy := []; DataPath := []; ContentName := []
|}.
(** [encoding/json] on a [sessionFile]. *)
Class SessionJson := {
  json_encode : list sessionEntry → bytes;
  json_decode : bytes → option (list sessionEntry)
}.
Record entry_utf8 (e : sessionEntry) : Prop := {
  utf8_infohash : Utf8.valid (InfoHash e); utf8_via : Utf8.valid (AddedVia e); utf8_magnet : Utf8.valid (MagnetURI e);
  utf8_file : Utf8.valid (TorrentFile e); utf8_signed : Utf8.valid (SignedBy e); utf8_path : Utf8.valid (DataPath e);
  utf8_name : Utf8.valid (ContentName e)
}.
(** What is valid UTF-8 comes back, and an encoding is not empty. *)
Class SessionJsonLaws `{SessionJson} : Prop := {
  json_decode_encode l : Forall entry_utf8 l → json_decode (json_encode l) = Some l;
  json_nonempty l : json_encode l ≠ []
}.

(** The files: [session.json], and [torrents/] by name; nothing reads the temporary
    ones. [persistent]: there is a data directory. *)
Record session := {
  persistent : bool; entries : gmap bytes sessionEntry; session_json : option bytes; copies : gmap bytes bytes
}.
Definition with_entries (m : gmap bytes sessionEntry) (s : session) : session :=
  {| persistent := persistent s; entries := m; session_json := session_json s; copies := copies s |}.
Definition with_copies (m : gmap bytes bytes) (s : session) : session :=
  {| persistent := persistent s; entries := entries s; session_json := session_json s; copies := m |}.

(** By queue order, then by infohash. *)
Definition less (a b : sessionEntry) : bool :=
  if negb (QueueOrder a =? QueueOrder b) then QueueOrder a <? QueueOrder b
  else match bytes_compare (InfoHash a) (InfoHash b) with Lt => true | _ => false end.
Definition sorted_entries (m : gmap bytes sessionEntry) : list sessionEntry :=
  stable_sort less (map_to_list m).*2.

Section session.
Context `{SessionJson}.
(** [ok]: the write and the rename succeed. *)
Definition saveLocked (ok : bool) (s : session) : session :=
  if persistent s && ok
  then {| persistent := true; entries := entries s; session_json := Some (json_encode (sorted_entries (entries s)));
          copies := copies s |}
  else s.
Definition list_entries (s : session) : list sessionEntry := sorted_entries (entries s).
Definition updateGuarded (ok : bool) (ih : bytes) (abort : bool) (mut : sessionEntry → sessionEntry) (s : session) : session :=
  if abort then s
  else
    let ent := match entries s !! ih with
               | Some e => {| InfoHash := ih; AddedVia := AddedVia e; MagnetURI := MagnetURI e; TorrentFile := TorrentFile e;
                              Paused := Paused e; Indexing := Indexing e; QueueOrder := QueueOrder e;
                              SignedBy := SignedBy e; DataPath := DataPath e; ContentName := ContentName e |}
               | None => zero_entry ih
               end in
    saveLocked ok (with_entries (<[ih := mut ent]> (entries s)) s).
Definition update (ok : bool) (ih : bytes) (mut : sessionEntry → sessionEntry) (s : session) : session :=
  updateGuarded ok ih false mut s.
Definition updateExisting (ok : bool) (ih : bytes) (mut : sessionEntry → sessionEntry) (s : session) : session * bool :=
  match entries s !! ih with
  | None => (s, false)
  | Some e => (saveLocked ok (with_entries (<[ih := mut e]> (entries s)) s), true)
  end.
(** The locked part of [remove], and the name of the copy it then unlinks. *)
Definition remove_locked (ok : bool) (ih : bytes) (s : session) : session * option bytes :=
  let name := match entries s !! ih with
              | Some e => if bool_decide (TorrentFile e = []) || negb (persistent s) then None else Some (TorrentFile e)
              | None => None
              end in
  (saveLocked ok (with_entries (delete ih (entries s)) s), name).
Definition unlink (name : bytes) (s : session) : session := with_copies (delete name (copies s)) s.
Definition torrent_name (ih : bytes) : bytes := ih ++ str ".torrent".
(** The name written, empty if there is no directory or the write failed. *)
Definition writeTorrentCopy (ok : bool) (ih raw : bytes) (s : session) : session * bytes :=
  if persistent s && ok then (with_copies (<[torrent_name ih := raw]> (copies s)) s, torrent_name ih)
  else (s, []).

(** [read]: what reading [session.json] yields.  A file that cannot be read or
    decoded leaves an empty session. *)
Definition loadSession (s : session) : session :=
  if persistent s then
    let ents := match session_json s with
                | None | Some [] => []
                | Some raw => default [] (json_decode raw)
                end in
    let rows := List.filter (λ e, len (InfoHash e) =? 40) ents in
    {| persistent := true; entries := foldl (λ m e, <[InfoHash e := e]> m) ∅ rows;
       session_json := session_json s; copies := copies s |}
  else {| persistent := false; entries := ∅; session_json := None; copies := ∅ |}.
End session.

(** ** Handles *)
Record Handle := {
  h_ih : array 20; h_paused : bool; h_indexing : bool; h_signedBy : bytes; h_queueOrder : Z; h_removed : bool
}.
Definition with_flags (p i : bool) (h : Handle) : Handle := {|
  h_ih := h_ih h; h_paused := p; h_indexing := i; h_signedBy := h_signedBy h; h_queueOrder := h_queueOrder h; h_removed := h_removed h
|}.
Definition with_signed (s : bytes) (h : Handle) : Handle := {|
  h_ih := h_ih h; h_paused := h_paused h; h_indexing := h_indexing h; h_signedBy := s; h_queueOrder := h_queueOrder h; h_removed := h_removed h
|}.
Definition mark_removed (h : Handle) : Handle := {|
  h_ih := h_ih h; h_paused := h_paused h; h_indexing := h_indexing h; h_signedBy := h_signedBy h; h_queueOrder := h_queueOrder h; h_removed := true
|}.
Definition InfoHashHex (ih : array 20) : bytes := Hex.EncodeToString (sl ih).

(** What a goroutine still has to do; [h] is an object of [objs]. *)
Inductive task : Type :=
  | SetSigned (h : nat) (signed : bytes) (via : bytes) (raw : option bytes) (seed : option (bytes * bytes))
  | CopyFile (h : nat) (via : bytes) (raw : option bytes) (seed : option (bytes * bytes))
  | Persist (h : nat) (via magnet file : bytes) (seed : option (bytes * bytes))
  | SeedFields (h : nat) (path name : bytes)
  | UpgradeSigned (h : nat) (signed raw : bytes) | UpgradeCopy (h : nat) (signed raw : bytes) | UpgradeEntry (h : nat) (signed file : bytes)
  | MagnetCheck (h : nat) (raw : option bytes) | MagnetList (h : nat) (raw : option bytes)
  | MagnetCopy (h : nat) (raw : bytes) | MagnetEntry (h : nat) (file : bytes)
  | Unregister (h : nat) | DropEntry (h : nat) | Unlink (name : bytes)
  | PersistState (h : nat).
Record Engine := {
  handles : gmap (array 20) nat; objs : gmap nat Handle; next : nat; nextQueueOrder : Z; closed : bool;
  sess : session; tasks : list task; waiting : list nat   (** for the metadata of a magnet *)
}.
Definition with_sess (s : session) (e : Engine) : Engine := {|
  handles := handles e; objs := objs e; next := next e; nextQueueOrder := nextQueueOrder e; closed := closed e;
  sess := s; tasks := tasks e; waiting := waiting e |}.
Definition with_objs (m : gmap nat Handle) (e : Engine) : Engine := {|
  handles := handles e; objs := m; next := next e; nextQueueOrder := nextQueueOrder e; closed := closed e;
  sess := sess e; tasks := tasks e; waiting := waiting e |}.
Definition with_handles (m : gmap (array 20) nat) (e : Engine) : Engine := {|
  handles := m; objs := objs e; next := next e; nextQueueOrder := nextQueueOrder e; closed := closed e;
  sess := sess e; tasks := tasks e; waiting := waiting e |}.
Definition with_tasks (ts : list task) (e : Engine) : Engine := {|
  handles := handles e; objs := objs e; next := next e; nextQueueOrder := nextQueueOrder e; closed := closed e;
  sess := sess e; tasks := ts; waiting := waiting e |}.
Definition spawn (t : task) (e : Engine) : Engine := with_tasks (tasks e ++ [t]) e.
Definition NewEngine (s : session) : Engine := {|
  handles := ∅; objs := ∅; next := O; nextQueueOrder := 0; closed := false; sess := s; tasks := []; waiting := []
|}.
Definition obj (h : nat) (e : Engine) : Handle :=
  default {| h_ih := zero_arr 20; h_paused := false; h_indexing := false; h_signedBy := []; h_queueOrder := 0; h_removed := false |} (objs e !! h).

(** [restore]: the entry a restart restores. *)
Definition registerLockedRestore (ih : array 20) (restore : option sessionEntry) (e : Engine) : Engine * (nat * bool) :=
  match handles e !! ih with
  | Some h => (e, (h, true))
  | None =>
    let nextq := match restore with
                 | Some ent => if nextQueueOrder e <? QueueOrder ent then QueueOrder ent else nextQueueOrder e
                 | None => i64 (nextQueueOrder e + 1)
                 end in
    let h := match restore with
             | Some ent => {| h_ih := ih; h_paused := Paused ent; h_indexing := Indexing ent; h_signedBy := SignedBy ent;
                              h_queueOrder := QueueOrder ent; h_removed := false |}
             | None => {| h_ih := ih; h_paused := false; h_indexing := true; h_signedBy := [];
                          h_queueOrder := nextq; h_removed := false |}
             end in
    ({| handles := <[ih := next e]> (handles e); objs := <[next e := h]> (objs e); next := S (next e);
        nextQueueOrder := nextq; closed := closed e; sess := sess e; tasks := tasks e; waiting := waiting e |}, (next e, false))
  end.

Definition with_waiting (w : list nat) (e : Engine) : Engine := {|
  handles := handles e; objs := objs e; next := next e; nextQueueOrder := nextQueueOrder e; closed := closed e;
  sess := sess e; tasks := tasks e; waiting := w |}.
Definition close_engine (e : Engine) : Engine := {|
  handles := handles e; objs := objs e; next := next e; nextQueueOrder := nextQueueOrder e; closed := true;
  sess := sess e; tasks := tasks e; waiting := waiting e |}.

(** ** The torrent library

    The infohash the strict parser of the contracts finds in a torrent file, and
    the one the library does; the name in its info dictionary; the infohash of a
    magnet link; the file the library makes of fetched metadata. *)
Class Torrents := {
  contract_infohash : bytes → option (array 20);
  load_infohash : bytes → option (array 20);
  info_name : bytes → option bytes;
  magnet_infohash : bytes → option (array 20);
  fetched_file : array 20 → option bytes
}.
(** Fetched metadata is that of the infohash. *)
Class TorrentsLaws `{Torrents} : Prop :=
  fetched_infohash ih raw : fetched_file ih = Some raw → load_infohash raw = Some ih.

Section engine.
Context `{SessionJson} `{Torrents} `{Ed25519} `{Signing.RawDict}.

(** ** Adding *)
Definition parseTorrentBytes (raw : bytes) : option (array 20) :=
  match contract_infohash raw, load_infohash raw with
  | Some a, Some b => if bool_decide (a = b) then Some a else None
  | _, _ => None
  end.
Definition verifyTorrentSignature (raw : bytes) : bytes :=
  match Signing.Verify raw with
  | (sig, None) => Signing.PubKeyHex sig
  | (_, Some _) => []
  end.
(** [accepted]: the client takes the torrent. *)
Definition AddMagnet (uri : bytes) (accepted : bool) (e : Engine) : Engine :=
  match magnet_infohash uri with
  | None => e
  | Some ih =>
    if bool_decide (ih = zero_arr 20) || closed e || negb accepted then e
    else
      let '(e, (h, existed)) := registerLockedRestore ih None e in
      if existed then e else spawn (Persist h (str "magnet") uri [] None) e
  end.
Definition AddInfoHash (ih : array 20) (e : Engine) : Engine :=
  if bool_decide (ih = zero_arr 20) || closed e then e
  else
    let '(e, (h, existed)) := registerLockedRestore ih None e in
    if existed then e else spawn (Persist h (str "infohash") [] [] None) e.
(** [seed]: where the content is, as [splitSeedRoot] leaves it. *)
Definition add_file (ih : array 20) (signed via : bytes) (raw : option bytes) (seed : option (bytes * bytes)) (e : Engine) : Engine :=
  let '(e, (h, existed)) := registerLockedRestore ih None e in
  if existed then
    (if bool_decide (signed = []) then e else spawn (UpgradeSigned h signed (default [] raw)) e)
  else spawn (SetSigned h signed via raw seed) e.
Definition AddTorrentBytes (raw : bytes) (seed : option (bytes * bytes)) (accepted : bool) (e : Engine) : Engine :=
  match parseTorrentBytes raw with
  | None => e
  | Some ih =>
    if closed e || negb accepted then e
    else add_file ih (verifyTorrentSignature raw) (str "file") (Some raw) seed e
  end.
(** [raw]: the metainfo marshalled, if that works. *)
Definition AddTorrentMetaInfo (ih : array 20) (raw : option bytes) (seed : option (bytes * bytes)) (accepted : bool) (e : Engine) : Engine :=
  if closed e || negb accepted then e else add_file ih [] (str "metainfo") raw seed e.

(** ** Changing and removing *)
Definition change (ih : array 20) (f : Handle → Handle) (idle : Handle → bool) (e : Engine) : Engine :=
  match handles e !! ih with
  | None => e
  | Some h =>
    if idle (obj h e) then e
    else spawn (PersistState h) (with_objs (<[h := f (obj h e)]> (objs e)) e)
  end.
Definition PauseTorrent (ih : array 20) : Engine → Engine :=
  change ih (λ h, with_flags true (h_indexing h) h) h_paused.
Definition ResumeTorrent (ih : array 20) : Engine → Engine :=
  change ih (λ h, with_flags false (h_indexing h) h) (λ h, negb (h_paused h)).
Definition SetTorrentIndexing (ih : array 20) (b : bool) : Engine → Engine :=
  change ih (λ h, with_flags (h_paused h) b h) (λ _, false).
Definition RemoveTorrent (ih : array 20) (e : Engine) : Engine :=
  match handles e !! ih with
  | None => e
  | Some h => spawn (Unregister h) (with_objs (<[h := mark_removed (obj h e)]> (objs e)) e)
  end.

(** ** The steps of the goroutines *)
Definition persist_entry (h : Handle) (via magnet file : bytes) (ent : sessionEntry) : sessionEntry := {|
  InfoHash := InfoHash ent; AddedVia := via;
  MagnetURI := if bool_decide (magnet = []) then MagnetURI ent else magnet;
  TorrentFile := if bool_decide (file = []) then TorrentFile ent else file;
  Paused := h_paused h; Indexing := h_indexing h; QueueOrder := h_queueOrder h;
  SignedBy := if bool_decide (h_signedBy h = []) then SignedBy ent else h_signedBy h;
  DataPath := DataPath ent; ContentName := ContentName ent
|}.
Definition state_entry (h : Handle) (ent : sessionEntry) : sessionEntry := {|
  InfoHash := InfoHash ent; AddedVia := AddedVia ent; MagnetURI := MagnetURI ent; TorrentFile := TorrentFile ent;
  Paused := h_paused h; Indexing := h_indexing h; QueueOrder := h_queueOrder h;
  SignedBy := SignedBy ent; DataPath := DataPath ent; ContentName := ContentName ent
|}.
Definition file_entry (signed file : option bytes) (ent : sessionEntry) : sessionEntry := {|
  InfoHash := InfoHash ent; AddedVia := AddedVia ent; MagnetURI := MagnetURI ent;
  TorrentFile := default (TorrentFile ent) file;
  Paused := Paused ent; Indexing := Indexing ent; QueueOrder := QueueOrder ent;
  SignedBy := default (SignedBy ent) signed; DataPath := DataPath ent; ContentName := ContentName ent
|}.
Definition seed_entry (path name : bytes) (ent : sessionEntry) : sessionEntry := {|
  InfoHash := InfoHash ent; AddedVia := AddedVia ent; MagnetURI := MagnetURI ent; TorrentFile := TorrentFile ent;
  Paused := Paused ent; Indexing := Indexing ent; QueueOrder := QueueOrder ent; SignedBy := SignedBy ent;
  DataPath := path; ContentName := name
|}.
Definition name_of (file : bytes) : option bytes := if bool_decide (file = []) then None else Some file.
(** Whether [upgradeMagnetSession] has nothing to do. *)
Definition upgrade_skips (ent : sessionEntry) : bool :=
  negb (bool_decide (TorrentFile ent = [])) || bool_decide (AddedVia ent = str "file") ||
  bool_decide (AddedVia ent = str "metainfo").
(** The steps, each with what its goroutine still has to do. [persistSeedAdd] copies
    the file; [persistAdd] makes the entry, unless the handle is removed, and the
    goroutine that waits for the metadata of a magnet starts. *)
Definition copy_file (h : nat) (via : bytes) (raw : option bytes) (seed : option (bytes * bytes)) (ok : bool) (e : Engine)
    : Engine * list task :=
  match raw with
  | None => (e, [Persist h via [] [] seed])
  | Some raw =>
    let '(s, name) := writeTorrentCopy ok (InfoHashHex (h_ih (obj h e))) raw (sess e) in
    (with_sess s e, [Persist h via [] name seed])
  end.
Definition persistAdd (h : nat) (via magnet file : bytes) (seed : option (bytes * bytes)) (ok : bool) (e : Engine)
    : Engine * list task :=
  let e' := with_sess (updateGuarded ok (InfoHashHex (h_ih (obj h e))) (h_removed (obj h e))
              (persist_entry (obj h e) via magnet file) (sess e)) e in
  let e' := if bool_decide (via = str "magnet") || bool_decide (via = str "infohash")
            then with_waiting (waiting e ++ [h]) e' else e' in
  (e', match seed with
       | Some (path, name) => if bool_decide (path = []) then [] else [SeedFields h path name]
       | None => []
       end).
(** [upgradeSignedBy]. *)
Definition upgrade_signed (h : nat) (signed raw : bytes) (e : Engine) : Engine * list task :=
  if negb (bool_decide (h_signedBy (obj h e) = [])) then (e, [])
  else (with_objs (<[h := with_signed signed (obj h e)]> (objs e)) e, [UpgradeCopy h signed raw]).
Definition upgrade_copy (h : nat) (signed raw : bytes) (ok : bool) (e : Engine) : Engine * list task :=
  let '(s, name) := writeTorrentCopy ok (InfoHashHex (h_ih (obj h e))) raw (sess e) in
  (with_sess s e, [UpgradeEntry h signed name]).
(** [upgradeMagnetSession] after the wait. *)
Definition magnet_list (h : nat) (raw : option bytes) (e : Engine) : Engine * list task :=
  match entries (sess e) !! InfoHashHex (h_ih (obj h e)) with
  | Some ent => if upgrade_skips ent then (e, [])
                else (e, match raw with Some raw => [MagnetCopy h raw] | None => [] end)
  | None => (e, match raw with Some raw => [MagnetCopy h raw] | None => [] end)
  end.
Definition magnet_copy (h : nat) (raw : bytes) (ok : bool) (e : Engine) : Engine * list task :=
  let '(s, name) := writeTorrentCopy ok (InfoHashHex (h_ih (obj h e))) raw (sess e) in
  (with_sess s e, if bool_decide (name = []) then [] else [MagnetEntry h name]).
Definition magnet_entry (h : nat) (file : bytes) (ok : bool) (e : Engine) : Engine * list task :=
  let '(s, existed) := updateExisting ok (InfoHashHex (h_ih (obj h e))) (file_entry None (Some file)) (sess e) in
  (with_sess s e, if existed then [] else [Unlink file]).
(** The end of [RemoveTorrent]. *)
Definition drop_entry (h : nat) (ok : bool) (e : Engine) : Engine * list task :=
  let '(s, name) := remove_locked ok (InfoHashHex (h_ih (obj h e))) (sess e) in
  (with_sess s e, match name with Some n => [Unlink n] | None => [] end).
Definition persistState (h : nat) (ok : bool) (e : Engine) : Engine :=
  with_sess (updateExisting ok (InfoHashHex (h_ih (obj h e))) (state_entry (obj h e)) (sess e)).1 e.
(** One step of a task. [ok]: its write succeeds. *)
Definition act_task (t : task) (ok : bool) (e : Engine) : Engine * list task :=
  match t with
  | SetSigned h signed via raw seed =>
    ((if bool_decide (signed = []) then e else with_objs (<[h := with_signed signed (obj h e)]> (objs e)) e),
     [CopyFile h via raw seed])
  | CopyFile h via raw seed => copy_file h via raw seed ok e
  | Persist h via magnet file seed => persistAdd h via magnet file seed ok e
  | SeedFields h path name =>
    (with_sess (updateExisting ok (InfoHashHex (h_ih (obj h e))) (seed_entry path name) (sess e)).1 e, [])
  | UpgradeSigned h signed raw => upgrade_signed h signed raw e
  | UpgradeCopy h signed raw => upgrade_copy h signed raw ok e
  | UpgradeEntry h signed file =>
    (with_sess (updateExisting ok (InfoHashHex (h_ih (obj h e))) (file_entry (Some signed) (name_of file)) (sess e)).1 e, [])
  | MagnetCheck h raw => if h_removed (obj h e) then (e, []) else (e, [MagnetList h raw])
  | MagnetList h raw => magnet_list h raw e
  | MagnetCopy h raw => magnet_copy h raw ok e
  | MagnetEntry h file => magnet_entry h file ok e
  | Unregister h => (with_handles (delete (h_ih (obj h e)) (handles e)) e, [DropEntry h])
  | DropEntry h => drop_entry h ok e
  | Unlink name => (with_sess (unlink name (sess e)) e, [])
  | PersistState h => (persistState h ok e, [])
  end.
(** The [i]-th goroutine takes a step. *)
Definition act (i : nat) (ok : bool) (e : Engine) : Engine :=
  match tasks e !! i with
  | None => e
  | Some t =>
    let '(e', more) := act_task t ok e in
    with_tasks (take i (tasks e) ++ more ++ drop (S i) (tasks e)) e'
  end.
(** The metadata of the [i]-th waiting handle arrives. *)
Definition got_info (i : nat) (e : Engine) : Engine :=
  match waiting e !! i with
  | None => e
  | Some h =>
    spawn (MagnetCheck h (fetched_file (h_ih (obj h e)))) (with_waiting (delete i (waiting e)) e)
  end.

(** ** Restart *)
(** [name <> filepath.Base(name)], or one of the two names that are their own base
    and no file. *)
Definition unsafe_name (name : bytes) : bool :=
  (bool_decide (x2f ∈ name) && negb (bool_decide (name = str "/"))) ||
  bool_decide (name = str ".") || bool_decide (name = str "..").
(** The infohash under which an entry is added again. *)
Definition restored_infohash (s : session) (ent : sessionEntry) : option (array 20) :=
  if negb (bool_decide (TorrentFile ent = [])) && persistent s then
    if unsafe_name (TorrentFile ent) then None
    else
      raw ← copies s !! TorrentFile ent;
      ih ← load_infohash raw;
      if negb (bool_decide (InfoHashHex ih = InfoHash ent)) then None
      else if negb (bool_decide (DataPath ent = [])) && bool_decide (ContentName ent = [])
      then (_ ← info_name raw; Some ih)
      else Some ih
  else if negb (bool_decide (MagnetURI ent = [])) then magnet_infohash (MagnetURI ent)
  else
    b ← Hex.DecodeString (InfoHash ent);
    if len b =? 20 then Some (copy_arr 20 b) else None.
Definition restoreEntry (e : Engine) (ent : sessionEntry) : Engine :=
  match restored_infohash (sess e) ent with
  | None => e
  | Some ih =>
    let '(e, (h, existed)) := registerLockedRestore ih (Some ent) e in
    if existed then e
    else if bool_decide (AddedVia ent = str "file") || bool_decide (AddedVia ent = str "metainfo") then e
    else with_waiting (waiting e ++ [h]) e
  end.
Definition RestoreSession (e : Engine) : Engine := foldl restoreEntry e (list_entries (sess e)).
(** What is on disk is all that is left. *)
Definition restart (e : Engine) : Engine := RestoreSession (NewEngine (loadSession (sess e))).

Inductive op : Type :=
  | OpMagnet (uri : bytes) (accepted : bool) | OpInfoHash (ih : array 20)
  | OpBytes (raw : bytes) (seed : option (bytes * bytes)) (accepted : bool)
  | OpMetaInfo (ih : array 20) (raw : option bytes) (seed : option (bytes * bytes)) (accepted : bool)
  | OpPause (ih : array 20) | OpResume (ih : array 20) | OpIndexing (ih : array 20) (b : bool)
  | OpRemove (ih : array 20) | OpGotInfo (i : nat).
Definition call (o : op) (e : Engine) : Engine :=
  match o with
  | OpMagnet uri a => AddMagnet uri a e
  | OpInfoHash ih => AddInfoHash ih e
  | OpBytes raw seed a => AddTorrentBytes raw seed a e
  | OpMetaInfo ih raw seed a => AddTorrentMetaInfo ih raw seed a e
  | OpPause ih => PauseTorrent ih e
  | OpResume ih => ResumeTorrent ih e
  | OpIndexing ih b => SetTorrentIndexing ih b e
  | OpRemove ih => RemoveTorrent ih e
  | OpGotInfo i => got_info i e
  end.
(** Interleaved: the calls of the user and the steps of the goroutines, in one run
    of the node. *)
Inductive event : Type := Call (o : op) | Act (i : nat) (ok : bool) | Shut.
Definition happen (e : Engine) (v : event) : Engine :=
  match v with
  | Call o => call o e
  | Act i ok => act i ok e
  | Shut => close_engine e
  end.

(** ** What is removed stays removed *)
Lemma hex_inj ih ih' : InfoHashHex ih = InfoHashHex ih' → ih = ih'.
Proof. intros E. apply sl_inj. apply (f_equal Hex.DecodeString) in E. unfold InfoHashHex in E. rewrite !Hex.decode_encode in E. congruence. Qed.
Definition hex_of (e : Engine) (n : nat) : bytes := InfoHashHex (h_ih (obj n e)).
Definition task_handle (t : task) : option nat :=
  match t with
  | SetSigned h _ _ _ _ | CopyFile h _ _ _ | Persist h _ _ _ _ | SeedFields h _ _ | UpgradeSigned h _ _
  | UpgradeCopy h _ _ | UpgradeEntry h _ _ | MagnetCheck h _ | MagnetList h _ | MagnetCopy h _ | MagnetEntry h _
  | Unregister h | DropEntry h | PersistState h => Some h
  | Unlink _ => None
  end.
(** The handle is known, is not removed, or its removal has not come to its entry. *)
Definition holds_entry (e : Engine) (n : nat) : Prop :=
  is_Some (objs e !! n) ∧ (h_removed (obj n e) = false ∨ Unregister n ∈ tasks e ∨ DropEntry n ∈ tasks e).
Record live (e : Engine) : Prop := {
  live_entries : ∀ k ent, entries (sess e) !! k = Some ent → ∃ n, holds_entry e n ∧ hex_of e n = k;
  live_tasks : ∀ t n, t ∈ tasks e → task_handle t = Some n → is_Some (objs e !! n);
  live_waiting : ∀ n, n ∈ waiting e → is_Some (objs e !! n);
  live_handles : ∀ ih n, handles e !! ih = Some n → is_Some (objs e !! n);
  live_next : ∀ n, is_Some (objs e !! n) → (n < next e)%nat
}.
(** What the disk holds is what the session holds. *)
Definition saved (s : session) : Prop :=
  persistent s = true ∧
  (session_json s = None ∧ entries s = ∅ ∨ session_json s = Some (json_encode (sorted_entries (entries s)))).

(** The objects a step leaves alone but for flags and signer. *)
Definition same_objects (e e' : Engine) : Prop :=
  ∀ n, (is_Some (objs e' !! n) ↔ is_Some (objs e !! n)) ∧
       h_ih (obj n e') = h_ih (obj n e) ∧ h_removed (obj n e') = h_removed (obj n e).
Lemma same_objects_eq e e' : objs e' = objs e → same_objects e e'.
Proof. intros He n. unfold obj. by rewrite He. Qed.
Lemma insert_same_objects e n h :
  is_Some (objs e !! n) → h_ih h = h_ih (obj n e) → h_removed h = h_removed (obj n e) →
  same_objects e (with_objs (<[n := h]> (objs e)) e).
Proof.
  intros Hn Hi Hr m. unfold obj. cbn. rewrite lookup_insert. case_decide as E; [subst m | done].
  split; [by split |]. cbn. by rewrite Hi, Hr.
Qed.

Lemma saveLocked_entries ok s : entries (saveLocked ok s) = entries s.
Proof. unfold saveLocked. by destruct (persistent s && ok). Qed.
Lemma saveLocked_copies ok s : copies (saveLocked ok s) = copies s.
Proof. unfold saveLocked. by destruct (persistent s && ok). Qed.
Lemma saveLocked_saved s : persistent s = true → saved (saveLocked true s).
Proof. intros Hp. unfold saveLocked. rewrite Hp. split; [done |]. by right. Qed.
Lemma saveLocked_persistent ok s : persistent (saveLocked ok s) = persistent s.
Proof. unfold saveLocked. by destruct (persistent s) eqn:E, ok. Qed.
Lemma updateExisting_spec ok ih f s :
  let '(s', existed) := updateExisting ok ih f s in
  existed = bool_decide (is_Some (entries s !! ih)) ∧ entries s' = alter f ih (entries s) ∧ copies s' = copies s ∧
  persistent s' = persistent s ∧ (ok = true → saved s → saved s').
Proof.
  unfold updateExisting. destruct (entries s !! ih) as [ent|] eqn:E.
  - rewrite saveLocked_entries, saveLocked_copies, saveLocked_persistent. split; [done |]. split; [|split; [done |]].
    + cbn. apply map_eq. intros k. rewrite lookup_insert, lookup_alter. case_decide; [subst; by rewrite E | done].
    + split; [done |]. intros -> [Hp _]. by apply saveLocked_saved.
  - split; [done |]. split; [|done]. apply map_eq. intros k. rewrite lookup_alter. case_decide; [subst; by rewrite E | done].
Qed.
Lemma writeTorrentCopy_spec ok ih raw s :
  let '(s', name) := writeTorrentCopy ok ih raw s in
  entries s' = entries s ∧ persistent s' = persistent s ∧ session_json s' = session_json s.
Proof. unfold writeTorrentCopy. by destruct (persistent s && ok). Qed.

Lemma updateGuarded_spec ok ih abort f s :
  let s' := updateGuarded ok ih abort f s in
  (entries s' = if abort then entries s
                else <[ih := f (match entries s !! ih with
                                | Some e => {| InfoHash := ih; AddedVia := AddedVia e; MagnetURI := MagnetURI e;
                                               TorrentFile := TorrentFile e; Paused := Paused e; Indexing := Indexing e;
                                               QueueOrder := QueueOrder e; SignedBy := SignedBy e; DataPath := DataPath e;
                                               ContentName := ContentName e |}
                                | None => zero_entry ih end)]> (entries s)) ∧
  copies s' = copies s ∧ persistent s' = persistent s ∧ (ok = true → saved s → saved s').
Proof.
  unfold updateGuarded. destruct abort; [done |].
  rewrite saveLocked_entries, saveLocked_copies, saveLocked_persistent. split_and!; [done.. |].
  intros -> [Hp _]. by apply saveLocked_saved.
Qed.
(** What one step does to the objects, the entries and what is left to do. *)
Record effect (t : task) (ok : bool) (e e' : Engine) (more : list task) : Prop := {
  eff_objs : same_objects e e';
  eff_next : next e' = next e;
  eff_tasks : tasks e' = tasks e;
  eff_handles : ∀ ih n, handles e' !! ih = Some n → handles e !! ih = Some n;
  eff_more : ∀ t' n, t' ∈ more → task_handle t' = Some n → task_handle t = Some n;
  eff_waiting : ∀ n, n ∈ waiting e' → n ∈ waiting e ∨ task_handle t = Some n;
  eff_entries : ∀ k, is_Some (entries (sess e') !! k) →
    is_Some (entries (sess e) !! k) ∨ ∃ n, task_handle t = Some n ∧ h_removed (obj n e) = false ∧ hex_of e n = k;
  eff_unregister : ∀ n, t = Unregister n → DropEntry n ∈ more;
  eff_drop : ∀ n, t = DropEntry n → entries (sess e') !! hex_of e n = None;
  eff_saved : ok = true → saved (sess e) → saved (sess e');
  eff_persistent : persistent (sess e') = persistent (sess e)
}.
Lemma effect_session t ok e s more :
  (∀ k, is_Some (entries s !! k) →
    is_Some (entries (sess e) !! k) ∨ ∃ n, task_handle t = Some n ∧ h_removed (obj n e) = false ∧ hex_of e n = k) →
  (∀ t' n, t' ∈ more → task_handle t' = Some n → task_handle t = Some n) →
  (∀ n, t ≠ Unregister n) → (∀ n, t = DropEntry n → entries s !! hex_of e n = None) →
  (ok = true → saved (sess e) → saved s) → persistent s = persistent (sess e) → effect t ok e (with_sess s e) more.
Proof.
  intros He Hm Hu Hd Hs Hp. split; [by apply same_objects_eq | done | done | done | done | by left | done | | done..].
  intros n Hn. by destruct (Hu n).
Qed.
Lemma effect_none t ok e more :
  (∀ t' n, t' ∈ more → task_handle t' = Some n → task_handle t = Some n) →
  (∀ n, t ≠ Unregister n) → (∀ n, t ≠ DropEntry n) → effect t ok e e more.
Proof.
  intros Hm Hu Hd. split; [by apply same_objects_eq | done | done | done | done | by left | by left | | | done..].
  - intros n Hn. by destruct (Hu n).
  - intros n Hn. by destruct (Hd n).
Qed.
Lemma effect_update t ok e ih f more :
  (∀ t' n, t' ∈ more → task_handle t' = Some n → task_handle t = Some n) →
  (∀ n, t ≠ Unregister n) → (∀ n, t ≠ DropEntry n) →
  effect t ok e (with_sess (updateExisting ok ih f (sess e)).1 e) more.
Proof.
  intros Hm Hu Hd. pose proof (updateExisting_spec ok ih f (sess e)) as Hs.
  destruct (updateExisting ok ih f (sess e)) as [s existed]. destruct Hs as (_ & He & _ & Hp & Hsv).
  apply effect_session; [|done | done | intros n Hn; by destruct (Hd n) | done | done].
  intros k Hk. left. cbn in Hk. rewrite He, lookup_alter in Hk. case_decide; [subst; by apply fmap_is_Some in Hk | done].
Qed.
Lemma effect_copy t ok e ih raw more :
  (∀ t' n, t' ∈ more → task_handle t' = Some n → task_handle t = Some n) →
  (∀ n, t ≠ Unregister n) → (∀ n, t ≠ DropEntry n) →
  effect t ok e (with_sess (writeTorrentCopy ok ih raw (sess e)).1 e) more.
Proof.
  intros Hm Hu Hd. pose proof (writeTorrentCopy_spec ok ih raw (sess e)) as Hs.
  destruct (writeTorrentCopy ok ih raw (sess e)) as [s name]. destruct Hs as (He & Hp & Hj). cbn [fst].
  apply effect_session; [intros k; rewrite He; by left | done | done | intros n Hn; by destruct (Hd n) | | done].
  intros _ [Hp' Hs]. split; [congruence |]. by rewrite He, Hj.
Qed.
Ltac more_tac :=
  first [ by intros ? [=] | by intros ? ? ?%elem_of_nil
        | let Hin := fresh in intros ? ? Hin; repeat (apply elem_of_cons in Hin as [->|Hin]; [done |]);
          by apply elem_of_nil in Hin ].
Lemma act_task_effect t ok e :
  (∀ n, task_handle t = Some n → is_Some (objs e !! n)) →
  effect t ok e (act_task t ok e).1 (act_task t ok e).2.
Proof.
  intros Ht.
  destruct t as [h signed via raw seed|h via [raw|] seed|h via magnet file seed|h path name|h signed raw|h signed raw|
    h signed file|h raw|h raw|h raw|h file|h|h|name|h]; cbn [act_task]; unfold copy_file, persistAdd, upgrade_signed, upgrade_copy, magnet_list, magnet_copy, magnet_entry, drop_entry, persistState.
  - cbn [fst snd]. case_bool_decide; [apply effect_none; more_tac |].
    split; try done; [by apply insert_same_objects; [apply Ht | ..] | more_tac | by left | by left].
  - pose proof (effect_copy (CopyFile h via (Some raw) seed) ok e (InfoHashHex (h_ih (obj h e))) raw) as He.
    destruct (writeTorrentCopy _ _ _ _) as [s name]. apply He; more_tac.
  - apply effect_none; more_tac.
  - set (s := updateGuarded _ _ _ _ _). destruct (updateGuarded_spec ok (InfoHashHex (h_ih (obj h e))) (h_removed (obj h e))
      (persist_entry (obj h e) via magnet file) (sess e)) as (He & _ & Hp & Hsv). fold s in He, Hp, Hsv.
    set (e' := if _ || _ then _ else _).
    assert (Hsame : objs e' = objs e ∧ next e' = next e ∧ tasks e' = tasks e ∧ handles e' = handles e ∧ sess e' = s ∧
      ∀ n, n ∈ waiting e' → n ∈ waiting e ∨ n = h).
    { unfold e'. destruct (_ || _); cbn; split_and!; try done; [|by left].
      intros n [Hn|Hn%list_elem_of_singleton]%elem_of_app; auto. }
    destruct Hsame as (Ho & Hn & Ht' & Hh & Hs & Hw).
    split; cbn [fst snd]; [by apply same_objects_eq | done | done | by rewrite Hh | | | | done | done | by rewrite Hs | by rewrite Hs].
    + destruct seed as [[path name]|]; [case_bool_decide|]; more_tac.
    + intros n [Hn'| ->]%Hw; [by left | by right].
    + intros k. rewrite Hs, He. destruct (h_removed (obj h e)) eqn:Er; [by left |]. rewrite lookup_insert.
      case_decide as Ek; [|by left]. intros _. right. by exists h.
  - cbn [fst snd]. apply effect_update; more_tac.
  - case_bool_decide; cbn [negb fst snd]; [|apply effect_none; more_tac].
    split; try done; [by apply insert_same_objects; [apply Ht | ..] | more_tac | by left | by left].
  - pose proof (effect_copy (UpgradeCopy h signed raw) ok e (InfoHashHex (h_ih (obj h e))) raw) as He.
    destruct (writeTorrentCopy _ _ _ _) as [s name]. apply He; more_tac.
  - cbn [fst snd]. apply effect_update; more_tac.
  - destruct (h_removed _); apply effect_none; more_tac.
  - destruct (entries _ !! _) as [ent|]; [destruct (upgrade_skips ent) |]; destruct raw; apply effect_none; more_tac.
  - pose proof (effect_copy (MagnetCopy h raw) ok e (InfoHashHex (h_ih (obj h e))) raw) as He.
    destruct (writeTorrentCopy _ _ _ _) as [s name]. apply He; [case_bool_decide; more_tac | more_tac | more_tac].
  - pose proof (effect_update (MagnetEntry h file) ok e (InfoHashHex (h_ih (obj h e))) (file_entry None (Some file))) as He.
    destruct (updateExisting _ _ _ _) as [s existed]. apply He; [destruct existed; more_tac | more_tac | more_tac].
  - cbn [fst snd]. split; [by apply same_objects_eq | done | done | | more_tac | by left | by left | | done..].
    + intros ih n. cbn. by intros [_ Hn]%lookup_delete_Some.
    + intros n [= ->]. by left.
  - destruct (remove_locked ok _ (sess e)) as [s name] eqn:E. cbn [fst snd]. unfold remove_locked in E. injection E as <- <-.
    apply effect_session; [| destruct (entries _ !! _); [destruct (_ || _)|]; more_tac | done | | |].
    + intros k. rewrite saveLocked_entries. cbn. intros [ent [_ Hk]%lookup_delete_Some]. left. by eexists.
    + intros n [= ->]. rewrite saveLocked_entries. apply lookup_delete_eq.
    + intros -> [Hp _]. apply saveLocked_saved. exact Hp.
    + rewrite saveLocked_persistent. done.
  - cbn [fst snd]. apply effect_session; [by left | more_tac | done..].
  - cbn [fst snd]. apply effect_update; more_tac.
Qed.

(** Objects kept but for flags, tasks only added. *)
Lemma live_weaken e e' :
  live e → same_objects e e' → next e' = next e → (∀ ih n, handles e' !! ih = Some n → handles e !! ih = Some n) →
  sess e' = sess e → (∀ n, n ∈ waiting e' → n ∈ waiting e) → (∀ t, t ∈ tasks e → t ∈ tasks e') →
  (∀ t n, t ∈ tasks e' → task_handle t = Some n → t ∈ tasks e ∨ is_Some (objs e !! n)) → live e'.
Proof.
  intros [He Ht Hw Hh Hn] Hs Hnx Hhd Hse Hwt Hta Hnew. split.
  - rewrite Hse. intros k ent Hk. destruct (He k ent Hk) as (n & [Ho Hr] & Hx). exists n. destruct (Hs n) as (Hso & Hi & Hrm).
    split; [split; [by apply Hso |] | unfold hex_of; by rewrite Hi].
    rewrite Hrm. destruct Hr as [|[|]]; auto.
  - intros t n Hin Htn. apply Hs. destruct (Hnew t n Hin Htn); eauto.
  - intros n Hin. apply Hs. auto.
  - intros ih n Hin. apply Hs. eauto.
  - intros n Hin%Hs. rewrite Hnx. auto.
Qed.
Lemma live_spawn t e : live e → (∀ n, task_handle t = Some n → is_Some (objs e !! n)) → live (spawn t e).
Proof.
  intros He Ht. apply (live_weaken e); [done | by apply same_objects_eq | done | done | done | done | |].
  - intros t'. cbn. rewrite elem_of_app. auto.
  - intros t' n. cbn. intros [|Hin%list_elem_of_singleton]%elem_of_app; [by left |]. subst. right. auto.
Qed.
Lemma register_live ih r e :
  live e →
  let '(e', (h, _)) := registerLockedRestore ih r e in live e' ∧ is_Some (objs e' !! h) ∧ sess e' = sess e.
Proof.
  intros Hl. pose proof Hl as [He Ht Hw Hh Hn]. unfold registerLockedRestore. destruct (handles e !! ih) as [h|] eqn:E; [by eauto |].
  assert (Hne : ∀ n, is_Some (objs e !! n) → n ≠ next e) by (intros n Ho%Hn; lia).
  cbn [objs sess]. split; [|by rewrite lookup_insert_eq]. split; cbn [sess handles objs next tasks waiting].
  - intros k ent Hk. destruct (He k ent Hk) as (n & [Ho Hr] & Hx). exists n. pose proof (Hne n Ho).
    unfold holds_entry, hex_of, obj in *. cbn. by rewrite !lookup_insert_ne by done.
  - intros t n Hin Htn. pose proof (Ht t n Hin Htn). rewrite lookup_insert_ne; [done |]. intros <-. by destruct (Hne (next e)).
  - intros n Hin. pose proof (Hw n Hin). rewrite lookup_insert_ne; [done |]. intros <-. by destruct (Hne (next e)).
  - intros ih' n. rewrite !lookup_insert. repeat case_decide; intros; simplify_eq; try done. by eapply Hh.
  - intros n. rewrite lookup_insert. case_decide; [lia |]. intros Ho%Hn. lia.
Qed.
Lemma change_live ih f idle e :
  (∀ h, h_ih (f h) = h_ih h ∧ h_removed (f h) = h_removed h) → live e → live (change ih f idle e).
Proof.
  intros Hf Hl. unfold change. destruct (handles e !! ih) as [h|] eqn:E; [|done]. destruct (idle _); [done |].
  pose proof (live_handles e Hl ih h E) as Ho. apply live_spawn.
  - apply (live_weaken e); [done | | done | done | done | done | done | by left]. apply insert_same_objects; [done | apply Hf..].
  - intros n [= <-]. cbn. by rewrite lookup_insert_eq.
Qed.
Lemma remove_live ih e : live e → live (RemoveTorrent ih e).
Proof.
  intros Hl. unfold RemoveTorrent. destruct (handles e !! ih) as [h|] eqn:E; [|done].
  pose proof (live_handles e Hl ih h E) as Ho. destruct Hl as [He Ht Hw Hh Hn].
  assert (Hsome : ∀ n, is_Some (<[h := mark_removed (obj h e)]> (objs e) !! n) ↔ is_Some (objs e !! n)).
  { intros n. rewrite lookup_insert. case_decide; [subst; by split | done]. }
  split; cbn [spawn with_tasks with_objs sess handles objs next tasks waiting].
  - intros k ent Hk. destruct (He k ent Hk) as (n & [Hn' Hr] & Hx). exists n.
    unfold holds_entry, hex_of, obj in *. cbn. rewrite Hsome. rewrite lookup_insert. case_decide as En.
    + subst n. cbn. split; [|done]. split; [done |]. right. left. apply elem_of_app. right. by apply list_elem_of_singleton.
    + split; [|done]. split; [done |]. rewrite !elem_of_app. tauto.
  - intros t n [Hin|Hin%list_elem_of_singleton]%elem_of_app Htn; apply Hsome; [by eapply Ht |]. subst. by injection Htn as <-.
  - intros n Hin. apply Hsome. auto.
  - intros ih' n Hin. apply Hsome. eauto.
  - intros n Hin%Hsome. auto.
Qed.
Lemma add_file_live ih signed via raw seed e : live e → live (add_file ih signed via raw seed e).
Proof.
  intros Hl. unfold add_file. pose proof (register_live ih None e Hl) as Hr.
  destruct (registerLockedRestore ih None e) as [e' [h existed]]. destruct Hr as (Hl' & Ho & _).
  destruct existed; [case_bool_decide; [done |]|]; apply live_spawn; try done; by intros n [= <-].
Qed.
Lemma call_live o e : live e → live (call o e).
Proof.
  intros Hl. destruct o as [uri a|ih|raw seed a|ih raw seed a|ih|ih|ih b|ih|i]; cbn [call]; try done.
  - unfold AddMagnet. destruct (magnet_infohash uri) as [ih|]; [|done]. destruct (_ || _); [done |].
    pose proof (register_live ih None e Hl) as Hg. destruct (registerLockedRestore ih None e) as [e' [h existed]].
    destruct Hg as (Hl' & Ho & _). destruct existed; [done |]. apply live_spawn; [done |]. by intros n [= <-].
  - unfold AddInfoHash. destruct (_ || _); [done |].
    pose proof (register_live ih None e Hl) as Hg. destruct (registerLockedRestore ih None e) as [e' [h existed]].
    destruct Hg as (Hl' & Ho & _). destruct existed; [done |]. apply live_spawn; [done |]. by intros n [= <-].
  - unfold AddTorrentBytes. destruct (parseTorrentBytes raw); [|done]. destruct (_ || _); [done |]. by apply add_file_live.
  - unfold AddTorrentMetaInfo. destruct (_ || _); [done |]. by apply add_file_live.
  - by apply change_live.
  - by apply change_live.
  - by apply change_live.
  - by apply remove_live.
  - unfold got_info. destruct (waiting e !! i) as [h|] eqn:E; [|done].
    assert (Hin : h ∈ waiting e) by (by eapply list_elem_of_lookup_2).
    apply live_spawn; [|intros n [= <-]; cbn; by apply (live_waiting e Hl)].
    apply (live_weaken e); [done | by apply same_objects_eq | done | done | done | | done | by left].
    intros n. cbn. rewrite delete_take_drop, elem_of_app. intros [Hn|Hn].
    + by eapply subseteq_take.
    + by eapply subseteq_drop.
Qed.
Lemma act_live i ok e : live e → live (act i ok e).
Proof.
  intros Hl. unfold act. destruct (tasks e !! i) as [t|] eqn:E; [|done].
  assert (Hin : t ∈ tasks e) by (by eapply list_elem_of_lookup_2).
  pose proof (act_task_effect t ok e ltac:(intros n Hn; by eapply (live_tasks e Hl))) as Heff.
  destruct (act_task t ok e) as [e' more]. destruct Heff as [Ho Hnx _ Hhd Hm Hw He Hu Hd _ _]. cbn [fst snd] in *.
  pose proof Hl as [Hle Hlt Hlw Hlh Hln].
  set (ts := take i (tasks e) ++ more ++ drop (S i) (tasks e)).
  assert (Hts : ∀ t', t' ∈ ts → t' ∈ tasks e ∨ t' ∈ more).
  { intros t'. unfold ts. rewrite !elem_of_app. intros [Ht|[Ht|Ht]]; [left; by eapply subseteq_take | by right | left; by eapply subseteq_drop]. }
  assert (Hkeep : ∀ t', t' ∈ tasks e → t' = t ∨ t' ∈ ts).
  { intros t' Ht'. rewrite <-(take_drop_middle _ _ _ E), elem_of_app, elem_of_cons in Ht'. unfold ts. rewrite !elem_of_app. tauto. }
  split; cbn [with_tasks sess handles objs next tasks waiting].
  - intros k ent Hk.
    assert (Hold : ∃ n, holds_entry e n ∧ hex_of e n = k).
    { destruct (He k ltac:(by eexists)) as [[ent' Hk']|(n & Hn & Hr & Hx)]; [by eapply Hle |].
      exists n. split; [|done]. split; [by eapply Hlt | by left]. }
    destruct Hold as (n & [Hn Hr] & Hx). exists n. destruct (Ho n) as (Hso & Hi & Hrm).
    split; [|unfold hex_of in *; change (obj n (with_tasks ts e')) with (obj n e'); by rewrite Hi].
    split; [by apply Hso |]. change (obj n (with_tasks ts e')) with (obj n e'). rewrite Hrm. cbn [tasks with_tasks].
    destruct Hr as [Hr|[Hr|Hr]]; [by left | |].
    + destruct (Hkeep _ Hr) as [Ht|Ht]; [|by right; left]. right. right. unfold ts. rewrite !elem_of_app. right. left. by apply Hu.
    + destruct (Hkeep _ Hr) as [Ht|Ht]; [|by right; right]. specialize (Hd n (eq_sym Ht)). rewrite Hx in Hd. congruence.
  - intros t' n Hin' Htn. apply Ho. apply Hts in Hin' as [Hin'|Hin']; [by eapply Hlt |]. eapply Hlt; [exact Hin |]. by eapply Hm.
  - intros n Hn. apply Ho. apply Hw in Hn as [Hn|Hn]; [auto | by eapply Hlt].
  - intros ih n Hn%Hhd. apply Ho. eauto.
  - intros n Hn%Ho. rewrite Hnx. auto.
Qed.

Lemma register_sess ih r e : sess (registerLockedRestore ih r e).1 = sess e.
Proof. unfold registerLockedRestore. by destruct (handles e !! ih). Qed.
Lemma add_file_sess ih signed via raw seed e : sess (add_file ih signed via raw seed e) = sess e.
Proof.
  unfold add_file. pose proof (register_sess ih None e) as Hr.
  destruct (registerLockedRestore ih None e) as [e' [h []]]; [by case_bool_decide | done].
Qed.
Lemma call_sess o e : sess (call o e) = sess e.
Proof.
  destruct o as [uri a|ih|raw seed a|ih raw seed a|ih|ih|ih b|ih|i]; cbn [call]; try done.
  - unfold AddMagnet. destruct (magnet_infohash uri) as [ih|]; [|done]. destruct (_ || _); [done |].
    pose proof (register_sess ih None e). by destruct (registerLockedRestore ih None e) as [e' [h []]].
  - unfold AddInfoHash. destruct (_ || _); [done |].
    pose proof (register_sess ih None e). by destruct (registerLockedRestore ih None e) as [e' [h []]].
  - unfold AddTorrentBytes. destruct (parseTorrentBytes raw); [|done]. destruct (_ || _); [done | apply add_file_sess].
  - unfold AddTorrentMetaInfo. destruct (_ || _); [done | apply add_file_sess].
  - unfold PauseTorrent, change. destruct (handles e !! ih); [|done]. by destruct (h_paused _).
  - unfold ResumeTorrent, change. destruct (handles e !! ih); [|done]. by destruct (negb _).
  - unfold SetTorrentIndexing, change. by destruct (handles e !! ih).
  - unfold RemoveTorrent. by destruct (handles e !! ih).
  - unfold got_info. by destruct (waiting e !! i).
Qed.
Definition empty_session : session := {| persistent := true; entries := ∅; session_json := None; copies := ∅ |}.
Lemma live_fresh : live (NewEngine empty_session).
Proof. split; cbn; try done; [by intros t n ?%elem_of_nil | by intros n ?%elem_of_nil | by intros n []]. Qed.
Definition written (v : event) : Prop := match v with Act _ ok => ok = true | _ => True end.
Lemma happen_live e v : live e → live (happen e v).
Proof.
  intros Hl. destruct v as [o|i ok|]; cbn [happen]; [by apply call_live | by apply act_live |].
  apply (live_weaken e); [done | by apply same_objects_eq | done | done | done | done | done | by left].
Qed.
Lemma happen_saved e v : live e → written v → saved (sess e) → saved (sess (happen e v)).
Proof.
  intros Hl Hv Hs. destruct v as [o|i ok|]; cbn [happen written] in *; [by rewrite call_sess | |done].
  - unfold act. destruct (tasks e !! i) as [t|] eqn:E; [|done].
    assert (Hin : t ∈ tasks e) by (by eapply list_elem_of_lookup_2).
    pose proof (act_task_effect t ok e ltac:(intros n Hn; by eapply (live_tasks e Hl))) as Heff.
    destruct (act_task t ok e) as [e' more]. exact (eff_saved _ _ _ _ _ Heff Hv Hs).
Qed.
Lemma happens events e :
  live e → live (foldl happen e events) ∧
  (Forall written events → saved (sess e) → saved (sess (foldl happen e events))).
Proof.
  revert e. induction events as [|v vs IH]; intros e Hl; [done |]. cbn [foldl].
  destruct (IH (happen e v) (happen_live e v Hl)) as [Hl' Hs]. split; [done |].
  intros [Hv Hvs]%Forall_cons Hse. apply Hs; [done | by apply happen_saved].
Qed.

(** ** Restart

    Entries are kept under their own infohash. *)
Definition keyed (m : gmap bytes sessionEntry) : Prop := ∀ k ent, m !! k = Some ent → InfoHash ent = k ∧ len k = 40.
Lemma len_hex ih : len (InfoHashHex ih) = 40.
Proof. unfold InfoHashHex, len, sl. rewrite Hex.length_encode, length_vec_to_list. done. Qed.
Lemma keyed_insert m ih ent : keyed m → InfoHash ent = InfoHashHex ih → keyed (<[InfoHashHex ih := ent]> m).
Proof. intros Hm He k ent'. rewrite lookup_insert. case_decide; [intros [= <-]; subst; by rewrite len_hex | apply Hm]. Qed.
Lemma keyed_update ok ih f s :
  (∀ ent, InfoHash (f ent) = InfoHash ent) → keyed (entries s) → keyed (entries (updateExisting ok ih f s).1).
Proof.
  intros Hf Hm. pose proof (updateExisting_spec ok ih f s) as Hs. destruct (updateExisting ok ih f s) as [s' existed].
  destruct Hs as (_ & He & _). cbn [fst]. rewrite He. intros k ent. rewrite lookup_alter. case_decide; [|apply Hm].
  intros (ent' & Hk & ->)%fmap_Some. rewrite Hf. subst. by apply Hm.
Qed.
Lemma keyed_copy ok ih raw s : entries (writeTorrentCopy ok ih raw s).1 = entries s.
Proof. pose proof (writeTorrentCopy_spec ok ih raw s) as Hs. destruct (writeTorrentCopy ok ih raw s). apply Hs. Qed.
Lemma act_task_keyed t ok e : keyed (entries (sess e)) → keyed (entries (sess (act_task t ok e).1)).
Proof.
  intros Hk. destruct t as [h signed via raw seed|h via [raw|] seed|h via magnet file seed|h path name|h signed raw|h signed raw|
    h signed file|h raw|h raw|h raw|h file|h|h|name|h]; cbn [act_task]; unfold copy_file, persistAdd, upgrade_signed, upgrade_copy, magnet_list, magnet_copy, magnet_entry, drop_entry, persistState.
  all: try (by apply keyed_update). all: try (by destruct (h_removed _)). all: try done.
  - by destruct (bool_decide _).
  - pose proof (keyed_copy ok (InfoHashHex (h_ih (obj h e))) raw (sess e)) as Hc. destruct (writeTorrentCopy _ _ _ _). by rewrite <-Hc in Hk.
  - set (s := updateGuarded _ _ _ _ _). destruct (updateGuarded_spec ok (InfoHashHex (h_ih (obj h e))) (h_removed (obj h e))
      (persist_entry (obj h e) via magnet file) (sess e)) as (He & _). fold s in He.
    assert (keyed (entries s)).
    { rewrite He. destruct (h_removed _); [done |]. apply keyed_insert; [done |]. by destruct (entries (sess e) !! _). }
    by destruct (_ || _).
  - by destruct (negb _).
  - pose proof (keyed_copy ok (InfoHashHex (h_ih (obj h e))) raw (sess e)) as Hc. destruct (writeTorrentCopy _ _ _ _). by rewrite <-Hc in Hk.
  - destruct (entries _ !! _) as [ent|]; [by destruct (upgrade_skips ent) | done].
  - pose proof (keyed_copy ok (InfoHashHex (h_ih (obj h e))) raw (sess e)) as Hc. destruct (writeTorrentCopy _ _ _ _). by rewrite <-Hc in Hk.
  - pose proof (keyed_update ok (InfoHashHex (h_ih (obj h e))) (file_entry None (Some file)) (sess e) ltac:(done) Hk) as Hu.
    by destruct (updateExisting _ _ _ _).
  - unfold remove_locked. cbn [fst with_sess sess]. rewrite saveLocked_entries. cbn.
    intros k ent [_ Hd]%lookup_delete_Some. by apply Hk.
Qed.
Lemma happens_keyed events e : keyed (entries (sess e)) → keyed (entries (sess (foldl happen e events))).
Proof.
  revert e. induction events as [|v vs IH]; intros e Hk; [done |]. cbn [foldl]. apply IH.
  destruct v as [o|i ok|]; cbn [happen]; [by rewrite call_sess | |done].
  - unfold act. destruct (tasks e !! i) as [t|]; [|done]. pose proof (act_task_keyed t ok e Hk) as Ha.
    by destruct (act_task t ok e).
Qed.

(** Reading the file back. *)
Lemma elem_of_sorted m ent : keyed m → ent ∈ sorted_entries m ↔ m !! InfoHash ent = Some ent.
Proof.
  intros Hm. unfold sorted_entries. rewrite stable_sort_perm, list_elem_of_fmap. split.
  - intros ([k ent'] & -> & Hk%elem_of_map_to_list). cbn. destruct (Hm k ent' Hk) as [-> _]. done.
  - intros He. exists (InfoHash ent, ent). split; [done |]. by apply elem_of_map_to_list.
Qed.
Lemma load_rows (l : list sessionEntry) (m : gmap bytes sessionEntry) k ent :
  (∀ a b, a ∈ l → b ∈ l → InfoHash a = InfoHash b → a = b) →
  foldl (λ m e, <[InfoHash e := e]> m) m l !! k = Some ent ↔
  (ent ∈ l ∧ InfoHash ent = k) ∨ (m !! k = Some ent ∧ ∀ a, a ∈ l → InfoHash a ≠ k).
Proof.
  revert m. induction l as [|x l IH]; intros m Hl; cbn [foldl].
  { split; [intros Hm; right; split; [done | by intros a ?%elem_of_nil] | by intros [[?%elem_of_nil _]|[Hm _]]]. }
  rewrite IH by (intros a b Ha Hb; apply Hl; by right). rewrite lookup_insert. split.
  - intros [[Hin Hk]|[Hm Hno]]; [left; split; [by right | done] |]. case_decide as Ek.
    + injection Hm as <-. left. split; [by left | done].
    + right. split; [done |]. by intros a [->|Ha]%elem_of_cons; [|apply Hno].
  - intros [[[->|Hin]%elem_of_cons Hk]|[Hm Hno]].
    + destruct (decide (k ∈ InfoHash <$> l)) as [(a & -> & Ha)%list_elem_of_fmap|Hnone].
      * left. split; [|done]. rewrite (Hl x a); [done | by left | by right | done].
      * right. split; [by rewrite decide_True | intros a Ha <-; apply Hnone]. by apply list_elem_of_fmap_2.
    + by left.
    + right. rewrite decide_False by (apply Hno; by left). split; [done |]. intros a Ha. apply Hno. by right.
Qed.
Lemma load_saved `{!SessionJsonLaws} s :
  saved s → keyed (entries s) → map_Forall (λ _, entry_utf8) (entries s) → entries (loadSession s) = entries s.
Proof.
  intros [Hp Hs] Hk Hu. unfold loadSession. rewrite Hp. cbn [entries]. destruct Hs as [[-> He]|Hj]; [by rewrite He |].
  rewrite Hj. set (l := sorted_entries (entries s)).
  assert (Hl : ∀ a, a ∈ l ↔ entries s !! InfoHash a = Some a) by (intros a; by apply elem_of_sorted).
  replace (match Some (json_encode l) with None | Some [] => [] | Some raw => default [] (json_decode raw) end) with l.
  2:{ pose proof (json_nonempty l). destruct (json_encode l) eqn:E; [done |]. rewrite <-E, json_decode_encode; [done |].
      apply Forall_forall. intros a Ha%Hl. by eapply Hu. }
  assert (Hf : ∀ a, a ∈ List.filter (λ e, len (InfoHash e) =? 40) l ↔ entries s !! InfoHash a = Some a).
  { intros a. rewrite list_elem_of_In, filter_In, <-list_elem_of_In, Hl. split; [by intros [] |].
    intros Ha. split; [done |]. apply Z.eqb_eq. by apply (Hk _ _ Ha). }
  apply map_eq. intros k. apply option_eq. intros ent. rewrite load_rows.
  - rewrite Hf, lookup_empty. split; [by intros [[Ha <-]|[]] |]. intros He. left.
    destruct (Hk _ _ He) as [-> _]. done.
  - intros a b Ha%Hf Hb%Hf E. rewrite E in Ha. congruence.
Qed.

(** [C39] However additions, changes, removals, arriving metadata and the steps of
    their goroutines interleave, and whichever writes fail: once every handle a
    torrent ever had is removed, and the removals have come past its session
    entry, it has no entry again.  While all writes succeed, the file on disk is
    the session, so a restart does not bring the torrent back either. *)
Theorem removed_stays_removed events :
  let e := foldl happen (NewEngine empty_session) events in
  (∀ ih, (∀ n h, objs e !! n = Some h → h_ih h = ih →
      h_removed h = true ∧ (Unregister n ∉ tasks e) ∧ (DropEntry n ∉ tasks e)) →
    entries (sess e) !! InfoHashHex ih = None) ∧
  (Forall written events → saved (sess e)).
Proof.
  intros e. destruct (happens events _ live_fresh) as [Hl Hs]. fold e in Hl, Hs. split.
  - intros ih Hr. destruct (entries (sess e) !! InfoHashHex ih) as [ent|] eqn:E; [|done].
    destruct (live_entries e Hl _ _ E) as (n & [[h Hn] Hh] & Hx). unfold hex_of, obj in *. rewrite Hn in *. cbn in *.
    apply hex_inj in Hx. destruct (Hr n h Hn Hx) as (Hrm & Hu & Hd). destruct Hh as [Hh|[Hh|Hh]]; congruence || done.
  - intros Hw. apply Hs; [done |]. split; [done |]. by left.
Qed.

(** What an entry restores to. *)
Definition restored_handle (ih : array 20) (ent : sessionEntry) : Handle := {|
  h_ih := ih; h_paused := Paused ent; h_indexing := Indexing ent; h_signedBy := SignedBy ent;
  h_queueOrder := QueueOrder ent; h_removed := false
|}.
Definition restored_at (e : Engine) (l : list sessionEntry) (ih : array 20) (n : nat) : Prop :=
  ∃ ent, ent ∈ l ∧ restored_infohash (sess e) ent = Some ih ∧
    objs e !! n = Some (restored_handle ih ent) ∧ QueueOrder ent ≤ nextQueueOrder e.
Record restores (s : session) (l : list sessionEntry) (e : Engine) : Prop := {
  res_sess : sess e = s;
  res_fresh : ∀ ih n, handles e !! ih = Some n → (n < next e)%nat;
  res_from : ∀ ih n, handles e !! ih = Some n → restored_at e l ih n;
  res_all : ∀ ent ih, ent ∈ l → restored_infohash s ent = Some ih → is_Some (handles e !! ih)
}.
Lemma restored_at_snoc e l x ih n : restored_at e l ih n → restored_at e (l ++ [x]) ih n.
Proof. intros (ent & He & Hx). exists ent. split; [by apply elem_of_app; left | done]. Qed.
Lemma restore_entries s l : restores s l (foldl restoreEntry (NewEngine s) l).
Proof.
  induction l as [|x l IH] using rev_ind; [split; cbn; try done; by intros ? ? ?%elem_of_nil |].
  rewrite foldl_snoc. set (e := foldl _ _ l) in *. destruct IH as [Hs Hf Hfrom Hall]. unfold restoreEntry. rewrite Hs.
  destruct (restored_infohash s x) as [ih|] eqn:E.
  2:{ split; [done.. | intros; by apply restored_at_snoc, Hfrom |].
      intros ent ih [He|He%list_elem_of_singleton]%elem_of_app Hi; [by eapply Hall | congruence]. }
  unfold registerLockedRestore. destruct (handles e !! ih) as [h|] eqn:Eh.
  { split; [done.. | intros; by apply restored_at_snoc, Hfrom |].
    intros ent ih' [He|He%list_elem_of_singleton]%elem_of_app Hi; [by eapply Hall |].
    subst ent. replace ih' with ih by congruence. by eexists. }
  set (q := if _ <? _ then _ else _). set (e1 := {| handles := _ |}).
  assert (Hq : nextQueueOrder e ≤ q ∧ QueueOrder x ≤ q) by (unfold q; case_match eqn:El; [apply Z.ltb_lt in El | apply Z.ltb_ge in El]; lia).
  assert (Hr : restores s (l ++ [x]) e1).
  { split; cbn [e1 sess handles objs next nextQueueOrder]; [done | | |].
    - intros ih' n. rewrite lookup_insert. case_decide; [intros [= <-]; lia | intros Hn%Hf; lia].
    - intros ih' n. rewrite lookup_insert. case_decide as Ei.
      + intros [= <-]. subst ih'. exists x. cbn. rewrite Hs, lookup_insert_eq.
        split; [apply elem_of_app; right; by left | split_and!; [done.. | lia]].
      + intros Hn. destruct (Hfrom ih' n Hn) as (ent & He & Hi & Ho & Hle). exists ent. cbn.
        split; [by apply elem_of_app; left |]. split; [done |].
        rewrite lookup_insert_ne by (apply Hf in Hn; lia). split; [done | lia].
    - intros ent ih' [He|He%list_elem_of_singleton]%elem_of_app Hi; rewrite lookup_insert; case_decide; try done.
      + by eapply Hall.
      + congruence. }
  destruct (_ || _); [done |]. by destruct Hr.
Qed.

End engine.

Module Examples.
#[local] Existing Instance ToySig.toy_ed25519.
#[local] Existing Instance Signing.Examples.toy_dict.
Definition flag (b : bool) : bytes := if b then [x01] else [].
Definition fields (e : sessionEntry) : list bytes :=
  [InfoHash e; AddedVia e; MagnetURI e; TorrentFile e; flag (Paused e); flag (Indexing e);
   ToyCodec.enc_pos (encode (QueueOrder e)); SignedBy e; DataPath e; ContentName e].
Fixpoint of_fields (l : list bytes) : option (list sessionEntry) :=
  match l with
  | [] => Some []
  | ih :: via :: uri :: file :: p :: i :: q :: signed :: path :: name :: l =>
    q ← ToyCodec.dec_pos q ≫= decode; l ← of_fields l;
    Some ({| InfoHash := ih; AddedVia := via; MagnetURI := uri; TorrentFile := file; Paused := bool_decide (p = [x01]);
             Indexing := bool_decide (i = [x01]); QueueOrder := q; SignedBy := signed; DataPath := path; ContentName := name |} :: l)
  | _ => None
  end.
#[export] Instance toy_json : SessionJson := {|
  json_encode l := ToyCodec.enc (str "session" :: (l ≫= fields));
  json_decode b := match ToyCodec.dec [] b with Some (_ :: l) => of_fields l | _ => None end
|}.
#[export] Instance toy_json_laws : SessionJsonLaws.
Proof.
  split; [|by intros l]. intros l _. cbn [json_encode json_decode toy_json]. rewrite ToyCodec.dec_enc.
  induction l as [|e l IH]; [done |]. cbn -[decode encode ToyCodec.enc_pos ToyCodec.dec_pos].
  rewrite ToyCodec.dec_enc_pos. cbn -[decode encode]. rewrite decode_encode. cbn. rewrite IH. by destruct e as [???? [] []].
Qed.
(** A torrent file and a link begin with the infohash. *)
#[export] Instance toy_torrents : Torrents := {|
  contract_infohash raw := if len raw =? 20 then Some (copy_arr 20 raw) else None;
  load_infohash raw := Some (copy_arr 20 raw);
  info_name raw := Some raw;
  magnet_infohash uri := Some (copy_arr 20 uri);
  fetched_file ih := Some (sl ih)
|}.
#[export] Instance toy_torrents_laws : TorrentsLaws.
Proof. intros ih raw [= <-]. cbn. by rewrite copy_arr_sl. Qed.

Definition link : bytes := str "aaaaaaaaaaaaaaaaaaaa".
Definition file : bytes := str "bbbbbbbbbbbbbbbbbbbb".
Definition start : Engine := NewEngine empty_session.
Definition added : list event := [Call (OpMagnet link true); Act 0 true].
Definition removed : list event := added ++ [Call (OpRemove (copy_arr 20 link)); Act 0 true].

(** Between the moment a removed torrent leaves the map and the one its entry goes,
    it can be added again; the entry that goes is then the new one. *)
Example readded_is_forgotten :
  let e := foldl happen start (removed ++ [Call (OpMagnet link true); Act 1 true; Act 0 true]) in
  handles e !! copy_arr 20 link = Some 1%nat ∧ h_removed (obj 1 e) = false ∧ tasks e = [] ∧
  entries (sess e) !! InfoHashHex (copy_arr 20 link) = None ∧ handles (restart e) !! copy_arr 20 link = None.
Proof. by vm_compute. Qed.
(** The copy is unlinked outside the lock: a torrent added again in between keeps
    its entry, which names a copy that is gone, and no restart restores it. *)
Example readded_without_copy :
  let e := foldl happen start
    ([Call (OpBytes file None true)] ++ replicate 3 (Act 0 true) ++ [Call (OpRemove (copy_arr 20 file)); Act 0 true; Act 0 true] ++
     [Call (OpBytes file None true)] ++ replicate 3 (Act 1 true) ++ [Act 0 true]) in
  tasks e = [] ∧ handles e !! copy_arr 20 file = Some 1%nat ∧
  TorrentFile <$> entries (sess e) !! InfoHashHex (copy_arr 20 file) = Some (torrent_name (InfoHashHex (copy_arr 20 file))) ∧
  copies (sess e) = ∅ ∧ handles (restart e) !! copy_arr 20 file = None.
Proof. by vm_compute. Qed.
(** A removal whose write fails is undone by a restart. *)
Example removal_not_written :
  let e := foldl happen start (removed ++ [Act 0 false]) in
  entries (sess e) = ∅ ∧ h_paused <$> (handles (restart e) !! copy_arr 20 link ≫= λ n, objs (restart e) !! n) = Some false.
Proof. by vm_compute. Qed.

Lemma removed_stays_removed_witness :
  let e := foldl happen start (removed ++ [Act 0 true]) in
  entries (sess e) !! InfoHashHex (copy_arr 20 link) = None ∧ saved (sess e).
Proof.
  destruct (removed_stays_removed (removed ++ [Act 0 true])) as [Hr Hs]. split.
  - apply Hr. intros n h Hn _. apply elem_of_map_to_list in Hn. vm_compute in Hn.
    apply list_elem_of_singleton in Hn. injection Hn as -> ->. vm_compute. split; [done |].
    by split; intros ?%elem_of_nil.
  - apply Hs. repeat constructor.
Defined.
#[export] Instance valid_dec s : Decision (Utf8.valid s). Proof. unfold Utf8.valid. apply _. Defined.
Lemma entry_utf8_strings e :
  entry_utf8 e ↔ Forall Utf8.valid [InfoHash e; AddedVia e; MagnetURI e; TorrentFile e; SignedBy e; DataPath e; ContentName e].
Proof. rewrite !Forall_cons, Forall_nil. split; [by intros [] | intros (? & ? & ? & ? & ? & ? & ? & _); by split]. Qed.
#[export] Instance entry_utf8_dec e : Decision (entry_utf8 e).
Proof.
  refine (cast_if (decide (Forall Utf8.valid
    [InfoHash e; AddedVia e; MagnetURI e; TorrentFile e; SignedBy e; DataPath e; ContentName e]))); by rewrite entry_utf8_strings.
Defined.
End Examples.
End Session.
